(* ===== verification/_CoqProject ===== *)
-Q . S2P
Prelude.v
TaskState.v
Model.v
Engine.v
RetryPolicy.v
Requests.v
Handlers.v
MemoryStore.v
MemoryInvariant.v
MemoryPreservation.v
MemoryHistory.v
MemoryQueries.v
MemorySpec.v
Fixtures.v
MemoryProperties.v
RequestProperties.v
SqliteIds.v
SqliteStore.v
SqliteAdmin.v
SqliteInvariant.v
SqliteRefinement.v
SqliteQueries.v
SqlitePruning.v
SqliteOutbox.v
SqliteHistory.v
SqliteFixtures.v
SqliteProperties.v
Schema.v
SchemaProperties.v
TaskStore.v
StoreOwner.v
Programs.v
SqliteOpen.v
SqliteOpenProperties.v
ServiceMonad.v
Publisher.v
PublisherLogic.v
PublisherSpecs.v
PublisherDrain.v
PublisherProperties.v
PublisherAnswers.v
Service.v
ServiceLogic.v
ServiceSpecs.v
ServiceScheduler.v
ServicePool.v
Shutdown.v
ShutdownThreads.v
ServiceResources.v
ShutdownInvariant.v
ShutdownRefinement.v
System.v
ServiceRecovery.v
ServiceAttempts.v
ServiceFixtures.v
ServiceClient.v
Construction.v
ServiceProperties.v
ShutdownProperties.v
ServiceSignals.v
SystemProperties.v
ConstructionProperties.v
