(* ===== verification/Prelude.v ===== *)
(** * Verification of [qubit-task]

    [qubit-task] (src/src) runs tasks durably inside one process.  A client
    submits a typed request; the service encodes it, a store accepts it, the
    scheduler starts it when the engine has the resources, a handler runs it,
    and the outcome is written back with a compare-and-set on the task's
    version.  Failed attempts are retried after a delay, clients may cancel,
    unfinished tasks are recovered after a restart, and with an event bus every
    version of a task is announced through an outbox in the same transaction.

    ** The parts and where they are modelled

    - Data model (model/, model/typed/, store/store_error.rs): [TaskState] has
      the lifecycle and its transition table, [Model] summaries, commands,
      queries and their validation.  Integers are [N] or [Z] with their width
      written out; [Prelude] has the overflow behaviour of each operation, and
      strings are byte strings.
    - Requests and handlers (model/typed/task_request.rs, payload.rs,
      handler/typed/): [Requests] encodes a request with all its limits,
      [Handlers] registers handlers and dispatches a stored payload.  Codecs
      and the code of handlers are parameters.  Theorems in
      [RequestProperties].
    - Engine (engine/): [Engine], the ledger of reservations and its theorems.
    - Retry policy (service/retry_policy.rs): [RetryPolicy].
    - In-memory store (store/memory_task_store.rs): [MemoryStore] defines every
      operation; [MemoryInvariant] and [MemoryPreservation] the invariant of
      its maps, counters and history; [MemoryHistory] what happens to a task
      along any sequence of operations; [MemoryQueries] the bounded heap behind
      pages; [MemorySpec] an abstract store that the operations refine;
      [MemoryProperties] the theorems.
    - SQLite store (store/sqlite_task_store.rs and its internal modules):
      [SqliteStore] and [SqliteAdmin] define the operations on rows, outbox,
      quarantine, checkpoints and owner epoch; rows hold JSON documents whose
      encoders are parameters with the laws of [SqliteInvariant].
      [SqliteRefinement] proves that the operations refine the abstract store
      of [MemorySpec]; [SqliteQueries], [SqlitePruning], [SqliteOutbox] and
      [SqliteHistory] the rest; [SqliteIds] the text form of identifiers;
      [SqliteProperties] the theorems.  [Schema] creates, migrates and verifies
      the catalogue of tables and indexes (internal/schema.rs), with its
      theorem in [SchemaProperties].  [SqliteOpen] opens a database
      (internal/database_identity.rs, internal/owner_lock.rs): the calls of the
      operating system are operations on a file system that other processes
      change in between; its theorem is in [SqliteOpenProperties].
    - Store interface (store/task_store.rs): [TaskStore] is a class of
      operations with a class of laws that both stores satisfy; the service is
      proved against it, also while the application prunes the store.  The
      methods of ownership are a second class with laws, in [StoreOwner]; those
      of the outbox have defaults that refuse, and only the SQLite store
      overrides them.
    - Concurrency: [Programs] has programs of atomic operations, their
      rely/guarantee reading [wp], their executions among others and alone, and
      the trace of the answers that an execution has got.
    - Service (service/typed_task_execution_service.rs and internal/,
      service/task_progress_reporter/): [ServiceMonad] has the shared core and
      the atomic operations, [Service] a program per method: submit, cancel,
      resume, the scheduler with its scans and fairness, an attempt from start
      to finish, external cancellation hooks, recovery, faults, the progress
      reporter.  [ServiceLogic] is the invariant and the rely/guarantee of a
      thread; it also records which tasks the store has reported finished, and
      with what, so that a task that is gone can be said to have finished.
      [ServiceSpecs] a specification per program, [ServiceScheduler]
      fairness, [ServicePool] the running service as a pool of threads,
      [ServiceResources] who holds a reservation of the engine,
      [ServiceRecovery] and [ServiceAttempts] exact results; theorems in
      [ServiceProperties].  [ServiceClient] has what a client reads of the
      running service, [ServiceSignals] the cancellation flag that a handler's
      context shows it, and a cancelled call after which it is never set.
    - Event publisher (service/task_event_publisher/): [Publisher] defines the
      worker and its interface, [PublisherLogic] the invariant of worker,
      writers and clients together, [PublisherSpecs] a specification per
      program, [PublisherDrain] draining at shutdown, [PublisherAnswers] the
      answers to commands; theorems there and in [PublisherProperties].
    - Construction and shutdown (service/typed_task_execution_service_builder.rs,
      [TypedTaskExecutionService::new], service/owner_release_guard/, the
      supervisor in internal/service_runner.rs): [Shutdown] is the running
      service as a transition system in which the supervisor, its callers, the
      guard of the ownership and the cleanup thread take steps between the
      threads of the service; a call that is dropped during a write leaves the
      write under way, as the blocking thread of the SQLite store goes on, and
      a release reaches the store after it.  [ShutdownThreads] says which
      operations each program contains, [ShutdownInvariant] what holds in every
      state, [ShutdownRefinement] that this system follows the pool of
      [ServicePool], so that what is proved of the tasks in the pool holds in
      it; [Construction] has the builder and the start of the service.
      Theorems in [ShutdownProperties] and [ConstructionProperties].
    - The whole: [System] puts the supervised service, the SQLite store and the
      publisher's worker into one transition system, where the commits of the
      one are what the other publishes and the supervisor closes the publisher
      before it releases the store; a worker that is aborted may still complete
      the operation it was in.  Theorem in [SystemProperties].
    - [Fixtures], [SqliteFixtures] and [ServiceFixtures] instantiate the
      parameters with small concrete functions; theorems with hypotheses are
      applied to them.

    ** What the theorems show

    - Both stores keep their invariant, follow the lifecycle with growing
      versions, refuse stale compare-and-sets, never lose an unfinished task,
      and refine the same abstract store; pages are exact and paging
      terminates; eviction, pruning, quarantine and ownership do exactly what
      they say.  Opening a database migrates it without losing anything, and
      once only; of any number of stores that are opened, no two own the same
      database.
    - The engine never exceeds its capacity, and admits exactly what fits.
    - However the threads of the service interleave, with a store that may fail
      and code that may panic at any point: a task's history stays
      lawful, it leaves the store only when the store has reported it finished,
      a recorded cancellation is not forgotten, a started attempt ends
      with a newer version of its task or a fault of the service, replies to
      cancellations are true, resources stay within capacity and are
      all given back in the end, and no more newer tasks than allowed overtake a
      waiting one.  Finishing an attempt writes its outcome exactly, unless the
      store answers with an error, and recovery is exact.  A client finds what
      it submitted unless it has finished, what it reads never goes back in
      time, and a read fails only with the disk.
    - However the publisher's worker, writers and clients interleave: no
      recorded event is lost, a task's events reach the bus in the order of its
      versions, a quarantine command does what its answer says and is answered
      once it was accepted; closing drains the outbox.
    - A service starts owning the store, with every interrupted task
      recovered, or gives the ownership back.  Past the barriers of a shutdown
      its threads write nothing but what a dropped call has left under way, and
      once the ownership is given up nothing at all; every caller of [shutdown]
      gets an answer, which is a success only if the ownership was released;
      ownership is never lost silently.  From one service to the next on the
      same store, wherever the first one ended, no task is lost.
    - In the whole system every version that is committed is announced: its
      event is pending, quarantined or admitted by the bus, and the bus gets the
      events of a task in the order of its versions.  A
      commit that falls between the worker's last look at the outbox and the
      close waits for the next start ([publisher_close_leaves_rows]).
    - Four theorems show defects: [service_result_lost] and
      [service_oversized_diagnostics] in [ServiceProperties],
      [memory_overflow_not_atomic] in [MemoryProperties] and
      [sqlite_release_not_retryable] in [ConstructionProperties].

    ** Bounds and fuel

    Loops that depend on what others do get fuel: the scheduler's rounds and
    pages, the retries of a cancellation hook, the rounds of the publisher's
    worker and the commands it handles in one go.  Running out is a value
    ([None]: still running) and safety theorems hold for every amount.  Where a
    result is promised the fuel is counted: recovery needs one unit more than
    there are tasks ([service_recovery_exact]), draining one round per 128
    events and one more ([publisher_drains]), paging at most the number of
    tasks, and a hook that has not answered after [n] rounds has seen [n] newer
    versions of its task ([service_hook_truthful]).  The theorems about
    interleavings assume that no task has used up its 2^64 versions or 2^32
    attempts and that generated identifiers are not repeated.

    ** Not modelled

    - SQL text and the connection: statements are modelled by the queries,
      updates and definitions they express.  A failure of the disk is an
      answer of the environment to a single operation; a write that reports one
      is taken to be rolled back.  The identity of a file is that of
      Unix; the lock files themselves are assumed to stay.
    - The runtime: spawning, waking and aborting tasks are steps of a schedule;
      wake-ups and timers decide only when a thread goes on.  A panic
      is modelled where the code catches it: in handlers, hooks, attempts, the
      scheduler and the shutdown supervisor; a call that panics is taken to
      have no effect.
    - Progress reports that a handler hands to a task of its own, which outlive
      its attempt.  The slot of the SQLite store, which makes operations wait
      for one another, is modelled where it matters: a release waits for the
      write under way; other operations may go first.
    - Serialisation formats, codecs, the event bus, the progress and identifier
      crates, and user handlers: parameters. *)

From Stdlib Require Import Strings.Byte.
From Stdlib Require Export Lia ZifyBool ZifyN.
From stdpp Require Export sorting numbers strings gmap list.

#[export] Set Default Goal Selector "!".
#[export] Set Warnings "-clear-no-such-hyp".
Open Scope N_scope.

(** ** Machine integers

    Unsigned machine integers are values of [N]; every operation that can
    overflow says what it does at the boundary.  [usize] is 64 bits wide. *)

Definition u32_max : N := 4294967295.
Definition u64_max : N := 18446744073709551615.
Definition usize_max : N := u64_max.
Definition i64_max : N := 9223372036854775807.

(** [checked_add] at a type whose largest value is [bound]. *)
Definition checked_add (bound a b : N) : option N :=
  if a + b <=? bound then Some (a + b) else None.

(** [saturating_add] at a type whose largest value is [bound]. *)
Definition saturating_add (bound a b : N) : N := N.min bound (a + b).

(** [saturating_sub] of unsigned integers: [N] subtraction stops at zero. *)
Definition saturating_sub (a b : N) : N := a - b.

(** Unchecked [usize] addition and subtraction, with the wrap-around a release
    build performs (a debug build panics exactly when these wrap). *)
Definition usize_add (a b : N) : N := (a + b) mod (usize_max + 1).
Definition usize_sub (a b : N) : N := (a + (usize_max + 1) - b) mod (usize_max + 1).

(** [i64::try_from] of an unsigned value. *)
Definition i64_try_from (n : N) : option Z :=
  if n <=? i64_max then Some (Z.of_N n) else None.

(** [u64::try_from] of an [i64]. *)
Definition u64_try_from (z : Z) : option N :=
  if (0 <=? z)%Z then Some (Z.to_N z) else None.

(** ** Option predicates of the Rust standard library *)

Definition is_some {A} (o : option A) : bool :=
  match o with Some _ => true | None => false end.
Definition is_none {A} (o : option A) : bool := negb (is_some o).
Definition is_some_and {A} (f : A → bool) (o : option A) : bool :=
  match o with Some a => f a | None => false end.
Definition is_none_or {A} (f : A → bool) (o : option A) : bool :=
  match o with Some a => f a | None => true end.

(** ** Results *)

Inductive result (A E : Type) : Type :=
| Ok (a : A)
| Err (e : E).
Arguments Ok {A E} a.
Arguments Err {A E} e.

Definition is_ok {A E} (r : result A E) : bool :=
  match r with Ok _ => true | Err _ => false end.

Definition result_map {A B E} (f : A → B) (r : result A E) : result B E :=
  match r with Ok a => Ok (f a) | Err e => Err e end.

Definition map_err {A E F} (f : E → F) (r : result A E) : result A F :=
  match r with Ok a => Ok a | Err e => Err (f e) end.

Definition ok_or {A E} (e : E) (o : option A) : result A E :=
  match o with Some a => Ok a | None => Err e end.

Declare Scope rust_scope.
Delimit Scope rust_scope with rust.

(** The [?] operator on a result, and a guard that returns early. *)
Notation "'let?' x := r 'in' k" :=
  (match r with Ok x => k | Err e => Err e end)
  (at level 10, x pattern, k at level 200,
   format "'[v' 'let?'  x  :=  r  'in' '/' k ']'") : rust_scope.
Notation "'bail' e 'when' b ; k" := (if b then Err e else k)
  (at level 10, e at level 100, b at level 100, k at level 200,
   format "'[v' 'bail'  e  'when'  b ; '/' k ']'") : rust_scope.

Open Scope rust_scope.

(** ** Byte strings

    A Rust [String] is a sequence of UTF-8 bytes; [ascii] is a byte. *)

Abbreviation bytes := (list Byte.byte).

#[export] Instance byte_eq_decision : EqDecision Byte.byte := Byte.byte_eq_dec.

Definition str_len (s : string) : N := N.of_nat (String.length s).
Definition str_is_empty (s : string) : bool :=
  match s with EmptyString => true | _ => false end.
Definition bytes_len (l : bytes) : N := N.of_nat (length l).

(** ASCII bytes of Unicode's White_Space property. *)
Definition ascii_white (n : N) : bool :=
  ((9 <=? n) && (n <=? 13)) || (n =? 32).
(** Two-byte encodings: U+0085 and U+00A0. *)
Definition white2 (a b : N) : bool :=
  (a =? 194) && ((b =? 133) || (b =? 160)).
(** Three-byte encodings: U+1680, U+2000..U+200A, U+2028, U+2029, U+202F,
    U+205F and U+3000. *)
Definition white3 (a b c : N) : bool :=
  ((a =? 225) && (b =? 154) && (c =? 128)) ||
  ((a =? 226) && (b =? 128) &&
     (((128 <=? c) && (c <=? 138)) || (c =? 168) || (c =? 169) || (c =? 175))) ||
  ((a =? 226) && (b =? 129) && (c =? 159)) ||
  ((a =? 227) && (b =? 128) && (c =? 128)).

(** [s.trim().is_empty()]: every character of [s] is white space. *)
Fixpoint is_blank (s : string) : bool :=
  match s with
  | EmptyString => true
  | String a s1 =>
      let na := Stdlib.Strings.Ascii.N_of_ascii a in
      if ascii_white na then is_blank s1 else
      match s1 with
      | String b s2 =>
          let nb := Stdlib.Strings.Ascii.N_of_ascii b in
          if white2 na nb then is_blank s2 else
          match s2 with
          | String c s3 => white3 na nb (Stdlib.Strings.Ascii.N_of_ascii c) && is_blank s3
          | EmptyString => false
          end
      | EmptyString => false
      end
  end.

(** [str::trim_start], [str::trim_end] and [str::trim]: white space is removed
    at the front, and from the first position after which only white space
    follows. *)
Fixpoint trim_start (s : string) : string :=
  match s with
  | EmptyString => EmptyString
  | String a s1 =>
      let na := Stdlib.Strings.Ascii.N_of_ascii a in
      if ascii_white na then trim_start s1 else
      match s1 with
      | String b s2 =>
          let nb := Stdlib.Strings.Ascii.N_of_ascii b in
          if white2 na nb then trim_start s2 else
          match s2 with
          | String c s3 =>
              if white3 na nb (Stdlib.Strings.Ascii.N_of_ascii c) then trim_start s3 else s
          | EmptyString => s
          end
      | EmptyString => s
      end
  end.
Fixpoint trim_end (s : string) : string :=
  if is_blank s then EmptyString else
  match s with EmptyString => EmptyString | String a s1 => String a (trim_end s1) end.
Definition trim (s : string) : string := trim_end (trim_start s).

(** ** Boolean tests as propositions

    [bool_prop] turns the boolean tests the models share with the code into
    propositions [lia] and [set_solver] understand. *)

Create Rewrite HintDb bool_prop.

Lemma is_some_true {A} (o : option A) : is_some o = true ↔ is_Some o.
Proof. destruct o; split; [eauto|done|done|by intros [? ?]]. Qed.
Lemma is_some_false {A} (o : option A) : is_some o = false ↔ o = None.
Proof. by destruct o. Qed.
Lemma is_none_true {A} (o : option A) : is_none o = true ↔ o = None.
Proof. by destruct o. Qed.
Lemma is_none_false {A} (o : option A) : is_none o = false ↔ is_Some o.
Proof. destruct o; split; [eauto|done|done|by intros [? ?]]. Qed.
Lemma is_some_and_true {A} (f : A → bool) o :
  is_some_and f o = true ↔ ∃ a, o = Some a ∧ f a = true.
Proof. destruct o; naive_solver. Qed.
Lemma is_some_and_false {A} (f : A → bool) o :
  is_some_and f o = false ↔ ∀ a, o = Some a → f a = false.
Proof. destruct o; naive_solver. Qed.
Lemma is_none_or_true {A} (f : A → bool) o :
  is_none_or f o = true ↔ ∀ a, o = Some a → f a = true.
Proof. destruct o; naive_solver. Qed.
Lemma is_none_or_false {A} (f : A → bool) o :
  is_none_or f o = false ↔ ∃ a, o = Some a ∧ f a = false.
Proof. destruct o; naive_solver. Qed.
Lemma str_is_empty_true s : str_is_empty s = true ↔ s = EmptyString.
Proof. by destruct s. Qed.
Lemma str_is_empty_false s : str_is_empty s = false ↔ s ≠ EmptyString.
Proof. by destruct s. Qed.

#[export] Hint Rewrite andb_true_iff andb_false_iff orb_true_iff orb_false_iff
  negb_true_iff negb_false_iff N.eqb_eq N.eqb_neq N.leb_le N.leb_gt N.ltb_lt
  N.ltb_ge @bool_decide_eq_true @bool_decide_eq_false
  @is_some_true @is_some_false @is_none_true @is_none_false
  str_is_empty_true str_is_empty_false : bool_prop.

Ltac bool_prop := autorewrite with bool_prop in *.

(** Case split on the head test of the first [if]/[match] of the goal or of a
    hypothesis, keeping the equation. *)
Ltac split_match :=
  match goal with
  | |- context [match ?x with _ => _ end] => destruct x eqn:?
  | H : context [match ?x with _ => _ end] |- _ => destruct x eqn:?
  end.
Ltac split_matches := repeat (split_match; simplify_eq/=).

(** ** Integer lemmas *)

Lemma checked_add_Some bound a b c :
  checked_add bound a b = Some c ↔ c = a + b ∧ a + b ≤ bound.
Proof. unfold checked_add. destruct (_ <=? _) eqn:E; bool_prop; naive_solver lia. Qed.
Lemma checked_add_None bound a b : checked_add bound a b = None ↔ bound < a + b.
Proof. unfold checked_add. destruct (_ <=? _) eqn:E; bool_prop; naive_solver lia. Qed.
Lemma usize_add_small a b : a + b ≤ usize_max → usize_add a b = a + b.
Proof. intros. unfold usize_add. apply N.mod_small. lia. Qed.
Lemma usize_sub_small a b : b ≤ a → a ≤ usize_max → usize_sub a b = a - b.
Proof.
  intros. unfold usize_sub.
  replace (a + (usize_max + 1) - b) with ((a - b) + 1 * (usize_max + 1)) by lia.
  rewrite N.Div0.mod_add. apply N.mod_small. lia.
Qed.
Lemma i64_try_from_Some n z : i64_try_from n = Some z ↔ z = Z.of_N n ∧ n ≤ i64_max.
Proof. unfold i64_try_from. destruct (_ <=? _) eqn:E; bool_prop; naive_solver lia. Qed.
Lemma u64_try_from_Some z n : u64_try_from z = Some n ↔ z = Z.of_N n.
Proof. unfold u64_try_from. destruct (0 <=? z)%Z eqn:E; split; intros; simplify_eq; lia || (f_equal; lia) || idtac. Qed.
Lemma u64_of_i64 n : u64_try_from (Z.of_N n) = Some n.
Proof. by apply u64_try_from_Some. Qed.

(** ** List lemmas *)

Lemma filter_all {A} (P : A → Prop) `{!∀ x, Decision (P x)} (l : list A) :
  (∀ x, x ∈ l → P x) → filter P l = l.
Proof.
  induction l as [|a l IH]; intros Hl; [done|]. rewrite filter_cons, decide_True by set_solver.
  f_equal. apply IH. set_solver.
Qed.

Lemma filter_none {A} (P : A → Prop) `{!∀ x, Decision (P x)} (l : list A) :
  (∀ x, x ∈ l → ¬ P x) → filter P l = [].
Proof.
  induction l as [|a l IH]; intros Hl; [done|]. rewrite filter_cons, decide_False by set_solver.
  apply IH. set_solver.
Qed.

Lemma filter_ext_in {A} (P Q : A → Prop) `{!∀ x, Decision (P x), !∀ x, Decision (Q x)}
    (l : list A) :
  (∀ x, x ∈ l → P x ↔ Q x) → filter P l = filter Q l.
Proof.
  induction l as [|a l IH]; intros Hl; [done|]. rewrite !filter_cons.
  rewrite IH by set_solver. specialize (Hl a ltac:(set_solver)).
  repeat case_decide; tauto || done.
Qed.

(** ** Sums over finite maps and lists *)

Definition sumN (l : list N) : N := foldr N.add 0 l.

Definition map_sumN `{Countable K} {V} (f : V → N) (m : gmap K V) : N :=
  map_fold (λ _ v acc, f v + acc) 0 m.

Lemma sumN_app l1 l2 : sumN (l1 ++ l2) = sumN l1 + sumN l2.
Proof. induction l1; simpl; [done|]. unfold sumN in *. simpl. lia. Qed.

#[export] Instance sumN_proper : Proper ((≡ₚ) ==> (=)) sumN.
Proof. intros l1 l2 H. induction H; unfold sumN in *; simpl; lia. Qed.

Section map_sum.
Context `{Countable K} {V : Type}.
Implicit Types (m : gmap K V) (f g : V → N).

Lemma map_sumN_empty f : map_sumN f (∅ : gmap K V) = 0.
Proof. apply map_fold_empty. Qed.

Lemma map_sumN_insert f m k v :
  m !! k = None → map_sumN f (<[k:=v]> m) = f v + map_sumN f m.
Proof. intros. unfold map_sumN. rewrite map_fold_insert_L; [done| |done]. intros; lia. Qed.

Lemma map_sumN_delete f m k v :
  m !! k = Some v → map_sumN f m = f v + map_sumN f (delete k m).
Proof. intros. unfold map_sumN. erewrite map_fold_delete_L; [done| |done]. intros; lia. Qed.

Lemma map_sumN_update f m k v v' :
  m !! k = Some v → map_sumN f (<[k:=v']> m) + f v = f v' + map_sumN f m.
Proof.
  intros Hk. rewrite <- (insert_delete_eq m k v').
  rewrite map_sumN_insert by apply lookup_delete_eq.
  rewrite (map_sumN_delete f m k v Hk). lia.
Qed.

Lemma map_sumN_lookup_le f m k v : m !! k = Some v → f v ≤ map_sumN f m.
Proof. intros Hk. rewrite (map_sumN_delete f m k v Hk). lia. Qed.

Lemma map_sumN_ext f g m :
  (∀ k v, m !! k = Some v → f v = g v) → map_sumN f m = map_sumN g m.
Proof.
  induction m as [|k v m Hk IH] using map_ind; intros Hfg; [done|].
  rewrite !map_sumN_insert by done. f_equal.
  - apply (Hfg k). apply lookup_insert_eq.
  - apply IH. intros k' v' Hk'. apply (Hfg k').
    rewrite lookup_insert_ne; [done|]. by intros ->; simplify_eq.
Qed.

Lemma map_sumN_add f g m :
  map_sumN (λ v, f v + g v) m = map_sumN f m + map_sumN g m.
Proof.
  induction m as [|k v m Hk IH] using map_ind; [done|].
  rewrite !map_sumN_insert by done. lia.
Qed.

(** Summing over a duplicate-free list of keys sums over the map restricted
    to the entries that satisfy [P], when the list enumerates those keys. *)
Lemma sum_over_keys (P : V → bool) f m (l : list K) :
  NoDup l →
  (∀ k, k ∈ l ↔ ∃ v, m !! k = Some v ∧ P v = true) →
  sumN (f <$> omap (m !!.) l) = map_sumN (λ v, if P v then f v else 0) m.
Proof.
  revert m. induction l as [|k l IH]; intros m Hnd Hl.
  - rewrite (map_sumN_ext _ (λ _, 0)).
    { clear. simpl. symmetry. induction m using map_ind; [done|].
      by rewrite map_sumN_insert. }
    intros k v Hk. destruct (P v) eqn:HP; [|done].
    assert (k ∈ []) by (apply Hl; eauto). set_solver.
  - apply NoDup_cons in Hnd as [Hk Hnd].
    assert (∃ v, m !! k = Some v ∧ P v = true) as (v & Hv & HP) by (apply Hl; set_solver).
    simpl. rewrite Hv. simpl. unfold sumN at 1. simpl. fold (sumN (f <$> omap (m !!.) l)).
    rewrite (map_sumN_delete _ m k v Hv). rewrite HP. f_equal.
    rewrite <- (IH (delete k m)); [|done|].
    + do 2 f_equal. clear IH Hl. induction l as [|k' l IH]; [done|].
      simpl. rewrite lookup_delete_ne by set_solver. rewrite IH; [done|set_solver|by inversion Hnd].
    + intros k'. split.
      * intros Hk'. rewrite lookup_delete_ne by set_solver. apply Hl. set_solver.
      * intros (v' & [Hne Hk']%lookup_delete_Some & HP'). 
        assert (k' ∈ k :: l) by (apply Hl; eauto). set_solver.
Qed.
End map_sum.

(** ** Keyset order

    Pages are ordered by a timestamp and then by an identifier, compared
    lexicographically as Rust compares tuples. *)

Definition key_le (a b : N * N) : Prop := a.1 < b.1 ∨ (a.1 = b.1 ∧ a.2 ≤ b.2).
Definition key_lt (a b : N * N) : Prop := a.1 < b.1 ∨ (a.1 = b.1 ∧ a.2 < b.2).
Definition key_ltb (a b : N * N) : bool :=
  (a.1 <? b.1) || ((a.1 =? b.1) && (a.2 <? b.2)).

#[export] Instance key_le_dec : RelDecision key_le.
Proof. intros a b. unfold key_le. apply _. Defined.
#[export] Instance key_lt_dec : RelDecision key_lt.
Proof. intros a b. unfold key_lt. apply _. Defined.
#[export] Instance key_le_refl : Reflexive key_le.
Proof. intros a. right. lia. Qed.
#[export] Instance key_le_trans : Transitive key_le.
Proof. unfold key_le. intros a b c ? ?. lia. Qed.
#[export] Instance key_le_total : Total key_le.
Proof. unfold key_le. intros a b. lia. Qed.
#[export] Instance key_le_antisymm : AntiSymm (=) key_le.
Proof. unfold key_le. intros [? ?] [? ?] ? ?. simpl in *. f_equal; lia. Qed.
#[export] Instance key_lt_trans : Transitive key_lt.
Proof. unfold key_lt. intros a b c ? ?. lia. Qed.
#[export] Instance key_lt_irrefl : Irreflexive key_lt.
Proof. unfold key_lt. intros a ?. lia. Qed.

Lemma key_ltb_lt a b : key_ltb a b = true ↔ key_lt a b.
Proof. unfold key_ltb, key_lt. bool_prop. lia. Qed.
Lemma key_ltb_ge a b : key_ltb a b = false ↔ key_le b a.
Proof. unfold key_ltb, key_le. bool_prop. lia. Qed.
Lemma key_lt_le a b : key_lt a b → key_le a b.
Proof. unfold key_le, key_lt. lia. Qed.
Lemma key_le_lt_trans a b c : key_le a b → key_lt b c → key_lt a c.
Proof. unfold key_le, key_lt. lia. Qed.
Lemma key_lt_le_trans a b c : key_lt a b → key_le b c → key_lt a c.
Proof. unfold key_le, key_lt. lia. Qed.
Lemma key_le_neq_lt a b : key_le a b → a ≠ b → key_lt a b.
Proof. destruct a, b. unfold key_le, key_lt. simpl. intros ? Hne.
  assert (n ≠ n1 ∨ n0 ≠ n2) by (destruct (decide (n = n1)), (decide (n0 = n2)); naive_solver). lia. Qed.
#[export] Hint Rewrite key_ltb_lt key_ltb_ge : bool_prop.

(** ** Sorting by a key *)

Section sort_by.
Context {A K : Type} (R : relation K) `{!RelDecision R} (key : A → K).
Implicit Types l : list A.

Definition key_rel : relation A := λ a b, R (key a) (key b).
#[global] Instance key_rel_dec : RelDecision key_rel.
Proof. intros a b. unfold key_rel. apply _. Defined.

(** [sort_unstable_by_key]: the order of equal keys is not used by any
    caller, keys being unique. *)
Definition sort_by l : list A := merge_sort key_rel l.

Lemma sort_by_Permutation l : sort_by l ≡ₚ l.
Proof. apply merge_sort_Permutation. Qed.

Context `{!Transitive R, !Total R}.

Lemma sort_by_StronglySorted l : StronglySorted key_rel (sort_by l).
Proof.
  apply StronglySorted_merge_sort.
  - intros x y z. unfold key_rel. by etrans.
  - intros x y. unfold key_rel. apply total, _.
Qed.

(** Sorting is the only ordered arrangement when keys are unique. *)
Lemma sort_by_unique l1 l2 `{!AntiSymm (=) R} :
  NoDup (key <$> l1) → StronglySorted key_rel l1 → l1 ≡ₚ l2 →
  sort_by l2 = l1.
Proof.
  intros Hnd Hs Hp. symmetry.
  apply (StronglySorted_unique_strong key_rel).
  - intros x1 x2 Hx1 Hx2 H12 H21.
    assert (key x1 = key x2) as Heq by (apply (anti_symm R); done).
    rewrite sort_by_Permutation, <- Hp in Hx2.
    apply list_elem_of_lookup in Hx1 as [i Hi], Hx2 as [j Hj].
    assert (i = j) as ->; [|congruence].
    eapply NoDup_lookup; [done|..]; rewrite list_lookup_fmap.
    + by rewrite Hi.
    + rewrite Hj. simpl. congruence.
  - done.
  - apply sort_by_StronglySorted.
  - by rewrite sort_by_Permutation.
Qed.
End sort_by.

Section sorted_lists.
Context {A : Type} (R : relation A).
Implicit Types l : list A.

Lemma StronglySorted_app l1 l2 :
  StronglySorted R (l1 ++ l2) ↔
  StronglySorted R l1 ∧ StronglySorted R l2 ∧ ∀ x y, x ∈ l1 → y ∈ l2 → R x y.
Proof.
  induction l1 as [|a l1 IH]; simpl.
  - split; [intros; repeat split; [constructor|done|set_solver]|naive_solver].
  - split.
    + intros Hs. inversion_clear Hs as [|?? Hs' Hf].
      apply IH in Hs' as (?&?&?). apply Forall_app in Hf as [Hf1 Hf2].
      rewrite Forall_forall in Hf2.
      repeat split; [by constructor|done|]. intros x y Hx Hy.
      apply elem_of_cons in Hx as [->|Hx]; eauto.
    + intros (Hs & ? & Hr). inversion_clear Hs as [|?? Hs' Hf]. constructor.
      * apply IH. split_and!; [done..|]. intros. apply Hr; set_solver.
      * apply Forall_app; split; [done|]. apply Forall_forall. intros. apply Hr; set_solver.
Qed.

Lemma StronglySorted_take l n : StronglySorted R l → StronglySorted R (take n l).
Proof. intros H. rewrite <- (take_drop n l) in H. by apply StronglySorted_app in H as (?&?&?). Qed.

Lemma StronglySorted_filter (P : A → Prop) `{!∀ x, Decision (P x)} l :
  StronglySorted R l → StronglySorted R (filter P l).
Proof.
  induction 1 as [|a l Hs IH Hf]; [constructor|]. rewrite filter_cons.
  case_decide; [|done]. constructor; [done|].
  apply Forall_forall. intros x [_ Hx]%list_elem_of_filter.
  rewrite Forall_forall in Hf. auto.
Qed.
End sorted_lists.

(** ** Sorted lists without repeated keys *)

Section sort_keys.
Context {A K : Type} (R : relation K) `{!RelDecision R, !Transitive R, !Total R, !AntiSymm (=) R}.
Context (key : A → K).
Implicit Types l : list A.

Lemma sort_by_keys_NoDup l : NoDup (key <$> l) → NoDup (key <$> sort_by R key l).
Proof. intros Hnd. by rewrite sort_by_Permutation. Qed.

Lemma NoDup_fmap_filter (P : A → Prop) `{!∀ x, Decision (P x)} l :
  NoDup (key <$> l) → NoDup (key <$> filter P l).
Proof.
  induction l as [|a l IH]; [done|]. rewrite fmap_cons. intros [Ha Hnd]%NoDup_cons.
  rewrite filter_cons. case_decide; [|by auto]. rewrite fmap_cons. apply NoDup_cons.
  split; [|by auto]. intros (b & Hb & [_ Hin]%list_elem_of_filter)%list_elem_of_fmap.
  apply Ha. rewrite Hb. by apply list_elem_of_fmap_2.
Qed.

(** Filtering and sorting commute. *)
Lemma sort_by_filter (P : A → Prop) `{!∀ x, Decision (P x)} l :
  NoDup (key <$> l) → sort_by R key (filter P l) = filter P (sort_by R key l).
Proof.
  intros Hnd. apply (sort_by_unique R key); [apply _|..].
  - by apply NoDup_fmap_filter, sort_by_keys_NoDup.
  - by apply StronglySorted_filter, sort_by_StronglySorted.
  - by rewrite sort_by_Permutation.
Qed.

(** Sorting the keys is taking the keys of the sorted list. *)
Lemma sort_by_fmap l :
  NoDup (key <$> l) → sort_by R id (key <$> l) = key <$> sort_by R key l.
Proof.
  intros Hnd. apply (sort_by_unique R id); [apply _|..].
  - rewrite list_fmap_id. by apply sort_by_keys_NoDup.
  - pose proof (sort_by_StronglySorted R key l) as Hs.
    induction Hs as [|a l' Hs IH Hf]; [constructor|]. rewrite fmap_cons. constructor; [done|].
    by apply Forall_fmap.
  - by rewrite sort_by_Permutation.
Qed.
End sort_keys.

(** The elements after a position, selected by comparing with its key. *)
Lemma filter_after_last {A} (key : A → N * N) (l1 l2 : list A) x :
  StronglySorted (key_rel key_le key) (l1 ++ l2) → NoDup (key <$> l1 ++ l2) → last l1 = Some x →
  filter (λ a, key_lt (key x) (key a)) (l1 ++ l2) = l2.
Proof.
  intros Hs Hnd [l ->]%last_Some. rewrite filter_app.
  apply StronglySorted_app in Hs as (Hs1 & _ & H12).
  apply StronglySorted_app in Hs1 as (_ & _ & Hlx).
  rewrite filter_none, filter_all; [done|..].
  - intros a Ha. apply key_le_neq_lt; [apply H12; [set_solver|done]|]. intros Heq.
    rewrite fmap_app in Hnd. apply NoDup_app in Hnd as (_ & Hd & _).
    apply (Hd (key x)); [|rewrite Heq; by apply list_elem_of_fmap_2].
    apply list_elem_of_fmap_2. set_solver.
  - intros a Ha Hlt. assert (key_le (key a) (key x)) as Hle.
    { apply elem_of_app in Ha as [Ha|Ha]; [apply Hlx; [done|set_solver]|].
      apply list_elem_of_singleton in Ha as ->. reflexivity. }
    by apply (irreflexivity key_lt (key x)), (key_lt_le_trans _ _ _ Hlt).
Qed.

(** ** Ordered maps

    A [BTreeMap] is a [gmap] whose iterators visit entries in key order. *)

Section btree.
Context `{Countable K} {V : Type} (R : relation K) `{!RelDecision R}.
Implicit Types m : gmap K V.

Definition btree_entries m : list (K * V) := sort_by R fst (map_to_list m).
Definition btree_values m : list V := (btree_entries m).*2.
Definition btree_keys m : list K := (btree_entries m).*1.

Lemma btree_entries_Permutation m : btree_entries m ≡ₚ map_to_list m.
Proof. apply sort_by_Permutation. Qed.

Lemma elem_of_btree_entries m k v : (k, v) ∈ btree_entries m ↔ m !! k = Some v.
Proof. rewrite btree_entries_Permutation. apply elem_of_map_to_list. Qed.

Lemma elem_of_btree_values m v : v ∈ btree_values m ↔ ∃ k, m !! k = Some v.
Proof.
  unfold btree_values. rewrite list_elem_of_fmap. split.
  - intros ([k v'] & -> & Hk%elem_of_btree_entries). eauto.
  - intros [k Hk]. exists (k, v). by rewrite elem_of_btree_entries.
Qed.

Lemma NoDup_btree_keys m : NoDup (btree_keys m).
Proof.
  unfold btree_keys. rewrite btree_entries_Permutation. apply NoDup_fst_map_to_list.
Qed.
End btree.
