(* ===== verification/TaskState.v ===== *)
(** * Task lifecycle states

    [src/src/model/task_state.rs], [task_state_kind.rs], [task_run_error.rs]
    and [task_output.rs]: the lifecycle variants, the permitted transitions,
    and the byte limits of persisted diagnostics and outputs. *)

From S2P Require Import Prelude.

(** ** Data *)

Inductive TaskStateKind : Type :=
| KindQueued | KindRunning | KindBlocked | KindSucceeded
| KindFailed | KindPanicked | KindCancelled.

Inductive TaskState : Type :=
| Queued
| Running
| Blocked (reason : string)
| Succeeded
| Failed (category message : string)
| Panicked (message : string)
| Cancelled.

#[export] Instance TaskStateKind_eq_dec : EqDecision TaskStateKind.
Proof. solve_decision. Defined.
#[export] Instance TaskState_eq_dec : EqDecision TaskState.
Proof. solve_decision. Defined.

Definition MAX_TASK_DIAGNOSTIC_CATEGORY_BYTES : N := 128.
Definition MAX_TASK_DIAGNOSTIC_MESSAGE_BYTES : N := 4 * 1024.
Definition MAX_TASK_OUTPUT_SUMMARY_BYTES : N := 64 * 1024.

Record TaskOutput := { to_summary : bytes }.
#[export] Instance TaskOutput_eq_dec : EqDecision TaskOutput.
Proof. solve_decision. Defined.

Record TaskRunError := {
  tre_category : string;
  tre_message : string;
  tre_retryable : bool;
}.

(** ** Operations *)

Definition TaskStateKind_as_str (k : TaskStateKind) : string :=
  match k with
  | KindQueued => "Queued"
  | KindRunning => "Running"
  | KindBlocked => "Blocked"
  | KindSucceeded => "Succeeded"
  | KindFailed => "Failed"
  | KindPanicked => "Panicked"
  | KindCancelled => "Cancelled"
  end.

Definition kind (s : TaskState) : TaskStateKind :=
  match s with
  | Queued => KindQueued
  | Running => KindRunning
  | Blocked _ => KindBlocked
  | Succeeded => KindSucceeded
  | Failed _ _ => KindFailed
  | Panicked _ => KindPanicked
  | Cancelled => KindCancelled
  end.

Definition is_terminal (s : TaskState) : bool :=
  match s with
  | Succeeded | Failed _ _ | Panicked _ | Cancelled => true
  | _ => false
  end.

Definition allows_transition_to (s next : TaskState) : bool :=
  match s with
  | Queued => match next with Running | Blocked _ | Cancelled => true | _ => false end
  | Running =>
      match next with
      | Running | Queued | Blocked _ | Succeeded
      | Failed _ _ | Panicked _ | Cancelled => true
      end
  | Blocked _ => match next with Queued | Cancelled => true | _ => false end
  | Succeeded | Failed _ _ | Panicked _ | Cancelled => false
  end.

Definition validate_diagnostics (s : TaskState) : result unit string :=
  match s with
  | Blocked reason =>
      if MAX_TASK_DIAGNOSTIC_MESSAGE_BYTES <? str_len reason
      then Err "blocked reason exceeds the 4096-byte limit" else Ok tt
  | Failed category message =>
      if (MAX_TASK_DIAGNOSTIC_CATEGORY_BYTES <? str_len category)
         || (MAX_TASK_DIAGNOSTIC_MESSAGE_BYTES <? str_len message)
      then Err "failure diagnostic exceeds its byte limit" else Ok tt
  | Panicked message =>
      if MAX_TASK_DIAGNOSTIC_MESSAGE_BYTES <? str_len message
      then Err "panic diagnostic exceeds the 4096-byte limit" else Ok tt
  | _ => Ok tt
  end.

(** ** The lifecycle as a step relation *)

(** One permitted lifecycle change. *)
Inductive lifecycle_step : relation TaskState :=
| lifecycle_step_intro s next :
    allows_transition_to s next = true → lifecycle_step s next.

Lemma lifecycle_step_iff s next :
  lifecycle_step s next ↔ allows_transition_to s next = true.
Proof. split; [by intros [??]|by constructor]. Qed.

Lemma terminal_no_step s next : is_terminal s = true → ¬ lifecycle_step s next.
Proof. rewrite lifecycle_step_iff. by destruct s. Qed.

Lemma terminal_rtc s next :
  is_terminal s = true → rtc lifecycle_step s next → next = s.
Proof. intros Ht Hr. inversion Hr as [|? ? ? Hs]; subst; [done|]. by apply terminal_no_step in Hs. Qed.

Lemma kind_terminal s s' : kind s = kind s' → is_terminal s = is_terminal s'.
Proof. by destruct s, s'. Qed.

Lemma kind_as_str_inj k k' : TaskStateKind_as_str k = TaskStateKind_as_str k' → k = k'.
Proof. by destruct k, k'. Qed.

(** The states a path may visit, one by one. *)
Fixpoint lifecycle_path (s : TaskState) (path : list TaskState) : bool :=
  match path with
  | [] => true
  | next :: rest => allows_transition_to s next && lifecycle_path next rest
  end.

Lemma default_last_cons {A} (s a : A) (path : list A) :
  default s (last (a :: path)) = default a (last path).
Proof. rewrite last_cons. by destruct (last path). Qed.

Lemma lifecycle_path_rtc s path :
  lifecycle_path s path = true → rtc lifecycle_step s (default s (last path)).
Proof.
  revert s. induction path as [|a path IH]; intros s; [done|].
  rewrite default_last_cons. simpl. intros [Ha Hp]%andb_true_iff.
  eapply rtc_l; [by apply lifecycle_step_iff|]. by apply IH.
Qed.

(** States a task can only be in because a handler ran. *)
Definition executed (s : TaskState) : bool :=
  match s with Succeeded | Failed _ _ | Panicked _ => true | _ => false end.

Lemma executed_needs_running s path :
  lifecycle_path s path = true → executed s = false →
  executed (default s (last path)) = true → Running ∈ s :: path.
Proof.
  revert s. induction path as [|a path IH]; intros s; [simpl; congruence|].
  rewrite default_last_cons. simpl. intros [Ha Hp]%andb_true_iff Hs He.
  destruct (executed a) eqn:Hex.
  - destruct s, a; simpl in *; try done; set_solver.
  - right. by apply IH.
Qed.
