(* ===== verification/Model.v ===== *)
(** * The data model

    [src/src/model/]: requests, summaries, commands and limits shared by every
    store and by the service, with the validation code they carry.

    Types of other crates are the fields of [ExternalTypes]: [Metadata]
    (qubit-metadata), [ModelIdBuf] (qubit-model-id), [Stage] and
    [MetricSnapshot] (qubit-progress).  A [qubit_id::Id] is represented by the
    [u64] it is built from. *)

From S2P Require Import Prelude TaskState.

(** ** Types of other crates *)

Class ExternalTypes := {
  Metadata : Type;
  metadata_new : Metadata;
  (** [PartialEq] only: the comparison need not be reflexive. *)
  metadata_eqb : Metadata → Metadata → bool;
  metadata_len : Metadata → N;
  ModelIdBuf : Type;
  model_id_eq_dec :: EqDecision ModelIdBuf;
  model_id_as_str : ModelIdBuf → string;
  model_id_parse : string → option ModelIdBuf;
  Stage : Type;
  stage_id : Stage → string;
  stage_name : Stage → string;
  stage_position_value : Stage → option N;
  stage_total : Stage → option N;
  MetricSnapshot : Type;
  metric_id : MetricSnapshot → string;
  metric_name : MetricSnapshot → string;
  metric_total : MetricSnapshot → option N;
  metric_completed : MetricSnapshot → N;
  metric_active : MetricSnapshot → N;
  metric_succeeded : MetricSnapshot → N;
  metric_failed : MetricSnapshot → N;
  metric_cancelled : MetricSnapshot → N;
}.

(** ** Store errors *)

Inductive StoreError : Type :=
| UnsupportedCapability
| UnsupportedDatabaseIdentity
| OwnerConflict
| DuplicateTask
| IdempotencyConflict
| CapacityExceeded (requested_bytes available_bytes : N)
| UnfinishedRecordLimitExceeded (limit : N)
| Conflict
| InvalidRequest (message : string)
| InvalidTransition
| NotFound
| Failure (message : string).

#[export] Instance StoreError_eq_dec : EqDecision StoreError.
Proof. solve_decision. Defined.

(** ** Identities and cursors *)

Abbreviation TaskId := N (only parsing).
Abbreviation OwnerEpoch := N (only parsing).

Record TaskCursor := { cur_accepted_at_ms : N; cur_id : TaskId }.

Definition TaskCursor_key (c : TaskCursor) : N * N := (cur_accepted_at_ms c, cur_id c).

(** ** Resources *)

Record ResourceCapacity := {
  rc_cpu_slots : N;
  rc_memory_bytes : option N;
  rc_disk_bytes : option N;
  rc_gpus : gmap string (list string);
  rc_custom : gmap string N;
}.

Record ResourceRequest := {
  rr_cpu_slots : N;
  rr_gpu_count : N;
  rr_memory_bytes : option N;
  rr_disk_bytes : option N;
  rr_gpu_labels : list string;
  rr_custom : gmap string N;
}.
#[export] Instance ResourceRequest_eq_dec : EqDecision ResourceRequest.
Proof. solve_decision. Defined.

Definition ResourceRequest_default : ResourceRequest :=
  {| rr_cpu_slots := 0; rr_gpu_count := 0; rr_memory_bytes := None;
     rr_disk_bytes := None; rr_gpu_labels := []; rr_custom := ∅ |}.

Definition MAX_ENTRIES : N := 32.
Definition MAX_NAME_BYTES : N := 128.
Definition MAX_DESCRIPTION_BYTES : N := 8192.

(** The loop over [gpu_labels]: [labels] holds the labels seen so far and
    [total] the bytes counted. *)
Fixpoint validate_labels (ls : list string) (labels : gset string) (total : N)
    : result N string :=
  match ls with
  | [] => Ok total
  | label :: rest =>
      bail "GPU labels must not be empty" when str_is_empty label;
      bail "GPU label exceeds the 128-byte limit" when MAX_NAME_BYTES <? str_len label;
      bail "GPU labels must be unique" when bool_decide (label ∈ labels);
      validate_labels rest ({[label]} ∪ labels)
        (saturating_add usize_max total (str_len label))
  end.

(** The loop over the keys of [custom]. *)
Fixpoint validate_names (names : list string) (total : N) : result N string :=
  match names with
  | [] => Ok total
  | name :: rest =>
      bail "custom resource names must not be empty" when str_is_empty name;
      bail "custom resource name exceeds the 128-byte limit"
        when MAX_NAME_BYTES <? str_len name;
      validate_names rest (saturating_add usize_max total (str_len name))
  end.

Definition validate_limits (r : ResourceRequest) : result unit string :=
  bail "GPU labels exceed the 32-entry limit"
    when MAX_ENTRIES <? N.of_nat (length (rr_gpu_labels r));
  let? total := validate_labels (rr_gpu_labels r) ∅ 0 in
  bail "GPU labels require at least one requested GPU"
    when (rr_gpu_count r =? 0) && negb (bool_decide (rr_gpu_labels r = []));
  bail "custom resources exceed the 32-entry limit"
    when MAX_ENTRIES <? N.of_nat (size (rr_custom r));
  let? total := validate_names (btree_keys String.le (rr_custom r)) total in
  bail "resource descriptions exceed the 8192-byte limit"
    when MAX_DESCRIPTION_BYTES <? total;
  Ok tt.

(** ** Progress *)

Record ProgressStageSnapshot := {
  pss_id : string; pss_name : string;
  pss_position : option N; pss_total : option N;
}.

Record ProgressMetricSnapshot := {
  pms_id : string; pms_name : string; pms_total : option N;
  pms_completed : N; pms_active : N; pms_succeeded : N;
  pms_failed : N; pms_cancelled : N;
}.

Record TaskProgressSnapshot := {
  tps_attempt : N;
  tps_progress_version : N;
  tps_stage : option ProgressStageSnapshot;
  tps_metrics : list ProgressMetricSnapshot;
  tps_updated_at_ms : N;
}.

#[export] Instance ProgressStageSnapshot_eq_dec : EqDecision ProgressStageSnapshot.
Proof. solve_decision. Defined.
#[export] Instance ProgressMetricSnapshot_eq_dec : EqDecision ProgressMetricSnapshot.
Proof. solve_decision. Defined.
#[export] Instance TaskProgressSnapshot_eq_dec : EqDecision TaskProgressSnapshot.
Proof. solve_decision. Defined.

Definition MAX_TASK_PROGRESS_METRICS : N := 32.
Definition MAX_TASK_PROGRESS_SNAPSHOT_BYTES : N := 16 * 1024.
Definition MAX_TASK_QUERY_LIMIT : N := 256.
Definition MAX_TASK_PAYLOAD_BYTES : N := 16 * 1024 * 1024.
Definition MAX_TASK_METADATA_ENTRIES : N := 32.
Definition MAX_TASK_METADATA_BYTES : N := 16 * 1024.

Inductive ProgressSnapshotError : Type :=
| TooManyMetrics (n : N)
| StageIdTooLarge (n : N)
| StageNameTooLarge (n : N)
| SerializeError (message : string)
| SnapshotTooLarge (n : N).

(** ** Requests, summaries and commands *)

Section model.
Context `{ET : !ExternalTypes}.

Record StoredPayload := {
  sp_type_id : ModelIdBuf;
  sp_schema_version : N;
  sp_codec_id : string;
  sp_bytes : bytes;
}.
#[global] Instance StoredPayload_eq_dec : EqDecision StoredPayload.
Proof. solve_decision. Defined.

Record StoredTaskRequest := {
  sr_kind_id : string;
  sr_category : option string;
  sr_payload : StoredPayload;
  sr_metadata : Metadata;
  sr_resource_limit : ResourceRequest;
  sr_correlation_key : option string;
  sr_idempotency_key : option string;
}.

(** The derived [PartialEq]. *)
Definition StoredTaskRequest_eqb (a b : StoredTaskRequest) : bool :=
  bool_decide (sr_kind_id a = sr_kind_id b)
  && bool_decide (sr_category a = sr_category b)
  && bool_decide (sr_payload a = sr_payload b)
  && metadata_eqb (sr_metadata a) (sr_metadata b)
  && bool_decide (sr_resource_limit a = sr_resource_limit b)
  && bool_decide (sr_correlation_key a = sr_correlation_key b)
  && bool_decide (sr_idempotency_key a = sr_idempotency_key b).

Record TaskSummary := {
  ts_id : TaskId;
  ts_kind_id : string;
  ts_category : option string;
  ts_payload_type_id : string;
  ts_payload_schema_version : N;
  ts_payload_codec_id : string;
  ts_metadata : Metadata;
  ts_resource_limit : ResourceRequest;
  ts_correlation_key : option string;
  ts_idempotency_key : option string;
  ts_state : TaskState;
  ts_cancel_requested : bool;
  ts_cancel_error : option string;
  ts_state_version : N;
  ts_attempt : N;
  ts_retry_not_before_ms : option N;
  ts_accepted_at_ms : N;
  ts_started_at_ms : option N;
  ts_finished_at_ms : option N;
  ts_progress : option TaskProgressSnapshot;
  ts_output : option TaskOutput;
}.

Record StoredTask := { st_request : StoredTaskRequest; st_summary : TaskSummary }.

Record AcceptOutcome := { ao_summary : TaskSummary; ao_created : bool }.

Record TaskPage := { pg_records : list TaskSummary; pg_next : option TaskCursor }.

Record TaskStateCheckpoint := {
  ck_id : TaskId; ck_state_version : N; ck_state : TaskState;
}.

Record TaskQuery := {
  tq_states : list TaskStateKind;
  tq_category : option string;
  tq_correlation_key : option string;
  tq_after : option TaskCursor;
  tq_limit : N;
}.

Record StartCommand := {
  sc_id : TaskId; sc_expected_state_version : N; sc_started_at_ms : N;
}.

Record TransitionCommand := {
  tc_id : TaskId;
  tc_expected_state_version : N;
  tc_expected_attempt : N;
  tc_retry_not_before_ms : option N;
  tc_state : TaskState;
  tc_cancel_requested : bool;
  tc_cancel_error : option string;
  tc_finished_at_ms : option N;
  tc_output : option TaskOutput;
}.

Record ProgressCommand := {
  pc_id : TaskId;
  pc_expected_attempt : N;
  pc_progress_version : N;
  pc_stage : option Stage;
  pc_metrics : list MetricSnapshot;
  pc_updated_at_ms : N;
}.

(** [TaskCursor::from] a summary. *)
Definition TaskCursor_from (s : TaskSummary) : TaskCursor :=
  {| cur_accepted_at_ms := ts_accepted_at_ms s; cur_id := ts_id s |}.

(** The keyset position of a summary. *)
Definition ts_key (s : TaskSummary) : N * N := (ts_accepted_at_ms s, ts_id s).

Definition checked_page_size (q : TaskQuery) : result N StoreError :=
  if MAX_TASK_QUERY_LIMIT <? tq_limit q
  then Err (InvalidRequest "task history page limit exceeds 256")
  else Ok (N.max (tq_limit q) 1).

Definition stage_snapshot (stage : Stage) : ProgressStageSnapshot :=
  {| pss_id := stage_id stage; pss_name := stage_name stage;
     pss_position := stage_position_value stage; pss_total := stage_total stage |}.

Definition metric_snapshot (m : MetricSnapshot) : ProgressMetricSnapshot :=
  {| pms_id := metric_id m; pms_name := metric_name m; pms_total := metric_total m;
     pms_completed := metric_completed m; pms_active := metric_active m;
     pms_succeeded := metric_succeeded m; pms_failed := metric_failed m;
     pms_cancelled := metric_cancelled m |}.

(** [TaskProgressSnapshot::from_command]; [to_vec] is [serde_json::to_vec]. *)
Definition from_command (to_vec : TaskProgressSnapshot → result bytes string)
    (command : ProgressCommand) : result TaskProgressSnapshot ProgressSnapshotError :=
  bail (TooManyMetrics (N.of_nat (length (pc_metrics command))))
    when MAX_TASK_PROGRESS_METRICS <? N.of_nat (length (pc_metrics command));
  let? _ :=
    match pc_stage command with
    | Some stage =>
        bail (StageIdTooLarge (str_len (stage_id stage)))
          when 128 <? str_len (stage_id stage);
        bail (StageNameTooLarge (str_len (stage_name stage)))
          when 256 <? str_len (stage_name stage);
        Ok tt
    | None => Ok tt
    end in
  let snapshot :=
    {| tps_attempt := pc_expected_attempt command;
       tps_progress_version := pc_progress_version command;
       tps_stage := stage_snapshot <$> pc_stage command;
       tps_metrics := metric_snapshot <$> pc_metrics command;
       tps_updated_at_ms := pc_updated_at_ms command |} in
  let? encoded := map_err SerializeError (to_vec snapshot) in
  bail (SnapshotTooLarge (bytes_len encoded))
    when MAX_TASK_PROGRESS_SNAPSHOT_BYTES <? bytes_len encoded;
  Ok snapshot.
End model.

(** The JSON encoder of progress snapshots ([serde_json]). *)
Class SnapshotJson := { snapshot_to_vec : TaskProgressSnapshot → result bytes string }.
