(* ===== verification/Engine.v ===== *)
(** * The local execution engine

    [src/src/engine/local_task_execution_engine.rs]: admission of resource
    requests against a fixed capacity.  The ledger keeps aggregate usage next
    to the reservations it is made of; it is read and written under one mutex,
    so [try_prepare_typed] and the release of a reservation are atomic steps. *)

From S2P Require Import Prelude TaskState Model.

Inductive EngineError := TemporarilyUnavailable | Unsatisfiable | ReservationTokenExhausted.

Record Usage := {
  us_cpu : N;
  us_memory : N;
  us_disk : N;
  us_gpus : list string;
  us_custom : gmap string N;
}.

Record Allocation := {
  al_cpu : N;
  al_memory : N;
  al_disk : N;
  al_gpus : list string;
  al_custom : gmap string N;
}.

Record ResourceLedger := {
  rl_usage : Usage;
  rl_allocations : gmap N Allocation;
  rl_next_token : option N;
}.

Definition usage_default : Usage :=
  {| us_cpu := 0; us_memory := 0; us_disk := 0; us_gpus := []; us_custom := ∅ |}.

(** The ledger of [LocalTaskExecutionEngine::new]. *)
Definition ledger_new : ResourceLedger :=
  {| rl_usage := usage_default; rl_allocations := ∅; rl_next_token := Some 1 |}.

(** Unchecked addition at a type whose largest value is [bound]. *)
Definition wrapping_add (bound a b : N) : N := (a + b) mod (bound + 1).

(** ** Admission *)

Definition labels_match (request : ResourceRequest) (labels : list string) : bool :=
  forallb (λ label, bool_decide (label ∈ labels)) (rr_gpu_labels request).

(** The first test: the capacity can never satisfy the request. *)
Definition unsatisfiable (capacity : ResourceCapacity) (request : ResourceRequest) : bool :=
  let matching_gpu_capacity :=
    N.of_nat (length (filter (λ labels, labels_match request labels)
                        (btree_values String.le (rc_gpus capacity)))) in
  (rc_cpu_slots capacity <? rr_cpu_slots request)
  || (matching_gpu_capacity <? rr_gpu_count request)
  || is_some_and (λ value, default 0 (rc_memory_bytes capacity) <? value)
       (rr_memory_bytes request)
  || is_some_and (λ value, default 0 (rc_disk_bytes capacity) <? value)
       (rr_disk_bytes request)
  || existsb (λ '(name, value), is_none_or (λ limit, limit <? value) (rc_custom capacity !! name))
       (btree_entries String.le (rr_custom request)).

(** The free devices a request would get: matching ones, in key order. *)
Definition available_gpus (capacity : ResourceCapacity) (request : ResourceRequest)
    (usage : Usage) : list string :=
  take (N.to_nat (rr_gpu_count request))
    (filter (λ entry, bool_decide (entry.1 ∉ us_gpus usage) && labels_match request entry.2)
       (btree_entries String.le (rc_gpus capacity))).*1.

Definition available_custom (capacity : ResourceCapacity) (request : ResourceRequest)
    (usage : Usage) : bool :=
  forallb (λ '(name, value),
      is_some_and (λ total, total <=? default 0 (rc_custom capacity !! name))
        (checked_add u64_max (default 0 (us_custom usage !! name)) value))
    (btree_entries String.le (rr_custom request)).

(** The second test: the resources are free now. *)
Definition available (capacity : ResourceCapacity) (request : ResourceRequest)
    (usage : Usage) : bool :=
  is_some_and (λ total, total <=? rc_cpu_slots capacity)
    (checked_add u32_max (us_cpu usage) (rr_cpu_slots request))
  && is_some_and (λ total, total <=? default 0 (rc_memory_bytes capacity))
       (checked_add u64_max (us_memory usage) (default 0 (rr_memory_bytes request)))
  && is_some_and (λ total, total <=? default 0 (rc_disk_bytes capacity))
       (checked_add u64_max (us_disk usage) (default 0 (rr_disk_bytes request)))
  && (N.of_nat (length (available_gpus capacity request usage)) =? rr_gpu_count request)
  && available_custom capacity request usage.

Definition charge_custom (custom : gmap string N) (usage : gmap string N) : gmap string N :=
  foldl (λ m '(name, value), <[name := wrapping_add u64_max (default 0 (m !! name)) value]> m)
    usage (btree_entries String.le custom).

(** [LocalTaskExecutionEngine::try_prepare_typed]; a granted reservation is
    represented by the token its drop releases. *)
Definition try_prepare_typed (capacity : ResourceCapacity) (request : ResourceRequest)
    (ledger : ResourceLedger) : result N EngineError * ResourceLedger :=
  let usage := rl_usage ledger in
  if unsatisfiable capacity request then (Err Unsatisfiable, ledger) else
  if negb (available capacity request usage) then (Err TemporarilyUnavailable, ledger) else
  match rl_next_token ledger with
  | None => (Err ReservationTokenExhausted, ledger)
  | Some token =>
      match checked_add u64_max token 1 with
      | None => (Err ReservationTokenExhausted, ledger)
      | Some next_token =>
          let memory := default 0 (rr_memory_bytes request) in
          let disk := default 0 (rr_disk_bytes request) in
          let gpus := available_gpus capacity request usage in
          (Ok token,
           {| rl_usage :=
                {| us_cpu := wrapping_add u32_max (us_cpu usage) (rr_cpu_slots request);
                   us_memory := wrapping_add u64_max (us_memory usage) memory;
                   us_disk := wrapping_add u64_max (us_disk usage) disk;
                   us_gpus := us_gpus usage ++ gpus;
                   us_custom := charge_custom (rr_custom request) (us_custom usage) |};
              rl_allocations :=
                <[token := {| al_cpu := rr_cpu_slots request; al_memory := memory;
                              al_disk := disk; al_gpus := gpus;
                              al_custom := rr_custom request |}]> (rl_allocations ledger);
              rl_next_token := Some next_token |})
      end
  end.

(** ** Release *)

Definition remove_reserved_gpus (usage_gpus reserved_gpus : list string) : list string :=
  filter (λ id, id ∉ reserved_gpus) usage_gpus.

Definition refund_custom (custom : gmap string N) (usage : gmap string N) : gmap string N :=
  foldl (λ m '(name, amount),
      match m !! name with
      | Some value =>
          let rest := saturating_sub value amount in
          if rest =? 0 then delete name m else <[name := rest]> m
      | None => m
      end) usage (btree_entries String.le custom).

Definition release_reservation (token : N) (ledger : ResourceLedger) : ResourceLedger :=
  match rl_allocations ledger !! token with
  | None => ledger
  | Some a =>
      let usage := rl_usage ledger in
      {| rl_usage :=
           {| us_cpu := saturating_sub (us_cpu usage) (al_cpu a);
              us_memory := saturating_sub (us_memory usage) (al_memory a);
              us_disk := saturating_sub (us_disk usage) (al_disk a);
              us_gpus := remove_reserved_gpus (us_gpus usage) (al_gpus a);
              us_custom := refund_custom (al_custom a) (us_custom usage) |};
         rl_allocations := delete token (rl_allocations ledger);
         rl_next_token := rl_next_token ledger |}
  end.

(** ** The engine as a state machine *)

Inductive engine_step (capacity : ResourceCapacity) : relation ResourceLedger :=
| step_prepare request ledger :
    engine_step capacity ledger (try_prepare_typed capacity request ledger).2
| step_drop token ledger : engine_step capacity ledger (release_reservation token ledger).

(** Amount of one resource held by one reservation. *)
Definition custom_of (name : string) (a : Allocation) : N := default 0 (al_custom a !! name).

(** Usage is the sum of the reservations, stays within the capacity, and no
    device is reserved twice. *)
Record ledger_wf (capacity : ResourceCapacity) (l : ResourceLedger) : Prop := {
  lw_cpu : us_cpu (rl_usage l) = map_sumN al_cpu (rl_allocations l);
  lw_memory : us_memory (rl_usage l) = map_sumN al_memory (rl_allocations l);
  lw_disk : us_disk (rl_usage l) = map_sumN al_disk (rl_allocations l);
  lw_custom : ∀ name, default 0 (us_custom (rl_usage l) !! name) =
    map_sumN (custom_of name) (rl_allocations l);
  lw_gpus : ∀ g, g ∈ us_gpus (rl_usage l) ↔
    ∃ token a, rl_allocations l !! token = Some a ∧ g ∈ al_gpus a;
  lw_gpus_nodup : NoDup (us_gpus (rl_usage l));
  lw_gpus_disjoint : ∀ t1 t2 a1 a2 g,
    rl_allocations l !! t1 = Some a1 → rl_allocations l !! t2 = Some a2 →
    g ∈ al_gpus a1 → g ∈ al_gpus a2 → t1 = t2;
  lw_cpu_cap : us_cpu (rl_usage l) ≤ rc_cpu_slots capacity;
  lw_memory_cap : us_memory (rl_usage l) ≤ default 0 (rc_memory_bytes capacity);
  lw_disk_cap : us_disk (rl_usage l) ≤ default 0 (rc_disk_bytes capacity);
  lw_custom_cap : ∀ name, default 0 (us_custom (rl_usage l) !! name) ≤
    default 0 (rc_custom capacity !! name);
  lw_gpus_cap : ∀ g, g ∈ us_gpus (rl_usage l) → is_Some (rc_gpus capacity !! g);
  lw_token : ∃ n, rl_next_token l = Some n ∧ n ≤ u64_max ∧
    ∀ token a, rl_allocations l !! token = Some a → token < n;
}.

Lemma wrapping_add_small bound a b : a + b ≤ bound → wrapping_add bound a b = a + b.
Proof. intros. unfold wrapping_add. apply N.mod_small. lia. Qed.

Lemma checked_fits bound limit a b :
  is_some_and (λ total, total <=? limit) (checked_add bound a b) = true ↔
  a + b ≤ bound ∧ a + b ≤ limit.
Proof. unfold checked_add. destruct (_ <=? bound) eqn:E; simpl; bool_prop; naive_solver lia. Qed.

(** ** Custom resources *)

Section custom.
Implicit Types (m c : gmap string N) (l : list (string * N)).

Lemma charge_list l m name :
  NoDup l.*1 →
  (∀ n v, (n, v) ∈ l → default 0 (m !! n) + v ≤ u64_max) →
  default 0 (foldl (λ m '(name, value),
      <[name := wrapping_add u64_max (default 0 (m !! name)) value]> m) m l !! name) =
  default 0 (m !! name) + default 0 ((list_to_map l : gmap string N) !! name).
Proof.
  revert m. induction l as [|[n v] l IH]; intros m Hnd Hmax; simpl.
  { rewrite lookup_empty. simpl. lia. }
  rewrite fmap_cons in Hnd. apply NoDup_cons in Hnd as [Hni Hnd].
  assert (default 0 (m !! n) + v ≤ u64_max) as Hn by (apply Hmax; set_solver).
  rewrite IH; [|done|].
  - rewrite wrapping_add_small by done. destruct (decide (n = name)) as [->|Hne].
    + rewrite !lookup_insert_eq. simpl. rewrite (not_elem_of_list_to_map_1 l) by done. simpl. lia.
    + by rewrite !lookup_insert_ne by done.
  - intros n' v' Hin. rewrite lookup_insert_ne; [apply Hmax; set_solver|].
    intros ->. apply Hni. by apply (list_elem_of_fmap_2 fst) in Hin.
Qed.

Lemma refund_list l m name :
  NoDup l.*1 →
  default 0 (foldl (λ m '(name, amount),
    match m !! name with
    | Some value =>
        let rest := saturating_sub value amount in
        if rest =? 0 then delete name m else <[name := rest]> m
    | None => m
    end) m l !! name) =
  default 0 (m !! name) - default 0 ((list_to_map l : gmap string N) !! name).
Proof.
  revert m. induction l as [|[n v] l IH]; intros m Hnd; simpl.
  { rewrite lookup_empty. simpl. lia. }
  rewrite fmap_cons in Hnd. apply NoDup_cons in Hnd as [Hni Hnd]. rewrite IH by done.
  assert (default 0 ((match m !! n with
    | Some value => if saturating_sub value v =? 0 then delete n m
                    else <[n:=saturating_sub value v]> m
    | None => m end) !! name) =
    if decide (n = name) then default 0 (m !! n) - v else default 0 (m !! name)) as ->.
  { unfold saturating_sub. destruct (m !! n) as [value|] eqn:Hm.
    - destruct (_ =? 0) eqn:Hz; bool_prop; case_decide; subst;
        rewrite ?lookup_delete_eq, ?lookup_delete_ne, ?lookup_insert_eq, ?lookup_insert_ne by done;
        simpl; lia || done.
    - case_decide; subst; rewrite ?Hm; simpl; lia || done. }
  case_decide as Hd; [subst|].
  - rewrite (not_elem_of_list_to_map_1 l), lookup_insert_eq by done. simpl. lia.
  - by rewrite lookup_insert_ne by done.
Qed.

Lemma btree_entries_to_map c : list_to_map (btree_entries String.le c) = c.
Proof.
  rewrite <- (list_to_map_to_list c) at 2. apply list_to_map_proper.
  - apply NoDup_btree_keys.
  - apply btree_entries_Permutation.
Qed.

Lemma charge_custom_lookup c m name :
  (∀ n v, c !! n = Some v → default 0 (m !! n) + v ≤ u64_max) →
  default 0 (charge_custom c m !! name) = default 0 (m !! name) + default 0 (c !! name).
Proof.
  intros Hmax. unfold charge_custom. rewrite charge_list.
  - by rewrite btree_entries_to_map.
  - apply NoDup_btree_keys.
  - intros n v Hin. apply Hmax. by apply elem_of_btree_entries in Hin.
Qed.

Lemma refund_custom_lookup c m name :
  default 0 (refund_custom c m !! name) = default 0 (m !! name) - default 0 (c !! name).
Proof.
  unfold refund_custom. rewrite refund_list by apply NoDup_btree_keys.
  by rewrite btree_entries_to_map.
Qed.
End custom.

(** ** Devices *)

(** The devices that match the labels of a request and are not reserved. *)
Definition free_matching (capacity : ResourceCapacity) (request : ResourceRequest)
    (usage : Usage) : list string :=
  (filter (λ entry, bool_decide (entry.1 ∉ us_gpus usage) && labels_match request entry.2)
     (btree_entries String.le (rc_gpus capacity))).*1.

Section devices.
Context (capacity : ResourceCapacity) (request : ResourceRequest).

Lemma elem_of_free_matching usage g :
  g ∈ free_matching capacity request usage ↔
  (g ∉ us_gpus usage) ∧
  (∃ labels, rc_gpus capacity !! g = Some labels ∧
     (∀ l, l ∈ rr_gpu_labels request → l ∈ labels)).
Proof.
  unfold free_matching. rewrite list_elem_of_fmap. unfold labels_match. split.
  - intros ([g' labels] & -> & [Hf Hin]%list_elem_of_filter). simpl in *.
    apply Is_true_true in Hf. bool_prop. destruct Hf as [Hni Hl].
    apply elem_of_btree_entries in Hin. split; [done|]. exists labels. split; [done|].
    intros l Hl'. rewrite forallb_forall in Hl.
    apply list_elem_of_In, Hl in Hl'. by bool_prop.
  - intros (Hni & labels & Hg & Hl). exists (g, labels). split; [done|].
    apply list_elem_of_filter. rewrite elem_of_btree_entries. split; [|done]. simpl.
    apply Is_true_true. rewrite bool_decide_true by done. simpl. apply forallb_forall.
    intros l Hin%list_elem_of_In. bool_prop. by apply Hl.
Qed.

Lemma free_matching_NoDup usage : NoDup (free_matching capacity request usage).
Proof. apply NoDup_fmap_filter, NoDup_btree_keys. Qed.

Lemma available_gpus_take usage :
  available_gpus capacity request usage =
  take (N.to_nat (rr_gpu_count request)) (free_matching capacity request usage).
Proof. done. Qed.

Lemma available_gpus_count usage :
  (N.of_nat (length (available_gpus capacity request usage)) =? rr_gpu_count request) = true ↔
  rr_gpu_count request ≤ N.of_nat (length (free_matching capacity request usage)).
Proof. rewrite available_gpus_take, length_take. bool_prop. lia. Qed.

(** With nothing reserved, the free devices are all the matching ones. *)
Lemma free_matching_idle usage :
  us_gpus usage = [] →
  length (free_matching capacity request usage) =
  length (filter (λ labels, labels_match request labels)
            (btree_values String.le (rc_gpus capacity))).
Proof.
  intros Hg. unfold free_matching, btree_values. rewrite Hg, length_fmap.
  induction (btree_entries String.le (rc_gpus capacity)) as [|[g labels] l IH]; [done|].
  rewrite fmap_cons, !filter_cons. cbn [fst snd].
  rewrite (bool_decide_true (g ∉ [])) by set_solver. rewrite andb_true_l.
  case_decide; [by rewrite !length_cons, IH|done].
Qed.
End devices.

(** ** Exact admission *)

(** The request fits beside the current usage. *)
Record fits (capacity : ResourceCapacity) (request : ResourceRequest) (usage : Usage)
    : Prop := {
  fit_cpu : us_cpu usage + rr_cpu_slots request ≤ rc_cpu_slots capacity;
  fit_memory : us_memory usage + default 0 (rr_memory_bytes request) ≤
    default 0 (rc_memory_bytes capacity);
  fit_disk : us_disk usage + default 0 (rr_disk_bytes request) ≤
    default 0 (rc_disk_bytes capacity);
  fit_gpus : rr_gpu_count request ≤ N.of_nat (length (free_matching capacity request usage));
  fit_custom : ∀ name value, rr_custom request !! name = Some value →
    default 0 (us_custom usage !! name) + value ≤ default 0 (rc_custom capacity !! name);
}.

(** The configured amounts are values of their types. *)
Record capacity_ok (capacity : ResourceCapacity) : Prop := {
  cok_cpu : rc_cpu_slots capacity ≤ u32_max;
  cok_memory : default 0 (rc_memory_bytes capacity) ≤ u64_max;
  cok_disk : default 0 (rc_disk_bytes capacity) ≤ u64_max;
  cok_custom : ∀ name, default 0 (rc_custom capacity !! name) ≤ u64_max;
}.

Section admission.
Context (capacity : ResourceCapacity) (Hcap : capacity_ok capacity).
Implicit Types (request : ResourceRequest) (l : ResourceLedger).

Lemma available_fits request usage :
  available capacity request usage = true ↔ fits capacity request usage.
Proof.
  destruct Hcap as [Hc Hm Hd Hx].
  assert (available_custom capacity request usage = true ↔
    ∀ name value, rr_custom request !! name = Some value →
      default 0 (us_custom usage !! name) + value ≤ default 0 (rc_custom capacity !! name))
    as Hcustom.
  { unfold available_custom. rewrite forallb_forall. split.
    - intros H name value Hv. apply (elem_of_btree_entries String.le) in Hv.
      apply list_elem_of_In in Hv. specialize (H _ Hv). simpl in H.
      by apply checked_fits in H as [_ H].
    - intros H [name value] Hv%list_elem_of_In%elem_of_btree_entries. apply checked_fits.
      specialize (H name value Hv). specialize (Hx name). lia. }
  unfold available. rewrite !andb_true_iff, !checked_fits, available_gpus_count, Hcustom.
  split; [intros; split; tauto|]. intros []. split_and!; lia || done.
Qed.

(** The first test asks whether the request fits an idle engine; it never
    looks at the usage. *)
Lemma unsatisfiable_idle request :
  unsatisfiable capacity request = false ↔
  fits capacity request usage_default ∧
  ∀ name, is_Some (rr_custom request !! name) → is_Some (rc_custom capacity !! name).
Proof.
  unfold unsatisfiable. rewrite !orb_false_iff, !N.ltb_ge, !is_some_and_false.
  assert (existsb (λ '(name, value),
      is_none_or (λ limit, limit <? value) (rc_custom capacity !! name))
      (btree_entries String.le (rr_custom request)) = false ↔
    ∀ name value, rr_custom request !! name = Some value →
      ∃ limit, rc_custom capacity !! name = Some limit ∧ value ≤ limit) as ->.
  { rewrite <- not_true_iff_false, existsb_exists. split.
    - intros Hn name value Hv. destruct (rc_custom capacity !! name) as [limit|] eqn:Hl.
      + exists limit. split; [done|]. destruct (decide (value ≤ limit)) as [|Hgt]; [done|].
        exfalso. apply Hn. exists (name, value).
        rewrite <- list_elem_of_In, elem_of_btree_entries, Hl. simpl. bool_prop. split; [done|lia].
      + exfalso. apply Hn. exists (name, value).
        by rewrite <- list_elem_of_In, elem_of_btree_entries, Hl.
    - intros H ([name value] & Hin & Hx). apply list_elem_of_In, elem_of_btree_entries in Hin.
      destruct (H name value Hin) as (limit & Hl & Hle). rewrite Hl in Hx. simpl in Hx.
      bool_prop. lia. }
  rewrite <- (free_matching_idle capacity request usage_default) by done.
  assert (∀ (o : option N) b, (∀ a, o = Some a → (b <? a) = false) ↔ default 0 o ≤ b) as Hopt.
  { intros [x|] b; simpl; [setoid_rewrite N.ltb_ge; naive_solver|]. split; [lia|done]. }
  rewrite !Hopt. split.
  - intros [[[[H1 H2] H3] H4] H5]. split.
    + split; simpl; try lia. intros name value Hv. rewrite lookup_empty. simpl.
      destruct (H5 name value Hv) as (limit & -> & ?). simpl. lia.
    + intros name [value Hv]. destruct (H5 name value Hv) as (limit & -> & ?). eauto.
  - intros [[H1 H2 H3 H4 H5] H6]. simpl in *. split_and!; try lia. intros name value Hv.
    specialize (H5 name value Hv). rewrite lookup_empty in H5. simpl in H5.
    destruct (H6 name) as [limit Hl]; [by eauto|]. rewrite Hl in *. simpl in *. eauto.
Qed.

(** What a granted request does to the ledger. *)
Lemma prepare_cases request l :
  (∃ e, try_prepare_typed capacity request l = (Err e, l)) ∨
  (∃ token, rl_next_token l = Some token ∧ token + 1 ≤ u64_max ∧
     unsatisfiable capacity request = false ∧ fits capacity request (rl_usage l) ∧
     (try_prepare_typed capacity request l).1 = Ok token).
Proof.
  unfold try_prepare_typed. destruct (unsatisfiable _ _); [by eauto|].
  destruct (available _ _ _) eqn:Ha; simpl; [|by eauto]. apply available_fits in Ha.
  destruct (rl_next_token l) as [token|]; [|by eauto].
  destruct (checked_add _ _ _) as [next|] eqn:Hn; [|by eauto].
  apply checked_add_Some in Hn as [-> Hn]. right. exists token. done.
Qed.

Lemma ledger_wf_new : ledger_wf capacity ledger_new.
Proof.
  split; simpl; try (intros; lia); try (intros; apply N.le_0_l);
    try (by rewrite map_sumN_empty).
  - intros name. by rewrite map_sumN_empty.
  - intros g. split; [set_solver|]. by intros (t & a & ?%lookup_empty_Some & _).
  - constructor.
  - by intros t1 t2 a1 a2 g ?%lookup_empty_Some.
  - set_solver.
  - exists 1. split_and!; [done|done|]. by intros t a ?%lookup_empty_Some.
Qed.

Lemma prepare_wf request l :
  ledger_wf capacity l → ledger_wf capacity (try_prepare_typed capacity request l).2.
Proof.
  intros Hwf. unfold try_prepare_typed. destruct (unsatisfiable _ _); [done|].
  destruct (available _ _ _) eqn:Ha; simpl; [|done]. apply available_fits in Ha as [F1 F2 F3 _ F5].
  destruct (lw_token _ _ Hwf) as (token & Htok & Hmax & Hfresh). rewrite Htok.
  destruct (checked_add _ _ _) as [next|] eqn:Hn; [|done].
  apply checked_add_Some in Hn as [-> Hn]. simpl. destruct Hcap as [C1 C2 C3 C4].
  assert (rl_allocations l !! token = None) as Hnone.
  { destruct (rl_allocations l !! token) as [a|] eqn:He; [|done].
    specialize (Hfresh token a He). lia. }
  set (gpus := available_gpus capacity request (rl_usage l)).
  assert (∀ g, g ∈ gpus → g ∈ free_matching capacity request (rl_usage l)) as Hfree.
  { intros g Hg. unfold gpus in Hg. rewrite available_gpus_take in Hg. by eapply subseteq_take. }
  set (a := {| al_cpu := _ |}).
  assert (∀ name, default 0 (charge_custom (rr_custom request) (us_custom (rl_usage l)) !! name) =
    default 0 (us_custom (rl_usage l) !! name) + custom_of name a) as Hcharge.
  { intros name. apply charge_custom_lookup. intros n v Hv. specialize (F5 n v Hv).
    specialize (C4 n). lia. }
  split; simpl.
  - rewrite wrapping_add_small, map_sumN_insert, (lw_cpu _ _ Hwf) by (done || lia). simpl. lia.
  - rewrite wrapping_add_small, map_sumN_insert, (lw_memory _ _ Hwf) by (done || lia). simpl. lia.
  - rewrite wrapping_add_small, map_sumN_insert, (lw_disk _ _ Hwf) by (done || lia). simpl. lia.
  - intros name. rewrite Hcharge, map_sumN_insert, (lw_custom _ _ Hwf) by done. lia.
  - intros g. rewrite elem_of_app, (lw_gpus _ _ Hwf). setoid_rewrite lookup_insert_Some. split.
    + intros [(t & a' & Ht & Hg)|Hg]; [|by exists token, a; eauto].
      exists t, a'. split; [|done]. right. split; [|done]. congruence.
    + intros (t & a' & [[<- <-]|[_ Ht]] & Hg); [by right|left; eauto].
  - apply NoDup_app. split_and!; [apply Hwf|..].
    + intros g Hg Hg'. apply Hfree, elem_of_free_matching in Hg' as [? _]. done.
    + unfold gpus. rewrite available_gpus_take.
      eapply sublist_NoDup; [apply free_matching_NoDup|apply sublist_take].
  - intros t1 t2 a1 a2 g. rewrite !lookup_insert_Some.
    intros [[<- <-]|[? H1]] [[<- <-]|[? H2]] Hg1 Hg2; [done|..].
    + apply Hfree, elem_of_free_matching in Hg1 as [Hni _]. exfalso.
      apply Hni, (lw_gpus _ _ Hwf). eauto.
    + apply Hfree, elem_of_free_matching in Hg2 as [Hni _]. exfalso.
      apply Hni, (lw_gpus _ _ Hwf). eauto.
    + by eapply (lw_gpus_disjoint _ _ Hwf).
  - rewrite wrapping_add_small; lia.
  - rewrite wrapping_add_small; lia.
  - rewrite wrapping_add_small; lia.
  - intros name. rewrite Hcharge. unfold custom_of. simpl.
    destruct (rr_custom request !! name) as [v|] eqn:Hv; simpl.
    + by apply F5.
    + rewrite N.add_0_r. apply Hwf.
  - intros g [Hg|Hg]%elem_of_app; [by apply Hwf|].
    apply Hfree, elem_of_free_matching in Hg as (_ & labels & Hl & _). eauto.
  - exists (token + 1). split_and!; [done|done|]. intros t a'.
    rewrite lookup_insert_Some. intros [[<- _]|[_ Ht]]; [lia|].
    specialize (Hfresh t a' Ht). lia.
Qed.

Lemma release_wf token l :
  ledger_wf capacity l → ledger_wf capacity (release_reservation token l).
Proof.
  intros Hwf. unfold release_reservation.
  destruct (rl_allocations l !! token) as [a|] eqn:Ha; [|done].
  assert (∀ f, map_sumN f (rl_allocations l) =
    f a + map_sumN f (delete token (rl_allocations l))) as Hsum.
  { intros f. by apply map_sumN_delete. }
  destruct Hwf as [W1 W2 W3 W4 W5 W6 W7 W8 W9 W10 W11 W12 (n & Hn & Hmax & Hfresh)].
  split; simpl; unfold saturating_sub.
  - rewrite W1, Hsum. lia.
  - rewrite W2, Hsum. lia.
  - rewrite W3, Hsum. lia.
  - intros name. rewrite refund_custom_lookup, W4, Hsum.
    change (custom_of name a) with (default 0 (al_custom a !! name)). lia.
  - intros g. unfold remove_reserved_gpus. rewrite list_elem_of_filter, W5.
    setoid_rewrite lookup_delete_Some. split.
    + intros (Hni & t & a' & Ht & Hg). exists t, a'. split_and!; [|done..]. congruence.
    + intros (t & a' & [Hne Ht] & Hg). split; [|by eauto]. intros Hg'.
      apply Hne. by eapply W7.
  - by apply NoDup_filter.
  - intros t1 t2 a1 a2 g [_ H1]%lookup_delete_Some [_ H2]%lookup_delete_Some. by eapply W7.
  - lia.
  - lia.
  - lia.
  - intros name. rewrite refund_custom_lookup. specialize (W11 name). lia.
  - intros g [_ Hg]%list_elem_of_filter. by apply W12.
  - exists n. split_and!; [done|done|]. intros t a' [_ Ht]%lookup_delete_Some. by eapply Hfresh.
Qed.

Lemma engine_reachable_wf l : rtc (engine_step capacity) ledger_new l → ledger_wf capacity l.
Proof.
  intros Hr. assert (ledger_wf capacity ledger_new) as Hwf by apply ledger_wf_new.
  induction Hr as [|x y z Hstep _ IH]; [done|]. apply IH.
  destruct Hstep; [by apply prepare_wf|by apply release_wf].
Qed.
End admission.

(** ** Equivalent ledgers

    A custom resource that is not in the usage map and one recorded with
    amount zero mean the same, and so do different orders of the device
    list. *)

Record ledger_equiv (l1 l2 : ResourceLedger) : Prop := {
  le_cpu : us_cpu (rl_usage l1) = us_cpu (rl_usage l2);
  le_memory : us_memory (rl_usage l1) = us_memory (rl_usage l2);
  le_disk : us_disk (rl_usage l1) = us_disk (rl_usage l2);
  le_gpus : us_gpus (rl_usage l1) ≡ₚ us_gpus (rl_usage l2);
  le_custom : ∀ name, default 0 (us_custom (rl_usage l1) !! name) =
    default 0 (us_custom (rl_usage l2) !! name);
  le_allocations : rl_allocations l1 = rl_allocations l2;
}.

#[export] Instance ledger_equiv_equivalence : Equivalence ledger_equiv.
Proof.
  split.
  - intros l. by split.
  - intros l1 l2 []. by split.
  - intros l1 l2 l3 [] []. split; etrans; eauto.
Qed.

(** Usage is determined by the reservations. *)
Lemma ledger_wf_determined capacity l1 l2 :
  ledger_wf capacity l1 → ledger_wf capacity l2 → rl_allocations l1 = rl_allocations l2 →
  ledger_equiv l1 l2.
Proof.
  intros [] [] Ha. rewrite Ha in *. split; try congruence.
  apply NoDup_Permutation; [done..|]. intros g. by rewrite lw_gpus0, lw_gpus1.
Qed.

#[export] Instance fits_proper capacity request :
  Proper (ledger_equiv ==> iff) (λ l, fits capacity request (rl_usage l)).
Proof.
  assert (∀ l1 l2, ledger_equiv l1 l2 →
    fits capacity request (rl_usage l1) → fits capacity request (rl_usage l2)) as Himp.
  { intros l1 l2 [E1 E2 E3 E4 E5 _] [F1 F2 F3 F4 F5]. split; try congruence.
    - replace (length (free_matching capacity request (rl_usage l2)))
        with (length (free_matching capacity request (rl_usage l1))); [done|].
      apply Permutation_length, NoDup_Permutation; [apply free_matching_NoDup..|].
      intros g. rewrite !elem_of_free_matching. by rewrite E4.
    - intros name value. rewrite <- E5. apply F5. }
  intros l1 l2 Heq. split; apply Himp; [done|by symmetry].
Qed.

#[export] Instance available_proper capacity (Hcap : capacity_ok capacity) request :
  Proper (ledger_equiv ==> eq) (λ l, available capacity request (rl_usage l)).
Proof.
  intros l1 l2 Heq. apply eq_iff_eq_true. rewrite !(available_fits capacity Hcap).
  by apply fits_proper.
Qed.

(** ** Properties *)

Section properties.
Context (capacity : ResourceCapacity) (Hcap : capacity_ok capacity).

(** In every history of grants and drops the recorded usage is the sum
    of the live reservations, never exceeds the configured capacity in any
    resource, and no device belongs to two reservations. *)
Theorem engine_invariant l :
  rtc (engine_step capacity) ledger_new l → ledger_wf capacity l.
Proof. apply engine_reachable_wf, Hcap. Qed.

(** C28. Admission is exact: a request is unsatisfiable when it would not fit
    an idle engine, whatever is reserved now; a satisfiable one is granted
    when it fits beside the current usage and deferred otherwise.  A refusal
    changes nothing; a grant gets the requested number of distinct free
    devices, each with all the requested labels.  (The counter of reservations
    has not reached the last of its 2^64 values.) *)
Theorem engine_admission_exact request l token :
  rtc (engine_step capacity) ledger_new l → rl_next_token l = Some token → token < u64_max →
  let satisfiable := fits capacity request usage_default ∧
    (∀ name, is_Some (rr_custom request !! name) → is_Some (rc_custom capacity !! name)) in
  let '(answer, l') := try_prepare_typed capacity request l in
  (answer = Err Unsatisfiable ↔ ¬ satisfiable) ∧
  (answer = Err TemporarilyUnavailable ↔
     satisfiable ∧ ¬ fits capacity request (rl_usage l)) ∧
  (answer = Ok token ↔ satisfiable ∧ fits capacity request (rl_usage l)) ∧
  (∀ e, answer = Err e → l' = l) ∧
  (answer = Ok token → ∃ a, rl_allocations l' !! token = Some a ∧
     N.of_nat (length (al_gpus a)) = rr_gpu_count request ∧ NoDup (al_gpus a) ∧
     ∀ g, g ∈ al_gpus a → g ∈ free_matching capacity request (rl_usage l)).
Proof.
  intros Hr Htok Hmax satisfiable. pose proof (unsatisfiable_idle capacity request) as Hu.
  fold satisfiable in Hu. unfold try_prepare_typed.
  destruct (unsatisfiable capacity request) eqn:Hun.
  { assert (¬ satisfiable) as Hns by (intros Hs; by apply Hu in Hs).
    split_and!; try done; naive_solver. }
  assert satisfiable as Hs by (by apply Hu).
  pose proof (available_fits capacity Hcap request (rl_usage l)) as Hf.
  destruct (available capacity request (rl_usage l)) eqn:Ha; simpl.
  - assert (fits capacity request (rl_usage l)) as Hfit by (by apply Hf).
    rewrite Htok. unfold checked_add.
    destruct (_ <=? _) eqn:Hle; bool_prop; [|lia]. simpl.
    split_and!; try done; try naive_solver. intros _.
    eexists. split; [apply lookup_insert_eq|]. simpl. split_and!.
    + pose proof (available_gpus_count capacity request (rl_usage l)) as Hcount.
      pose proof (fit_gpus _ _ _ Hfit) as Hg. apply Hcount in Hg. by bool_prop.
    + rewrite available_gpus_take.
      eapply sublist_NoDup; [apply free_matching_NoDup|apply sublist_take].
    + intros g Hg. rewrite available_gpus_take in Hg. by eapply subseteq_take.
  - assert (¬ fits capacity request (rl_usage l)) as Hnf by (intros H; by apply Hf in H).
    split_and!; try done; naive_solver.
Qed.

(** A satisfiable request is granted when nothing is reserved: deferral
    always ends once the other reservations are dropped. *)
Theorem engine_idle_grants request l token :
  rtc (engine_step capacity) ledger_new l → rl_allocations l = ∅ →
  rl_next_token l = Some token → token < u64_max →
  unsatisfiable capacity request = false →
  (try_prepare_typed capacity request l).1 = Ok token.
Proof.
  intros Hr Hidle Htok Hmax Hun. unfold try_prepare_typed. rewrite Hun.
  apply (unsatisfiable_idle capacity request) in Hun as [Hfit _].
  assert (fits capacity request (rl_usage l)) as Hnow.
  { apply (fits_proper capacity request ledger_new l); [|done].
    apply (ledger_wf_determined capacity); 
      [by apply ledger_wf_new|by apply engine_reachable_wf|by rewrite Hidle]. }
  apply (available_fits capacity Hcap) in Hnow. rewrite Hnow. simpl. rewrite Htok.
  unfold checked_add. destruct (_ <=? _) eqn:Hle; bool_prop; [done|lia].
Qed.

(** Dropping a reservation undoes its grant, and dropping it again does
    nothing. *)
Theorem engine_release_restores request l token l1 :
  rtc (engine_step capacity) ledger_new l →
  try_prepare_typed capacity request l = (Ok token, l1) →
  ledger_equiv (release_reservation token l1) l ∧
  release_reservation token (release_reservation token l1) = release_reservation token l1.
Proof.
  intros Hr Hp. pose proof (engine_reachable_wf capacity Hcap l Hr) as Hwf.
  assert (ledger_wf capacity l1) as Hwf1.
  { replace l1 with (try_prepare_typed capacity request l).2 by (by rewrite Hp).
    by apply prepare_wf. }
  assert (∃ a, rl_allocations l1 = <[token := a]> (rl_allocations l)) as [a Ha].
  { unfold try_prepare_typed in Hp. split_matches. eauto. }
  assert (rl_allocations (release_reservation token l1) = delete token (rl_allocations l1)) as Hd.
  { unfold release_reservation. by rewrite Ha, lookup_insert_eq. }
  split.
  - apply (ledger_wf_determined capacity); [by apply release_wf|done|].
    rewrite Hd, Ha. apply delete_insert_id.
    destruct (lw_token _ _ Hwf) as (n & Hn & _ & Hfresh).
    destruct (rl_allocations l !! token) as [b|] eqn:Hb; [|done].
    specialize (Hfresh token b Hb). unfold try_prepare_typed in Hp. rewrite Hn in Hp.
    split_matches. lia.
  - unfold release_reservation at 1. by rewrite Hd, lookup_delete_eq.
Qed.
End properties.

(** Two CPU slots, two devices of which one has tensor cores, five licences. *)
Definition demo_capacity : ResourceCapacity :=
  {| rc_cpu_slots := 2; rc_memory_bytes := Some 100; rc_disk_bytes := None;
     rc_gpus := {[ "a" := ["cuda"]; "b" := ["cuda"; "tensor"] ]}%string;
     rc_custom := {[ "licence" := 5 ]}%string |}.

Definition demo_resource_request : ResourceRequest :=
  {| rr_cpu_slots := 1; rr_gpu_count := 1; rr_memory_bytes := Some 60; rr_disk_bytes := None;
     rr_gpu_labels := ["cuda"]%string; rr_custom := {[ "licence" := 3 ]}%string |}.

Lemma demo_capacity_ok : capacity_ok demo_capacity.
Proof.
  split; try done. intros name. simpl. rewrite lookup_singleton. case_decide; simpl; done.
Qed.

Definition demo_ledger1 : ResourceLedger :=
  (try_prepare_typed demo_capacity demo_resource_request ledger_new).2.
Definition demo_ledger2 : ResourceLedger := release_reservation 1 demo_ledger1.

Lemma engine_invariant_witness : ledger_wf demo_capacity demo_ledger1.
Proof.
  apply (engine_invariant demo_capacity demo_capacity_ok).
  eapply rtc_l; [apply (step_prepare demo_capacity demo_resource_request)|apply rtc_refl].
Defined.

Lemma engine_admission_exact_witness :
  (try_prepare_typed demo_capacity demo_resource_request demo_ledger1).1 =
    Err TemporarilyUnavailable ∧
  ¬ fits demo_capacity demo_resource_request (rl_usage demo_ledger1).
Proof.
  assert ((try_prepare_typed demo_capacity demo_resource_request demo_ledger1).1 =
    Err TemporarilyUnavailable) as Hans by (vm_compute; reflexivity).
  split; [exact Hans|].
  pose proof (engine_admission_exact demo_capacity demo_capacity_ok demo_resource_request
    demo_ledger1 2 (rtc_once _ _ (step_prepare demo_capacity demo_resource_request ledger_new))
    ltac:(vm_compute; reflexivity) ltac:(vm_compute; reflexivity)) as H.
  destruct (try_prepare_typed demo_capacity demo_resource_request demo_ledger1) as [answer l'].
  exact (proj2 (proj1 (proj1 (proj2 H)) Hans)).
Defined.

Lemma engine_idle_grants_witness :
  (try_prepare_typed demo_capacity demo_resource_request demo_ledger2).1 = Ok 2.
Proof.
  apply (engine_idle_grants demo_capacity demo_capacity_ok).
  - eapply rtc_l; [apply (step_prepare demo_capacity demo_resource_request)|].
    eapply rtc_l; [apply (step_drop demo_capacity 1)|apply rtc_refl].
  - vm_compute. reflexivity.
  - vm_compute. reflexivity.
  - vm_compute. reflexivity.
  - vm_compute. reflexivity.
Defined.

Lemma engine_release_restores_witness : ledger_equiv demo_ledger2 ledger_new.
Proof.
  apply (engine_release_restores demo_capacity demo_capacity_ok demo_resource_request ledger_new 1
    demo_ledger1); [apply rtc_refl|vm_compute; reflexivity].
Defined.
