(* ===== verification/RetryPolicy.v ===== *)
(** * Retry delays

    [src/src/service/retry_policy.rs]: exponential backoff with a cap.  A
    [Duration] is its number of nanoseconds. *)

From S2P Require Import Prelude.

(** [Duration::MAX]: [u64::MAX] seconds and 999,999,999 nanoseconds. *)
Definition duration_max : N := u64_max * 1000000000 + 999999999.
Definition duration_from_secs (n : N) : N := n * 1000000000.
Definition duration_saturating_mul (d k : N) : N := N.min duration_max (d * k).

Inductive RetryPolicyError := ZeroInitialDelay | MaximumBelowInitial.

Record RetryPolicy := { rp_initial_delay : N; rp_max_delay : N }.

Definition RetryPolicy_new (initial_delay max_delay : N) : result RetryPolicy RetryPolicyError :=
  bail ZeroInitialDelay when initial_delay =? 0;
  bail MaximumBelowInitial when max_delay <? initial_delay;
  Ok {| rp_initial_delay := initial_delay; rp_max_delay := max_delay |}.

Definition RetryPolicy_default : RetryPolicy :=
  {| rp_initial_delay := duration_from_secs 1; rp_max_delay := duration_from_secs 60 |}.

(** The doubling loop; [remaining] counts the doublings left. *)
Fixpoint doubling_loop (max_delay : N) (remaining : nat) (delay : N) : N :=
  match remaining with
  | O => delay
  | S remaining' =>
      if delay <? max_delay
      then doubling_loop max_delay remaining'
             (N.min (duration_saturating_mul delay 2) max_delay)
      else delay
  end.

Definition delay_for_attempt (p : RetryPolicy) (attempt : N) : N :=
  doubling_loop (rp_max_delay p) (N.to_nat (saturating_sub attempt 1)) (rp_initial_delay p).

(** Policies [new] can build. *)
Record policy_ok (p : RetryPolicy) : Prop := {
  pok_positive : 0 < rp_initial_delay p;
  pok_range : rp_initial_delay p ≤ rp_max_delay p;
  pok_width : rp_max_delay p ≤ duration_max;
}.

Lemma doubling_loop_closed max n d :
  0 < d → d ≤ max → max ≤ duration_max →
  doubling_loop max n d = N.min (d * 2 ^ N.of_nat n) max.
Proof.
  revert d. induction n as [|n IH]; intros d Hd Hle Hmax; [simpl; lia|].
  cbn [doubling_loop]. rewrite Nat2N.inj_succ, N.pow_succ_r'. pose proof (N.pow_nonzero 2 (N.of_nat n)) as Hpow.
  destruct (d <? max) eqn:Hlt; bool_prop; [|nia].
  rewrite IH; unfold duration_saturating_mul; [|lia..].
  destruct (N.le_ge_cases (d * 2) max); [|nia].
  rewrite (N.min_r duration_max), (N.min_l (d * 2) max) by lia. f_equal. lia.
Qed.

(** C33. A policy accepted by [new] delays the [n]-th failed attempt by the
    initial delay doubled [n - 1] times, capped at the maximum: no overflow, a
    delay within the configured range, growing with the attempt number. *)
Theorem retry_delay_exact p initial max attempt later :
  RetryPolicy_new initial max = Ok p → max ≤ duration_max → attempt ≤ later →
  delay_for_attempt p attempt = N.min (initial * 2 ^ (attempt - 1)) max ∧
  initial ≤ delay_for_attempt p attempt ∧ delay_for_attempt p attempt ≤ max ∧
  delay_for_attempt p attempt ≤ delay_for_attempt p later.
Proof.
  intros Hnew Hmax Hlater.
  assert (0 < initial ∧ initial ≤ max ∧ p = {| rp_initial_delay := initial; rp_max_delay := max |})
    as (Hpos & Hle & ->).
  { unfold RetryPolicy_new in Hnew. split_matches. bool_prop. split_and!; lia || done. }
  assert (∀ a, delay_for_attempt {| rp_initial_delay := initial; rp_max_delay := max |} a =
    N.min (initial * 2 ^ (a - 1)) max) as Hclosed.
  { intros a. unfold delay_for_attempt, saturating_sub. simpl.
    rewrite doubling_loop_closed by done. by rewrite N2Nat.id. }
  rewrite !Hclosed. pose proof (N.pow_nonzero 2 (attempt - 1) ltac:(done)).
  assert (2 ^ (attempt - 1) ≤ 2 ^ (later - 1)) by (apply N.pow_le_mono_r; lia).
  split_and!; nia.
Qed.

(** The documented example: one second doubled three times, capped at eight. *)
Lemma retry_delay_exact_witness :
  let p := {| rp_initial_delay := duration_from_secs 1; rp_max_delay := duration_from_secs 8 |} in
  delay_for_attempt p 4 = duration_from_secs 8 ∧
  delay_for_attempt p 4 ≤ delay_for_attempt p 40.
Proof.
  cbv zeta. split; [vm_compute; reflexivity|].
  apply (retry_delay_exact _ (duration_from_secs 1) (duration_from_secs 8) 4 40);
    vm_compute; congruence.
Defined.
