(* ===== verification/Requests.v ===== *)
(** * Typed requests and their encoding

    [src/src/model/typed/task_request.rs], [payload.rs], [encoded_payload.rs]
    and [resource_request.rs]: what a typed submission must satisfy before it
    reaches a store, and what of it is stored.

    The codec registry (qubit-codec) is a finite map from codec identifiers to
    descriptors.  A value of some Rust type is a [Value] tagged with its
    [TypeId]; the bounded JSON encoder of metadata (qubit-metadata) is a
    parameter. *)

From S2P Require Import Prelude TaskState Model.

(** ** Code of other crates *)

Class CodecTypes := {
  TypeId : Type;
  type_id_eq_dec :: EqDecision TypeId;
  Value : Type;
  (** the Rust type of a boxed value *)
  value_type : Value → TypeId;
  CodecError : Type;
}.

Section codecs.
Context `{CT : !CodecTypes}.

(** A [ValueBytesCodecRegistration]'s descriptor. *)
Record CodecDescriptor := {
  cd_value_type_id : TypeId;
  cd_encode : Value → result bytes CodecError;
  cd_decode : bytes → result Value CodecError;
}.

Definition ValueBytesCodecRegistry : Type := gmap string CodecDescriptor.

(** A codec reads back what it wrote, at the type it is registered for. *)
Definition codec_lawful (d : CodecDescriptor) : Prop :=
  ∀ v bs, value_type v = cd_value_type_id d → cd_encode d v = Ok bs → cd_decode d bs = Ok v.
End codecs.

(** The bounded metadata encoder: the limit on output bytes is an argument, and
    an error says whether it is that limit. *)
Class MetadataWire `{ET : !ExternalTypes} := {
  MetadataWireEncodeError : Type;
  is_output_budget : MetadataWireEncodeError → bool;
  to_json_vec_with_limits : N → Metadata → result bytes MetadataWireEncodeError;
}.

(** ** Payloads *)

Section requests.
Context `{ET : !ExternalTypes, CT : !CodecTypes, MW : !MetadataWire}.

(** [Payload<T>]: the type parameter contributes its model and Rust type. *)
Record Payload := {
  pl_model_id : ModelIdBuf;
  pl_rust_type : TypeId;
  pl_schema_version : N;
  pl_codec_id : string;
  pl_data : Value;
}.

Inductive PayloadEncodeError :=
| PayloadMissingCodec (codec_id : string)
| PayloadTypeMismatchError
| PayloadCodec (e : CodecError).

Record EncodedPayload := {
  ep_type_id : ModelIdBuf;
  ep_schema_version : N;
  ep_codec_id : string;
  ep_bytes : bytes;
}.

Definition Payload_encode (p : Payload) (registry : ValueBytesCodecRegistry)
    : result EncodedPayload PayloadEncodeError :=
  let? registration := ok_or (PayloadMissingCodec (pl_codec_id p)) (registry !! pl_codec_id p) in
  bail PayloadTypeMismatchError
    when negb (bool_decide (cd_value_type_id registration = pl_rust_type p));
  let? bytes := map_err PayloadCodec (cd_encode registration (pl_data p)) in
  Ok {| ep_type_id := pl_model_id p; ep_schema_version := pl_schema_version p;
        ep_codec_id := pl_codec_id p; ep_bytes := bytes |}.

Definition into_stored (p : EncodedPayload) : StoredPayload :=
  {| sp_type_id := ep_type_id p; sp_schema_version := ep_schema_version p;
     sp_codec_id := ep_codec_id p; sp_bytes := ep_bytes p |}.

(** ** Requests *)

Record TaskRequest := {
  tr_kind_id : string;
  tr_category : option string;
  tr_payload : Payload;
  tr_metadata : Metadata;
  tr_resource_limit : ResourceRequest;
  tr_correlation_key : option string;
  tr_idempotency_key : option string;
}.

Definition TaskRequest_new (kind_id : string) (payload : Payload) : TaskRequest :=
  {| tr_kind_id := kind_id; tr_category := None; tr_payload := payload;
     tr_metadata := metadata_new; tr_resource_limit := ResourceRequest_default;
     tr_correlation_key := None; tr_idempotency_key := None |}.

Inductive TaskRequestEncodeError :=
| RequestEmptyKindId
| TooManyMetadataEntries (n : N)
| MetadataTooLarge (n : N)
| PayloadTooLarge (n : N)
| MetadataError (e : MetadataWireEncodeError)
| PayloadError (e : PayloadEncodeError)
| ResourceError (message : string).

Definition TaskRequest_encode (r : TaskRequest) (registry : ValueBytesCodecRegistry)
    : result StoredTaskRequest TaskRequestEncodeError :=
  bail RequestEmptyKindId when is_blank (tr_kind_id r);
  let? _ := map_err ResourceError (validate_limits (tr_resource_limit r)) in
  bail (TooManyMetadataEntries (metadata_len (tr_metadata r)))
    when MAX_TASK_METADATA_ENTRIES <? metadata_len (tr_metadata r);
  let? _ :=
    map_err (λ e, if is_output_budget e then MetadataTooLarge (MAX_TASK_METADATA_BYTES + 1)
                  else MetadataError e)
      (to_json_vec_with_limits MAX_TASK_METADATA_BYTES (tr_metadata r)) in
  let? encoded := map_err PayloadError (Payload_encode (tr_payload r) registry) in
  let payload := into_stored encoded in
  bail (PayloadTooLarge (bytes_len (sp_bytes payload)))
    when MAX_TASK_PAYLOAD_BYTES <? bytes_len (sp_bytes payload);
  Ok {| sr_kind_id := tr_kind_id r; sr_category := tr_category r; sr_payload := payload;
        sr_metadata := tr_metadata r; sr_resource_limit := tr_resource_limit r;
        sr_correlation_key := tr_correlation_key r;
        sr_idempotency_key := tr_idempotency_key r |}.

(** Everything an encoded request satisfies. *)
Record encodes (registry : ValueBytesCodecRegistry) (r : TaskRequest) (s : StoredTaskRequest)
    : Prop := {
  enc_kind : sr_kind_id s = tr_kind_id r ∧ is_blank (sr_kind_id s) = false;
  enc_category : sr_category s = tr_category r;
  enc_metadata : sr_metadata s = tr_metadata r ∧
    metadata_len (sr_metadata s) ≤ MAX_TASK_METADATA_ENTRIES;
  enc_wire : is_ok (to_json_vec_with_limits MAX_TASK_METADATA_BYTES (sr_metadata s)) = true;
  enc_resource : sr_resource_limit s = tr_resource_limit r ∧
    validate_limits (sr_resource_limit s) = Ok tt;
  enc_correlation : sr_correlation_key s = tr_correlation_key r;
  enc_idempotency : sr_idempotency_key s = tr_idempotency_key r;
  enc_type : sp_type_id (sr_payload s) = pl_model_id (tr_payload r);
  enc_schema : sp_schema_version (sr_payload s) = pl_schema_version (tr_payload r);
  enc_codec : sp_codec_id (sr_payload s) = pl_codec_id (tr_payload r);
  enc_bytes : ∃ d, registry !! pl_codec_id (tr_payload r) = Some d ∧
    cd_value_type_id d = pl_rust_type (tr_payload r) ∧
    cd_encode d (pl_data (tr_payload r)) = Ok (sp_bytes (sr_payload s)) ∧
    bytes_len (sp_bytes (sr_payload s)) ≤ MAX_TASK_PAYLOAD_BYTES;
}.

Lemma Payload_encode_Ok p registry e :
  Payload_encode p registry = Ok e ↔
  ep_type_id e = pl_model_id p ∧ ep_schema_version e = pl_schema_version p ∧
  ep_codec_id e = pl_codec_id p ∧
  ∃ d, registry !! pl_codec_id p = Some d ∧ cd_value_type_id d = pl_rust_type p ∧
    cd_encode d (pl_data p) = Ok (ep_bytes e).
Proof.
  unfold Payload_encode. split.
  - intros H. split_matches. bool_prop. unfold ok_or in *. split_matches.
    unfold map_err in *. split_matches. eauto 10.
  - intros (H1 & H2 & H3 & d & Hd & Ht & He). rewrite Hd. simpl.
    rewrite bool_decide_true by done. simpl. rewrite He. simpl.
    destruct e; simpl in *. by subst.
Qed.

Lemma TaskRequest_encode_Ok r registry s :
  TaskRequest_encode r registry = Ok s ↔ encodes registry r s.
Proof.
  unfold TaskRequest_encode. split.
  - intros H. destruct (is_blank _) eqn:Hb; [done|].
    destruct (validate_limits _) as [[]|] eqn:Hv; simpl in H; [|done].
    destruct (_ <? _) eqn:Hm; [done|].
    destruct (to_json_vec_with_limits _ _) eqn:Hj; simpl in H; [|done].
    destruct (Payload_encode _ _) as [e|] eqn:Hp; simpl in H; [|done].
    destruct (MAX_TASK_PAYLOAD_BYTES <? _) eqn:Hl; [done|]. simplify_eq.
    apply Payload_encode_Ok in Hp as (H1 & H2 & H3 & d & Hd & Ht & He). bool_prop.
    split; simpl; try done.
    + by rewrite Hj.
    + exists d. done.
  - intros [[Hk Hb] Hc [Hm Hml] Hj [Hr Hv] Hco Hi Hty Hs Hcd (d & Hd & Hdt & He & Hlen)].
    rewrite Hk in Hb. rewrite Hb. rewrite Hr in Hv. rewrite Hv. simpl.
    rewrite Hm in Hml. destruct (_ <? metadata_len _) eqn:E1; [bool_prop; lia|].
    rewrite Hm in Hj. destruct (to_json_vec_with_limits _ _); [|done]. simpl.
    destruct s as [k c [ty sv ci bs] m rs co ik]; simpl in *.
    assert (Payload_encode (tr_payload r) registry =
      Ok {| ep_type_id := ty; ep_schema_version := sv; ep_codec_id := ci; ep_bytes := bs |}) as ->.
    { apply Payload_encode_Ok. simpl. split_and!; [done..|]. by exists d. }
    simpl. destruct (_ <? bytes_len bs) eqn:E2; [bool_prop; lia|].
    by subst.
Qed.

(** ** Resource descriptions *)

Lemma saturating_small a b : a + b ≤ usize_max → saturating_add usize_max a b = a + b.
Proof. intros. unfold saturating_add. lia. Qed.

(** Bytes of all names in a list. *)
Definition names_len (l : list string) : N := sumN (str_len <$> l).

Lemma names_len_cons a l : names_len (a :: l) = str_len a + names_len l.
Proof. done. Qed.

Lemma names_len_bound l :
  (∀ x, x ∈ l → str_len x ≤ MAX_NAME_BYTES) → names_len l ≤ 128 * N.of_nat (length l).
Proof.
  unfold MAX_NAME_BYTES. induction l as [|a l IH]; intros Hl; [done|].
  rewrite names_len_cons. simpl length. pose proof (Hl a ltac:(set_solver)).
  pose proof (IH ltac:(set_solver)). lia.
Qed.

Lemma validate_labels_Ok ls seen total n :
  128 * N.of_nat (length ls) + total ≤ usize_max →
  validate_labels ls seen total = Ok n ↔
  n = total + names_len ls ∧ NoDup ls ∧
  (∀ l, l ∈ ls → l ≠ EmptyString ∧ str_len l ≤ MAX_NAME_BYTES ∧ l ∉ seen).
Proof.
  revert seen total. induction ls as [|a ls IH]; intros seen total Hb; simpl.
  { unfold names_len, sumN. simpl. split; [intros [= <-]; split_and!; [lia|constructor|set_solver]|].
    intros (-> & _). f_equal. lia. }
  rewrite names_len_cons. simpl length in Hb.
  destruct (str_is_empty a) eqn:He; bool_prop.
  { split; [done|]. intros (_ & _ & Hl). by destruct (Hl a ltac:(set_solver)). }
  destruct (MAX_NAME_BYTES <? str_len a) eqn:Hlen; bool_prop.
  { split; [done|]. intros (_ & _ & Hl). destruct (Hl a ltac:(set_solver)). lia. }
  case_bool_decide as Hseen.
  { split; [done|]. intros (_ & _ & Hl). by destruct (Hl a ltac:(set_solver)) as (_ & _ & ?). }
  unfold MAX_NAME_BYTES in Hlen. rewrite saturating_small by lia.
  rewrite IH by lia. rewrite NoDup_cons. split.
  - intros (-> & Hnd & Hl). split_and!; [lia|set_solver|done|].
    intros l [->|Hin]%elem_of_cons; [done|]. destruct (Hl l Hin) as (?&?&?). set_solver.
  - intros (-> & [Hni Hnd] & Hl). split_and!; [lia|done|].
    intros l Hin. destruct (Hl l ltac:(set_solver)) as (?&?&?). set_solver.
Qed.

Lemma validate_names_Ok ls total n :
  128 * N.of_nat (length ls) + total ≤ usize_max →
  validate_names ls total = Ok n ↔
  n = total + names_len ls ∧ (∀ l, l ∈ ls → l ≠ EmptyString ∧ str_len l ≤ MAX_NAME_BYTES).
Proof.
  revert total. induction ls as [|a ls IH]; intros total Hb; simpl.
  { unfold names_len, sumN. simpl. split; [intros [= <-]; split; [lia|set_solver]|].
    intros (-> & _). f_equal. lia. }
  rewrite names_len_cons. simpl length in Hb.
  destruct (str_is_empty a) eqn:He; bool_prop.
  { split; [done|]. intros (_ & Hl). by destruct (Hl a ltac:(set_solver)). }
  destruct (MAX_NAME_BYTES <? str_len a) eqn:Hlen; bool_prop.
  { split; [done|]. intros (_ & Hl). destruct (Hl a ltac:(set_solver)). lia. }
  unfold MAX_NAME_BYTES in Hlen. rewrite saturating_small by lia.
  rewrite IH by lia. split.
  - intros (-> & Hl). split; [lia|]. intros l [->|Hin]%elem_of_cons; [done|]. by apply Hl.
  - intros (-> & Hl). split; [lia|]. intros l Hin. apply Hl. set_solver.
Qed.

(** The wire limits of a resource description. *)
Record resource_wf (r : ResourceRequest) : Prop := {
  rwf_labels : N.of_nat (length (rr_gpu_labels r)) ≤ MAX_ENTRIES;
  rwf_label : ∀ l, l ∈ rr_gpu_labels r → l ≠ EmptyString ∧ str_len l ≤ MAX_NAME_BYTES;
  rwf_labels_nodup : NoDup (rr_gpu_labels r);
  rwf_labels_gpu : rr_gpu_labels r ≠ [] → rr_gpu_count r ≠ 0;
  rwf_custom : N.of_nat (size (rr_custom r)) ≤ MAX_ENTRIES;
  rwf_names : ∀ l, is_Some (rr_custom r !! l) → l ≠ EmptyString ∧ str_len l ≤ MAX_NAME_BYTES;
}.

Lemma elem_of_btree_keys (m : gmap string N) k : k ∈ btree_keys String.le m ↔ is_Some (m !! k).
Proof.
  unfold btree_keys. rewrite list_elem_of_fmap. split.
  - intros ([k' v] & -> & Hin%elem_of_btree_entries). eauto.
  - intros [v Hv]. exists (k, v). by rewrite elem_of_btree_entries.
Qed.

Lemma length_btree_keys (m : gmap string N) : length (btree_keys String.le m) = size m.
Proof.
  unfold btree_keys. rewrite length_fmap, btree_entries_Permutation. apply length_map_to_list.
Qed.

(** The per-name limits leave the total within 8192 bytes, so the last check
    of [validate_limits] cannot fail. *)
Lemma validate_limits_Ok r : validate_limits r = Ok tt ↔ resource_wf r.
Proof.
  unfold validate_limits. destruct (MAX_ENTRIES <? _) eqn:H1; bool_prop.
  { split; [done|]. intros []. lia. }
  unfold MAX_ENTRIES in H1.
  destruct (validate_labels _ _ _) as [total|] eqn:Hl; last first.
  { split; [done|]. intros []. exfalso.
    assert (validate_labels (rr_gpu_labels r) ∅ 0 = Ok (0 + names_len (rr_gpu_labels r))) as Hok;
      [|congruence].
    apply validate_labels_Ok; [unfold usize_max, u64_max; lia|]. split_and!; [done|done|].
    intros l Hin. destruct (rwf_label0 l Hin). set_solver. }
  apply validate_labels_Ok in Hl as (-> & Hnd & Hls); [|unfold usize_max, u64_max; lia].
  assert (names_len (rr_gpu_labels r) ≤ 128 * N.of_nat (length (rr_gpu_labels r))) as Hb1.
  { apply names_len_bound. intros x Hx. by destruct (Hls x Hx) as (?&?&?). }
  destruct (_ && _) eqn:Hg; bool_prop.
  { split; [done|]. intros []. destruct Hg as [Hz Hne]. exfalso. by apply rwf_labels_gpu0. }
  destruct (MAX_ENTRIES <? _) eqn:H2; bool_prop; [split; [done|]; intros []; lia|].
  unfold MAX_ENTRIES in H2.
  destruct (validate_names _ _) as [total|] eqn:Hn; last first.
  { split; [done|]. intros []. exfalso.
    assert (validate_names (btree_keys String.le (rr_custom r)) (0 + names_len (rr_gpu_labels r)) =
      Ok (0 + names_len (rr_gpu_labels r) + names_len (btree_keys String.le (rr_custom r)))) as Hok;
      [|congruence].
    apply validate_names_Ok; [rewrite length_btree_keys; unfold usize_max, u64_max; lia|].
    split; [done|]. intros l Hin%elem_of_btree_keys. by apply rwf_names0. }
  apply validate_names_Ok in Hn as (-> & Hns);
    [|rewrite length_btree_keys; unfold usize_max, u64_max; lia].
  assert (names_len (btree_keys String.le (rr_custom r)) ≤ 128 * N.of_nat (size (rr_custom r))) as Hb2.
  { rewrite <- length_btree_keys. apply names_len_bound. intros x Hx. by apply Hns. }
  unfold MAX_DESCRIPTION_BYTES. destruct (8192 <? _) eqn:H3; bool_prop; [lia|].
  split; [|done]. intros _. split; try done.
  - intros l Hin. by destruct (Hls l Hin) as (?&?&?).
  - intros Hne Hz. destruct Hg as [?|Hg]; done.
  - intros l Hin. by apply Hns, elem_of_btree_keys.
Qed.

Definition total_message : string := "resource descriptions exceed the 8192-byte limit".

Lemma validate_labels_message ls seen total : validate_labels ls seen total ≠ Err total_message.
Proof.
  unfold total_message. revert seen total. induction ls; intros; simpl; [done|].
  by repeat case_match.
Qed.

Lemma validate_names_message ls total : validate_names ls total ≠ Err total_message.
Proof.
  unfold total_message. revert total. induction ls; intros; simpl; [done|].
  by repeat case_match.
Qed.

Lemma validate_limits_message r : validate_limits r ≠ Err total_message.
Proof.
  unfold validate_limits, total_message. destruct (MAX_ENTRIES <? _) eqn:H1; [done|].
  pose proof (validate_labels_message (rr_gpu_labels r) ∅ 0) as Hm1.
  destruct (validate_labels _ _ _) as [total|] eqn:Hl; [|intros [= ->]; by apply Hm1]. clear Hm1.
  destruct (_ && _); [done|]. destruct (MAX_ENTRIES <? N.of_nat (size _)) eqn:H2; [done|].
  pose proof (validate_names_message (btree_keys String.le (rr_custom r)) total) as Hm2.
  destruct (validate_names _ _) as [total'|] eqn:Hn; [|intros [= ->]; by apply Hm2]. clear Hm2.
  bool_prop. unfold MAX_ENTRIES in *.
  apply validate_labels_Ok in Hl as (-> & _ & Hls); [|unfold usize_max, u64_max; lia].
  pose proof (names_len_bound (rr_gpu_labels r)
    (λ x Hx, proj1 (proj2 (Hls x Hx)))) as Hb1.
  apply validate_names_Ok in Hn as (-> & Hns);
    [|rewrite length_btree_keys; unfold usize_max, u64_max; lia].
  pose proof (names_len_bound _ (λ x Hx, proj2 (Hns x Hx))) as Hb2.
  rewrite length_btree_keys in Hb2. unfold MAX_DESCRIPTION_BYTES.
  destruct (8192 <? _) eqn:H3; bool_prop; [lia|done].
Qed.
End requests.
