(* ===== verification/Handlers.v ===== *)
(** * Handler registration and dispatch

    [src/src/handler/typed/]: descriptors, the registry of typed handlers and
    the adapter that validates and decodes a stored payload before any handler
    code runs.  What running a handler or a cancellation hook yields is a
    parameter. *)

From S2P Require Import Prelude TaskState Model Requests.

Inductive CancellationMode := Unsupported | Cooperative | ExternalHook.
#[export] Instance CancellationMode_eq_dec : EqDecision CancellationMode.
Proof. solve_decision. Defined.

Inductive HandlerRegistrationError :=
| EmptyKindId
| NoAcceptedSchemaVersions
| DuplicateSchemaVersion (version : N)
| DuplicateKindId (kind_id first_source second_source : string)
| MissingExternalHook (kind_id : string)
| UnexpectedExternalHook (kind_id : string).

(** Futures of handlers and of cancellation hooks. *)
Class HandlerFutures := { TaskContext : Type; RunFuture : Type; HookFuture : Type }.

Section handlers.
Context `{ET : !ExternalTypes, CT : !CodecTypes, HF : !HandlerFutures}.

Record TaskHandlerDescriptor := {
  hd_kind_id : string;
  hd_payload_type_id : ModelIdBuf;
  hd_accepted_schema_versions : list N;
  hd_cancellation_mode : CancellationMode;
}.

(** The loop over the accepted versions. *)
Fixpoint validate_versions (l : list N) (versions : gset N)
    : result unit HandlerRegistrationError :=
  match l with
  | [] => Ok tt
  | version :: rest =>
      bail (DuplicateSchemaVersion version) when bool_decide (version ∈ versions);
      validate_versions rest ({[version]} ∪ versions)
  end.

Definition descriptor_validate (d : TaskHandlerDescriptor)
    : result unit HandlerRegistrationError :=
  bail EmptyKindId when is_blank (hd_kind_id d);
  bail NoAcceptedSchemaVersions when bool_decide (hd_accepted_schema_versions d = []);
  validate_versions (hd_accepted_schema_versions d) ∅.

(** A [TypedAdapter<T, H>]: the descriptor, the Rust type of the input and
    the handler. *)
Record TypedAdapter := {
  ta_descriptor : TaskHandlerDescriptor;
  ta_input_type : TypeId;
  ta_run : Value → TaskContext → RunFuture;
}.

Record Registration := {
  reg_source : string;
  reg_descriptor : TaskHandlerDescriptor;
  reg_handler : TypedAdapter;
  reg_external_cancellation_hook : option (TaskId → N → HookFuture);
}.

Abbreviation TypedTaskHandlerRegistry := (gmap string Registration).

Definition registry_new : TypedTaskHandlerRegistry := ∅.

Definition registry_descriptor (kind_id : string) (r : TypedTaskHandlerRegistry)
    : option TaskHandlerDescriptor :=
  reg_descriptor <$> r !! kind_id.

Definition has_external_cancellation_hook (kind_id : string)
    (r : TypedTaskHandlerRegistry) : bool :=
  is_some_and (λ g, is_some (reg_external_cancellation_hook g)) (r !! kind_id).

Definition register_with_options (descriptor : TaskHandlerDescriptor) (input_type : TypeId)
    (run : Value → TaskContext → RunFuture) (source : string)
    (hook : option (TaskId → N → HookFuture)) (r : TypedTaskHandlerRegistry)
    : result unit HandlerRegistrationError * TypedTaskHandlerRegistry :=
  match descriptor_validate descriptor with
  | Err e => (Err e, r)
  | Ok _ =>
      match hd_cancellation_mode descriptor, is_some hook with
      | ExternalHook, false => (Err (MissingExternalHook (hd_kind_id descriptor)), r)
      | Unsupported, true | Cooperative, true =>
          (Err (UnexpectedExternalHook (hd_kind_id descriptor)), r)
      | ExternalHook, true | Unsupported, false | Cooperative, false =>
          match r !! hd_kind_id descriptor with
          | Some existing =>
              (Err (DuplicateKindId (hd_kind_id descriptor) (reg_source existing) source), r)
          | None =>
              (Ok tt,
               <[hd_kind_id descriptor :=
                   {| reg_source := source; reg_descriptor := descriptor;
                      reg_handler := {| ta_descriptor := descriptor;
                                        ta_input_type := input_type; ta_run := run |};
                      reg_external_cancellation_hook := hook |}]> r)
          end
      end
  end.

(** [register], [register_with_source] and [register_with_cancellation_hook]. *)
Definition register descriptor input_type run :=
  register_with_options descriptor input_type run "direct registration" None.
Definition register_with_source descriptor input_type run source :=
  register_with_options descriptor input_type run source None.
Definition register_with_cancellation_hook descriptor input_type run source hook :=
  register_with_options descriptor input_type run source (Some hook).

(** ** Dispatch *)

Inductive HandlerDispatchError :=
| MissingHandler (kind_id : string)
| PayloadTypeMismatch (expected actual : string)
| UnsupportedSchemaVersion (version : N)
| MissingCodec (codec_id : string)
| DecodedValueTypeMismatch (expected actual : TypeId)
| Codec (e : CodecError).

Definition PreparedTask : Type := TaskContext → RunFuture.

(** [TypedAdapter::prepare]. *)
Definition adapter_prepare (a : TypedAdapter) (payload : StoredPayload)
    (codecs : ValueBytesCodecRegistry) : result PreparedTask HandlerDispatchError :=
  bail (PayloadTypeMismatch (model_id_as_str (hd_payload_type_id (ta_descriptor a)))
          (model_id_as_str (sp_type_id payload)))
    when negb (bool_decide (sp_type_id payload = hd_payload_type_id (ta_descriptor a)));
  bail (UnsupportedSchemaVersion (sp_schema_version payload))
    when negb (bool_decide
           (sp_schema_version payload ∈ hd_accepted_schema_versions (ta_descriptor a)));
  let? codec := ok_or (MissingCodec (sp_codec_id payload)) (codecs !! sp_codec_id payload) in
  let? decoded := map_err Codec (cd_decode codec (sp_bytes payload)) in
  bail (DecodedValueTypeMismatch (ta_input_type a) (value_type decoded))
    when negb (bool_decide (value_type decoded = ta_input_type a));
  Ok (ta_run a decoded).

Definition prepare (kind_id : string) (payload : StoredPayload)
    (codecs : ValueBytesCodecRegistry) (r : TypedTaskHandlerRegistry)
    : result PreparedTask HandlerDispatchError :=
  let? registration := ok_or (MissingHandler kind_id) (r !! kind_id) in
  adapter_prepare (reg_handler registration) payload codecs.

Definition cancel_externally (kind_id : string) (task_id : TaskId) (attempt : N)
    (r : TypedTaskHandlerRegistry) : option HookFuture :=
  (λ hook, hook task_id attempt) <$>
    (r !! kind_id ≫= reg_external_cancellation_hook).

(** ** Registered handlers *)

Lemma validate_versions_Ok l versions :
  validate_versions l versions = Ok tt ↔ NoDup l ∧ ∀ v, v ∈ l → v ∉ versions.
Proof.
  revert versions. induction l as [|a l IH]; intros versions; simpl.
  { split; [intros _; split; [constructor|set_solver]|done]. }
  case_bool_decide as Ha.
  - split; [done|]. intros [_ Hl]. by destruct (Hl a ltac:(set_solver)).
  - rewrite IH, NoDup_cons. set_solver.
Qed.

Record descriptor_wf (d : TaskHandlerDescriptor) : Prop := {
  dwf_kind : is_blank (hd_kind_id d) = false;
  dwf_versions : hd_accepted_schema_versions d ≠ [];
  dwf_nodup : NoDup (hd_accepted_schema_versions d);
}.

Lemma descriptor_validate_Ok d : descriptor_validate d = Ok tt ↔ descriptor_wf d.
Proof.
  unfold descriptor_validate. destruct (is_blank _) eqn:Hb.
  { split; [done|]. intros []. congruence. }
  case_bool_decide as Hv; [split; [done|]; by intros []|].
  rewrite validate_versions_Ok. split.
  - intros [Hnd _]. by split.
  - intros []. split; [done|set_solver].
Qed.

(** Every entry is stored under its own kind, is valid, and has a hook exactly
    when its mode calls one. *)
Definition registry_wf (r : TypedTaskHandlerRegistry) : Prop :=
  ∀ kind_id g, r !! kind_id = Some g →
    hd_kind_id (reg_descriptor g) = kind_id ∧ descriptor_wf (reg_descriptor g) ∧
    ta_descriptor (reg_handler g) = reg_descriptor g ∧
    (is_Some (reg_external_cancellation_hook g) ↔
     hd_cancellation_mode (reg_descriptor g) = ExternalHook).

Lemma registry_new_wf : registry_wf registry_new.
Proof. intros k g Hk. unfold registry_new in Hk. by rewrite lookup_empty in Hk. Qed.

Lemma register_cases d ty run source hook r :
  (∃ e, register_with_options d ty run source hook r = (Err e, r)) ∨
  (descriptor_wf d ∧ (is_Some hook ↔ hd_cancellation_mode d = ExternalHook) ∧
   r !! hd_kind_id d = None ∧
   register_with_options d ty run source hook r =
     (Ok tt, <[hd_kind_id d :=
        {| reg_source := source; reg_descriptor := d;
           reg_handler := {| ta_descriptor := d; ta_input_type := ty; ta_run := run |};
           reg_external_cancellation_hook := hook |}]> r)).
Proof.
  unfold register_with_options.
  destruct (descriptor_validate d) as [[]|] eqn:Hd; [|by eauto].
  apply descriptor_validate_Ok in Hd.
  destruct (hd_cancellation_mode d), hook as [hook|]; simpl; try (by eauto);
    (destruct (r !! hd_kind_id d) eqn:Hk; [by eauto|]); right; split_and!; try done;
    split; try done; try (by intros [? ?]); by eauto.
Qed.

Lemma register_wf d ty run source hook r :
  registry_wf r → registry_wf (register_with_options d ty run source hook r).2.
Proof.
  intros Hr. destruct (register_cases d ty run source hook r) as [[e ->]|(Hd & Hh & _ & ->)];
    [done|]. intros k g Hg. simpl in Hg. apply lookup_insert_Some in Hg.
  destruct Hg as [[<- <-]|[_ Hk]]; [by split_and!|by apply Hr].
Qed.

(** ** Dispatch of well-formed payloads *)

Lemma adapter_prepare_Ok a payload codecs p :
  adapter_prepare a payload codecs = Ok p ↔
  sp_type_id payload = hd_payload_type_id (ta_descriptor a) ∧
  sp_schema_version payload ∈ hd_accepted_schema_versions (ta_descriptor a) ∧
  ∃ codec v, codecs !! sp_codec_id payload = Some codec ∧
    cd_decode codec (sp_bytes payload) = Ok v ∧ value_type v = ta_input_type a ∧
    p = ta_run a v.
Proof.
  unfold adapter_prepare. split.
  - case_bool_decide; simpl; [|done]. case_bool_decide; simpl; [|done].
    destruct (codecs !! _) as [codec|]; simpl; [|done].
    destruct (cd_decode codec _) as [v|] eqn:Hd; simpl; [|done].
    case_bool_decide; simpl; [|done]. intros [= <-]. split_and!; [done|done|].
    by exists codec, v.
  - intros (H1 & H2 & codec & v & Hc & Hd & Hv & ->).
    rewrite !bool_decide_true by done. simpl. rewrite Hc. simpl. rewrite Hd. simpl.
    by rewrite bool_decide_true by done.
Qed.
End handlers.

Abbreviation TypedTaskHandlerRegistry := (gmap string Registration) (only parsing).
