(* ===== verification/MemoryStore.v ===== *)
(** * The in-memory task store: definitions

    [src/src/store/memory_task_store.rs] and its [MemoryState].  Every method
    of the source takes the state mutex once, so each operation is one atomic
    step: a function from the state to a result and the next state.  On an
    error the returned state is whatever the code has written by then.  The
    clock is an argument. *)

From S2P Require Import Prelude TaskState Model.

Definition DEFAULT_MAX_UNFINISHED_RECORDS : N := 2048.

(** The immutable limits of one [MemoryTaskStore]. *)
Record MemoryLimits := {
  ml_history_capacity : N;
  ml_max_payload_bytes : N;
  ml_max_unfinished_records : N;
}.

Definition with_limits (history_capacity max_payload_bytes max_unfinished_records : N)
    : MemoryLimits :=
  {| ml_history_capacity := history_capacity;
     ml_max_payload_bytes := max_payload_bytes;
     ml_max_unfinished_records := max_unfinished_records |}.
Definition with_payload_budget (history_capacity max_payload_bytes : N) : MemoryLimits :=
  with_limits history_capacity max_payload_bytes DEFAULT_MAX_UNFINISHED_RECORDS.
Definition memory_store_new (history_capacity : N) : MemoryLimits :=
  with_payload_budget history_capacity (64 * 1024 * 1024).

Record StoreCapabilities := { cap_persistent_history : bool; cap_restart_recovery : bool }.

Section memory_store.
Context `{ET : !ExternalTypes, SJ : !SnapshotJson}.

(** ** State *)

Record MemoryState := {
  ms_owner_epoch : option OwnerEpoch;
  ms_last_owner_epoch : N;
  ms_encoded_tasks : gmap TaskId StoredTask;
  ms_encoded_idempotency : gmap string TaskId;
  ms_encoded_terminal_order : list TaskId;
  ms_retained_payload_bytes : N;
  ms_unfinished_records : N;
}.

Definition memory_state_new : MemoryState :=
  {| ms_owner_epoch := None; ms_last_owner_epoch := 0; ms_encoded_tasks := ∅;
     ms_encoded_idempotency := ∅; ms_encoded_terminal_order := [];
     ms_retained_payload_bytes := 0; ms_unfinished_records := 0 |}.

Definition set_tasks (f : gmap TaskId StoredTask → gmap TaskId StoredTask)
    (s : MemoryState) : MemoryState :=
  {| ms_owner_epoch := ms_owner_epoch s;
     ms_last_owner_epoch := ms_last_owner_epoch s;
     ms_encoded_tasks := f (ms_encoded_tasks s);
     ms_encoded_idempotency := ms_encoded_idempotency s;
     ms_encoded_terminal_order := ms_encoded_terminal_order s;
     ms_retained_payload_bytes := ms_retained_payload_bytes s;
     ms_unfinished_records := ms_unfinished_records s |}.

(** Replaces the summary of a task, as a write through [get_mut] does. *)
Definition put_summary (id : TaskId) (task : StoredTask) (summary : TaskSummary)
    (s : MemoryState) : MemoryState :=
  set_tasks <[id := {| st_request := st_request task; st_summary := summary |}]> s.

Definition payload_len (task : StoredTask) : N :=
  bytes_len (sp_bytes (sr_payload (st_request task))).
Definition task_terminal (task : StoredTask) : bool :=
  is_terminal (ts_state (st_summary task)).

(** ** Removal and eviction *)

Definition remove_encoded_task (id : TaskId) (s : MemoryState)
    : option StoredTask * MemoryState :=
  match ms_encoded_tasks s !! id with
  | None => (None, s)
  | Some task =>
      (Some task,
       {| ms_owner_epoch := ms_owner_epoch s;
          ms_last_owner_epoch := ms_last_owner_epoch s;
          ms_encoded_tasks := delete id (ms_encoded_tasks s);
          ms_encoded_idempotency :=
            match sr_idempotency_key (st_request task) with
            | Some key => delete key (ms_encoded_idempotency s)
            | None => ms_encoded_idempotency s
            end;
          ms_encoded_terminal_order :=
            filter (λ terminal_id, terminal_id ≠ id) (ms_encoded_terminal_order s);
          ms_retained_payload_bytes :=
            usize_sub (ms_retained_payload_bytes s) (payload_len task);
          ms_unfinished_records :=
            if negb (task_terminal task)
            then usize_sub (ms_unfinished_records s) 1
            else ms_unfinished_records s |})
  end.

Definition evict_oldest_encoded_terminal (s : MemoryState) : bool * MemoryState :=
  match ms_encoded_terminal_order s with
  | id :: _ =>
      let '(removed, s') := remove_encoded_task id s in (is_some removed, s')
  | [] => (false, s)
  end.

(** [while again(state) { if !state.evict_oldest_encoded_terminal() { stop } }].
    The boolean says that the loop ended because its condition became false.
    Each turn that does not stop removes the front of the terminal queue, so
    [length] of that queue bounds the number of turns. *)
Fixpoint evict_while (again : MemoryState → bool) (fuel : nat) (s : MemoryState)
    : bool * MemoryState :=
  if again s then
    match fuel with
    | O => (false, s)
    | S fuel' =>
        match evict_oldest_encoded_terminal s with
        | (true, s') => evict_while again fuel' s'
        | (false, s') => (false, s')
        end
    end
  else (true, s).

Definition evict_loop (again : MemoryState → bool) (s : MemoryState)
    : bool * MemoryState :=
  evict_while again (S (length (ms_encoded_terminal_order s))) s.

(** ** Acceptance *)

Definition accepted_summary (now : N) (id : TaskId) (r : StoredTaskRequest) : TaskSummary :=
  {| ts_id := id;
     ts_kind_id := sr_kind_id r;
     ts_category := sr_category r;
     ts_payload_type_id := model_id_as_str (sp_type_id (sr_payload r));
     ts_payload_schema_version := sp_schema_version (sr_payload r);
     ts_payload_codec_id := sp_codec_id (sr_payload r);
     ts_metadata := sr_metadata r;
     ts_resource_limit := sr_resource_limit r;
     ts_correlation_key := sr_correlation_key r;
     ts_idempotency_key := sr_idempotency_key r;
     ts_state := Queued;
     ts_cancel_requested := false;
     ts_cancel_error := None;
     ts_state_version := 0;
     ts_attempt := 0;
     ts_retry_not_before_ms := None;
     ts_accepted_at_ms := now;
     ts_started_at_ms := None;
     ts_finished_at_ms := None;
     ts_progress := None;
     ts_output := None |}.

(** Bytes held by terminal tasks, the ones eviction can give back. *)
Definition reclaimable_bytes (s : MemoryState) : N :=
  foldl usize_add 0
    (payload_len <$> omap (ms_encoded_tasks s !!.) (ms_encoded_terminal_order s)).

(** The insertion at the end of [accept_encoded]. *)
Definition insert_accepted (now : N) (id : TaskId) (r : StoredTaskRequest)
    (s : MemoryState) : MemoryState :=
  {| ms_owner_epoch := ms_owner_epoch s;
     ms_last_owner_epoch := ms_last_owner_epoch s;
     ms_encoded_tasks :=
       <[id := {| st_request := r; st_summary := accepted_summary now id r |}]>
         (ms_encoded_tasks s);
     ms_encoded_idempotency :=
       match sr_idempotency_key r with
       | Some key => <[key := id]> (ms_encoded_idempotency s)
       | None => ms_encoded_idempotency s
       end;
     ms_encoded_terminal_order := ms_encoded_terminal_order s;
     ms_retained_payload_bytes :=
       usize_add (ms_retained_payload_bytes s) (bytes_len (sp_bytes (sr_payload r)));
     ms_unfinished_records := usize_add (ms_unfinished_records s) 1 |}.

(** Admission of a request whose idempotency key is not retained. *)
Definition accept_new (lim : MemoryLimits) (now : N) (id : TaskId)
    (r : StoredTaskRequest) (s : MemoryState)
    : result AcceptOutcome StoreError * MemoryState :=
  let max := ml_max_payload_bytes lim in
  if is_some (ms_encoded_tasks s !! id) then (Err DuplicateTask, s) else
  if ml_max_unfinished_records lim <=? ms_unfinished_records s
  then (Err (UnfinishedRecordLimitExceeded (ml_max_unfinished_records lim)), s) else
  let requested_bytes := bytes_len (sp_bytes (sr_payload r)) in
  let minimum_retained :=
    saturating_sub (ms_retained_payload_bytes s) (reclaimable_bytes s) in
  if is_none_or (λ total, max <? total)
       (checked_add usize_max minimum_retained requested_bytes)
  then (Err (CapacityExceeded requested_bytes (saturating_sub max minimum_retained)), s)
  else
  match evict_loop
          (λ s', usize_sub max requested_bytes <? ms_retained_payload_bytes s') s with
  | (false, s') =>
      (Err (CapacityExceeded requested_bytes
              (saturating_sub max (ms_retained_payload_bytes s'))), s')
  | (true, s') =>
      (Ok {| ao_summary := accepted_summary now id r; ao_created := true |},
       insert_accepted now id r s')
  end.

Definition accept_encoded (lim : MemoryLimits) (now : N) (id : TaskId)
    (r : StoredTaskRequest) (s : MemoryState)
    : result AcceptOutcome StoreError * MemoryState :=
  if str_is_empty (sr_kind_id r) || str_is_empty (sp_codec_id (sr_payload r))
  then (Err (InvalidRequest "task kind and payload codec must not be empty"), s)
  else
  match sr_idempotency_key r ≫= (ms_encoded_idempotency s !!.) with
  | Some existing_id =>
      match ms_encoded_tasks s !! existing_id with
      | None => (Err NotFound, s)
      | Some existing =>
          if negb (StoredTaskRequest_eqb (st_request existing) r)
          then (Err IdempotencyConflict, s)
          else (Ok {| ao_summary := st_summary existing; ao_created := false |}, s)
      end
  | None => accept_new lim now id r s
  end.

(** ** Reads *)

Definition get_encoded_task (id : TaskId) (s : MemoryState) : option StoredTask :=
  ms_encoded_tasks s !! id.

Definition checkpoint_of (task : StoredTask) : TaskStateCheckpoint :=
  {| ck_id := ts_id (st_summary task);
     ck_state_version := ts_state_version (st_summary task);
     ck_state := ts_state (st_summary task) |}.
Definition get_state_checkpoint (id : TaskId) (s : MemoryState)
    : option TaskStateCheckpoint := checkpoint_of <$> ms_encoded_tasks s !! id.

(** ** Starting an attempt *)

Definition with_state_version (v : N) (t : TaskSummary) : TaskSummary :=
  {| ts_id := ts_id t; ts_kind_id := ts_kind_id t; ts_category := ts_category t;
     ts_payload_type_id := ts_payload_type_id t;
     ts_payload_schema_version := ts_payload_schema_version t;
     ts_payload_codec_id := ts_payload_codec_id t; ts_metadata := ts_metadata t;
     ts_resource_limit := ts_resource_limit t;
     ts_correlation_key := ts_correlation_key t;
     ts_idempotency_key := ts_idempotency_key t; ts_state := ts_state t;
     ts_cancel_requested := ts_cancel_requested t;
     ts_cancel_error := ts_cancel_error t; ts_state_version := v;
     ts_attempt := ts_attempt t; ts_retry_not_before_ms := ts_retry_not_before_ms t;
     ts_accepted_at_ms := ts_accepted_at_ms t; ts_started_at_ms := ts_started_at_ms t;
     ts_finished_at_ms := ts_finished_at_ms t; ts_progress := ts_progress t;
     ts_output := ts_output t |}.

(** The fields a started attempt rewrites, the version apart. *)
Definition started_summary (attempt started_at_ms : N) (t : TaskSummary) : TaskSummary :=
  {| ts_id := ts_id t; ts_kind_id := ts_kind_id t; ts_category := ts_category t;
     ts_payload_type_id := ts_payload_type_id t;
     ts_payload_schema_version := ts_payload_schema_version t;
     ts_payload_codec_id := ts_payload_codec_id t; ts_metadata := ts_metadata t;
     ts_resource_limit := ts_resource_limit t;
     ts_correlation_key := ts_correlation_key t;
     ts_idempotency_key := ts_idempotency_key t; ts_state := Running;
     ts_cancel_requested := ts_cancel_requested t;
     ts_cancel_error := ts_cancel_error t; ts_state_version := ts_state_version t;
     ts_attempt := attempt; ts_retry_not_before_ms := None;
     ts_accepted_at_ms := ts_accepted_at_ms t; ts_started_at_ms := Some started_at_ms;
     ts_finished_at_ms := None; ts_progress := None; ts_output := ts_output t |}.

Definition start_encoded (command : StartCommand) (s : MemoryState)
    : result TaskSummary StoreError * MemoryState :=
  let id := sc_id command in
  match ms_encoded_tasks s !! id with
  | None => (Err NotFound, s)
  | Some task =>
      let t := st_summary task in
      if negb (ts_state_version t =? sc_expected_state_version command)
         || negb (bool_decide (ts_state t = Queued))
      then (Err Conflict, s) else
      match checked_add u64_max (ts_state_version t) 1 with
      | None => (Err (Failure "task state version overflow"), s)
      | Some v =>
          let t1 := with_state_version v t in
          match checked_add u32_max (ts_attempt t) 1 with
          | None =>
              (** the version has already been written *)
              (Err (Failure "task attempt counter overflow"), put_summary id task t1 s)
          | Some attempt =>
              let t2 := started_summary attempt (sc_started_at_ms command) t1 in
              (Ok t2, put_summary id task t2 s)
          end
      end
  end.

(** ** Compare-and-set transitions *)

Definition validate_encoded_output (state : TaskState) (output : option TaskOutput)
    : result unit StoreError :=
  bail (InvalidRequest "task output can only be stored with the succeeded state")
    when is_some output && negb (bool_decide (state = Succeeded));
  bail (InvalidRequest "task output summary exceeds the 64 KiB limit")
    when is_some_and
           (λ o, MAX_TASK_OUTPUT_SUMMARY_BYTES <? bytes_len (to_summary o)) output;
  Ok tt.

(** The write of [state] and [retry_not_before_ms], before the version is
    advanced. *)
Definition enter_state (c : TransitionCommand) (t : TaskSummary) : TaskSummary :=
  {| ts_id := ts_id t; ts_kind_id := ts_kind_id t; ts_category := ts_category t;
     ts_payload_type_id := ts_payload_type_id t;
     ts_payload_schema_version := ts_payload_schema_version t;
     ts_payload_codec_id := ts_payload_codec_id t; ts_metadata := ts_metadata t;
     ts_resource_limit := ts_resource_limit t;
     ts_correlation_key := ts_correlation_key t;
     ts_idempotency_key := ts_idempotency_key t; ts_state := tc_state c;
     ts_cancel_requested := ts_cancel_requested t;
     ts_cancel_error := ts_cancel_error t; ts_state_version := ts_state_version t;
     ts_attempt := ts_attempt t; ts_retry_not_before_ms := tc_retry_not_before_ms c;
     ts_accepted_at_ms := ts_accepted_at_ms t; ts_started_at_ms := ts_started_at_ms t;
     ts_finished_at_ms := ts_finished_at_ms t; ts_progress := ts_progress t;
     ts_output := ts_output t |}.

(** The writes after the version has been advanced. *)
Definition settle_state (c : TransitionCommand) (v : N) (t : TaskSummary) : TaskSummary :=
  {| ts_id := ts_id t; ts_kind_id := ts_kind_id t; ts_category := ts_category t;
     ts_payload_type_id := ts_payload_type_id t;
     ts_payload_schema_version := ts_payload_schema_version t;
     ts_payload_codec_id := ts_payload_codec_id t; ts_metadata := ts_metadata t;
     ts_resource_limit := ts_resource_limit t;
     ts_correlation_key := ts_correlation_key t;
     ts_idempotency_key := ts_idempotency_key t; ts_state := ts_state t;
     ts_cancel_requested := tc_cancel_requested c;
     ts_cancel_error := tc_cancel_error c; ts_state_version := v;
     ts_attempt := ts_attempt t; ts_retry_not_before_ms := ts_retry_not_before_ms t;
     ts_accepted_at_ms := ts_accepted_at_ms t; ts_started_at_ms := ts_started_at_ms t;
     ts_finished_at_ms :=
       if is_terminal (tc_state c) && is_some (tc_finished_at_ms c)
       then tc_finished_at_ms c else ts_finished_at_ms t;
     ts_progress := ts_progress t;
     ts_output :=
       match tc_output c with Some o => Some o | None => ts_output t end |}.

Definition terminal_cancel_annotation (c : TransitionCommand) (t : TaskSummary) : bool :=
  is_terminal (ts_state t) && bool_decide (ts_state t = tc_state c)
  && tc_cancel_requested c && is_some (tc_cancel_error c).

(** The compare-and-set guard of [transition_encoded]. *)
Definition transition_conflicts (c : TransitionCommand) (t : TaskSummary) : bool :=
  negb (ts_state_version t =? tc_expected_state_version c)
  || negb (ts_attempt t =? tc_expected_attempt c)
  || (negb (allows_transition_to (ts_state t) (tc_state c))
      && negb (terminal_cancel_annotation c t)).

(** Bookkeeping when a task becomes terminal. *)
Definition record_terminal (lim : MemoryLimits) (id : TaskId) (s : MemoryState)
    : MemoryState :=
  let s1 :=
    {| ms_owner_epoch := ms_owner_epoch s;
       ms_last_owner_epoch := ms_last_owner_epoch s;
       ms_encoded_tasks := ms_encoded_tasks s;
       ms_encoded_idempotency := ms_encoded_idempotency s;
       ms_encoded_terminal_order := ms_encoded_terminal_order s ++ [id];
       ms_retained_payload_bytes := ms_retained_payload_bytes s;
       ms_unfinished_records := saturating_sub (ms_unfinished_records s) 1 |} in
  (evict_loop
     (λ s', ml_history_capacity lim <?
            N.of_nat (length (ms_encoded_terminal_order s'))) s1).2.

Definition transition_encoded (lim : MemoryLimits) (c : TransitionCommand)
    (s : MemoryState) : result TaskSummary StoreError * MemoryState :=
  match validate_diagnostics (tc_state c) with
  | Err m => (Err (InvalidRequest m), s)
  | Ok _ =>
  match validate_encoded_output (tc_state c) (tc_output c) with
  | Err e => (Err e, s)
  | Ok _ =>
  match ms_encoded_tasks s !! tc_id c with
  | None => (Err NotFound, s)
  | Some task =>
      let t := st_summary task in
      if transition_conflicts c t then (Err Conflict, s) else
      if is_some (tc_output c) && is_terminal (ts_state t)
      then (Err (InvalidRequest
             "task output can only be written before the task becomes terminal"), s)
      else
      if is_some (tc_retry_not_before_ms c) && negb (bool_decide (tc_state c = Queued))
      then (Err (InvalidRequest "retry deadline is only valid for queued tasks"), s)
      else
      let t1 := enter_state c t in
      match checked_add u64_max (ts_state_version t) 1 with
      | None =>
          (** the new state has already been written *)
          (Err (Failure "task state version overflow"), put_summary (tc_id c) task t1 s)
      | Some v =>
          let t2 := settle_state c v t1 in
          let s1 := put_summary (tc_id c) task t2 s in
          (Ok t2,
           if negb (is_terminal (ts_state t)) && is_terminal (tc_state c)
           then record_terminal lim (tc_id c) s1 else s1)
      end
  end end end.

(** ** Progress *)

Definition with_progress (p : TaskProgressSnapshot) (t : TaskSummary) : TaskSummary :=
  {| ts_id := ts_id t; ts_kind_id := ts_kind_id t; ts_category := ts_category t;
     ts_payload_type_id := ts_payload_type_id t;
     ts_payload_schema_version := ts_payload_schema_version t;
     ts_payload_codec_id := ts_payload_codec_id t; ts_metadata := ts_metadata t;
     ts_resource_limit := ts_resource_limit t;
     ts_correlation_key := ts_correlation_key t;
     ts_idempotency_key := ts_idempotency_key t; ts_state := ts_state t;
     ts_cancel_requested := ts_cancel_requested t;
     ts_cancel_error := ts_cancel_error t; ts_state_version := ts_state_version t;
     ts_attempt := ts_attempt t; ts_retry_not_before_ms := ts_retry_not_before_ms t;
     ts_accepted_at_ms := ts_accepted_at_ms t; ts_started_at_ms := ts_started_at_ms t;
     ts_finished_at_ms := ts_finished_at_ms t; ts_progress := Some p;
     ts_output := ts_output t |}.

Definition update_progress (c : ProgressCommand) (s : MemoryState)
    : result TaskSummary StoreError * MemoryState :=
  match from_command snapshot_to_vec c with
  | Err _ => (Err (InvalidRequest "task progress snapshot exceeds its limits"), s)
  | Ok snapshot =>
  match ms_encoded_tasks s !! pc_id c with
  | None => (Err NotFound, s)
  | Some task =>
      let t := st_summary task in
      if negb (bool_decide (ts_state t = Running))
         || negb (ts_attempt t =? pc_expected_attempt c)
         || is_some_and (λ current, pc_progress_version c <=? tps_progress_version current)
              (ts_progress t)
      then (Err Conflict, s)
      else (Ok (with_progress snapshot t),
            put_summary (pc_id c) task (with_progress snapshot t) s)
  end end.

(** ** Pages *)

(** The filter of [list_encoded]. *)
Definition query_matches (q : TaskQuery) (t : TaskSummary) : bool :=
  (bool_decide (tq_states q = []) || bool_decide (kind (ts_state t) ∈ tq_states q))
  && is_none_or (λ c, bool_decide (ts_category t = Some c)) (tq_category q)
  && is_none_or (λ k, bool_decide (ts_correlation_key t = Some k)) (tq_correlation_key q)
  && is_none_or (λ after, key_ltb (TaskCursor_key after) (ts_key t)) (tq_after q).

(** A [BinaryHeap] of keys is kept as a list in descending order: [push]
    inserts in place, [peek] is the head and [pop] drops it. *)
Fixpoint heap_push (key : N * N) (heap : list (N * N)) : list (N * N) :=
  match heap with
  | [] => [key]
  | k :: rest => if key_ltb key k then k :: heap_push key rest else key :: heap
  end.

(** One turn of the candidate loop of [list_encoded]. *)
Definition heap_offer (fetch_limit : N) (heap : list (N * N)) (key : N * N)
    : list (N * N) :=
  if N.of_nat (length heap) <? fetch_limit then heap_push key heap
  else if is_some_and (key_ltb key) (head heap) then heap_push key (tail heap)
  else heap.

Definition list_encoded (q : TaskQuery) (s : MemoryState) : result TaskPage StoreError :=
  let? page_size := checked_page_size q in
  let? fetch_limit :=
    ok_or (InvalidRequest "task history page limit is too large")
      (checked_add usize_max page_size 1) in
  let matching :=
    filter (λ t, query_matches q t)
      (st_summary <$> btree_values N.le (ms_encoded_tasks s)) in
  let heap := foldl (heap_offer fetch_limit) [] (ts_key <$> matching) in
  let candidates := sort_by key_le id heap in
  let has_more := page_size <? N.of_nat (length candidates) in
  let candidates :=
    if has_more then take (N.to_nat page_size) candidates else candidates in
  let records :=
    omap (λ key, st_summary <$> ms_encoded_tasks s !! key.2) candidates in
  Ok {| pg_records := records;
        pg_next := if has_more then TaskCursor_from <$> last records else None |}.

Definition ready_matches (after : option TaskCursor) (now : N) (t : TaskSummary) : bool :=
  bool_decide (ts_state t = Queued)
  && is_none_or (λ deadline, deadline <=? now) (ts_retry_not_before_ms t)
  && is_none_or (λ cursor, key_ltb (TaskCursor_key cursor) (ts_key t)) after.

Definition list_ready_queued (after : option TaskCursor) (limit now : N)
    (s : MemoryState) : result TaskPage StoreError :=
  bail (InvalidRequest "ready task page limit exceeds 256")
    when MAX_TASK_QUERY_LIMIT <? limit;
  let records :=
    sort_by key_le ts_key
      (filter (λ t, ready_matches after now t)
         (st_summary <$> btree_values N.le (ms_encoded_tasks s))) in
  let has_more := limit <? N.of_nat (length records) in
  let records := take (N.to_nat limit) records in
  Ok {| pg_records := records;
        pg_next := if has_more then TaskCursor_from <$> last records else None |}.

(** [Iterator::min]. *)
Definition list_min (l : list N) : option N :=
  match l with
  | [] => None
  | x :: rest => Some (foldl N.min x rest)
  end.

Definition next_retry_deadline (now : N) (s : MemoryState) : option N :=
  list_min
    (filter (λ deadline, now < deadline)
       (omap ts_retry_not_before_ms
          (filter (λ t, ts_state t = Queued)
             (st_summary <$> btree_values N.le (ms_encoded_tasks s))))).

(** ** Pruning *)

Definition prune_candidate (finished_before_ms : N) (t : TaskSummary) : option (N * N) :=
  finished_at_ms ← ts_finished_at_ms t;
  if is_terminal (ts_state t) && (finished_at_ms <? finished_before_ms)
  then Some (finished_at_ms, ts_id t) else None.

Definition prune_expired (finished_before_ms max_rows : N) (s : MemoryState) : list TaskId :=
  (take (N.to_nat max_rows)
     (sort_by key_le id
        (omap (prune_candidate finished_before_ms)
           (st_summary <$> btree_values N.le (ms_encoded_tasks s))))).*2.

Definition prune_terminal_before (finished_before_ms max_rows : N) (s : MemoryState)
    : N * MemoryState :=
  let expired := prune_expired finished_before_ms max_rows s in
  (N.of_nat (length expired),
   foldl (λ s' id, (remove_encoded_task id s').2) s expired).

(** ** Ownership *)

Definition set_owner (owner : option OwnerEpoch) (last : N) (s : MemoryState)
    : MemoryState :=
  {| ms_owner_epoch := owner; ms_last_owner_epoch := last;
     ms_encoded_tasks := ms_encoded_tasks s;
     ms_encoded_idempotency := ms_encoded_idempotency s;
     ms_encoded_terminal_order := ms_encoded_terminal_order s;
     ms_retained_payload_bytes := ms_retained_payload_bytes s;
     ms_unfinished_records := ms_unfinished_records s |}.

Definition acquire_owner (s : MemoryState) : result OwnerEpoch StoreError * MemoryState :=
  if is_some (ms_owner_epoch s) then (Err OwnerConflict, s) else
  match checked_add u64_max (ms_last_owner_epoch s) 1 with
  | None => (Err (Failure "memory owner epoch exhausted"), s)
  | Some next_epoch => (Ok next_epoch, set_owner (Some next_epoch) next_epoch s)
  end.

Definition release_owner (epoch : OwnerEpoch) (s : MemoryState)
    : result unit StoreError * MemoryState :=
  if negb (bool_decide (ms_owner_epoch s = Some epoch)) then (Err OwnerConflict, s)
  else (Ok tt, set_owner None (ms_last_owner_epoch s) s).

Definition memory_capabilities : StoreCapabilities :=
  {| cap_persistent_history := false; cap_restart_recovery := false |}.
End memory_store.
