(* ===== verification/MemoryInvariant.v ===== *)
(** * The in-memory task store: its invariant

    The store keeps the same information several times over: a task's payload
    size is also part of [retained_payload_bytes], its state decides whether it
    is counted in [unfinished_records] or queued in [encoded_terminal_order],
    and its idempotency key is repeated in [encoded_idempotency].  [wf] says
    that the copies agree and that the configured limits hold; every operation
    preserves it. *)

From S2P Require Import Prelude TaskState Model MemoryStore.

Section invariant.
Context `{ET : !ExternalTypes, SJ : !SnapshotJson}.
Implicit Types (s : MemoryState) (task : StoredTask) (t : TaskSummary).
Implicit Types (lim : MemoryLimits) (id : TaskId) (r : StoredTaskRequest).

(** ** One record *)

(** The summary repeats the request. *)
Record describes (r : StoredTaskRequest) (t : TaskSummary) : Prop := {
  desc_kind : ts_kind_id t = sr_kind_id r;
  desc_category : ts_category t = sr_category r;
  desc_type : ts_payload_type_id t = model_id_as_str (sp_type_id (sr_payload r));
  desc_schema : ts_payload_schema_version t = sp_schema_version (sr_payload r);
  desc_codec : ts_payload_codec_id t = sp_codec_id (sr_payload r);
  desc_metadata : ts_metadata t = sr_metadata r;
  desc_resource : ts_resource_limit t = sr_resource_limit r;
  desc_correlation : ts_correlation_key t = sr_correlation_key r;
  desc_idempotency : ts_idempotency_key t = sr_idempotency_key r;
}.

(** The mutable fields fit the lifecycle state and their widths. *)
Record lifecycle_wf (t : TaskSummary) : Prop := {
  lwf_version : ts_state_version t ≤ u64_max;
  lwf_attempt : ts_attempt t ≤ u32_max;
  lwf_finished : is_Some (ts_finished_at_ms t) → is_terminal (ts_state t) = true;
  lwf_output : ∀ o, ts_output t = Some o →
    ts_state t = Succeeded ∧ bytes_len (to_summary o) ≤ MAX_TASK_OUTPUT_SUMMARY_BYTES;
  lwf_retry : is_Some (ts_retry_not_before_ms t) → ts_state t = Queued;
  lwf_progress : ∀ p, ts_progress t = Some p → tps_attempt p = ts_attempt t;
  lwf_diagnostics : validate_diagnostics (ts_state t) = Ok tt;
}.

Record task_wf (id : TaskId) (task : StoredTask) : Prop := {
  twf_id : ts_id (st_summary task) = id;
  twf_describes : describes (st_request task) (st_summary task);
  twf_lifecycle : lifecycle_wf (st_summary task);
}.

(** ** The store *)

Definition unfinished_count (m : gmap TaskId StoredTask) : N :=
  map_sumN (λ task, if task_terminal task then 0 else 1) m.
Definition payload_total (m : gmap TaskId StoredTask) : N := map_sumN payload_len m.

Record core_wf (lim : MemoryLimits) (s : MemoryState) : Prop := {
  cwf_task : ∀ id task, ms_encoded_tasks s !! id = Some task → task_wf id task;
  cwf_order_nodup : NoDup (ms_encoded_terminal_order s);
  cwf_order : ∀ id, id ∈ ms_encoded_terminal_order s ↔
    ∃ task, ms_encoded_tasks s !! id = Some task ∧ task_terminal task = true;
  cwf_idempotency : ∀ key id, ms_encoded_idempotency s !! key = Some id ↔
    ∃ task, ms_encoded_tasks s !! id = Some task ∧
            sr_idempotency_key (st_request task) = Some key;
  cwf_retained : ms_retained_payload_bytes s = payload_total (ms_encoded_tasks s);
  cwf_unfinished : ms_unfinished_records s = unfinished_count (ms_encoded_tasks s);
  cwf_budget : ms_retained_payload_bytes s ≤ ml_max_payload_bytes lim;
  cwf_limit : ms_unfinished_records s ≤ ml_max_unfinished_records lim;
  cwf_owner : ∀ e, ms_owner_epoch s = Some e → e = ms_last_owner_epoch s;
  cwf_epoch : ms_last_owner_epoch s ≤ u64_max;
}.

(** The limits are [usize] values. *)
Record limits_ok (lim : MemoryLimits) : Prop := {
  lok_payload : ml_max_payload_bytes lim ≤ usize_max;
  lok_unfinished : ml_max_unfinished_records lim ≤ usize_max;
}.

Record wf (lim : MemoryLimits) (s : MemoryState) : Prop := {
  wf_core : core_wf lim s;
  wf_history : N.of_nat (length (ms_encoded_terminal_order s)) ≤ ml_history_capacity lim;
}.

Lemma wf_new lim : wf lim memory_state_new.
Proof.
  split; [split|]; simpl; try lia; try done.
  - constructor.
  - intros id. split; [set_solver|]. by intros (?&?%lookup_empty_Some&?).
  - intros key id. rewrite lookup_empty. split; [done|]. by intros (?&?%lookup_empty_Some&?).
Qed.

Lemma unfinished_pos m id task :
  m !! id = Some task → task_terminal task = false → 1 ≤ unfinished_count m.
Proof.
  intros Hid Ht. pose proof (map_sumN_lookup_le
    (λ task, if task_terminal task then 0 else 1) m id task Hid) as Hle.
  simpl in Hle. by rewrite Ht in Hle.
Qed.

(** Two tasks never share an idempotency key. *)
Lemma idempotency_key_unique lim s id1 id2 (t1 t2 : StoredTask) key :
  core_wf lim s →
  ms_encoded_tasks s !! id1 = Some t1 → ms_encoded_tasks s !! id2 = Some t2 →
  sr_idempotency_key (st_request t1) = Some key →
  sr_idempotency_key (st_request t2) = Some key → id1 = id2.
Proof.
  intros Hwf H1 H2 Hk1 Hk2.
  assert (ms_encoded_idempotency s !! key = Some id1) by (apply (cwf_idempotency lim); eauto).
  assert (ms_encoded_idempotency s !! key = Some id2) by (apply (cwf_idempotency lim); eauto).
  congruence.
Qed.

(** ** Removal and eviction *)

Section with_limits.
Context (lim : MemoryLimits) (Hlim : limits_ok lim).

Lemma removed_state_fields id task s :
  core_wf lim s → ms_encoded_tasks s !! id = Some task →
  let s' := (remove_encoded_task id s).2 in
  (remove_encoded_task id s).1 = Some task ∧
  ms_encoded_tasks s' = delete id (ms_encoded_tasks s) ∧
  ms_encoded_terminal_order s' = filter (.≠ id) (ms_encoded_terminal_order s) ∧
  ms_retained_payload_bytes s' = ms_retained_payload_bytes s - payload_len task ∧
  payload_len task ≤ ms_retained_payload_bytes s ∧
  ms_owner_epoch s' = ms_owner_epoch s ∧ ms_last_owner_epoch s' = ms_last_owner_epoch s.
Proof.
  intros Hwf Hid. unfold remove_encoded_task. rewrite Hid. simpl.
  assert (payload_len task ≤ ms_retained_payload_bytes s).
  { rewrite (cwf_retained lim) by done. by eapply map_sumN_lookup_le. }
  split_and!; try done. apply usize_sub_small; [done|].
  pose proof (cwf_budget _ _ Hwf). pose proof (lok_payload _ Hlim). lia.
Qed.

Lemma remove_core_wf id s : core_wf lim s → core_wf lim (remove_encoded_task id s).2.
Proof.
  intros Hwf. destruct (ms_encoded_tasks s !! id) as [task|] eqn:Hid; last first.
  { unfold remove_encoded_task. by rewrite Hid. }
  destruct (removed_state_fields id task s Hwf Hid) as (_ & Ht & Ho & Hr & Hle & He & Hl).
  assert (ms_unfinished_records (remove_encoded_task id s).2 =
          unfinished_count (delete id (ms_encoded_tasks s))) as Hu.
  { pose proof (map_sumN_delete (λ task, if task_terminal task then 0 else 1) _ _ _ Hid) as Hs.
    fold (unfinished_count (ms_encoded_tasks s)) in Hs.
    fold (unfinished_count (delete id (ms_encoded_tasks s))) in Hs.
    rewrite <- (cwf_unfinished lim s Hwf) in Hs.
    unfold remove_encoded_task. rewrite Hid. simpl.
    destruct (task_terminal task); simpl; [lia|].
    pose proof (cwf_limit _ _ Hwf). pose proof (lok_unfinished _ Hlim).
    rewrite usize_sub_small by lia. lia. }
  pose proof (map_sumN_delete payload_len _ _ _ Hid) as Hs.
  fold (payload_total (ms_encoded_tasks s)) (payload_total (delete id (ms_encoded_tasks s))) in Hs.
  rewrite <- (cwf_retained lim s Hwf) in Hs.
  split; rewrite ?Ht, ?Ho, ?Hr, ?He, ?Hl, ?Hu.
  - intros id' task' [Hne Hid']%lookup_delete_Some. by apply (cwf_task lim s).
  - apply NoDup_filter, Hwf.
  - intros id'. rewrite list_elem_of_filter, (cwf_order lim s Hwf).
    setoid_rewrite lookup_delete_Some. naive_solver.
  - intros key id'. setoid_rewrite lookup_delete_Some.
    unfold remove_encoded_task. rewrite Hid. simpl.
    destruct (sr_idempotency_key (st_request task)) as [key0|] eqn:Hkey0.
    + rewrite lookup_delete_Some, (cwf_idempotency lim s Hwf). split.
      * intros (Hne & task' & Hid' & Hkey'). exists task'. split_and!; [|done..].
        intros ->. simplify_eq.
      * intros (task' & [Hne Hid'] & Hkey'). split; [|eauto].
        intros ->. apply Hne. by eapply idempotency_key_unique.
    + rewrite (cwf_idempotency lim s Hwf). split.
      * intros (task' & Hid' & Hkey'). exists task'. split_and!; [|done..]. intros ->. simplify_eq.
      * naive_solver.
  - lia.
  - done.
  - pose proof (cwf_budget _ _ Hwf). lia.
  - pose proof (cwf_limit _ _ Hwf). rewrite (cwf_unfinished lim s Hwf) in *.
    etrans; [|done]. unfold unfinished_count at 2.
    rewrite (map_sumN_delete _ _ _ _ Hid). unfold unfinished_count. lia.
  - apply Hwf.
  - apply Hwf.
Qed.

(** Eviction drops the front of the terminal queue and its task. *)
Lemma evict_spec id rest s :
  core_wf lim s → ms_encoded_terminal_order s = id :: rest →
  ∃ s', evict_oldest_encoded_terminal s = (true, s') ∧ core_wf lim s' ∧
    ms_encoded_terminal_order s' = rest ∧
    ms_encoded_tasks s' = delete id (ms_encoded_tasks s) ∧
    ms_owner_epoch s' = ms_owner_epoch s ∧ ms_last_owner_epoch s' = ms_last_owner_epoch s.
Proof.
  intros Hwf Ho.
  assert (∃ task, ms_encoded_tasks s !! id = Some task ∧ task_terminal task = true)
    as (task & Hid & Ht) by (apply (cwf_order lim s Hwf); rewrite Ho; set_solver).
  destruct (removed_state_fields id task s Hwf Hid) as (H1 & H2 & H3 & _ & _ & H4 & H5).
  exists (remove_encoded_task id s).2. unfold evict_oldest_encoded_terminal. rewrite Ho.
  destruct (remove_encoded_task id s) as [o s'] eqn:E. simpl in *. subst o.
  split_and!; try done.
  - replace s' with (remove_encoded_task id s).2 by (by rewrite E). by apply remove_core_wf.
  - rewrite H3, Ho. pose proof (cwf_order_nodup _ _ Hwf) as Hnd. rewrite Ho in Hnd.
    apply NoDup_cons in Hnd as [Hnin _]. rewrite filter_cons.
    rewrite decide_False by (intros Hn; by apply Hn).
    apply filter_all. by intros ? ? ->.
Qed.

Lemma evict_nil s :
  ms_encoded_terminal_order s = [] → evict_oldest_encoded_terminal s = (false, s).
Proof. intros Ho. unfold evict_oldest_encoded_terminal. by rewrite Ho. Qed.

(** What an eviction loop leaves behind: a suffix of the queue, and every
    task that was not evicted. *)
Record evicted (n : nat) (s s' : MemoryState) : Prop := {
  ev_core : core_wf lim s';
  ev_count : (n ≤ length (ms_encoded_terminal_order s))%nat;
  ev_order : ms_encoded_terminal_order s' = drop n (ms_encoded_terminal_order s);
  ev_gone : ∀ id, id ∈ take n (ms_encoded_terminal_order s) →
    ms_encoded_tasks s' !! id = None;
  ev_kept : ∀ id, id ∉ take n (ms_encoded_terminal_order s) →
    ms_encoded_tasks s' !! id = ms_encoded_tasks s !! id;
  ev_owner : ms_owner_epoch s' = ms_owner_epoch s;
  ev_epoch : ms_last_owner_epoch s' = ms_last_owner_epoch s;
}.

Lemma evicted_refl s : core_wf lim s → evicted 0 s s.
Proof. intros. split; simpl; try done; [lia|set_solver]. Qed.

Lemma evicted_step id rest s s1 s' n :
  core_wf lim s → ms_encoded_terminal_order s = id :: rest →
  ms_encoded_terminal_order s1 = rest →
  ms_encoded_tasks s1 = delete id (ms_encoded_tasks s) →
  ms_owner_epoch s1 = ms_owner_epoch s →
  ms_last_owner_epoch s1 = ms_last_owner_epoch s →
  evicted n s1 s' → evicted (S n) s s'.
Proof.
  intros Hwf Ho Ho1 Ht1 He1 Hl1 [Hc Hn Ho' Hg Hk He Hl].
  pose proof (cwf_order_nodup _ _ Hwf) as Hnd. rewrite Ho in Hnd.
  apply NoDup_cons in Hnd as [Hnin _].
  split; rewrite ?Ho; simpl; rewrite ?Ho1 in *; try congruence; [lia|..].
  - intros id' [->|Hid']%elem_of_cons; [|by auto].
    destruct (decide (id ∈ take n rest)) as [Hin|Hni]; [by auto|].
    rewrite Hk by done. rewrite Ht1. apply lookup_delete_eq.
  - intros id' Hni. apply not_elem_of_cons in Hni as [Hne Hni].
    rewrite Hk by done. rewrite Ht1. by apply lookup_delete_ne.
Qed.

(** How an eviction loop ends: it stops as soon as its condition fails, and
    gives up only when no terminal task is left. *)
Record eviction (again : MemoryState → bool) (b : bool) (n : nat) (s s' : MemoryState)
    : Prop := {
  evn_evicted : evicted n s s';
  evn_stopped : b = true → again s' = false;
  evn_drained : b = false → ms_encoded_terminal_order s' = [] ∧ again s' = true;
  evn_minimal : ∀ m, (m < n)%nat → ∃ sm, evicted m s sm ∧ again sm = true;
}.

Lemma evict_while_spec again fuel s :
  core_wf lim s → (length (ms_encoded_terminal_order s) < fuel)%nat →
  ∃ b n s', evict_while again fuel s = (b, s') ∧ eviction again b n s s'.
Proof.
  revert s. induction fuel as [|fuel IH]; intros s Hwf Hf; [lia|].
  simpl. destruct (again s) eqn:Ha; last first.
  { exists true, 0%nat, s. split; [done|]. split; [by apply evicted_refl|done|done|lia]. }
  destruct (ms_encoded_terminal_order s) as [|id rest] eqn:Ho.
  { rewrite evict_nil by done. exists false, 0%nat, s.
    split; [done|]. split; [by apply evicted_refl|done|done|lia]. }
  destruct (evict_spec id rest s Hwf Ho) as (s1 & -> & Hwf1 & Ho1 & Ht1 & He1 & Hl1).
  destruct (IH s1 Hwf1) as (b & n & s' & Hs' & [Hev Hb1 Hb2 Hmin]).
  { rewrite Ho1. simpl in Hf. lia. }
  exists b, (S n), s'. split; [done|]. split; [by eapply evicted_step|done|done|].
  intros [|m] Hm; [exists s; split; [by apply evicted_refl|done]|].
  destruct (Hmin m) as (sm & Hsm & Ham); [lia|].
  exists sm. split; [by eapply evicted_step|done].
Qed.

Lemma evict_loop_spec again s :
  core_wf lim s → ∃ b n s', evict_loop again s = (b, s') ∧ eviction again b n s s'.
Proof. intros. apply evict_while_spec; [done|lia]. Qed.

Lemma evicted_history n s s' :
  evicted n s s' →
  (length (ms_encoded_terminal_order s') ≤ length (ms_encoded_terminal_order s))%nat.
Proof. intros H. rewrite (ev_order _ _ _ H). rewrite length_drop. lia. Qed.

(** Eviction only loses terminal tasks. *)
Lemma evicted_nonterminal n s s' id task :
  core_wf lim s → evicted n s s' → ms_encoded_tasks s !! id = Some task →
  task_terminal task = false → ms_encoded_tasks s' !! id = Some task.
Proof.
  intros Hwf Hev Hid Ht. rewrite (ev_kept _ _ _ Hev); [done|].
  intros Hin. assert (id ∈ ms_encoded_terminal_order s) as Hin' by
    (rewrite <- (take_drop n); set_solver).
  apply (cwf_order lim s Hwf) in Hin' as (task' & ? & ?). congruence.
Qed.

Lemma evicted_subset n s s' id task :
  evicted n s s' → ms_encoded_tasks s' !! id = Some task →
  ms_encoded_tasks s !! id = Some task.
Proof.
  intros Hev Hid.
  destruct (decide (id ∈ take n (ms_encoded_terminal_order s))) as [Hin|Hni].
  - by rewrite (ev_gone _ _ _ Hev) in Hid.
  - by rewrite <- (ev_kept _ _ _ Hev).
Qed.
End with_limits.
End invariant.
