(* ===== verification/MemoryPreservation.v ===== *)
(** * The in-memory task store: every operation keeps the invariant

    Exact behaviour of acceptance, starts, transitions and progress updates on
    a well-formed store, and preservation of [wf]. *)

From S2P Require Import Prelude TaskState Model MemoryStore MemoryInvariant.

Section preservation.
Context `{ET : !ExternalTypes, SJ : !SnapshotJson}.
Context (lim : MemoryLimits) (Hlim : limits_ok lim).
Implicit Types (s : MemoryState) (task : StoredTask) (t : TaskSummary).
Implicit Types (id : TaskId) (r : StoredTaskRequest) (c : TransitionCommand).

(** ** Rewriting one summary *)

Lemma put_summary_sums id task t s (f : StoredTask → N) :
  ms_encoded_tasks s !! id = Some task →
  map_sumN f (ms_encoded_tasks (put_summary id task t s)) + f task =
  f {| st_request := st_request task; st_summary := t |} + map_sumN f (ms_encoded_tasks s).
Proof. intros Hid. unfold put_summary, set_tasks. simpl. by apply map_sumN_update. Qed.

Lemma put_summary_payload id task t s :
  ms_encoded_tasks s !! id = Some task →
  payload_total (ms_encoded_tasks (put_summary id task t s)) =
  payload_total (ms_encoded_tasks s).
Proof.
  intros Hid. pose proof (put_summary_sums id task t s payload_len Hid) as Hs.
  change (payload_len {| st_request := st_request task; st_summary := t |})
    with (payload_len task) in Hs. unfold payload_total. lia.
Qed.

Lemma put_summary_core_wf id task t s :
  core_wf lim s → ms_encoded_tasks s !! id = Some task →
  task_wf id {| st_request := st_request task; st_summary := t |} →
  is_terminal (ts_state t) = task_terminal task →
  core_wf lim (put_summary id task t s).
Proof.
  intros Hwf Hid Htw Hterm.
  pose proof (put_summary_sums id task t s (λ task, if task_terminal task then 0 else 1) Hid) as Hu.
  cbn beta in Hu. change (task_terminal {| st_request := st_request task; st_summary := t |})
    with (is_terminal (ts_state t)) in Hu. rewrite Hterm in Hu.
  split; try apply Hwf.
  - intros id' task'. simpl. rewrite lookup_insert_Some.
    intros [[<- <-]|[? ?]]; [done|]. by apply (cwf_task lim s).
  - intros id'. rewrite (cwf_order lim s Hwf). simpl.
    setoid_rewrite lookup_insert. case_decide as Hdec; [subst id'|done].
    split; intros (task' & Hl & Ht'); simplify_eq.
    + eexists. split; [done|]. unfold task_terminal. simpl. congruence.
    + exists task. split; [done|]. unfold task_terminal in *. simpl in *. congruence.
  - intros key id'. rewrite (cwf_idempotency lim s Hwf). simpl.
    setoid_rewrite lookup_insert. case_decide as Hdec; [subst id'|done].
    split; intros (task' & Hl & Ht'); simplify_eq; eauto.
  - rewrite put_summary_payload by done. apply Hwf.
  - pose proof (cwf_unfinished lim s Hwf) as He. unfold unfinished_count in *.
    change (ms_unfinished_records (put_summary id task t s)) with (ms_unfinished_records s). lia.
Qed.

(** A task that becomes terminal leaves the unfinished count and joins the
    terminal queue. *)
Definition terminalize id task t s : MemoryState :=
  let s1 := put_summary id task t s in
  {| ms_owner_epoch := ms_owner_epoch s1;
     ms_last_owner_epoch := ms_last_owner_epoch s1;
     ms_encoded_tasks := ms_encoded_tasks s1;
     ms_encoded_idempotency := ms_encoded_idempotency s1;
     ms_encoded_terminal_order := ms_encoded_terminal_order s1 ++ [id];
     ms_retained_payload_bytes := ms_retained_payload_bytes s1;
     ms_unfinished_records := saturating_sub (ms_unfinished_records s1) 1 |}.

Lemma terminalize_core_wf id task t s :
  core_wf lim s → ms_encoded_tasks s !! id = Some task →
  task_wf id {| st_request := st_request task; st_summary := t |} →
  task_terminal task = false → is_terminal (ts_state t) = true →
  core_wf lim (terminalize id task t s).
Proof.
  intros Hwf Hid Htw Hold Hnew.
  pose proof (put_summary_sums id task t s (λ task, if task_terminal task then 0 else 1) Hid) as Hu.
  cbn beta in Hu. change (task_terminal {| st_request := st_request task; st_summary := t |})
    with (is_terminal (ts_state t)) in Hu. rewrite Hnew, Hold in Hu.
  assert (id ∉ ms_encoded_terminal_order s) as Hnin.
  { intros (task' & ? & ?)%(cwf_order lim s Hwf). congruence. }
  split; try apply Hwf.
  - intros id' task'. simpl. rewrite lookup_insert_Some.
    intros [[<- <-]|[? ?]]; [done|]. by apply (cwf_task lim s).
  - simpl. apply NoDup_app. split_and!; [apply Hwf|set_solver|apply NoDup_singleton].
  - intros id'. simpl. rewrite elem_of_app, list_elem_of_singleton, (cwf_order lim s Hwf).
    setoid_rewrite lookup_insert. case_decide as Hdec; [subst id'|naive_solver].
    split; [|by right]. intros _. eexists. by split.
  - intros key id'. simpl. rewrite (cwf_idempotency lim s Hwf).
    setoid_rewrite lookup_insert. case_decide as Hdec; [subst id'|done].
    split; intros (task' & Hl & Ht'); simplify_eq; eauto.
  - transitivity (payload_total (ms_encoded_tasks s)); [apply Hwf|].
    symmetry. by apply put_summary_payload.
  - pose proof (cwf_unfinished lim s Hwf) as He. unfold unfinished_count, saturating_sub in *.
    change (ms_unfinished_records s - 1 = map_sumN (λ task, if task_terminal task then 0 else 1)
      (ms_encoded_tasks (put_summary id task t s))). lia.
  - simpl. unfold saturating_sub. pose proof (cwf_limit _ _ Hwf). lia.
Qed.

Lemma record_terminal_spec id task t s :
  core_wf lim s → ms_encoded_tasks s !! id = Some task →
  task_wf id {| st_request := st_request task; st_summary := t |} →
  task_terminal task = false → is_terminal (ts_state t) = true →
  ∃ n, evicted lim n (terminalize id task t s)
         (record_terminal lim id (put_summary id task t s)) ∧
       wf lim (record_terminal lim id (put_summary id task t s)) ∧
       (n = 0%nat ∨ N.of_nat n + ml_history_capacity lim ≤
          N.of_nat (S (length (ms_encoded_terminal_order s)))).
Proof.
  intros Hwf Hid Htw Hold Hnew.
  pose proof (terminalize_core_wf id task t s Hwf Hid Htw Hold Hnew) as Hc.
  unfold record_terminal. fold (terminalize id task t s).
  destruct (evict_loop_spec lim Hlim
    (λ s', ml_history_capacity lim <? N.of_nat (length (ms_encoded_terminal_order s')))
    _ Hc) as (b & n & s' & Hl & [Hev Hb1 Hb2 Hmin]).
  rewrite Hl. simpl.
  assert (N.of_nat (length (ms_encoded_terminal_order s')) ≤ ml_history_capacity lim) as Hle.
  { destruct b.
    - specialize (Hb1 eq_refl). by bool_prop.
    - destruct Hb2 as [-> _]; [done|]. simpl. lia. }
  exists n. split; [done|]. split; [by split; [apply Hev|]|].
  destruct n as [|m]; [lia|]. destruct (Hmin m) as (sm & Hm & Ham); [lia|].
  bool_prop. rewrite (ev_order _ _ _ _ Hm), length_drop in Ham. simpl in Ham.
  rewrite length_app in Ham. simpl in Ham. lia.
Qed.

(** ** Acceptance *)

(** Payload bytes of the tasks that eviction cannot touch. *)
Definition unfinished_bytes (m : gmap TaskId StoredTask) : N :=
  map_sumN (λ task, if task_terminal task then 0 else payload_len task) m.

Lemma foldl_usize_add a l :
  a + sumN l ≤ usize_max → foldl usize_add a l = a + sumN l.
Proof.
  revert a. induction l as [|x l IH]; intros a Hb; [simpl; lia|].
  change (sumN (x :: l)) with (x + sumN l) in *. simpl.
  rewrite usize_add_small by lia. rewrite IH by lia. lia.
Qed.

Lemma payload_split (m : gmap TaskId StoredTask) :
  payload_total m =
  map_sumN (λ task, if task_terminal task then payload_len task else 0) m + unfinished_bytes m.
Proof.
  unfold payload_total, unfinished_bytes. rewrite <- map_sumN_add. apply map_sumN_ext.
  intros _ task _. destruct (task_terminal task); lia.
Qed.

(** The reclaimable bytes leave exactly the unfinished tasks' bytes. *)
Lemma minimum_retained_spec s :
  core_wf lim s →
  saturating_sub (ms_retained_payload_bytes s) (reclaimable_bytes s) =
  unfinished_bytes (ms_encoded_tasks s).
Proof.
  intros Hwf. pose proof (sum_over_keys task_terminal payload_len (ms_encoded_tasks s)
    (ms_encoded_terminal_order s) (cwf_order_nodup _ _ Hwf) (cwf_order _ _ Hwf)) as Hs.
  pose proof (payload_split (ms_encoded_tasks s)) as Hp.
  pose proof (cwf_budget _ _ Hwf). pose proof (lok_payload _ Hlim).
  rewrite (cwf_retained lim s Hwf) in *. unfold reclaimable_bytes.
  rewrite foldl_usize_add; unfold saturating_sub; lia.
Qed.

Lemma insert_accepted_core_wf now id r s :
  core_wf lim s → ms_encoded_tasks s !! id = None →
  (∀ key, sr_idempotency_key r = Some key → ms_encoded_idempotency s !! key = None) →
  ms_retained_payload_bytes s + bytes_len (sp_bytes (sr_payload r)) ≤ ml_max_payload_bytes lim →
  ms_unfinished_records s < ml_max_unfinished_records lim →
  core_wf lim (insert_accepted now id r s).
Proof.
  intros Hwf Hid Hkey Hbytes Hunf.
  pose proof (lok_payload _ Hlim). pose proof (lok_unfinished _ Hlim).
  split; simpl; try apply Hwf.
  - intros id' task'. rewrite lookup_insert_Some. intros [[<- <-]|[? ?]].
    + split; [done|by split|]. split; simpl; try done; try lia; try (by intros [? ?]).
    + by apply (cwf_task lim s).
  - intros id'. rewrite (cwf_order lim s Hwf). setoid_rewrite lookup_insert.
    case_decide as Hdec; [subst id'|done]. split; [naive_solver|].
    intros (task' & Hl & Ht'). by simplify_eq.
  - intros key id'. setoid_rewrite lookup_insert.
    destruct (sr_idempotency_key r) as [key0|] eqn:Hk.
    + rewrite lookup_insert. destruct (decide (key0 = key)) as [->|Hne].
      * specialize (Hkey _ eq_refl). split.
        -- intros [= <-]. exists {| st_request := r; st_summary := accepted_summary now id r |}.
           by rewrite decide_True by done.
        -- case_decide as Hdec; [by subst|]. intros (task' & Hl & Hk').
           assert (ms_encoded_idempotency s !! key = Some id') by
             (apply (cwf_idempotency lim s Hwf); eauto). congruence.
      * rewrite (cwf_idempotency lim s Hwf). case_decide; [subst id'|done].
        split; intros (task' & Hl & Hk'); simplify_eq/=.
    + rewrite (cwf_idempotency lim s Hwf). case_decide; [subst id'|done].
      split; intros (task' & Hl & Hk'); simplify_eq/=.
  - rewrite usize_add_small by lia. unfold payload_total. rewrite map_sumN_insert by done.
    pose proof (cwf_retained lim s Hwf) as Hr. unfold payload_total in Hr. rewrite Hr.
    unfold payload_len at 2. simpl. lia.
  - rewrite usize_add_small by lia. unfold unfinished_count. rewrite map_sumN_insert by done.
    pose proof (cwf_unfinished lim s Hwf) as Hu. unfold unfinished_count in Hu. rewrite Hu.
    unfold task_terminal at 2. simpl. lia.
  - by rewrite usize_add_small by lia.
  - rewrite usize_add_small; lia.
Qed.

(** What [accept_new] answers, decided by the retained tasks alone. *)
Definition accept_new_verdict id r (m : gmap TaskId StoredTask) : option StoreError :=
  let requested := bytes_len (sp_bytes (sr_payload r)) in
  if is_some (m !! id) then Some DuplicateTask
  else if ml_max_unfinished_records lim <=? unfinished_count m
  then Some (UnfinishedRecordLimitExceeded (ml_max_unfinished_records lim))
  else if ml_max_payload_bytes lim <? unfinished_bytes m + requested
  then Some (CapacityExceeded requested (ml_max_payload_bytes lim - unfinished_bytes m))
  else None.

Lemma capacity_test a b :
  is_none_or (λ total, ml_max_payload_bytes lim <? total) (checked_add usize_max a b) =
  (ml_max_payload_bytes lim <? a + b).
Proof.
  pose proof (lok_payload _ Hlim). unfold checked_add.
  destruct (_ <=? _) eqn:E; [done|]. symmetry. bool_prop. lia.
Qed.

(** An empty terminal queue means only unfinished tasks are retained. *)
Lemma drained_retained s :
  core_wf lim s → ms_encoded_terminal_order s = [] →
  ms_retained_payload_bytes s = unfinished_bytes (ms_encoded_tasks s).
Proof.
  intros Hwf Ho. rewrite <- (minimum_retained_spec s Hwf).
  unfold reclaimable_bytes. rewrite Ho. simpl. unfold saturating_sub. lia.
Qed.

Lemma evicted_unfinished_bytes n s s' :
  core_wf lim s → evicted lim n s s' →
  unfinished_bytes (ms_encoded_tasks s') = unfinished_bytes (ms_encoded_tasks s) ∧
  unfinished_count (ms_encoded_tasks s') = unfinished_count (ms_encoded_tasks s).
Proof.
  intros Hwf Hev.
  assert (∀ f : StoredTask → N, (∀ task, task_terminal task = true → f task = 0) →
    map_sumN f (ms_encoded_tasks s') = map_sumN f (ms_encoded_tasks s)) as Hgen.
  { intros f Hf.
    assert (ms_encoded_tasks s' =
      filter (λ kv, kv.1 ∉ take n (ms_encoded_terminal_order s)) (ms_encoded_tasks s)) as ->.
    { apply map_eq. intros id. rewrite map_lookup_filter.
      destruct (decide (id ∈ take n (ms_encoded_terminal_order s))) as [Hin|Hni].
      - rewrite (ev_gone _ _ _ _ Hev) by done.
        destruct (ms_encoded_tasks s !! id); simpl; [|done].
        rewrite option_guard_False; [done|]. simpl. tauto.
      - rewrite (ev_kept _ _ _ _ Hev) by done.
        destruct (ms_encoded_tasks s !! id); simpl; [|done].
        by rewrite option_guard_True. }
    assert (∀ id task, ms_encoded_tasks s !! id = Some task →
      id ∈ take n (ms_encoded_terminal_order s) → f task = 0) as Hz.
    { intros id task Hid Hin. apply Hf.
      assert (id ∈ ms_encoded_terminal_order s) as Hin'
        by (rewrite <- (take_drop n); set_solver).
      apply (cwf_order lim s Hwf) in Hin' as (task' & ? & ?). congruence. }
    revert Hz. generalize (take n (ms_encoded_terminal_order s)) as gone. intros gone.
    generalize (ms_encoded_tasks s) as m. clear. intros m.
    induction m as [|id task m Hid IH] using map_ind; intros Hz.
    { by rewrite map_filter_empty. }
    assert (∀ id' task', m !! id' = Some task' → id' ∈ gone → f task' = 0) as Hz'.
    { intros id' task' Hl. apply Hz. rewrite lookup_insert_ne; [done|congruence]. }
    rewrite (map_sumN_insert f m) by done.
    destruct (decide (id ∈ gone)) as [Hin|Hni].
    - rewrite map_filter_insert_False by (simpl; tauto).
      rewrite delete_id by done.
      rewrite IH by done. rewrite (Hz id task) by (done || apply lookup_insert_eq). lia.
    - rewrite map_filter_insert_True by done. rewrite map_sumN_insert.
      + by rewrite IH.
      + rewrite map_lookup_filter, Hid. done. }
  split; apply Hgen; by intros ? ->.
Qed.

Lemma accept_new_spec now id r s :
  wf lim s →
  (∀ key, sr_idempotency_key r = Some key → ms_encoded_idempotency s !! key = None) →
  match accept_new_verdict id r (ms_encoded_tasks s) with
  | Some e => accept_new lim now id r s = (Err e, s)
  | None =>
      ∃ n s1, evicted lim n s s1 ∧
        evict_loop (λ s', usize_sub (ml_max_payload_bytes lim)
                            (bytes_len (sp_bytes (sr_payload r)))
                          <? ms_retained_payload_bytes s') s = (true, s1) ∧
        (∀ m, (m < n)%nat → ∃ sm, evicted lim m s sm ∧
           ml_max_payload_bytes lim <
             ms_retained_payload_bytes sm + bytes_len (sp_bytes (sr_payload r))) ∧
        accept_new lim now id r s =
          (Ok {| ao_summary := accepted_summary now id r; ao_created := true |},
           insert_accepted now id r s1) ∧
        wf lim (insert_accepted now id r s1)
  end.
Proof.
  intros [Hwf Hh] Hkey. unfold accept_new_verdict, accept_new.
  rewrite <- (cwf_unfinished lim s Hwf : _ = unfinished_count _).
  rewrite (minimum_retained_spec s Hwf), capacity_test.
  destruct (is_some (ms_encoded_tasks s !! id)) eqn:Hid; [done|].
  destruct (_ <=? ms_unfinished_records s) eqn:Hunf; [done|].
  destruct (ml_max_payload_bytes lim <? _) eqn:Hcap; [done|].
  bool_prop. pose proof (lok_payload _ Hlim).
  rewrite (usize_sub_small (ml_max_payload_bytes lim)) by lia.
  destruct (evict_loop_spec lim Hlim (λ s', ml_max_payload_bytes lim -
    bytes_len (sp_bytes (sr_payload r)) <? ms_retained_payload_bytes s') s Hwf)
    as (b & n & s1 & Hl & [Hev Hb1 Hb2 Hmin]).
  rewrite Hl. destruct (evicted_unfinished_bytes n s s1 Hwf Hev) as [Hbytes Hcount].
  destruct b; last first.
  { destruct Hb2 as [Ho Hr]; [done|]. bool_prop.
    rewrite drained_retained in Hr by (done || apply Hev). lia. }
  specialize (Hb1 eq_refl). bool_prop. exists n, s1. split; [done|]. split.
  { done. }
  split.
  { intros m Hm. destruct (Hmin m Hm) as (sm & Hsm & Ham). exists sm. split; [done|].
    bool_prop. lia. }
  split; [done|].
  split; [apply insert_accepted_core_wf; [apply Hev|..]|].
  - destruct (ms_encoded_tasks s1 !! id) eqn:Hid1; [|done].
    apply (evicted_subset lim n s s1) in Hid1; [congruence|done].
  - intros key Hk. specialize (Hkey key Hk).
    destruct (ms_encoded_idempotency s1 !! key) as [id'|] eqn:Hk1; [|done].
    apply (cwf_idempotency lim s1) in Hk1 as (task' & Hid' & Hk'); [|apply Hev].
    apply (evicted_subset lim n s s1) in Hid'; [|done].
    assert (ms_encoded_idempotency s !! key = Some id')
      by (apply (cwf_idempotency lim s Hwf); eauto). congruence.
  - lia.
  - rewrite (cwf_unfinished lim s1), Hcount by apply Hev.
    rewrite <- (cwf_unfinished lim s Hwf). lia.
  - simpl. pose proof (evicted_history lim n s s1 Hev). lia.
Qed.

(** The key of a request that reaches [accept_new] is free. *)
Lemma idempotency_miss r s :
  sr_idempotency_key r ≫= (ms_encoded_idempotency s !!.) = None →
  ∀ key, sr_idempotency_key r = Some key → ms_encoded_idempotency s !! key = None.
Proof. intros Hm key Hk. by rewrite Hk in Hm. Qed.

Lemma accept_encoded_wf now id r s :
  wf lim s → wf lim (accept_encoded lim now id r s).2.
Proof.
  intros Hwf. unfold accept_encoded. destruct (_ || _); [done|].
  destruct (_ ≫= _) as [existing_id|] eqn:Hm.
  - destruct (ms_encoded_tasks s !! existing_id); [|done]. by destruct (negb _).
  - pose proof (accept_new_spec now id r s Hwf (idempotency_miss r s Hm)) as Hs.
    destruct (accept_new_verdict _ _ _); [by rewrite Hs|].
    destruct Hs as (n & s1 & _ & _ & _ & -> & ?). done.
Qed.

(** ** Starts *)

Lemma lifecycle_queued t :
  lifecycle_wf t → ts_state t = Queued → ts_output t = None ∧ ts_finished_at_ms t = None.
Proof.
  intros Hl Hq. split.
  - destruct (ts_output t) eqn:Ho; [|done]. apply (lwf_output t Hl) in Ho. naive_solver congruence.
  - destruct (ts_finished_at_ms t) eqn:Hf; [|done].
    pose proof (lwf_finished t Hl) as Hx. rewrite Hf, Hq in Hx. by specialize (Hx ltac:(eauto)).
Qed.

Lemma started_task_wf id task v attempt at_ms :
  task_wf id task → ts_state (st_summary task) = Queued →
  v ≤ u64_max → attempt ≤ u32_max →
  task_wf id {| st_request := st_request task;
                st_summary := started_summary attempt at_ms
                                (with_state_version v (st_summary task)) |}.
Proof.
  intros [Hid Hd Hl] Hq Hv Ha. destruct (lifecycle_queued _ Hl Hq) as [Ho _].
  split; simpl; [done|by destruct Hd|].
  split; simpl; rewrite ?Ho; try done; by intros [? ?].
Qed.

Lemma bumped_task_wf id task v :
  task_wf id task → v ≤ u64_max →
  task_wf id {| st_request := st_request task;
                st_summary := with_state_version v (st_summary task) |}.
Proof. intros [Hid Hd Hl] Hv. split; simpl; [done|by destruct Hd|by destruct Hl]. Qed.

Lemma start_encoded_wf command s : wf lim s → wf lim (start_encoded command s).2.
Proof.
  intros [Hwf Hh]. unfold start_encoded.
  destruct (ms_encoded_tasks s !! _) as [task|] eqn:Hid; [|by split].
  destruct (_ || _) eqn:Hg; [by split|]. bool_prop. destruct Hg as [Hver Hq].
  pose proof (cwf_task lim s Hwf _ _ Hid) as Htw.
  destruct (checked_add u64_max _ 1) as [v|] eqn:Hv; [|by split].
  apply checked_add_Some in Hv as [-> Hv].
  destruct (checked_add u32_max _ 1) as [attempt|] eqn:Ha; simpl.
  - apply checked_add_Some in Ha as [-> Ha]. split; [|done].
    apply put_summary_core_wf; try done.
    + by apply started_task_wf.
    + unfold task_terminal. by rewrite Hq.
  - split; [|done]. apply put_summary_core_wf; try done. by apply bumped_task_wf.
Qed.

(** ** Transitions *)

(** The requests [transition_encoded] lets through to the write. *)
Record transition_allowed (c : TransitionCommand) (t : TaskSummary) : Prop := {
  ta_diagnostics : validate_diagnostics (tc_state c) = Ok tt;
  ta_output : validate_encoded_output (tc_state c) (tc_output c) = Ok tt;
  ta_version : ts_state_version t = tc_expected_state_version c;
  ta_attempt : ts_attempt t = tc_expected_attempt c;
  ta_step : allows_transition_to (ts_state t) (tc_state c) = true ∨
    (is_terminal (ts_state t) = true ∧ ts_state t = tc_state c ∧
     tc_cancel_requested c = true ∧ is_Some (tc_cancel_error c));
  ta_output_once : is_Some (tc_output c) → is_terminal (ts_state t) = false;
  ta_retry : is_Some (tc_retry_not_before_ms c) → tc_state c = Queued;
}.

Lemma transition_conflicts_false c t :
  transition_conflicts c t = false ↔
  ts_state_version t = tc_expected_state_version c ∧
  ts_attempt t = tc_expected_attempt c ∧
  (allows_transition_to (ts_state t) (tc_state c) = true ∨
    (is_terminal (ts_state t) = true ∧ ts_state t = tc_state c ∧
     tc_cancel_requested c = true ∧ is_Some (tc_cancel_error c))).
Proof.
  unfold transition_conflicts, terminal_cancel_annotation. bool_prop. tauto.
Qed.

Lemma transition_allowed_intro c t :
  validate_diagnostics (tc_state c) = Ok tt →
  validate_encoded_output (tc_state c) (tc_output c) = Ok tt →
  transition_conflicts c t = false →
  is_some (tc_output c) && is_terminal (ts_state t) = false →
  is_some (tc_retry_not_before_ms c) && negb (bool_decide (tc_state c = Queued)) = false →
  transition_allowed c t.
Proof.
  intros Hd Hvo (Hv & Ha & Hs)%transition_conflicts_false Ho Hr. split; try done.
  - intros [o Heq]. by rewrite Heq in Ho.
  - intros [x Heq]. rewrite Heq in Hr. simpl in Hr. by bool_prop.
Qed.

(** Every way [transition_encoded] can end. *)
Lemma transition_cases c s :
  (∃ e, transition_encoded lim c s = (Err e, s)) ∨
  (∃ task, ms_encoded_tasks s !! tc_id c = Some task ∧
     transition_allowed c (st_summary task) ∧
     let t := st_summary task in
     (u64_max < ts_state_version t + 1 ∧
      transition_encoded lim c s =
        (Err (Failure "task state version overflow"),
         put_summary (tc_id c) task (enter_state c t) s)) ∨
     (ts_state_version t + 1 ≤ u64_max ∧
      let t2 := settle_state c (ts_state_version t + 1) (enter_state c t) in
      let s1 := put_summary (tc_id c) task t2 s in
      transition_encoded lim c s =
        (Ok t2,
         if negb (is_terminal (ts_state t)) && is_terminal (tc_state c)
         then record_terminal lim (tc_id c) s1 else s1))).
Proof.
  unfold transition_encoded.
  destruct (validate_diagnostics _) as [[]|] eqn:Hd; [|by eauto].
  destruct (validate_encoded_output _ _) as [[]|] eqn:Hvo; [|by eauto].
  destruct (ms_encoded_tasks s !! _) as [task|] eqn:Hid; [|by eauto].
  destruct (transition_conflicts _ _) eqn:Hc; [by eauto|].
  destruct (is_some (tc_output c) && _) eqn:Ho; [by eauto|].
  destruct (is_some (tc_retry_not_before_ms c) && _) eqn:Hr; [by eauto|].
  right. exists task. split; [done|]. split; [by apply transition_allowed_intro|].
  destruct (checked_add u64_max _ 1) as [v|] eqn:Hov.
  - apply checked_add_Some in Hov as [-> Hov]. right. by split.
  - apply checked_add_None in Hov. left. by split.
Qed.

(** An allowed transition always reaches the write. *)
Lemma transition_when_allowed c s task :
  ms_encoded_tasks s !! tc_id c = Some task → transition_allowed c (st_summary task) →
  let t := st_summary task in
  transition_encoded lim c s =
    if ts_state_version t + 1 <=? u64_max then
      let t2 := settle_state c (ts_state_version t + 1) (enter_state c t) in
      let s1 := put_summary (tc_id c) task t2 s in
      (Ok t2, if negb (is_terminal (ts_state t)) && is_terminal (tc_state c)
              then record_terminal lim (tc_id c) s1 else s1)
    else (Err (Failure "task state version overflow"),
          put_summary (tc_id c) task (enter_state c t) s).
Proof.
  intros Hid [Hd Hvo Hv Ha Hs Ho Hr]. unfold transition_encoded. rewrite Hd, Hvo, Hid.
  rewrite (proj2 (transition_conflicts_false c _)) by done.
  assert (is_some (tc_output c) && is_terminal (ts_state (st_summary task)) = false) as ->.
  { destruct (tc_output c); [|done]. simpl. by apply Ho. }
  assert (is_some (tc_retry_not_before_ms c) && negb (bool_decide (tc_state c = Queued)) = false)
    as ->.
  { destruct (tc_retry_not_before_ms c); [|done]. simpl. by rewrite bool_decide_true by auto. }
  unfold checked_add. by destruct (_ <=? _).
Qed.

Lemma validate_output_ok state o :
  validate_encoded_output state (Some o) = Ok tt →
  state = Succeeded ∧ bytes_len (to_summary o) ≤ MAX_TASK_OUTPUT_SUMMARY_BYTES.
Proof.
  unfold validate_encoded_output. simpl.
  destruct (negb _) eqn:E1; [done|]. destruct (_ <? _) eqn:E2; [done|]. by bool_prop.
Qed.

Lemma settled_task_wf id task c v :
  task_wf id task → transition_allowed c (st_summary task) → v ≤ u64_max →
  task_wf id {| st_request := st_request task;
                st_summary := settle_state c v (enter_state c (st_summary task)) |}.
Proof.
  intros [Hid Hd Hl] Hc Hv.
  assert (is_terminal (tc_state c) = false → is_terminal (ts_state (st_summary task)) = false) as Hnt.
  { intros Hn. destruct (ta_step _ _ Hc) as [Hs|(Ht&He&_)]; [by destruct (ts_state _)|congruence]. }
  split; simpl; [done|by destruct Hd|]. split; simpl; try apply Hl; try apply Hc.
  - done.
  - destruct (is_terminal (tc_state c)) eqn:Ht; simpl; [done|].
    intros Hf. apply (lwf_finished _ Hl) in Hf. naive_solver congruence.
  - intros o Ho. destruct (tc_output c) as [o'|] eqn:Hco; simplify_eq.
    + pose proof (ta_output _ _ Hc) as Hvo. rewrite Hco in Hvo. by apply validate_output_ok.
    + destruct (lwf_output _ Hl o Ho) as [Hs Hlen]. split; [|done].
      destruct (ta_step _ _ Hc) as [Hst|(_&He&_)]; [|congruence].
      by rewrite Hs in Hst.
Qed.

Lemma transition_encoded_wf c s :
  wf lim s →
  (transition_encoded lim c s).1 ≠ Err (Failure "task state version overflow") →
  wf lim (transition_encoded lim c s).2.
Proof.
  intros [Hwf Hh] Hne.
  destruct (transition_cases c s) as [[e ->]|(task & Hid & Hc & [[_ He]|[Hv ->]])];
    [by split|by rewrite He in Hne|]. clear Hne.
  pose proof (settled_task_wf _ _ c _ (cwf_task lim s Hwf _ _ Hid) Hc Hv) as Htw.
  simpl. destruct (_ && _) eqn:Hterm.
  - bool_prop. destruct Hterm as [Hold Hnew].
    edestruct (record_terminal_spec (tc_id c) task _ s Hwf Hid Htw) as (n & _ & ? & _); done.
  - split; [|done]. apply put_summary_core_wf; try done. unfold task_terminal. simpl.
    destruct (is_terminal (ts_state (st_summary task))) eqn:Hold; simpl in Hterm; [|done].
    destruct (ta_step _ _ Hc) as [Hs|(_&He&_)]; [by destruct (ts_state (st_summary task))|congruence].
Qed.

(** ** Progress, pruning and ownership *)

Lemma from_command_attempt to_vec (pc : ProgressCommand) p :
  from_command to_vec pc = Ok p →
  tps_attempt p = pc_expected_attempt pc ∧ tps_progress_version p = pc_progress_version pc.
Proof. unfold from_command. intros. by split_matches. Qed.

Lemma update_progress_wf pc s : wf lim s → wf lim (update_progress pc s).2.
Proof.
  intros [Hwf Hh]. unfold update_progress.
  destruct (from_command _ pc) as [p|] eqn:Hp; [|by split].
  destruct (ms_encoded_tasks s !! _) as [task|] eqn:Hid; [|by split].
  destruct (_ || _) eqn:Hg; [by split|]. bool_prop. destruct Hg as [[Hr Ha] _].
  split; [|done]. simpl. pose proof (cwf_task lim s Hwf _ _ Hid) as [Hi Hd Hl].
  apply put_summary_core_wf; try done.
  split; simpl; [done|by destruct Hd|]. split; simpl; try apply Hl.
  intros p' [= <-]. apply from_command_attempt in Hp as [-> _]. done.
Qed.

Lemma remove_wf id s : wf lim s → wf lim (remove_encoded_task id s).2.
Proof.
  intros [Hwf Hh]. split; [by apply remove_core_wf|].
  unfold remove_encoded_task. destruct (ms_encoded_tasks s !! id); simpl; [|done].
  pose proof (length_filter (.≠ id) (ms_encoded_terminal_order s)). lia.
Qed.

Lemma prune_terminal_before_wf before rows s :
  wf lim s → wf lim (prune_terminal_before before rows s).2.
Proof.
  unfold prune_terminal_before. simpl. generalize (prune_expired before rows s) as l.
  intros l. revert s. induction l as [|id l IH]; intros s Hwf; [done|].
  simpl. by apply IH, remove_wf.
Qed.

Lemma set_owner_wf owner last s :
  wf lim s → (∀ e, owner = Some e → e = last) → last ≤ u64_max →
  wf lim (set_owner owner last s).
Proof. intros [Hc Hh] Ho Hl. split; [|done]. split; try apply Hc; done. Qed.

Lemma acquire_owner_wf s : wf lim s → wf lim (acquire_owner s).2.
Proof.
  intros Hwf. unfold acquire_owner. destruct (is_some _); [done|].
  destruct (checked_add _ _ _) as [e|] eqn:He; [|done].
  apply checked_add_Some in He as [-> He]. apply set_owner_wf; [done|naive_solver|done].
Qed.

Lemma release_owner_wf epoch s : wf lim s → wf lim (release_owner epoch s).2.
Proof.
  intros Hwf. unfold release_owner. destruct (negb _); [done|].
  apply set_owner_wf; [done|done|apply Hwf].
Qed.
End preservation.
