(* ===== verification/MemoryHistory.v ===== *)
(** * The in-memory task store: histories

    One step of the store is one call of one of its methods.  Histories are
    finite sequences of steps by any number of callers, since every method is
    atomic.  Along every history the invariant holds, accepted work is not
    lost, and each task follows its lifecycle. *)

From S2P Require Import Prelude TaskState Model MemoryStore MemoryInvariant MemoryPreservation.

Section history.
Context `{ET : !ExternalTypes, SJ : !SnapshotJson}.
Implicit Types (s : MemoryState) (task : StoredTask) (t : TaskSummary).
Implicit Types (id : TaskId) (r : StoredTaskRequest).

(** ** Steps *)

Inductive memory_step (lim : MemoryLimits) : relation MemoryState :=
| step_accept now id r s : memory_step lim s (accept_encoded lim now id r s).2
| step_start c s : memory_step lim s (start_encoded c s).2
| step_transition c s : memory_step lim s (transition_encoded lim c s).2
| step_progress c s : memory_step lim s (update_progress c s).2
| step_prune before rows s : memory_step lim s (prune_terminal_before before rows s).2
| step_acquire s : memory_step lim s (acquire_owner s).2
| step_release epoch s : memory_step lim s (release_owner epoch s).2.

(** ** What one step does to one task *)

Inductive task_evolves (t t' : TaskSummary) : Prop :=
| evolves_same : t' = t → task_evolves t t'
| evolves_start at_ms :
    ts_state t = Queued →
    ts_attempt t + 1 ≤ u32_max → ts_state_version t + 1 ≤ u64_max →
    t' = started_summary (ts_attempt t + 1) at_ms
           (with_state_version (ts_state_version t + 1) t) →
    task_evolves t t'
| evolves_attempts_exhausted :
    ts_state t = Queued → u32_max < ts_attempt t + 1 →
    ts_state_version t + 1 ≤ u64_max →
    t' = with_state_version (ts_state_version t + 1) t → task_evolves t t'
| evolves_transition c :
    transition_allowed c t → ts_state_version t + 1 ≤ u64_max →
    t' = settle_state c (ts_state_version t + 1) (enter_state c t) →
    task_evolves t t'
| evolves_version_exhausted c :
    transition_allowed c t → u64_max < ts_state_version t + 1 →
    t' = enter_state c t → task_evolves t t'
| evolves_progress p :
    ts_state t = Running → tps_attempt p = ts_attempt t →
    (∀ q, ts_progress t = Some q → tps_progress_version q < tps_progress_version p) →
    t' = with_progress p t → task_evolves t t'.

Lemma put_summary_lookup id task t s id' :
  ms_encoded_tasks (put_summary id task t s) !! id' =
  if decide (id = id') then Some {| st_request := st_request task; st_summary := t |}
  else ms_encoded_tasks s !! id'.
Proof. apply lookup_insert. Qed.

Lemma removed_lookup id s id' :
  ms_encoded_tasks (remove_encoded_task id s).2 !! id' =
  if decide (id = id') then None else ms_encoded_tasks s !! id'.
Proof.
  unfold remove_encoded_task. destruct (ms_encoded_tasks s !! id) eqn:Hid; simpl.
  - apply lookup_delete.
  - case_decide; congruence.
Qed.

Lemma removed_all_lookup l s id :
  ms_encoded_tasks (foldl (λ s' id, (remove_encoded_task id s').2) s l) !! id =
  if decide (id ∈ l) then None else ms_encoded_tasks s !! id.
Proof.
  revert s. induction l as [|a l IH]; intros s; simpl; [done|].
  rewrite IH, removed_lookup. repeat case_decide; set_solver.
Qed.

(** ** Ownership *)

Lemma acquire_ok s s' e :
  acquire_owner s = (Ok e, s') →
  ms_owner_epoch s = None ∧ e = ms_last_owner_epoch s + 1 ∧
  ms_owner_epoch s' = Some e ∧ ms_last_owner_epoch s' = e.
Proof.
  unfold acquire_owner. destruct (ms_owner_epoch s) eqn:Ho; [done|]. simpl.
  destruct (checked_add _ _ _) as [e'|] eqn:He; [|done]. intros [= <- <-].
  by apply checked_add_Some in He as [-> _].
Qed.

Lemma remove_owner id s :
  ms_owner_epoch (remove_encoded_task id s).2 = ms_owner_epoch s ∧
  ms_last_owner_epoch (remove_encoded_task id s).2 = ms_last_owner_epoch s.
Proof. unfold remove_encoded_task. by destruct (ms_encoded_tasks s !! id). Qed.

Lemma removed_owner l s :
  let s' := foldl (λ s' id, (remove_encoded_task id s').2) s l in
  ms_owner_epoch s' = ms_owner_epoch s ∧ ms_last_owner_epoch s' = ms_last_owner_epoch s.
Proof.
  revert s. induction l as [|a l IH]; intros s; simpl; [done|].
  destruct (IH (remove_encoded_task a s).2) as [-> ->]. apply remove_owner.
Qed.

Lemma evict_while_owner again fuel s :
  ms_owner_epoch (evict_while again fuel s).2 = ms_owner_epoch s ∧
  ms_last_owner_epoch (evict_while again fuel s).2 = ms_last_owner_epoch s.
Proof.
  revert s. induction fuel as [|fuel IH]; intros s; simpl; destruct (again s); try done.
  unfold evict_oldest_encoded_terminal. destruct (ms_encoded_terminal_order s) as [|a l]; [done|].
  pose proof (remove_owner a s) as [Ho Hl]. destruct (remove_encoded_task a s) as [x s'].
  simpl in *. rewrite <- Ho, <- Hl. by destruct (is_some x).
Qed.

Lemma accept_epoch lim now id r s :
  ms_last_owner_epoch (accept_encoded lim now id r s).2 = ms_last_owner_epoch s.
Proof.
  unfold accept_encoded. destruct (_ || _); [done|]. destruct (_ ≫= _) as [id'|].
  { destruct (ms_encoded_tasks s !! id'); [|done]. by destruct (negb _). }
  unfold accept_new. destruct (is_some _); [done|]. destruct (_ <=? _); [done|].
  destruct (is_none_or _ _); [done|]. unfold evict_loop.
  pose proof (evict_while_owner (λ s', usize_sub (ml_max_payload_bytes lim)
    (bytes_len (sp_bytes (sr_payload r))) <? ms_retained_payload_bytes s')
    (S (length (ms_encoded_terminal_order s))) s) as [_ Hl].
  by destruct (evict_while _ _ s) as [[] s'].
Qed.

Lemma transition_epoch lim c s :
  ms_last_owner_epoch (transition_encoded lim c s).2 = ms_last_owner_epoch s.
Proof.
  destruct (transition_cases lim c s) as [[e ->]|(task & _ & _ & [[_ ->]|[_ ->]])]; [done..|].
  cbn zeta. destruct (_ && _); [|done]. simpl.
  unfold record_terminal, evict_loop. by rewrite (proj2 (evict_while_owner _ _ _)).
Qed.

Lemma step_epoch lim s s' :
  memory_step lim s s' → ms_last_owner_epoch s ≤ ms_last_owner_epoch s'.
Proof.
  intros [now id r s0|c s0|c s0|c s0|before rows s0|s0|e s0].
  - by rewrite accept_epoch.
  - unfold start_encoded. split_matches; lia.
  - by rewrite transition_epoch.
  - unfold update_progress. split_matches; lia.
  - simpl. by destruct (removed_owner (prune_expired before rows s0) s0) as [_ ->].
  - unfold acquire_owner. split_matches; try lia.
    apply checked_add_Some in Heqo as [-> _]. lia.
  - unfold release_owner. split_matches; lia.
Qed.

Section with_limits.
Context (lim : MemoryLimits) (Hlim : limits_ok lim).

(** A task that a step leaves in the store keeps its request and evolves; one
    that the step removes was terminal, or became so in that step in a store
    that keeps no history. *)
Definition task_kept task (o : option StoredTask) : Prop :=
  match o with
  | Some task' => st_request task' = st_request task ∧
                  task_evolves (st_summary task) (st_summary task')
  | None => task_terminal task = true ∨
            ml_history_capacity lim = 0 ∧
            ∃ t', task_evolves (st_summary task) t' ∧ is_terminal (ts_state t') = true
  end.

Lemma task_kept_refl task : task_kept task (Some task).
Proof. split; [done|by constructor]. Qed.

Lemma put_summary_kept id0 task0 t0 s id task :
  ms_encoded_tasks s !! id0 = Some task0 → task_evolves (st_summary task0) t0 →
  ms_encoded_tasks s !! id = Some task →
  task_kept task (ms_encoded_tasks (put_summary id0 task0 t0 s) !! id).
Proof.
  intros H0 He Hid. rewrite put_summary_lookup. case_decide; [|rewrite Hid; apply task_kept_refl].
  subst. simplify_eq. by split.
Qed.

Lemma evicted_kept n s s' id task :
  core_wf lim s → evicted lim n s s' → ms_encoded_tasks s !! id = Some task →
  task_kept task (ms_encoded_tasks s' !! id).
Proof.
  intros Hwf Hev Hid. destruct (task_terminal task) eqn:Ht.
  - destruct (ms_encoded_tasks s' !! id) as [task'|] eqn:Hid'.
    + apply (evicted_subset lim n s s') in Hid'; [|done]. simplify_eq. apply task_kept_refl.
    + by left.
  - rewrite (evicted_nonterminal lim Hlim n s s' id task) by done. apply task_kept_refl.
Qed.

Lemma accept_kept now id0 r s id task :
  wf lim s → ms_encoded_tasks s !! id = Some task →
  task_kept task (ms_encoded_tasks (accept_encoded lim now id0 r s).2 !! id).
Proof.
  intros Hwf Hid. assert (task_kept task (ms_encoded_tasks s !! id)) as Hsame.
  { rewrite Hid. apply task_kept_refl. }
  unfold accept_encoded. destruct (_ || _); [done|].
  destruct (_ ≫= _) as [existing_id|] eqn:Hm.
  { destruct (ms_encoded_tasks s !! existing_id); [|done]. by destruct (negb _). }
  pose proof (accept_new_spec lim Hlim now id0 r s Hwf (idempotency_miss r s Hm)) as Hs.
  destruct (accept_new_verdict lim id0 r _) eqn:Hv; [by rewrite Hs|].
  destruct Hs as (n & s1 & Hev & _ & _ & -> & _). simpl. rewrite lookup_insert_ne.
  - apply (evicted_kept n s); [apply Hwf|done|done].
  - intros ->. unfold accept_new_verdict in Hv. by rewrite Hid in Hv.
Qed.

Lemma start_kept c s id task :
  ms_encoded_tasks s !! id = Some task →
  task_kept task (ms_encoded_tasks (start_encoded c s).2 !! id).
Proof.
  intros Hid. assert (task_kept task (ms_encoded_tasks s !! id)) as Hsame.
  { rewrite Hid. apply task_kept_refl. }
  unfold start_encoded. destruct (ms_encoded_tasks s !! sc_id c) as [task0|] eqn:H0; [|done].
  destruct (_ || _) eqn:Hg; [done|]. bool_prop. destruct Hg as [_ Hq].
  destruct (checked_add u64_max _ 1) as [v|] eqn:Hv; [|done].
  apply checked_add_Some in Hv as [-> Hv].
  destruct (checked_add u32_max _ 1) as [a|] eqn:Ha; simpl.
  - apply checked_add_Some in Ha as [-> Ha].
    apply put_summary_kept; [done| |done]. by eapply evolves_start.
  - apply checked_add_None in Ha.
    apply put_summary_kept; [done| |done]. by eapply evolves_attempts_exhausted.
Qed.

Lemma transition_kept c s id task :
  wf lim s → ms_encoded_tasks s !! id = Some task →
  task_kept task (ms_encoded_tasks (transition_encoded lim c s).2 !! id).
Proof.
  intros [Hwf Hh] Hid.
  destruct (transition_cases lim c s) as [[e ->]|(task0 & H0 & Hc & [[Hv ->]|[Hv ->]])]; simpl.
  - rewrite Hid. apply task_kept_refl.
  - apply put_summary_kept; [done| |done]. by eapply evolves_version_exhausted.
  - pose proof (settled_task_wf _ _ c _ (cwf_task lim s Hwf _ _ H0) Hc Hv) as Htw.
    set (t2 := settle_state _ _ _) in *.
    assert (task_evolves (st_summary task0) t2) as Hev by (by eapply evolves_transition).
    destruct (_ && _) eqn:Hterm; [|by apply put_summary_kept].
    bool_prop. destruct Hterm as [Hold Hnew].
    edestruct (record_terminal_spec lim Hlim (tc_id c) task0 t2 s) as (n & Hevd & _ & Hn); [done..|].
    pose proof (terminalize_core_wf lim Hlim (tc_id c) task0 t2 s Hwf H0 Htw Hold Hnew) as Hc1.
    destruct (decide (tc_id c = id)) as [<-|Hne].
    + simplify_eq. set (task1 := {| st_request := st_request task; st_summary := t2 |}) in *.
      assert (ms_encoded_tasks (terminalize (tc_id c) task t2 s) !! tc_id c = Some task1) as H1.
      { apply lookup_insert_eq. }
      destruct (ms_encoded_tasks (record_terminal lim _ _) !! tc_id c) as [task'|] eqn:H'.
      * pose proof (evicted_subset _ _ _ _ _ _ Hevd H'). simplify_eq. by split.
      * right. split; [|by exists t2].
        assert (tc_id c ∈ take n (ms_encoded_terminal_order s ++ [tc_id c])) as Hin.
        { destruct (decide (tc_id c ∈ take n (ms_encoded_terminal_order s ++ [tc_id c]))); [done|].
          rewrite (ev_kept _ _ _ _ Hevd) in H'; [congruence|done]. }
        destruct (decide (n ≤ length (ms_encoded_terminal_order s))%nat) as [Hle|]; [|lia].
        rewrite take_app_le in Hin by done. apply subseteq_take in Hin.
        apply (cwf_order lim s Hwf) in Hin as (task2 & ? & ?).
        unfold task_terminal in *. congruence.
    + eapply evicted_kept; [done|done|]. by rewrite <- Hid; apply lookup_insert_ne.
Qed.

Lemma progress_kept c s id task :
  ms_encoded_tasks s !! id = Some task →
  task_kept task (ms_encoded_tasks (update_progress c s).2 !! id).
Proof.
  intros Hid. assert (task_kept task (ms_encoded_tasks s !! id)) as Hsame.
  { rewrite Hid. apply task_kept_refl. }
  unfold update_progress. destruct (from_command _ c) as [p|] eqn:Hp; [|done].
  destruct (ms_encoded_tasks s !! pc_id c) as [task0|] eqn:H0; [|done].
  destruct (_ || _) eqn:Hg; [done|]. bool_prop. destruct Hg as [[Hr Ha] Hver].
  apply put_summary_kept; [done| |done]. simpl.
  apply from_command_attempt in Hp as [Hp1 Hp2].
  eapply (evolves_progress _ _ p); [done|congruence| |done].
  intros q Hq. rewrite is_some_and_false in Hver. specialize (Hver q Hq).
  bool_prop. lia.
Qed.

(** Pruning selects terminal tasks that finished before the cutoff. *)
Lemma elem_of_prune_expired before rows s id :
  core_wf lim s → id ∈ prune_expired before rows s →
  ∃ task f, ms_encoded_tasks s !! id = Some task ∧ task_terminal task = true ∧
    ts_finished_at_ms (st_summary task) = Some f ∧ f < before.
Proof.
  intros Hwf Hid. unfold prune_expired in Hid.
  apply list_elem_of_fmap in Hid as ([f id'] & -> & Hin). simpl.
  apply (subseteq_take (N.to_nat rows)) in Hin.
  rewrite sort_by_Permutation in Hin. apply list_elem_of_omap in Hin as (t & Ht & Hp).
  apply list_elem_of_fmap in Ht as (task & -> & Hb).
  apply elem_of_btree_values in Hb as [k Hk].
  pose proof (twf_id _ _ (cwf_task lim s Hwf k task Hk)) as Hki.
  unfold prune_candidate in Hp.
  destruct (ts_finished_at_ms (st_summary task)) as [f'|] eqn:Hf; simpl in Hp; [|done].
  destruct (_ && _) eqn:Hg; [|done]. bool_prop. simplify_eq.
  exists task, f. naive_solver.
Qed.

Lemma prune_kept before rows s id task :
  core_wf lim s → ms_encoded_tasks s !! id = Some task →
  task_kept task (ms_encoded_tasks (prune_terminal_before before rows s).2 !! id).
Proof.
  intros Hwf Hid. unfold prune_terminal_before. simpl. rewrite removed_all_lookup.
  case_decide as Hin; [|rewrite Hid; apply task_kept_refl].
  apply elem_of_prune_expired in Hin as (task' & f & ? & ? & _); [|done]. simplify_eq.
  by left.
Qed.

Lemma owner_tasks owner last s :
  ms_encoded_tasks (set_owner owner last s) = ms_encoded_tasks s.
Proof. done. Qed.

(** What any step does to a task that was in the store. *)
Lemma step_kept s s' id task :
  wf lim s → memory_step lim s s' → ms_encoded_tasks s !! id = Some task →
  task_kept task (ms_encoded_tasks s' !! id).
Proof.
  intros Hwf Hstep Hid. assert (task_kept task (ms_encoded_tasks s !! id)) as Hsame.
  { rewrite Hid. apply task_kept_refl. }
  destruct Hstep.
  - by apply accept_kept.
  - by apply start_kept.
  - by apply transition_kept.
  - by apply progress_kept.
  - apply prune_kept; [apply Hwf|done].
  - unfold acquire_owner. destruct (is_some _); [done|]. by destruct (checked_add _ _ _).
  - unfold release_owner. by destruct (negb _).
Qed.

(** A task that a step adds was just accepted. *)
Lemma step_new s s' id task' :
  wf lim s → memory_step lim s s' → ms_encoded_tasks s !! id = None →
  ms_encoded_tasks s' !! id = Some task' →
  ∃ now r, task' = {| st_request := r; st_summary := accepted_summary now id r |}.
Proof.
  intros Hwf Hstep Hid Hid'. destruct Hstep.
  - unfold accept_encoded in Hid'. destruct (_ || _); [simpl in Hid'; congruence|].
    destruct (_ ≫= _) as [existing_id|] eqn:Hm.
    { destruct (ms_encoded_tasks s !! existing_id); [|simpl in Hid'; congruence].
      destruct (negb _); simpl in Hid'; congruence. }
    pose proof (accept_new_spec lim Hlim now id0 r s Hwf (idempotency_miss r s Hm)) as Hs.
    destruct (accept_new_verdict lim id0 r _) eqn:Hv; [rewrite Hs in Hid'; simpl in Hid'; congruence|].
    destruct Hs as (n & s1 & Hev & _ & _ & Heq & _). rewrite Heq in Hid'. simpl in Hid'.
    apply lookup_insert_Some in Hid' as [[<- <-]|[_ Hid']]; [by eauto|].
    apply (evicted_subset lim n s s1) in Hid'; [congruence|done].
  - unfold start_encoded in Hid'. split_matches; rewrite ?lookup_insert in *;
      try case_decide; congruence.
  - destruct (transition_cases lim c s) as [[e Heq]|(task0 & H0 & Hc & [[Hv Heq]|[Hv Heq]])];
      rewrite Heq in Hid'; simpl in Hid'.
    + congruence.
    + rewrite lookup_insert in Hid'. case_decide; congruence.
    + pose proof (settled_task_wf _ _ c _ (cwf_task lim s (wf_core _ _ Hwf) _ _ H0) Hc Hv) as Htw.
      set (t2 := settle_state _ _ _) in *. destruct (_ && _) eqn:Hterm.
      * bool_prop. destruct Hterm.
        edestruct (record_terminal_spec lim Hlim (tc_id c) task0 t2 s) as (n & Hevd & _ & _);
          [apply Hwf|done..|].
        apply (evicted_subset _ _ _ _ _ _ Hevd) in Hid'.
        simpl in Hid'.
        rewrite lookup_insert in Hid'. case_decide; congruence.
      * simpl in Hid'. rewrite lookup_insert in Hid'. case_decide; congruence.
  - unfold update_progress in Hid'. split_matches; rewrite ?lookup_insert in *;
      try case_decide; congruence.
  - unfold prune_terminal_before in Hid'. simpl in Hid'. rewrite removed_all_lookup in Hid'.
    case_decide; congruence.
  - unfold acquire_owner in Hid'. split_matches; simpl in *; congruence.
  - unfold release_owner in Hid'. split_matches; congruence.
Qed.

(** ** One task along a history *)

(** What stays true of a task between two moments at which it is retained. *)
Record task_advances (task task' : StoredTask) : Prop := {
  adv_request : st_request task' = st_request task;
  adv_accepted_at :
    ts_accepted_at_ms (st_summary task') = ts_accepted_at_ms (st_summary task);
  adv_lifecycle : rtc lifecycle_step (ts_state (st_summary task)) (ts_state (st_summary task'));
  adv_version : ts_state_version (st_summary task) ≤ ts_state_version (st_summary task');
  (** an unchanged version means that only progress was written *)
  adv_same_version :
    ts_state_version (st_summary task') = ts_state_version (st_summary task) →
    ts_state (st_summary task') = ts_state (st_summary task) ∧
    ts_attempt (st_summary task') = ts_attempt (st_summary task) ∧
    ts_output (st_summary task') = ts_output (st_summary task) ∧
    ts_cancel_requested (st_summary task') = ts_cancel_requested (st_summary task) ∧
    ts_finished_at_ms (st_summary task') = ts_finished_at_ms (st_summary task);
  adv_attempt : ts_attempt (st_summary task) ≤ ts_attempt (st_summary task');
  (** within one attempt progress only moves forward *)
  adv_progress : ∀ p,
    ts_attempt (st_summary task') = ts_attempt (st_summary task) →
    ts_progress (st_summary task) = Some p →
    ∃ p', ts_progress (st_summary task') = Some p' ∧
          tps_progress_version p ≤ tps_progress_version p';
  (** an output, once stored, is never replaced *)
  adv_output : ∀ o, ts_output (st_summary task) = Some o →
    ts_output (st_summary task') = Some o;
}.

#[global] Instance task_advances_preorder : PreOrder task_advances.
Proof.
  split.
  - intros task. split; try done. intros p _ Hp. by exists p.
  - intros a b c [] []. split; try congruence; try lia; try (by etrans); [..|naive_solver].
    + intros Hv. destruct adv_same_version0 as (?&?&?&?&?); [lia|].
      destruct adv_same_version1 as (?&?&?&?&?); [lia|]. split_and!; congruence.
    + intros p Ha Hp. destruct (adv_progress0 p) as (p1 & Hp1 & ?); [lia|done|].
      destruct (adv_progress1 p1) as (p2 & Hp2 & ?); [lia|done|].
      exists p2. split; [done|lia].
Qed.

Lemma evolves_advances r t t' :
  lifecycle_wf t → ts_state_version t + 1 ≤ u64_max → task_evolves t t' →
  task_advances {| st_request := r; st_summary := t |} {| st_request := r; st_summary := t' |}.
Proof.
  intros Hl Hv He. destruct He as [->|at_ms Hq Ha _ ->|Hq Ha _ ->|c Hc _ ->|c Hc Hx ->|p Hr Hp Hlt ->].
  - reflexivity.
  - destruct (lifecycle_queued _ Hl Hq) as [Ho _]. split; simpl; try done; try lia.
    apply rtc_once. by rewrite Hq; constructor.
  - split; simpl; try done; try lia. intros p _ Hp. by exists p.
  - split; simpl; try done; try lia.
    + destruct (ta_step _ _ Hc) as [Hs|(_&->&_)]; [|done]. by apply rtc_once; constructor.
    + intros p _ Hp. by exists p.
    + intros o Ho. destruct (lwf_output _ Hl o Ho) as [Hs _].
      destruct (tc_output c) as [o'|] eqn:Hc'; [|done].
      pose proof (ta_output_once _ _ Hc) as Honce. rewrite Hs in Honce. naive_solver.
  - lia.
  - split; simpl; try done; try lia. intros q _ Hq. exists p. split; [done|].
    specialize (Hlt q Hq). lia.
Qed.

Lemma evolves_version t t' :
  task_evolves t t' → ts_state_version t' ≤ ts_state_version t + 1.
Proof. intros []; subst; simpl; lia. Qed.

(** ** Versions count steps *)

Definition versions_below (n : N) s : Prop :=
  ∀ id task, ms_encoded_tasks s !! id = Some task → ts_state_version (st_summary task) ≤ n.

Lemma step_versions n s s' :
  wf lim s → memory_step lim s s' → versions_below n s → versions_below (n + 1) s'.
Proof.
  intros Hwf Hstep Hn id task' Hid'. destruct (ms_encoded_tasks s !! id) as [task|] eqn:Hid.
  - pose proof (step_kept _ _ _ _ Hwf Hstep Hid) as Hk. rewrite Hid' in Hk.
    destruct Hk as [_ Hv%evolves_version]. specialize (Hn id task Hid). lia.
  - destruct (step_new _ _ _ _ Hwf Hstep Hid Hid') as (now & r & ->). simpl. lia.
Qed.

Lemma transition_overflow c s s' :
  transition_encoded lim c s = (Err (Failure "task state version overflow"), s') →
  ∃ task, ms_encoded_tasks s !! tc_id c = Some task ∧
    u64_max < ts_state_version (st_summary task) + 1.
Proof.
  unfold transition_encoded, validate_encoded_output. intros Hx.
  destruct (ms_encoded_tasks s !! tc_id c) as [task|]; [|by split_matches].
  exists task. split; [done|]. apply checked_add_None.
  destruct (checked_add _ _ _); [by split_matches|done].
Qed.

Lemma step_wf n s s' :
  wf lim s → versions_below n s → n + 1 ≤ u64_max → memory_step lim s s' → wf lim s'.
Proof.
  intros Hwf Hn Hmax Hstep. destruct Hstep.
  - by apply accept_encoded_wf.
  - by apply start_encoded_wf.
  - apply transition_encoded_wf; [done..|].
    destruct (transition_cases lim c s) as [[e He]|(task & Hid & _ & [[Hv _]|[_ ->]])]; [|..|done].
    + intros Hx. rewrite He in Hx. simplify_eq/=. apply transition_overflow in He as (task & Hid & Hv).
      specialize (Hn _ _ Hid). lia.
    + specialize (Hn _ _ Hid). lia.
  - by apply update_progress_wf.
  - by apply prune_terminal_before_wf.
  - by apply acquire_owner_wf.
  - by apply release_owner_wf.
Qed.

(** A store after [n] calls. *)
Definition reachable (n : nat) s : Prop := nsteps (memory_step lim) n memory_state_new s.

Lemma reachable_inv n s :
  reachable n s → N.of_nat n ≤ u64_max → wf lim s ∧ versions_below (N.of_nat n) s.
Proof.
  revert s. induction n as [|n IH]; intros s Hr Hn.
  - inversion Hr; subst. split; [apply wf_new|]. intros id task Hid.
    simpl in Hid. by apply lookup_empty_Some in Hid.
  - apply nsteps_inv_r in Hr as (s1 & Hr & Hstep). destruct (IH s1 Hr) as [Hwf Hv]; [lia|].
    split; [eapply step_wf; [done|done|lia|done]|].
    replace (N.of_nat (S n)) with (N.of_nat n + 1) by lia. by eapply step_versions.
Qed.

(** A step at whose end the task [id] is retained. *)
Definition retaining_step id : relation MemoryState :=
  λ s s', memory_step lim s s' ∧ is_Some (ms_encoded_tasks s' !! id).

Lemma retaining_advances id n m s s' task task' :
  reachable n s → nsteps (retaining_step id) m s s' → N.of_nat (n + m) ≤ u64_max →
  ms_encoded_tasks s !! id = Some task → ms_encoded_tasks s' !! id = Some task' →
  task_advances task task'.
Proof.
  revert n s task. induction m as [|m IH]; intros n s task Hr Hs Hmax Hid Hid'.
  { inversion Hs; subst. simplify_eq. reflexivity. }
  inversion Hs as [|? ? s1 ? [Hstep [task1 Hid1]] Hs1]; subst.
  destruct (reachable_inv n s Hr) as [Hwf Hv]; [lia|].
  pose proof (step_kept _ _ _ _ Hwf Hstep Hid) as Hk. rewrite Hid1 in Hk.
  destruct Hk as [Hreq He]. specialize (Hv id task Hid).
  transitivity task1.
  - destruct task as [r t], task1 as [r1 t1]. simpl in *. subst r1.
    eapply evolves_advances; [|lia|done].
    exact (twf_lifecycle _ _ (cwf_task lim s (wf_core _ _ Hwf) _ _ Hid)).
  - eapply (IH (S n) s1); [|done|lia|done|done]. by eapply nsteps_r.
Qed.

Lemma unfinished_survives s s' id task :
  wf lim s → 1 ≤ ml_history_capacity lim → memory_step lim s s' →
  ms_encoded_tasks s !! id = Some task → task_terminal task = false →
  is_Some (ms_encoded_tasks s' !! id).
Proof.
  intros Hwf Hcap Hstep Hid Ht. pose proof (step_kept _ _ _ _ Hwf Hstep Hid) as Hk.
  destruct (ms_encoded_tasks s' !! id) as [task'|]; [by eauto|].
  destruct Hk as [Hk|[Hk _]]; [congruence|lia].
Qed.
End with_limits.
End history.
