(* ===== verification/MemoryQueries.v ===== *)
(** * The in-memory task store: pages

    [list_encoded] keeps a bounded heap of keys instead of sorting every
    record; here it is shown to return what sorting and truncating would.
    Following the returned cursors visits every matching record once. *)

From S2P Require Import Prelude TaskState Model MemoryStore MemoryInvariant.

(** ** The bounded heap *)

Section heap.
Implicit Types (h ks rest : list (N * N)) (k : N * N).

Definition descending h : Prop := StronglySorted (flip key_le) h.

Lemma heap_push_Permutation k h : heap_push k h ≡ₚ k :: h.
Proof.
  induction h as [|k' h IH]; simpl; [done|]. destruct (key_ltb k k'); [|done].
  rewrite IH. apply Permutation_swap.
Qed.

Lemma heap_push_descending k h : descending h → descending (heap_push k h).
Proof.
  induction 1 as [|k' h Hs IH Hf]; simpl; [by repeat constructor|].
  destruct (key_ltb k k') eqn:Hlt; bool_prop.
  - constructor; [done|]. rewrite heap_push_Permutation. constructor; [|done].
    by apply key_lt_le.
  - constructor; [by constructor|]. constructor; [done|].
    eapply Forall_impl; [done|]. intros k'' Hle. simpl in *. by etrans.
Qed.

(** The heap holds the least keys seen so far, [rest] the others. *)
Record heap_inv (n : N) ks h rest : Prop := {
  hi_descending : descending h;
  hi_split : h ++ rest ≡ₚ ks;
  hi_least : ∀ a b, a ∈ h → b ∈ rest → key_le a b;
  hi_size : N.of_nat (length h) ≤ n;
  hi_full : N.of_nat (length h) < n → rest = [];
}.

Lemma heap_inv_offer n ks h rest k :
  1 ≤ n → heap_inv n ks h rest → ∃ rest', heap_inv n (ks ++ [k]) (heap_offer n h k) rest'.
Proof.
  intros Hn [Hd Hp Hl Hs Hf]. unfold heap_offer. destruct (_ <? n) eqn:Hlen; bool_prop.
  - specialize (Hf Hlen) as ->. exists []. split.
    + by apply heap_push_descending.
    + rewrite heap_push_Permutation, <- Hp, !app_nil_r. solve_Permutation.
    + set_solver.
    + rewrite heap_push_Permutation. simpl. lia.
    + done.
  - destruct h as [|m h]; [simpl in *; lia|]. simpl.
    pose proof (StronglySorted_inv Hd) as [Hd' Hm]. rewrite Forall_forall in Hm.
    destruct (key_ltb k m) eqn:Hlt; bool_prop.
    + exists (m :: rest). split.
      * by apply heap_push_descending.
      * rewrite heap_push_Permutation, <- Hp. solve_Permutation.
      * intros a b. rewrite heap_push_Permutation.
        assert (key_le k m) by (by apply key_lt_le).
        intros [->|Ha]%elem_of_cons [->|Hb]%elem_of_cons; [done|..].
        -- transitivity m; [done|]. apply Hl; [set_solver|done].
        -- by apply Hm.
        -- apply Hl; [set_solver|done].
      * rewrite heap_push_Permutation. simpl in *. lia.
      * rewrite heap_push_Permutation. simpl in *. lia.
    + exists (k :: rest). split; try done.
      * rewrite <- Hp. solve_Permutation.
      * intros a b Ha [->|Hb]%elem_of_cons; [|by apply Hl].
        apply elem_of_cons in Ha as [->|Ha]; [done|].
        transitivity m; [by apply Hm|done].
      * simpl in *. lia.
Qed.

Lemma heap_inv_fold n ks : 
  1 ≤ n → ∃ rest, heap_inv n ks (foldl (heap_offer n) [] ks) rest.
Proof.
  intros Hn. induction ks as [|k ks [rest IH]] using rev_ind.
  - exists []. split; simpl; [apply SSorted_nil|done|set_solver|lia|done].
  - rewrite foldl_app. simpl. by eapply heap_inv_offer.
Qed.

(** Sorting the heap's contents gives the [n] least keys. *)
Lemma heap_selects n ks :
  1 ≤ n → NoDup ks →
  sort_by key_le id (foldl (heap_offer n) [] ks) =
  take (N.to_nat n) (sort_by key_le id ks).
Proof.
  intros Hn Hnd. destruct (heap_inv_fold n ks Hn) as [rest [_ Hp Hl Hs Hf]].
  set (h := foldl _ _ _) in *.
  rewrite (sort_by_unique key_le id (sort_by key_le id h ++ sort_by key_le id rest) ks).
  - destruct (decide (N.of_nat (length h) < n)) as [Hlt|Hge].
    + rewrite (Hf Hlt). change (sort_by key_le id []) with (@nil (N * N)).
      rewrite app_nil_r, take_ge; [done|]. rewrite sort_by_Permutation. lia.
    + rewrite take_app_length'; [done|]. rewrite sort_by_Permutation. lia.
  - rewrite list_fmap_id, !sort_by_Permutation. by rewrite Hp.
  - apply StronglySorted_app.
    split_and!; [by apply (sort_by_StronglySorted _ _)..|].
    intros x y. rewrite !sort_by_Permutation. apply Hl.
  - by rewrite !sort_by_Permutation.
Qed.
End heap.

Section selections.
Context `{ET : !ExternalTypes, SJ : !SnapshotJson}.
Implicit Types (m : gmap TaskId StoredTask) (t : TaskSummary) (q : TaskQuery).

(** Tasks are stored under their identifiers. *)
Definition ids_match m : Prop := ∀ id task, m !! id = Some task → ts_id (st_summary task) = id.

(** ** The retained summaries *)

Definition summaries (m : gmap TaskId StoredTask) : list TaskSummary :=
  st_summary <$> btree_values N.le m.

Lemma elem_of_summaries m t :
  ids_match m →
  t ∈ summaries m ↔ ∃ task, m !! ts_id t = Some task ∧ st_summary task = t.
Proof.
  intros Hwf. unfold summaries. rewrite list_elem_of_fmap. setoid_rewrite elem_of_btree_values.
  split.
  - intros (task & -> & k & Hk). exists task. split; [|done].
    by rewrite (Hwf k task Hk).
  - intros (task & Hid & <-). eauto.
Qed.

Lemma summaries_ids m :
  ids_match m → ts_id <$> summaries m = btree_keys N.le m.
Proof.
  intros Hwf. unfold summaries, btree_values, btree_keys. rewrite <- !list_fmap_compose.
  apply list_fmap_ext. intros i [k task] Hi. simpl.
  apply list_elem_of_lookup_2, elem_of_btree_entries in Hi.
  apply (Hwf k task Hi).
Qed.

Lemma summaries_keys_NoDup m : ids_match m → NoDup (ts_key <$> summaries m).
Proof.
  intros Hwf. apply (NoDup_fmap_1 snd). rewrite <- list_fmap_compose.
  change (snd ∘ ts_key) with ts_id. rewrite summaries_ids by done. apply NoDup_btree_keys.
Qed.

(** The records a query selects, in page order. *)
Definition selection q (m : gmap TaskId StoredTask) : list TaskSummary :=
  sort_by key_le ts_key (filter (λ t, query_matches q t) (summaries m)).

Lemma elem_of_selection q m t :
  ids_match m →
  t ∈ selection q m ↔ query_matches q t = true ∧
    ∃ task, m !! ts_id t = Some task ∧ st_summary task = t.
Proof.
  intros Hwf. unfold selection. rewrite sort_by_Permutation, list_elem_of_filter.
  rewrite elem_of_summaries by done. by rewrite Is_true_true.
Qed.

Lemma selection_NoDup q m : ids_match m → NoDup (ts_key <$> selection q m).
Proof. intros. by apply sort_by_keys_NoDup, NoDup_fmap_filter, summaries_keys_NoDup. Qed.

Lemma selection_sorted q m : StronglySorted (key_rel key_le ts_key) (selection q m).
Proof. apply sort_by_StronglySorted; apply _. Qed.

Lemma selection_ids_NoDup q m :
  ids_match m → NoDup (ts_id <$> selection q m).
Proof.
  intros Hwf. unfold selection. rewrite sort_by_Permutation.
  apply NoDup_fmap_filter. rewrite summaries_ids by done. apply NoDup_btree_keys.
Qed.

Lemma selection_length q m :
  (length (selection q m) ≤ size m)%nat.
Proof.
  unfold selection. rewrite sort_by_Permutation. etrans; [apply length_filter|].
  unfold summaries, btree_values. rewrite !length_fmap, btree_entries_Permutation.
  by rewrite length_map_to_list.
Qed.

(** ** Following cursors *)

Definition with_after (c : TaskCursor) q : TaskQuery :=
  {| tq_states := tq_states q; tq_category := tq_category q;
     tq_correlation_key := tq_correlation_key q; tq_after := Some c;
     tq_limit := tq_limit q |}.

(** Moving the cursor to the end of a page leaves the rest of the selection. *)
Lemma selection_after q m n t :
  ids_match m → last (take n (selection q m)) = Some t →
  selection (with_after (TaskCursor_from t) q) m = drop n (selection q m).
Proof.
  intros Hwf Hlast. pose proof (selection_NoDup q m Hwf) as Hnd.
  pose proof (selection_sorted q m) as Hs.
  assert (t ∈ selection q m) as Ht.
  { apply (subseteq_take n). apply last_Some in Hlast as [l' ->]. set_solver. }
  apply elem_of_selection in Ht as [Hq _]; [|done].
  transitivity (filter (λ a, key_lt (ts_key t) (ts_key a)) (selection q m)).
  - unfold selection. rewrite <- sort_by_filter;
      [|apply _..|by apply NoDup_fmap_filter, summaries_keys_NoDup].
    rewrite list_filter_filter. f_equal. apply list_filter_iff. intros a.
    rewrite !Is_true_true. unfold query_matches in *. simpl. bool_prop.
    change (TaskCursor_key (TaskCursor_from t)) with (ts_key t).
    rewrite !is_none_or_true in *. destruct Hq as [_ Hq]. setoid_rewrite key_ltb_lt in Hq.
    setoid_rewrite key_ltb_lt. split; [|tauto].
    intros [[[? ?] ?] Hlt]. split_and!; try done. intros c Hc. etrans; [by apply Hq|done].
  - rewrite <- (take_drop n (selection q m)) at 1. apply filter_after_last; [..|done];
      by rewrite take_drop.
Qed.

End selections.

Section queries.
Context `{ET : !ExternalTypes, SJ : !SnapshotJson}.
Context (lim : MemoryLimits).
Implicit Types (s : MemoryState) (t : TaskSummary) (q : TaskQuery).

Lemma core_ids s : core_wf lim s → ids_match (ms_encoded_tasks s).
Proof. intros Hwf id task Hid. apply (twf_id _ _ (cwf_task lim s Hwf id task Hid)). Qed.

(** Looking the selected keys up again finds the summaries they came from. *)
Lemma omap_lookup_summaries s (l : list TaskSummary) :
  core_wf lim s → (∀ t, t ∈ l → t ∈ summaries (ms_encoded_tasks s)) →
  omap (λ key, st_summary <$> ms_encoded_tasks s !! key.2) (ts_key <$> l) = l.
Proof.
  intros Hwf. induction l as [|t l IH]; intros Hl; [done|].
  assert (t ∈ summaries (ms_encoded_tasks s)) as Ht by (apply Hl; set_solver).
  apply elem_of_summaries in Ht as (task & Hid & Hs); [|by apply core_ids]. cbn. rewrite Hid. cbn.
  rewrite Hs. f_equal. apply IH. intros t' Ht'. apply Hl. set_solver.
Qed.

Definition page_of (size : N) (l : list TaskSummary) : TaskPage :=
  {| pg_records := take (N.to_nat size) l;
     pg_next := if size <? N.of_nat (length l)
                then TaskCursor_from <$> last (take (N.to_nat size) l) else None |}.

Lemma page_size_bounds q size :
  checked_page_size q = Ok size → 1 ≤ size ∧ size ≤ 256.
Proof.
  unfold checked_page_size, MAX_TASK_QUERY_LIMIT. destruct (_ <? _) eqn:E; [done|].
  intros [= <-]. bool_prop. lia.
Qed.

(** The heap-based page is the page of the sorted selection. *)
Lemma list_encoded_page q s size :
  core_wf lim s → checked_page_size q = Ok size →
  list_encoded q s = Ok (page_of size (selection q (ms_encoded_tasks s))).
Proof.
  intros Hwf Hsize. destruct (page_size_bounds q size Hsize) as [H1 H256].
  unfold list_encoded. rewrite Hsize.
  assert (checked_add usize_max size 1 = Some (size + 1)) as ->.
  { apply checked_add_Some. unfold usize_max, u64_max. lia. }
  cbn [ok_or].
  fold (summaries (ms_encoded_tasks s)). set (m := filter (λ t, query_matches q t) (summaries (ms_encoded_tasks s))).
  assert (NoDup (ts_key <$> m)) as Hnd by (by apply NoDup_fmap_filter, summaries_keys_NoDup, core_ids).
  rewrite heap_selects; [|lia|done]. rewrite sort_by_fmap; [|apply _..|done].
  change (sort_by key_le ts_key m) with (selection q (ms_encoded_tasks s)). set (l := selection q (ms_encoded_tasks s)).
  assert (∀ n, omap (λ key, st_summary <$> ms_encoded_tasks s !! key.2)
    (ts_key <$> take n l) = take n l) as Hom.
  { intros n. apply omap_lookup_summaries; [done|]. intros t Ht%subseteq_take.
    apply elem_of_selection in Ht as [_ Ht]; [|by apply core_ids].
    by apply elem_of_summaries; [apply core_ids|]. }
  assert (N.of_nat (length (take (N.to_nat (size + 1)) (ts_key <$> l))) =
    N.min (size + 1) (N.of_nat (length l))) as Hlen.
  { rewrite length_take, length_fmap. lia. }
  rewrite Hlen. unfold page_of.
  assert ((size <? N.min (size + 1) (N.of_nat (length l))) =
          (size <? N.of_nat (length l))) as ->.
  { apply eq_iff_eq_true. bool_prop. lia. }
  rewrite <- fmap_take. destruct (size <? N.of_nat (length l)) eqn:Hmore; bool_prop.
  - rewrite <- fmap_take, take_take, Nat.min_l, Hom by lia. done.
  - rewrite Hom, (take_ge l), (take_ge l) by lia. done.
Qed.

(** A client that asks for the next page until there is none. *)
Fixpoint read_pages (fuel : nat) q s : option (list TaskSummary) :=
  match list_encoded q s with
  | Err _ => None
  | Ok page =>
      match pg_next page, fuel with
      | None, _ => Some (pg_records page)
      | Some _, O => None
      | Some c, S fuel' => app (pg_records page) <$> read_pages fuel' (with_after c q) s
      end
  end.

Lemma read_pages_selection q s size fuel :
  core_wf lim s → checked_page_size q = Ok size →
  (length (selection q (ms_encoded_tasks s)) ≤ fuel)%nat → read_pages fuel q s = Some (selection q (ms_encoded_tasks s)).
Proof.
  intros Hwf. revert q. induction fuel as [|fuel IH]; intros q Hsize Hfuel;
    destruct (page_size_bounds q size Hsize) as [H1 _]; simpl;
    rewrite (list_encoded_page q s size Hwf Hsize); unfold page_of; simpl;
    destruct (_ <? _) eqn:Hmore; bool_prop; try (by rewrite take_ge by lia); [lia|].
  destruct (last _) as [t|] eqn:Hlast; simpl.
  - pose proof (selection_after q _ _ t (core_ids s Hwf) Hlast) as Ha.
    rewrite (IH (with_after (TaskCursor_from t) q)); [|done|].
    + simpl. by rewrite Ha, take_drop.
    + rewrite Ha, length_drop. lia.
  - apply last_None in Hlast. apply (f_equal length) in Hlast.
    rewrite length_take in Hlast. simpl in Hlast. lia.
Qed.

(** ** Ready tasks *)

Definition ready_selection (after : option TaskCursor) (now : N)
    (m : gmap TaskId StoredTask) : list TaskSummary :=
  sort_by key_le ts_key (filter (λ t, ready_matches after now t) (summaries m)).

Lemma list_ready_queued_page after limit now s :
  list_ready_queued after limit now s =
  if 256 <? limit then Err (InvalidRequest "ready task page limit exceeds 256")
  else Ok (page_of limit (ready_selection after now (ms_encoded_tasks s))).
Proof. done. Qed.

Lemma elem_of_ready_selection after now s t :
  core_wf lim s →
  t ∈ ready_selection after now (ms_encoded_tasks s) ↔
    (∃ task, ms_encoded_tasks s !! ts_id t = Some task ∧ st_summary task = t) ∧
    ts_state t = Queued ∧
    (∀ d, ts_retry_not_before_ms t = Some d → d ≤ now) ∧
    (∀ c, after = Some c → key_lt (TaskCursor_key c) (ts_key t)).
Proof.
  intros Hwf. unfold ready_selection. rewrite sort_by_Permutation, list_elem_of_filter.
  rewrite elem_of_summaries, Is_true_true by (by apply core_ids). unfold ready_matches.
  bool_prop. rewrite !is_none_or_true. setoid_rewrite N.leb_le. setoid_rewrite key_ltb_lt. tauto.
Qed.

Lemma list_min_Some l d :
  list_min l = Some d ↔ d ∈ l ∧ ∀ d', d' ∈ l → d ≤ d'.
Proof.
  destruct l as [|x l]; simpl; [split; [done|intros [?%elem_of_nil _]; done]|].
  assert (∀ a, foldl N.min a l ∈ a :: l ∧ ∀ d', d' ∈ a :: l → foldl N.min a l ≤ d') as Hm.
  { induction l as [|y l IH]; intros a; simpl; [set_solver by lia|].
    destruct (IH (a `min` y)) as [H1 H2]. split.
    - apply elem_of_cons in H1 as [H1|H1]; [|set_solver].
      rewrite H1. destruct (N.min_spec a y) as [[_ ->]|[_ ->]]; set_solver.
    - pose proof (H2 (a `min` y) ltac:(set_solver)).
      intros d' [->|[->|Hd]%elem_of_cons]%elem_of_cons; [lia..|]. apply H2. set_solver. }
  specialize (Hm x) as [H1 H2]. split.
  - intros [= <-]. done.
  - intros [H3 H4]. f_equal. apply N.le_antisymm; auto.
Qed.

Lemma next_retry_deadline_Some now s d :
  core_wf lim s →
  next_retry_deadline now s = Some d ↔
    (now < d ∧ ∃ id task, ms_encoded_tasks s !! id = Some task ∧
       ts_state (st_summary task) = Queued ∧
       ts_retry_not_before_ms (st_summary task) = Some d) ∧
    (∀ id task d', ms_encoded_tasks s !! id = Some task →
       ts_state (st_summary task) = Queued →
       ts_retry_not_before_ms (st_summary task) = Some d' → now < d' → d ≤ d').
Proof.
  intros Hwf. unfold next_retry_deadline. fold (summaries (ms_encoded_tasks s)).
  rewrite list_min_Some. setoid_rewrite list_elem_of_filter.
  setoid_rewrite list_elem_of_omap. setoid_rewrite list_elem_of_filter.
  setoid_rewrite (λ t, elem_of_summaries _ t (core_ids s Hwf)).
  assert (∀ id task, ms_encoded_tasks s !! id = Some task → ts_id (st_summary task) = id) as Hids.
  { intros id task Hid. apply (cwf_task lim s Hwf) in Hid. apply Hid. }
  split.
  - intros [(Hlt & t & (Hq & task & Hid & <-) & Hd) Hmin]. split; [by eauto 10|].
    intros id task' d' Hid' Hq' Hd' Hlt'. apply Hmin. split; [done|].
    exists (st_summary task'). split_and!; [done| |done]. exists task'.
    by rewrite (Hids id task').
  - intros [(Hlt & id & task & Hid & Hq & Hd) Hmin]. split.
    + split; [done|]. exists (st_summary task). split_and!; [done| |done].
      exists task. by rewrite (Hids id task).
    + intros d' (Hlt' & t & (Hq' & task' & Hid' & <-) & Hd'). by eapply Hmin.
Qed.

Lemma next_retry_deadline_None now s id task d :
  core_wf lim s → next_retry_deadline now s = None →
  ms_encoded_tasks s !! id = Some task → ts_state (st_summary task) = Queued →
  ts_retry_not_before_ms (st_summary task) = Some d → d ≤ now.
Proof.
  intros Hwf Hn Hid Hq Hd. destruct (decide (d ≤ now)) as [|Hgt]; [done|].
  unfold next_retry_deadline, list_min in Hn. fold (summaries (ms_encoded_tasks s)) in Hn.
  destruct (filter _ _) eqn:Hf; [|done].
  assert (d ∈ @nil N) as Hin; [|by apply elem_of_nil in Hin].
  rewrite <- Hf. apply list_elem_of_filter. split; [lia|]. apply list_elem_of_omap.
  exists (st_summary task). split; [|done]. apply list_elem_of_filter. split; [done|].
  apply elem_of_summaries; [by apply core_ids|]. exists task.
  by rewrite (twf_id _ _ (cwf_task lim s Hwf _ _ Hid)).
Qed.

(** Between deadlines the set of ready tasks does not change. *)
Lemma ready_matches_time now now' t :
  now ≤ now' →
  (∀ d, ts_state t = Queued → ts_retry_not_before_ms t = Some d → d ≤ now' → d ≤ now) →
  ready_matches None now' t = true ↔ ready_matches None now t = true.
Proof.
  intros Hle Hd. unfold ready_matches. bool_prop. rewrite !is_none_or_true.
  setoid_rewrite N.leb_le. split; intros [[Hq Hr] Ha]; (split; [|done]); (split; [done|]).
  - intros d Hd'. auto.
  - intros d Hd'. specialize (Hr d Hd'). lia.
Qed.

(** ** Pruning *)

(** A finished task that a cutoff reaches, with the time it finished. *)
Definition expired (before : N) task (f : N) : Prop :=
  task_terminal task = true ∧ ts_finished_at_ms (st_summary task) = Some f ∧ f < before.

Definition prune_candidates (before : N) s : list (N * N) :=
  omap (prune_candidate before) (summaries (ms_encoded_tasks s)).

Lemma elem_of_prune_candidates before s f id :
  core_wf lim s →
  (f, id) ∈ prune_candidates before s ↔
  ∃ task, ms_encoded_tasks s !! id = Some task ∧ expired before task f.
Proof.
  intros Hwf. unfold prune_candidates, expired. rewrite list_elem_of_omap.
  setoid_rewrite (λ t, elem_of_summaries _ t (core_ids s Hwf)). unfold prune_candidate. split.
  - intros (t & (task & Hid & <-) & Hp). apply bind_Some in Hp as (f' & Hf & Hp).
    destruct (_ && _) eqn:Hg; simplify_eq. bool_prop. exists task. tauto.
  - intros (task & Hid & Ht & Hf & Hlt). exists (st_summary task).
    pose proof (twf_id _ _ (cwf_task lim s Hwf _ _ Hid)) as Heq. rewrite Heq. split; [by eauto|].
    rewrite Hf. simpl. destruct (_ && _) eqn:Hg; [congruence|].
    unfold task_terminal in Ht. rewrite Ht in Hg. simpl in Hg. bool_prop. lia.
Qed.

Lemma prune_candidates_NoDup before s :
  core_wf lim s → NoDup (prune_candidates before s).*2.
Proof.
  intros Hwf. pose proof (NoDup_btree_keys N.le (ms_encoded_tasks s)) as Hnd.
  rewrite <- summaries_ids in Hnd by (by apply core_ids). unfold prune_candidates.
  induction (summaries (ms_encoded_tasks s)) as [|t l IH]; [constructor|].
  rewrite fmap_cons in Hnd. apply NoDup_cons in Hnd as [Hni Hnd]. cbn.
  destruct (prune_candidate before t) as [[f i]|] eqn:Hp; [|by auto].
  rewrite fmap_cons. apply NoDup_cons. split; [|by auto]. simpl.
  unfold prune_candidate in Hp. apply bind_Some in Hp as (f' & _ & Hp).
  destruct (_ && _); simplify_eq.
  intros ([f2 i2] & Heq & (t2 & Ht2 & Hp2)%list_elem_of_omap)%list_elem_of_fmap.
  unfold prune_candidate in Hp2. apply bind_Some in Hp2 as (f'' & _ & Hp2).
  destruct (_ && _); [|done]. injection Hp2 as <- <-. apply Hni. simpl in Heq. rewrite Heq.
  by apply list_elem_of_fmap_2.
Qed.

(** The selected rows are the oldest ones. *)
Lemma prune_expired_oldest before rows s a b :
  a ∈ take (N.to_nat rows) (sort_by key_le id (prune_candidates before s)) →
  b ∈ prune_candidates before s →
  b ∉ take (N.to_nat rows) (sort_by key_le id (prune_candidates before s)) → key_le a b.
Proof.
  pose proof (sort_by_StronglySorted key_le id (prune_candidates before s)) as Hs.
  rewrite <- (take_drop (N.to_nat rows) (sort_by _ _ _)) in Hs.
  apply StronglySorted_app in Hs as (_ & _ & Hle). intros Ha Hb Hnb. apply (Hle a b Ha).
  rewrite <- (sort_by_Permutation key_le id), <- (take_drop (N.to_nat rows)) in Hb.
  set_solver.
Qed.
End queries.
