(* ===== verification/MemorySpec.v ===== *)
(** * The in-memory task store: abstract specification and refinement

    The specification keeps the retained tasks and the order in which they
    finished, and nothing else: no byte or record counters, no idempotency
    index, no heap.  Every answer is computed from the tasks, every operation
    is all-or-nothing.  The store refines it call by call, and so along every
    sequence of calls. *)

From S2P Require Import Prelude TaskState Model MemoryStore MemoryInvariant MemoryPreservation.
From S2P Require Import MemoryHistory MemoryQueries.

Section spec.
Context `{ET : !ExternalTypes, SJ : !SnapshotJson}.
Implicit Types (s : MemoryState) (task : StoredTask) (t : TaskSummary).
Implicit Types (id : TaskId) (r : StoredTaskRequest) (m : gmap TaskId StoredTask).

(** ** Calls and replies *)

Inductive StoreCall :=
| CallAccept (now : N) (id : TaskId) (r : StoredTaskRequest)
| CallGet (id : TaskId)
| CallStart (c : StartCommand)
| CallTransition (c : TransitionCommand)
| CallProgress (c : ProgressCommand)
| CallList (q : TaskQuery)
| CallReady (after : option TaskCursor) (limit now : N)
| CallPrune (before rows : N)
| CallAcquire
| CallRelease (epoch : OwnerEpoch).

Inductive StoreReply :=
| ReplyAccept (x : result AcceptOutcome StoreError)
| ReplyTask (x : option StoredTask)
| ReplySummary (x : result TaskSummary StoreError)
| ReplyPage (x : result TaskPage StoreError)
| ReplyCount (n : N)
| ReplyEpoch (x : result OwnerEpoch StoreError)
| ReplyUnit (x : result unit StoreError).

Definition memory_call (lim : MemoryLimits) (call : StoreCall) s : StoreReply * MemoryState :=
  match call with
  | CallAccept now id r => let '(x, s') := accept_encoded lim now id r s in (ReplyAccept x, s')
  | CallGet id => (ReplyTask (get_encoded_task id s), s)
  | CallStart c => let '(x, s') := start_encoded c s in (ReplySummary x, s')
  | CallTransition c => let '(x, s') := transition_encoded lim c s in (ReplySummary x, s')
  | CallProgress c => let '(x, s') := update_progress c s in (ReplySummary x, s')
  | CallList q => (ReplyPage (list_encoded q s), s)
  | CallReady after limit now => (ReplyPage (list_ready_queued after limit now s), s)
  | CallPrune before rows =>
      let '(n, s') := prune_terminal_before before rows s in (ReplyCount n, s')
  | CallAcquire => let '(x, s') := acquire_owner s in (ReplyEpoch x, s')
  | CallRelease epoch => let '(x, s') := release_owner epoch s in (ReplyUnit x, s')
  end.

(** ** The specification *)

Record SpecStore := {
  as_tasks : gmap TaskId StoredTask;
  as_finished : list TaskId;
  as_owner : option OwnerEpoch;
  as_last_epoch : N;
}.

Definition spec_new : SpecStore :=
  {| as_tasks := ∅; as_finished := []; as_owner := None; as_last_epoch := 0 |}.

Definition spec_with (m : gmap TaskId StoredTask) (finished : list TaskId)
    (a : SpecStore) : SpecStore :=
  {| as_tasks := m; as_finished := finished;
     as_owner := as_owner a; as_last_epoch := as_last_epoch a |}.

(** The retained task that holds an idempotency key. *)
Definition spec_key_holder (key : string) m : option StoredTask :=
  snd <$> list_find (λ task, sr_idempotency_key (st_request task) = Some key)
            (map_to_list m).*2.

(** Drop the oldest finished tasks until [fits]. *)
Fixpoint spec_trim (fits : gmap TaskId StoredTask → list TaskId → bool)
    (finished : list TaskId) m : gmap TaskId StoredTask * list TaskId :=
  if fits m finished then (m, finished) else
  match finished with
  | [] => (m, [])
  | id :: rest => spec_trim fits rest (delete id m)
  end.

Definition spec_accept (lim : MemoryLimits) (now : N) id r (a : SpecStore)
    : result AcceptOutcome StoreError * SpecStore :=
  if str_is_empty (sr_kind_id r) || str_is_empty (sp_codec_id (sr_payload r))
  then (Err (InvalidRequest "task kind and payload codec must not be empty"), a) else
  match sr_idempotency_key r ≫= λ key, spec_key_holder key (as_tasks a) with
  | Some task =>
      if StoredTaskRequest_eqb (st_request task) r
      then (Ok {| ao_summary := st_summary task; ao_created := false |}, a)
      else (Err IdempotencyConflict, a)
  | None =>
      match accept_new_verdict lim id r (as_tasks a) with
      | Some e => (Err e, a)
      | None =>
          let requested := bytes_len (sp_bytes (sr_payload r)) in
          let '(m, finished) :=
            spec_trim (λ m _, payload_total m + requested <=? ml_max_payload_bytes lim)
              (as_finished a) (as_tasks a) in
          (Ok {| ao_summary := accepted_summary now id r; ao_created := true |},
           spec_with (<[id := {| st_request := r; st_summary := accepted_summary now id r |}]> m)
             finished a)
      end
  end.

(** A write of one summary, all or nothing. *)
Definition spec_put id task t (a : SpecStore) : SpecStore :=
  spec_with (<[id := {| st_request := st_request task; st_summary := t |}]> (as_tasks a))
    (as_finished a) a.

Definition spec_start (c : StartCommand) (a : SpecStore)
    : result TaskSummary StoreError * SpecStore :=
  match as_tasks a !! sc_id c with
  | None => (Err NotFound, a)
  | Some task =>
      let t := st_summary task in
      if decide (ts_state_version t = sc_expected_state_version c ∧ ts_state t = Queued) then
        let t' := started_summary (ts_attempt t + 1) (sc_started_at_ms c)
                    (with_state_version (ts_state_version t + 1) t) in
        (Ok t', spec_put (sc_id c) task t' a)
      else (Err Conflict, a)
  end.

(** The answer to a transition, from the task alone. *)
Definition spec_transition_summary (c : TransitionCommand) t : result TaskSummary StoreError :=
  bail Conflict when transition_conflicts c t;
  bail (InvalidRequest "task output can only be written before the task becomes terminal")
    when is_some (tc_output c) && is_terminal (ts_state t);
  bail (InvalidRequest "retry deadline is only valid for queued tasks")
    when is_some (tc_retry_not_before_ms c) && negb (bool_decide (tc_state c = Queued));
  Ok (settle_state c (ts_state_version t + 1) (enter_state c t)).

Definition spec_transition (lim : MemoryLimits) (c : TransitionCommand) (a : SpecStore)
    : result TaskSummary StoreError * SpecStore :=
  match map_err InvalidRequest (validate_diagnostics (tc_state c)),
        validate_encoded_output (tc_state c) (tc_output c),
        as_tasks a !! tc_id c with
  | Err e, _, _ => (Err e, a)
  | _, Err e, _ => (Err e, a)
  | _, _, None => (Err NotFound, a)
  | Ok _, Ok _, Some task =>
      match spec_transition_summary c (st_summary task) with
      | Err e => (Err e, a)
      | Ok t' =>
          let a1 := spec_put (tc_id c) task t' a in
          (Ok t',
           if decide (task_terminal task = false ∧ is_terminal (tc_state c) = true) then
             let '(m, finished) :=
               spec_trim (λ _ finished,
                   N.of_nat (length finished) <=? ml_history_capacity lim)
                 (as_finished a ++ [tc_id c]) (as_tasks a1) in
             spec_with m finished a
           else a1)
      end
  end.

Definition spec_progress (c : ProgressCommand) (a : SpecStore)
    : result TaskSummary StoreError * SpecStore :=
  match from_command snapshot_to_vec c, as_tasks a !! pc_id c with
  | Err _, _ => (Err (InvalidRequest "task progress snapshot exceeds its limits"), a)
  | Ok _, None => (Err NotFound, a)
  | Ok p, Some task =>
      let t := st_summary task in
      if decide (ts_state t = Running ∧ ts_attempt t = pc_expected_attempt c ∧
                 is_none_or (λ q, tps_progress_version q <? pc_progress_version c)
                   (ts_progress t) = true)
      then (Ok (with_progress p t), spec_put (pc_id c) task (with_progress p t) a)
      else (Err Conflict, a)
  end.

(** The finished tasks a cutoff selects, oldest first. *)
Definition spec_expired (before rows : N) m : list TaskId :=
  (take (N.to_nat rows)
     (sort_by key_le id (omap (prune_candidate before) (summaries m)))).*2.

Definition spec_prune (before rows : N) (a : SpecStore) : N * SpecStore :=
  let expired := spec_expired before rows (as_tasks a) in
  (N.of_nat (length expired),
   spec_with (filter (λ kv, kv.1 ∉ expired) (as_tasks a))
     (filter (λ id, id ∉ expired) (as_finished a)) a).

Definition spec_list (q : TaskQuery) (a : SpecStore) : result TaskPage StoreError :=
  result_map (λ size, page_of size (selection q (as_tasks a))) (checked_page_size q).

Definition spec_ready (after : option TaskCursor) (limit now : N) (a : SpecStore)
    : result TaskPage StoreError :=
  if MAX_TASK_QUERY_LIMIT <? limit
  then Err (InvalidRequest "ready task page limit exceeds 256")
  else Ok (page_of limit (ready_selection after now (as_tasks a))).

Definition spec_acquire (a : SpecStore) : result OwnerEpoch StoreError * SpecStore :=
  match as_owner a with
  | Some _ => (Err OwnerConflict, a)
  | None =>
      if as_last_epoch a <? u64_max then
        let e := as_last_epoch a + 1 in
        (Ok e, {| as_tasks := as_tasks a; as_finished := as_finished a;
                  as_owner := Some e; as_last_epoch := e |})
      else (Err (Failure "memory owner epoch exhausted"), a)
  end.

Definition spec_release (epoch : OwnerEpoch) (a : SpecStore)
    : result unit StoreError * SpecStore :=
  if decide (as_owner a = Some epoch)
  then (Ok tt, {| as_tasks := as_tasks a; as_finished := as_finished a;
                  as_owner := None; as_last_epoch := as_last_epoch a |})
  else (Err OwnerConflict, a).

Definition spec_call (lim : MemoryLimits) (call : StoreCall) (a : SpecStore)
    : StoreReply * SpecStore :=
  match call with
  | CallAccept now id r => let '(x, a') := spec_accept lim now id r a in (ReplyAccept x, a')
  | CallGet id => (ReplyTask (as_tasks a !! id), a)
  | CallStart c => let '(x, a') := spec_start c a in (ReplySummary x, a')
  | CallTransition c => let '(x, a') := spec_transition lim c a in (ReplySummary x, a')
  | CallProgress c => let '(x, a') := spec_progress c a in (ReplySummary x, a')
  | CallList q => (ReplyPage (spec_list q a), a)
  | CallReady after limit now => (ReplyPage (spec_ready after limit now a), a)
  | CallPrune before rows => let '(n, a') := spec_prune before rows a in (ReplyCount n, a')
  | CallAcquire => let '(x, a') := spec_acquire a in (ReplyEpoch x, a')
  | CallRelease epoch => let '(x, a') := spec_release epoch a in (ReplyUnit x, a')
  end.

(** ** Abstraction *)

Definition abs s : SpecStore :=
  {| as_tasks := ms_encoded_tasks s; as_finished := ms_encoded_terminal_order s;
     as_owner := ms_owner_epoch s; as_last_epoch := ms_last_owner_epoch s |}.

Section refinement.
Context (lim : MemoryLimits) (Hlim : limits_ok lim).

Lemma evict_while_trim again fits fuel s :
  core_wf lim s → (length (ms_encoded_terminal_order s) < fuel)%nat →
  (∀ s', core_wf lim s' →
     again s' = negb (fits (ms_encoded_tasks s') (ms_encoded_terminal_order s'))) →
  let '(m, finished) := spec_trim fits (ms_encoded_terminal_order s) (ms_encoded_tasks s) in
  abs (evict_while again fuel s).2 = spec_with m finished (abs s).
Proof.
  revert s. induction fuel as [|fuel IH]; intros s Hwf Hf Hag; [lia|]. simpl.
  destruct (ms_encoded_terminal_order s) as [|id rest] eqn:Ho; simpl;
    rewrite (Hag s Hwf), Ho; destruct (fits _ _) eqn:Hfit; simpl;
    try (unfold abs, spec_with; simpl; by rewrite Ho).
  - rewrite evict_nil by done. unfold abs, spec_with; simpl; by rewrite Ho.
  - destruct (evict_spec lim Hlim id rest s Hwf Ho) as (s1 & -> & Hwf1 & Ho1 & Ht1 & He1 & Hl1).
    specialize (IH s1 Hwf1). rewrite Ho1, Ht1 in IH. simpl in *.
    destruct (spec_trim fits rest (delete id (ms_encoded_tasks s))) as [m finished].
    rewrite IH by (done || lia). unfold spec_with. simpl. by rewrite He1, Hl1.
Qed.

Lemma key_holder_spec key s :
  core_wf lim s →
  spec_key_holder key (ms_encoded_tasks s) =
  ms_encoded_idempotency s !! key ≫= (ms_encoded_tasks s !!.).
Proof.
  intros Hwf. unfold spec_key_holder.
  destruct (list_find _ _) as [[i task]|] eqn:Hf; simpl.
  - apply list_find_Some in Hf as (Hi & Hk & _).
    apply list_elem_of_lookup_2, list_elem_of_fmap in Hi as ([id task'] & -> & Hin).
    apply elem_of_map_to_list in Hin. simpl in *.
    assert (ms_encoded_idempotency s !! key = Some id) as ->
      by (apply (cwf_idempotency lim s Hwf); eauto). simpl. by rewrite Hin.
  - apply list_find_None in Hf. rewrite Forall_forall in Hf.
    destruct (ms_encoded_idempotency s !! key) as [id|] eqn:Hk; [|done].
    apply (cwf_idempotency lim s Hwf) in Hk as (task & Hid & Hk). exfalso.
    apply (Hf task); [|done]. apply list_elem_of_fmap. exists (id, task).
    by rewrite elem_of_map_to_list.
Qed.

Lemma accept_new_refines now id r s :
  wf lim s →
  (∀ key, sr_idempotency_key r = Some key → ms_encoded_idempotency s !! key = None) →
  accept_new_verdict lim id r (ms_encoded_tasks s) = None →
  let '(m, finished) :=
    spec_trim (λ m _, payload_total m + bytes_len (sp_bytes (sr_payload r))
                        <=? ml_max_payload_bytes lim)
      (ms_encoded_terminal_order s) (ms_encoded_tasks s) in
  accept_new lim now id r s =
    (Ok {| ao_summary := accepted_summary now id r; ao_created := true |},
     (accept_new lim now id r s).2) ∧
  abs (accept_new lim now id r s).2 =
    spec_with (<[id := {| st_request := r; st_summary := accepted_summary now id r |}]> m)
      finished (abs s).
Proof.
  intros Hwf Hkey Hv. pose proof (accept_new_spec lim Hlim now id r s Hwf Hkey) as Hs.
  rewrite Hv in Hs. destruct Hs as (n & s1 & Hev & Hloop & _ & Heq & _).
  set (again := λ s', _ <? ms_retained_payload_bytes s') in Hloop.
  assert (bytes_len (sp_bytes (sr_payload r)) ≤ ml_max_payload_bytes lim) as Hfit.
  { unfold accept_new_verdict in Hv. split_matches. bool_prop. lia. }
  pose proof (evict_while_trim again (λ m _, payload_total m + bytes_len (sp_bytes (sr_payload r))
                        <=? ml_max_payload_bytes lim)
    (S (length (ms_encoded_terminal_order s))) s (wf_core _ _ Hwf) ltac:(lia)) as Htrim.
  unfold evict_loop in Hloop. rewrite Hloop in Htrim.
  destruct (spec_trim _ _ _) as [m finished]. rewrite Heq. split; [done|].
  assert (abs s1 = spec_with m finished (abs s)) as H1.
  { apply Htrim. intros s' Hwf'. unfold again. pose proof (lok_payload _ Hlim).
    rewrite usize_sub_small by lia. rewrite (cwf_retained lim s' Hwf').
    apply eq_iff_eq_true. bool_prop. lia. }
  apply (f_equal (λ a, (as_tasks a, as_finished a, as_owner a, as_last_epoch a))) in H1.
  injection H1 as H1 H2 H3 H4. unfold abs, spec_with. simpl. by rewrite H1, H2, H3, H4.
Qed.

Lemma accept_refines now id r s :
  wf lim s →
  spec_accept lim now id r (abs s) =
  ((accept_encoded lim now id r s).1, abs (accept_encoded lim now id r s).2).
Proof.
  intros Hwf. unfold spec_accept, accept_encoded. destruct (_ || _); [done|]. simpl.
  destruct (sr_idempotency_key r ≫= (ms_encoded_idempotency s !!.)) as [id'|] eqn:Hm.
  - destruct (sr_idempotency_key r) as [key|]; simpl in *; [|done].
    rewrite key_holder_spec, Hm by apply Hwf. simpl.
    apply (cwf_idempotency lim s) in Hm as (task & Hid & _); [|apply Hwf].
    rewrite Hid. by destruct (StoredTaskRequest_eqb _ _).
  - pose proof (idempotency_miss r s Hm) as Hmiss.
    assert ((sr_idempotency_key r ≫= λ key, spec_key_holder key (ms_encoded_tasks s)) = None) as ->.
    { destruct (sr_idempotency_key r) as [key|]; simpl in *; [|done].
      rewrite key_holder_spec by apply Hwf. by rewrite Hm. }
    destruct (accept_new_verdict lim id r _) as [e|] eqn:Hv.
    + pose proof (accept_new_spec lim Hlim now id r s Hwf Hmiss) as Hs. rewrite Hv in Hs.
      by rewrite Hs.
    + pose proof (accept_new_refines now id r s Hwf Hmiss Hv) as Hs.
      destruct (spec_trim _ _ _) as [m finished]. destruct Hs as [Hs1 Hs2]. by rewrite Hs2, Hs1.
Qed.

Lemma start_refines c s :
  wf lim s →
  (∀ task, ms_encoded_tasks s !! sc_id c = Some task →
     ts_state_version (st_summary task) < u64_max ∧ ts_attempt (st_summary task) < u32_max) →
  spec_start c (abs s) = ((start_encoded c s).1, abs (start_encoded c s).2).
Proof.
  intros Hwf Hc. unfold spec_start, start_encoded. simpl.
  destruct (ms_encoded_tasks s !! sc_id c) as [task|]; [|done].
  destruct (Hc task eq_refl) as [Hv Ha]. destruct (_ || _) eqn:Hg; bool_prop.
  - rewrite decide_False by tauto. done.
  - rewrite decide_True by tauto. unfold checked_add.
    destruct (_ <=? _) eqn:E1; bool_prop; [|lia].
    destruct (_ <=? _) eqn:E2; bool_prop; [done|lia].
Qed.

Lemma record_terminal_trim id task t s :
  core_wf lim s → ms_encoded_tasks s !! id = Some task →
  task_wf id {| st_request := st_request task; st_summary := t |} →
  task_terminal task = false → is_terminal (ts_state t) = true →
  let '(m, finished) :=
    spec_trim (λ _ finished, N.of_nat (length finished) <=? ml_history_capacity lim)
      (ms_encoded_terminal_order s ++ [id]) (as_tasks (spec_put id task t (abs s))) in
  abs (record_terminal lim id (put_summary id task t s)) = spec_with m finished (abs s).
Proof.
  intros Hwf Hid Htw Hold Hnew.
  pose proof (terminalize_core_wf lim Hlim id task t s Hwf Hid Htw Hold Hnew) as Hc.
  refine (evict_while_trim
    (λ s', ml_history_capacity lim <? N.of_nat (length (ms_encoded_terminal_order s')))
    (λ _ finished, N.of_nat (length finished) <=? ml_history_capacity lim)
    (S (length (ms_encoded_terminal_order (terminalize id task t s)))) _ Hc _ _); [lia|].
  intros s' _. apply eq_iff_eq_true. bool_prop. lia.
Qed.

Lemma transition_refines c s :
  wf lim s →
  (∀ task, ms_encoded_tasks s !! tc_id c = Some task →
     ts_state_version (st_summary task) < u64_max) →
  spec_transition lim c (abs s) =
  ((transition_encoded lim c s).1, abs (transition_encoded lim c s).2).
Proof.
  intros Hwf Hver. unfold spec_transition, spec_transition_summary, transition_encoded. simpl.
  destruct (validate_diagnostics _) eqn:Hd; [|done]. simpl.
  destruct (validate_encoded_output _ _) eqn:Hvo; [|done].
  destruct (ms_encoded_tasks s !! tc_id c) as [task|] eqn:Hid; [|done].
  specialize (Hver task eq_refl).
  destruct (transition_conflicts _ _) eqn:Hc; [done|].
  destruct (is_some (tc_output c) && _) eqn:Ho; [done|].
  destruct (is_some (tc_retry_not_before_ms c) && _) eqn:Hr; [done|].
  assert (transition_allowed c (st_summary task)) as Hta.
  { repeat match goal with u : unit |- _ => destruct u end. by apply transition_allowed_intro. }
  unfold checked_add. destruct (_ <=? _) eqn:E1; bool_prop; [|lia]. simpl. f_equal.
  set (t2 := settle_state _ _ _). unfold task_terminal.
  destruct (negb _ && _) eqn:Hterm; bool_prop;
    [|rewrite decide_False; [done|]; intros [? ?]; destruct Hterm; congruence].
  rewrite decide_True by done. destruct Hterm as [Hold Hnew].
  pose proof (cwf_task lim s (wf_core _ _ Hwf) _ _ Hid) as Htw.
  pose proof (record_terminal_trim (tc_id c) task t2 s (wf_core _ _ Hwf) Hid
    (settled_task_wf _ _ c _ Htw Hta E1) Hold Hnew) as Htrim. simpl in Htrim.
  destruct (spec_trim _ _ _) as [m finished]. by rewrite Htrim.
Qed.

Lemma progress_refines c s :
  spec_progress c (abs s) = ((update_progress c s).1, abs (update_progress c s).2).
Proof.
  unfold spec_progress, update_progress. destruct (from_command _ c) as [p|]; [|done]. simpl.
  destruct (ms_encoded_tasks s !! pc_id c) as [task|]; [|done].
  assert (is_some_and (λ current, pc_progress_version c <=? tps_progress_version current)
            (ts_progress (st_summary task)) =
          negb (is_none_or (λ q, tps_progress_version q <? pc_progress_version c)
                  (ts_progress (st_summary task)))) as ->.
  { destruct (ts_progress _); simpl; [|done]. apply eq_iff_eq_true. bool_prop. lia. }
  destruct (_ || _) eqn:Hg.
  - rewrite decide_False; [done|]. intros (H1 & H2 & H3). rewrite H3 in Hg. bool_prop. naive_solver.
  - bool_prop. by rewrite decide_True by tauto.
Qed.

Lemma removed_order l s :
  core_wf lim s →
  ms_encoded_terminal_order (foldl (λ s' id, (remove_encoded_task id s').2) s l) =
  filter (λ id, id ∉ l) (ms_encoded_terminal_order s).
Proof.
  revert s. induction l as [|a l IH]; intros s Hwf; simpl.
  { symmetry. apply filter_all. set_solver. }
  rewrite IH by (by apply remove_core_wf).
  assert (ms_encoded_terminal_order (remove_encoded_task a s).2 =
          filter (.≠ a) (ms_encoded_terminal_order s)) as ->.
  { unfold remove_encoded_task. destruct (ms_encoded_tasks s !! a) eqn:Ha; [done|]. simpl.
    symmetry. apply filter_all. intros id Hid ->.
    apply (cwf_order lim s Hwf) in Hid as (task & ? & _). congruence. }
  rewrite list_filter_filter. apply list_filter_iff. set_solver.
Qed.

Lemma prune_refines before rows s :
  core_wf lim s →
  spec_prune before rows (abs s) =
  ((prune_terminal_before before rows s).1, abs (prune_terminal_before before rows s).2).
Proof.
  intros Hwf. unfold prune_terminal_before, spec_prune. simpl.
  change (prune_expired before rows s) with (spec_expired before rows (ms_encoded_tasks s)).
  set (l := spec_expired _ _ _). f_equal. unfold abs, spec_with. simpl.
  destruct (removed_owner l s) as [-> ->]. rewrite removed_order by done. f_equal.
  apply map_eq. intros id. rewrite removed_all_lookup, map_lookup_filter.
  destruct (ms_encoded_tasks s !! id); simpl; case_decide as Hd; try done.
  - by rewrite option_guard_False by (simpl; tauto).
  - by rewrite option_guard_True.
Qed.

(** No counter is about to overflow. *)
Definition counters_ok s : Prop :=
  ∀ id task, ms_encoded_tasks s !! id = Some task →
    ts_state_version (st_summary task) < u64_max ∧ ts_attempt (st_summary task) < u32_max.

Lemma call_refines call s :
  wf lim s → counters_ok s →
  spec_call lim call (abs s) = ((memory_call lim call s).1, abs (memory_call lim call s).2).
Proof.
  intros Hwf Hc. destruct call; simpl; try done.
  - rewrite accept_refines by done. by destruct (accept_encoded _ _ _ _ _).
  - rewrite start_refines by (done || (intros; by eapply Hc)). by destruct (start_encoded _ _).
  - rewrite transition_refines by (done || (intros; by eapply Hc)).
    by destruct (transition_encoded _ _ _).
  - rewrite progress_refines. by destruct (update_progress _ _).
  - do 2 f_equal. unfold spec_list. destruct (checked_page_size q) as [size|] eqn:Hq.
    + symmetry. apply (list_encoded_page lim); [apply Hwf|done].
    + unfold list_encoded. by rewrite Hq.
  - pose proof (prune_refines before rows s (wf_core _ _ Hwf)) as Hp.
    apply (f_equal snd) in Hp. simpl in Hp. by rewrite Hp.
  - unfold spec_acquire, acquire_owner, checked_add. simpl.
    destruct (ms_owner_epoch s); [done|]. simpl.
    destruct (ms_last_owner_epoch s <? u64_max) eqn:E1, (_ <=? u64_max) eqn:E2;
      bool_prop; try lia; done.
  - unfold spec_release, release_owner. simpl. case_bool_decide; case_decide; done.
Qed.

(** ** Sequences of calls *)

Fixpoint memory_run (calls : list StoreCall) s : list StoreReply * MemoryState :=
  match calls with
  | [] => ([], s)
  | call :: rest =>
      let '(reply, s') := memory_call lim call s in
      let '(replies, s'') := memory_run rest s' in (reply :: replies, s'')
  end.

Fixpoint spec_run (calls : list StoreCall) (a : SpecStore) : list StoreReply * SpecStore :=
  match calls with
  | [] => ([], a)
  | call :: rest =>
      let '(reply, a') := spec_call lim call a in
      let '(replies, a'') := spec_run rest a' in (reply :: replies, a'')
  end.

Lemma call_step call s :
  memory_step lim s (memory_call lim call s).2 ∨ (memory_call lim call s).2 = s.
Proof.
  destruct call as [now id r|id|c|c|c|q|after limit now|before rows| |e]; simpl;
    try (by right); left.
  - pose proof (step_accept lim now id r s). by destruct (accept_encoded _ _ _ _ _).
  - pose proof (step_start lim c s). by destruct (start_encoded _ _).
  - pose proof (step_transition lim c s). by destruct (transition_encoded _ _ _).
  - pose proof (step_progress lim c s). by destruct (update_progress _ _).
  - apply step_prune.
  - pose proof (step_acquire lim s). by destruct (acquire_owner _).
  - pose proof (step_release lim e s). by destruct (release_owner _ _).
Qed.

Lemma evolves_attempt t t' : task_evolves t t' → ts_attempt t' ≤ ts_attempt t + 1.
Proof. intros []; subst; simpl; lia. Qed.

Definition attempts_below (n : N) s : Prop :=
  ∀ id task, ms_encoded_tasks s !! id = Some task → ts_attempt (st_summary task) ≤ n.

Lemma step_attempts n s s' :
  wf lim s → memory_step lim s s' → attempts_below n s → attempts_below (n + 1) s'.
Proof.
  intros Hwf Hstep Hn id task' Hid'. destruct (ms_encoded_tasks s !! id) as [task|] eqn:Hid.
  - pose proof (step_kept lim Hlim _ _ _ _ Hwf Hstep Hid) as Hk. rewrite Hid' in Hk.
    destruct Hk as [_ Hv%evolves_attempt]. specialize (Hn id task Hid). lia.
  - destruct (step_new lim Hlim _ _ _ _ Hwf Hstep Hid Hid') as (now & r & ->). simpl. lia.
Qed.

Lemma run_refines calls n s :
  wf lim s → versions_below n s → attempts_below n s →
  n + N.of_nat (length calls) ≤ u32_max →
  spec_run calls (abs s) = ((memory_run calls s).1, abs (memory_run calls s).2).
Proof.
  revert n s. induction calls as [|call calls IH]; intros n s Hwf Hv Ha Hn; [done|]. simpl in *.
  assert (u32_max < u64_max) by done.
  rewrite call_refines; [|done|].
  - specialize (IH (n + 1) (memory_call lim call s).2).
    destruct (memory_call lim call s) as [reply s'] eqn:Hcall. simpl in *.
    pose proof (call_step call s) as Hstep. rewrite Hcall in Hstep. simpl in Hstep.
    rewrite IH.
    + by destruct (memory_run calls s').
    + destruct Hstep as [Hstep| ->]; [|done]. by eapply (step_wf lim Hlim n); [..|lia|].
    + destruct Hstep as [Hstep| ->]; [by eapply step_versions|].
      intros id task Hid. specialize (Hv id task Hid). lia.
    + destruct Hstep as [Hstep| ->]; [by eapply step_attempts|].
      intros id task Hid. specialize (Ha id task Hid). lia.
    + lia.
  - intros id task Hid. specialize (Hv id task Hid). specialize (Ha id task Hid). lia.
Qed.
End refinement.
End spec.
