(* ===== verification/Fixtures.v ===== *)
(** * Concrete instances

    Small stand-ins for the types and functions of other crates, used only to
    apply theorems to concrete inputs. *)

From S2P Require Import Prelude TaskState Model MemoryStore MemoryInvariant MemoryHistory.

Definition fixture_types : ExternalTypes :=
  {| Metadata := list (string * string);
     metadata_new := [];
     metadata_eqb := λ a b, bool_decide (a = b);
     metadata_len := λ m, N.of_nat (length m);
     ModelIdBuf := string;
     model_id_eq_dec := _;
     model_id_as_str := λ m, m;
     model_id_parse := λ s, Some s;
     Stage := string;
     stage_id := λ s, s; stage_name := λ s, s;
     stage_position_value := λ _, None; stage_total := λ _, None;
     MetricSnapshot := N;
     metric_id := λ _, "items"%string; metric_name := λ _, "Items"%string;
     metric_total := λ _, None; metric_completed := λ n, n;
     metric_active := λ _, 0; metric_succeeded := λ n, n;
     metric_failed := λ _, 0; metric_cancelled := λ _, 0 |}.

Definition fixture_json : SnapshotJson := {| snapshot_to_vec := λ _, Ok [Byte.x7b; Byte.x7d] |}.

#[local] Existing Instance fixture_types.
#[local] Existing Instance fixture_json.

Definition demo_request (key : option string) (n : nat) : StoredTaskRequest :=
  {| sr_kind_id := "demo"%string; sr_category := None;
     sr_payload := {| sp_type_id := "demo.payload"%string : ModelIdBuf; sp_schema_version := 1;
                      sp_codec_id := "json"%string; sp_bytes := replicate n Byte.x20 |};
     sr_metadata := [] : Metadata; sr_resource_limit := ResourceRequest_default;
     sr_correlation_key := None; sr_idempotency_key := key |}.

(** Two finished tasks of history, ten payload bytes, three unfinished tasks. *)
Definition demo_limits : MemoryLimits := with_limits 2 10 3.

Lemma demo_limits_ok : limits_ok demo_limits.
Proof. by split. Qed.

Definition finish_command (id version attempt at_ms : N) : TransitionCommand :=
  {| tc_id := id; tc_expected_state_version := version; tc_expected_attempt := attempt;
     tc_retry_not_before_ms := None; tc_state := Succeeded; tc_cancel_requested := false;
     tc_cancel_error := None; tc_finished_at_ms := Some at_ms;
     tc_output := None |}.

Definition retry_command (id version attempt deadline : N) : TransitionCommand :=
  {| tc_id := id; tc_expected_state_version := version; tc_expected_attempt := attempt;
     tc_retry_not_before_ms := Some deadline; tc_state := Queued; tc_cancel_requested := false;
     tc_cancel_error := None; tc_finished_at_ms := None; tc_output := None |}.

Definition demo_start (id version at_ms : N) : StartCommand :=
  {| sc_id := id; sc_expected_state_version := version; sc_started_at_ms := at_ms |}.

(** Task 1 accepted at 5 with key [k], started at 6, finished at 7; task 2
    accepted at 8. *)
Definition demo_state1 : MemoryState :=
  (accept_encoded demo_limits 5 1 (demo_request (Some "k"%string) 4) memory_state_new).2.
Definition demo_state2 : MemoryState := (start_encoded (demo_start 1 0 6) demo_state1).2.
Definition demo_state3 : MemoryState :=
  (transition_encoded demo_limits (finish_command 1 1 1 7) demo_state2).2.
Definition demo_state4 : MemoryState :=
  (accept_encoded demo_limits 8 2 (demo_request None 3) demo_state3).2.

(** The task a store retains under an identifier, with a default. *)
Definition task_of (id : N) (s : MemoryState) : StoredTask :=
  default {| st_request := demo_request None 0;
             st_summary := accepted_summary 0 id (demo_request None 0) |}
    (ms_encoded_tasks s !! id).

Lemma demo_reachable1 : reachable demo_limits 1 demo_state1.
Proof. eapply nsteps_l; [apply step_accept|constructor]. Qed.
Lemma demo_reachable2 : reachable demo_limits 2 demo_state2.
Proof. eapply nsteps_r; [apply demo_reachable1|apply step_start]. Qed.
Lemma demo_reachable3 : reachable demo_limits 3 demo_state3.
Proof. eapply nsteps_r; [apply demo_reachable2|apply step_transition]. Qed.
Lemma demo_reachable4 : reachable demo_limits 4 demo_state4.
Proof. eapply nsteps_r; [apply demo_reachable3|apply step_accept]. Qed.

Lemma demo_wf1 : wf demo_limits demo_state1.
Proof. by apply (reachable_inv _ demo_limits_ok 1 _ demo_reachable1). Qed.
Lemma demo_wf2 : wf demo_limits demo_state2.
Proof. by apply (reachable_inv _ demo_limits_ok 2 _ demo_reachable2). Qed.
Lemma demo_wf4 : wf demo_limits demo_state4.
Proof. by apply (reachable_inv _ demo_limits_ok 4 _ demo_reachable4). Qed.
