(* ===== verification/MemoryProperties.v ===== *)
(** * The in-memory task store: properties

    What [MemoryTaskStore] guarantees to its callers, each with a run of the
    definitions on concrete data. *)

From S2P Require Import Prelude TaskState Model MemoryStore MemoryInvariant MemoryPreservation.
From S2P Require Import MemoryHistory MemoryQueries MemorySpec Fixtures.

Section properties.
Context `{ET : !ExternalTypes, SJ : !SnapshotJson}.
Context (lim : MemoryLimits) (Hlim : limits_ok lim).

(** ** Invariant, refinement, histories *)

(** C26. From an empty store, after any sequence of at most [u64::MAX] calls,
    the redundant counters and indices agree with the retained tasks, every
    limit of the store holds, every summary repeats its request, and every
    record's fields fit its lifecycle state. *)
Theorem memory_invariant n s :
  reachable lim n s → N.of_nat n ≤ u64_max → wf lim s.
Proof. intros Hr Hn. by apply (reachable_inv lim Hlim n s). Qed.


(** While a task is retained its request never changes, its states form a
    path of the lifecycle, its version and attempt never decrease, its output
    is never replaced, progress moves forward within an attempt, and an
    unchanged version means that nothing but progress was written. *)
Theorem memory_task_history id n m s s' task task' :
  reachable lim n s → nsteps (retaining_step lim id) m s s' → N.of_nat (n + m) ≤ u64_max →
  ms_encoded_tasks s !! id = Some task → ms_encoded_tasks s' !! id = Some task' →
  task_advances task task'.
Proof. apply retaining_advances, Hlim. Qed.

(** No call removes an unfinished task, provided the store keeps at least
    one finished task. *)
Theorem memory_unfinished_kept n s s' id task :
  reachable lim n s → N.of_nat n ≤ u64_max → 1 ≤ ml_history_capacity lim →
  memory_step lim s s' →
  ms_encoded_tasks s !! id = Some task → is_terminal (ts_state (st_summary task)) = false →
  is_Some (ms_encoded_tasks s' !! id).
Proof. intros Hr Hn. apply (unfinished_survives lim Hlim). by apply (reachable_inv lim Hlim n). Qed.

(** ** Acceptance *)




(** A request that repeats a retained idempotency key changes nothing: it
    gets the current summary of the task that holds the key when the
    requests are equal, and a conflict otherwise. *)
Theorem memory_resubmission now id r s held task key :
  wf lim s → sr_kind_id r ≠ EmptyString → sp_codec_id (sr_payload r) ≠ EmptyString →
  ms_encoded_tasks s !! held = Some task →
  sr_idempotency_key (st_request task) = Some key → sr_idempotency_key r = Some key →
  accept_encoded lim now id r s =
    (if StoredTaskRequest_eqb (st_request task) r
     then Ok {| ao_summary := st_summary task; ao_created := false |}
     else Err IdempotencyConflict, s).
Proof.
  intros Hwf Hk Hcd Hid Hkt Hkr. unfold accept_encoded.
  destruct (_ || _) eqn:He; [bool_prop; tauto|]. rewrite Hkr. simpl.
  assert (ms_encoded_idempotency s !! key = Some held) as ->
    by (apply (cwf_idempotency lim s (wf_core _ _ Hwf)); eauto).
  rewrite Hid. by destruct (StoredTaskRequest_eqb _ _).
Qed.

(** ** Compare-and-set *)

(** A command that names the version it read. *)
Definition cas_call (c : StartCommand + TransitionCommand) s
    : result TaskSummary StoreError * MemoryState :=
  match c with
  | inl c => start_encoded c s
  | inr c => transition_encoded lim c s
  end.
Definition cas_target (c : StartCommand + TransitionCommand) : TaskId * N :=
  match c with
  | inl c => (sc_id c, sc_expected_state_version c)
  | inr c => (tc_id c, tc_expected_state_version c)
  end.

Lemma cas_success c s t s' :
  wf lim s → cas_call c s = (Ok t, s') →
  ts_state_version t = (cas_target c).2 + 1 ∧
  (∀ task', ms_encoded_tasks s' !! (cas_target c).1 = Some task' → st_summary task' = t).
Proof.
  intros Hwf. destruct c as [c|c]; simpl.
  - unfold start_encoded. intros H. split_matches. bool_prop.
    apply checked_add_Some in Heqo0 as [-> _]. split; [lia|]. intros task'.
    rewrite lookup_insert_eq. by intros [= <-].
  - intros H. destruct (transition_cases lim c s) as [[e He]|(task & Hid & Hc & [[_ He]|[Hv He]])];
      rewrite He in H; simplify_eq/=. rewrite (ta_version _ _ Hc). split; [done|].
    intros task' Hid'. rewrite <- (ta_version _ _ Hc) in *.
    set (t2 := settle_state _ _ _) in *. destruct (_ && _) eqn:Hterm.
    + bool_prop. destruct Hterm. pose proof (cwf_task lim s (wf_core _ _ Hwf) _ _ Hid) as Htw.
      edestruct (record_terminal_spec lim Hlim (tc_id c) task t2 s) as (n & Hevd & _);
        [apply Hwf|done|by apply settled_task_wf|done|done|].
      apply (evicted_subset _ _ _ _ _ _ Hevd) in Hid'. simpl in Hid'.
      rewrite lookup_insert_eq in Hid'. by simplify_eq.
    + simpl in Hid'. rewrite lookup_insert_eq in Hid'. by simplify_eq.
Qed.

Lemma cas_stale c s task :
  ms_encoded_tasks s !! (cas_target c).1 = Some task →
  ts_state_version (st_summary task) ≠ (cas_target c).2 → ∃ e, cas_call c s = (Err e, s).
Proof.
  destruct c as [c|c]; simpl; intros Hid Hv.
  - unfold start_encoded. rewrite Hid. destruct (_ || _) eqn:Hg; [by eauto|]. bool_prop. tauto.
  - destruct (transition_cases lim c s) as [[e He]|(task' & Hid' & Hc & _)]; [by eauto|].
    pose proof (ta_version _ _ Hc). congruence.
Qed.

(** Of two starts or transitions that name the same version of a task at
    most one succeeds: once the first has, the second is refused and changes
    nothing, however many other calls come between while the task is
    retained. *)
Theorem memory_compare_and_set n m s s1 s2 c1 c2 t :
  reachable lim n s → cas_call c1 s = (Ok t, s1) →
  is_Some (ms_encoded_tasks s1 !! (cas_target c1).1) →
  nsteps (retaining_step lim (cas_target c1).1) m s1 s2 → N.of_nat (S n + m) ≤ u64_max →
  cas_target c2 = cas_target c1 →
  ∃ e, cas_call c2 s2 = (Err e, s2).
Proof.
  intros Hr H1 [task1 Ht1] Hs Hmax Heq.
  destruct (reachable_inv lim Hlim n s Hr) as [Hwf _]; [lia|].
  destruct (cas_success _ _ _ _ Hwf H1) as [Hv Ht]. specialize (Ht _ Ht1).
  assert (memory_step lim s s1) as Hstep.
  { destruct c1 as [c|c]; simpl in H1.
    - pose proof (step_start lim c s) as Hx. by rewrite H1 in Hx.
    - pose proof (step_transition lim c s) as Hx. by rewrite H1 in Hx. }
  assert (∃ task2, ms_encoded_tasks s2 !! (cas_target c1).1 = Some task2) as [task2 Ht2].
  { destruct m as [|m]; [inversion Hs; subst; eauto|].
    apply nsteps_inv_r in Hs as (s' & _ & _ & H'). exact H'. }
  assert (task_advances task1 task2) as Hadv.
  { eapply (retaining_advances lim Hlim _ (S n) m s1); [by eapply nsteps_r|done..]. }
  apply (cas_stale c2 s2 task2); rewrite Heq; [done|].
  pose proof (adv_version _ _ Hadv). rewrite Ht in *. lia.
Qed.

(** A transition succeeds exactly when its command is valid, names the
    current version and attempt, and the lifecycle permits it or it annotates
    a finished task with a cancellation error; it then writes the summary it
    returns.  A refused transition writes nothing. *)
Theorem memory_transition_exact c s :
  wf lim s → (∀ task, ms_encoded_tasks s !! tc_id c = Some task →
                ts_state_version (st_summary task) < u64_max) →
  (∀ task, ms_encoded_tasks s !! tc_id c = Some task → transition_allowed c (st_summary task) →
     let t' := settle_state c (ts_state_version (st_summary task) + 1)
                 (enter_state c (st_summary task)) in
     ∃ s', transition_encoded lim c s = (Ok t', s') ∧ wf lim s' ∧
       (1 ≤ ml_history_capacity lim → ms_encoded_tasks s' !! tc_id c =
          Some {| st_request := st_request task; st_summary := t' |})) ∧
  ((∀ task, ms_encoded_tasks s !! tc_id c = Some task → ¬ transition_allowed c (st_summary task)) →
     ∃ e, transition_encoded lim c s = (Err e, s)).
Proof.
  intros Hwf Hver. split.
  - intros task Hid Hta. specialize (Hver task Hid).
    pose proof (transition_when_allowed lim c s task Hid Hta) as He. simpl in He.
    assert ((ts_state_version (st_summary task) + 1 <=? u64_max) = true) as Hle
      by (bool_prop; lia). rewrite Hle in He.
    remember (if negb _ && _ then _ else _) as s' eqn:Hs'. exists s'. split; [exact He|].
    pose proof (transition_encoded_wf lim Hlim c s Hwf) as Hwf'. rewrite He in Hwf'.
    split; [by apply Hwf'|]. intros Hcap.
    assert (memory_step lim s (transition_encoded lim c s).2) as Hstep by constructor.
    destruct (cas_success (inr c) s _ _ Hwf He) as [_ Hsum]. simpl in Hsum.
    rewrite He in Hstep. simpl in Hstep.
    pose proof (step_kept lim Hlim _ _ _ _ Hwf Hstep Hid) as Hk.
    destruct (ms_encoded_tasks s' !! tc_id c) as [[r' t']|] eqn:Hl.
    + destruct Hk as [Hreq _]. simpl in Hreq. specialize (Hsum _ eq_refl).
      simpl in Hsum. by rewrite Hreq, Hsum.
    + destruct Hk as [Hterm|[? _]]; [|lia]. unfold task_terminal in Hterm.
      rewrite Hterm in Hs'. simpl in Hs'. subst s'. simpl in Hl.
      by rewrite lookup_insert_eq in Hl.
  - intros Hno. destruct (transition_cases lim c s) as [?|(task & Hid & Hta & _)]; [done|].
    by destruct (Hno task Hid).
Qed.

(** C32. When a counter overflows the store fails the call but keeps what it
    has written: a transition at version [u64::MAX] reports an error and still
    moves the task, possibly to a terminal state that is never counted. *)
Theorem memory_overflow_not_atomic c s task :
  ms_encoded_tasks s !! tc_id c = Some task → transition_allowed c (st_summary task) →
  ts_state_version (st_summary task) = u64_max →
  transition_encoded lim c s =
    (Err (Failure "task state version overflow"),
     put_summary (tc_id c) task (enter_state c (st_summary task)) s).
Proof.
  intros Hid Hta Hv. rewrite (transition_when_allowed lim c s task Hid Hta), Hv. done.
Qed.

(** ** Pages *)

(** C29. The page built with a bounded heap is the page of the sorted list of
    all matching records, for every query with a valid limit; an excessive
    limit is refused. *)
Theorem memory_page_exact q s :
  wf lim s →
  list_encoded q s =
  if 256 <? tq_limit q then Err (InvalidRequest "task history page limit exceeds 256")
  else Ok (page_of (N.max (tq_limit q) 1) (selection q (ms_encoded_tasks s))).
Proof.
  intros Hwf. destruct (256 <? tq_limit q) eqn:Hq.
  - unfold list_encoded, checked_page_size, MAX_TASK_QUERY_LIMIT. by rewrite Hq.
  - apply (list_encoded_page lim); [apply Hwf|].
    unfold checked_page_size, MAX_TASK_QUERY_LIMIT. by rewrite Hq.
Qed.

(** C30. A client that follows the cursors of a query until there is none
    stops, and has read every matching record exactly once, in order of
    acceptance. *)
Theorem memory_pagination q s fuel :
  wf lim s → tq_limit q ≤ 256 →
  (size (ms_encoded_tasks s) ≤ fuel)%nat →
  ∃ records, read_pages fuel q s = Some records ∧
    StronglySorted (key_rel key_le ts_key) records ∧ NoDup (ts_id <$> records) ∧
    ∀ t, t ∈ records ↔ query_matches q t = true ∧
      ∃ task, ms_encoded_tasks s !! ts_id t = Some task ∧ st_summary task = t.
Proof.
  intros Hwf Hlimit Hfuel. exists (selection q (ms_encoded_tasks s)). split_and!.
  - apply (read_pages_selection lim q s (N.max (tq_limit q) 1)); [apply Hwf|..].
    + unfold checked_page_size, MAX_TASK_QUERY_LIMIT.
      destruct (_ <? _) eqn:E; [bool_prop; lia|done].
    + etrans; [|exact Hfuel]. apply selection_length.
  - apply selection_sorted.
  - apply selection_ids_NoDup, (core_ids lim), Hwf.
  - intros t. apply elem_of_selection, (core_ids lim), Hwf.
Qed.

(** A queued task is listed as ready exactly when its retry deadline has
    passed; when none is ready, the reported next deadline is the first
    moment at which one becomes ready. *)
Theorem memory_ready_deadline now s id task :
  wf lim s → ms_encoded_tasks s !! id = Some task → ts_state (st_summary task) = Queued →
  st_summary task ∈ ready_selection None now (ms_encoded_tasks s) ∨
  ∃ d, next_retry_deadline now s = Some d ∧ now < d ∧
    (∀ now', now ≤ now' → now' < d →
       ready_selection None now' (ms_encoded_tasks s) =
       ready_selection None now (ms_encoded_tasks s)) ∧
    ready_selection None d (ms_encoded_tasks s) ≠ ready_selection None now (ms_encoded_tasks s).
Proof.
  intros Hwf Hid Hq. pose proof (wf_core _ _ Hwf) as Hc.
  assert (∃ task', ms_encoded_tasks s !! ts_id (st_summary task) = Some task' ∧
    st_summary task' = st_summary task) as Hself.
  { rewrite (twf_id _ _ (cwf_task lim s Hc _ _ Hid)). eauto. }
  destruct (ts_retry_not_before_ms (st_summary task)) as [d0|] eqn:Hd0; last first.
  { left. apply (elem_of_ready_selection lim); [done|]. split_and!; [done|done|congruence|done]. }
  destruct (decide (d0 ≤ now)) as [Hle|Hgt].
  { left. apply (elem_of_ready_selection lim); [done|].
    split_and!; [done|done|intros d Hd; by simplify_eq|done]. }
  right. destruct (next_retry_deadline now s) as [d|] eqn:Hnext; last first.
  { exfalso. apply Hgt. by eapply (next_retry_deadline_None lim now s id task). }
  apply (next_retry_deadline_Some lim) in Hnext as [(Hlt & id' & task' & Hid' & Hq' & Hd') Hmin]; [|done].
  exists d. split_and!; [done|done|..].
  - intros now' H1 H2. unfold ready_selection. f_equal. apply filter_ext_in. intros t Ht.
    apply elem_of_summaries in Ht as (task2 & Hid2 & <-); [|by apply (core_ids lim)].
    rewrite !Is_true_true. apply ready_matches_time; [done|]. intros d2 Hq2 Hd2.
    destruct (decide (now < d2)) as [Hlt2|]; [|lia].
    specialize (Hmin _ _ _ Hid2 Hq2 Hd2 Hlt2). lia.
  - intros Heq. assert (st_summary task' ∈ ready_selection None now (ms_encoded_tasks s)) as Hin.
    { rewrite <- Heq. apply (elem_of_ready_selection lim); [done|].
      rewrite (twf_id _ _ (cwf_task lim s Hc _ _ Hid')).
      split_and!; [by eauto|done|intros ? Hx; simplify_eq; lia|done]. }
    apply (elem_of_ready_selection lim) in Hin as (_ & _ & Hready & _); [|done].
    specialize (Hready d Hd'). lia.
Qed.

(** Pruning forgets at most the requested number of tasks: only finished
    ones that finished before the cutoff, the oldest of them first, and all
    of them when the limit allows. *)
Theorem memory_prune_exact before rows s :
  wf lim s →
  let '(n, s') := prune_terminal_before before rows s in
  ∃ removed : list TaskId,
    NoDup removed ∧ n = N.of_nat (length removed) ∧ n ≤ rows ∧
    (∀ id, ms_encoded_tasks s' !! id =
       if decide (id ∈ removed) then None else ms_encoded_tasks s !! id) ∧
    (∀ id, id ∈ removed → ∃ task f, ms_encoded_tasks s !! id = Some task ∧ expired before task f) ∧
    (n < rows → ∀ id task f, ms_encoded_tasks s' !! id = Some task → ¬ expired before task f) ∧
    (∀ id id' task task' f f', id ∈ removed → ms_encoded_tasks s !! id = Some task →
       expired before task f → ms_encoded_tasks s' !! id' = Some task' →
       expired before task' f' → key_le (f, id) (f', id')).
Proof.
  intros Hwf. pose proof (wf_core _ _ Hwf) as Hc. unfold prune_terminal_before.
  set (chosen := take (N.to_nat rows) (sort_by key_le id (prune_candidates before s))).
  change (prune_expired before rows s) with chosen.*2.
  assert (∀ id f task, ms_encoded_tasks s !! id = Some task → expired before task f →
    id ∈ chosen.*2 ↔ (f, id) ∈ chosen) as Hch.
  { intros id f task Hid Hx. split; [|intros Hin; by apply (list_elem_of_fmap_2 snd) in Hin].
    intros ([f' id'] & -> & Hin)%list_elem_of_fmap. simpl in *.
    assert ((f', id') ∈ prune_candidates before s) as Hc'.
    { apply subseteq_take in Hin. by rewrite sort_by_Permutation in Hin. }
    apply (elem_of_prune_candidates lim) in Hc' as (task' & Hid' & _ & Hf' & _); [|done].
    destruct Hx as (_ & Hf & _). by simplify_eq. }
  assert (∀ id f task, ms_encoded_tasks s !! id = Some task → expired before task f →
    (f, id) ∈ prune_candidates before s) as Hcand.
  { intros id f task Hid Hx. apply (elem_of_prune_candidates lim); eauto. }
  exists chosen.*2. split_and!; [..|].
  - unfold chosen. rewrite fmap_take.
    eapply sublist_NoDup; [|apply sublist_take]. rewrite sort_by_Permutation.
    by apply (prune_candidates_NoDup lim).
  - done.
  - unfold chosen. rewrite length_fmap, length_take. lia.
  - apply removed_all_lookup.
  - intros id ([f id'] & -> & Hin)%list_elem_of_fmap. simpl.
    apply subseteq_take in Hin. rewrite sort_by_Permutation in Hin.
    apply (elem_of_prune_candidates lim) in Hin as (task & ? & ?); [|done]. eauto.
  - rewrite length_fmap. intros Hlt id task f. rewrite removed_all_lookup.
    case_decide as Hni; [done|]. intros Hid Hx. apply Hni, (Hch id f task Hid Hx).
    unfold chosen in *. rewrite length_take in Hlt. rewrite take_ge by lia.
    rewrite sort_by_Permutation. by eapply Hcand.
  - intros id id' task task' f f' Hin Hid Hx. rewrite removed_all_lookup.
    case_decide as Hni; [done|]. intros Hid' Hx'.
    eapply prune_expired_oldest; [by eapply Hch|by eapply Hcand|].
    intros Hbad. apply Hni. by eapply Hch.
Qed.

(** ** Ownership *)

(** Epochs are never handed out twice: while one is held every other
    acquisition fails, a later acquisition gets a larger epoch, and then the
    earlier epoch no longer releases anything. *)
Theorem memory_owner_exclusive s s1 s2 s3 e1 e2 :
  acquire_owner s = (Ok e1, s1) →
  acquire_owner s1 = (Err OwnerConflict, s1) ∧
  (rtc (memory_step lim) s1 s2 → acquire_owner s2 = (Ok e2, s3) →
   e1 < e2 ∧ release_owner e1 s3 = (Err OwnerConflict, s3)).
Proof.
  intros H1. destruct (acquire_ok s s1 e1 H1) as (_ & -> & Ho1 & Hl1).
  split; [unfold acquire_owner; by rewrite Ho1|]. intros Hs H2.
  destruct (acquire_ok s2 s3 e2 H2) as (_ & -> & Ho2 & Hl2).
  assert (ms_last_owner_epoch s1 ≤ ms_last_owner_epoch s2) as Hmono.
  { clear -Hs. induction Hs as [|x y z Hstep _ IH]; [done|].
    pose proof (step_epoch _ _ _ Hstep). lia. }
  split; [lia|]. unfold release_owner. rewrite bool_decide_false; [done|].
  rewrite Ho2. intros [= He]. lia.
Qed.
End properties.

#[local] Existing Instance fixture_types.
#[local] Existing Instance fixture_json.

Lemma memory_invariant_witness : wf demo_limits demo_state4.
Proof. apply (memory_invariant demo_limits demo_limits_ok 4); [apply demo_reachable4|done]. Defined.



Lemma memory_task_history_witness :
  ts_state (st_summary (task_of 1 demo_state1)) = Queued ∧
  ts_state (st_summary (task_of 1 demo_state3)) = Succeeded ∧
  task_advances (task_of 1 demo_state1) (task_of 1 demo_state3).
Proof.
  split; [reflexivity|]. split; [reflexivity|].
  apply (memory_task_history demo_limits demo_limits_ok 1 1 2 demo_state1 demo_state3).
  - apply demo_reachable1.
  - eapply nsteps_l; [|eapply nsteps_l; [|constructor]]; split.
    + apply (step_start demo_limits (demo_start 1 0 6)).
    + vm_compute. eauto.
    + apply (step_transition demo_limits (finish_command 1 1 1 7)).
    + vm_compute. eauto.
  - vm_compute. congruence.
  - reflexivity.
  - reflexivity.
Defined.

Lemma memory_unfinished_kept_witness :
  is_Some (ms_encoded_tasks (transition_encoded demo_limits (finish_command 1 1 1 7) demo_state2).2
             !! 1).
Proof.
  apply (memory_unfinished_kept demo_limits demo_limits_ok 2 demo_state2 _ 1 (task_of 1 demo_state2)).
  - apply demo_reachable2.
  - vm_compute. congruence.
  - vm_compute. congruence.
  - apply step_transition.
  - reflexivity.
  - reflexivity.
Defined.


Lemma memory_resubmission_witness :
  accept_encoded demo_limits 9 3 (demo_request (Some "k"%string) 4) demo_state4 =
  (Ok {| ao_summary := st_summary (task_of 1 demo_state4); ao_created := false |}, demo_state4).
Proof.
  exact (memory_resubmission demo_limits 9 3 (demo_request (Some "k"%string) 4)
    demo_state4 1 (task_of 1 demo_state4) "k"%string demo_wf4 ltac:(discriminate)
    ltac:(discriminate) eq_refl eq_refl eq_refl).
Defined.

Lemma memory_compare_and_set_witness :
  ∃ e, cas_call demo_limits (inl (demo_start 1 0 7)) demo_state3 = (Err e, demo_state3).
Proof.
  apply (memory_compare_and_set demo_limits demo_limits_ok 1 1 demo_state1 demo_state2 demo_state3
    (inl (demo_start 1 0 6)) (inl (demo_start 1 0 7)) (st_summary (task_of 1 demo_state2))).
  - apply demo_reachable1.
  - vm_compute. reflexivity.
  - vm_compute. eauto.
  - eapply nsteps_l; [|constructor]. split.
    + apply (step_transition demo_limits (finish_command 1 1 1 7)).
    + vm_compute. eauto.
  - vm_compute. congruence.
  - reflexivity.
Defined.

Lemma demo_finish_allowed :
  transition_allowed (finish_command 1 1 1 7) (st_summary (task_of 1 demo_state2)).
Proof.
  split; vm_compute; try reflexivity; try (by left); by intros [? [=]].
Qed.

Lemma memory_transition_exact_witness :
  ∃ s', (transition_encoded demo_limits (finish_command 1 1 1 7) demo_state2).2 = s' ∧
    wf demo_limits s'.
Proof.
  destruct (proj1 (memory_transition_exact demo_limits demo_limits_ok (finish_command 1 1 1 7)
    demo_state2 demo_wf2 ltac:(intros task [= <-]; vm_compute; reflexivity))
    (task_of 1 demo_state2) eq_refl demo_finish_allowed) as (s' & Heq & Hwf & _).
  exists s'. rewrite Heq. split; [reflexivity|exact Hwf].
Defined.

(** A running task whose version counter is exhausted. *)
Definition exhausted_state : MemoryState :=
  put_summary 1 (task_of 1 demo_state2)
    (with_state_version u64_max (st_summary (task_of 1 demo_state2))) demo_state2.

Lemma memory_overflow_not_atomic_witness :
  ts_state (st_summary (task_of 1 (transition_encoded demo_limits
     (finish_command 1 u64_max 1 7) exhausted_state).2)) = Succeeded.
Proof.
  rewrite (memory_overflow_not_atomic demo_limits (finish_command 1 u64_max 1 7) exhausted_state
    (task_of 1 exhausted_state)).
  - vm_compute. reflexivity.
  - reflexivity.
  - split; vm_compute; try reflexivity; try (by left); by intros [? [=]].
  - vm_compute. reflexivity.
Defined.

Definition all_tasks (limit : N) : TaskQuery :=
  {| tq_states := []; tq_category := None; tq_correlation_key := None;
     tq_after := None; tq_limit := limit |}.

Lemma memory_page_exact_witness :
  list_encoded (all_tasks 1) demo_state4 =
  Ok (page_of 1 (selection (all_tasks 1) (ms_encoded_tasks demo_state4))).
Proof. exact (memory_page_exact demo_limits (all_tasks 1) demo_state4 demo_wf4). Defined.

Lemma memory_pagination_witness :
  ∃ records, read_pages 2 (all_tasks 1) demo_state4 = Some records ∧
    StronglySorted (key_rel key_le ts_key) records ∧ NoDup (ts_id <$> records) ∧
    ∀ t, t ∈ records ↔ query_matches (all_tasks 1) t = true ∧
      ∃ task, ms_encoded_tasks demo_state4 !! ts_id t = Some task ∧ st_summary task = t.
Proof.
  apply (memory_pagination demo_limits (all_tasks 1) demo_state4 2 demo_wf4);
    vm_compute; [congruence|lia].
Defined.

(** Task 1 failed once and waits until 100. *)
Definition waiting_state : MemoryState :=
  (transition_encoded demo_limits (retry_command 1 1 1 100) demo_state2).2.

Lemma waiting_wf : wf demo_limits waiting_state.
Proof. by apply transition_encoded_wf; [apply demo_limits_ok|apply demo_wf2|]. Qed.

Lemma memory_ready_deadline_witness :
  st_summary (task_of 1 waiting_state) ∈ ready_selection None 50 (ms_encoded_tasks waiting_state) ∨
  ∃ d, next_retry_deadline 50 waiting_state = Some d ∧ 50 < d ∧
    (∀ now', 50 ≤ now' → now' < d →
       ready_selection None now' (ms_encoded_tasks waiting_state) =
       ready_selection None 50 (ms_encoded_tasks waiting_state)) ∧
    ready_selection None d (ms_encoded_tasks waiting_state) ≠
      ready_selection None 50 (ms_encoded_tasks waiting_state).
Proof.
  exact (memory_ready_deadline demo_limits 50 waiting_state 1 (task_of 1 waiting_state)
    waiting_wf eq_refl eq_refl).
Defined.

Lemma memory_prune_exact_witness :
  (prune_terminal_before 100 5 demo_state4).1 = 1 ∧
  ∃ removed : list TaskId, 1 = N.of_nat (length removed) ∧
    ∀ id, id ∈ removed → ∃ task f,
      ms_encoded_tasks demo_state4 !! id = Some task ∧ expired 100 task f.
Proof.
  split; [vm_compute; reflexivity|].
  destruct (memory_prune_exact demo_limits 100 5 demo_state4 demo_wf4)
    as (removed & _ & Hn & _ & _ & Hx & _).
  exists removed. split; [rewrite <- Hn; vm_compute; reflexivity|exact Hx].
Defined.

Lemma memory_owner_exclusive_witness :
  acquire_owner (set_owner (Some 1) 1 demo_state4) =
    (Err OwnerConflict, set_owner (Some 1) 1 demo_state4) ∧
  release_owner 1 (set_owner (Some 2) 2 demo_state4) =
    (Err OwnerConflict, set_owner (Some 2) 2 demo_state4).
Proof.
  destruct (memory_owner_exclusive demo_limits demo_state4 (set_owner (Some 1) 1 demo_state4)
    (set_owner None 1 demo_state4) (set_owner (Some 2) 2 demo_state4) 1 2) as [H1 H2].
  - vm_compute. reflexivity.
  - split; [exact H1|]. apply H2.
    + eapply rtc_l; [|apply rtc_refl].
      exact (step_release demo_limits 1 (set_owner (Some 1) 1 demo_state4)).
    + vm_compute. reflexivity.
Defined.
