(* ===== verification/RequestProperties.v ===== *)
(** * Requests and handlers: properties

    What holds of every request that reaches a store and of every handler a
    registry dispatches to. *)

From S2P Require Import Prelude TaskState Model MemoryStore Requests Handlers Fixtures.

Section properties.
Context `{ET : !ExternalTypes, CT : !CodecTypes, MW : !MetadataWire, HF : !HandlerFutures}.

(** Encoding a request succeeds exactly when its kind is not blank, its
    resource description, metadata and encoded payload are within their
    limits, and its codec is registered for its type and encodes it; every
    field is then stored unchanged. *)
Theorem request_encode_exact r registry s :
  TaskRequest_encode r registry = Ok s ↔ encodes registry r s.
Proof. apply TaskRequest_encode_Ok. Qed.

(** A resource description is accepted exactly when it has at most 32
    distinct labels and 32 custom names, none empty or longer than 128 bytes,
    and labels only with at least one device; the 8192-byte limit on the
    total never decides. *)
Theorem resource_limits_exact r :
  (validate_limits r = Ok tt ↔ resource_wf r) ∧
  validate_limits r ≠ Err "resource descriptions exceed the 8192-byte limit"%string.
Proof.
  split; [apply validate_limits_Ok|apply validate_limits_message].
Qed.

(** One registration attempt. *)
Record Attempt := {
  at_descriptor : TaskHandlerDescriptor;
  at_input_type : TypeId;
  at_run : Value → TaskContext → RunFuture;
  at_source : string;
  at_hook : option (TaskId → N → HookFuture);
}.
Definition attempt_register (r : TypedTaskHandlerRegistry) (a : Attempt)
    : TypedTaskHandlerRegistry :=
  (register_with_options (at_descriptor a) (at_input_type a) (at_run a) (at_source a)
     (at_hook a) r).2.
Definition register_all (l : list Attempt) (r : TypedTaskHandlerRegistry)
    : TypedTaskHandlerRegistry := foldl attempt_register r l.

Lemma register_all_wf l r : registry_wf r → registry_wf (register_all l r).
Proof.
  revert r. induction l as [|a l IH]; intros r Hr; [done|]. apply IH. by apply register_wf.
Qed.

Lemma register_all_keeps l r kind_id g :
  r !! kind_id = Some g → register_all l r !! kind_id = Some g.
Proof.
  revert r. induction l as [|a l IH]; intros r Hk; [done|]. apply IH. unfold attempt_register.
  destruct (register_cases (at_descriptor a) (at_input_type a) (at_run a) (at_source a)
    (at_hook a) r) as [[e ->]|(_ & _ & Hfree & ->)]; [done|].
  simpl. rewrite lookup_insert_ne; [done|]. congruence.
Qed.

(** After any sequence of registrations every handler is stored under
    its own valid descriptor, has a cancellation hook exactly when its mode
    calls one, and is never replaced by a later registration. *)
Theorem registry_invariant l1 l2 kind_id g :
  register_all l1 registry_new !! kind_id = Some g →
  hd_kind_id (reg_descriptor g) = kind_id ∧ descriptor_wf (reg_descriptor g) ∧
  (has_external_cancellation_hook kind_id (register_all l1 registry_new) = true ↔
   hd_cancellation_mode (reg_descriptor g) = ExternalHook) ∧
  register_all l2 (register_all l1 registry_new) !! kind_id = Some g.
Proof.
  intros Hg. assert (registry_wf (register_all l1 registry_new)) as Hwf.
  { apply register_all_wf. apply registry_new_wf. }
  destruct (Hwf _ _ Hg) as (Hk & Hd & _ & Hh). split_and!; [done|done| |by apply register_all_keeps].
  unfold has_external_cancellation_hook. rewrite Hg. simpl. by rewrite is_some_true.
Qed.

(** C34. A submitted value reaches its handler: when the request was encoded,
    the handler of its kind accepts its model, schema version and Rust type,
    and the codec reads back what it wrote, dispatching the stored payload
    prepares a run of that handler on the value that was submitted. *)
Theorem payload_roundtrip r codecs stored l g d :
  TaskRequest_encode r codecs = Ok stored →
  codecs !! pl_codec_id (tr_payload r) = Some d → codec_lawful d →
  value_type (pl_data (tr_payload r)) = pl_rust_type (tr_payload r) →
  register_all l registry_new !! tr_kind_id r = Some g →
  hd_payload_type_id (reg_descriptor g) = pl_model_id (tr_payload r) →
  pl_schema_version (tr_payload r) ∈ hd_accepted_schema_versions (reg_descriptor g) →
  ta_input_type (reg_handler g) = pl_rust_type (tr_payload r) →
  prepare (sr_kind_id stored) (sr_payload stored) codecs (register_all l registry_new) =
    Ok (ta_run (reg_handler g) (pl_data (tr_payload r))).
Proof.
  intros He Hd Hlaw Hv Hg Hm Hs Ht. apply TaskRequest_encode_Ok in He.
  destruct (enc_bytes _ _ _ He) as (d' & Hd' & Hdt & Hb & _). simplify_eq.
  assert (registry_wf (register_all l registry_new)) as Hwf.
  { apply register_all_wf. apply registry_new_wf. }
  destruct (Hwf _ _ Hg) as (_ & _ & Hta & _).
  unfold prepare. rewrite (proj1 (enc_kind _ _ _ He)), Hg. simpl. apply adapter_prepare_Ok.
  rewrite Hta, Hm, (enc_type _ _ _ He), (enc_schema _ _ _ He). split_and!; [done|done|].
  exists d, (pl_data (tr_payload r)). rewrite (enc_codec _ _ _ He). split_and!; [done| |by congruence|done].
  apply Hlaw; [congruence|done].
Qed.
End properties.

(** ** Concrete codecs and handlers *)

#[local] Existing Instance fixture_types.

(** Values are byte strings, encoded as they are. *)
Definition fixture_codec_types : CodecTypes :=
  {| TypeId := string; type_id_eq_dec := _; Value := bytes;
     value_type := λ _, "Bytes"%string; CodecError := string |}.
#[local] Existing Instance fixture_codec_types.
Definition fixture_wire : MetadataWire :=
  {| MetadataWireEncodeError := unit; is_output_budget := λ _, true;
     to_json_vec_with_limits := λ limit m,
       if limit <? 2 * metadata_len m then Err tt else Ok [Byte.x7b; Byte.x7d] |}.
#[local] Existing Instance fixture_wire.
(** A run yields the input it was given. *)
Definition fixture_futures : HandlerFutures :=
  {| TaskContext := unit; RunFuture := bytes; HookFuture := unit |}.
#[local] Existing Instance fixture_futures.

Definition bytes_codec : CodecDescriptor :=
  {| cd_value_type_id := "Bytes"%string : TypeId; cd_encode := λ v, Ok v; cd_decode := λ b, Ok b |}.
Definition demo_codecs : ValueBytesCodecRegistry := {[ "raw"%string := bytes_codec ]}.

Lemma bytes_codec_lawful : codec_lawful bytes_codec.
Proof. intros v bs _ [= <-]. done. Qed.

Definition demo_typed_request : TaskRequest :=
  TaskRequest_new "copy"%string
    {| pl_model_id := "demo.bytes"%string : ModelIdBuf; pl_rust_type := "Bytes"%string : TypeId;
       pl_schema_version := 2; pl_codec_id := "raw"%string;
       pl_data := [Byte.x01; Byte.x02] : Value |}.

Definition demo_attempt (versions : list N) : Attempt :=
  {| at_descriptor :=
       {| hd_kind_id := "copy"%string; hd_payload_type_id := "demo.bytes"%string : ModelIdBuf;
          hd_accepted_schema_versions := versions; hd_cancellation_mode := Cooperative |};
     at_input_type := "Bytes"%string : TypeId; at_run := λ v _, v; at_source := "demo"%string;
     at_hook := None |}.

(** The second attempt repeats a version, the third repeats the kind. *)
Definition demo_attempts : list Attempt :=
  [demo_attempt [1; 2]; demo_attempt [1; 1]; demo_attempt [3]].

Lemma registry_invariant_witness :
  ∃ g, register_all demo_attempts registry_new !! "copy"%string = Some g ∧
    hd_accepted_schema_versions (reg_descriptor g) = [1; 2] ∧
    register_all demo_attempts (register_all demo_attempts registry_new) !! "copy"%string = Some g.
Proof.
  eexists. split; [reflexivity|]. split; [reflexivity|].
  apply (registry_invariant demo_attempts demo_attempts "copy"%string). reflexivity.
Defined.

Lemma payload_roundtrip_witness :
  ∃ stored p, TaskRequest_encode demo_typed_request demo_codecs = Ok stored ∧
    prepare (sr_kind_id stored) (sr_payload stored) demo_codecs
      (register_all demo_attempts registry_new) = Ok p ∧
    p tt = [Byte.x01; Byte.x02].
Proof.
  eexists _, _. split; [reflexivity|]. split.
  - eapply (payload_roundtrip demo_typed_request demo_codecs _ demo_attempts).
    + reflexivity.
    + reflexivity.
    + apply bytes_codec_lawful.
    + reflexivity.
    + reflexivity.
    + reflexivity.
    + vm_compute. right. left.
    + reflexivity.
  - reflexivity.
Defined.
