(* ===== verification/SqliteIds.v ===== *)
(** * Task identifiers as text keys

    [to_padded_decimal] of [src/src/model/typed/task_id.rs] and the
    [str::parse::<u64>] that reads it back.  The SQLite tables are keyed and
    ordered by this text; the models key and order them by the number. *)

From Stdlib Require Import Ascii String.
From S2P Require Import Prelude Model.

Definition digit_char (d : N) : ascii := ascii_of_N (48 + d).

(** The [k] low decimal digits of [n], most significant first. *)
Fixpoint padded (k : nat) (n : N) : string :=
  match k with
  | O => EmptyString
  | S k' => String (digit_char (n / 10 ^ N.of_nat k' mod 10)) (padded k' n)
  end.

(** [format!("{:020}", value)]: every [u64] has at most 20 digits. *)
Definition to_padded_decimal (id : TaskId) : string := padded 20 id.

Definition digit_value (c : ascii) : option N :=
  let n := N_of_ascii c in
  if (48 <=? n) && (n <=? 57) then Some (n - 48) else None.

Fixpoint parse_digits (s : string) (acc : N) : option N :=
  match s with
  | EmptyString => Some acc
  | String c rest =>
      d ← digit_value c;
      if acc * 10 <=? u64_max then acc' ← checked_add u64_max (acc * 10) d; parse_digits rest acc'
      else None
  end.

(** [str::parse::<u64>]: one optional sign, at least one digit, no overflow. *)
Definition parse_u64 (s : string) : option N :=
  match s with
  | EmptyString => None
  | String c rest =>
      if bool_decide (c = "+"%char) then (if str_is_empty rest then None else parse_digits rest 0)
      else parse_digits s 0
  end.

(** ** Digits *)

Lemma N_of_digit_char d : d < 10 → N_of_ascii (digit_char d) = 48 + d.
Proof. intros Hd. unfold digit_char. apply N_ascii_embedding. lia. Qed.

Lemma digit_value_char d : d < 10 → digit_value (digit_char d) = Some d.
Proof.
  intros Hd. unfold digit_value. rewrite N_of_digit_char by done.
  destruct (_ && _) eqn:Hg; bool_prop; [f_equal; lia|lia].
Qed.

Lemma digit_not_plus d : d < 10 → digit_char d ≠ "+"%char.
Proof.
  intros Hd Heq. apply (f_equal N_of_ascii) in Heq. rewrite N_of_digit_char in Heq by done.
  change (N_of_ascii "+"%char) with 43 in Heq. lia.
Qed.

(** The first digit and the rest of a padded number. *)
Lemma padded_split (k : nat) n :
  n mod 10 ^ N.of_nat (S k) =
  (n / 10 ^ N.of_nat k mod 10) * 10 ^ N.of_nat k + n mod 10 ^ N.of_nat k.
Proof.
  rewrite Nat2N.inj_succ, N.pow_succ_r', (N.mul_comm 10).
  rewrite N.Div0.mod_mul_r. lia.
Qed.

Lemma pow10_pos (k : nat) : 1 ≤ 10 ^ N.of_nat k.
Proof. pose proof (N.pow_nonzero 10 (N.of_nat k)). lia. Qed.

Lemma padded_length k n : String.length (padded k n) = k.
Proof. induction k as [|k IH]; simpl; [done|]. by rewrite IH. Qed.

(** ** Order *)

Lemma leading_digit_lt p x y r t : x < y → r < p → x * p + r < y * p + t.
Proof.
  intros Hxy Hr. assert ((x + 1) * p ≤ y * p) as Hm by (apply N.mul_le_mono_r; lia).
  rewrite N.mul_add_distr_r in Hm. lia.
Qed.

Lemma padded_compare k a b :
  String.compare (padded k a) (padded k b) = (a mod 10 ^ N.of_nat k ?= b mod 10 ^ N.of_nat k).
Proof.
  induction k as [|k IH]; [by rewrite !N.mod_1_r|].
  rewrite !padded_split. cbn [padded String.compare]. unfold Ascii.compare.
  set (p := 10 ^ N.of_nat k) in *. set (x := a / p mod 10). set (y := b / p mod 10).
  assert (x < 10) as Hx by (apply N.mod_lt; lia). assert (y < 10) as Hy by (apply N.mod_lt; lia).
  assert (1 ≤ p) as Hp by apply pow10_pos.
  assert (a mod p < p) by (apply N.mod_lt; lia). assert (b mod p < p) by (apply N.mod_lt; lia).
  rewrite !N_of_digit_char by done. rewrite IH. symmetry.
  destruct (N.compare_spec x y) as [->|Hlt|Hgt].
  - rewrite N.compare_refl. destruct (N.compare_spec (a mod p) (b mod p)).
    + apply N.compare_eq_iff. lia.
    + apply N.compare_lt_iff. lia.
    + apply N.compare_gt_iff. lia.
  - rewrite (proj2 (N.compare_lt_iff (48 + x) (48 + y))) by lia.
    by apply N.compare_lt_iff, leading_digit_lt.
  - rewrite (proj2 (N.compare_gt_iff (48 + x) (48 + y))) by lia.
    by apply N.compare_gt_iff, leading_digit_lt.
Qed.

(** ** Reading back *)

Lemma parse_padded k n acc :
  acc * 10 ^ N.of_nat k + n mod 10 ^ N.of_nat k ≤ u64_max →
  parse_digits (padded k n) acc = Some (acc * 10 ^ N.of_nat k + n mod 10 ^ N.of_nat k).
Proof.
  revert acc. induction k as [|k IH]; intros acc Hb.
  { cbn. f_equal. rewrite N.mod_1_r. lia. }
  rewrite padded_split in *. cbn [padded parse_digits].
  rewrite Nat2N.inj_succ, N.pow_succ_r' in *.
  set (p := 10 ^ N.of_nat k) in *. set (x := n / p mod 10) in *.
  assert (x < 10) as Hx by (apply N.mod_lt; lia). assert (1 ≤ p) as Hp by apply pow10_pos.
  rewrite digit_value_char by done. cbn [mbind option_bind].
  assert (acc * (10 * p) + (x * p + n mod p) = (acc * 10 + x) * p + n mod p) as Heq by ring.
  rewrite Heq in *. assert (acc * 10 + x ≤ u64_max) as Hs.
  { etrans; [|exact Hb]. transitivity ((acc * 10 + x) * p); [|lia].
    rewrite <- (N.mul_1_r (acc * 10 + x)) at 1. by apply N.mul_le_mono_l. }
  destruct (_ <=? _) eqn:Hle; bool_prop; [|lia].
  rewrite (proj2 (checked_add_Some u64_max (acc * 10) x _) (conj eq_refl Hs)). cbn [mbind option_bind].
  by apply IH.
Qed.

(** ** The key of a task *)

Lemma padded_u64 a : a ≤ u64_max → a mod 10 ^ N.of_nat 20 = a.
Proof. intros Ha. apply N.mod_small. unfold u64_max in Ha. change (10 ^ N.of_nat 20) with 100000000000000000000. lia. Qed.

(** The text key of a task has 20 characters, reads back as the identifier,
    and orders as text the way identifiers order as numbers; so ordering rows
    by key, comparing a key with a cursor's and looking a key up are the
    numeric operations. *)
Theorem task_id_text_key a b :
  a ≤ u64_max → b ≤ u64_max →
  String.length (to_padded_decimal a) = 20%nat ∧
  parse_u64 (to_padded_decimal a) = Some a ∧
  String.compare (to_padded_decimal a) (to_padded_decimal b) = (a ?= b).
Proof.
  intros Ha Hb. split_and!.
  - apply padded_length.
  - pose proof (parse_padded 20 a 0) as Hp. rewrite (padded_u64 a Ha) in Hp. rewrite N.mul_0_l, N.add_0_l in Hp.
    rewrite <- Hp by done. unfold to_padded_decimal.
    change (padded 20 a) with (String (digit_char (a / 10 ^ N.of_nat 19 mod 10)) (padded 19 a)).
    unfold parse_u64. rewrite bool_decide_false; [done|]. apply digit_not_plus, N.mod_lt. lia.
  - unfold to_padded_decimal. by rewrite padded_compare, !padded_u64.
Qed.

Lemma task_id_text_key_witness :
  String.compare (to_padded_decimal 9) (to_padded_decimal 18446744073709551615) = Lt ∧
  to_padded_decimal 42 = "00000000000000000042"%string.
Proof.
  split; [|vm_compute; reflexivity].
  destruct (task_id_text_key 9 18446744073709551615) as (_ & _ & H); [done|done|]. exact H.
Defined.
