(* ===== verification/SqliteStore.v ===== *)
(** * The SQLite task store: definitions

    [src/src/store/sqlite_task_store.rs] and its [internal] modules.  The
    database is the value of its tables; a statement is a function on that
    value.  Operations are serialized by the store's operation slot and run in
    one transaction each, so an operation returns either an error, and the
    database is as before, or a result with the next database.

    The [id] column holds [to_padded_decimal] of a task identifier; the tables
    are keyed by the identifier itself, which is justified by the lemmas on
    [to_padded_decimal] in [SqliteIds].  JSON encoders and decoders
    (serde_json) and SQLite's [json_extract] are parameters.  Statements that
    fail for reasons outside the data (I/O, a full disk) are not modelled. *)

From stdpp Require Import pretty.
From S2P Require Import Prelude TaskState Model MemoryStore.

(** [i64::try_from(value).map_err(failure)]: the error's display text. *)
Definition try_from_int_message : string := "out of range integral type conversion attempted".

Definition sqlite_i64_from_u64 (value : N) (field : string) : result Z StoreError :=
  ok_or (Failure (field +:+ " exceeds SQLite integer range")) (i64_try_from value).
Definition sqlite_u64_from_i64 (value : Z) (field : string) : result N StoreError :=
  ok_or (Failure (field +:+ " is negative in SQLite")) (u64_try_from value).
Definition i64_or_failure (value : N) : result Z StoreError :=
  ok_or (Failure try_from_int_message) (i64_try_from value).
Definition u64_or_failure (value : Z) : result N StoreError :=
  ok_or (Failure try_from_int_message) (u64_try_from value).

(** [map(f).transpose()] on an optional argument. *)
Definition option_traverse {A B E} (f : A → result B E) (o : option A) : result (option B) E :=
  match o with
  | None => Ok None
  | Some a => result_map Some (f a)
  end.

(** Collecting an iterator of results stops at the first error. *)
Fixpoint result_mapM {A B E} (f : A → result B E) (l : list A) : result (list B) E :=
  match l with
  | [] => Ok []
  | a :: rest =>
      let? b := f a in
      let? bs := result_mapM f rest in
      Ok (b :: bs)
  end.

Definition RECORD_FORMAT_VERSION : Z := 4.
Definition MAX_EVENT_BYTES : N := 128 * 1024.
Definition MAX_QUARANTINE_REASON_BYTES : N := 4096.

Section sqlite.
Context `{ET : !ExternalTypes, SJ : !SnapshotJson}.

(** ** Stored records *)

Record StoredRequestInfo := {
  ri_kind_id : string;
  ri_category : option string;
  ri_payload_type_id : string;
  ri_payload_schema_version : N;
  ri_payload_codec_id : string;
  ri_metadata : Metadata;
  ri_resource_limit : ResourceRequest;
  ri_correlation_key : option string;
  ri_idempotency_key : option string;
}.

Record StoredTypedLifecycle := {
  lc_state : TaskState;
  lc_cancel_requested : bool;
  lc_cancel_error : option string;
  lc_state_version : N;
  lc_attempt : N;
  lc_retry_not_before_ms : option N;
  lc_accepted_at_ms : N;
  lc_started_at_ms : option N;
  lc_finished_at_ms : option N;
  lc_progress : option TaskProgressSnapshot;
  lc_output : option TaskOutput;
}.

Record TaskEvent := {
  ev_schema_version : N;
  ev_task_id : TaskId;
  ev_state_version : N;
  ev_state : TaskState;
  ev_correlation_key : option string;
}.

(** Encoders and decoders of serde_json, and SQLite's
    [CAST(json_extract(.., '$.finished_at_ms') AS INTEGER)]. *)
Class SqliteJson := {
  request_info_to_string : StoredRequestInfo → result string string;
  request_info_from_str : string → result StoredRequestInfo string;
  lifecycle_to_string : StoredTypedLifecycle → result string string;
  lifecycle_from_str : string → result StoredTypedLifecycle string;
  state_to_string : TaskState → result string string;
  state_from_str : string → result TaskState string;
  event_to_string : TaskEvent → result string string;
  progress_to_string : TaskProgressSnapshot → result string string;
  JsonValue : Type;
  value_from_str : string → result JsonValue string;
  value_get : string → JsonValue → option JsonValue;
  state_from_value : JsonValue → result TaskState string;
  value_as_i64 : JsonValue → option Z;
  extract_finished_at : string → option Z;
}.
Context `{QJ : !SqliteJson}.

Definition StoredRequestInfo_from (r : StoredTaskRequest) : StoredRequestInfo :=
  {| ri_kind_id := sr_kind_id r; ri_category := sr_category r;
     ri_payload_type_id := model_id_as_str (sp_type_id (sr_payload r));
     ri_payload_schema_version := sp_schema_version (sr_payload r);
     ri_payload_codec_id := sp_codec_id (sr_payload r);
     ri_metadata := sr_metadata r; ri_resource_limit := sr_resource_limit r;
     ri_correlation_key := sr_correlation_key r;
     ri_idempotency_key := sr_idempotency_key r |}.

(** [into_request]; [try_into] parses a model identifier. *)
Definition into_request (info : StoredRequestInfo) (bytes : bytes)
    : result StoredTaskRequest StoreError :=
  let? type_id := ok_or (Failure "invalid model identifier")
                    (model_id_parse (ri_payload_type_id info)) in
  Ok {| sr_kind_id := ri_kind_id info; sr_category := ri_category info;
        sr_payload := {| sp_type_id := type_id;
                         sp_schema_version := ri_payload_schema_version info;
                         sp_codec_id := ri_payload_codec_id info; sp_bytes := bytes |};
        sr_metadata := ri_metadata info; sr_resource_limit := ri_resource_limit info;
        sr_correlation_key := ri_correlation_key info;
        sr_idempotency_key := ri_idempotency_key info |}.

Definition from_typed_summary (t : TaskSummary) : TaskEvent :=
  {| ev_schema_version := 1; ev_task_id := ts_id t; ev_state_version := ts_state_version t;
     ev_state := ts_state t; ev_correlation_key := ts_correlation_key t |}.

(** ** Tables *)

Record TaskRow := {
  row_state_kind : string;
  row_accepted_at : Z;
  row_kind_id : string;
  row_category : option string;
  row_payload_type_id : string;
  row_payload_schema_version : N;
  row_codec_id : string;
  row_correlation_key : option string;
  row_idempotency_key : option string;
  row_request_info_json : string;
  row_payload : bytes;
  row_record_format_version : Z;
  row_lifecycle_json : string;
  row_state_version : Z;
  row_attempt : N;
  row_retry_not_before_ms : option Z;
  row_started_at : option Z;
  row_progress_attempt : option N;
  row_progress_version : Z;
  row_progress_json : option string;
}.

Record OutboxRow := { ob_event_id : string; ob_event_json : string; ob_created_at_ms : Z }.
Record QuarantineRow := {
  qr_event_id : string; qr_event_json : string; qr_created_at_ms : Z;
  qr_quarantined_at_ms : Z; qr_reason : string; qr_last_error : string;
}.
Record CheckpointRow := {
  cp_state_version : Z; cp_state_json : string; cp_finished_at_ms : Z;
}.

(** Outbox and quarantine are keyed by task and state version. *)
Record SqliteDb := {
  db_tasks : gmap TaskId TaskRow;
  db_outbox : gmap (TaskId * Z) OutboxRow;
  db_quarantine : gmap (TaskId * Z) QuarantineRow;
  db_checkpoints : gmap TaskId CheckpointRow;
  db_owner_epoch : option Z;
}.

Definition db_new : SqliteDb :=
  {| db_tasks := ∅; db_outbox := ∅; db_quarantine := ∅; db_checkpoints := ∅;
     db_owner_epoch := None |}.

Definition with_tasks (tasks : gmap TaskId TaskRow) (db : SqliteDb) : SqliteDb :=
  {| db_tasks := tasks; db_outbox := db_outbox db; db_quarantine := db_quarantine db;
     db_checkpoints := db_checkpoints db; db_owner_epoch := db_owner_epoch db |}.
Definition with_outbox (outbox : gmap (TaskId * Z) OutboxRow) (db : SqliteDb) : SqliteDb :=
  {| db_tasks := db_tasks db; db_outbox := outbox; db_quarantine := db_quarantine db;
     db_checkpoints := db_checkpoints db; db_owner_epoch := db_owner_epoch db |}.

(** [UPDATE tasks SET .. WHERE id = ?1 AND cond]: the number of changed rows. *)
Definition update_where (id : TaskId) (cond : TaskRow → bool) (set : TaskRow → TaskRow)
    (db : SqliteDb) : N * SqliteDb :=
  match db_tasks db !! id with
  | Some row =>
      if cond row then (1, with_tasks (<[id := set row]> (db_tasks db)) db) else (0, db)
  | None => (0, db)
  end.

Definition from_json {A} (r : result A string) : result A StoreError := map_err Failure r.

(** ** Summaries *)

Definition summary_of (id : TaskId) (info : StoredRequestInfo) (lc : StoredTypedLifecycle)
    : TaskSummary :=
  {| ts_id := id; ts_kind_id := ri_kind_id info; ts_category := ri_category info;
     ts_payload_type_id := ri_payload_type_id info;
     ts_payload_schema_version := ri_payload_schema_version info;
     ts_payload_codec_id := ri_payload_codec_id info; ts_metadata := ri_metadata info;
     ts_resource_limit := ri_resource_limit info;
     ts_correlation_key := ri_correlation_key info;
     ts_idempotency_key := ri_idempotency_key info; ts_state := lc_state lc;
     ts_cancel_requested := lc_cancel_requested lc; ts_cancel_error := lc_cancel_error lc;
     ts_state_version := lc_state_version lc; ts_attempt := lc_attempt lc;
     ts_retry_not_before_ms := lc_retry_not_before_ms lc;
     ts_accepted_at_ms := lc_accepted_at_ms lc; ts_started_at_ms := lc_started_at_ms lc;
     ts_finished_at_ms := lc_finished_at_ms lc; ts_progress := lc_progress lc;
     ts_output := lc_output lc |}.

Definition decode_summary (id : TaskId) (request_json lifecycle_json : string)
    : result TaskSummary StoreError :=
  let? request := from_json (request_info_from_str request_json) in
  let? lifecycle := from_json (lifecycle_from_str lifecycle_json) in
  Ok (summary_of id request lifecycle).

(** ** The event outbox *)

(** [MAX(?5, COALESCE((SELECT MAX(created_at_ms) ..), ?5))]. *)
Definition next_created_at (now : Z) (outbox : gmap (TaskId * Z) OutboxRow) : Z :=
  map_fold (λ _ row acc, Z.max (ob_created_at_ms row) acc) now outbox.

Definition event_id (t : TaskSummary) : string :=
  "task:" +:+ pretty (ts_id t) +:+ ":" +:+ pretty (ts_state_version t).

Definition insert_event_outbox (now : N) (t : TaskSummary) (db : SqliteDb)
    : result SqliteDb StoreError :=
  let? json := from_json (event_to_string (from_typed_summary t)) in
  bail (InvalidRequest "task event snapshot exceeds 128 KiB")
    when MAX_EVENT_BYTES <? str_len json;
  let? version := sqlite_i64_from_u64 (ts_state_version t) "outbox state version" in
  let? now := i64_or_failure now in
  bail (Failure "UNIQUE constraint failed: task_event_outbox.task_id, task_event_outbox.state_version")
    when is_some (db_outbox db !! (ts_id t, version));
  Ok (with_outbox
        (<[(ts_id t, version) :=
             {| ob_event_id := event_id t; ob_event_json := json;
                ob_created_at_ms := next_created_at now (db_outbox db) |}]> (db_outbox db)) db).

Definition maybe_outbox (outbox_enabled : bool) (now : N) (t : TaskSummary) (db : SqliteDb)
    : result SqliteDb StoreError :=
  if outbox_enabled then insert_event_outbox now t db else Ok db.

(** ** Acceptance *)

Definition accepted_lifecycle (now : N) : StoredTypedLifecycle :=
  {| lc_state := Queued; lc_cancel_requested := false; lc_cancel_error := None;
     lc_state_version := 0; lc_attempt := 0; lc_retry_not_before_ms := None;
     lc_accepted_at_ms := now; lc_started_at_ms := None; lc_finished_at_ms := None;
     lc_progress := None; lc_output := None |}.

(** [SELECT .. FROM tasks WHERE idempotency_key = ?1]. *)
Definition find_by_key (key : string) (db : SqliteDb) : option (TaskId * TaskRow) :=
  snd <$> list_find (λ entry, row_idempotency_key entry.2 = Some key)
            (btree_entries N.le (db_tasks db)).

(** The inserted row. *)
Definition accepted_row (r : StoredTaskRequest) (accepted_at : Z)
    (request_info_json lifecycle_json : string) : TaskRow :=
  {| row_state_kind := "Queued"; row_accepted_at := accepted_at;
     row_kind_id := sr_kind_id r; row_category := sr_category r;
     row_payload_type_id := model_id_as_str (sp_type_id (sr_payload r));
     row_payload_schema_version := sp_schema_version (sr_payload r);
     row_codec_id := sp_codec_id (sr_payload r);
     row_correlation_key := sr_correlation_key r;
     row_idempotency_key := sr_idempotency_key r;
     row_request_info_json := request_info_json;
     row_payload := sp_bytes (sr_payload r);
     row_record_format_version := RECORD_FORMAT_VERSION;
     row_lifecycle_json := lifecycle_json;
     row_state_version := 0; row_attempt := 0; row_retry_not_before_ms := None;
     row_started_at := None; row_progress_attempt := None; row_progress_version := 0;
     row_progress_json := None |}.

(** [now] is the clock at acceptance, [event_now] when the event is stored. *)
Definition accept_row (outbox_enabled : bool) (now event_now : N) (id : TaskId)
    (r : StoredTaskRequest) (request_info_json : string) (db : SqliteDb)
    : result (AcceptOutcome * SqliteDb) StoreError :=
  bail DuplicateTask when is_some (db_tasks db !! id);
  let? lifecycle_json := from_json (lifecycle_to_string (accepted_lifecycle now)) in
  let? accepted_at := i64_or_failure now in
  let db1 := with_tasks
               (<[id := accepted_row r accepted_at request_info_json lifecycle_json]>
                  (db_tasks db)) db in
  let? summary := decode_summary id request_info_json lifecycle_json in
  let? db2 := maybe_outbox outbox_enabled event_now summary db1 in
  Ok ({| ao_summary := summary; ao_created := true |}, db2).

Definition sqlite_accept (outbox_enabled : bool) (now event_now : N) (id : TaskId)
    (r : StoredTaskRequest) (db : SqliteDb) : result (AcceptOutcome * SqliteDb) StoreError :=
  let? request_info_json := from_json (request_info_to_string (StoredRequestInfo_from r)) in
  match sr_idempotency_key r ≫= λ key, find_by_key key db with
  | Some (stored_id, row) =>
      bail IdempotencyConflict
        when negb (bool_decide (row_request_info_json row = request_info_json))
             || negb (bool_decide (row_payload row = sp_bytes (sr_payload r)));
      let? summary := decode_summary stored_id (row_request_info_json row)
                        (row_lifecycle_json row) in
      Ok ({| ao_summary := summary; ao_created := false |}, db)
  | None => accept_row outbox_enabled now event_now id r request_info_json db
  end.

(** ** Reads *)

(** The closure [get_encoded_task] maps over the row. *)
Definition decode_task (id : TaskId) (row : TaskRow) : result StoredTask StoreError :=
  let? info := from_json (request_info_from_str (row_request_info_json row)) in
  let? request := into_request info (row_payload row) in
  let? summary := decode_summary id (row_request_info_json row) (row_lifecycle_json row) in
  Ok {| st_request := request; st_summary := summary |}.

Definition sqlite_get (id : TaskId) (db : SqliteDb) : result (option StoredTask) StoreError :=
  option_traverse (decode_task id) (db_tasks db !! id).

(** The state and version inside a lifecycle document. *)
Definition json_state (lifecycle_json : string) : result (TaskState * Z) StoreError :=
  let? lifecycle := from_json (value_from_str lifecycle_json) in
  let? state_value := ok_or (Failure "task lifecycle is missing its state")
                        (value_get "state" lifecycle) in
  let? state := from_json (state_from_value state_value) in
  let? version := ok_or (Failure "task lifecycle has an invalid state version")
                    (value_get "state_version" lifecycle ≫= value_as_i64) in
  Ok (state, version).

Definition sqlite_get_state_checkpoint (id : TaskId) (db : SqliteDb)
    : result (option TaskStateCheckpoint) StoreError :=
  match db_tasks db !! id with
  | Some row =>
      let? state_and_version := json_state (row_lifecycle_json row) in
      let? version := u64_or_failure state_and_version.2 in
      Ok (Some {| ck_id := id; ck_state_version := version;
                  ck_state := state_and_version.1 |})
  | None =>
      option_traverse (λ c,
          let? version := u64_or_failure (cp_state_version c) in
          let? state := from_json (state_from_str (cp_state_json c)) in
          Ok {| ck_id := id; ck_state_version := version; ck_state := state |})
        (db_checkpoints db !! id)
  end.

(** ** Starting an attempt *)

Definition started_lifecycle (version attempt started_at : N) (lc : StoredTypedLifecycle)
    : StoredTypedLifecycle :=
  {| lc_state := Running; lc_cancel_requested := lc_cancel_requested lc;
     lc_cancel_error := lc_cancel_error lc; lc_state_version := version;
     lc_attempt := attempt; lc_retry_not_before_ms := None;
     lc_accepted_at_ms := lc_accepted_at_ms lc; lc_started_at_ms := Some started_at;
     lc_finished_at_ms := None; lc_progress := None; lc_output := lc_output lc |}.

Definition started_row (version : Z) (attempt : N) (started_at : Z) (lifecycle_json : string)
    (row : TaskRow) : TaskRow :=
  {| row_state_kind := "Running"; row_accepted_at := row_accepted_at row;
     row_kind_id := row_kind_id row; row_category := row_category row;
     row_payload_type_id := row_payload_type_id row;
     row_payload_schema_version := row_payload_schema_version row;
     row_codec_id := row_codec_id row; row_correlation_key := row_correlation_key row;
     row_idempotency_key := row_idempotency_key row;
     row_request_info_json := row_request_info_json row; row_payload := row_payload row;
     row_record_format_version := row_record_format_version row;
     row_lifecycle_json := lifecycle_json; row_state_version := version;
     row_attempt := attempt; row_retry_not_before_ms := None;
     row_started_at := Some started_at; row_progress_attempt := None;
     row_progress_version := 0; row_progress_json := None |}.

Definition sqlite_start (outbox_enabled : bool) (event_now : N) (c : StartCommand)
    (db : SqliteDb) : result (TaskSummary * SqliteDb) StoreError :=
  let? row := ok_or NotFound (db_tasks db !! sc_id c) in
  let? state_version := sqlite_u64_from_i64 (row_state_version row) "task state version" in
  bail Conflict when negb (bool_decide (row_state_kind row = "Queued"))
                     || negb (state_version =? sc_expected_state_version c);
  let? lifecycle := from_json (lifecycle_from_str (row_lifecycle_json row)) in
  let? version := ok_or (Failure "task state version overflow")
                    (checked_add u64_max (lc_state_version lifecycle) 1) in
  let? attempt := ok_or (Failure "task attempt counter overflow")
                    (checked_add u32_max (lc_attempt lifecycle) 1) in
  let lifecycle := started_lifecycle version attempt (sc_started_at_ms c) lifecycle in
  let? lifecycle_json := from_json (lifecycle_to_string lifecycle) in
  let? version_z := sqlite_i64_from_u64 version "task state version" in
  let? started_z := i64_or_failure (sc_started_at_ms c) in
  let? expected_z :=
    sqlite_i64_from_u64 (sc_expected_state_version c) "task state version" in
  let '(changed, db1) :=
    update_where (sc_id c)
      (λ r, bool_decide (row_state_kind r = "Queued")
            && (row_state_version r =? expected_z)%Z)
      (started_row version_z attempt started_z lifecycle_json) db in
  bail Conflict when negb (changed =? 1);
  let? summary := decode_summary (sc_id c) (row_request_info_json row) lifecycle_json in
  let? db2 := maybe_outbox outbox_enabled event_now summary db1 in
  Ok (summary, db2).

(** ** Compare-and-set transitions *)

Definition moved_lifecycle (c : TransitionCommand) (version : N) (lc : StoredTypedLifecycle)
    : StoredTypedLifecycle :=
  {| lc_state := tc_state c; lc_cancel_requested := tc_cancel_requested c;
     lc_cancel_error := tc_cancel_error c; lc_state_version := version;
     lc_attempt := lc_attempt lc; lc_retry_not_before_ms := tc_retry_not_before_ms c;
     lc_accepted_at_ms := lc_accepted_at_ms lc; lc_started_at_ms := lc_started_at_ms lc;
     lc_finished_at_ms :=
       if is_terminal (tc_state c) && is_some (tc_finished_at_ms c)
       then tc_finished_at_ms c else lc_finished_at_ms lc;
     lc_progress := lc_progress lc;
     lc_output := match tc_output c with Some o => Some o | None => lc_output lc end |}.

Definition moved_row (kind : string) (version : Z) (lifecycle_json : string)
    (retry : option Z) (row : TaskRow) : TaskRow :=
  {| row_state_kind := kind; row_accepted_at := row_accepted_at row;
     row_kind_id := row_kind_id row; row_category := row_category row;
     row_payload_type_id := row_payload_type_id row;
     row_payload_schema_version := row_payload_schema_version row;
     row_codec_id := row_codec_id row; row_correlation_key := row_correlation_key row;
     row_idempotency_key := row_idempotency_key row;
     row_request_info_json := row_request_info_json row; row_payload := row_payload row;
     row_record_format_version := row_record_format_version row;
     row_lifecycle_json := lifecycle_json; row_state_version := version;
     row_attempt := row_attempt row; row_retry_not_before_ms := retry;
     row_started_at := row_started_at row; row_progress_attempt := row_progress_attempt row;
     row_progress_version := row_progress_version row;
     row_progress_json := row_progress_json row |}.

Definition sqlite_transition (outbox_enabled : bool) (event_now : N) (c : TransitionCommand)
    (db : SqliteDb) : result (TaskSummary * SqliteDb) StoreError :=
  let? _ := map_err InvalidRequest (validate_diagnostics (tc_state c)) in
  let? _ := validate_encoded_output (tc_state c) (tc_output c) in
  bail (InvalidRequest "retry deadline is only valid for queued tasks")
    when is_some (tc_retry_not_before_ms c) && negb (bool_decide (tc_state c = Queued));
  let? row := ok_or NotFound (db_tasks db !! tc_id c) in
  let? state_version := sqlite_u64_from_i64 (row_state_version row) "task state version" in
  let? retry_deadline := option_traverse i64_or_failure (tc_retry_not_before_ms c) in
  let? lifecycle := from_json (lifecycle_from_str (row_lifecycle_json row)) in
  let terminal_cancel_annotation :=
    is_terminal (lc_state lifecycle) && bool_decide (lc_state lifecycle = tc_state c)
    && tc_cancel_requested c && is_some (tc_cancel_error c) in
  bail Conflict
    when negb (state_version =? tc_expected_state_version c)
         || negb (lc_attempt lifecycle =? tc_expected_attempt c)
         || (negb (allows_transition_to (lc_state lifecycle) (tc_state c))
             && negb terminal_cancel_annotation);
  bail (InvalidRequest "task output can only be written before the task becomes terminal")
    when is_some (tc_output c) && is_terminal (lc_state lifecycle);
  let? version := ok_or (Failure "task state version overflow")
                    (checked_add u64_max (lc_state_version lifecycle) 1) in
  let lifecycle := moved_lifecycle c version lifecycle in
  let? lifecycle_json := from_json (lifecycle_to_string lifecycle) in
  let? version_z := sqlite_i64_from_u64 version "task state version" in
  let? expected_z := sqlite_i64_from_u64 state_version "task state version" in
  let '(changed, db1) :=
    update_where (tc_id c) (λ r, row_state_version r =? expected_z)%Z
      (moved_row (TaskStateKind_as_str (kind (tc_state c))) version_z lifecycle_json
         retry_deadline) db in
  bail Conflict when negb (changed =? 1);
  let? summary := decode_summary (tc_id c) (row_request_info_json row) lifecycle_json in
  let? db2 := maybe_outbox outbox_enabled event_now summary db1 in
  Ok (summary, db2).

(** ** Progress *)

Definition progress_lifecycle (p : TaskProgressSnapshot) (lc : StoredTypedLifecycle)
    : StoredTypedLifecycle :=
  {| lc_state := lc_state lc; lc_cancel_requested := lc_cancel_requested lc;
     lc_cancel_error := lc_cancel_error lc; lc_state_version := lc_state_version lc;
     lc_attempt := lc_attempt lc; lc_retry_not_before_ms := lc_retry_not_before_ms lc;
     lc_accepted_at_ms := lc_accepted_at_ms lc; lc_started_at_ms := lc_started_at_ms lc;
     lc_finished_at_ms := lc_finished_at_ms lc; lc_progress := Some p;
     lc_output := lc_output lc |}.

Definition progress_row (attempt : N) (version : Z) (progress_json lifecycle_json : string)
    (row : TaskRow) : TaskRow :=
  {| row_state_kind := row_state_kind row; row_accepted_at := row_accepted_at row;
     row_kind_id := row_kind_id row; row_category := row_category row;
     row_payload_type_id := row_payload_type_id row;
     row_payload_schema_version := row_payload_schema_version row;
     row_codec_id := row_codec_id row; row_correlation_key := row_correlation_key row;
     row_idempotency_key := row_idempotency_key row;
     row_request_info_json := row_request_info_json row; row_payload := row_payload row;
     row_record_format_version := row_record_format_version row;
     row_lifecycle_json := lifecycle_json; row_state_version := row_state_version row;
     row_attempt := row_attempt row;
     row_retry_not_before_ms := row_retry_not_before_ms row;
     row_started_at := row_started_at row; row_progress_attempt := Some attempt;
     row_progress_version := version; row_progress_json := Some progress_json |}.

Definition sqlite_update_progress (c : ProgressCommand) (db : SqliteDb)
    : result (TaskSummary * SqliteDb) StoreError :=
  let? snapshot :=
    map_err (λ _, InvalidRequest "task progress snapshot exceeds its configured limits")
      (from_command snapshot_to_vec c) in
  let? snapshot_json := from_json (progress_to_string snapshot) in
  let? row := ok_or NotFound (db_tasks db !! pc_id c) in
  bail Conflict when negb (bool_decide (row_state_kind row = "Running"))
                     || negb (row_attempt row =? pc_expected_attempt c);
  let? previous_version :=
    if bool_decide (row_progress_attempt row = Some (pc_expected_attempt c))
    then u64_or_failure (row_progress_version row) else Ok 0 in
  bail Conflict when pc_progress_version c <=? previous_version;
  let? lifecycle := from_json (lifecycle_from_str (row_lifecycle_json row)) in
  let lifecycle := progress_lifecycle snapshot lifecycle in
  let? lifecycle_json := from_json (lifecycle_to_string lifecycle) in
  let? version_z := i64_or_failure (pc_progress_version c) in
  let '(changed, db1) :=
    update_where (pc_id c)
      (λ r, bool_decide (row_state_kind r = "Running")
            && (row_attempt r =? pc_expected_attempt c)
            && (is_none (row_progress_attempt r)
                || negb (bool_decide (row_progress_attempt r = Some (pc_expected_attempt c)))
                || (row_progress_version r <? version_z)%Z))
      (progress_row (pc_expected_attempt c) version_z snapshot_json lifecycle_json) db in
  bail Conflict when negb (changed =? 1);
  let? summary := decode_summary (pc_id c) (row_request_info_json row) lifecycle_json in
  Ok (summary, db1).
End sqlite.
