(* ===== verification/SqliteAdmin.v ===== *)
(** * The SQLite task store: pages, pruning, outbox and ownership

    The remaining operations of [src/src/store/sqlite_task_store.rs]: history
    and ready pages, pruning into terminal checkpoints, the event outbox with
    its quarantine, and the owner epoch that fences writers. *)

From S2P Require Import Prelude TaskState Model MemoryStore SqliteStore.

Section sqlite.
Context `{ET : !ExternalTypes, SJ : !SnapshotJson, QJ : !SqliteJson}.

(** ** Pages *)

(** Row key of [ORDER BY accepted_at, id]; [accepted_at] is compared as a
    signed integer. *)
Definition row_key (entry : TaskId * TaskRow) : Z * N := (row_accepted_at entry.2, entry.1).

Definition rowkey_le (a b : Z * N) : Prop := (a.1 < b.1)%Z ∨ (a.1 = b.1 ∧ a.2 ≤ b.2).
#[global] Instance rowkey_le_dec : RelDecision rowkey_le.
Proof. intros a b. unfold rowkey_le. apply _. Defined.
Definition rowkey_ltb (a b : Z * N) : bool :=
  (a.1 <? b.1)%Z || ((a.1 =? b.1)%Z && (a.2 <? b.2)).

Definition sorted_rows (db : SqliteDb) : list (TaskId * TaskRow) :=
  sort_by rowkey_le row_key (map_to_list (db_tasks db)).

(** The loop that drops repeated states. *)
Fixpoint dedup_states (l seen : list TaskStateKind) : list TaskStateKind :=
  match l with
  | [] => seen
  | k :: rest =>
      if bool_decide (k ∈ seen) then dedup_states rest seen
      else dedup_states rest (seen ++ [k])
  end.

(** The [WHERE] clause of [build_encoded_history_query]; [after] is the cursor
    with its timestamp already converted. *)
Definition history_row_matches (q : TaskQuery) (after : option (Z * N))
    (entry : TaskId * TaskRow) : bool :=
  let states := dedup_states (tq_states q) [] in
  is_none_or (λ cursor, rowkey_ltb cursor (row_key entry)) after
  && is_none_or (λ c, bool_decide (row_category entry.2 = Some c)) (tq_category q)
  && is_none_or (λ k, bool_decide (row_correlation_key entry.2 = Some k)) (tq_correlation_key q)
  && (bool_decide (states = [])
      || bool_decide (row_state_kind entry.2 ∈ TaskStateKind_as_str <$> states)).

(** The rows [build_encoded_history_query] selects. *)
Definition history_rows (q : TaskQuery) (page_size : N) (db : SqliteDb)
    : result (list (TaskId * TaskRow)) StoreError :=
  let? fetch_limit :=
    ok_or (InvalidRequest "task history page limit is too large")
      (limit ← checked_add usize_max page_size 1; i64_try_from limit) in
  let? after :=
    option_traverse (λ cursor,
        let? time := ok_or (InvalidRequest "task history cursor timestamp is too large")
                       (i64_try_from (cur_accepted_at_ms cursor)) in
        Ok (time, cur_id cursor)) (tq_after q) in
  Ok (take (Z.to_nat fetch_limit)
        (filter (λ entry, history_row_matches q after entry) (sorted_rows db))).

Definition decode_row (entry : TaskId * TaskRow) : result TaskSummary StoreError :=
  decode_summary entry.1 (row_request_info_json entry.2) (row_lifecycle_json entry.2).

Definition sqlite_list (q : TaskQuery) (db : SqliteDb) : result TaskPage StoreError :=
  let? page_size := checked_page_size q in
  let? rows := history_rows q page_size db in
  let? records := result_mapM decode_row rows in
  let has_more := page_size <? N.of_nat (length records) in
  let records := if has_more then take (N.to_nat page_size) records else records in
  Ok {| pg_records := records;
        pg_next := if has_more then TaskCursor_from <$> last records else None |}.

Definition ready_row_matches (now : Z) (after : option (Z * N)) (entry : TaskId * TaskRow)
    : bool :=
  bool_decide (row_state_kind entry.2 = "Queued"%string)
  && is_none_or (λ d, (d <=? now)%Z) (row_retry_not_before_ms entry.2)
  && is_none_or (λ cursor, rowkey_ltb cursor (row_key entry)) after.

Definition sqlite_ready (after : option TaskCursor) (limit now_ms : N) (db : SqliteDb)
    : result TaskPage StoreError :=
  bail (InvalidRequest "ready task page limit exceeds 256") when MAX_TASK_QUERY_LIMIT <? limit;
  let? now := ok_or (InvalidRequest "task timestamp is too large") (i64_try_from now_ms) in
  let? fetch := ok_or (InvalidRequest "ready task page limit is too large")
                  (i64_try_from (limit + 1)) in
  let? after :=
    option_traverse (λ cursor,
        let? time := ok_or (InvalidRequest "task cursor timestamp is too large")
                       (i64_try_from (cur_accepted_at_ms cursor)) in
        Ok (time, cur_id cursor)) after in
  let rows := take (Z.to_nat fetch)
                (filter (λ entry, ready_row_matches now after entry) (sorted_rows db)) in
  let? records := result_mapM decode_row rows in
  let has_more := limit <? N.of_nat (length records) in
  let records := take (N.to_nat limit) records in
  Ok {| pg_records := records;
        pg_next := if has_more then TaskCursor_from <$> last records else None |}.

(** [SELECT MIN(retry_not_before_ms) ..]. *)
Definition min_deadline (now : Z) (db : SqliteDb) : option Z :=
  let deadlines :=
    filter (λ d, now < d)%Z
      (omap (λ entry, if bool_decide (row_state_kind entry.2 = "Queued"%string)
                      then row_retry_not_before_ms entry.2 else None)
         (map_to_list (db_tasks db))) in
  match deadlines with
  | [] => None
  | d :: rest => Some (foldl Z.min d rest)
  end.

Definition sqlite_next_retry_deadline (now_ms : N) (db : SqliteDb)
    : result (option N) StoreError :=
  let? now := ok_or (InvalidRequest "task timestamp is too large") (i64_try_from now_ms) in
  option_traverse u64_or_failure (min_deadline now db).

(** ** Pruning *)

Definition terminal_kinds : list string := ["Succeeded"; "Failed"; "Panicked"; "Cancelled"]%string.

Definition has_outbox_rows (id : TaskId) (db : SqliteDb) : bool :=
  existsb (λ entry, bool_decide (entry.1.1 = id)) (map_to_list (db_outbox db)).

(** A row the [SELECT] of [prune_terminal_before] considers, with the finish
    time it sorts by. *)
Definition prune_row (before : Z) (db : SqliteDb) (entry : TaskId * TaskRow)
    : option (Z * N * string) :=
  finished ← extract_finished_at (row_lifecycle_json entry.2);
  if bool_decide (row_state_kind entry.2 ∈ terminal_kinds) && (finished <? before)%Z
     && negb (has_outbox_rows entry.1 db)
  then Some (finished, entry.1, row_lifecycle_json entry.2) else None.

Definition prune_rows (before max_rows : Z) (db : SqliteDb) : list (Z * N * string) :=
  take (Z.to_nat max_rows)
    (sort_by rowkey_le fst (omap (prune_row before db) (map_to_list (db_tasks db)))).

(** [prune_terminal_rows]: a checkpoint is written, then the row deleted. *)
Definition prune_one (row : Z * N * string) (db : SqliteDb) : result SqliteDb StoreError :=
  let '(finished, id, lifecycle_json) := row in
  let? lifecycle := from_json (value_from_str lifecycle_json) in
  let? state_value := ok_or (Failure "task lifecycle is missing its state")
                        (value_get "state" lifecycle) in
  let? state := from_json (state_from_value state_value) in
  bail (Failure "terminal task has a nonterminal lifecycle state")
    when negb (is_terminal state);
  let? state_json := from_json (state_to_string state) in
  let? version := ok_or (Failure "task lifecycle has an invalid state version")
                    (value_get "state_version" lifecycle ≫= value_as_i64) in
  bail (Failure "CHECK constraint failed: task_terminal_checkpoints")
    when (version <? 0)%Z || (finished <? 0)%Z;
  bail Conflict when is_none (db_tasks db !! id);
  Ok {| db_tasks := delete id (db_tasks db); db_outbox := db_outbox db;
        db_quarantine := db_quarantine db;
        db_checkpoints :=
          <[id := {| cp_state_version := version; cp_state_json := state_json;
                     cp_finished_at_ms := finished |}]> (db_checkpoints db);
        db_owner_epoch := db_owner_epoch db |}.

Fixpoint prune_terminal_rows (rows : list (Z * N * string)) (db : SqliteDb)
    : result SqliteDb StoreError :=
  match rows with
  | [] => Ok db
  | row :: rest =>
      let? db' := prune_one row db in
      prune_terminal_rows rest db'
  end.

(** The part of [prune_terminal_before] that runs inside the transaction. *)
Definition sqlite_prune (before max_rows : Z) (db : SqliteDb)
    : result (N * SqliteDb) StoreError :=
  let rows := prune_rows before max_rows db in
  let? db' := prune_terminal_rows rows db in
  Ok (N.of_nat (length rows), db').

(** ** The outbox *)

Record EventOutboxEntry := {
  oe_task_id : TaskId; oe_state_version : N; oe_event_id : string; oe_event_json : string;
}.

(** Order of [ORDER BY created_at_ms, task_id, state_version]. *)
Definition outbox_le (a b : Z * (N * Z)) : Prop :=
  (a.1 < b.1)%Z ∨ (a.1 = b.1 ∧ (a.2.1 < b.2.1 ∨ (a.2.1 = b.2.1 ∧ (a.2.2 ≤ b.2.2)%Z))).
#[global] Instance outbox_le_dec : RelDecision outbox_le.
Proof. intros a b. unfold outbox_le. apply _. Defined.

Definition outbox_key (entry : (TaskId * Z) * OutboxRow) : Z * (N * Z) :=
  (ob_created_at_ms entry.2, entry.1).

Definition sorted_outbox (db : SqliteDb) : list ((TaskId * Z) * OutboxRow) :=
  sort_by outbox_le outbox_key (map_to_list (db_outbox db)).

Definition outbox_entry (entry : (TaskId * Z) * OutboxRow)
    : result EventOutboxEntry StoreError :=
  let? version := sqlite_u64_from_i64 entry.1.2 "outbox state version" in
  Ok {| oe_task_id := entry.1.1; oe_state_version := version;
        oe_event_id := ob_event_id entry.2; oe_event_json := ob_event_json entry.2 |}.

Definition list_outbox (limit : N) (db : SqliteDb)
    : result (list EventOutboxEntry) StoreError :=
  bail (InvalidRequest "outbox page limit must be 1..=256")
    when negb ((1 <=? limit) && (limit <=? 256));
  result_mapM outbox_entry (take (N.to_nat limit) (sorted_outbox db)).

Definition mark_outbox_published (id : TaskId) (version : N) (db : SqliteDb)
    : result (unit * SqliteDb) StoreError :=
  let? version := sqlite_i64_from_u64 version "outbox state version" in
  Ok (tt, with_outbox (delete (id, version) (db_outbox db)) db).

Definition quarantine_outbox_head (now : N) (expected_task_id : TaskId)
    (expected_state_version : N) (expected_event_id reason last_error : string)
    (db : SqliteDb) : result (unit * SqliteDb) StoreError :=
  bail (InvalidRequest "outbox quarantine reason must be nonblank and at most 4096 bytes")
    when is_blank reason || (MAX_QUARANTINE_REASON_BYTES <? str_len reason);
  let? head := ok_or Conflict (head (sorted_outbox db)) in
  let '(key, row) := head in
  let? state_version := sqlite_u64_from_i64 key.2 "outbox state version" in
  bail Conflict
    when negb (key.1 =? expected_task_id)
         || negb (state_version =? expected_state_version)
         || negb (bool_decide (ob_event_id row = expected_event_id));
  let? quarantined_at := i64_or_failure now in
  bail (Failure "UNIQUE constraint failed: task_event_outbox_quarantine.task_id, task_event_outbox_quarantine.state_version")
    when is_some (db_quarantine db !! key);
  Ok (tt,
      {| db_tasks := db_tasks db; db_outbox := delete key (db_outbox db);
         db_quarantine :=
           <[key := {| qr_event_id := ob_event_id row; qr_event_json := ob_event_json row;
                       qr_created_at_ms := ob_created_at_ms row;
                       qr_quarantined_at_ms := quarantined_at; qr_reason := reason;
                       qr_last_error := last_error |}]> (db_quarantine db);
         db_checkpoints := db_checkpoints db; db_owner_epoch := db_owner_epoch db |}).

(** ** The store object *)

(** One open [SqliteTaskStore]: the database, whether it holds the lock file,
    its owner epoch, and whether events are recorded. *)
Record SqliteTaskStore := {
  ss_db : SqliteDb;
  ss_lock_file : bool;
  ss_epoch : option OwnerEpoch;
  ss_outbox_enabled : bool;
}.

(** The state [open] returns on a database. *)
Definition sqlite_open (db : SqliteDb) : SqliteTaskStore :=
  {| ss_db := db; ss_lock_file := true; ss_epoch := None; ss_outbox_enabled := false |}.

Definition with_db (db : SqliteDb) (s : SqliteTaskStore) : SqliteTaskStore :=
  {| ss_db := db; ss_lock_file := ss_lock_file s; ss_epoch := ss_epoch s;
     ss_outbox_enabled := ss_outbox_enabled s |}.

(** Commit on success, roll back on error. *)
Definition transact {A} (op : SqliteDb → result (A * SqliteDb) StoreError)
    (s : SqliteTaskStore) : result A StoreError * SqliteTaskStore :=
  match op (ss_db s) with
  | Ok (a, db) => (Ok a, with_db db s)
  | Err e => (Err e, s)
  end.

Definition run_write {A} (op : SqliteDb → result (A * SqliteDb) StoreError)
    (s : SqliteTaskStore) : result A StoreError * SqliteTaskStore :=
  if negb (ss_lock_file s)
  then (Err (Failure "SQLite task store has no active owner"), s) else transact op s.

Definition run_outbox {A} (op : SqliteDb → result (A * SqliteDb) StoreError)
    (s : SqliteTaskStore) : result A StoreError * SqliteTaskStore :=
  if is_none (ss_epoch s) || negb (ss_lock_file s)
  then (Err OwnerConflict, s) else transact op s.

Definition enable_outbox (s : SqliteTaskStore) : result unit StoreError * SqliteTaskStore :=
  if is_none (ss_epoch s) || negb (ss_lock_file s) then (Err OwnerConflict, s)
  else (Ok tt, {| ss_db := ss_db s; ss_lock_file := ss_lock_file s; ss_epoch := ss_epoch s;
                  ss_outbox_enabled := true |}).

Definition store_accept (now event_now : N) (id : TaskId) (r : StoredTaskRequest)
    (s : SqliteTaskStore) : result AcceptOutcome StoreError * SqliteTaskStore :=
  run_write (sqlite_accept (ss_outbox_enabled s) now event_now id r) s.
Definition store_start (event_now : N) (c : StartCommand) (s : SqliteTaskStore)
    : result TaskSummary StoreError * SqliteTaskStore :=
  run_write (sqlite_start (ss_outbox_enabled s) event_now c) s.
Definition store_transition (event_now : N) (c : TransitionCommand) (s : SqliteTaskStore)
    : result TaskSummary StoreError * SqliteTaskStore :=
  run_write (sqlite_transition (ss_outbox_enabled s) event_now c) s.
Definition store_progress (c : ProgressCommand) (s : SqliteTaskStore)
    : result TaskSummary StoreError * SqliteTaskStore :=
  run_write (sqlite_update_progress c) s.

Definition store_prune (finished_before_ms max_rows : N) (s : SqliteTaskStore)
    : result N StoreError * SqliteTaskStore :=
  match i64_try_from finished_before_ms with
  | None => (Err (InvalidRequest "task finish cutoff exceeds the SQLite integer range"), s)
  | Some before =>
      match i64_try_from max_rows with
      | None =>
          (Err (InvalidRequest "task history prune limit exceeds the SQLite integer range"), s)
      | Some rows => run_write (sqlite_prune before rows) s
      end
  end.

(** Reading the epoch column back as an [i64]: past the range of a 64-bit
    integer SQLite's [value+1] is a real number. *)
Definition read_epoch (value : Z) : result OwnerEpoch StoreError :=
  bail (Failure "Invalid column type Real at index: 0, name: value")
    when (Z.of_N i64_max <? value)%Z;
  sqlite_u64_from_i64 value "owner epoch".

(** [lock] is the outcome of locking the database's lock file; the epoch is
    incremented before it is read back. *)
Definition store_acquire_owner (lock : result unit StoreError) (s : SqliteTaskStore)
    : result OwnerEpoch StoreError * SqliteTaskStore :=
  if is_some (ss_epoch s) then (Err OwnerConflict, s) else
  match (if ss_lock_file s then Ok tt else lock) with
  | Err e => (Err e, s)
  | Ok _ =>
      let db := ss_db s in
      let value := match db_owner_epoch db with Some v => (v + 1)%Z | None => 1%Z end in
      let db' := {| db_tasks := db_tasks db; db_outbox := db_outbox db;
                    db_quarantine := db_quarantine db; db_checkpoints := db_checkpoints db;
                    db_owner_epoch := Some value |} in
      match read_epoch value with
      | Err e => (Err e, {| ss_db := db'; ss_lock_file := true; ss_epoch := ss_epoch s;
                            ss_outbox_enabled := ss_outbox_enabled s |})
      | Ok epoch => (Ok epoch, {| ss_db := db'; ss_lock_file := true; ss_epoch := Some epoch;
                                  ss_outbox_enabled := ss_outbox_enabled s |})
      end
  end.

(** [unlock] is the outcome of unlocking the lock file. *)
Definition store_release_owner (unlock : result unit StoreError) (epoch : OwnerEpoch)
    (s : SqliteTaskStore) : result unit StoreError * SqliteTaskStore :=
  if negb (bool_decide (ss_epoch s = Some epoch)) then (Err OwnerConflict, s) else
  if negb (ss_lock_file s) then (Err OwnerConflict, s) else
  (unlock, {| ss_db := ss_db s; ss_lock_file := false; ss_epoch := None;
              ss_outbox_enabled := false |}).

Definition sqlite_capabilities : StoreCapabilities :=
  {| cap_persistent_history := true; cap_restart_recovery := true |}.
End sqlite.
