(* ===== verification/SqliteInvariant.v ===== *)
(** * The SQLite task store: invariant and abstraction

    Every row keeps the same facts twice, in the columns that queries and
    compare-and-set guards read and in the JSON documents that summaries are
    decoded from.  [db_wf] says that the copies agree; [view] is the map of
    tasks a database stands for. *)

From S2P Require Import Prelude TaskState Model MemoryStore MemoryInvariant MemoryPreservation.
From S2P Require Import SqliteStore SqliteAdmin.

Section sqlite.
Context `{ET : !ExternalTypes, SJ : !SnapshotJson, QJ : !SqliteJson}.
Implicit Types (db : SqliteDb) (row : TaskRow) (lc : StoredTypedLifecycle).
Implicit Types (id : TaskId) (r : StoredTaskRequest) (t : TaskSummary).

(** What the store relies on: documents read back as written, a model
    identifier parses from its text, and SQLite extracts the finish time. *)
Class SqliteJsonLaws := {
  request_info_roundtrip : ∀ i j,
    request_info_to_string i = Ok j → request_info_from_str j = Ok i;
  lifecycle_roundtrip : ∀ l j, lifecycle_to_string l = Ok j → lifecycle_from_str j = Ok l;
  state_roundtrip : ∀ s j, state_to_string s = Ok j → state_from_str j = Ok s;
  lifecycle_value_state : ∀ l j, lifecycle_to_string l = Ok j →
    ∃ v sv vv, value_from_str j = Ok v ∧
      value_get "state" v = Some sv ∧ state_from_value sv = Ok (lc_state l) ∧
      value_get "state_version" v = Some vv ∧ value_as_i64 vv = i64_try_from (lc_state_version l);
  lifecycle_finished_at : ∀ l j, lifecycle_to_string l = Ok j →
    (∀ f, lc_finished_at_ms l = Some f → f ≤ i64_max) →
    extract_finished_at j = Z.of_N <$> lc_finished_at_ms l;
  model_id_roundtrip : ∀ m, model_id_parse (model_id_as_str m) = Some m;
}.
Context {QL : SqliteJsonLaws}.

(** ** Rows *)

Record row_wf id row r lc : Prop := {
  rw_info : request_info_to_string (StoredRequestInfo_from r) = Ok (row_request_info_json row);
  rw_payload : row_payload row = sp_bytes (sr_payload r);
  rw_category : row_category row = sr_category r;
  rw_correlation : row_correlation_key row = sr_correlation_key r;
  rw_idempotency : row_idempotency_key row = sr_idempotency_key r;
  rw_json : lifecycle_to_string lc = Ok (row_lifecycle_json row);
  rw_kind : row_state_kind row = TaskStateKind_as_str (kind (lc_state lc));
  rw_accepted : i64_try_from (lc_accepted_at_ms lc) = Some (row_accepted_at row);
  rw_version : i64_try_from (lc_state_version lc) = Some (row_state_version row);
  rw_attempt : row_attempt row = lc_attempt lc;
  rw_retry : match lc_retry_not_before_ms lc with
             | None => row_retry_not_before_ms row = None
             | Some d => ∃ z, i64_try_from d = Some z ∧ row_retry_not_before_ms row = Some z
             end;
  rw_progress : match lc_progress lc with
                | None => row_progress_attempt row = None
                | Some p => row_progress_attempt row = Some (tps_attempt p) ∧
                            i64_try_from (tps_progress_version p) = Some (row_progress_version row)
                end;
  rw_lifecycle : lifecycle_wf (summary_of id (StoredRequestInfo_from r) lc);
}.

(** A checkpoint of a task that has been removed can be read back. *)
Definition checkpoint_readable (c : CheckpointRow) : Prop :=
  (0 ≤ cp_state_version c)%Z ∧ is_ok (state_from_str (cp_state_json c)) = true.

Record db_wf db : Prop := {
  dbw_row : ∀ id row, db_tasks db !! id = Some row → ∃ r lc, row_wf id row r lc;
  dbw_key : ∀ id1 id2 row1 row2 key,
    db_tasks db !! id1 = Some row1 → db_tasks db !! id2 = Some row2 →
    row_idempotency_key row1 = Some key → row_idempotency_key row2 = Some key → id1 = id2;
  dbw_outbox : ∀ id v ob, db_outbox db !! (id, v) = Some ob →
    ∃ row, db_tasks db !! id = Some row ∧ (0 ≤ v ≤ row_state_version row)%Z;
  dbw_checkpoint : ∀ id c, db_checkpoints db !! id = Some c → checkpoint_readable c;
}.

Lemma db_new_wf : db_wf db_new.
Proof.
  split.
  - intros id row H. simpl in H. by apply lookup_empty_Some in H.
  - intros id1 id2 row1 row2 key H. simpl in H. by apply lookup_empty_Some in H.
  - intros id v ob H. simpl in H. by apply lookup_empty_Some in H.
  - intros id c H. simpl in H. by apply lookup_empty_Some in H.
Qed.

(** ** The abstract tasks *)

Definition view_row id row : option StoredTask :=
  match decode_task id row with Ok task => Some task | Err _ => None end.
Definition view db : gmap TaskId StoredTask := map_imap view_row (db_tasks db).

Definition task_of_row id r lc : StoredTask :=
  {| st_request := r; st_summary := summary_of id (StoredRequestInfo_from r) lc |}.

Lemma decode_summary_wf id r lc json info :
  request_info_to_string (StoredRequestInfo_from r) = Ok info →
  lifecycle_to_string lc = Ok json →
  decode_summary id info json = Ok (summary_of id (StoredRequestInfo_from r) lc).
Proof.
  intros Hi Hl. unfold decode_summary. rewrite (request_info_roundtrip _ _ Hi). simpl.
  by rewrite (lifecycle_roundtrip _ _ Hl).
Qed.

Lemma decode_task_wf id row r lc :
  row_wf id row r lc → decode_task id row = Ok (task_of_row id r lc).
Proof.
  intros Hw. unfold decode_task.
  rewrite (decode_summary_wf id r lc _ _ (rw_info _ _ _ _ Hw) (rw_json _ _ _ _ Hw)).
  rewrite (request_info_roundtrip _ _ (rw_info _ _ _ _ Hw)). simpl.
  unfold into_request. simpl. rewrite model_id_roundtrip. simpl.
  rewrite (rw_payload _ _ _ _ Hw). unfold task_of_row. by destruct r as [? ? [] ? ? ? ?].
Qed.

Lemma view_lookup db id row r lc :
  db_tasks db !! id = Some row → row_wf id row r lc →
  view db !! id = Some (task_of_row id r lc).
Proof.
  intros Hid Hw. unfold view. rewrite map_lookup_imap, Hid. simpl. unfold view_row.
  by rewrite (decode_task_wf _ _ _ _ Hw).
Qed.

Lemma view_lookup_None db id : db_tasks db !! id = None → view db !! id = None.
Proof. intros Hid. unfold view. by rewrite map_lookup_imap, Hid. Qed.

Lemma view_insert db id row r lc outbox :
  row_wf id row r lc →
  view (with_outbox outbox (with_tasks (<[id := row]> (db_tasks db)) db)) =
  <[id := task_of_row id r lc]> (view db).
Proof.
  intros Hw. apply map_eq. intros id'. unfold view. simpl.
  rewrite map_lookup_imap, !lookup_insert, map_lookup_imap. case_decide; [subst|done].
  simpl. unfold view_row. by rewrite (decode_task_wf _ _ _ _ Hw).
Qed.

(** Every task of the view comes from a coherent row. *)
Lemma view_Some db id task :
  db_wf db → view db !! id = Some task →
  ∃ row r lc, db_tasks db !! id = Some row ∧ row_wf id row r lc ∧ task = task_of_row id r lc.
Proof.
  intros Hwf Hv. destruct (db_tasks db !! id) as [row|] eqn:Hid.
  - destruct (dbw_row _ Hwf _ _ Hid) as (r & lc & Hw). exists row, r, lc.
    rewrite (view_lookup _ _ _ _ _ Hid Hw) in Hv. by simplify_eq.
  - by rewrite view_lookup_None in Hv.
Qed.

(** ** Writing a row keeps the invariant *)

(** The outbox after an operation: unchanged, or with the event of the new
    version. *)
Definition outbox_grows (id : TaskId) (v : Z) (o o' : gmap (TaskId * Z) OutboxRow) : Prop :=
  o' = o ∨ ∃ ob : OutboxRow, o !! (id, v) = None ∧ o' = <[(id, v) := ob]> o.

Lemma write_row_wf db id row' r lc outbox :
  db_wf db → row_wf id row' r lc →
  (∀ id2 row2 key, db_tasks db !! id2 = Some row2 → id2 ≠ id →
     sr_idempotency_key r = Some key → row_idempotency_key row2 ≠ Some key) →
  (∀ row, db_tasks db !! id = Some row → (row_state_version row ≤ row_state_version row')%Z) →
  outbox_grows id (row_state_version row') (db_outbox db) outbox →
  db_wf (with_outbox outbox (with_tasks (<[id := row']> (db_tasks db)) db)).
Proof.
  intros Hwf Hw Hkey Hver Hgrow. split; simpl.
  - intros id' row. rewrite lookup_insert_Some. intros [[<- <-]|[_ Hid]]; [by eauto|].
    by apply (dbw_row db Hwf).
  - intros id1 id2 row1 row2 key. rewrite !lookup_insert_Some.
    intros [[<- <-]|[Hn1 H1]] [[<- <-]|[Hn2 H2]] Hk1 Hk2; [done|..].
    + rewrite (rw_idempotency _ _ _ _ Hw) in Hk1. exfalso. by eapply Hkey.
    + rewrite (rw_idempotency _ _ _ _ Hw) in Hk2. exfalso. by eapply (Hkey id1).
    + by eapply (dbw_key db Hwf).
  - assert (∀ i v ob, db_outbox db !! (i, v) = Some ob →
      ∃ row, <[id:=row']> (db_tasks db) !! i = Some row ∧ (0 ≤ v ≤ row_state_version row)%Z) as Hold.
    { intros i v ob Hob. destruct (dbw_outbox db Hwf _ _ _ Hob) as (row & Hrow & Hle).
      destruct (decide (id = i)) as [<-|Hne].
      - exists row'. rewrite lookup_insert_eq. split; [done|]. specialize (Hver row Hrow). lia.
      - exists row. by rewrite lookup_insert_ne. }
    intros i v ob. destruct Hgrow as [->|(ob' & Hfree & ->)]; [by apply Hold|].
    rewrite lookup_insert_Some. intros [[[= <- <-] _]|[_ Hob]]; [|by eapply Hold].
    exists row'. rewrite lookup_insert_eq. split; [done|].
    pose proof (rw_version _ _ _ _ Hw) as [-> _]%i64_try_from_Some. lia.
  - apply (dbw_checkpoint db Hwf).
Qed.

(** An idempotency key of a rewritten row stays its own. *)
Lemma own_key db id row r lc :
  db_wf db → db_tasks db !! id = Some row → row_wf id row r lc →
  ∀ id2 row2 key, db_tasks db !! id2 = Some row2 → id2 ≠ id →
    sr_idempotency_key r = Some key → row_idempotency_key row2 ≠ Some key.
Proof.
  intros Hwf Hid Hw id2 row2 key Hid2 Hne Hk Hk2. apply Hne.
  eapply (dbw_key db Hwf id2 id); [done|done|done|].
  by rewrite (rw_idempotency _ _ _ _ Hw).
Qed.

(** An event is stored for a version that is newer than all events of the
    task, so the insertion finds its key free. *)
Lemma maybe_outbox_spec enabled now t db db' v :
  maybe_outbox enabled now t db = Ok db' → i64_try_from (ts_state_version t) = Some v →
  ∃ outbox, db' = with_outbox outbox db ∧ outbox_grows (ts_id t) v (db_outbox db) outbox ∧
    (enabled = false → outbox = db_outbox db).
Proof.
  unfold maybe_outbox. destruct enabled; last first.
  { intros [= <-] _. exists (db_outbox db). split_and!; [by destruct db|by left|done]. }
  unfold insert_event_outbox, sqlite_i64_from_u64. intros H Hv. rewrite Hv in H. simpl in H.
  destruct (from_json _) as [json|]; [|done]. destruct (_ <? _); [done|].
  destruct (i64_or_failure now) as [nz|]; [|done].
  destruct (db_outbox db !! (ts_id t, v)) eqn:Hfree; [done|]. simpl in H. simplify_eq.
  eexists. split; [done|]. split; [|done]. right. eauto.
Qed.
End sqlite.
