(* ===== verification/SqliteRefinement.v ===== *)
(** * The SQLite task store refines the abstract store

    Starts, transitions, progress updates and acceptance, related to the
    abstract operations that the in-memory store refines as well.  SQLite can
    refuse what the abstract store accepts only because a value does not fit
    its column, a document cannot be encoded, or an event is too large. *)

From S2P Require Import Prelude TaskState Model MemoryStore MemoryInvariant MemoryPreservation.
From S2P Require Import MemoryQueries MemorySpec SqliteStore SqliteAdmin SqliteInvariant.

Section sqlite.
Context `{ET : !ExternalTypes, SJ : !SnapshotJson, QJ : !SqliteJson, QL : !SqliteJsonLaws}.
Implicit Types (db : SqliteDb) (row : TaskRow) (lc : StoredTypedLifecycle).
Implicit Types (id : TaskId) (r : StoredTaskRequest) (t : TaskSummary).

(** The abstract store of a database; finishing order is not observable
    here, since SQLite never evicts. *)
Definition sq_abs db : SpecStore :=
  {| as_tasks := view db; as_finished := []; as_owner := None; as_last_epoch := 0 |}.

(** An event that can be stored. *)
Definition event_fits (enabled : bool) (now : N) t : Prop :=
  enabled = true →
  ∃ json, event_to_string (from_typed_summary t) = Ok json ∧
    str_len json ≤ MAX_EVENT_BYTES ∧ now ≤ i64_max.

(** A lifecycle document that can be stored. *)
Definition document_fits lc : Prop :=
  lc_state_version lc ≤ i64_max ∧ is_ok (lifecycle_to_string lc) = true.

Lemma i64_ok n : n ≤ i64_max → i64_try_from n = Some (Z.of_N n).
Proof. intros. by apply i64_try_from_Some. Qed.

(** ** Columns and documents agree *)

Section with_row.
Context (id : TaskId) (row : TaskRow) (r : StoredTaskRequest) (lc : StoredTypedLifecycle).
Context (Hw : row_wf id row r lc).

Lemma row_version field : sqlite_u64_from_i64 (row_state_version row) field = Ok (lc_state_version lc).
Proof.
  pose proof (rw_version _ _ _ _ Hw) as [Hv _]%i64_try_from_Some.
  unfold sqlite_u64_from_i64. by rewrite Hv, u64_of_i64.
Qed.

Lemma row_version_bound : lc_state_version lc ≤ i64_max.
Proof. by pose proof (rw_version _ _ _ _ Hw) as [_ ?]%i64_try_from_Some. Qed.

Lemma row_version_Z : row_state_version row = Z.of_N (lc_state_version lc).
Proof. by pose proof (rw_version _ _ _ _ Hw) as [? _]%i64_try_from_Some. Qed.

Lemma row_kind_eq k s : kind s = k → (∀ s', kind s' = k → s' = s) →
  bool_decide (row_state_kind row = TaskStateKind_as_str k) = bool_decide (lc_state lc = s).
Proof.
  intros Hk Hs. apply bool_decide_ext. rewrite (rw_kind _ _ _ _ Hw). split.
  - intros He%kind_as_str_inj. by apply Hs.
  - intros ->. by rewrite Hk.
Qed.

Lemma row_queued : bool_decide (row_state_kind row = "Queued"%string) = bool_decide (lc_state lc = Queued).
Proof. apply (row_kind_eq KindQueued); [done|]. by intros []. Qed.

Lemma row_running : bool_decide (row_state_kind row = "Running"%string) = bool_decide (lc_state lc = Running).
Proof. apply (row_kind_eq KindRunning); [done|]. by intros []. Qed.

Lemma row_document : lifecycle_from_str (row_lifecycle_json row) = Ok lc.
Proof. apply lifecycle_roundtrip, Hw. Qed.

Lemma row_lifecycle_wf : lifecycle_wf (summary_of id (StoredRequestInfo_from r) lc).
Proof. apply Hw. Qed.
End with_row.

(** ** Storing an event *)

(** A database in which the task has just reached a new version has room for
    its event. *)
Lemma maybe_outbox_fits enabled now t db row' :
  db_wf db →
  (∀ row, db_tasks db !! ts_id t = Some row →
     (row_state_version row < Z.of_N (ts_state_version t))%Z) →
  ts_state_version t ≤ i64_max → event_fits enabled now t →
  ∃ outbox,
    maybe_outbox enabled now t (with_tasks (<[ts_id t := row']> (db_tasks db)) db) =
      Ok (with_outbox outbox (with_tasks (<[ts_id t := row']> (db_tasks db)) db)) ∧
    outbox_grows (ts_id t) (Z.of_N (ts_state_version t)) (db_outbox db) outbox.
Proof.
  intros Hwf Hnew Hv Hfit. unfold maybe_outbox. destruct enabled; last first.
  { exists (db_outbox db). split; [done|by left]. }
  destruct (Hfit eq_refl) as (json & Hj & Hlen & Hnow). unfold insert_event_outbox. rewrite Hj. simpl.
  destruct (_ <? _) eqn:Hl; [bool_prop; lia|].
  unfold sqlite_i64_from_u64, i64_or_failure. rewrite !i64_ok by done. simpl.
  destruct (db_outbox db !! (ts_id t, Z.of_N (ts_state_version t))) as [ob|] eqn:Hob.
  { destruct (dbw_outbox db Hwf _ _ _ Hob) as (row & Hrow & Hle).
    specialize (Hnew row Hrow). lia. }
  simpl. eexists. split; [done|]. right. eauto.
Qed.

Lemma with_outbox_same db : with_outbox (db_outbox db) db = db.
Proof. by destruct db. Qed.

(** The last part shared by starts and transitions: write the row, decode the
    summary, store the event. *)
Lemma commit_row enabled now db id row row' r lc lc' t db2 :
  db_wf db → db_tasks db !! id = Some row → row_wf id row r lc → row_wf id row' r lc' →
  lc_state_version lc' = lc_state_version lc + 1 →
  t = summary_of id (StoredRequestInfo_from r) lc' →
  maybe_outbox enabled now t (with_tasks (<[id := row']> (db_tasks db)) db) = Ok db2 →
  db_wf db2 ∧ view db2 = <[id := task_of_row id r lc']> (view db).
Proof.
  intros Hwf Hid Hw Hw' Hver -> Hob.
  pose proof (rw_version _ _ _ _ Hw') as Hv'.
  destruct (maybe_outbox_spec _ _ _ _ _ _ Hob Hv') as (outbox & -> & Hgrow & _).
  split; [|by apply view_insert].
  eapply write_row_wf; [done|done|by eapply own_key| |done].
  intros row2 Hid2. simplify_eq. rewrite (row_version_Z _ _ _ _ Hw), (row_version_Z _ _ _ _ Hw'). lia.
Qed.

(** ** Starts *)

Lemma started_row_wf id row r lc at_ms j vz sz :
  row_wf id row r lc → lc_state lc = Queued → lc_attempt lc + 1 ≤ u32_max →
  let lc' := started_lifecycle (lc_state_version lc + 1) (lc_attempt lc + 1) at_ms lc in
  lifecycle_to_string lc' = Ok j → i64_try_from (lc_state_version lc + 1) = Some vz →
  row_wf id (started_row vz (lc_attempt lc + 1) sz j row) r lc'.
Proof.
  intros Hw Hq Ha lc' Hj Hv. destruct Hw. split; simpl; try done.
  set (task := task_of_row id r lc). pose proof (started_task_wf id task
    (lc_state_version lc + 1) (lc_attempt lc + 1) at_ms) as Hst.
  apply i64_try_from_Some in Hv as [_ Hv]. assert (i64_max ≤ u64_max) by done.
  apply Hst; [|done|lia|done]. split; [done|by split|done].
Qed.

Lemma start_compute enabled now c db row r lc :
  db_tasks db !! sc_id c = Some row → row_wf (sc_id c) row r lc →
  let id := sc_id c in
  sqlite_start enabled now c db =
    if bool_decide (lc_state lc = Queued) && (lc_state_version lc =? sc_expected_state_version c) then
      if lc_attempt lc + 1 <=? u32_max then
        let lc' := started_lifecycle (lc_state_version lc + 1) (lc_attempt lc + 1)
                     (sc_started_at_ms c) lc in
        let? j := from_json (lifecycle_to_string lc') in
        let? vz := sqlite_i64_from_u64 (lc_state_version lc + 1) "task state version" in
        let? sz := i64_or_failure (sc_started_at_ms c) in
        let t := summary_of id (StoredRequestInfo_from r) lc' in
        let? next := maybe_outbox enabled now t
                      (with_tasks (<[id := started_row vz (lc_attempt lc + 1) sz j row]>
                                     (db_tasks db)) db) in
        Ok (t, next)
      else Err (Failure "task attempt counter overflow")
    else Err Conflict.
Proof.
  intros Hid Hw id. unfold sqlite_start. rewrite Hid. cbn [ok_or].
  rewrite (row_version _ _ _ _ Hw), (row_queued _ _ _ _ Hw), (row_document _ _ _ _ Hw).
  case_bool_decide as Hq; simpl; [|done].
  destruct (_ =? sc_expected_state_version c) eqn:He; simpl; [|done].
  apply N.eqb_eq in He. pose proof (row_version_bound _ _ _ _ Hw) as Hb.
  assert (i64_max < u64_max) by done.
  assert (checked_add u64_max (lc_state_version lc) 1 = Some (lc_state_version lc + 1)) as ->
    by (apply checked_add_Some; lia). simpl.
  unfold checked_add at 1. destruct (lc_attempt lc + 1 <=? u32_max) eqn:Ha; simpl; [|done].
  destruct (lifecycle_to_string _) as [j|] eqn:Hj; simpl; [|done].
  destruct (sqlite_i64_from_u64 (lc_state_version lc + 1) _) as [vz|]; [|done].
  destruct (i64_or_failure (sc_started_at_ms c)) as [sz|]; [|done].
  unfold sqlite_i64_from_u64. rewrite <- He, i64_ok by done. simpl.
  unfold update_where. rewrite Hid, (row_queued _ _ _ _ Hw), bool_decide_true by done.
  rewrite (row_version_Z _ _ _ _ Hw), Z.eqb_refl. simpl.
  by rewrite (decode_summary_wf (sc_id c) r _ _ _ (rw_info _ _ _ _ Hw) Hj).
Qed.

(** ** Representation errors *)

(** Errors that come from encoding, from column widths or from the event
    size, not from the state of the task. *)
Definition representation_error (e : StoreError) : bool :=
  match e with Failure _ | InvalidRequest _ => true | _ => false end.

Lemma i64_or_failure_err n e : i64_or_failure n = Err e → representation_error e = true.
Proof. unfold i64_or_failure. destruct (i64_try_from n); simpl; [done|]. by intros [= <-]. Qed.

Lemma sqlite_i64_err n field e : sqlite_i64_from_u64 n field = Err e → representation_error e = true.
Proof. unfold sqlite_i64_from_u64. destruct (i64_try_from n); simpl; [done|]. by intros [= <-]. Qed.

Lemma from_json_err {A} (x : result A string) e : from_json x = Err e → representation_error e = true.
Proof. destruct x; simpl; [done|]. by intros [= <-]. Qed.

Lemma maybe_outbox_err enabled now t db e :
  maybe_outbox enabled now t db = Err e → representation_error e = true.
Proof.
  unfold maybe_outbox. destruct enabled; [|done]. unfold insert_event_outbox.
  destruct (from_json _) eqn:H1; [|intros [= <-]; by apply from_json_err in H1].
  destruct (_ <? _); [by intros [= <-]|].
  destruct (sqlite_i64_from_u64 _ _) eqn:H2; [|intros [= <-]; by apply sqlite_i64_err in H2].
  destruct (i64_or_failure _) eqn:H3; [|intros [= <-]; by apply i64_or_failure_err in H3].
  destruct (is_some _); by intros [= <-].
Qed.

(** An error is the abstract store's, or a representation error of an
    operation the abstract store accepts. *)
Definition refused {A} (e : StoreError) (spec : result A StoreError * SpecStore) db : Prop :=
  spec = (Err e, sq_abs db) ∨ (representation_error e = true ∧ is_ok spec.1 = true).

Lemma refused_representation {A} e (spec : result A StoreError * SpecStore) db :
  representation_error e = true → is_ok spec.1 = true → refused e spec db.
Proof. by right. Qed.

(** A start that SQLite performs is the abstract start. *)
Lemma sqlite_start_sound enabled now c db :
  db_wf db →
  match sqlite_start enabled now c db with
  | Ok (t, db') => db_wf db' ∧ spec_start c (sq_abs db) = (Ok t, sq_abs db')
  | Err e => refused e (spec_start c (sq_abs db)) db
  end.
Proof.
  intros Hwf. destruct (db_tasks db !! sc_id c) as [row|] eqn:Hid; last first.
  { unfold sqlite_start, spec_start. rewrite Hid. simpl. rewrite view_lookup_None by done. by left. }
  destruct (dbw_row db Hwf _ _ Hid) as (r & lc & Hw). rewrite (start_compute _ _ _ _ _ _ _ Hid Hw).
  unfold spec_start. simpl. rewrite (view_lookup _ _ _ _ _ Hid Hw). simpl.
  destruct (bool_decide (lc_state lc = Queued) && _) eqn:Hg; last first.
  { rewrite decide_False; [by left|]. bool_prop. tauto. }
  rewrite decide_True by (bool_prop; tauto). bool_prop. destruct Hg as [Hq He].
  destruct (_ <=? u32_max) eqn:Ha; [|by apply refused_representation]. bool_prop.
  set (lc' := started_lifecycle _ _ _ _).
  destruct (lifecycle_to_string lc') as [j|] eqn:Hj; simpl; [|by apply refused_representation].
  destruct (sqlite_i64_from_u64 _ _) as [vz|] eqn:Hvz;
    [|by apply refused_representation; [eapply sqlite_i64_err|]].
  destruct (i64_or_failure _) as [sz|] eqn:Hsz;
    [|by apply refused_representation; [eapply i64_or_failure_err|]].
  assert (i64_try_from (lc_state_version lc + 1) = Some vz) as Hv.
  { unfold sqlite_i64_from_u64 in Hvz. destruct (i64_try_from _); simpl in Hvz; by simplify_eq. }
  pose proof (started_row_wf _ _ _ _ (sc_started_at_ms c) j vz sz Hw Hq Ha Hj Hv) as Hw'.
  destruct (maybe_outbox _ _ _ _) as [db2|e] eqn:Hob;
    [|by apply refused_representation; [eapply maybe_outbox_err|]].
  destruct (commit_row _ _ _ _ _ _ _ _ _ _ _ Hwf Hid Hw Hw' eq_refl eq_refl Hob) as [Hwf2 Hview].
  split; [done|]. unfold spec_put, spec_with, sq_abs. simpl. by rewrite Hview.
Qed.

(** The lifecycle document of a summary. *)
Definition lifecycle_of t : StoredTypedLifecycle :=
  {| lc_state := ts_state t; lc_cancel_requested := ts_cancel_requested t;
     lc_cancel_error := ts_cancel_error t; lc_state_version := ts_state_version t;
     lc_attempt := ts_attempt t; lc_retry_not_before_ms := ts_retry_not_before_ms t;
     lc_accepted_at_ms := ts_accepted_at_ms t; lc_started_at_ms := ts_started_at_ms t;
     lc_finished_at_ms := ts_finished_at_ms t; lc_progress := ts_progress t;
     lc_output := ts_output t |}.

(** A summary that SQLite can store together with its event. *)
Record storable (enabled : bool) (now : N) t : Prop := {
  sto_version : ts_state_version t ≤ i64_max;
  sto_attempt : ts_attempt t ≤ u32_max;
  sto_started : ∀ s, ts_started_at_ms t = Some s → s ≤ i64_max;
  sto_retry : ∀ d, ts_retry_not_before_ms t = Some d → d ≤ i64_max;
  sto_document : is_ok (lifecycle_to_string (lifecycle_of t)) = true;
  sto_event : event_fits enabled now t;
}.

Lemma is_ok_true {A E} (x : result A E) : is_ok x = true ↔ ∃ a, x = Ok a.
Proof. destruct x; naive_solver. Qed.

(** An abstract start whose outcome can be stored is performed. *)
Lemma sqlite_start_complete enabled now c db t a' :
  db_wf db → spec_start c (sq_abs db) = (Ok t, a') → storable enabled now t →
  ∃ db', sqlite_start enabled now c db = Ok (t, db').
Proof.
  intros Hwf Hspec Hst. destruct (db_tasks db !! sc_id c) as [row|] eqn:Hid; last first.
  { unfold spec_start in Hspec. simpl in Hspec. by rewrite view_lookup_None in Hspec. }
  destruct (dbw_row db Hwf _ _ Hid) as (r & lc & Hw). rewrite (start_compute _ _ _ _ _ _ _ Hid Hw).
  unfold spec_start in Hspec. simpl in Hspec. rewrite (view_lookup _ _ _ _ _ Hid Hw) in Hspec.
  simpl in Hspec. case_decide as Hg; [|done]. destruct Hg as [He Hq]. simpl in He, Hq.
  injection Hspec as <- <-. destruct Hst as [S1 S2 S3 _ S5 S6]. simpl in *.
  rewrite bool_decide_true by done. rewrite He, N.eqb_refl. simpl.
  destruct (_ <=? u32_max) eqn:Ha; [|bool_prop; lia].
  rewrite He in S1, S5, S6.
  set (lc' := started_lifecycle _ _ _ _). fold lc' in S5.
  change (lifecycle_of (started_summary _ _ _)) with lc' in S5.
  apply is_ok_true in S5 as [j Hj]. rewrite Hj. simpl.
  unfold sqlite_i64_from_u64, i64_or_failure. rewrite !i64_ok by (done || by apply S3). simpl.
  destruct (maybe_outbox_fits enabled now (summary_of (sc_id c) (StoredRequestInfo_from r) lc')
    db (started_row (Z.of_N (sc_expected_state_version c + 1)) (lc_attempt lc + 1)
          (Z.of_N (sc_started_at_ms c)) j row)) as (outbox & Hob & _); [done|..].
  - simpl. intros row2 Hid2. simplify_eq. rewrite (row_version_Z _ _ _ _ Hw). lia.
  - done.
  - done.
  - simpl in Hob. rewrite Hob. by eexists.
Qed.

(** ** Transitions *)

(** The abstract transition of a store that evicts nothing. *)
Definition spec_transition_keep (c : TransitionCommand) (a : SpecStore)
    : result TaskSummary StoreError * SpecStore :=
  match map_err InvalidRequest (validate_diagnostics (tc_state c)),
        validate_encoded_output (tc_state c) (tc_output c),
        as_tasks a !! tc_id c with
  | Err e, _, _ => (Err e, a)
  | _, Err e, _ => (Err e, a)
  | _, _, None => (Err NotFound, a)
  | Ok _, Ok _, Some task =>
      match spec_transition_summary c (st_summary task) with
      | Err e => (Err e, a)
      | Ok t' => (Ok t', spec_put (tc_id c) task t' a)
      end
  end.

(** It is the transition of the abstract in-memory store while its history is
    not full. *)
Lemma spec_transition_keep_unbounded lim c (a : SpecStore) :
  N.of_nat (length (as_finished a)) < ml_history_capacity lim →
  (spec_transition lim c a).1 = (spec_transition_keep c a).1 ∧
  as_tasks (spec_transition lim c a).2 = as_tasks (spec_transition_keep c a).2.
Proof.
  intros Hroom. unfold spec_transition, spec_transition_keep.
  destruct (map_err _ _); [|done]. destruct (validate_encoded_output _ _); [|done].
  destruct (as_tasks a !! tc_id c) as [task|]; [|done].
  destruct (spec_transition_summary _ _) as [t'|]; [|done].
  case_decide; [|done]. simpl.
  destruct (as_finished a ++ [tc_id c]) as [|x l] eqn:Hl; [by destruct (as_finished a)|].
  apply (f_equal length) in Hl. rewrite length_app in Hl. simpl in *.
  destruct (_ <=? _) eqn:E; [done|]. bool_prop. lia.
Qed.

Definition retry_rule_broken (c : TransitionCommand) : bool :=
  is_some (tc_retry_not_before_ms c) && negb (bool_decide (tc_state c = Queued)).

Lemma moved_row_wf id row r lc c j vz retry :
  row_wf id row r lc →
  transition_allowed c (summary_of id (StoredRequestInfo_from r) lc) →
  let lc' := moved_lifecycle c (lc_state_version lc + 1) lc in
  lifecycle_to_string lc' = Ok j → i64_try_from (lc_state_version lc + 1) = Some vz →
  option_traverse i64_or_failure (tc_retry_not_before_ms c) = Ok retry →
  row_wf id (moved_row (TaskStateKind_as_str (kind (tc_state c))) vz j retry row) r lc'.
Proof.
  intros Hw Hta lc' Hj Hv Hr. destruct Hw. split; simpl; try done.
  - destruct (tc_retry_not_before_ms c) as [d|]; simpl in *; [|by simplify_eq].
    unfold i64_or_failure in Hr. destruct (i64_try_from d) as [z|]; simpl in Hr; simplify_eq. eauto.
  - pose proof (settled_task_wf id (task_of_row id r lc) c (lc_state_version lc + 1)) as Hst.
    apply i64_try_from_Some in Hv as [_ Hv]. assert (i64_max ≤ u64_max) by done.
    apply Hst; [|done|lia]. split; [done|by split|done].
Qed.

Lemma transition_compute enabled now c db row r lc :
  db_tasks db !! tc_id c = Some row → row_wf (tc_id c) row r lc →
  validate_diagnostics (tc_state c) = Ok tt →
  validate_encoded_output (tc_state c) (tc_output c) = Ok tt →
  retry_rule_broken c = false →
  let id := tc_id c in
  let t0 := summary_of id (StoredRequestInfo_from r) lc in
  sqlite_transition enabled now c db =
    let? retry := option_traverse i64_or_failure (tc_retry_not_before_ms c) in
    bail Conflict when transition_conflicts c t0;
    bail (InvalidRequest "task output can only be written before the task becomes terminal")
      when is_some (tc_output c) && is_terminal (lc_state lc);
    let lc' := moved_lifecycle c (lc_state_version lc + 1) lc in
    let? j := from_json (lifecycle_to_string lc') in
    let? vz := sqlite_i64_from_u64 (lc_state_version lc + 1) "task state version" in
    let? next := maybe_outbox enabled now (summary_of id (StoredRequestInfo_from r) lc')
                   (with_tasks (<[id := moved_row (TaskStateKind_as_str (kind (tc_state c)))
                                          vz j retry row]> (db_tasks db)) db) in
    Ok (summary_of id (StoredRequestInfo_from r) lc', next).
Proof.
  intros Hid Hw Hd Hvo Hr id t0. unfold sqlite_transition. rewrite Hd, Hvo. simpl.
  unfold retry_rule_broken in Hr. rewrite Hr, Hid. cbn [ok_or].
  rewrite (row_version _ _ _ _ Hw).
  destruct (option_traverse _ _) as [retry|]; [|done].
  rewrite (row_document _ _ _ _ Hw). cbn [from_json map_err].
  change (negb (lc_state_version lc =? tc_expected_state_version c)
          || negb (lc_attempt lc =? tc_expected_attempt c)
          || (negb (allows_transition_to (lc_state lc) (tc_state c))
              && negb (is_terminal (lc_state lc) && bool_decide (lc_state lc = tc_state c)
                       && tc_cancel_requested c && is_some (tc_cancel_error c))))
    with (transition_conflicts c t0).
  destruct (transition_conflicts c t0) eqn:Hc; [done|].
  destruct (is_some (tc_output c) && _); [done|].
  pose proof (row_version_bound _ _ _ _ Hw) as Hb. assert (i64_max < u64_max) by done.
  assert (checked_add u64_max (lc_state_version lc) 1 = Some (lc_state_version lc + 1)) as ->
    by (apply checked_add_Some; lia). cbn [ok_or].
  destruct (lifecycle_to_string _) as [j|] eqn:Hj; simpl; [|done].
  destruct (sqlite_i64_from_u64 (lc_state_version lc + 1) _) as [vz|]; [|done].
  unfold sqlite_i64_from_u64. rewrite i64_ok by done. simpl.
  unfold update_where. rewrite Hid, (row_version_Z _ _ _ _ Hw), Z.eqb_refl. simpl.
  by rewrite (decode_summary_wf (tc_id c) r _ _ _ (rw_info _ _ _ _ Hw) Hj).
Qed.

Lemma option_traverse_err (o : option N) e :
  option_traverse i64_or_failure o = Err e → representation_error e = true.
Proof.
  destruct o as [n|]; simpl; [|done]. destruct (i64_or_failure n) eqn:H; simpl; [done|].
  intros [= <-]. by eapply i64_or_failure_err.
Qed.

Lemma spec_keep_compute c db row r lc :
  db_tasks db !! tc_id c = Some row → row_wf (tc_id c) row r lc →
  validate_diagnostics (tc_state c) = Ok tt →
  validate_encoded_output (tc_state c) (tc_output c) = Ok tt →
  spec_transition_keep c (sq_abs db) =
  match spec_transition_summary c (summary_of (tc_id c) (StoredRequestInfo_from r) lc) with
  | Err e => (Err e, sq_abs db)
  | Ok t' => (Ok t', spec_put (tc_id c) (task_of_row (tc_id c) r lc) t' (sq_abs db))
  end.
Proof.
  intros Hid Hw Hd Hvo. unfold spec_transition_keep. rewrite Hd, Hvo. simpl.
  by rewrite (view_lookup _ _ _ _ _ Hid Hw).
Qed.

(** Errors of SQLite that the abstract transition need not share: those of
    representation, and the retry rule, which SQLite checks first. *)
Definition transition_refused (c : TransitionCommand) (e : StoreError)
    (spec : result TaskSummary StoreError * SpecStore) db : Prop :=
  spec = (Err e, sq_abs db) ∨
  (representation_error e = true ∧ (is_ok spec.1 = true ∨ retry_rule_broken c = true)) ∨
  (representation_error e = true ∧ ∃ d, tc_retry_not_before_ms c = Some d ∧ i64_max < d).

Lemma sqlite_transition_sound enabled now c db :
  db_wf db →
  match sqlite_transition enabled now c db with
  | Ok (t, db') => db_wf db' ∧ spec_transition_keep c (sq_abs db) = (Ok t, sq_abs db')
  | Err e => transition_refused c e (spec_transition_keep c (sq_abs db)) db
  end.
Proof.
  intros Hwf.
  destruct (validate_diagnostics (tc_state c)) as [[]|m] eqn:Hd; last first.
  { unfold sqlite_transition, spec_transition_keep. rewrite Hd. simpl. by left. }
  destruct (validate_encoded_output (tc_state c) (tc_output c)) as [[]|e] eqn:Hvo; last first.
  { unfold sqlite_transition, spec_transition_keep. rewrite Hd, Hvo. simpl. by left. }
  destruct (retry_rule_broken c) eqn:Hr.
  { unfold sqlite_transition. rewrite Hd, Hvo. simpl.
    unfold retry_rule_broken in Hr. rewrite Hr. right; left. split; [done|]. by right. }
  destruct (db_tasks db !! tc_id c) as [row|] eqn:Hid; last first.
  { unfold sqlite_transition, spec_transition_keep. rewrite Hd, Hvo. simpl.
    unfold retry_rule_broken in Hr. rewrite Hr, Hid. simpl.
    rewrite view_lookup_None by done. by left. }
  destruct (dbw_row db Hwf _ _ Hid) as (r & lc & Hw).
  rewrite (transition_compute _ _ _ _ _ _ _ Hid Hw Hd Hvo Hr).
  rewrite (spec_keep_compute _ _ _ _ _ Hid Hw Hd Hvo). unfold spec_transition_summary.
  set (t0 := summary_of _ _ lc).
  destruct (option_traverse _ _) as [retry|e] eqn:Hot; last first.
  { right; right. split; [by eapply option_traverse_err|].
    destruct (tc_retry_not_before_ms c) as [d|]; simpl in Hot; [|done]. exists d. split; [done|].
    unfold i64_or_failure, i64_try_from in Hot. destruct (d <=? i64_max) eqn:Hle; [done|].
    by bool_prop. }
  destruct (transition_conflicts c t0) eqn:Hc; [by left|].
  change (lc_state lc) with (ts_state t0).
  destruct (is_some (tc_output c) && _) eqn:Ho; [by left|].
  unfold retry_rule_broken in Hr. rewrite Hr.
  pose proof (transition_allowed_intro c t0 Hd Hvo Hc Ho Hr) as Hta.
  set (lc' := moved_lifecycle _ _ _).
  destruct (lifecycle_to_string lc') as [j|] eqn:Hj; simpl; [|right; left; by split; [|left]].
  destruct (sqlite_i64_from_u64 _ _) as [vz|] eqn:Hvz;
    [|right; left; by split; [eapply sqlite_i64_err|left]].
  assert (i64_try_from (lc_state_version lc + 1) = Some vz) as Hv.
  { unfold sqlite_i64_from_u64 in Hvz. destruct (i64_try_from _); simpl in Hvz; by simplify_eq. }
  pose proof (moved_row_wf _ _ _ _ c j vz retry Hw Hta Hj Hv Hot) as Hw'.
  destruct (maybe_outbox _ _ _ _) as [db2|e] eqn:Hob;
    [|right; left; by split; [eapply maybe_outbox_err|left]].
  destruct (commit_row _ _ _ _ _ _ _ _ _ _ _ Hwf Hid Hw Hw' eq_refl eq_refl Hob) as [Hwf2 Hview].
  split; [done|]. unfold spec_put, spec_with, sq_abs. simpl. by rewrite Hview.
Qed.

Lemma sqlite_transition_complete enabled now c db t a' :
  db_wf db → spec_transition_keep c (sq_abs db) = (Ok t, a') → storable enabled now t →
  ∃ db', sqlite_transition enabled now c db = Ok (t, db').
Proof.
  intros Hwf Hspec Hst. pose proof Hspec as Hspec'. unfold spec_transition_keep in Hspec'.
  destruct (validate_diagnostics (tc_state c)) as [[]|] eqn:Hd; [|done]. simpl in Hspec'.
  destruct (validate_encoded_output (tc_state c) (tc_output c)) as [[]|] eqn:Hvo; [|done].
  destruct (db_tasks db !! tc_id c) as [row|] eqn:Hid;
    [|by rewrite (view_lookup_None _ _ Hid) in Hspec'].
  clear Hspec'. destruct (dbw_row db Hwf _ _ Hid) as (r & lc & Hw).
  rewrite (spec_keep_compute _ _ _ _ _ Hid Hw Hd Hvo) in Hspec.
  unfold spec_transition_summary in Hspec. set (t0 := summary_of _ _ lc) in *.
  destruct (transition_conflicts c t0) eqn:Hc; [done|].
  destruct (is_some (tc_output c) && _) eqn:Ho; [done|].
  destruct (is_some (tc_retry_not_before_ms c) && _) eqn:Hr; [done|].
  injection Hspec as Ht _. destruct Hst as [S1 _ _ S4 S5 S6].
  rewrite (transition_compute _ _ _ _ _ _ _ Hid Hw Hd Hvo Hr). fold t0. rewrite Hc.
  assert (∃ retry, option_traverse i64_or_failure (tc_retry_not_before_ms c) = Ok retry)
    as [retry Hot].
  { subst t. simpl in S4. destruct (tc_retry_not_before_ms c) as [d|]; simpl; [|eauto].
    unfold i64_or_failure. rewrite i64_ok by (by apply S4). simpl. eauto. }
  rewrite Hot. change (lc_state lc) with (ts_state t0). rewrite Ho.
  cbv zeta. set (lc' := moved_lifecycle _ _ _).
  assert (t = summary_of (tc_id c) (StoredRequestInfo_from r) lc') as -> by (by rewrite <- Ht).
  change (lifecycle_of _) with lc' in S5. simpl in S1.
  apply is_ok_true in S5 as [j Hj]. rewrite Hj. simpl.
  unfold sqlite_i64_from_u64. rewrite i64_ok by done. simpl.
  destruct (maybe_outbox_fits enabled now (summary_of (tc_id c) (StoredRequestInfo_from r) lc') db
    (moved_row (TaskStateKind_as_str (kind (tc_state c))) (Z.of_N (lc_state_version lc + 1))
       j retry row)) as (outbox & Hob & _); [done|..].
  - simpl. intros row2 Hid2. simplify_eq. rewrite (row_version_Z _ _ _ _ Hw). lia.
  - done.
  - done.
  - simpl in Hob. rewrite Hob. by eexists.
Qed.

(** ** Progress *)

Lemma progress_row_wf id row r lc c p pj j vz :
  row_wf id row r lc → from_command snapshot_to_vec c = Ok p →
  lc_attempt lc = pc_expected_attempt c →
  lifecycle_to_string (progress_lifecycle p lc) = Ok j →
  i64_try_from (pc_progress_version c) = Some vz →
  row_wf id (progress_row (pc_expected_attempt c) vz pj j row) r (progress_lifecycle p lc).
Proof.
  intros Hw [Hpa Hpv]%from_command_attempt Ha Hj Hv. pose proof (rw_lifecycle _ _ _ _ Hw) as Hl. split; simpl; try apply Hw; try done.
  - rewrite Hpa, Hpv. done.
  - destruct Hl. split; simpl in *; try done. intros q [= <-]. congruence.
Qed.

(** What the row says about the latest progress of the current attempt. *)
Lemma previous_version_row id row r lc :
  row_wf id row r lc →
  (if bool_decide (row_progress_attempt row = Some (lc_attempt lc))
   then u64_or_failure (row_progress_version row) else Ok 0) =
  Ok (default 0 (tps_progress_version <$> lc_progress lc)) ∧
  (∀ z, (is_none (row_progress_attempt row)
         || negb (bool_decide (row_progress_attempt row = Some (lc_attempt lc)))
         || (row_progress_version row <? z)%Z) =
        is_none_or (λ p, (Z.of_N (tps_progress_version p) <? z)%Z) (lc_progress lc)).
Proof.
  intros Hw. pose proof (rw_progress _ _ _ _ Hw) as Hp.
  destruct (lc_progress lc) as [p|] eqn:Hlp; simpl.
  - destruct Hp as [Ha [Hv Hb]%i64_try_from_Some].
    assert (tps_attempt p = lc_attempt lc) as Hpa.
    { by apply (lwf_progress _ (rw_lifecycle _ _ _ _ Hw)). }
    rewrite Ha, Hpa, bool_decide_true, Hv by done. simpl.
    unfold u64_or_failure. by rewrite u64_of_i64.
  - rewrite Hp. by rewrite bool_decide_false.
Qed.

Lemma progress_compute c db row r lc :
  db_tasks db !! pc_id c = Some row → row_wf (pc_id c) row r lc →
  sqlite_update_progress c db =
    let? p := map_err (λ _, InvalidRequest "task progress snapshot exceeds its configured limits")
                (from_command snapshot_to_vec c) in
    let? pj := from_json (progress_to_string p) in
    bail Conflict when negb (bool_decide (lc_state lc = Running))
                       || negb (lc_attempt lc =? pc_expected_attempt c);
    bail Conflict when pc_progress_version c <=? default 0 (tps_progress_version <$> lc_progress lc);
    let? j := from_json (lifecycle_to_string (progress_lifecycle p lc)) in
    let? vz := i64_or_failure (pc_progress_version c) in
    Ok (summary_of (pc_id c) (StoredRequestInfo_from r) (progress_lifecycle p lc),
        with_tasks (<[pc_id c := progress_row (pc_expected_attempt c) vz pj j row]>
                      (db_tasks db)) db).
Proof.
  intros Hid Hw. unfold sqlite_update_progress.
  destruct (map_err _ _) as [p|]; [|done]. destruct (from_json (progress_to_string p)) as [pj|]; [|done].
  rewrite Hid. cbn [ok_or]. rewrite (row_running _ _ _ _ Hw), (rw_attempt _ _ _ _ Hw).
  case_bool_decide as Hrun; simpl; [|done].
  destruct (lc_attempt lc =? _) eqn:Ha; simpl; [|done]. apply N.eqb_eq in Ha. rewrite <- Ha.
  destruct (previous_version_row _ _ _ _ Hw) as [-> Hcond].
  destruct (_ <=? default 0 _) eqn:Hle; [done|]. bool_prop.
  rewrite (row_document _ _ _ _ Hw). cbn [from_json map_err].
  destruct (lifecycle_to_string _) as [j|] eqn:Hj; simpl; [|done].
  destruct (i64_or_failure _) as [vz|] eqn:Hvz; [|done].
  unfold update_where. rewrite Hid, (row_running _ _ _ _ Hw), bool_decide_true by done.
  rewrite (rw_attempt _ _ _ _ Hw), N.eqb_refl. cbn [andb]. rewrite Hcond.
  unfold i64_or_failure in Hvz. destruct (i64_try_from _) as [vz'|] eqn:Hz; simpl in Hvz; [|done].
  simplify_eq. apply i64_try_from_Some in Hz as [-> _].
  assert (is_none_or (λ p, (Z.of_N (tps_progress_version p) <? Z.of_N (pc_progress_version c))%Z)
    (lc_progress lc) = true) as ->.
  { destruct (lc_progress lc); simpl in *; [|done]. lia. }
  simpl. by rewrite (decode_summary_wf (pc_id c) r _ _ _ (rw_info _ _ _ _ Hw) Hj).
Qed.

(** A progress update that SQLite performs is the abstract one; SQLite also
    refuses version 0, as if an attempt started with a progress of version 0
    already reported. *)
Lemma sqlite_progress_sound c db :
  db_wf db →
  match sqlite_update_progress c db with
  | Ok (t, db') => db_wf db' ∧ spec_progress c (sq_abs db) = (Ok t, sq_abs db')
  | Err Conflict => spec_progress c (sq_abs db) = (Err Conflict, sq_abs db) ∨
                    pc_progress_version c = 0
  | Err NotFound => spec_progress c (sq_abs db) = (Err NotFound, sq_abs db)
  | Err e => representation_error e = true
  end.
Proof.
  intros Hwf. destruct (db_tasks db !! pc_id c) as [row|] eqn:Hid; last first.
  { unfold sqlite_update_progress, spec_progress. rewrite Hid.
    destruct (from_command _ c) as [p|]; simpl; [|done].
    destruct (progress_to_string p); simpl; [|done]. by rewrite view_lookup_None. }
  destruct (dbw_row db Hwf _ _ Hid) as (r & lc & Hw). rewrite (progress_compute _ _ _ _ _ Hid Hw).
  unfold spec_progress. simpl. rewrite (view_lookup _ _ _ _ _ Hid Hw). simpl.
  destruct (from_command _ c) as [p|] eqn:Hp; simpl; [|done].
  destruct (progress_to_string p) as [pj|]; simpl; [|done].
  destruct (_ || _) eqn:Hg; bool_prop; [left; rewrite decide_False; [done|tauto]|].
  destruct Hg as [Hrun Ha].
  destruct (_ <=? default 0 _) eqn:Hle; bool_prop.
  { destruct (lc_progress lc) as [q|] eqn:Hq; simpl in Hle; [left|right; lia].
    rewrite decide_False; [done|]. intros (_ & _ & Hlt). simpl in Hlt. bool_prop. lia. }
  destruct (lifecycle_to_string _) as [j|] eqn:Hj; simpl; [|done].
  unfold i64_or_failure. destruct (i64_try_from _) as [vz|] eqn:Hvz; simpl; [|done].
  pose proof (progress_row_wf _ _ _ _ c p pj j vz Hw Hp Ha Hj Hvz) as Hw'.
  set (row' := progress_row _ _ _ _ _) in *.
  pose proof (write_row_wf db (pc_id c) row' r _ (db_outbox db) Hwf Hw'
    (own_key _ _ _ _ _ Hwf Hid Hw)) as Hwf'.
  pose proof (view_insert db (pc_id c) row' r _ (db_outbox db) Hw') as Hview.
  change (with_outbox (db_outbox db) ?x) with x in Hwf', Hview.
  split.
  - apply Hwf'; [|by left]. intros row2 Hid2. by simplify_eq.
  - rewrite decide_True.
    + unfold spec_put, spec_with, sq_abs. simpl. by rewrite Hview.
    + split_and!; [done|done|]. destruct (lc_progress lc); simpl in *; [|done]. bool_prop. lia.
Qed.

(** What SQLite answers to a report within the limits whose document can be
    written: the abstract answer, but a conflict for version 0. *)
Lemma sqlite_progress_complete c p db :
  db_wf db → from_command snapshot_to_vec c = Ok p → is_ok (progress_to_string p) = true →
  match (spec_progress c (sq_abs db)).1 with
  | Err e => sqlite_update_progress c db = Err e
  | Ok t =>
      if pc_progress_version c =? 0 then sqlite_update_progress c db = Err Conflict
      else pc_progress_version c ≤ i64_max →
           is_ok (lifecycle_to_string (lifecycle_of t)) = true →
           ∃ db', sqlite_update_progress c db = Ok (t, db')
  end.
Proof.
  intros Hwf Hp [pj Hpj]%is_ok_true. unfold spec_progress. rewrite Hp. simpl.
  destruct (db_tasks db !! pc_id c) as [row|] eqn:Hid; last first.
  { rewrite view_lookup_None by done. unfold sqlite_update_progress. rewrite Hp. simpl.
    by rewrite Hpj, Hid. }
  destruct (dbw_row db Hwf _ _ Hid) as (r & lc & Hw). rewrite (progress_compute _ _ _ _ _ Hid Hw).
  rewrite (view_lookup _ _ _ _ _ Hid Hw), Hp. simpl. rewrite Hpj. simpl.
  case_decide as Hg; simpl.
  - destruct Hg as (Hrun & Ha & Hlt). rewrite bool_decide_true, Ha, N.eqb_refl by done. simpl.
    destruct (_ =? 0) eqn:Hz; bool_prop.
    { rewrite Hz. by rewrite (proj2 (N.leb_le 0 _)) by lia. }
    intros Hmax [j Hj]%is_ok_true.
    assert ((pc_progress_version c <=? default 0 (tps_progress_version <$> lc_progress lc)) = false) as ->.
    { destruct (lc_progress lc); simpl in *; bool_prop; lia. }
    change (lifecycle_to_string (progress_lifecycle p lc) = Ok j) in Hj. rewrite Hj. simpl.
    unfold i64_or_failure. rewrite i64_ok by done. simpl. by eexists.
  - destruct (_ || _) eqn:Hc; [done|]. bool_prop. destruct Hc as [Hrun Ha].
    destruct (_ <=? default 0 _) eqn:Hle; [done|]. bool_prop. destruct Hg. split_and!; [done..|].
    destruct (lc_progress lc); simpl in *; [|done]. bool_prop. lia.
Qed.

(** ** Acceptance *)

(** Requests that agree on every field. *)
Lemma request_info_inj r1 r2 :
  StoredRequestInfo_from r1 = StoredRequestInfo_from r2 →
  sp_bytes (sr_payload r1) = sp_bytes (sr_payload r2) → r1 = r2.
Proof.
  destruct r1 as [? ? [ty1 ? ? ?] ? ? ? ?], r2 as [? ? [ty2 ? ? ?] ? ? ? ?].
  unfold StoredRequestInfo_from. simpl. intros [=] ->.
  assert (ty1 = ty2) as ->; [|by subst].
  enough (Some ty1 = Some ty2) by congruence.
  rewrite <- !model_id_roundtrip. by f_equal.
Qed.

Lemma find_by_key_Some key db id row :
  db_wf db →
  find_by_key key db = Some (id, row) ↔
  db_tasks db !! id = Some row ∧ row_idempotency_key row = Some key.
Proof.
  intros Hwf. unfold find_by_key. split.
  - intros Hf. apply fmap_Some in Hf as ([i [id' row']] & Hf & Heq). simpl in Heq. simplify_eq.
    apply list_find_Some in Hf as (Hi & Hk & _). apply list_elem_of_lookup_2 in Hi.
    apply elem_of_btree_entries in Hi. done.
  - intros [Hid Hk]. destruct (list_find _ _) as [[i [id' row']]|] eqn:Hf; simpl.
    + apply list_find_Some in Hf as (Hi & Hk' & _). apply list_elem_of_lookup_2 in Hi.
      apply elem_of_btree_entries in Hi. simpl in Hk'.
      assert (id' = id) as -> by (by eapply (dbw_key db Hwf)). by simplify_eq.
    + apply list_find_None in Hf. rewrite Forall_forall in Hf. exfalso.
      apply (Hf (id, row)); [|done]. by apply elem_of_btree_entries.
Qed.

Lemma find_by_key_None key db id row :
  db_wf db → find_by_key key db = None → db_tasks db !! id = Some row →
  row_idempotency_key row ≠ Some key.
Proof.
  intros Hwf Hf Hid Hk. assert (find_by_key key db = Some (id, row)) by (by apply find_by_key_Some).
  congruence.
Qed.

Lemma accepted_row_wf id r now z ij lj :
  request_info_to_string (StoredRequestInfo_from r) = Ok ij →
  lifecycle_to_string (accepted_lifecycle now) = Ok lj → i64_try_from now = Some z →
  row_wf id (accepted_row r z ij lj) r (accepted_lifecycle now).
Proof.
  intros Hi Hl Hz. split; simpl; try done. split; simpl; try done; try lia; by intros [? ?].
Qed.

(** Every way an acceptance ends: a new task, the task that holds the
    idempotency key with an identical request, a conflict on that key, a
    duplicate identifier, or a representation error. *)
Lemma sqlite_accept_sound enabled now event_now id r db :
  db_wf db →
  match sqlite_accept enabled now event_now id r db with
  | Ok (out, db') =>
      db_wf db' ∧
      if ao_created out then
        ao_summary out = accepted_summary now id r ∧ view db !! id = None ∧
        (∀ id' task key, view db !! id' = Some task → sr_idempotency_key r = Some key →
           sr_idempotency_key (st_request task) ≠ Some key) ∧
        view db' = <[id := {| st_request := r; st_summary := accepted_summary now id r |}]> (view db)
      else
        db' = db ∧ is_Some (sr_idempotency_key r) ∧
        ∃ held, view db !! held = Some {| st_request := r; st_summary := ao_summary out |}
  | Err IdempotencyConflict =>
      is_Some (sr_idempotency_key r) ∧
      ∃ held task, view db !! held = Some task ∧
        sr_idempotency_key (st_request task) = sr_idempotency_key r ∧ st_request task ≠ r
  | Err DuplicateTask => is_Some (view db !! id)
  | Err e => representation_error e = true
  end.
Proof.
  intros Hwf. unfold sqlite_accept.
  destruct (request_info_to_string _) as [ij|] eqn:Hij; simpl; [|done].
  destruct (sr_idempotency_key r ≫= _) as [[held row]|] eqn:Hm.
  - destruct (sr_idempotency_key r) as [key|] eqn:Hk; simpl in Hm; [|done].
    apply find_by_key_Some in Hm as [Hid Hrk]; [|done].
    destruct (dbw_row db Hwf _ _ Hid) as (r0 & lc & Hw).
    destruct (_ || _) eqn:Hdiff.
    + split; [eauto|]. exists held, (task_of_row held r0 lc).
      rewrite (view_lookup _ _ _ _ _ Hid Hw). split_and!; [done|..].
      * simpl. by rewrite <- (rw_idempotency _ _ _ _ Hw).
      * simpl. intros ->. bool_prop.
        pose proof (rw_info _ _ _ _ Hw) as Hi. pose proof (rw_payload _ _ _ _ Hw) as Hpl.
        destruct Hdiff as [Hd|Hd]; [congruence|done].
    + bool_prop. destruct Hdiff as [Hij' Hpl].
      assert (r0 = r) as ->.
      { pose proof (rw_info _ _ _ _ Hw) as Hi. rewrite Hij' in Hi.
        apply request_info_roundtrip in Hi, Hij. apply request_info_inj; [congruence|].
        by rewrite <- (rw_payload _ _ _ _ Hw). }
      rewrite (decode_summary_wf held r lc _ _ (rw_info _ _ _ _ Hw) (rw_json _ _ _ _ Hw)).
      split; [done|]. simpl. split_and!; [done|by eauto|].
      exists held. by rewrite (view_lookup _ _ _ _ _ Hid Hw).
  - unfold accept_row. destruct (db_tasks db !! id) as [row|] eqn:Hid; simpl.
    { destruct (dbw_row db Hwf _ _ Hid) as (r0 & lc & Hw).
      rewrite (view_lookup _ _ _ _ _ Hid Hw). eauto. }
    destruct (lifecycle_to_string _) as [lj|] eqn:Hlj; simpl; [|done].
    unfold i64_or_failure. destruct (i64_try_from now) as [z|] eqn:Hz; simpl; [|done].
    rewrite (decode_summary_wf id r _ _ _ Hij Hlj).
    set (t := summary_of _ _ _). set (row' := accepted_row _ _ _ _).
    destruct (maybe_outbox _ _ _ _) as [db2|e] eqn:Hob;
      [|apply maybe_outbox_err in Hob; by destruct e].
    pose proof (accepted_row_wf id r now z ij lj Hij Hlj Hz) as Hw'. fold row' in Hw'.
    destruct (maybe_outbox_spec _ _ _ _ _ 0%Z Hob) as (outbox & -> & Hgrow & _); [done|].
    assert (∀ id2 row2 key, db_tasks db !! id2 = Some row2 → sr_idempotency_key r = Some key →
      row_idempotency_key row2 ≠ Some key) as Hfree.
    { intros id2 row2 key Hid2 Hk. rewrite Hk in Hm. simpl in Hm.
      by eapply find_by_key_None. }
    split; [|simpl; split_and!].
    + eapply write_row_wf; [done|done| | |done].
      * intros id2 row2 key Hid2 _. by eapply Hfree.
      * intros row2 Hid2. congruence.
    + done.
    + by apply view_lookup_None.
    + intros id' task key Hv Hk Hk'. apply view_Some in Hv as (row2 & r2 & lc2 & Hid2 & Hw2 & ->);
        [|done]. eapply Hfree; [done|done|]. by rewrite (rw_idempotency _ _ _ _ Hw2).
    + exact (view_insert db id row' r (accepted_lifecycle now) outbox Hw').
Qed.
End sqlite.
