(* ===== verification/SqliteQueries.v ===== *)
(** * The SQLite task store: pages

    The rows a query selects, ordered by SQL on the columns, decode to the
    summaries that the abstract store selects and orders itself; so a page of
    the SQLite store is the page of its tasks. *)

From S2P Require Import Prelude TaskState Model MemoryStore MemoryInvariant MemoryPreservation.
From S2P Require Import MemoryQueries SqliteStore SqliteAdmin SqliteInvariant SqliteRefinement.

(** Collecting results that all succeed. *)
Lemma result_mapM_Forall2 {A B E} (f : A → result B E) (l : list A) (k : list B) :
  Forall2 (λ a b, f a = Ok b) l k → result_mapM f l = Ok k.
Proof. induction 1 as [|a b l k Hab _ IH]; simpl; [done|]. by rewrite Hab, IH. Qed.

Lemma list_filter_fmap_bool {A B} (g : A → B) (P : B → bool) (Q : A → bool) (l : list A) :
  (∀ a, a ∈ l → P (g a) = Q a) →
  filter (λ b, P b) (g <$> l) = g <$> filter (λ a, Q a) l.
Proof.
  induction l as [|a l IH]; intros HPQ; [done|]. rewrite fmap_cons, !filter_cons.
  rewrite (HPQ a) by set_solver. case_decide; rewrite ?fmap_cons, IH; set_solver.
Qed.

Section sqlite.
Context `{ET : !ExternalTypes, SJ : !SnapshotJson, QJ : !SqliteJson, QL : !SqliteJsonLaws}.
Implicit Types (db : SqliteDb) (row : TaskRow) (lc : StoredTypedLifecycle).
Implicit Types (id : TaskId) (r : StoredTaskRequest) (t : TaskSummary).
Implicit Types (e : TaskId * TaskRow) (p : (TaskId * TaskRow) * TaskSummary).

(** A row and the summary it stands for. *)
Definition row_stands e t : Prop :=
  ∃ r lc, row_wf e.1 e.2 r lc ∧ t = summary_of e.1 (StoredRequestInfo_from r) lc.

Lemma row_stands_decode e t : row_stands e t → decode_row e = Ok t.
Proof.
  intros (r & lc & Hw & ->). unfold decode_row. apply decode_summary_wf; apply Hw.
Qed.

Lemma row_stands_key e t :
  row_stands e t → row_key e = (Z.of_N (ts_accepted_at_ms t), ts_id t).
Proof.
  intros (r & lc & Hw & ->). unfold row_key. f_equal. simpl.
  by pose proof (rw_accepted _ _ _ _ Hw) as [-> _]%i64_try_from_Some.
Qed.

Lemma row_stands_rel p1 p2 :
  row_stands p1.1 p1.2 → row_stands p2.1 p2.2 →
  rowkey_le (row_key p1.1) (row_key p2.1) ↔ key_le (ts_key p1.2) (ts_key p2.2).
Proof.
  intros H1 H2. rewrite (row_stands_key _ _ H1), (row_stands_key _ _ H2).
  unfold rowkey_le, key_le, ts_key. simpl. lia.
Qed.

Lemma row_stands_after e t (time : N) (i : TaskId) :
  row_stands e t →
  rowkey_ltb (Z.of_N time, i) (row_key e) = key_ltb (time, i) (ts_key t).
Proof.
  intros He. rewrite (row_stands_key _ _ He). apply eq_iff_eq_true.
  unfold rowkey_ltb, key_ltb, ts_key. simpl. bool_prop. rewrite Z.ltb_lt, Z.eqb_eq. lia.
Qed.

(** ** All rows with their summaries *)

Lemma rows_paired (l : list (TaskId * TaskRow)) :
  (∀ e, e ∈ l → ∃ t, row_stands e t) →
  ∃ ps, ps.*1 = l ∧ ∀ p, p ∈ ps → row_stands p.1 p.2.
Proof.
  induction l as [|e l IH]; intros Hl; [exists []; set_solver|].
  destruct (Hl e) as [t Ht]; [set_solver|]. destruct IH as (ps & Heq & Hps); [set_solver|].
  exists ((e, t) :: ps). split; [by rewrite fmap_cons, Heq|].
  by intros p [->|Hp]%elem_of_cons; [|apply Hps].
Qed.

(** The rows in page order, each with its summary. *)
Record paired db (ps : list ((TaskId * TaskRow) * TaskSummary)) : Prop := {
  pd_rows : ps.*1 = sorted_rows db;
  pd_summaries : ps.*2 ≡ₚ summaries (view db);
  pd_stands : ∀ p, p ∈ ps → row_stands p.1 p.2;
  pd_sorted : StronglySorted (key_rel key_le ts_key) ps.*2;
  pd_keys : NoDup (ts_key <$> ps.*2);
}.

#[local] Instance rowkey_le_trans : Transitive rowkey_le.
Proof. unfold rowkey_le. intros a b c ? ?. lia. Qed.
#[local] Instance rowkey_le_total : Total rowkey_le.
Proof. unfold rowkey_le. intros a b. lia. Qed.

Lemma StronglySorted_fmap_rel {A B C} (R : relation B) (S : relation C) (f : A → B) (g : A → C)
    (l : list A) :
  (∀ a b, a ∈ l → b ∈ l → R (f a) (f b) → S (g a) (g b)) →
  StronglySorted R (f <$> l) → StronglySorted S (g <$> l).
Proof.
  induction l as [|a l IH]; intros HRS Hs; [constructor|]. rewrite fmap_cons in *.
  inversion Hs as [|? ? Hs' Hf]; subst. constructor.
  { apply IH; [|done]. intros x y Hx Hy. apply HRS; by apply list_elem_of_further. }
  apply Forall_fmap, Forall_forall. rewrite Forall_forall in Hf.
  intros b Hb. simpl. apply HRS; [by apply list_elem_of_here|by apply list_elem_of_further|].
  by apply (Hf (f b)), (list_elem_of_fmap_2 f).
Qed.

Lemma view_summaries db ps :
  db_wf db → ps.*1 ≡ₚ map_to_list (db_tasks db) → (∀ p, p ∈ ps → row_stands p.1 p.2) →
  NoDup (ts_id <$> ps.*2) ∧ ps.*2 ≡ₚ summaries (view db).
Proof.
  intros Hwf Hp Hst.
  assert (ts_id <$> ps.*2 = ps.*1.*1) as Hids.
  { rewrite <- !list_fmap_compose. apply list_fmap_ext. intros i p Hi%list_elem_of_lookup_2.
    by destruct (Hst p Hi) as (r & lc & Hw & Heq); simpl; rewrite Heq. }
  assert (NoDup (ts_id <$> ps.*2)) as Hnd.
  { rewrite Hids, Hp. apply NoDup_fst_map_to_list. }
  split; [done|]. apply NoDup_Permutation.
  - by apply NoDup_fmap_1 in Hnd.
  - apply (NoDup_fmap_1 ts_id). unfold summaries, btree_values.
    assert (ts_id <$> (st_summary <$> (btree_entries N.le (view db)).*2) =
            btree_keys N.le (view db)) as ->; [|apply NoDup_btree_keys].
    unfold btree_keys. rewrite <- !list_fmap_compose. apply list_fmap_ext.
    intros i [id task] Hi%list_elem_of_lookup_2. apply elem_of_btree_entries in Hi. simpl.
    by apply view_Some in Hi as (row & r & lc & _ & _ & ->).
  - intros t. unfold summaries. rewrite !list_elem_of_fmap.
    setoid_rewrite elem_of_btree_values. split.
    + intros ([[id row] t'] & -> & Hin). simpl. pose proof (Hst _ Hin) as (r & lc & Hw & Ht).
      simpl in *. exists (task_of_row id r lc). split; [done|]. exists id.
      apply (view_lookup _ _ row); [|done]. apply elem_of_map_to_list. rewrite <- Hp.
      by apply (list_elem_of_fmap_2 fst) in Hin.
    + intros (task & -> & id & (row & r & lc & Hid & Hw & ->)%view_Some); [|done].
      apply elem_of_map_to_list in Hid. rewrite <- Hp, list_elem_of_fmap in Hid.
      destruct Hid as ([e t'] & Heq & Hin). simpl in Heq. subst e. exists ((id, row), t').
      split; [|done]. apply Hst, row_stands_decode in Hin. simpl in *.
      assert (row_stands (id, row) (st_summary (task_of_row id r lc))) as H2
        by (by exists r, lc).
      apply row_stands_decode in H2. rewrite H2 in Hin. by injection Hin.
Qed.

Lemma paired_exists db : db_wf db → ∃ ps, paired db ps.
Proof.
  intros Hwf. destruct (rows_paired (sorted_rows db)) as (ps & Hrows & Hst).
  { intros [id row]. unfold sorted_rows. rewrite sort_by_Permutation, elem_of_map_to_list.
    intros Hid. destruct (dbw_row db Hwf _ _ Hid) as (r & lc & Hw).
    exists (summary_of id (StoredRequestInfo_from r) lc). by exists r, lc. }
  assert (ps.*1 ≡ₚ map_to_list (db_tasks db)) as Hp.
  { rewrite Hrows. apply sort_by_Permutation. }
  destruct (view_summaries db ps Hwf Hp Hst) as [Hnd Hsum].
  exists ps. split; [done|done|done|..].
  - apply (StronglySorted_fmap_rel (key_rel rowkey_le row_key) _ fst).
    + intros p1 p2 H1 H2. unfold key_rel. by apply row_stands_rel; apply Hst.
    + rewrite Hrows. apply sort_by_StronglySorted; apply _.
  - apply (NoDup_fmap_1 snd). by rewrite <- list_fmap_compose.
Qed.

(** Selecting rows by [P] and decoding them is selecting summaries by [Q]. *)
Lemma select_rows db (P : TaskId * TaskRow → bool) (Q : TaskSummary → bool) :
  db_wf db → (∀ e t, row_stands e t → P e = Q t) →
  Forall2 (λ e t, decode_row e = Ok t) (filter (λ e, P e) (sorted_rows db))
    (sort_by key_le ts_key (filter (λ t, Q t) (summaries (view db)))).
Proof.
  intros Hwf HPQ. destruct (paired_exists db Hwf) as [ps [Hrows Hsum Hst Hs Hnd]].
  rewrite (sort_by_unique key_le ts_key (filter (λ t, Q t) ps.*2)); [|apply _|..].
  - rewrite <- Hrows. rewrite (list_filter_fmap_bool fst _ (λ p, P p.1)) by done.
    rewrite (list_filter_fmap_bool snd _ (λ p, P p.1)); last first.
    { intros p Hp. symmetry. by apply HPQ, Hst. }
    apply Forall2_fmap, Forall_Forall2_diag, Forall_forall. intros p Hp.
    apply list_elem_of_filter in Hp as [_ Hp]. by apply row_stands_decode, Hst.
  - by apply NoDup_fmap_filter.
  - by apply StronglySorted_filter.
  - by rewrite Hsum.
Qed.

Lemma Forall2_decode_take n (l : list (TaskId * TaskRow)) ts :
  Forall2 (λ e t, decode_row e = Ok t) l ts →
  result_mapM decode_row (take n l) = Ok (take n ts).
Proof. intros H. by apply result_mapM_Forall2, Forall2_take. Qed.

(** Fetching one record more than the page tells whether there are more. *)
Lemma page_of_fetched (size : N) (l : list TaskSummary) :
  page_of size (take (N.to_nat (size + 1)) l) = page_of size l.
Proof.
  unfold page_of. rewrite take_take, length_take, Nat.min_l by lia.
  assert ((size <? N.of_nat (N.to_nat (size + 1) `min` length l)) =
          (size <? N.of_nat (length l))) as ->; [|done].
  apply eq_iff_eq_true. bool_prop. lia.
Qed.

(** ** History pages *)

Lemma elem_of_dedup_states l seen k : k ∈ dedup_states l seen ↔ k ∈ l ∨ k ∈ seen.
Proof.
  revert seen. induction l as [|k' l IH]; intros seen; simpl; [set_solver|].
  case_bool_decide; rewrite IH; set_solver.
Qed.

Lemma dedup_states_nil l : dedup_states l [] = [] ↔ l = [].
Proof.
  split; [|by intros ->]. intros Hd. destruct l as [|k l]; [done|].
  assert (k ∈ dedup_states (k :: l) []) as Hin by (apply elem_of_dedup_states; set_solver).
  rewrite Hd in Hin. by apply elem_of_nil in Hin.
Qed.

(** The cursor as SQL compares it. *)
Definition cursor_row (after : option TaskCursor) : option (Z * N) :=
  (λ c, (Z.of_N (cur_accepted_at_ms c), cur_id c)) <$> after.

Lemma after_matches after e t :
  row_stands e t →
  is_none_or (λ cursor, rowkey_ltb cursor (row_key e)) (cursor_row after) =
  is_none_or (λ c, key_ltb (TaskCursor_key c) (ts_key t)) after.
Proof. intros He. destruct after as [c|]; [|done]. simpl. by apply row_stands_after. Qed.

Lemma history_matches q e t :
  row_stands e t → history_row_matches q (cursor_row (tq_after q)) e = query_matches q t.
Proof.
  intros He. unfold history_row_matches, query_matches. rewrite (after_matches _ _ _ He).
  destruct He as (r & lc & Hw & ->). rewrite (rw_category _ _ _ _ Hw), (rw_correlation _ _ _ _ Hw).
  assert (bool_decide (dedup_states (tq_states q) [] = []) = bool_decide (tq_states q = [])) as ->.
  { apply bool_decide_ext, dedup_states_nil. }
  assert (bool_decide (row_state_kind e.2 ∈ TaskStateKind_as_str <$> dedup_states (tq_states q) []) =
          bool_decide (kind (lc_state lc) ∈ tq_states q)) as ->.
  { apply bool_decide_ext. rewrite (rw_kind _ _ _ _ Hw), list_elem_of_fmap. split.
    - intros (k & Heq%kind_as_str_inj & Hk). apply elem_of_dedup_states in Hk.
      rewrite Heq. destruct Hk as [|Hk]; [done|]. by apply elem_of_nil in Hk.
    - intros Hk. exists (kind (lc_state lc)). split; [done|]. apply elem_of_dedup_states. by left. }
  simpl. destruct (is_none_or _ (tq_after q)), (is_none_or _ (tq_category q)),
    (is_none_or _ (tq_correlation_key q)), (_ || _); done.
Qed.

Lemma cursor_converts (err : StoreError) (after : option TaskCursor) :
  (∀ c, after = Some c → cur_accepted_at_ms c ≤ i64_max) →
  option_traverse (λ cursor,
      let? time := ok_or err (i64_try_from (cur_accepted_at_ms cursor)) in
      Ok (time, cur_id cursor)) after = Ok (cursor_row after).
Proof. intros Hc. destruct after as [c|]; [|done]. simpl. by rewrite i64_ok by (by apply Hc). Qed.

(** A history page is the page of the stored tasks. *)
Lemma sqlite_list_page q db size :
  db_wf db → checked_page_size q = Ok size →
  (∀ c, tq_after q = Some c → cur_accepted_at_ms c ≤ i64_max) →
  sqlite_list q db = Ok (page_of size (selection q (view db))).
Proof.
  intros Hwf Hq Hc. destruct (page_size_bounds q size Hq) as [_ Hmax].
  unfold sqlite_list, history_rows. rewrite Hq.
  assert (checked_add usize_max size 1 = Some (size + 1)) as ->.
  { apply checked_add_Some. unfold usize_max, u64_max. lia. }
  simpl. rewrite i64_ok by (unfold i64_max; lia). simpl.
  rewrite cursor_converts by done. rewrite <- Z_N_nat, N2Z.id.
  pose proof (select_rows db _ _ Hwf (history_matches q)) as Hsel.
  rewrite (Forall2_decode_take _ _ _ Hsel). fold (selection q (view db)).
  rewrite <- (page_of_fetched size (selection q (view db))). unfold page_of at 1.
  set (l := take _ (selection _ _)). destruct (size <? _) eqn:Hmore; [done|].
  bool_prop. by rewrite take_ge by lia.
Qed.

(** ** Ready pages *)

Lemma ready_row_spec now after e t :
  row_stands e t →
  ready_row_matches (Z.of_N now) (cursor_row after) e = ready_matches after now t.
Proof.
  intros He. unfold ready_row_matches, ready_matches. rewrite (after_matches _ _ _ He).
  destruct He as (r & lc & Hw & ->). rewrite (row_queued _ _ _ _ Hw). simpl.
  do 2 f_equal. pose proof (rw_retry _ _ _ _ Hw) as Hr.
  destruct (lc_retry_not_before_ms lc) as [d|]; simpl.
  - destruct Hr as (z & [-> _]%i64_try_from_Some & ->). simpl.
    apply eq_iff_eq_true. rewrite Z.leb_le. bool_prop. lia.
  - by rewrite Hr.
Qed.

Lemma sqlite_ready_page after limit now db :
  db_wf db → limit ≤ 256 → now ≤ i64_max →
  (∀ c, after = Some c → cur_accepted_at_ms c ≤ i64_max) →
  sqlite_ready after limit now db = Ok (page_of limit (ready_selection after now (view db))).
Proof.
  intros Hwf Hlim Hnow Hc. unfold sqlite_ready, MAX_TASK_QUERY_LIMIT.
  destruct (256 <? limit) eqn:E; bool_prop; [lia|].
  rewrite !i64_ok by (done || unfold i64_max; lia). simpl. rewrite cursor_converts by done.
  rewrite <- Z_N_nat, N2Z.id.
  pose proof (select_rows db _ _ Hwf (ready_row_spec now after)) as Hsel.
  rewrite (Forall2_decode_take _ _ _ Hsel). fold (ready_selection after now (view db)).
  by rewrite <- (page_of_fetched limit (ready_selection after now (view db))).
Qed.

(** ** The next retry deadline *)

Lemma min_deadline_Some now db d :
  min_deadline now db = Some d ↔
    (∃ id row, db_tasks db !! id = Some row ∧ row_state_kind row = "Queued"%string ∧
       row_retry_not_before_ms row = Some d ∧ (now < d)%Z) ∧
    (∀ id row d', db_tasks db !! id = Some row → row_state_kind row = "Queued"%string →
       row_retry_not_before_ms row = Some d' → (now < d')%Z → (d ≤ d')%Z).
Proof.
  assert (∀ d', d' ∈ filter (λ d, now < d)%Z
      (omap (λ entry, if bool_decide (row_state_kind entry.2 = "Queued"%string)
                      then row_retry_not_before_ms entry.2 else None)
         (map_to_list (db_tasks db))) ↔
    ∃ id row, db_tasks db !! id = Some row ∧ row_state_kind row = "Queued"%string ∧
       row_retry_not_before_ms row = Some d' ∧ (now < d')%Z) as Hin.
  { intros d'. rewrite list_elem_of_filter, list_elem_of_omap. split.
    - intros (Hlt & [id row] & Hid & Hr). apply elem_of_map_to_list in Hid. simpl in Hr.
      case_bool_decide; [|done]. by exists id, row.
    - intros (id & row & Hid & Hq & Hr & Hlt). split; [done|]. exists (id, row).
      rewrite elem_of_map_to_list. simpl. by rewrite bool_decide_true. }
  unfold min_deadline. destruct (filter _ _) as [|x l].
  { split; [done|]. intros [H%Hin _]. by apply elem_of_nil in H. }
  assert (∀ a l, foldl Z.min a l ∈ a :: l ∧ ∀ d', d' ∈ a :: l → (foldl Z.min a l ≤ d')%Z) as Hmin.
  { clear. intros a l. revert a. induction l as [|y l IH]; intros a; simpl.
    { split; [by apply list_elem_of_singleton|]. intros d' ->%list_elem_of_singleton. lia. }
    destruct (IH (a `min` y)%Z) as [H1 H2]. split.
    - apply elem_of_cons in H1 as [H1|H1]; [|set_solver].
      rewrite H1. destruct (Z.min_spec a y) as [[_ ->]|[_ ->]]; set_solver.
    - pose proof (H2 (a `min` y)%Z ltac:(set_solver)).
      intros d' [->|[->|Hd]%elem_of_cons]%elem_of_cons; [lia..|]. apply H2. set_solver. }
  destruct (Hmin x l) as [H1 H2]. split.
  - intros [= <-]. split; [by apply Hin|]. intros id row d' Hid Hq Hr Hlt.
    apply H2, Hin. eauto 10.
  - intros [H3%Hin H4]. f_equal. apply Hin in H1 as (id & row & Hid & Hq & Hr & Hlt).
    apply Z.le_antisymm; eauto.
Qed.

Lemma min_deadline_None now db :
  min_deadline now db = None ↔
    ∀ id row d, db_tasks db !! id = Some row → row_state_kind row = "Queued"%string →
       row_retry_not_before_ms row = Some d → (d ≤ now)%Z.
Proof.
  unfold min_deadline. destruct (filter _ _) as [|x l] eqn:Hf.
  - split; [|done]. intros _ id row d Hid Hq Hr. destruct (decide (now < d)%Z) as [Hlt|]; [|lia].
    assert (d ∈ @nil Z) as Hin; [|by apply elem_of_nil in Hin].
    rewrite <- Hf. apply list_elem_of_filter.
    split; [done|]. apply list_elem_of_omap. exists (id, row).
    rewrite elem_of_map_to_list. simpl. by rewrite bool_decide_true.
  - split; [done|]. intros H. exfalso.
    assert (x ∈ x :: l) as Hx by set_solver. rewrite <- Hf in Hx.
    apply list_elem_of_filter in Hx as [Hlt ([id row] & Hid & Hr)%list_elem_of_omap].
    apply elem_of_map_to_list in Hid. simpl in Hr. case_bool_decide as Hq; [|done].
    specialize (H id row x Hid Hq Hr). lia.
Qed.

(** A queued task of the view with a deadline, and its row. *)
Definition waiting_until db id (d : N) : Prop :=
  ∃ task, view db !! id = Some task ∧ ts_state (st_summary task) = Queued ∧
    ts_retry_not_before_ms (st_summary task) = Some d.

Lemma waiting_until_row db id d :
  db_wf db →
  waiting_until db id d ↔
  ∃ row, db_tasks db !! id = Some row ∧ row_state_kind row = "Queued"%string ∧
    row_retry_not_before_ms row = Some (Z.of_N d).
Proof.
  intros Hwf. split.
  - intros (task & (row & r & lc & Hid & Hw & ->)%view_Some & Hq & Hd); [|done].
    exists row. split; [done|]. simpl in Hq, Hd. rewrite (rw_kind _ _ _ _ Hw), Hq.
    split; [done|]. pose proof (rw_retry _ _ _ _ Hw) as Hr. rewrite Hd in Hr.
    by destruct Hr as (z & [-> _]%i64_try_from_Some & ->).
  - intros (row & Hid & Hk & Hr). destruct (dbw_row db Hwf _ _ Hid) as (r & lc & Hw).
    exists (task_of_row id r lc). split; [by eapply view_lookup|]. simpl.
    pose proof (row_queued _ _ _ _ Hw) as Hq. rewrite bool_decide_true in Hq by done.
    symmetry in Hq. apply bool_decide_eq_true in Hq. split; [done|].
    pose proof (rw_retry _ _ _ _ Hw) as Hret. destruct (lc_retry_not_before_ms lc) as [d'|].
    + destruct Hret as (z & [-> _]%i64_try_from_Some & Heq). rewrite Hr in Heq.
      f_equal. injection Heq. lia.
    + congruence.
Qed.

Lemma row_retry_nonneg db id row d :
  db_wf db → db_tasks db !! id = Some row → row_retry_not_before_ms row = Some d →
  d = Z.of_N (Z.to_N d).
Proof.
  intros Hwf Hid Hr. destruct (dbw_row db Hwf _ _ Hid) as (r & lc & Hw).
  pose proof (rw_retry _ _ _ _ Hw) as Hret. destruct (lc_retry_not_before_ms lc) as [d'|].
  - destruct Hret as (z & [-> _]%i64_try_from_Some & Heq). rewrite Hr in Heq. injection Heq. lia.
  - congruence.
Qed.

Lemma sqlite_deadline now db :
  db_wf db → now ≤ i64_max →
  ∃ o, sqlite_next_retry_deadline now db = Ok o ∧
    match o with
    | Some d => now < d ∧ (∃ id, waiting_until db id d) ∧
                ∀ id d', waiting_until db id d' → now < d' → d ≤ d'
    | None => ∀ id d, waiting_until db id d → d ≤ now
    end.
Proof.
  intros Hwf Hnow. unfold sqlite_next_retry_deadline. rewrite i64_ok by done. simpl.
  destruct (min_deadline (Z.of_N now) db) as [d|] eqn:Hm; simpl.
  - apply min_deadline_Some in Hm as [(id & row & Hid & Hq & Hr & Hlt) Hmin].
    pose proof (row_retry_nonneg _ _ _ _ Hwf Hid Hr) as Hd.
    exists (Some (Z.to_N d)). split.
    { unfold u64_or_failure. rewrite Hd at 1. by rewrite u64_of_i64. }
    split; [lia|]. split.
    { exists id. apply waiting_until_row; [done|]. exists row. by rewrite <- Hd. }
    intros id' d' (row' & Hid' & Hq' & Hr')%waiting_until_row Hlt'; [|done].
    specialize (Hmin id' row' _ Hid' Hq' Hr'). lia.
  - exists None. split; [done|]. rewrite min_deadline_None in Hm.
    intros id d (row & Hid & Hq & Hr)%waiting_until_row; [|done].
    specialize (Hm id row _ Hid Hq Hr). lia.
Qed.
End sqlite.
