(* ===== verification/SqlitePruning.v ===== *)
(** * The SQLite task store: pruning

    Pruning moves finished tasks out of the history; what remains of a pruned
    task is its terminal checkpoint.  It is shown that the checkpoint answers
    as the task did, that tasks with unpublished events stay, and that the
    oldest finished tasks go first. *)

From S2P Require Import Prelude TaskState Model MemoryStore MemoryInvariant MemoryPreservation.
From S2P Require Import MemoryQueries SqliteStore SqliteAdmin SqliteInvariant SqliteRefinement.
From S2P Require Import SqliteQueries.

#[export] Instance rowkey_le_transitive : Transitive rowkey_le.
Proof. unfold rowkey_le. intros a b c ? ?. lia. Qed.
#[export] Instance rowkey_le_tot : Total rowkey_le.
Proof. unfold rowkey_le. intros a b. lia. Qed.

Section sqlite.
Context `{ET : !ExternalTypes, SJ : !SnapshotJson, QJ : !SqliteJson, QL : !SqliteJsonLaws}.
Implicit Types (db : SqliteDb) (row : TaskRow) (lc : StoredTypedLifecycle).
Implicit Types (id : TaskId) (r : StoredTaskRequest) (t : TaskSummary).

(** Finish times within SQLite's integers. *)
Definition finish_times_fit db : Prop :=
  ∀ id task f, view db !! id = Some task → ts_finished_at_ms (st_summary task) = Some f →
    f ≤ i64_max.

Lemma terminal_kinds_spec s :
  TaskStateKind_as_str (kind s) ∈ terminal_kinds ↔ is_terminal s = true.
Proof. unfold terminal_kinds. destruct s; simpl; set_solver. Qed.

Lemma has_outbox_rows_true id db :
  has_outbox_rows id db = true ↔ ∃ v, is_Some (db_outbox db !! (id, v)).
Proof.
  unfold has_outbox_rows. rewrite existsb_exists. split.
  - intros ([[i v] ob] & Hin & Heq). apply list_elem_of_In, elem_of_map_to_list in Hin.
    apply bool_decide_eq_true in Heq. simpl in Heq. subst. eauto.
  - intros (v & ob & Hob). exists ((id, v), ob). rewrite <- list_elem_of_In, elem_of_map_to_list.
    split; [done|]. by apply bool_decide_eq_true.
Qed.

(** ** The rows a cutoff reaches *)

(** A task that pruning may remove: finished before the cutoff, with all its
    events published or quarantined. *)
Definition prunable (before : N) db id (f : N) : Prop :=
  (∃ task, view db !! id = Some task ∧ expired before task f) ∧
  ∀ v, db_outbox db !! (id, v) = None.

Lemma row_finished db id row r lc :
  finish_times_fit db → db_tasks db !! id = Some row → row_wf id row r lc →
  extract_finished_at (row_lifecycle_json row) = Z.of_N <$> lc_finished_at_ms lc.
Proof.
  intros Hfit Hid Hw. apply lifecycle_finished_at; [apply Hw|]. intros f Hf.
  apply (Hfit id (task_of_row id r lc)); [by eapply view_lookup|done].
Qed.

Lemma prune_row_spec before db id row z i json :
  db_wf db → finish_times_fit db → db_tasks db !! id = Some row →
  prune_row (Z.of_N before) db (id, row) = Some (z, i, json) ↔
  i = id ∧ json = row_lifecycle_json row ∧ ∃ f, z = Z.of_N f ∧ prunable before db id f.
Proof.
  intros Hwf Hfit Hid. destruct (dbw_row db Hwf _ _ Hid) as (r & lc & Hw).
  unfold prune_row, prunable, expired. simpl. rewrite (row_finished _ _ _ _ _ Hfit Hid Hw).
  rewrite (view_lookup _ _ _ _ _ Hid Hw). rewrite (rw_kind _ _ _ _ Hw).
  assert (negb (has_outbox_rows id db) = true ↔ ∀ v, db_outbox db !! (id, v) = None) as Hob.
  { rewrite negb_true_iff, <- not_true_iff_false, has_outbox_rows_true. split.
    - intros Hn v. apply eq_None_not_Some. intros Hs. apply Hn. eauto.
    - intros Hn (v & ob & Hs). by rewrite Hn in Hs. }
  assert (bool_decide (TaskStateKind_as_str (kind (lc_state lc)) ∈ terminal_kinds) =
    is_terminal (lc_state lc)) as ->.
  { apply eq_iff_eq_true. rewrite bool_decide_eq_true. apply terminal_kinds_spec. }
  destruct (lc_finished_at_ms lc) as [f|] eqn:Hf; simpl.
  - destruct (_ && _) eqn:Hg.
    + apply andb_true_iff in Hg as [[Ht Hlt]%andb_true_iff Hn].
      pose proof (proj1 Hob Hn) as Hfree. apply Z.ltb_lt in Hlt. split.
      * intros [= <- <- <-]. split_and!; [done..|]. exists f. split_and!; [done| |done].
        exists (task_of_row id r lc). unfold task_terminal. simpl. split_and!; [done..|lia].
      * intros (-> & -> & f' & -> & (task & [= <-] & _ & Hf' & _) & _). simpl in Hf'. congruence.
    + split; [done|]. intros (-> & -> & f' & -> & (task & [= <-] & Ht & Hf' & Hlt) & Hn).
      apply (proj2 Hob) in Hn. unfold task_terminal in Ht. simpl in Ht, Hf'.
      rewrite Ht, Hn in Hg. simpl in Hg. apply andb_false_iff in Hg as [Hg|Hg]; [|done].
      apply Z.ltb_ge in Hg. simplify_eq. lia.
  - split; [done|]. intros (-> & -> & f' & -> & (task & [= <-] & _ & Hf' & _) & _).
    simpl in Hf'. congruence.
Qed.

(** The candidates of a cutoff, as finish time, identifier and document. *)
Definition prune_matches (before : N) db : list (Z * N * string) :=
  omap (prune_row (Z.of_N before) db) (map_to_list (db_tasks db)).

Lemma elem_of_prune_matches before db z i json :
  db_wf db → finish_times_fit db →
  (z, i, json) ∈ prune_matches before db ↔
  ∃ row f, db_tasks db !! i = Some row ∧ json = row_lifecycle_json row ∧ z = Z.of_N f ∧
    prunable before db i f.
Proof.
  intros Hwf Hfit. unfold prune_matches. rewrite list_elem_of_omap. split.
  - intros ([id row] & Hid & Hp). apply elem_of_map_to_list in Hid.
    apply prune_row_spec in Hp as (-> & -> & f & -> & Hp); eauto 10.
  - intros (row & f & Hid & -> & -> & Hp). exists (i, row). rewrite elem_of_map_to_list.
    split; [done|]. apply prune_row_spec; eauto 10.
Qed.

Lemma prune_ids_NoDup (before : Z) db :
  NoDup (snd ∘ fst <$> omap (prune_row before db) (map_to_list (db_tasks db))).
Proof.
  pose proof (NoDup_fst_map_to_list (db_tasks db)) as Hnd.
  induction (map_to_list (db_tasks db)) as [|[id row] l IH]; [constructor|].
  rewrite fmap_cons in Hnd. apply NoDup_cons in Hnd as [Hni Hnd]. cbn.
  assert (∀ id' row' x, prune_row before db (id', row') = Some x → x.1.2 = id') as Hid.
  { intros id' row' x Hp. unfold prune_row in Hp. apply bind_Some in Hp as (f & _ & Hp).
    by destruct (_ && _); simplify_eq. }
  destruct (prune_row _ _ _) as [x|] eqn:Hp; [|by auto].
  rewrite fmap_cons. apply NoDup_cons. split; [|by auto]. simpl. rewrite (Hid _ _ _ Hp).
  intros (y & Heq & ([id2 row2] & Hin & Hp2)%list_elem_of_omap)%list_elem_of_fmap.
  simpl in Heq. rewrite (Hid _ _ _ Hp2) in Heq. subst id2. apply Hni.
  by apply (list_elem_of_fmap_2 fst) in Hin.
Qed.

(** ** Removing one row *)

Definition checkpointed db id (db' : SqliteDb) : Prop :=
  db_tasks db' = delete id (db_tasks db) ∧ db_outbox db' = db_outbox db ∧
  db_quarantine db' = db_quarantine db ∧ db_owner_epoch db' = db_owner_epoch db ∧
  (∀ id', id' ≠ id → db_checkpoints db' !! id' = db_checkpoints db !! id') ∧
  (∀ c, db_checkpoints db' !! id = Some c → checkpoint_readable c) ∧
  sqlite_get_state_checkpoint id db' = sqlite_get_state_checkpoint id db.

Lemma json_state_row id row r lc :
  row_wf id row r lc →
  json_state (row_lifecycle_json row) = Ok (lc_state lc, Z.of_N (lc_state_version lc)).
Proof.
  intros Hw. destruct (lifecycle_value_state _ _ (rw_json _ _ _ _ Hw))
    as (v & sv & vv & Hv & Hs & Hst & Hvv & Hi).
  unfold json_state. rewrite Hv. simpl. rewrite Hs. simpl. rewrite Hst. simpl. rewrite Hvv.
  simpl. rewrite Hi, (rw_version _ _ _ _ Hw). simpl. by rewrite (row_version_Z _ _ _ _ Hw).
Qed.

Lemma checkpoint_row id db row r lc :
  db_tasks db !! id = Some row → row_wf id row r lc →
  sqlite_get_state_checkpoint id db =
    Ok (Some {| ck_id := id; ck_state_version := lc_state_version lc; ck_state := lc_state lc |}).
Proof.
  intros Hrow Hw. unfold sqlite_get_state_checkpoint. rewrite Hrow, (json_state_row _ _ _ _ Hw).
  simpl. unfold u64_or_failure. by rewrite u64_of_i64.
Qed.

Lemma prune_one_spec db id row r lc z :
  db_tasks db !! id = Some row → row_wf id row r lc → is_terminal (lc_state lc) = true →
  match prune_one (z, id, row_lifecycle_json row) db with
  | Ok db' => checkpointed db id db'
  | Err e => representation_error e = true ∧
             (is_ok (state_to_string (lc_state lc)) = false ∨ (z < 0)%Z)
  end.
Proof.
  intros Hid Hw Ht. pose proof (json_state_row _ _ _ _ Hw) as Hj.
  destruct (lifecycle_value_state _ _ (rw_json _ _ _ _ Hw))
    as (v & sv & vv & Hv & Hs & Hst & Hvv & Hi).
  unfold prune_one. rewrite Hv. simpl. rewrite Hs. simpl. rewrite Hst. simpl. rewrite Ht. simpl.
  destruct (state_to_string _) as [sj|] eqn:Hsj; simpl; [|by split; [|left]].
  rewrite Hvv. simpl. rewrite Hi, (rw_version _ _ _ _ Hw), (row_version_Z _ _ _ _ Hw). simpl.
  destruct (_ || _) eqn:Hneg.
  { split; [done|right]. apply orb_true_iff in Hneg. rewrite !Z.ltb_lt in Hneg. lia. }
  rewrite Hid. simpl. unfold checkpointed. simpl. split_and!; [done..| | |].
  - intros id' Hne. by rewrite lookup_insert_ne.
  - intros c. rewrite lookup_insert_eq. intros [= <-]. split; simpl; [lia|].
    by rewrite (state_roundtrip _ _ Hsj).
  - unfold sqlite_get_state_checkpoint. simpl. rewrite lookup_delete_eq, lookup_insert_eq, Hid, Hj.
    simpl. unfold u64_or_failure. rewrite u64_of_i64. simpl. by rewrite (state_roundtrip _ _ Hsj).
Qed.

(** The checkpoint answer depends on the row and the checkpoint alone. *)
Lemma get_state_checkpoint_local id db db' :
  db_tasks db' !! id = db_tasks db !! id → db_checkpoints db' !! id = db_checkpoints db !! id →
  sqlite_get_state_checkpoint id db' = sqlite_get_state_checkpoint id db.
Proof. intros H1 H2. unfold sqlite_get_state_checkpoint. by rewrite H1, H2. Qed.

(** ** Removing all of them *)

(** The database without the tasks [l]. *)
Record pruned (l : list TaskId) db db' : Prop := {
  pr_tasks : ∀ id, db_tasks db' !! id = if decide (id ∈ l) then None else db_tasks db !! id;
  pr_outbox : db_outbox db' = db_outbox db;
  pr_quarantine : db_quarantine db' = db_quarantine db;
  pr_epoch : db_owner_epoch db' = db_owner_epoch db;
  pr_answers : ∀ id, sqlite_get_state_checkpoint id db' = sqlite_get_state_checkpoint id db;
  pr_readable : ∀ id c, db_checkpoints db' !! id = Some c →
    db_checkpoints db !! id = Some c ∨ checkpoint_readable c;
}.

Lemma pruned_cons id l db db1 db' :
  checkpointed db id db1 → pruned l db1 db' → pruned (id :: l) db db'.
Proof.
  intros (H1 & H2 & H3 & H4 & H5 & H6 & H7) [P1 P2 P3 P4 P5 P6]. split; [|congruence..| |].
  - intros id'. rewrite P1, H1. destruct (decide (id' = id)) as [->|Hne].
    + rewrite lookup_delete_eq, (decide_True (P := id ∈ id :: l)) by apply list_elem_of_here.
      by case_decide.
    + rewrite lookup_delete_ne by done. assert (id' ∈ id :: l ↔ id' ∈ l) as Hin.
      { rewrite elem_of_cons. tauto. }
      do 2 case_decide; tauto.
  - intros id'. rewrite P5. destruct (decide (id' = id)) as [->|Hne]; [done|].
    apply get_state_checkpoint_local; [|by apply H5]. by rewrite H1, lookup_delete_ne.
  - intros id' c [Hc|Hc]%P6; [|by right]. destruct (decide (id' = id)) as [->|Hne].
    + right. by apply H6.
    + left. by rewrite <- H5.
Qed.

(** Every row of the list describes a finished task of the database. *)
Definition finished_rows (rows : list (Z * N * string)) db : Prop :=
  NoDup (snd ∘ fst <$> rows) ∧
  ∀ z id json, (z, id, json) ∈ rows →
    ∃ row r lc, db_tasks db !! id = Some row ∧ row_wf id row r lc ∧
      json = row_lifecycle_json row ∧ is_terminal (lc_state lc) = true.

Lemma prune_terminal_rows_spec rows db :
  finished_rows rows db →
  match prune_terminal_rows rows db with
  | Ok db' => pruned (snd ∘ fst <$> rows) db db'
  | Err e => representation_error e = true ∧
             ∃ z id json task, (z, id, json) ∈ rows ∧ view db !! id = Some task ∧
               (is_ok (state_to_string (ts_state (st_summary task))) = false ∨ (z < 0)%Z)
  end.
Proof.
  revert db. induction rows as [|[[z id] json] rows IH]; intros db [Hnd Hrows].
  { simpl. split; try done. by left. }
  rewrite fmap_cons in Hnd. apply NoDup_cons in Hnd as [Hni Hnd]. cbn [prune_terminal_rows].
  destruct (Hrows z id json) as (row & r & lc & Hid & Hw & -> & Ht); [set_solver|].
  pose proof (prune_one_spec db id row r lc z Hid Hw Ht) as Hone.
  destruct (prune_one _ db) as [db1|e].
  - assert (finished_rows rows db1) as Hrows1.
    { split; [done|]. intros z' id' json' Hin.
      assert (id' ≠ id) as Hne.
      { intros ->. apply Hni. by apply (list_elem_of_fmap_2 (snd ∘ fst)) in Hin. }
      destruct (Hrows z' id' json') as (row' & r' & lc' & Hid' & ?); [set_solver|].
      exists row', r', lc'. destruct Hone as [-> _]. by rewrite lookup_delete_ne. }
    specialize (IH db1 Hrows1). destruct (prune_terminal_rows rows db1) as [db'|e].
    + by eapply pruned_cons.
    + destruct IH as (He & z' & id' & json' & task & Hin & Hv & Hs). split; [done|].
      exists z', id', json', task. split; [set_solver|]. split; [|done].
      assert (id' ≠ id) as Hne.
      { intros ->. apply Hni. by apply (list_elem_of_fmap_2 (snd ∘ fst)) in Hin. }
      destruct Hone as [Hd _]. unfold view in *. rewrite map_lookup_imap in *.
      by rewrite Hd, lookup_delete_ne in Hv.
  - destruct Hone as [He Hs]. split; [done|]. exists z, id, (row_lifecycle_json row), (task_of_row id r lc).
    split; [set_solver|]. split; [by eapply view_lookup|done].
Qed.

Lemma prune_rows_finished before max_rows db :
  db_wf db → finished_rows (prune_rows before max_rows db) db.
Proof.
  intros Hwf. unfold prune_rows.
  set (l := omap (prune_row before db) (map_to_list (db_tasks db))). split.
  - pose proof (prune_ids_NoDup before db) as Hnd. fold l in Hnd.
    rewrite <- (sort_by_Permutation rowkey_le fst l) in Hnd.
    rewrite <- (take_drop (Z.to_nat max_rows) (sort_by rowkey_le fst l)), fmap_app in Hnd.
    by apply NoDup_app in Hnd as [Hnd _].
  - intros z id json Hin%subseteq_take. rewrite sort_by_Permutation in Hin.
    apply list_elem_of_omap in Hin as ([i row] & Hid & Hp). apply elem_of_map_to_list in Hid.
    unfold prune_row in Hp. apply bind_Some in Hp as (f & _ & Hp).
    destruct (_ && _) eqn:Hg; [|done]. injection Hp as <- <- <-.
    apply andb_true_iff in Hg as [[Hk _]%andb_true_iff _]. apply bool_decide_eq_true in Hk.
    simpl in Hk. destruct (dbw_row db Hwf _ _ Hid) as (r & lc & Hw). exists row, r, lc.
    split_and!; [done..|]. rewrite (rw_kind _ _ _ _ Hw) in Hk. by apply terminal_kinds_spec.
Qed.

Lemma pruned_view l db db' :
  pruned l db db' → ∀ id, view db' !! id = if decide (id ∈ l) then None else view db !! id.
Proof.
  intros Hp id. unfold view. rewrite !map_lookup_imap, (pr_tasks _ _ _ Hp). by case_decide.
Qed.

(** Tasks whose events are pending stay, so the invariant holds. *)
Lemma pruned_wf l db db' :
  db_wf db → pruned l db db' → (∀ id v, id ∈ l → db_outbox db !! (id, v) = None) → db_wf db'.
Proof.
  intros Hwf [P1 P2 _ _ _ P6] Hout. split.
  - intros id row. rewrite P1. case_decide; [done|]. apply (dbw_row db Hwf).
  - intros id1 id2 row1 row2 key. rewrite !P1. repeat case_decide; try done. apply (dbw_key db Hwf).
  - intros id v ob. rewrite P2. intros Hob.
    destruct (dbw_outbox db Hwf _ _ _ Hob) as (row & Hrow & Hv). exists row. split; [|done].
    rewrite P1, decide_False; [done|]. intros Hin. by rewrite Hout in Hob.
  - intros id c [Hc|Hc]%P6; [by apply (dbw_checkpoint db Hwf id)|done].
Qed.

(** ** Which tasks go *)

Lemma prunable_finish_unique before db id f f' :
  prunable before db id f → prunable before db id f' → f = f'.
Proof. intros [(t1 & H1 & _ & F1 & _) _] [(t2 & H2 & _ & F2 & _) _]. congruence. Qed.

Lemma prune_rows_exact before rows db :
  db_wf db → finish_times_fit db →
  let l := snd ∘ fst <$> prune_rows (Z.of_N before) (Z.of_N rows) db in
  N.of_nat (length (prune_rows (Z.of_N before) (Z.of_N rows) db)) ≤ rows ∧
  (∀ id, id ∈ l → ∃ f, prunable before db id f) ∧
  (∀ id f, prunable before db id f → id ∉ l →
     N.of_nat (length (prune_rows (Z.of_N before) (Z.of_N rows) db)) = rows ∧
     ∀ id' f', id' ∈ l → prunable before db id' f' → key_le (f', id') (f, id)).
Proof.
  intros Hwf Hfit l. unfold l, prune_rows. fold (prune_matches before db).
  rewrite <- Z_N_nat, N2Z.id. set (srt := sort_by rowkey_le fst (prune_matches before db)).
  assert (∀ z i json, (z, i, json) ∈ srt ↔
    ∃ row f, db_tasks db !! i = Some row ∧ json = row_lifecycle_json row ∧ z = Z.of_N f ∧
      prunable before db i f) as Hsrt.
  { intros z i json. unfold srt. rewrite sort_by_Permutation. by apply elem_of_prune_matches. }
  assert (∀ id f, prunable before db id f → ∃ json, (Z.of_N f, id, json) ∈ srt) as Hall.
  { intros id f Hp. destruct (proj1 Hp) as (task & (row & r & lc & Hid & _)%view_Some & _); [|done].
    exists (row_lifecycle_json row). apply Hsrt. eauto 10. }
  assert (∀ id, id ∈ (snd ∘ fst <$> take (N.to_nat rows) srt) ↔
    ∃ f json, (Z.of_N f, id, json) ∈ take (N.to_nat rows) srt ∧ prunable before db id f) as Hmem.
  { intros id. split.
    - intros ([[z i] json] & -> & Hin)%list_elem_of_fmap. simpl.
      pose proof (subseteq_take _ _ _ Hin) as (row & f & _ & _ & -> & Hp)%Hsrt. eauto.
    - intros (f & json & Hin & _). by apply (list_elem_of_fmap_2 (snd ∘ fst)) in Hin. }
  split_and!.
  - rewrite length_take. lia.
  - intros id (f & json & _ & Hp)%Hmem. eauto.
  - intros id f Hp Hni. destruct (Hall id f Hp) as [json Hin].
    rewrite <- (take_drop (N.to_nat rows) srt) in Hin.
    apply elem_of_app in Hin as [Hin|Hin]; [exfalso; apply Hni, Hmem; eauto|]. split.
    + rewrite length_take. assert (N.to_nat rows < length srt)%nat; [|lia].
      apply Nat.nle_gt. intros Hle. by rewrite drop_ge, elem_of_nil in Hin.
    + intros id' f' (f2 & json' & Hin' & Hp2)%Hmem Hp'.
      rewrite (prunable_finish_unique _ _ _ _ _ Hp' Hp2).
      assert (StronglySorted (key_rel rowkey_le fst) srt) as Hs by (apply sort_by_StronglySorted; apply _).
      rewrite <- (take_drop (N.to_nat rows) srt) in Hs.
      apply StronglySorted_app in Hs as (_ & _ & Hle).
      specialize (Hle _ _ Hin' Hin). unfold key_rel, rowkey_le, key_le in *. simpl in *. lia.
Qed.
End sqlite.
