(* ===== verification/SqliteOutbox.v ===== *)
(** * The SQLite task store: events and ownership

    With the outbox enabled every committed version of a task leaves exactly
    one event, and the order in which a publisher reads events is, for each
    task, the order of its versions.  The store object adds the ownership that
    fences writers; [sqlite_step] is everything it can do. *)

From S2P Require Import Prelude TaskState Model MemoryStore MemoryInvariant MemoryPreservation.
From S2P Require Import MemoryHistory MemoryQueries MemorySpec SqliteStore SqliteAdmin.
From S2P Require Import SqliteInvariant SqliteRefinement SqliteQueries SqlitePruning.

Section sqlite.
Context `{ET : !ExternalTypes, SJ : !SnapshotJson, QJ : !SqliteJson, QL : !SqliteJsonLaws}.
Implicit Types (db : SqliteDb) (row : TaskRow) (lc : StoredTypedLifecycle).
Implicit Types (id : TaskId) (r : StoredTaskRequest) (t : TaskSummary).
Implicit Types (o : gmap (TaskId * Z) OutboxRow).

(** ** Recording an event *)

Lemma next_created_at_now now o : (now ≤ next_created_at now o)%Z.
Proof. unfold next_created_at. apply (map_fold_weak_ind (λ acc _, (now ≤ acc)%Z)); [lia|lia]. Qed.

Lemma next_created_at_all now o key ob :
  o !! key = Some ob → (ob_created_at_ms ob ≤ next_created_at now o)%Z.
Proof.
  revert key ob. unfold next_created_at.
  apply (map_fold_weak_ind (λ acc (m : gmap (TaskId * Z) OutboxRow),
    ∀ key ob, m !! key = Some ob → (ob_created_at_ms ob ≤ acc)%Z)).
  - intros key ob Hk. by apply lookup_empty_Some in Hk.
  - intros k x m acc Hk IH key ob. rewrite lookup_insert_Some.
    intros [[_ <-]|[_ Ho]]; [lia|]. specialize (IH _ _ Ho). lia.
Qed.

(** The outbox after a commit: the event of the new version, and nothing else
    changed; without the outbox, unchanged. *)
Definition event_recorded (enabled : bool) (now : N) t o o' : Prop :=
  if enabled then
    ∃ json, event_to_string (from_typed_summary t) = Ok json ∧
      o !! (ts_id t, Z.of_N (ts_state_version t)) = None ∧
      o' = <[(ts_id t, Z.of_N (ts_state_version t)) :=
               {| ob_event_id := event_id t; ob_event_json := json;
                  ob_created_at_ms := next_created_at (Z.of_N now) o |}]> o
  else o' = o.

(** The tables a task write does not touch. *)
Definition same_rest db db' : Prop :=
  db_quarantine db' = db_quarantine db ∧ db_checkpoints db' = db_checkpoints db ∧
  db_owner_epoch db' = db_owner_epoch db.

(** A commit of a new version of a task. *)
Definition committed (enabled : bool) (now : N) t db db' : Prop :=
  event_recorded enabled now t (db_outbox db) (db_outbox db') ∧ same_rest db db'.

Lemma maybe_outbox_recorded enabled now t db db' :
  maybe_outbox enabled now t db = Ok db' → committed enabled now t db db'.
Proof.
  unfold maybe_outbox, committed, event_recorded. destruct enabled; [|by intros [= <-]].
  unfold insert_event_outbox, sqlite_i64_from_u64, i64_or_failure.
  destruct (event_to_string _) as [json|]; simpl; [|done]. destruct (_ <? _); [done|].
  destruct (i64_try_from (ts_state_version t)) as [v|] eqn:Hv; simpl; [|done].
  destruct (i64_try_from now) as [nz|] eqn:Hn; simpl; [|done].
  apply i64_try_from_Some in Hv as [-> _], Hn as [-> _].
  destruct (db_outbox db !! _) eqn:Ho; simpl; [done|]. intros [= <-]. split; [simpl; eauto|done].
Qed.

Lemma update_where_rest id cond set db n db' :
  update_where id cond set db = (n, db') → db_outbox db' = db_outbox db ∧ same_rest db db'.
Proof.
  unfold update_where. destruct (db_tasks db !! id) as [row|]; [|by intros [= <- <-]].
  by destruct (cond row); intros [= <- <-].
Qed.

Lemma update_committed enabled now t id cond set db n db1 db2 :
  update_where id cond set db = (n, db1) → maybe_outbox enabled now t db1 = Ok db2 →
  committed enabled now t db db2.
Proof.
  intros (Ho & Hq & Hc & He)%update_where_rest [Hev (Hq2 & Hc2 & He2)]%maybe_outbox_recorded.
  rewrite Ho in Hev. split; [done|]. split_and!; congruence.
Qed.

Lemma start_recorded enabled now c db t db' :
  sqlite_start enabled now c db = Ok (t, db') →
  committed enabled now t db db'.
Proof.
  unfold sqlite_start. intros H.
  destruct (ok_or NotFound _) as [row|]; [|done].
  destruct (sqlite_u64_from_i64 _ _) as [v|]; [|done]. destruct (_ || _); [done|].
  destruct (from_json (lifecycle_from_str _)) as [lc|]; [|done].
  destruct (ok_or _ (checked_add u64_max _ _)) as [version|]; [|done].
  destruct (ok_or _ (checked_add u32_max _ _)) as [attempt|]; [|done]. cbv zeta in H.
  destruct (from_json (lifecycle_to_string _)) as [j|]; [|done].
  destruct (sqlite_i64_from_u64 version _) as [vz|]; [|done].
  destruct (i64_or_failure _) as [sz|]; [|done].
  destruct (sqlite_i64_from_u64 (sc_expected_state_version c) _) as [ez|]; [|done].
  destruct (update_where _ _ _ _) as [n db1] eqn:Hu. destruct (negb _); [done|].
  destruct (decode_summary _ _ _) as [t'|]; [|done].
  destruct (maybe_outbox _ _ _ _) as [db2|] eqn:Hm; [|done]. injection H as <- <-.
  by eapply update_committed.
Qed.

Lemma transition_recorded enabled now c db t db' :
  sqlite_transition enabled now c db = Ok (t, db') →
  committed enabled now t db db'.
Proof.
  unfold sqlite_transition. intros H. destruct (map_err _ _) as [u|]; [|done].
  destruct (validate_encoded_output _ _) as [u2|]; [|done]. destruct (_ && _); [done|].
  destruct (ok_or NotFound _) as [row|]; [|done].
  destruct (sqlite_u64_from_i64 _ _) as [v|]; [|done].
  destruct (option_traverse _ _) as [retry|]; [|done].
  destruct (from_json (lifecycle_from_str _)) as [lc|]; [|done]. cbv zeta in H.
  destruct (_ || _); [done|]. destruct (_ && _); [done|].
  destruct (ok_or _ (checked_add u64_max _ _)) as [version|]; [|done].
  destruct (from_json (lifecycle_to_string _)) as [j|]; [|done].
  destruct (sqlite_i64_from_u64 version _) as [vz|]; [|done].
  destruct (sqlite_i64_from_u64 v _) as [ez|]; [|done].
  destruct (update_where _ _ _ _) as [n db1] eqn:Hu. destruct (negb _); [done|].
  destruct (decode_summary _ _ _) as [t'|]; [|done].
  destruct (maybe_outbox _ _ _ _) as [db2|] eqn:Hm; [|done]. injection H as <- <-.
  by eapply update_committed.
Qed.

Lemma accept_recorded enabled now event_now id r db out db' :
  sqlite_accept enabled now event_now id r db = Ok (out, db') →
  committed (enabled && ao_created out) event_now (ao_summary out) db db'.
Proof.
  unfold sqlite_accept, accept_row. intros H.
  destruct (from_json (request_info_to_string _)) as [ij|]; [|done].
  destruct (sr_idempotency_key r ≫= _) as [[held row]|].
  - destruct (_ || _); [done|]. destruct (decode_summary _ _ _) as [t|]; [|done].
    injection H as <- <-. simpl. by rewrite andb_false_r.
  - destruct (is_some _); [done|].
    destruct (from_json (lifecycle_to_string _)) as [lj|]; [|done].
    destruct (i64_or_failure now) as [z|]; [|done].
    destruct (decode_summary _ _ _) as [t|]; [|done].
    destruct (maybe_outbox _ _ _ _) as [db2|] eqn:Hm; [|done]. injection H as <- <-. simpl.
    apply maybe_outbox_recorded in Hm. by rewrite andb_true_r.
Qed.

Lemma progress_rest c db t db' :
  sqlite_update_progress c db = Ok (t, db') → db_outbox db' = db_outbox db ∧ same_rest db db'.
Proof.
  unfold sqlite_update_progress. intros H. destruct (map_err _ _) as [p|]; [|done].
  destruct (from_json (progress_to_string p)) as [pj|]; [|done].
  destruct (ok_or NotFound _) as [row|]; [|done]. destruct (_ || _); [done|].
  destruct (if bool_decide _ then _ else _) as [pv|]; [|done]. destruct (_ <=? _); [done|].
  destruct (from_json (lifecycle_from_str _)) as [lc|]; [|done]. cbv zeta in H.
  destruct (from_json (lifecycle_to_string _)) as [j|]; [|done].
  destruct (i64_or_failure _) as [vz|]; [|done].
  destruct (update_where _ _ _ _) as [n db1] eqn:Hu. destruct (negb _); [done|].
  destruct (decode_summary _ _ _) as [t'|]; [|done]. injection H as <- <-.
  by eapply update_where_rest.
Qed.

(** ** Reading order *)

(** For each task the creation times grow with the versions. *)
Definition outbox_ordered o : Prop :=
  ∀ id v1 v2 ob1 ob2, o !! (id, v1) = Some ob1 → o !! (id, v2) = Some ob2 → (v1 < v2)%Z →
    (ob_created_at_ms ob1 ≤ ob_created_at_ms ob2)%Z.

Lemma outbox_ordered_recorded enabled now t db o' :
  db_wf db → outbox_ordered (db_outbox db) →
  (∀ row, db_tasks db !! ts_id t = Some row →
     (row_state_version row < Z.of_N (ts_state_version t))%Z) →
  event_recorded enabled now t (db_outbox db) o' → outbox_ordered o'.
Proof.
  intros Hwf Hord Hnew. unfold event_recorded. destruct enabled; [|by intros ->].
  intros (json & _ & _ & ->) id v1 v2 ob1 ob2. rewrite !lookup_insert_Some.
  intros [[[= <- <-] <-]|[Hn1 H1]] [[Heq2 <-]|[Hn2 H2]] Hlt.
  - injection Heq2 as <-. lia.
  - destruct (dbw_outbox db Hwf _ _ _ H2) as (row & Hrow & Hv). specialize (Hnew row Hrow). lia.
  - simpl. by eapply next_created_at_all.
  - by eapply Hord.
Qed.

Lemma outbox_ordered_delete key o : outbox_ordered o → outbox_ordered (delete key o).
Proof.
  intros Hord id v1 v2 ob1 ob2 [_ H1]%lookup_delete_Some [_ H2]%lookup_delete_Some. by eapply Hord.
Qed.

#[global] Instance outbox_le_trans : Transitive outbox_le.
Proof. unfold outbox_le. intros a b c ? ?. lia. Qed.
#[global] Instance outbox_le_total : Total outbox_le.
Proof. unfold outbox_le. intros a b. lia. Qed.

Lemma elem_of_sorted_outbox db key ob :
  (key, ob) ∈ sorted_outbox db ↔ db_outbox db !! key = Some ob.
Proof. unfold sorted_outbox. by rewrite sort_by_Permutation, elem_of_map_to_list. Qed.

Lemma sorted_outbox_sorted db :
  StronglySorted (key_rel outbox_le outbox_key) (sorted_outbox db).
Proof. apply sort_by_StronglySorted; apply _. Qed.

Lemma sorted_outbox_keys db : NoDup (sorted_outbox db).*1.
Proof. unfold sorted_outbox. rewrite sort_by_Permutation. apply NoDup_fst_map_to_list. Qed.

(** Positions in the reading order follow the versions of a task. *)
Lemma sorted_outbox_versions db i j id v1 v2 ob1 ob2 :
  outbox_ordered (db_outbox db) →
  sorted_outbox db !! i = Some ((id, v1), ob1) → sorted_outbox db !! j = Some ((id, v2), ob2) →
  (i < j)%nat → (v1 < v2)%Z.
Proof.
  intros Hord Hi Hj Hij.
  pose proof (list_elem_of_lookup_2 _ _ _ Hi) as H1%elem_of_sorted_outbox.
  pose proof (list_elem_of_lookup_2 _ _ _ Hj) as H2%elem_of_sorted_outbox.
  pose proof (sorted_outbox_sorted db) as Hs.
  rewrite <- (take_drop (S i) (sorted_outbox db)) in Hs.
  apply StronglySorted_app in Hs as (_ & _ & Hle).
  assert (key_rel outbox_le outbox_key ((id, v1), ob1) ((id, v2), ob2)) as Hk.
  { apply Hle.
    - apply (list_elem_of_lookup_2 _ i). by rewrite lookup_take_lt by lia.
    - apply (list_elem_of_lookup_2 _ (j - S i)). rewrite lookup_drop. by rewrite <- Hj; f_equal; lia. }
  assert (v1 ≠ v2) as Hne.
  { intros ->. pose proof (sorted_outbox_keys db) as Hnd.
    assert (i = j); [|lia]. eapply NoDup_lookup; [done|..]; by rewrite list_lookup_fmap, ?Hi, ?Hj. }
  destruct (decide (v1 < v2)%Z) as [|Hge]; [done|].
  assert ((ob_created_at_ms ob2 ≤ ob_created_at_ms ob1)%Z) by (eapply Hord; [done..|lia]).
  unfold key_rel, outbox_le, outbox_key in Hk. simpl in Hk. lia.
Qed.

(** ** Pages of the outbox *)

Definition row_entry (x : (TaskId * Z) * OutboxRow) : EventOutboxEntry :=
  {| oe_task_id := x.1.1; oe_state_version := Z.to_N x.1.2;
     oe_event_id := ob_event_id x.2; oe_event_json := ob_event_json x.2 |}.
Definition entry_key (entry : EventOutboxEntry) : TaskId * Z :=
  (oe_task_id entry, Z.of_N (oe_state_version entry)).

Lemma row_entry_key db x : db_wf db → x ∈ sorted_outbox db → entry_key (row_entry x) = x.1.
Proof.
  intros Hwf Hx. destruct x as [[id v] ob]. apply elem_of_sorted_outbox in Hx.
  destruct (dbw_outbox db Hwf _ _ _ Hx) as (row & _ & Hv & _). unfold entry_key. simpl.
  f_equal. lia.
Qed.

Lemma list_outbox_exact limit db :
  db_wf db → 1 ≤ limit ≤ 256 →
  list_outbox limit db = Ok (row_entry <$> take (N.to_nat limit) (sorted_outbox db)).
Proof.
  intros Hwf [H1 H2]. unfold list_outbox. destruct (negb _) eqn:Hg; [bool_prop; lia|].
  apply result_mapM_Forall2, Forall2_fmap_r, Forall_Forall2_diag, Forall_forall.
  intros [[id v] ob] Hx%subseteq_take. apply elem_of_sorted_outbox in Hx.
  destruct (dbw_outbox db Hwf _ _ _ Hx) as (row & _ & Hv & _).
  unfold outbox_entry, sqlite_u64_from_i64. simpl.
  replace v with (Z.of_N (Z.to_N v)) at 1 by lia. by rewrite u64_of_i64.
Qed.

(** The entry at a position of a page is the row at that position. *)
Lemma page_lookup n db j entry :
  db_wf db → (row_entry <$> take n (sorted_outbox db)) !! j = Some entry →
  (j < n)%nat ∧ ∃ ob, sorted_outbox db !! j = Some (entry_key entry, ob) ∧
    entry = row_entry (entry_key entry, ob).
Proof.
  intros Hwf. rewrite list_lookup_fmap. intros ([key ob] & Hj & ->)%fmap_Some.
  apply lookup_take_Some in Hj as [Hj Hlt]. split; [done|]. exists ob.
  rewrite (row_entry_key db (key, ob) Hwf); [done|]. by eapply list_elem_of_lookup_2.
Qed.

(** A page lists the older pending events of a task first. *)
Lemma page_older n db j entry v :
  db_wf db → outbox_ordered (db_outbox db) →
  (row_entry <$> take n (sorted_outbox db)) !! j = Some entry →
  (v < Z.of_N (oe_state_version entry))%Z → is_Some (db_outbox db !! (oe_task_id entry, v)) →
  ∃ i e, (i < j)%nat ∧ (row_entry <$> take n (sorted_outbox db)) !! i = Some e ∧
    entry_key e = (oe_task_id entry, v).
Proof.
  intros Hwf Hord (Hj & ob & Hb & _)%page_lookup Hv [ob1 H1]; [|done].
  apply elem_of_sorted_outbox, list_elem_of_lookup in H1 as [i Hi].
  assert (i < j)%nat as Hij.
  { destruct (Nat.lt_trichotomy i j) as [|[->|Hgt]]; [done|..].
    - rewrite Hi in Hb. injection Hb as Hb _. lia.
    - pose proof (sorted_outbox_versions db j i _ _ _ _ _ Hord Hb Hi Hgt). lia. }
  exists i. eexists. split; [done|]. rewrite list_lookup_fmap, lookup_take_lt, Hi by lia.
  split; [done|]. apply (row_entry_key db (_, ob1)); [done|]. by eapply list_elem_of_lookup_2.
Qed.

Lemma page_keys n db :
  db_wf db → NoDup (entry_key <$> (row_entry <$> take n (sorted_outbox db))).
Proof.
  intros Hwf. rewrite <- list_fmap_compose.
  assert (entry_key ∘ row_entry <$> take n (sorted_outbox db) = (take n (sorted_outbox db)).*1) as ->.
  { apply list_fmap_ext. intros i x Hx%list_elem_of_lookup_2%subseteq_take. by apply (row_entry_key db). }
  eapply sublist_NoDup; [apply (sorted_outbox_keys db)|]. apply fmap_sublist, sublist_take.
Qed.
End sqlite.
