(* ===== verification/SqliteHistory.v ===== *)
(** * The SQLite task store: histories

    [sqlite_step] is one call on an open store, or the process ending and the
    database being opened again.  Along every history the rows stay coherent,
    events stay in order, only the owner writes, and every task follows the
    same lifecycle as in the in-memory store; what pruning removes leaves its
    checkpoint. *)

From S2P Require Import Prelude TaskState Model MemoryStore MemoryInvariant MemoryPreservation.
From S2P Require Import MemoryHistory MemoryQueries MemorySpec SqliteStore SqliteAdmin.
From S2P Require Import SqliteInvariant SqliteRefinement SqliteQueries SqlitePruning SqliteOutbox.

Section sqlite.
Context `{ET : !ExternalTypes, SJ : !SnapshotJson, QJ : !SqliteJson, QL : !SqliteJsonLaws}.
Implicit Types (db : SqliteDb) (row : TaskRow) (lc : StoredTypedLifecycle).
Implicit Types (id : TaskId) (r : StoredTaskRequest) (t : TaskSummary).
Implicit Types (s : SqliteTaskStore).

Inductive sqlite_step : relation SqliteTaskStore :=
| sq_step_accept now event_now id r s : sqlite_step s (store_accept now event_now id r s).2
| sq_step_start event_now c s : sqlite_step s (store_start event_now c s).2
| sq_step_transition event_now c s : sqlite_step s (store_transition event_now c s).2
| sq_step_progress c s : sqlite_step s (store_progress c s).2
| sq_step_prune before rows s : sqlite_step s (store_prune before rows s).2
| sq_step_enable s : sqlite_step s (enable_outbox s).2
| sq_step_mark id version s : sqlite_step s (run_outbox (mark_outbox_published id version) s).2
| sq_step_quarantine now id version event reason last_error s :
    sqlite_step s (run_outbox (quarantine_outbox_head now id version event reason last_error) s).2
| sq_step_acquire lock s : sqlite_step s (store_acquire_owner lock s).2
| sq_step_release unlock epoch s : sqlite_step s (store_release_owner unlock epoch s).2
| sq_step_reopen s : sqlite_step s (sqlite_open (ss_db s)).

(** ** Pruning, whatever the finish times *)

Lemma prune_one_tasks x db db' :
  prune_one x db = Ok db' →
  db_tasks db' = delete x.1.2 (db_tasks db) ∧ db_outbox db' = db_outbox db ∧
  db_owner_epoch db' = db_owner_epoch db.
Proof.
  destruct x as [[z id] json]. unfold prune_one. intros H.
  destruct (from_json (value_from_str json)) as [v|]; [|done].
  destruct (ok_or _ (value_get "state" v)) as [sv|]; [|done].
  destruct (from_json (state_from_value sv)) as [st|]; [|done]. destruct (negb _); [done|].
  destruct (from_json (state_to_string st)) as [sj|]; [|done].
  destruct (ok_or _ (value_get "state_version" v ≫= _)) as [ver|]; [|done].
  destruct (_ || _); [done|]. destruct (is_none _); [done|]. by injection H as <-.
Qed.

Lemma prune_rows_tasks rows db db' :
  prune_terminal_rows rows db = Ok db' →
  (∀ id, db_tasks db' !! id =
     if decide (id ∈ (snd ∘ fst <$> rows)) then None else db_tasks db !! id) ∧
  db_outbox db' = db_outbox db ∧ db_owner_epoch db' = db_owner_epoch db.
Proof.
  revert db. induction rows as [|x rows IH]; intros db H; simpl in H; [by simplify_eq|].
  destruct (prune_one x db) as [db1|] eqn:Hone; [|done].
  apply prune_one_tasks in Hone as (Ht & Ho & He). destruct (IH _ H) as (IHt & IHo & IHe).
  split_and!; [|congruence..]. intros id. rewrite IHt, Ht, fmap_cons. simpl.
  destruct (decide (id = x.1.2)) as [->|Hne].
  - rewrite lookup_delete_eq. repeat case_decide; set_solver.
  - rewrite lookup_delete_ne by done. repeat case_decide; set_solver.
Qed.

Lemma prune_rows_outbox before max_rows db id :
  id ∈ (snd ∘ fst <$> prune_rows before max_rows db) →
  (∃ row, db_tasks db !! id = Some row ∧ row_state_kind row ∈ terminal_kinds) ∧
  ∀ v, db_outbox db !! (id, v) = None.
Proof.
  intros ([[z i] json] & -> & Hin)%list_elem_of_fmap. simpl.
  apply subseteq_take in Hin. rewrite sort_by_Permutation in Hin.
  apply list_elem_of_omap in Hin as ([i' row] & Hid & Hp). apply elem_of_map_to_list in Hid.
  unfold prune_row in Hp. apply bind_Some in Hp as (f & _ & Hp).
  destruct (_ && _) eqn:Hg; [|done]. injection Hp as <- <- <-.
  apply andb_true_iff in Hg as [[Hk _]%andb_true_iff Hn]. apply bool_decide_eq_true in Hk.
  split; [by exists row|]. intros v. apply eq_None_not_Some. intros Hs.
  apply negb_true_iff in Hn. apply not_true_iff_false in Hn. apply Hn.
  apply has_outbox_rows_true. eauto.
Qed.

Lemma sqlite_prune_wf before max_rows db n db' :
  db_wf db → sqlite_prune before max_rows db = Ok (n, db') → db_wf db'.
Proof.
  intros Hwf. unfold sqlite_prune. destruct (prune_terminal_rows _ _) as [db1|] eqn:Hp; [|done].
  intros [= _ <-].
  pose proof (prune_terminal_rows_spec _ _ (prune_rows_finished before max_rows db Hwf)) as Hs.
  rewrite Hp in Hs. eapply pruned_wf; [done|exact Hs|].
  intros id v Hin. by apply prune_rows_outbox in Hin as [_ Hn].
Qed.

(** ** The invariant *)

Record store_inv s : Prop := {
  si_db : db_wf (ss_db s);
  si_order : outbox_ordered (db_outbox (ss_db s));
  si_epoch : ∀ e, ss_epoch s = Some e →
    ss_lock_file s = true ∧ db_owner_epoch (ss_db s) = Some (Z.of_N e);
  si_outbox : ss_outbox_enabled s = true → is_Some (ss_epoch s);
}.

(** A write that keeps the database invariant and the stored epoch. *)
Lemma transact_inv {A} (op : SqliteDb → result (A * SqliteDb) StoreError) s :
  (∀ a db', op (ss_db s) = Ok (a, db') →
     db_wf db' ∧ outbox_ordered (db_outbox db') ∧ db_owner_epoch db' = db_owner_epoch (ss_db s)) →
  store_inv s → store_inv (transact op s).2.
Proof.
  intros Hop Hinv. unfold transact. destruct (op (ss_db s)) as [[a db']|]; [|done].
  destruct (Hop a db' eq_refl) as (Hwf & Hord & He), Hinv as [_ _ I3 I4]. simpl.
  split; simpl; [done..| |done]. by rewrite He.
Qed.

Lemma run_write_inv {A} (op : SqliteDb → result (A * SqliteDb) StoreError) s :
  (∀ a db', op (ss_db s) = Ok (a, db') →
     db_wf db' ∧ outbox_ordered (db_outbox db') ∧ db_owner_epoch db' = db_owner_epoch (ss_db s)) →
  store_inv s → store_inv (run_write op s).2.
Proof. intros. unfold run_write. destruct (negb _); [done|]. by apply transact_inv. Qed.

Lemma run_outbox_inv {A} (op : SqliteDb → result (A * SqliteDb) StoreError) s :
  (∀ a db', op (ss_db s) = Ok (a, db') →
     db_wf db' ∧ outbox_ordered (db_outbox db') ∧ db_owner_epoch db' = db_owner_epoch (ss_db s)) →
  store_inv s → store_inv (run_outbox op s).2.
Proof. intros. unfold run_outbox. destruct (_ || _); [done|]. by apply transact_inv. Qed.

(** ** Commits *)

(** A write of one task: the view gets the new summary under the old request,
    which follows from the old summary by one step of the lifecycle. *)
Record task_commit id t db db' : Prop := {
  tm_wf : db_wf db';
  tm_old : ∃ task, view db !! id = Some task ∧ task_evolves (st_summary task) t ∧
    view db' = <[id := {| st_request := st_request task; st_summary := t |}]> (view db);
}.

Lemma view_lifecycle db id task :
  db_wf db → view db !! id = Some task →
  task_wf id task ∧ ts_state_version (st_summary task) ≤ i64_max.
Proof.
  intros Hwf (row & r & lc & _ & Hw & ->)%view_Some; [|done]. split.
  - split; [done|by split|apply Hw].
  - simpl. by eapply row_version_bound.
Qed.

Lemma start_commit enabled now c db t db' :
  db_wf db → sqlite_start enabled now c db = Ok (t, db') →
  task_commit (sc_id c) t db db' ∧
  ∃ task, view db !! sc_id c = Some task ∧
    ts_state_version t = ts_state_version (st_summary task) + 1 ∧ ts_id t = sc_id c.
Proof.
  intros Hwf Hs. pose proof (sqlite_start_sound enabled now c db Hwf) as Hsound.
  rewrite Hs in Hsound. destruct Hsound as [Hwf' Hspec]. unfold spec_start in Hspec.
  simpl in Hspec. destruct (view db !! sc_id c) as [task|] eqn:Hid; [|done].
  case_decide as Hg; [|done]. destruct Hg as [Hv Hq].
  injection Hspec as Ht Habs.
  destruct (view_lifecycle _ _ _ Hwf Hid) as [Htw _].
  assert (view db' !! sc_id c = Some {| st_request := st_request task; st_summary := t |}) as Hid'.
  { rewrite <- Habs, Ht. apply lookup_insert_eq. }
  destruct (view_lifecycle _ _ _ Hwf' Hid') as [[_ _ [L1 L2 _ _ _ _ _]] _]. simpl in L1, L2.
  subst t. split; [split; [done|]|]; exists task.
  - split_and!; [done| |by rewrite <- Habs]. by eapply evolves_start.
  - split_and!; [done..|]. apply (twf_id _ _ Htw).
Qed.

Lemma transition_commit enabled now c db t db' :
  db_wf db → sqlite_transition enabled now c db = Ok (t, db') →
  task_commit (tc_id c) t db db' ∧
  ∃ task, view db !! tc_id c = Some task ∧
    ts_state_version t = ts_state_version (st_summary task) + 1 ∧ ts_id t = tc_id c.
Proof.
  intros Hwf Hs. pose proof (sqlite_transition_sound enabled now c db Hwf) as Hsound.
  rewrite Hs in Hsound. destruct Hsound as [Hwf' Hspec]. unfold spec_transition_keep in Hspec.
  destruct (validate_diagnostics _) as [[]|] eqn:Hd; [|done]. simpl in Hspec.
  destruct (validate_encoded_output _ _) as [[]|] eqn:Hvo; [|done].
  destruct (view db !! tc_id c) as [task|] eqn:Hid; [|done].
  unfold spec_transition_summary in Hspec.
  destruct (transition_conflicts _ _) eqn:Hc; [done|].
  destruct (is_some (tc_output c) && _) eqn:Ho; [done|].
  destruct (is_some (tc_retry_not_before_ms c) && _) eqn:Hr; [done|].
  injection Hspec as Ht Habs.
  destruct (view_lifecycle _ _ _ Hwf Hid) as [Htw Hb].
  assert (i64_max < u64_max) by done. subst t. split; [split; [done|]|]; exists task.
  - split_and!; [done| |by rewrite <- Habs].
    eapply (evolves_transition _ _ c); [by apply transition_allowed_intro|lia|done].
  - split_and!; [done..|]. apply (twf_id _ _ Htw).
Qed.

Lemma progress_commit c db t db' :
  db_wf db → sqlite_update_progress c db = Ok (t, db') → task_commit (pc_id c) t db db'.
Proof.
  intros Hwf Hs. pose proof (sqlite_progress_sound c db Hwf) as Hsound.
  rewrite Hs in Hsound. destruct Hsound as [Hwf' Hspec]. unfold spec_progress in Hspec.
  destruct (from_command _ c) as [p|] eqn:Hp; [|done]. simpl in Hspec.
  destruct (view db !! pc_id c) as [task|] eqn:Hid; [|done].
  case_decide as Hg; [|done]. destruct Hg as (Hrun & Ha & Hlt).
  injection Hspec as Ht Habs.
  apply from_command_attempt in Hp as [Hp1 Hp2].
  subst t. split; [done|]. exists task. split_and!; [done| |by rewrite <- Habs].
  eapply (evolves_progress _ _ p); [done|congruence| |done].
  intros q Hq. rewrite is_none_or_true in Hlt. specialize (Hlt q Hq). bool_prop. lia.
Qed.

(** The version a commit stores is newer than the row's. *)
Lemma commit_newer db id t :
  db_wf db → ts_id t = id →
  (∀ task, view db !! id = Some task →
     ts_state_version (st_summary task) < ts_state_version t) →
  ∀ row, db_tasks db !! ts_id t = Some row →
    (row_state_version row < Z.of_N (ts_state_version t))%Z.
Proof.
  intros Hwf <- Hnew row Hid. destruct (dbw_row db Hwf _ _ Hid) as (r & lc & Hw).
  rewrite (row_version_Z _ _ _ _ Hw).
  specialize (Hnew _ (view_lookup _ _ _ _ _ Hid Hw)). simpl in Hnew. lia.
Qed.

Lemma committed_inv enabled now t db db' :
  db_wf db → outbox_ordered (db_outbox db) → committed enabled now t db db' →
  (∀ task, view db !! ts_id t = Some task →
     ts_state_version (st_summary task) < ts_state_version t) →
  outbox_ordered (db_outbox db') ∧ db_owner_epoch db' = db_owner_epoch db.
Proof.
  intros Hwf Hord [Hev (_ & _ & He)] Hnew. split; [|done].
  eapply outbox_ordered_recorded; [done|done| |done]. by eapply commit_newer.
Qed.

(** ** Every step keeps the invariant *)

Lemma accept_inv now event_now id r s :
  store_inv s → store_inv (store_accept now event_now id r s).2.
Proof.
  intros Hinv. apply run_write_inv; [|done]. intros out db' Hs.
  pose proof (accept_recorded _ _ _ _ _ _ _ _ Hs) as Hc.
  pose proof (sqlite_accept_sound (ss_outbox_enabled s) now event_now id r (ss_db s)
    (si_db s Hinv)) as Hsound. rewrite Hs in Hsound. destruct Hsound as [Hwf Hout].
  split; [done|]. destruct (ao_created out).
  - destruct Hout as (Hsum & Hnone & _). eapply committed_inv; [apply Hinv..|done|].
    intros task. rewrite Hsum. simpl. congruence.
  - destruct Hout as (-> & _). split; [apply Hinv|done].
Qed.

Lemma start_inv now c s : store_inv s → store_inv (store_start now c s).2.
Proof.
  intros Hinv. apply run_write_inv; [|done]. intros t db' Hs.
  pose proof (start_recorded _ _ _ _ _ _ Hs) as Hc.
  destruct (start_commit _ _ _ _ _ _ (si_db s Hinv) Hs) as ([Hwf _] & task & Hid & Hv & Ht).
  split; [done|]. eapply committed_inv; [apply Hinv..|done|]. rewrite Ht.
  intros task' Hid'. simplify_eq. lia.
Qed.

Lemma transition_inv now c s : store_inv s → store_inv (store_transition now c s).2.
Proof.
  intros Hinv. apply run_write_inv; [|done]. intros t db' Hs.
  pose proof (transition_recorded _ _ _ _ _ _ Hs) as Hc.
  destruct (transition_commit _ _ _ _ _ _ (si_db s Hinv) Hs) as ([Hwf _] & task & Hid & Hv & Ht).
  split; [done|]. eapply committed_inv; [apply Hinv..|done|]. rewrite Ht.
  intros task' Hid'. simplify_eq. lia.
Qed.

Lemma progress_inv c s : store_inv s → store_inv (store_progress c s).2.
Proof.
  intros Hinv. apply run_write_inv; [|done]. intros t db' Hs.
  destruct (progress_commit _ _ _ _ (si_db s Hinv) Hs) as [Hwf _].
  apply progress_rest in Hs as [Ho (_ & _ & He)]. rewrite Ho.
  split_and!; [done|apply Hinv|done].
Qed.

Lemma prune_inv before rows s : store_inv s → store_inv (store_prune before rows s).2.
Proof.
  intros Hinv. unfold store_prune. destruct (i64_try_from before) as [b|]; [|done].
  destruct (i64_try_from rows) as [n|]; [|done]. apply run_write_inv; [|done].
  intros k db' Hs. pose proof (sqlite_prune_wf _ _ _ _ _ (si_db s Hinv) Hs) as Hwf.
  unfold sqlite_prune in Hs. destruct (prune_terminal_rows _ _) as [db1|] eqn:Hp; [|done].
  injection Hs as _ <-. apply prune_rows_tasks in Hp as (_ & Ho & He). rewrite Ho.
  split_and!; [done|apply Hinv|done].
Qed.

(** Removing an event keeps the database coherent. *)
Lemma delete_event_wf key db q :
  db_wf db →
  db_wf {| db_tasks := db_tasks db; db_outbox := delete key (db_outbox db);
           db_quarantine := q; db_checkpoints := db_checkpoints db;
           db_owner_epoch := db_owner_epoch db |}.
Proof.
  intros [H1 H2 H3 H4]. split; [done..| |done]. simpl.
  intros id v ob [_ Hob]%lookup_delete_Some. by eapply H3.
Qed.

Lemma mark_inv id version s :
  store_inv s → store_inv (run_outbox (mark_outbox_published id version) s).2.
Proof.
  intros Hinv. apply run_outbox_inv; [|done]. intros u db' Hs. unfold mark_outbox_published in Hs.
  destruct (sqlite_i64_from_u64 _ _) as [v|]; [|done]. injection Hs as _ <-. simpl.
  split_and!; [|by apply outbox_ordered_delete, Hinv|done].
  apply (delete_event_wf _ _ (db_quarantine (ss_db s))), Hinv.
Qed.

Lemma quarantine_inv now id version event reason last_error s :
  store_inv s →
  store_inv (run_outbox (quarantine_outbox_head now id version event reason last_error) s).2.
Proof.
  intros Hinv. apply run_outbox_inv; [|done]. intros u db' Hs. unfold quarantine_outbox_head in Hs.
  destruct (_ || _); [done|]. destruct (ok_or _ _) as [[key ob]|]; [|done].
  destruct (sqlite_u64_from_i64 _ _) as [v|]; [|done]. destruct (_ || _); [done|].
  destruct (i64_or_failure now) as [z|]; [|done]. destruct (is_some _); [done|].
  injection Hs as _ <-. simpl.
  split_and!; [|by apply outbox_ordered_delete, Hinv|done]. apply delete_event_wf, Hinv.
Qed.

Lemma read_epoch_Ok value e : read_epoch value = Ok e ↔ value = Z.of_N e ∧ e ≤ i64_max.
Proof.
  unfold read_epoch, sqlite_u64_from_i64. destruct (_ <? value)%Z eqn:Hb.
  - apply Z.ltb_lt in Hb. split; [done|]. intros [-> ?]. lia.
  - apply Z.ltb_ge in Hb. destruct (u64_try_from value) as [n|] eqn:Hu; simpl.
    + apply u64_try_from_Some in Hu as ->. split; [intros [= <-]; split; [done|lia]|].
      intros [?%N2Z.inj _]. by subst.
    + split; [done|]. intros [-> _]. by rewrite u64_of_i64 in Hu.
Qed.

Lemma db_epoch_wf db epoch :
  db_wf db →
  db_wf {| db_tasks := db_tasks db; db_outbox := db_outbox db; db_quarantine := db_quarantine db;
           db_checkpoints := db_checkpoints db; db_owner_epoch := epoch |}.
Proof. by intros [H1 H2 H3]. Qed.

Lemma acquire_inv lock s : store_inv s → store_inv (store_acquire_owner lock s).2.
Proof.
  intros Hinv. unfold store_acquire_owner. destruct (ss_epoch s) as [e|] eqn:He; [done|]. simpl.
  destruct (if ss_lock_file s then Ok tt else lock); [|done].
  destruct (read_epoch _) as [e|] eqn:Hr; simpl; (split; simpl; [apply db_epoch_wf, Hinv|apply Hinv|..]).
  - apply read_epoch_Ok in Hr as [-> _]. by intros e' [= <-].
  - eauto.
  - done.
  - intros Hout. pose proof (si_outbox s Hinv Hout) as Hs. by rewrite He in Hs.
Qed.

Lemma release_inv unlock epoch s : store_inv s → store_inv (store_release_owner unlock epoch s).2.
Proof.
  intros Hinv. unfold store_release_owner. destruct (negb _); [done|].
  destruct (negb _); [done|]. by split; simpl; [apply Hinv|apply Hinv|..].
Qed.

Lemma enable_inv s : store_inv s → store_inv (enable_outbox s).2.
Proof.
  intros Hinv. unfold enable_outbox. destruct (_ || _) eqn:Hg; [done|]. bool_prop.
  split; simpl; [apply Hinv..|]. by destruct Hg as [Hs _].
Qed.

Lemma sqlite_step_inv s s' : store_inv s → sqlite_step s s' → store_inv s'.
Proof.
  intros Hinv Hstep. destruct Hstep.
  - by apply accept_inv.
  - by apply start_inv.
  - by apply transition_inv.
  - by apply progress_inv.
  - by apply prune_inv.
  - by apply enable_inv.
  - by apply mark_inv.
  - by apply quarantine_inv.
  - by apply acquire_inv.
  - by apply release_inv.
  - split; simpl; [apply Hinv|apply Hinv|done|done].
Qed.

(** A store opened on a new database and used by any sequence of calls. *)
Definition sqlite_reachable s : Prop := rtc sqlite_step (sqlite_open db_new) s.

Lemma sqlite_reachable_inv s : sqlite_reachable s → store_inv s.
Proof.
  intros Hr. assert (store_inv (sqlite_open db_new)) as Hinv.
  { split; simpl; [apply db_new_wf| |done|done].
    intros id v1 v2 ob1 ob2 H. by apply lookup_empty_Some in H. }
  unfold sqlite_reachable in Hr. revert Hinv.
  induction Hr as [|x y z Hstep _ IH]; [done|]. intros Hinv. by apply IH, (sqlite_step_inv x).
Qed.

(** ** One task along a history *)

(** What a step leaves of a task: the task itself, one lifecycle step further
    at most, or, for a finished task, its checkpoint. *)
Definition row_kept id (task : StoredTask) db db' : Prop :=
  match view db' !! id with
  | Some task' => st_request task' = st_request task ∧
                  task_evolves (st_summary task) (st_summary task')
  | None => task_terminal task = true ∧
            sqlite_get_state_checkpoint id db' = sqlite_get_state_checkpoint id db
  end.

Lemma row_kept_same id task db db' :
  view db' !! id = Some task → row_kept id task db db'.
Proof. intros Hid. unfold row_kept. rewrite Hid. split; [done|by apply evolves_same]. Qed.

Lemma commit_kept id0 t id task db db' :
  task_commit id0 t db db' → view db !! id = Some task → row_kept id task db db'.
Proof.
  intros [_ (task0 & H0 & He & Hv)] Hid. unfold row_kept. rewrite Hv, lookup_insert.
  case_decide; [subst; by simplify_eq|]. rewrite Hid. split; [done|by apply evolves_same].
Qed.

Lemma prune_kept_row before max_rows id task db n db' :
  db_wf db → sqlite_prune before max_rows db = Ok (n, db') → view db !! id = Some task →
  row_kept id task db db'.
Proof.
  intros Hwf. unfold sqlite_prune. destruct (prune_terminal_rows _ _) as [db1|] eqn:Hp; [|done].
  intros [= _ <-] Hid.
  pose proof (prune_terminal_rows_spec _ _ (prune_rows_finished before max_rows db Hwf)) as Hs.
  rewrite Hp in Hs. pose proof (pruned_view _ _ _ Hs id) as Hv. unfold row_kept. rewrite Hv.
  case_decide as Hin; [|rewrite Hid; split; [done|by apply evolves_same]].
  split; [|apply (pr_answers _ _ _ Hs)].
  apply prune_rows_outbox in Hin as [(row & Hrow & Hk) _].
  destruct (dbw_row db Hwf _ _ Hrow) as (r & lc & Hw).
  rewrite (view_lookup _ _ _ _ _ Hrow Hw) in Hid. injection Hid as <-.
  rewrite (rw_kind _ _ _ _ Hw) in Hk. by apply terminal_kinds_spec in Hk.
Qed.

Lemma transact_kept {A} (op : SqliteDb → result (A * SqliteDb) StoreError) s id task :
  (∀ a db', op (ss_db s) = Ok (a, db') → row_kept id task (ss_db s) db') →
  view (ss_db s) !! id = Some task → row_kept id task (ss_db s) (ss_db (transact op s).2).
Proof.
  intros Hop Hid. unfold transact. destruct (op (ss_db s)) as [[a db']|]; [by eapply Hop|].
  by apply row_kept_same.
Qed.

Lemma run_write_kept {A} (op : SqliteDb → result (A * SqliteDb) StoreError) s id task :
  (∀ a db', op (ss_db s) = Ok (a, db') → row_kept id task (ss_db s) db') →
  view (ss_db s) !! id = Some task → row_kept id task (ss_db s) (ss_db (run_write op s).2).
Proof.
  intros Hop Hid. unfold run_write. destruct (negb _); [by apply row_kept_same|].
  by apply transact_kept.
Qed.

Lemma run_outbox_kept {A} (op : SqliteDb → result (A * SqliteDb) StoreError) s id task :
  (∀ a db', op (ss_db s) = Ok (a, db') → db_tasks db' = db_tasks (ss_db s)) →
  view (ss_db s) !! id = Some task → row_kept id task (ss_db s) (ss_db (run_outbox op s).2).
Proof.
  intros Hop Hid. unfold run_outbox. destruct (_ || _); [by apply row_kept_same|].
  apply transact_kept; [|done]. intros a db' Ha. apply row_kept_same. unfold view.
  by rewrite (Hop _ _ Ha).
Qed.

Lemma sqlite_step_kept s s' id task :
  store_inv s → sqlite_step s s' → view (ss_db s) !! id = Some task →
  row_kept id task (ss_db s) (ss_db s').
Proof.
  intros Hinv Hstep Hid. pose proof (si_db s Hinv) as Hwf. destruct Hstep.
  - apply run_write_kept; [|done]. intros out db' Hs.
    pose proof (sqlite_accept_sound (ss_outbox_enabled s) now event_now id0 r (ss_db s) Hwf) as Ha.
    rewrite Hs in Ha. destruct Ha as [_ Ha]. apply row_kept_same. destruct (ao_created out).
    + destruct Ha as (_ & Hnone & _ & ->). rewrite lookup_insert_ne; [done|]. congruence.
    + by destruct Ha as [-> _].
  - apply run_write_kept; [|done]. intros t db' Hs. eapply commit_kept; [|done].
    by eapply start_commit.
  - apply run_write_kept; [|done]. intros t db' Hs. eapply commit_kept; [|done].
    by eapply transition_commit.
  - apply run_write_kept; [|done]. intros t db' Hs. eapply commit_kept; [|done].
    by eapply progress_commit.
  - unfold store_prune. destruct (i64_try_from before) as [b|]; [|by apply row_kept_same].
    destruct (i64_try_from rows) as [n|]; [|by apply row_kept_same].
    apply run_write_kept; [|done]. intros k db' Hs. by eapply prune_kept_row.
  - apply row_kept_same. unfold enable_outbox. by destruct (_ || _).
  - apply run_outbox_kept; [|done]. intros u db' Hs. unfold mark_outbox_published in Hs.
    destruct (sqlite_i64_from_u64 _ _); [|done]. by injection Hs as _ <-.
  - apply run_outbox_kept; [|done]. intros u db' Hs. unfold quarantine_outbox_head in Hs.
    destruct (_ || _); [done|]. destruct (ok_or _ _) as [[key ob]|]; [|done].
    destruct (sqlite_u64_from_i64 _ _) as [v|]; [|done]. destruct (_ || _); [done|].
    destruct (i64_or_failure now) as [z|]; [|done]. destruct (is_some _); [done|].
    by injection Hs as _ <-.
  - apply row_kept_same. unfold store_acquire_owner. destruct (is_some _); [done|].
    destruct (if ss_lock_file s then Ok tt else lock); [|done]. by destruct (read_epoch _).
  - apply row_kept_same. unfold store_release_owner. destruct (negb _); [done|].
    by destruct (negb _).
  - by apply row_kept_same.
Qed.

(** A step at whose end the task [id] is still stored. *)
Definition sq_retaining_step id : relation SqliteTaskStore :=
  λ s s', sqlite_step s s' ∧ is_Some (view (ss_db s') !! id).

Lemma sqlite_retaining_advances id s s' task task' :
  store_inv s → rtc (sq_retaining_step id) s s' →
  view (ss_db s) !! id = Some task → view (ss_db s') !! id = Some task' →
  task_advances task task'.
Proof.
  intros Hinv Hr. revert Hinv task. induction Hr as [x|x y z [Hstep [task1 Hid1]] _ IH];
    intros Hinv task Hid Hid'.
  { simplify_eq. reflexivity. }
  pose proof (sqlite_step_kept _ _ _ _ Hinv Hstep Hid) as Hk. unfold row_kept in Hk.
  rewrite Hid1 in Hk. destruct Hk as [Hreq He].
  destruct (view_lifecycle _ _ _ (si_db x Hinv) Hid) as [[_ _ Hl] Hb].
  assert (i64_max < u64_max) by done. transitivity task1.
  - destruct task as [rq t], task1 as [rq1 t1]. simpl in *. subst rq1.
    eapply evolves_advances; [done|lia|done].
  - by eapply IH; [eapply sqlite_step_inv| |].
Qed.

(** ** Ownership *)

Lemma store_acquire_ok lock s e s' :
  store_acquire_owner lock s = (Ok e, s') →
  ss_epoch s = None ∧ (ss_lock_file s = true ∨ lock = Ok tt) ∧
  ss_epoch s' = Some e ∧ ss_lock_file s' = true ∧ db_owner_epoch (ss_db s') = Some (Z.of_N e) ∧
  (Z.of_N e = default 0 (db_owner_epoch (ss_db s)) + 1)%Z.
Proof.
  unfold store_acquire_owner. destruct (ss_epoch s) as [|]; [done|]. simpl.
  destruct (if ss_lock_file s then Ok tt else lock) as [u|] eqn:Hl; [|done].
  destruct (read_epoch _) as [e'|] eqn:Hr; [|done]. intros [= <- <-].
  apply read_epoch_Ok in Hr as [Hr _]. simpl. split_and!; [done| |done|done| |].
  - destruct (ss_lock_file s); [by left|]. right. rewrite Hl. by destruct u.
  - by rewrite <- Hr.
  - by destruct (db_owner_epoch (ss_db s)).
Qed.

Lemma transact_epoch {A} (op : SqliteDb → result (A * SqliteDb) StoreError) s :
  (∀ a db', op (ss_db s) = Ok (a, db') → db_owner_epoch db' = db_owner_epoch (ss_db s)) →
  db_owner_epoch (ss_db (transact op s).2) = db_owner_epoch (ss_db s).
Proof.
  intros Hop. unfold transact. destruct (op (ss_db s)) as [[a db']|]; [|done]. by eapply Hop.
Qed.

Lemma run_write_epoch {A} (op : SqliteDb → result (A * SqliteDb) StoreError) s :
  (∀ a db', op (ss_db s) = Ok (a, db') → db_owner_epoch db' = db_owner_epoch (ss_db s)) →
  db_owner_epoch (ss_db (run_write op s).2) = db_owner_epoch (ss_db s).
Proof. intros. unfold run_write. destruct (negb _); [done|]. by apply transact_epoch. Qed.

Lemma run_outbox_epoch {A} (op : SqliteDb → result (A * SqliteDb) StoreError) s :
  (∀ a db', op (ss_db s) = Ok (a, db') → db_owner_epoch db' = db_owner_epoch (ss_db s)) →
  db_owner_epoch (ss_db (run_outbox op s).2) = db_owner_epoch (ss_db s).
Proof. intros. unfold run_outbox. destruct (_ || _); [done|]. by apply transact_epoch. Qed.

(** The stored epoch never decreases. *)
Lemma sqlite_step_epoch s s' :
  sqlite_step s s' →
  (default 0 (db_owner_epoch (ss_db s)) ≤ default 0 (db_owner_epoch (ss_db s')))%Z.
Proof.
  intros [].
  - unfold store_accept. rewrite run_write_epoch; [lia|].
    by intros out db' (_ & _ & _ & He)%accept_recorded.
  - unfold store_start. rewrite run_write_epoch; [lia|].
    by intros t db' (_ & _ & _ & He)%start_recorded.
  - unfold store_transition. rewrite run_write_epoch; [lia|].
    by intros t db' (_ & _ & _ & He)%transition_recorded.
  - unfold store_progress. rewrite run_write_epoch; [lia|].
    by intros t db' (_ & _ & _ & He)%progress_rest.
  - unfold store_prune. destruct (i64_try_from before) as [b|]; [|done].
    destruct (i64_try_from rows) as [n|]; [|done]. rewrite run_write_epoch; [lia|].
    intros k db'. unfold sqlite_prune. destruct (prune_terminal_rows _ _) as [db1|] eqn:Hp; [|done].
    intros [= _ <-]. by apply prune_rows_tasks in Hp as (_ & _ & He).
  - unfold enable_outbox. by destruct (_ || _).
  - rewrite run_outbox_epoch; [lia|]. intros u db' Hs. unfold mark_outbox_published in Hs.
    destruct (sqlite_i64_from_u64 _ _); [|done]. by injection Hs as _ <-.
  - rewrite run_outbox_epoch; [lia|]. intros u db' Hs. unfold quarantine_outbox_head in Hs.
    destruct (_ || _); [done|]. destruct (ok_or _ _) as [[key ob]|]; [|done].
    destruct (sqlite_u64_from_i64 _ _) as [v|]; [|done]. destruct (_ || _); [done|].
    destruct (i64_or_failure now) as [z|]; [|done]. destruct (is_some _); [done|].
    by injection Hs as _ <-.
  - unfold store_acquire_owner. destruct (is_some _); [done|].
    destruct (if ss_lock_file _ then Ok tt else lock); [|done].
    destruct (read_epoch _); simpl; destruct (db_owner_epoch _); simpl; lia.
  - unfold store_release_owner. destruct (negb _); [done|]. by destruct (negb _).
  - done.
Qed.

Lemma sqlite_steps_epoch s s' :
  rtc sqlite_step s s' →
  (default 0 (db_owner_epoch (ss_db s)) ≤ default 0 (db_owner_epoch (ss_db s')))%Z.
Proof.
  induction 1 as [|x y z Hstep _ IH]; [done|]. pose proof (sqlite_step_epoch _ _ Hstep). lia.
Qed.

(** A step that begins and ends without the lock file leaves the database as
    it was. *)
Lemma step_without_lock s s' :
  store_inv s → sqlite_step s s' → ss_lock_file s = false → ss_lock_file s' = false →
  ss_db s' = ss_db s.
Proof.
  intros Hinv Hstep Hl Hl'.
  assert (∀ A (op : SqliteDb → result (A * SqliteDb) StoreError), ss_db (run_write op s).2 = ss_db s) as Hw.
  { intros A op. unfold run_write. by rewrite Hl. }
  assert (∀ A (op : SqliteDb → result (A * SqliteDb) StoreError), ss_db (run_outbox op s).2 = ss_db s) as Ho.
  { intros A op. unfold run_outbox. by rewrite Hl, orb_true_r. }
  destruct Hstep; try apply Hw; try apply Ho; try done.
  - unfold store_prune. destruct (i64_try_from before); [|done].
    destruct (i64_try_from rows); [|done]. apply Hw.
  - unfold enable_outbox. by destruct (_ || _).
  - unfold store_acquire_owner in *. destruct (is_some _); [done|].
    destruct (if ss_lock_file s then Ok tt else lock); [|done]. by destruct (read_epoch _).
  - unfold store_release_owner. destruct (negb _); [done|]. by destruct (negb _).
Qed.

Definition unlocked_step : relation SqliteTaskStore :=
  λ s s', sqlite_step s s' ∧ ss_lock_file s' = false.

Lemma unlocked_steps s s' :
  store_inv s → rtc unlocked_step s s' → ss_lock_file s = false → ss_db s' = ss_db s.
Proof.
  intros Hinv Hr. revert Hinv. induction Hr as [|x y z [Hstep Hl'] _ IH]; [done|].
  intros Hinv Hl. rewrite IH; [by apply step_without_lock|by eapply sqlite_step_inv|done].
Qed.
End sqlite.
