(* ===== verification/SqliteFixtures.v ===== *)
(** * Concrete documents for the SQLite store

    An encoding of the stored documents as strings of bits, total and with the
    laws the store relies on, and a small database built with it; used only to
    apply theorems to concrete inputs. *)

From Stdlib Require Import Ascii.
From stdpp Require Import countable.
From S2P Require Import Prelude TaskState Model MemoryStore MemoryInvariant MemoryHistory Fixtures.
From S2P Require Import SqliteStore SqliteAdmin SqliteInvariant SqliteRefinement SqliteHistory.

#[local] Existing Instance fixture_types.
#[local] Existing Instance fixture_json.

(** ** Strings of bits *)

Fixpoint pos_to_string (p : positive) : string :=
  match p with
  | xH => EmptyString
  | xO q => String "0"%char (pos_to_string q)
  | xI q => String "1"%char (pos_to_string q)
  end.

Fixpoint pos_of_string (s : string) : positive :=
  match s with
  | EmptyString => xH
  | String c rest =>
      if bool_decide (c = "1"%char) then xI (pos_of_string rest) else xO (pos_of_string rest)
  end.

Lemma pos_of_to_string p : pos_of_string (pos_to_string p) = p.
Proof. induction p as [p IH|p IH|]; simpl; [by rewrite IH|by rewrite IH|done]. Qed.

(** ** Encodings of the documents *)

#[local] Instance byte_countable : Countable Byte.byte.
Proof. apply (inj_countable Byte.to_N Byte.of_N), Byte.of_to_N. Defined.

#[local] Instance TaskOutput_countable : Countable TaskOutput.
Proof. refine (inj_countable' to_summary (λ b, {| to_summary := b |}) _). by intros []. Defined.

#[local] Instance TaskState_countable : Countable TaskState.
Proof.
  refine (inj_countable'
    (λ s, match s with
          | Queued => (0%N, "", "") | Running => (1%N, "", "") | Blocked m => (2%N, m, "")
          | Succeeded => (3%N, "", "") | Failed c m => (4%N, c, m) | Panicked m => (5%N, m, "")
          | Cancelled => (6%N, "", "")
          end)
    (λ x, match x with
          | (0%N, _, _) => Queued | (1%N, _, _) => Running | (2%N, m, _) => Blocked m
          | (3%N, _, _) => Succeeded | (4%N, c, m) => Failed c m | (5%N, m, _) => Panicked m
          | _ => Cancelled
          end) _). by intros [].
Defined.

#[local] Instance ProgressStageSnapshot_countable : Countable ProgressStageSnapshot.
Proof.
  refine (inj_countable' (λ s, (pss_id s, pss_name s, pss_position s, pss_total s))
    (λ '(a, b, c, d), {| pss_id := a; pss_name := b; pss_position := c; pss_total := d |}) _).
  by intros [].
Defined.

#[local] Instance ProgressMetricSnapshot_countable : Countable ProgressMetricSnapshot.
Proof.
  refine (inj_countable'
    (λ s, (pms_id s, pms_name s, pms_total s, pms_completed s, pms_active s,
           (pms_succeeded s, pms_failed s, pms_cancelled s)))
    (λ '(a, b, c, d, e, (f, g, h)),
       {| pms_id := a; pms_name := b; pms_total := c; pms_completed := d; pms_active := e;
          pms_succeeded := f; pms_failed := g; pms_cancelled := h |}) _). by intros [].
Defined.

#[local] Instance TaskProgressSnapshot_countable : Countable TaskProgressSnapshot.
Proof.
  refine (inj_countable'
    (λ s, (tps_attempt s, tps_progress_version s, tps_stage s, tps_metrics s, tps_updated_at_ms s))
    (λ '(a, b, c, d, e),
       {| tps_attempt := a; tps_progress_version := b; tps_stage := c; tps_metrics := d;
          tps_updated_at_ms := e |}) _). by intros [].
Defined.

#[local] Instance ResourceRequest_countable : Countable ResourceRequest.
Proof.
  refine (inj_countable'
    (λ s, (rr_cpu_slots s, rr_gpu_count s, rr_memory_bytes s,
           (rr_disk_bytes s, rr_gpu_labels s, rr_custom s)))
    (λ '(a, b, c, (d, e, f)),
       {| rr_cpu_slots := a; rr_gpu_count := b; rr_memory_bytes := c; rr_disk_bytes := d;
          rr_gpu_labels := e; rr_custom := f |}) _). by intros [].
Defined.

#[local] Instance lifecycle_eq_dec : EqDecision StoredTypedLifecycle.
Proof. solve_decision. Defined.
#[local] Instance lifecycle_countable : Countable StoredTypedLifecycle.
Proof.
  refine (inj_countable'
    (λ l, ((lc_state l, lc_cancel_requested l, lc_cancel_error l),
           (lc_state_version l, lc_attempt l, lc_retry_not_before_ms l, lc_accepted_at_ms l),
           (lc_started_at_ms l, lc_finished_at_ms l, lc_progress l, lc_output l)))
    (λ '((a, b, c), (d, e, f, g), (h, i, j, k)),
       {| lc_state := a; lc_cancel_requested := b; lc_cancel_error := c; lc_state_version := d;
          lc_attempt := e; lc_retry_not_before_ms := f; lc_accepted_at_ms := g;
          lc_started_at_ms := h; lc_finished_at_ms := i; lc_progress := j; lc_output := k |}) _).
  by intros [].
Defined.

#[local] Instance metadata_eq_dec : EqDecision (@Metadata fixture_types) :=
  _ : EqDecision (list (string * string)).
#[local] Instance metadata_countable : Countable (@Metadata fixture_types) :=
  _ : Countable (list (string * string)).
#[local] Instance info_eq_dec : EqDecision StoredRequestInfo.
Proof. solve_decision. Defined.
#[local] Instance info_countable : Countable StoredRequestInfo.
Proof.
  refine (inj_countable'
    (λ i, ((ri_kind_id i, ri_category i, ri_payload_type_id i),
           (ri_payload_schema_version i, ri_payload_codec_id i, ri_metadata i),
           (ri_resource_limit i, ri_correlation_key i, ri_idempotency_key i)))
    (λ '((a, b, c), (d, e, f), (g, h, i)),
       {| ri_kind_id := a; ri_category := b; ri_payload_type_id := c;
          ri_payload_schema_version := d; ri_payload_codec_id := e; ri_metadata := f;
          ri_resource_limit := g; ri_correlation_key := h; ri_idempotency_key := i |}) _).
  by intros [].
Defined.

(** ** The codec *)

Definition doc_to_string `{Countable A} (a : A) : string := pos_to_string (encode a).
Definition doc_from_str `{Countable A} (s : string) : result A string :=
  ok_or "malformed document"%string (decode (pos_of_string s)).

Lemma doc_roundtrip `{Countable A} (a : A) : doc_from_str (doc_to_string a) = Ok a.
Proof. unfold doc_from_str, doc_to_string. by rewrite pos_of_to_string, decode_encode. Qed.

Inductive fixture_value :=
| ValueLifecycle (l : StoredTypedLifecycle)
| ValueState (s : TaskState)
| ValueNumber (n : N).

Definition fixture_sqlite : SqliteJson :=
  {| request_info_to_string := λ i, Ok (doc_to_string i);
     request_info_from_str := doc_from_str;
     lifecycle_to_string := λ l, Ok (doc_to_string l);
     lifecycle_from_str := doc_from_str;
     state_to_string := λ s, Ok (doc_to_string s);
     state_from_str := doc_from_str;
     event_to_string := λ _, Ok "{}"%string;
     progress_to_string := λ _, Ok "{}"%string;
     JsonValue := fixture_value;
     value_from_str := λ s, result_map ValueLifecycle (doc_from_str s);
     value_get := λ field v,
       match v with
       | ValueLifecycle l =>
           if bool_decide (field = "state"%string) then Some (ValueState (lc_state l))
           else if bool_decide (field = "state_version"%string)
           then Some (ValueNumber (lc_state_version l)) else None
       | _ => None
       end;
     state_from_value := λ v,
       match v with ValueState s => Ok s | _ => Err "not a state"%string end;
     value_as_i64 := λ v, match v with ValueNumber n => i64_try_from n | _ => None end;
     extract_finished_at := λ s,
       match doc_from_str s with Ok l => Z.of_N <$> lc_finished_at_ms l | Err _ => None end |}.

#[local] Existing Instance fixture_sqlite.

Lemma fixture_sqlite_laws : SqliteJsonLaws.
Proof.
  split; simpl.
  - intros i j [= <-]. apply doc_roundtrip.
  - intros l j [= <-]. apply doc_roundtrip.
  - intros s j [= <-]. apply doc_roundtrip.
  - intros l j [= <-]. rewrite doc_roundtrip.
    exists (ValueLifecycle l), (ValueState (lc_state l)), (ValueNumber (lc_state_version l)). done.
  - intros l j [= <-] _. by rewrite doc_roundtrip.
  - done.
Qed.
#[local] Existing Instance fixture_sqlite_laws.

(** ** A small store

    Opened and owned with the outbox enabled; task 1 accepted at 5, started at
    6 and finished at 7, task 2 accepted at 8. *)

Definition demo_sq0 : SqliteTaskStore :=
  (enable_outbox (store_acquire_owner (Ok tt) (sqlite_open db_new)).2).2.
Definition demo_sq1 : SqliteTaskStore :=
  (store_accept 5 5 1 (demo_request (Some "k"%string) 4) demo_sq0).2.
Definition demo_sq2 : SqliteTaskStore := (store_start 6 (demo_start 1 0 6) demo_sq1).2.
Definition demo_sq3 : SqliteTaskStore := (store_transition 7 (finish_command 1 1 1 7) demo_sq2).2.
Definition demo_sq4 : SqliteTaskStore := (store_accept 8 8 2 (demo_request None 3) demo_sq3).2.
(** The three events of task 1 published. *)
Definition demo_sq5 : SqliteTaskStore :=
  (run_outbox (mark_outbox_published 1 2)
     (run_outbox (mark_outbox_published 1 1)
        (run_outbox (mark_outbox_published 1 0) demo_sq4).2).2).2.

Lemma demo_sq_reachable1 : sqlite_reachable demo_sq1.
Proof.
  eapply rtc_l; [apply (sq_step_acquire (Ok tt))|].
  eapply rtc_l; [apply sq_step_enable|]. apply rtc_once, sq_step_accept.
Qed.
Lemma demo_sq_reachable2 : sqlite_reachable demo_sq2.
Proof. eapply rtc_r; [apply demo_sq_reachable1|apply sq_step_start]. Qed.
Lemma demo_sq_reachable3 : sqlite_reachable demo_sq3.
Proof. eapply rtc_r; [apply demo_sq_reachable2|apply sq_step_transition]. Qed.
Lemma demo_sq_reachable4 : sqlite_reachable demo_sq4.
Proof. eapply rtc_r; [apply demo_sq_reachable3|apply sq_step_accept]. Qed.
Lemma demo_sq_reachable5 : sqlite_reachable demo_sq5.
Proof. do 3 (eapply rtc_r; [|apply sq_step_mark]). apply demo_sq_reachable4. Qed.

Lemma demo_sq_wf4 : db_wf (ss_db demo_sq4).
Proof. apply si_db, sqlite_reachable_inv, demo_sq_reachable4. Qed.
