(* ===== verification/SqliteProperties.v ===== *)
(** * Properties of the SQLite task store

    The claims about [src/src/store/sqlite_task_store.rs], each with an
    application to the small store of [SqliteFixtures]. *)

From S2P Require Import Prelude TaskState Model MemoryStore MemoryInvariant MemoryPreservation.
From S2P Require Import MemoryHistory MemoryQueries MemorySpec Fixtures SqliteStore SqliteAdmin.
From S2P Require Import SqliteInvariant SqliteRefinement SqliteQueries SqlitePruning SqliteOutbox.
From S2P Require Import SqliteHistory SqliteFixtures.

Section sqlite.
Context `{ET : !ExternalTypes, SJ : !SnapshotJson, QJ : !SqliteJson, QL : !SqliteJsonLaws}.
Implicit Types (db : SqliteDb) (s : SqliteTaskStore).


(** Starting an attempt is the abstract start on the tasks the database
    stands for: the same summary or the same error, with one event for the
    new version and no other change; SQLite refuses a start the abstract
    store accepts only when the outcome cannot be represented. *)
Theorem sqlite_start_refines enabled now c db :
  db_wf db →
  match sqlite_start enabled now c db with
  | Ok (t, db') => db_wf db' ∧ spec_start c (sq_abs db) = (Ok t, sq_abs db') ∧
                   committed enabled now t db db'
  | Err e => refused e (spec_start c (sq_abs db)) db
  end ∧
  ∀ t a', spec_start c (sq_abs db) = (Ok t, a') → storable enabled now t →
    ∃ db', sqlite_start enabled now c db = Ok (t, db').
Proof.
  intros Hwf. split; [|intros t a'; by apply sqlite_start_complete].
  pose proof (sqlite_start_sound enabled now c db Hwf) as Hs.
  destruct (sqlite_start _ _ _ _) as [[t db']|e] eqn:Heq; [|done].
  split_and!; [apply Hs..|]. by eapply start_recorded.
Qed.

(** C2. A compare-and-set transition is the abstract transition, with one
    event for the new version and no other change; it is refused only as the
    abstract store refuses it (a retry deadline outside the queued state before
    the task is looked up), or because a value cannot be represented; and a
    transition the abstract store makes is made, if its outcome can be stored. *)
Theorem sqlite_transition_refines enabled now c db :
  db_wf db →
  match sqlite_transition enabled now c db with
  | Ok (t, db') => db_wf db' ∧ spec_transition_keep c (sq_abs db) = (Ok t, sq_abs db') ∧
                   committed enabled now t db db'
  | Err e => transition_refused c e (spec_transition_keep c (sq_abs db)) db
  end ∧
  ∀ t a', spec_transition_keep c (sq_abs db) = (Ok t, a') → storable enabled now t →
    ∃ db', sqlite_transition enabled now c db = Ok (t, db').
Proof.
  intros Hwf. split; [|intros t a'; by apply sqlite_transition_complete].
  pose proof (sqlite_transition_sound enabled now c db Hwf) as Hs.
  destruct (sqlite_transition _ _ _ _) as [[t db']|e] eqn:Heq; [|done].
  split_and!; [apply Hs..|]. by eapply transition_recorded.
Qed.

(** Acceptance stores a queued task of version 0 with its event when
    neither its identifier nor its idempotency key is taken; returns the task
    that holds the key when its request is identical, changing nothing; and
    otherwise reports which of the two is taken, or a value that cannot be
    represented. *)
Theorem sqlite_accept_exact enabled now event_now id r db :
  db_wf db →
  match sqlite_accept enabled now event_now id r db with
  | Ok (out, db') =>
      db_wf db' ∧ committed (enabled && ao_created out) event_now (ao_summary out) db db' ∧
      if ao_created out then
        ao_summary out = accepted_summary now id r ∧ view db !! id = None ∧
        (∀ id' task key, view db !! id' = Some task → sr_idempotency_key r = Some key →
           sr_idempotency_key (st_request task) ≠ Some key) ∧
        view db' = <[id := {| st_request := r; st_summary := accepted_summary now id r |}]> (view db)
      else
        db' = db ∧ is_Some (sr_idempotency_key r) ∧
        ∃ held, view db !! held = Some {| st_request := r; st_summary := ao_summary out |}
  | Err IdempotencyConflict =>
      is_Some (sr_idempotency_key r) ∧
      ∃ held task, view db !! held = Some task ∧
        sr_idempotency_key (st_request task) = sr_idempotency_key r ∧ st_request task ≠ r
  | Err DuplicateTask => is_Some (view db !! id)
  | Err e => representation_error e = true
  end.
Proof.
  intros Hwf. pose proof (sqlite_accept_sound enabled now event_now id r db Hwf) as Hs.
  destruct (sqlite_accept _ _ _ _ _ _) as [[out db']|e] eqn:Heq; [|done].
  split_and!; [apply Hs| |apply Hs]. by eapply accept_recorded.
Qed.

(** C36. A progress update that succeeds is the abstract one and touches
    neither events nor other tables.  A report beyond the limits is refused as
    invalid.  Within them, and when its documents can be written, the answer is
    exactly the abstract store's, with one exception: a report of version 0 that
    the abstract store accepts, the first of a running attempt, is refused as a
    conflict. *)
Theorem sqlite_progress_refines c db :
  db_wf db →
  (∀ t db', sqlite_update_progress c db = Ok (t, db') →
     db_wf db' ∧ spec_progress c (sq_abs db) = (Ok t, sq_abs db') ∧
     db_outbox db' = db_outbox db ∧ same_rest db db') ∧
  match from_command snapshot_to_vec c with
  | Err _ => sqlite_update_progress c db =
      Err (InvalidRequest "task progress snapshot exceeds its configured limits")
  | Ok p =>
      is_ok (progress_to_string p) = true →
      match (spec_progress c (sq_abs db)).1 with
      | Err e => sqlite_update_progress c db = Err e
      | Ok t =>
          if pc_progress_version c =? 0 then sqlite_update_progress c db = Err Conflict
          else pc_progress_version c ≤ i64_max →
               is_ok (lifecycle_to_string (lifecycle_of t)) = true →
               ∃ db', sqlite_update_progress c db = Ok (t, db')
      end
  end.
Proof.
  intros Hwf. split.
  - intros t db' Heq. pose proof (sqlite_progress_sound c db Hwf) as Hs. rewrite Heq in Hs.
    split_and!; [apply Hs..| |]; by eapply progress_rest.
  - destruct (from_command snapshot_to_vec c) as [p|e] eqn:Hp.
    + by apply sqlite_progress_complete.
    + unfold sqlite_update_progress. by rewrite Hp.
Qed.

(** C37. History pages, pages of ready tasks and the next retry deadline,
    which SQL computes from the columns, are those of the tasks the database
    stands for, computed from their summaries. *)
Theorem sqlite_queries_exact db :
  db_wf db →
  (∀ q size, checked_page_size q = Ok size →
     (∀ c, tq_after q = Some c → cur_accepted_at_ms c ≤ i64_max) →
     sqlite_list q db = Ok (page_of size (selection q (view db)))) ∧
  (∀ after limit now, limit ≤ 256 → now ≤ i64_max →
     (∀ c, after = Some c → cur_accepted_at_ms c ≤ i64_max) →
     sqlite_ready after limit now db =
       Ok (page_of limit (ready_selection after now (view db)))) ∧
  (∀ now, now ≤ i64_max →
     ∃ o, sqlite_next_retry_deadline now db = Ok o ∧
       match o with
       | Some d => now < d ∧ (∃ id, waiting_until db id d) ∧
                   ∀ id d', waiting_until db id d' → now < d' → d ≤ d'
       | None => ∀ id d, waiting_until db id d → d ≤ now
       end).
Proof.
  intros Hwf. split_and!.
  - intros. by apply sqlite_list_page.
  - intros. by apply sqlite_ready_page.
  - intros. by apply sqlite_deadline.
Qed.

(** C38. Pruning removes at most [rows] tasks; each had finished before the
    cutoff and had no pending event; no prunable task stays while a later one
    goes, and one stays only if [rows] tasks went.  Every state checkpoint is
    answered as before, for removed tasks too, and nothing else changes.  It
    fails, changing nothing, only if a state cannot be encoded.  (Times at
    which tasks finished fit SQLite's signed integers.) *)
Theorem sqlite_prune_exact before rows db :
  db_wf db → finish_times_fit db →
  match sqlite_prune (Z.of_N before) (Z.of_N rows) db with
  | Ok (n, db') =>
      ∃ l, NoDup l ∧ n = N.of_nat (length l) ∧ n ≤ rows ∧ pruned l db db' ∧ db_wf db' ∧
        (∀ id, id ∈ l → ∃ f, prunable before db id f) ∧
        (∀ id f, prunable before db id f → id ∉ l →
           n = rows ∧ ∀ id' f', id' ∈ l → prunable before db id' f' → key_le (f', id') (f, id))
  | Err e => representation_error e = true ∧
             ∃ id task, view db !! id = Some task ∧
               is_ok (state_to_string (ts_state (st_summary task))) = false
  end.
Proof.
  intros Hwf Hfit. unfold sqlite_prune.
  pose proof (prune_terminal_rows_spec _ _ (prune_rows_finished (Z.of_N before) (Z.of_N rows) db Hwf)) as Hs.
  pose proof (prune_rows_finished (Z.of_N before) (Z.of_N rows) db Hwf) as [Hnd _].
  destruct (prune_terminal_rows _ _) as [db'|e].
  - exists (snd ∘ fst <$> prune_rows (Z.of_N before) (Z.of_N rows) db).
    pose proof (prune_rows_exact before rows db Hwf Hfit) as (Hlen & Hin & Hout).
    rewrite length_fmap. split_and!; [done|done|done|done| |done|].
    + eapply pruned_wf; [done|done|]. intros id v Hid. apply Hin in Hid as (f & _ & Hf). apply Hf.
    + intros id f Hp Hni. destruct (Hout id f Hp Hni) as [-> Hle]. done.
  - destruct Hs as (He & z & id & json & task & Hin & Hv & Hbad). split; [done|].
    exists id, task. split; [done|]. destruct Hbad as [|Hz]; [done|].
    apply subseteq_take in Hin. rewrite sort_by_Permutation in Hin.
    apply elem_of_prune_matches in Hin as (row & f & _ & _ & -> & _); [lia|done|done].
Qed.

(** C39. Between two moments at which a task is stored its request is the
    same, its states form a path of the lifecycle, its version and attempt
    never decrease and its output is never replaced; a step that removes a
    task removes a finished one and leaves a checkpoint that answers as the
    task did. *)
Theorem sqlite_task_history id s s' task :
  sqlite_reachable s → view (ss_db s) !! id = Some task →
  (∀ task', rtc (sq_retaining_step id) s s' → view (ss_db s') !! id = Some task' →
     task_advances task task') ∧
  (sqlite_step s s' → view (ss_db s') !! id = None →
     is_terminal (ts_state (st_summary task)) = true ∧
     sqlite_get_state_checkpoint id (ss_db s') =
       Ok (Some {| ck_id := id; ck_state_version := ts_state_version (st_summary task);
                   ck_state := ts_state (st_summary task) |})).
Proof.
  intros Hr Hid. pose proof (sqlite_reachable_inv s Hr) as Hinv. split.
  - intros task' Hs Hid'. by eapply sqlite_retaining_advances.
  - intros Hstep Hnone. pose proof (sqlite_step_kept _ _ _ _ Hinv Hstep Hid) as Hk.
    unfold row_kept in Hk. rewrite Hnone in Hk. destruct Hk as [Ht ->]. split; [done|].
    apply view_Some in Hid as (row & r & lc & Hrow & Hw & ->); [|apply Hinv].
    by rewrite (checkpoint_row _ _ _ _ _ Hrow Hw).
Qed.

(** A page of the outbox lists, for each task, its pending events in the
    order of its versions, and leaves out no older pending event of a task it
    lists. *)
Theorem sqlite_event_order limit s :
  sqlite_reachable s → 1 ≤ limit ≤ 256 →
  ∃ entries, list_outbox limit (ss_db s) = Ok entries ∧
    (∀ i j a b, entries !! i = Some a → entries !! j = Some b →
       oe_task_id a = oe_task_id b → (i < j)%nat → oe_state_version a < oe_state_version b) ∧
    (∀ j b v, entries !! j = Some b → v < oe_state_version b →
       is_Some (db_outbox (ss_db s) !! (oe_task_id b, Z.of_N v)) →
       ∃ i a, (i < j)%nat ∧ entries !! i = Some a ∧ oe_task_id a = oe_task_id b ∧
         oe_state_version a = v).
Proof.
  intros Hr Hlimit. destruct (sqlite_reachable_inv s Hr) as [Hwf Hord _ _].
  eexists. split; [by apply list_outbox_exact|]. split.
  - intros i j a b (_ & ob1 & Ha & _)%page_lookup (_ & ob2 & Hb & _)%page_lookup Heq Hij; [|done..].
    unfold entry_key in Ha. rewrite Heq in Ha.
    pose proof (sorted_outbox_versions _ i j _ _ _ _ _ Hord Ha Hb Hij). lia.
  - intros j b v Hb Hv Hin.
    destruct (page_older _ _ j b (Z.of_N v) Hwf Hord Hb) as (i & a & Hi & Ha & [= Hai Hav]); [lia|done|].
    exists i, a. split_and!; [done..|lia].
Qed.

(** Quarantining moves exactly the first event of the reading order, and
    only when the caller names it, from the outbox to the quarantine with the
    operator's reason; otherwise nothing changes. *)
Theorem sqlite_quarantine_exact now id version event reason last_error db :
  db_wf db →
  match quarantine_outbox_head now id version event reason last_error db with
  | Ok (_, db') =>
      is_blank reason = false ∧ str_len reason ≤ 4096 ∧ now ≤ i64_max ∧
      ∃ ob, head (sorted_outbox db) = Some ((id, Z.of_N version), ob) ∧ ob_event_id ob = event ∧
        db' = {| db_tasks := db_tasks db;
                 db_outbox := delete (id, Z.of_N version) (db_outbox db);
                 db_quarantine := <[(id, Z.of_N version) :=
                   {| qr_event_id := event; qr_event_json := ob_event_json ob;
                      qr_created_at_ms := ob_created_at_ms ob;
                      qr_quarantined_at_ms := Z.of_N now; qr_reason := reason;
                      qr_last_error := last_error |}]> (db_quarantine db);
                 db_checkpoints := db_checkpoints db; db_owner_epoch := db_owner_epoch db |}
  | Err (InvalidRequest _) => is_blank reason = true ∨ 4096 < str_len reason
  | Err Conflict =>
      ∀ ob, head (sorted_outbox db) = Some ((id, Z.of_N version), ob) → ob_event_id ob ≠ event
  | Err (Failure _) => i64_max < now ∨ is_Some (db_quarantine db !! (id, Z.of_N version))
  | Err _ => False
  end.
Proof.
  intros Hwf. unfold quarantine_outbox_head, MAX_QUARANTINE_REASON_BYTES.
  destruct (is_blank reason || _) eqn:Hg; [by bool_prop|]. bool_prop. destruct Hg as [Hb Hlen].
  destruct (head (sorted_outbox db)) as [[[i v] ob]|] eqn:Hh; simpl; [|done].
  assert (0 ≤ v)%Z as Hv.
  { assert (((i, v), ob) ∈ sorted_outbox db) as Hin.
    { apply head_Some in Hh as [l ->]. apply list_elem_of_here. }
    apply elem_of_sorted_outbox in Hin. by destruct (dbw_outbox db Hwf _ _ _ Hin) as (? & _ & ? & _). }
  unfold sqlite_u64_from_i64. replace v with (Z.of_N (Z.to_N v)) by lia. rewrite u64_of_i64. simpl.
  destruct (_ || _) eqn:Hc; bool_prop.
  { intros ob' [= -> Hvv <-] Hev. apply N2Z.inj in Hvv. destruct Hc as [[?|?]|?]; congruence. }
  destruct Hc as [[-> <-] Hev].
  unfold i64_or_failure. destruct (i64_try_from now) as [z|] eqn:Hz; simpl.
  - apply i64_try_from_Some in Hz as [-> Hnow].
    destruct (db_quarantine db !! _) eqn:Hq; simpl; [right; eauto|].
    split_and!; [done..|]. exists ob. by rewrite Hev.
  - left. unfold i64_try_from in Hz. destruct (now <=? i64_max) eqn:E; [done|]. by bool_prop.
Qed.

(** C40. Epochs handed out for one database strictly increase, through any
    number of releases and reopenings; and once the owner has released the
    store, nothing changes the database until the lock is taken again. *)
Theorem sqlite_ownership s1 s1' s2 s2' s3 lock1 lock2 unlock e1 e2 :
  sqlite_reachable s1 → store_acquire_owner lock1 s1 = (Ok e1, s1') →
  rtc sqlite_step s1' s2 →
  (store_acquire_owner lock2 s2 = (Ok e2, s2') → e1 < e2) ∧
  (ss_epoch s2 = Some e1 →
     rtc unlocked_step (store_release_owner unlock e1 s2).2 s3 → ss_db s3 = ss_db s2).
Proof.
  intros Hr Ha Hs. pose proof (sqlite_reachable_inv s1 Hr) as Hinv.
  assert (store_inv s2) as Hinv2.
  { apply sqlite_reachable_inv. unfold sqlite_reachable in *. etrans; [exact Hr|]. eapply rtc_l; [|exact Hs].
    pose proof (sq_step_acquire lock1 s1) as Hst. by rewrite Ha in Hst. }
  apply store_acquire_ok in Ha as (_ & _ & _ & _ & He & _). apply sqlite_steps_epoch in Hs.
  rewrite He in Hs. simpl in Hs. split.
  - intros (_ & _ & _ & _ & _ & Heq)%store_acquire_ok. lia.
  - intros Hep Hu. destruct (si_epoch s2 Hinv2 _ Hep) as [Hlock _].
    pose proof (release_inv unlock e1 s2 Hinv2) as Hinv3.
    revert Hu Hinv3. unfold store_release_owner. rewrite bool_decide_true, Hlock by done. simpl.
    intros Hu Hinv3. by rewrite (unlocked_steps _ _ Hinv3 Hu).
Qed.
End sqlite.

(** ** Applications *)

#[local] Existing Instance fixture_types.
#[local] Existing Instance fixture_json.
#[local] Existing Instance fixture_sqlite.
#[local] Existing Instance fixture_sqlite_laws.


Definition demo_db1 : SqliteDb := ss_db demo_sq1.
Definition demo_db2 : SqliteDb := ss_db demo_sq2.
Definition demo_db4 : SqliteDb := ss_db demo_sq4.
Definition demo_db5 : SqliteDb := ss_db demo_sq5.

Lemma demo_db1_wf : db_wf demo_db1.
Proof. apply si_db, sqlite_reachable_inv, demo_sq_reachable1. Qed.
Lemma demo_db2_wf : db_wf demo_db2.
Proof. apply si_db, sqlite_reachable_inv, demo_sq_reachable2. Qed.
Lemma demo_db5_wf : db_wf demo_db5.
Proof. apply si_db, sqlite_reachable_inv, demo_sq_reachable5. Qed.

Lemma sqlite_start_refines_witness :
  is_ok (sqlite_start true 6 (demo_start 1 0 6) demo_db1) = true ∧
  match sqlite_start true 6 (demo_start 1 0 6) demo_db1 with
  | Ok (t, db') => committed true 6 t demo_db1 db'
  | Err _ => False
  end.
Proof.
  split; [vm_compute; reflexivity|].
  destruct (sqlite_start_refines true 6 (demo_start 1 0 6) demo_db1 demo_db1_wf) as [H _].
  assert (is_ok (sqlite_start true 6 (demo_start 1 0 6) demo_db1) = true) as Hok
    by (vm_compute; reflexivity).
  destruct (sqlite_start true 6 (demo_start 1 0 6) demo_db1) as [[t db']|]; [apply H|done].
Defined.

Lemma sqlite_transition_refines_witness :
  is_ok (sqlite_transition true 7 (finish_command 1 1 1 7) demo_db2) = true ∧
  match sqlite_transition true 7 (finish_command 1 1 1 7) demo_db2 with
  | Ok (t, db') => committed true 7 t demo_db2 db'
  | Err _ => False
  end.
Proof.
  split; [vm_compute; reflexivity|].
  destruct (sqlite_transition_refines true 7 (finish_command 1 1 1 7) demo_db2 demo_db2_wf) as [H _].
  assert (is_ok (sqlite_transition true 7 (finish_command 1 1 1 7) demo_db2) = true) as Hok
    by (vm_compute; reflexivity).
  destruct (sqlite_transition true 7 (finish_command 1 1 1 7) demo_db2) as [[t db']|]; [apply H|done].
Defined.

Lemma sqlite_accept_exact_witness :
  match sqlite_accept true 9 9 3 (demo_request (Some "k"%string) 4) demo_db4 with
  | Ok (out, db') => ao_created out = false ∧ db' = demo_db4
  | Err _ => False
  end ∧
  match sqlite_accept true 9 9 3 (demo_request (Some "k"%string) 5) demo_db4 with
  | Err IdempotencyConflict => ∃ held, is_Some (view demo_db4 !! held)
  | _ => False
  end.
Proof.
  split.
  - pose proof (sqlite_accept_exact true 9 9 3 (demo_request (Some "k"%string) 4) demo_db4
      demo_sq_wf4) as H.
    assert (match sqlite_accept true 9 9 3 (demo_request (Some "k"%string) 4) demo_db4 with
            | Ok (out, _) => ao_created out = false | Err _ => False end) as Hc
      by (vm_compute; reflexivity).
    destruct (sqlite_accept _ _ _ _ _ demo_db4) as [[out db']|]; [|done].
    rewrite Hc in H. split; [done|apply H].
  - pose proof (sqlite_accept_exact true 9 9 3 (demo_request (Some "k"%string) 5) demo_db4
      demo_sq_wf4) as H.
    assert (sqlite_accept true 9 9 3 (demo_request (Some "k"%string) 5) demo_db4 =
            Err IdempotencyConflict) as Hc by (vm_compute; reflexivity).
    rewrite Hc in H |- *. destruct H as (_ & held & task & Hv & _). exists held. by rewrite Hv.
Defined.

Definition zero_progress : ProgressCommand :=
  {| pc_id := 1; pc_expected_attempt := 1; pc_progress_version := 0; pc_stage := None;
     pc_metrics := []; pc_updated_at_ms := 7 |}.

Definition first_progress : ProgressCommand :=
  {| pc_id := 1; pc_expected_attempt := 1; pc_progress_version := 1; pc_stage := None;
     pc_metrics := []; pc_updated_at_ms := 7 |}.

Lemma sqlite_progress_refines_witness :
  sqlite_update_progress zero_progress demo_db2 = Err Conflict ∧
  is_ok (spec_progress zero_progress (sq_abs demo_db2)).1 = true ∧
  is_ok (sqlite_update_progress first_progress demo_db2) = true.
Proof.
  destruct (sqlite_progress_refines zero_progress demo_db2 demo_db2_wf) as [_ H0].
  destruct (sqlite_progress_refines first_progress demo_db2 demo_db2_wf) as [_ H1].
  assert (is_ok (spec_progress zero_progress (sq_abs demo_db2)).1 = true) as S0
    by (vm_compute; reflexivity).
  assert (is_ok (spec_progress first_progress (sq_abs demo_db2)).1 = true) as S1
    by (vm_compute; reflexivity).
  split_and!; [|exact S0|].
  - specialize (H0 eq_refl). by destruct (spec_progress zero_progress (sq_abs demo_db2)).1.
  - specialize (H1 eq_refl).
    destruct (spec_progress first_progress (sq_abs demo_db2)).1 as [t|] eqn:Ht; [|done].
    destruct H1 as [db' ->]; [vm_compute; discriminate| |reflexivity].
    assert (match (spec_progress first_progress (sq_abs demo_db2)).1 with
            | Ok t => is_ok (lifecycle_to_string (lifecycle_of t)) | Err _ => false end = true) as Hl
      by (vm_compute; reflexivity). by rewrite Ht in Hl.
Defined.

Definition demo_query : TaskQuery :=
  {| tq_states := []; tq_category := None; tq_correlation_key := None; tq_after := None;
     tq_limit := 1 |}.

Lemma sqlite_queries_exact_witness :
  sqlite_list demo_query demo_db4 = Ok (page_of 1 (selection demo_query (view demo_db4))) ∧
  sqlite_ready None 5 9 demo_db4 = Ok (page_of 5 (ready_selection None 9 (view demo_db4))).
Proof.
  destruct (sqlite_queries_exact demo_db4 demo_sq_wf4) as (H1 & H2 & _). split.
  - by apply H1.
  - by apply H2.
Defined.

Lemma demo_db5_fit : finish_times_fit demo_db5.
Proof.
  assert (map_Forall (λ _ task, ts_finished_at_ms (st_summary task) = None ∨
                                ts_finished_at_ms (st_summary task) = Some 7) (view demo_db5)) as H.
  { apply (bool_decide_unpack _). vm_compute. done. }
  intros id task f Hid Hf. destruct (H id task Hid) as [H'|H']; rewrite H' in Hf; [done|].
  by injection Hf as <-.
Qed.

Lemma sqlite_prune_exact_witness :
  match sqlite_prune (Z.of_N 10) (Z.of_N 5) demo_db5 with
  | Ok (n, db') => n = 1 ∧ ∃ l, pruned l demo_db5 db' ∧ length l = 1%nat
  | Err _ => False
  end.
Proof.
  pose proof (sqlite_prune_exact 10 5 demo_db5 demo_db5_wf demo_db5_fit) as H.
  assert (match sqlite_prune (Z.of_N 10) (Z.of_N 5) demo_db5 with
          | Ok (n, _) => n = 1 | Err _ => False end) as Hn by (vm_compute; reflexivity).
  destruct (sqlite_prune _ _ _) as [[n db']|]; [|done]. split; [done|].
  destruct H as (l & _ & Hl & _ & Hp & _). exists l. split; [done|]. lia.
Defined.

Lemma demo_sq5_prune : sqlite_step demo_sq5 (store_prune 10 5 demo_sq5).2.
Proof. exact (sq_step_prune 10 5 demo_sq5). Qed.

Definition demo_sq6 : SqliteTaskStore := (store_prune 10 5 demo_sq5).2.

Lemma demo_sq6_pruned : view (ss_db demo_sq6) !! 1 = None.
Proof. vm_compute. reflexivity. Qed.

Lemma sqlite_task_history_witness :
  match view (ss_db demo_sq5) !! 1 with
  | Some task =>
      sqlite_get_state_checkpoint 1 (ss_db demo_sq6) =
      Ok (Some {| ck_id := 1; ck_state_version := ts_state_version (st_summary task);
                  ck_state := ts_state (st_summary task) |})
  | None => False
  end.
Proof.
  destruct (view (ss_db demo_sq5) !! 1) as [task|] eqn:Hid.
  - exact (proj2 (proj2 (sqlite_task_history 1 demo_sq5 demo_sq6 task demo_sq_reachable5 Hid)
                    demo_sq5_prune demo_sq6_pruned)).
  - vm_compute in Hid. discriminate Hid.
Defined.

Lemma sqlite_event_order_witness :
  ∃ entries, list_outbox 10 (ss_db demo_sq4) = Ok entries ∧ length entries = 4%nat ∧
    (∀ i j a b, entries !! i = Some a → entries !! j = Some b →
       oe_task_id a = oe_task_id b → (i < j)%nat → oe_state_version a < oe_state_version b).
Proof.
  destruct (sqlite_event_order 10 demo_sq4 demo_sq_reachable4 ltac:(lia)) as (entries & H1 & H2 & _).
  exists entries. split; [done|]. split; [|done].
  assert (match list_outbox 10 (ss_db demo_sq4) with Ok l => length l | Err _ => 0%nat end = 4%nat) as Hl
    by (vm_compute; reflexivity). by rewrite H1 in Hl.
Defined.

Lemma sqlite_quarantine_exact_witness :
  match quarantine_outbox_head 9 1 0 "task:1:0" "poison" "boom" demo_db4 with
  | Ok (_, db') => db_tasks db' = db_tasks demo_db4
  | Err _ => False
  end.
Proof.
  pose proof (sqlite_quarantine_exact 9 1 0 "task:1:0" "poison" "boom" demo_db4 demo_sq_wf4) as H.
  assert (is_ok (quarantine_outbox_head 9 1 0 "task:1:0" "poison" "boom" demo_db4) = true) as Hok
    by (vm_compute; reflexivity).
  destruct (quarantine_outbox_head _ _ _ _ _ _ demo_db4) as [[u db']|]; [|done].
  by destruct H as (_ & _ & _ & ob & _ & _ & ->).
Defined.

Definition demo_sq_owned : SqliteTaskStore := (store_acquire_owner (Ok tt) (sqlite_open db_new)).2.
Definition demo_sq_released : SqliteTaskStore := (store_release_owner (Ok tt) 1 demo_sq_owned).2.

Lemma sqlite_ownership_witness :
  1 < 2 ∧ ss_db demo_sq_released = ss_db demo_sq_owned.
Proof.
  split.
  - apply (sqlite_ownership (sqlite_open db_new) demo_sq_owned demo_sq_released
      (store_acquire_owner (Ok tt) demo_sq_released).2 demo_sq_released
      (Ok tt) (Ok tt) (Ok tt) 1 2); [apply rtc_refl|vm_compute; reflexivity| |vm_compute; reflexivity].
    apply rtc_once, (sq_step_release (Ok tt) 1).
  - apply (sqlite_ownership (sqlite_open db_new) demo_sq_owned demo_sq_owned
      demo_sq_owned demo_sq_released (Ok tt) (Ok tt) (Ok tt) 1 2);
      [apply rtc_refl|vm_compute; reflexivity|apply rtc_refl|vm_compute; reflexivity|apply rtc_refl].
Defined.
