(* ===== verification/Schema.v ===== *)
(** * The SQLite schema

    [src/src/store/sqlite_task_store/internal/schema.rs]: a new database gets
    the tables and indexes of version 8, databases of versions 4 to 7 are
    migrated, everything else is refused; all of it in one transaction.  The
    database's catalogue is a map of tables and a map of indexes, and a
    statement that defines one of them is a step on it which SQLite may
    refuse.  Names are compared as they are written. *)

From stdpp Require Import pretty.
From S2P Require Import Prelude Model.

(** ** The catalogue *)

(** A row of [PRAGMA table_info]: name, declared type, [notnull], [pk]. *)
Record Column := { col_name : string; col_type : string; col_notnull : bool; col_pk : N }.
#[global] Instance Column_eq_dec : EqDecision Column.
Proof. solve_decision. Defined.

(** A table, whether it has foreign keys, and its text in [sqlite_master]: up to
    its last column, where [ALTER TABLE] inserts a new one, and the rest. *)
Record Table := {
  tab_columns : list Column; tab_foreign_keys : bool; tab_sql_columns : string; tab_sql_rest : string
}.
Definition tab_sql (t : Table) : string := String.append (tab_sql_columns t) (tab_sql_rest t).
(** An index, with no name for a column that is an expression. *)
Record Index := { ix_table : string; ix_columns : list (option string) }.

Record Catalog := {
  ct_user_version : Z;
  ct_tables : gmap string Table;
  ct_indexes : gmap string Index;
}.

Definition with_version (v : Z) (c : Catalog) : Catalog :=
  {| ct_user_version := v; ct_tables := ct_tables c; ct_indexes := ct_indexes c |}.
Definition with_table (name : string) (t : Table) (c : Catalog) : Catalog :=
  {| ct_user_version := ct_user_version c; ct_tables := <[name := t]> (ct_tables c);
     ct_indexes := ct_indexes c |}.
Definition with_index (name : string) (i : Index) (c : Catalog) : Catalog :=
  {| ct_user_version := ct_user_version c; ct_tables := ct_tables c;
     ct_indexes := <[name := i]> (ct_indexes c) |}.

Definition column_names (t : Table) : list string := col_name <$> tab_columns t.
(** [PRAGMA table_info] of a table that is not there has no rows. *)
Definition table_info (name : string) (c : Catalog) : list Column :=
  from_option tab_columns [] (ct_tables c !! name).

(** ** Statements *)

(** An index lists the columns it shows and every column it mentions. *)
Inductive Ddl :=
| CreateTable (if_not_exists : bool) (name : string) (t : Table)
| CreateIndex (if_not_exists : bool) (name table : string) (columns : list (option string))
    (mentions : list string)
| AddColumn (table : string) (column : Column) (definition : string).

Definition sqlite_refusal (reason name : string) : StoreError := Failure (String.append reason name).

Definition execute (d : Ddl) (c : Catalog) : result Catalog StoreError :=
  match d with
  | CreateTable if_not_exists name t =>
      if is_some (ct_tables c !! name)
      then if if_not_exists then Ok c else Err (sqlite_refusal "table already exists: " name)
      else if is_some (ct_indexes c !! name)
      then Err (sqlite_refusal "there is already an index named " name)
      else Ok (with_table name t c)
  | CreateIndex if_not_exists name table columns mentions =>
      match ct_tables c !! table with
      | None => Err (sqlite_refusal "no such table: " table)
      | Some t =>
          if is_some (ct_tables c !! name)
          then Err (sqlite_refusal "there is already a table named " name)
          else if is_some (ct_indexes c !! name)
          then if if_not_exists then Ok c else Err (sqlite_refusal "index already exists: " name)
          else if forallb (λ column, bool_decide (column ∈ column_names t)) mentions
          then Ok (with_index name {| ix_table := table; ix_columns := columns |} c)
          else Err (sqlite_refusal "no such column in table " table)
      end
  | AddColumn table column definition =>
      match ct_tables c !! table with
      | None => Err (sqlite_refusal "no such table: " table)
      | Some t =>
          if bool_decide (col_name column ∈ column_names t)
          then Err (sqlite_refusal "duplicate column name: " (col_name column))
          else Ok (with_table table {| tab_columns := tab_columns t ++ [column];
                                       tab_foreign_keys := tab_foreign_keys t;
                                       tab_sql_columns :=
                                         String.append (tab_sql_columns t)
                                           (String.append ", " definition);
                                       tab_sql_rest := tab_sql_rest t |} c)
      end
  end.

Fixpoint execute_batch (l : list Ddl) (c : Catalog) : result Catalog StoreError :=
  match l with
  | [] => Ok c
  | d :: l => let? next := execute d c in execute_batch l next
  end.

(** ** The definitions of version 8 *)

Definition column (name type : string) (notnull : bool) (pk : N) : Column :=
  {| col_name := name; col_type := type; col_notnull := notnull; col_pk := pk |}.
Definition retry_column : Column := column "retry_not_before_ms" "INTEGER" false 0.

Definition tasks_table : Table :=
  {| tab_columns :=
       [column "id" "TEXT" true 1; column "state_kind" "TEXT" true 0;
        column "accepted_at" "INTEGER" true 0; column "kind_id" "TEXT" true 0;
        column "category" "TEXT" false 0; column "payload_type_id" "TEXT" true 0;
        column "payload_schema_version" "INTEGER" true 0; column "codec_id" "TEXT" true 0;
        column "correlation_key" "TEXT" false 0; column "idempotency_key" "TEXT" false 0;
        column "request_info_json" "TEXT" true 0; column "payload" "BLOB" true 0;
        column "record_format_version" "INTEGER" true 0; column "lifecycle_json" "TEXT" true 0;
        column "state_version" "INTEGER" true 0; column "attempt" "INTEGER" true 0;
        retry_column; column "started_at" "INTEGER" false 0;
        column "progress_attempt" "INTEGER" false 0; column "progress_version" "INTEGER" true 0;
        column "progress_json" "TEXT" false 0];
     tab_foreign_keys := false;
     tab_sql_columns := "CREATE TABLE tasks (id TEXT PRIMARY KEY NOT NULL CHECK(length(id)=20 AND id NOT GLOB '*[^0-9]*'), state_kind TEXT NOT NULL, accepted_at INTEGER NOT NULL, kind_id TEXT NOT NULL, category TEXT, payload_type_id TEXT NOT NULL, payload_schema_version INTEGER NOT NULL, codec_id TEXT NOT NULL, correlation_key TEXT, idempotency_key TEXT UNIQUE, request_info_json TEXT NOT NULL, payload BLOB NOT NULL, record_format_version INTEGER NOT NULL, lifecycle_json TEXT NOT NULL, state_version INTEGER NOT NULL DEFAULT 0, attempt INTEGER NOT NULL DEFAULT 0, retry_not_before_ms INTEGER, started_at INTEGER, progress_attempt INTEGER, progress_version INTEGER NOT NULL DEFAULT 0, progress_json TEXT";
     tab_sql_rest := ")" |}.
Definition metadata_table : Table :=
  {| tab_columns := [column "key" "TEXT" true 1; column "value" "INTEGER" true 0];
     tab_foreign_keys := false;
     tab_sql_columns := "CREATE TABLE metadata (key TEXT PRIMARY KEY NOT NULL, value INTEGER NOT NULL";
     tab_sql_rest := ")" |}.
Definition outbox_table : Table :=
  {| tab_columns :=
       [column "task_id" "TEXT" true 1; column "state_version" "INTEGER" true 2;
        column "event_id" "TEXT" true 0; column "event_json" "TEXT" true 0;
        column "created_at_ms" "INTEGER" true 0];
     tab_foreign_keys := false;
     tab_sql_columns := "CREATE TABLE task_event_outbox (task_id TEXT NOT NULL, state_version INTEGER NOT NULL, event_id TEXT NOT NULL, event_json TEXT NOT NULL, created_at_ms INTEGER NOT NULL";
     tab_sql_rest := ", PRIMARY KEY(task_id,state_version))" |}.
Definition quarantine_table : Table :=
  {| tab_columns :=
       [column "task_id" "TEXT" true 1; column "state_version" "INTEGER" true 2;
        column "event_id" "TEXT" true 0; column "event_json" "TEXT" true 0;
        column "created_at_ms" "INTEGER" true 0; column "quarantined_at_ms" "INTEGER" true 0;
        column "reason" "TEXT" true 0; column "last_error" "TEXT" true 0];
     tab_foreign_keys := false;
     tab_sql_columns := "CREATE TABLE task_event_outbox_quarantine (task_id TEXT NOT NULL, state_version INTEGER NOT NULL, event_id TEXT NOT NULL, event_json TEXT NOT NULL, created_at_ms INTEGER NOT NULL, quarantined_at_ms INTEGER NOT NULL, reason TEXT NOT NULL, last_error TEXT NOT NULL";
     tab_sql_rest := ", PRIMARY KEY(task_id,state_version))" |}.
Definition checkpoints_table : Table :=
  {| tab_columns :=
       [column "task_id" "TEXT" true 1; column "state_version" "INTEGER" true 0;
        column "state_json" "TEXT" true 0; column "finished_at_ms" "INTEGER" true 0];
     tab_foreign_keys := false;
     tab_sql_columns := "CREATE TABLE task_terminal_checkpoints (task_id TEXT PRIMARY KEY NOT NULL, state_version INTEGER NOT NULL CHECK(state_version >= 0), state_json TEXT NOT NULL, finished_at_ms INTEGER NOT NULL CHECK(finished_at_ms >= 0)";
     tab_sql_rest := ")" |}.

(** The indexes of [tasks]: name, columns, and columns of the condition. *)
Definition task_indexes : list (string * list (option string) * list string) :=
  [("tasks_kind_category_accepted_id", Some <$> ["kind_id"; "category"; "accepted_at"; "id"], []);
   ("tasks_category_accepted_id", Some <$> ["category"; "accepted_at"; "id"], []);
   ("tasks_state_accepted_id", Some <$> ["state_kind"; "accepted_at"; "id"], []);
   ("tasks_correlation_accepted_id", Some <$> ["correlation_key"; "accepted_at"; "id"], []);
   ("tasks_unfinished_accepted_id", Some <$> ["accepted_at"; "id"], ["state_kind"]);
   ("tasks_queued_accepted_id", Some <$> ["accepted_at"; "id"], ["state_kind"]);
   ("tasks_queued_retry_deadline", Some <$> ["retry_not_before_ms"], ["state_kind"]);
   ("tasks_terminal_finished_id", [None; Some "id"], ["lifecycle_json"; "state_kind"])]%string.

Definition create_task_index (if_not_exists : bool)
    (ix : string * list (option string) * list string) : Ddl :=
  let '(name, columns, condition) := ix in
  CreateIndex if_not_exists name "tasks" columns (omap id columns ++ condition).

Definition create_tasks : list Ddl :=
  [CreateTable false "tasks" tasks_table; CreateTable true "metadata" metadata_table] ++
  (create_task_index false <$> task_indexes).
Definition create_missing : list Ddl :=
  CreateTable true "metadata" metadata_table :: (create_task_index true <$> task_indexes).
Definition create_outbox : list Ddl :=
  let columns := ["created_at_ms"; "task_id"; "state_version"]%string in
  [CreateTable false "task_event_outbox" outbox_table;
   CreateIndex false "task_event_outbox_created" "task_event_outbox" (Some <$> columns) columns].
Definition create_quarantine : list Ddl :=
  let columns := ["quarantined_at_ms"; "task_id"; "state_version"]%string in
  [CreateTable false "task_event_outbox_quarantine" quarantine_table;
   CreateIndex false "task_event_outbox_quarantine_archived" "task_event_outbox_quarantine"
     (Some <$> columns) columns].
Definition create_checkpoints : list Ddl :=
  [CreateTable false "task_terminal_checkpoints" checkpoints_table].

(** ** Validation *)

Definition required_column (columns : list Column) (r : string * string * N) : bool :=
  let '(name, kind, primary) := r in
  existsb (λ col, bool_decide (col = column name kind true primary)) columns.

(** The first required column that is not there as it should be. *)
Definition require_columns (what : string) (required : list (string * string * N))
    (columns : list Column) : result unit StoreError :=
  match list_find (λ r, required_column columns r = false) required with
  | Some (_, (name, _, _)) =>
      Err (Failure (String.append what (String.append " `" (String.append name "`"))))
  | None => Ok tt
  end.

(** [contains], on bytes. *)
Fixpoint contains (pattern s : string) : bool :=
  String.prefix pattern s ||
  match s with EmptyString => false | String _ s => contains pattern s end.

Definition ascii_lower (a : Stdlib.Strings.Ascii.ascii) : Stdlib.Strings.Ascii.ascii :=
  let n := Stdlib.Strings.Ascii.N_of_ascii a in
  if (65 <=? n) && (n <=? 90) then Stdlib.Strings.Ascii.ascii_of_N (n + 32) else a.
(** [to_ascii_lowercase] and the removal of white space. *)
Fixpoint normalized (s : string) : string :=
  match s with
  | EmptyString => EmptyString
  | String a s1 =>
      let na := Stdlib.Strings.Ascii.N_of_ascii a in
      if ascii_white na then normalized s1 else
      let keep := String (ascii_lower a) (normalized s1) in
      match s1 with
      | String b s2 =>
          let nb := Stdlib.Strings.Ascii.N_of_ascii b in
          if white2 na nb then normalized s2 else
          match s2 with
          | String d s3 =>
              if white3 na nb (Stdlib.Strings.Ascii.N_of_ascii d) then normalized s3 else keep
          | EmptyString => keep
          end
      | EmptyString => keep
      end
  end.

Definition validate_next_schema (c : Catalog) : result unit StoreError :=
  let names := col_name <$> table_info "tasks" c in
  match list_find (λ name, name ∉ names)
          ["id"; "state_kind"; "accepted_at"; "kind_id"; "category"; "payload_type_id";
           "payload_schema_version"; "codec_id"; "request_info_json"; "payload";
           "record_format_version"; "lifecycle_json"; "state_version"; "attempt";
           "retry_not_before_ms"; "started_at"; "progress_attempt"; "progress_version";
           "progress_json"]%string with
  | Some (_, name) =>
      Err (Failure (String.append "typed SQLite task schema is missing required column `"
                      (String.append name "`")))
  | None => Ok tt
  end.

(** The index belongs to the table and shows these columns; reading the name
    of a column that is an expression fails. *)
Definition validate_index (name table : string) (columns : list string) (missing : string) (c : Catalog)
    : result unit StoreError :=
  match ct_indexes c !! name with
  | None => Err (Failure missing)
  | Some ix =>
      if negb (bool_decide (ix_table ix = table)) then Err (Failure missing) else
      match mapM id (ix_columns ix) with
      | None => Err (Failure "Invalid column type Null at index: 2, name: name")
      | Some shown => if bool_decide (shown = columns) then Ok tt else Err (Failure missing)
      end
  end.

Definition validate_outbox_schema (c : Catalog) : result unit StoreError :=
  let? _ := require_columns "SQLite event outbox has invalid required column"
    [("task_id", "TEXT", 1); ("state_version", "INTEGER", 2); ("event_id", "TEXT", 0);
     ("event_json", "TEXT", 0); ("created_at_ms", "INTEGER", 0)]%string
    (table_info "task_event_outbox" c) in
  validate_index "task_event_outbox_created" "task_event_outbox"
    ["created_at_ms"; "task_id"; "state_version"]%string
    "SQLite event outbox is missing its ordered index" c.

Definition validate_quarantine_schema (c : Catalog) : result unit StoreError :=
  let? _ := require_columns "SQLite event quarantine has invalid required column"
    [("task_id", "TEXT", 1); ("state_version", "INTEGER", 2); ("event_id", "TEXT", 0);
     ("event_json", "TEXT", 0); ("created_at_ms", "INTEGER", 0);
     ("quarantined_at_ms", "INTEGER", 0); ("reason", "TEXT", 0); ("last_error", "TEXT", 0)]%string
    (table_info "task_event_outbox_quarantine" c) in
  validate_index "task_event_outbox_quarantine_archived" "task_event_outbox_quarantine"
    ["quarantined_at_ms"; "task_id"; "state_version"]%string
    "SQLite event quarantine is missing its archive index" c.

Definition validate_checkpoint_schema (c : Catalog) : result unit StoreError :=
  let? _ := require_columns "SQLite terminal checkpoints have invalid required column"
    [("task_id", "TEXT", 1); ("state_version", "INTEGER", 0); ("state_json", "TEXT", 0);
     ("finished_at_ms", "INTEGER", 0)]%string (table_info "task_terminal_checkpoints" c) in
  match ct_tables c !! "task_terminal_checkpoints"%string with
  | None => Err (Failure "Query returned no rows")
  | Some t =>
      if tab_foreign_keys t
      then Err (Failure "SQLite terminal checkpoints must not have foreign keys")
      else if contains "check(state_version>=0)" (normalized (tab_sql t))
           && contains "check(finished_at_ms>=0)" (normalized (tab_sql t))
      then Ok tt
      else Err (Failure "SQLite terminal checkpoints are missing nonnegative value constraints")
  end.

(** ** Opening a database *)

Definition NEXT_SCHEMA_VERSION : Z := 8.

Definition legacy_version (version : Z) : string :=
  String.append "SQLite task schema version " (String.append (pretty version)
    " uses the legacy UUID format; explicit task ID mapping is required before opening with the typed task API").

(** The part of [initialize_next_schema] that brings [tasks] up to date. *)
Definition prepare_tasks (version : Z) (c : Catalog) : result Catalog StoreError :=
  let table_exists := is_some (ct_tables c !! "tasks"%string) in
  let missing := Failure "typed SQLite task schema is missing table `tasks`" in
  let? c1 := if (version =? 4)%Z then
               bail missing when negb table_exists;
               let? altered := execute_batch [AddColumn "tasks" retry_column "retry_not_before_ms INTEGER"] c in
               Ok (with_version 5 altered)
             else Ok c in
  if (4 <=? version)%Z then
    bail missing when negb table_exists;
    let? _ := validate_next_schema c1 in
    Ok c1
  else
    bail (Failure "SQLite task database contains an unversioned legacy `tasks` table; explicit task ID mapping is required before opening with the typed task API")
      when table_exists;
    let? created := execute_batch create_tasks c1 in
    Ok (with_version NEXT_SCHEMA_VERSION created).

(** On success the transaction is committed; on an error nothing changes. *)
Definition initialize_next_schema (c : Catalog) : result Catalog StoreError :=
  let version := ct_user_version c in
  bail (Failure (legacy_version version))
    when negb (version =? 0)%Z && negb ((4 <=? version)%Z && (version <=? NEXT_SCHEMA_VERSION)%Z);
  let? c1 := prepare_tasks version c in
  let? c2 := execute_batch create_missing c1 in
  let? c3 := if (version =? 0)%Z || (version =? 4)%Z || (version =? 5)%Z then
               let? created := execute_batch create_outbox c2 in
               Ok (if (version =? 4)%Z || (version =? 5)%Z then with_version 6 created else created)
             else Ok c2 in
  let? c4 := if (version <? 7)%Z then execute_batch create_quarantine c3 else Ok c3 in
  let? c5 := if (version <? NEXT_SCHEMA_VERSION)%Z then execute_batch create_checkpoints c4
             else Ok c4 in
  let c6 := if negb (version =? NEXT_SCHEMA_VERSION)%Z then with_version NEXT_SCHEMA_VERSION c5
            else c5 in
  let? _ := validate_outbox_schema c6 in
  let? _ := validate_quarantine_schema c6 in
  let? _ := validate_checkpoint_schema c6 in
  Ok c6.
