(* ===== verification/SchemaProperties.v ===== *)
(** * The SQLite schema: theorems

    What opening a database does to its catalogue: it accepts new databases and
    versions 4 to 8, leaves version 8, never drops or changes what is there
    beyond adding a column, and opening the result again changes nothing. *)

From S2P Require Import Prelude Model Schema.

Lemma append_empty s : String.append s EmptyString = s.
Proof.
  induction s as [|c s IH]; [done|].
  change (String c (String.append s EmptyString) = String c s). by rewrite IH.
Qed.
Lemma append_assoc s1 s2 s3 :
  String.append (String.append s1 s2) s3 = String.append s1 (String.append s2 s3).
Proof.
  induction s1 as [|c s1 IH]; [done|].
  change (String c (String.append (String.append s1 s2) s3) =
          String c (String.append s1 (String.append s2 s3))). by rewrite IH.
Qed.

Lemma let_ok {A B E} (r : result A E) (k : A → result B E) b :
  match r with Ok a => k a | Err e => Err e end = Ok b → ∃ a, r = Ok a ∧ k a = Ok b.
Proof. destruct r as [a|e]; [|done]. by exists a. Qed.

(** ** What a statement keeps *)

(** Tables keep their columns and may get more at the end, in their text too;
    indexes stay. *)
Record table_grows (t t' : Table) : Prop := {
  tg_columns : tab_columns t `prefix_of` tab_columns t';
  tg_keys : tab_foreign_keys t' = tab_foreign_keys t;
  tg_text : ∃ more, tab_sql_columns t' = String.append (tab_sql_columns t) more ∧
    (tab_columns t' = tab_columns t → more = EmptyString);
  tg_rest : tab_sql_rest t' = tab_sql_rest t;
}.
Record grows (a b : Catalog) : Prop := {
  gr_tables : ∀ name t, ct_tables a !! name = Some t →
    ∃ t', ct_tables b !! name = Some t' ∧ table_grows t t';
  gr_indexes : ∀ name i, ct_indexes a !! name = Some i → ct_indexes b !! name = Some i;
}.

Lemma table_grows_refl t : table_grows t t.
Proof. split; try done. exists EmptyString. by rewrite append_empty. Qed.
Lemma table_grows_trans t t1 t2 : table_grows t t1 → table_grows t1 t2 → table_grows t t2.
Proof.
  intros [Hp Hf (more & Hm & He) Hr] [Hp' Hf' (more' & Hm' & He') Hr'].
  split; [by etrans|congruence| |congruence].
  exists (String.append more more'). split; [by rewrite Hm', Hm, append_assoc|].
  intros Heq. assert (tab_columns t1 = tab_columns t) as H1.
  { apply (anti_symm prefix); [by rewrite <- Heq|done]. }
  rewrite He, He' by congruence. done.
Qed.
#[global] Instance grows_preorder : PreOrder grows.
Proof.
  split.
  - intros a. split; [|done]. intros name t Ht. exists t. auto using table_grows_refl.
  - intros a b c [Ht Hi] [Ht' Hi']. split; [|by auto].
    intros name t H. destruct (Ht _ _ H) as (t1 & H1 & Hg).
    destruct (Ht' _ _ H1) as (t2 & H2 & Hg'). exists t2. split; [done|]. by eapply table_grows_trans.
Qed.

Lemma grows_version v a : grows a (with_version v a).
Proof. split; [|done]. intros name t Ht. exists t. auto using table_grows_refl. Qed.

Lemma with_table_grows name t a : ct_tables a !! name = None → grows a (with_table name t a).
Proof.
  intros Hn. split; [|done]. intros name' t' Ht. exists t'. split; [|apply table_grows_refl].
  cbn. rewrite lookup_insert_ne; [done|]. intros ->. congruence.
Qed.

Lemma execute_grows d a b : execute d a = Ok b → grows a b.
Proof.
  destruct d as [ine name t|ine name table columns mentions|table col def]; cbn [execute].
  - destruct (ct_tables a !! name) eqn:Hn; cbn [is_some].
    + destruct ine; intros [= <-]. done.
    + case_match; intros [= <-]. by apply with_table_grows.
  - destruct (ct_tables a !! table) as [t|]; [|done]. case_match; [done|].
    destruct (ct_indexes a !! name) eqn:Hi; cbn [is_some].
    + destruct ine; intros [= <-]. done.
    + case_match; intros [= <-]. split; cbn.
      * intros n t' Ht. exists t'. auto using table_grows_refl.
      * intros n i Hi'. rewrite lookup_insert_ne; [done|]. intros ->. congruence.
  - destruct (ct_tables a !! table) as [t|] eqn:Ht; [|done]. case_match; intros [= <-].
    split; [|done]. intros name t' H'. cbn. destruct (decide (name = table)) as [->|Hne].
    + rewrite Ht in H'. injection H' as <-. eexists. rewrite lookup_insert_eq. split; [done|].
      split; [by apply prefix_app_r|done| |done]. eexists. split; [done|]. cbn. intros Hl.
      by apply (f_equal length) in Hl; rewrite length_app in Hl; cbn in Hl; lia.
    + rewrite lookup_insert_ne by done. exists t'. auto using table_grows_refl.
Qed.

Lemma execute_version d a b : execute d a = Ok b → ct_user_version b = ct_user_version a.
Proof. destruct d; cbn [execute]; intros H; repeat case_match; by simplify_eq. Qed.

Lemma batch_grows l a b : execute_batch l a = Ok b → grows a b.
Proof.
  revert a. induction l as [|d l IH]; intros a; cbn; [by intros [= <-]|].
  destruct (execute d a) as [a1|] eqn:Hd; [|done]. intros Hl.
  etrans; [by eapply execute_grows|by apply IH].
Qed.
Lemma batch_version l a b : execute_batch l a = Ok b → ct_user_version b = ct_user_version a.
Proof.
  revert a. induction l as [|d l IH]; intros a; cbn; [by intros [= <-]|].
  destruct (execute d a) as [a1|] eqn:Hd; [|done]. intros Hl%IH.
  apply execute_version in Hd. congruence.
Qed.

Lemma batch_cons d l a b :
  execute_batch (d :: l) a = Ok b → ∃ a1, execute d a = Ok a1 ∧ execute_batch l a1 = Ok b.
Proof. cbn [execute_batch]. destruct (execute d a) as [a1|]; [|done]. by exists a1. Qed.

Lemma create_table_new name t a b :
  execute (CreateTable false name t) a = Ok b → b = with_table name t a.
Proof. cbn [execute]. repeat case_match; intros ?; by simplify_eq. Qed.

(** ** What is there already *)

(** The statement finds what it would create. *)
Definition present (d : Ddl) (a : Catalog) : Prop :=
  match d with
  | CreateTable ine name _ => ine = true ∧ is_Some (ct_tables a !! name)
  | CreateIndex ine name table _ _ =>
      ine = true ∧ is_Some (ct_tables a !! table) ∧ ct_tables a !! name = None ∧
      is_Some (ct_indexes a !! name)
  | AddColumn _ _ _ => False
  end.

Lemma present_execute d a : present d a → execute d a = Ok a.
Proof.
  destruct d as [ine name t|ine name table columns mentions|table col def]; cbn; [| |done].
  - intros [-> [t' ->]]. done.
  - intros (-> & [t ->] & -> & [i ->]). done.
Qed.

Lemma present_batch l a : Forall (λ d, present d a) l → execute_batch l a = Ok a.
Proof.
  induction 1 as [|d l Hd _ IH]; cbn; [done|]. by rewrite (present_execute d a Hd).
Qed.

Definition if_missing (d : Ddl) : bool :=
  match d with
  | CreateTable ine _ _ => ine | CreateIndex ine _ _ _ _ => ine | AddColumn _ _ _ => false
  end.

Lemma execute_present d a b : if_missing d = true → execute d a = Ok b → present d b.
Proof.
  destruct d as [ine name t|ine name table columns mentions|table col def]; cbn; [intros ->..|done].
  - destruct (ct_tables a !! name) eqn:Hn; cbn [is_some].
    + intros [= <-]. by rewrite Hn.
    + case_match; intros [= <-]. cbn. rewrite lookup_insert_eq. by eauto.
  - destruct (ct_tables a !! table) as [t|] eqn:Ht; [|done].
    destruct (ct_tables a !! name) eqn:Hn; cbn [is_some]; [done|].
    destruct (ct_indexes a !! name) eqn:Hi; cbn [is_some].
    + intros [= <-]. rewrite Ht, Hn, Hi. by eauto.
    + case_match; intros [= <-]. cbn. rewrite lookup_insert_eq, Ht, Hn. by eauto.
Qed.

(** No later statement takes the name of an index. *)
Lemma execute_no_table d a b name :
  execute d a = Ok b → is_Some (ct_indexes a !! name) → ct_tables a !! name = None →
  ct_tables b !! name = None.
Proof.
  intros Hd [i Hi] Hn. destruct d as [ine name' t|ine name' table columns mentions|table col def]; cbn in Hd.
  - repeat case_match; simplify_eq; try done. cbn. rewrite lookup_insert_ne; [done|].
    intros ->. by rewrite Hi in *.
  - repeat case_match; by simplify_eq.
  - repeat case_match; simplify_eq. cbn. rewrite lookup_insert_ne; [done|]. intros ->. congruence.
Qed.

Lemma present_mono d d' a b : execute d' a = Ok b → present d a → present d b.
Proof.
  intros Hd. pose proof (execute_grows _ _ _ Hd) as [Ht Hi].
  destruct d as [ine name t|ine name table columns mentions|table col def]; cbn; [| |done].
  - intros [-> [t' H]]. split; [done|]. destruct (Ht _ _ H) as (t1 & -> & _). done.
  - intros (-> & [t H] & Hn & [i Hi']). split_and!; [done| | |].
    + destruct (Ht _ _ H) as (t1 & -> & _). done.
    + by eapply execute_no_table.
    + by rewrite (Hi _ _ Hi').
Qed.

Lemma present_batch_mono l d a b : execute_batch l a = Ok b → present d a → present d b.
Proof.
  revert a. induction l as [|d' l IH]; intros a; cbn; [by intros [= <-]|].
  destruct (execute d' a) as [a1|] eqn:Hd; [|done]. intros Hl Hp.
  eapply IH; [done|]. by eapply present_mono.
Qed.

Lemma batch_present l a b :
  Forall (λ d, if_missing d = true) l → execute_batch l a = Ok b → Forall (λ d, present d b) l.
Proof.
  intros Hl. revert a. induction Hl as [|d l Hd _ IH]; intros a; cbn; [done|].
  destruct (execute d a) as [a1|] eqn:Ha; [|done]. intros Hb. constructor; [|by eapply IH].
  eapply present_batch_mono; [done|]. by eapply execute_present.
Qed.

(** ** Opening *)

Lemma validate_next_grows a b :
  grows a b → validate_next_schema a = Ok tt → validate_next_schema b = Ok tt.
Proof.
  intros Hg. unfold validate_next_schema. set (required := ["id"%string; _; _; _; _; _; _; _; _; _; _;
    _; _; _; _; _; _; _; _]). clearbody required.
  assert (∀ name, name ∈ col_name <$> table_info "tasks" a → name ∈ col_name <$> table_info "tasks" b) as Hsub.
  { unfold table_info. destruct (ct_tables a !! "tasks"%string) as [t|] eqn:Ht; cbn; [|set_solver].
    destruct (gr_tables _ _ Hg _ _ Ht) as (t' & -> & [[more Hp] _ _ _]). cbn. rewrite Hp, fmap_app. set_solver. }
  destruct (list_find _ required) as [[i n]|] eqn:Ha in |- *; [done|]. intros _.
  destruct (list_find (λ name, name ∉ col_name <$> table_info "tasks" b) required) as [[i n]|] eqn:Hb; [|done].
  apply list_find_Some in Hb as (Hi & Hn & _). apply list_find_None in Ha.
  rewrite Forall_forall in Ha. specialize (Ha n (list_elem_of_lookup_2 _ _ _ Hi)).
  exfalso. apply Ha. intros Hin. by apply Hn, Hsub.
Qed.

Lemma prepare_tasks_spec version a b :
  prepare_tasks version a = Ok b →
  grows a b ∧ validate_next_schema b = Ok tt ∧
  (version <> 4 → 4 ≤ version → b = a)%Z ∧
  (4 ≤ version ∧ is_Some (ct_tables a !! "tasks"%string) ∨
   version < 4 ∧ ct_tables a !! "tasks"%string = None)%Z.
Proof.
  unfold prepare_tasks. destruct (Z.eqb_spec version 4) as [->|Hne].
  - destruct (ct_tables a !! "tasks"%string) as [t|] eqn:Ht; [|done]. cbn [is_some negb].
    destruct (execute_batch _ a) as [a1|] eqn:Hb; [|done]. cbn [Z.leb Z.compare Pos.compare].
    change (4 <=? 4)%Z with true. cbn iota.
    destruct (validate_next_schema _) as [[]|] eqn:Hv; [|done]. intros [= <-].
    split_and!; [|done|done|left; by eauto]. etrans; [by eapply batch_grows|apply grows_version].
  - destruct (Z.leb_spec 4 version).
    + destruct (ct_tables a !! "tasks"%string) as [t|] eqn:Ht; [|done]. cbn [is_some negb].
      destruct (validate_next_schema a) as [[]|] eqn:Hv; [|done]. intros [= <-].
      split_and!; [done|done|done|left; by eauto].
    + destruct (ct_tables a !! "tasks"%string) as [t|] eqn:Ht; [done|]. cbn [is_some].
      destruct (execute_batch create_tasks a) as [a1|] eqn:Hb; [|done]. intros [= <-].
      split_and!; [|..|lia|by right].
      * etrans; [by eapply batch_grows|apply grows_version].
      * apply (validate_next_grows (with_table "tasks" tasks_table a)); [|].
        -- destruct (batch_cons _ _ _ _ Hb) as (a2 & Hd & Hl). apply create_table_new in Hd as ->.
           etrans; [by eapply batch_grows|apply grows_version].
        -- unfold validate_next_schema, table_info. cbn [with_table ct_tables].
           rewrite lookup_insert_eq. vm_compute. reflexivity.
Qed.

Lemma create_missing_if_missing : Forall (λ d, if_missing d = true) create_missing.
Proof. by repeat constructor. Qed.

(** A later catalogue of the same transaction. *)
Definition later (a b : Catalog) : Prop := grows a b ∧ ∀ d, present d a → present d b.
#[global] Instance later_preorder : PreOrder later.
Proof.
  split; [by intros a; split|]. intros a b c [Hg Hp] [Hg' Hp']. split; [by etrans|by auto].
Qed.
Lemma later_batch l a b : execute_batch l a = Ok b → later a b.
Proof. intros H. split; [by eapply batch_grows|]. intros d. by apply (present_batch_mono l). Qed.
Lemma later_version v a : later a (with_version v a).
Proof. split; [apply grows_version|]. by intros []. Qed.

Lemma outbox_later version a b :
  (if (version =? 0)%Z || (version =? 4)%Z || (version =? 5)%Z then
     let? created := execute_batch create_outbox a in
     Ok (if (version =? 4)%Z || (version =? 5)%Z then with_version 6 created else created)
   else Ok a) = Ok b → later a b ∧ (version = 8 → b = a)%Z.
Proof.
  intros H. split; [|intros ->; by injection H].
  destruct ((version =? 0)%Z || _ || _); [|by injection H as <-].
  destruct (execute_batch create_outbox a) as [a1|] eqn:Hb; [|done]. injection H as <-.
  etrans; [by eapply later_batch|]. case_match; [apply later_version|done].
Qed.

Lemma batch_if_later (test : bool) l a b :
  (if test then execute_batch l a else Ok a) = Ok b → later a b ∧ (test = false → b = a).
Proof.
  destruct test; intros H; [|by injection H as <-]. split; [by eapply later_batch|done].
Qed.

(** A catalogue of version 8 with everything in place is left alone. *)
Lemma initialize_ready a :
  ct_user_version a = 8%Z → is_Some (ct_tables a !! "tasks"%string) →
  validate_next_schema a = Ok tt → Forall (λ d, present d a) create_missing →
  validate_outbox_schema a = Ok tt → validate_quarantine_schema a = Ok tt →
  validate_checkpoint_schema a = Ok tt → initialize_next_schema a = Ok a.
Proof.
  intros Hv [t Ht] Hn Hp V1 V2 V3. unfold initialize_next_schema, prepare_tasks.
  rewrite Hv, Ht. cbn -[create_missing execute_batch]. rewrite Hn.
  rewrite (present_batch create_missing a Hp). by rewrite V1, V2, V3.
Qed.

Lemma initialize_effect c c' :
  initialize_next_schema c = Ok c' →
  (ct_user_version c = 0 ∧ ct_tables c !! "tasks"%string = None ∨
   4 ≤ ct_user_version c ≤ 8 ∧ is_Some (ct_tables c !! "tasks"%string))%Z ∧
  ct_user_version c' = NEXT_SCHEMA_VERSION ∧ grows c c' ∧ initialize_next_schema c' = Ok c'.
Proof.
  intros H. unfold initialize_next_schema in H. destruct (negb _ && negb _) eqn:Hver; [done|].
  apply let_ok in H as (c1 & H1 & H). apply let_ok in H as (c2 & H2 & H).
  apply let_ok in H as (c3 & H3 & H). apply let_ok in H as (c4 & H4 & H).
  apply let_ok in H as (c5 & H5 & H). set (v := ct_user_version c) in *. cbv zeta in H.
  set (c6 := if negb (v =? NEXT_SCHEMA_VERSION)%Z then with_version NEXT_SCHEMA_VERSION c5 else c5) in *.
  apply let_ok in H as ([] & V1 & H). apply let_ok in H as ([] & V2 & H).
  apply let_ok in H as ([] & V3 & H). injection H as <-.
  destruct (prepare_tasks_spec _ _ _ H1) as (G1 & N1 & E1 & Htasks).
  pose proof (batch_present _ _ _ create_missing_if_missing H2) as P2.
  apply outbox_later in H3 as [L3 E3]. apply batch_if_later in H4 as [L4 E4].
  apply batch_if_later in H5 as [L5 E5].
  assert (later c5 c6) as L6 by (subst c6; case_match; [apply later_version|done]).
  assert (later c2 c6) as [G26 P26] by (by etrans; [|etrans; [|etrans]]).
  assert (grows c1 c6) as G16 by (etrans; [by eapply batch_grows|done]).
  assert (grows c c6) as G by by etrans.
  assert (ct_user_version c6 = NEXT_SCHEMA_VERSION) as Hv6.
  { subst c6. destruct (Z.eqb_spec v NEXT_SCHEMA_VERSION) as [Hv|]; [|done]. cbn.
    unfold NEXT_SCHEMA_VERSION in *. rewrite E5, E4, E3 by (done || lia).
    rewrite (batch_version _ _ _ H2). by rewrite E1 by lia. }
  unfold NEXT_SCHEMA_VERSION in *.
  assert (v = 0 ∨ 4 ≤ v ≤ 8)%Z as Hrange by lia.
  split.
  { destruct Htasks as [[? ?]|[? ?]]; [right|left]; (split; [lia|done]). }
  split; [done|]. split; [done|].
  apply initialize_ready; try done.
  - assert (is_Some (ct_tables c1 !! "tasks"%string)) as [t Ht].
    { destruct (ct_tables c1 !! "tasks"%string) eqn:Ht; [done|]. exfalso.
      unfold validate_next_schema, table_info in N1. rewrite Ht in N1. by vm_compute in N1. }
    destruct (gr_tables _ _ G16 _ _ Ht) as (t' & -> & _). done.
  - by apply (validate_next_grows c1).
  - eapply Forall_impl; [exact P2|]. done.
Qed.

(** ** The theorem *)

(** C35. Opening a database, on every catalogue: it is accepted only if it is
    new and has no table of tasks, or if it has version 4 to 8 and a table of
    tasks; then it has version 8 afterwards, no table, column, index or
    constraint that was there is lost, and opening it again accepts it and
    changes nothing. *)
Theorem schema_exact c c' :
  initialize_next_schema c = Ok c' →
  (ct_user_version c = 0 ∧ ct_tables c !! "tasks"%string = None ∨
   4 ≤ ct_user_version c ≤ 8 ∧ is_Some (ct_tables c !! "tasks"%string))%Z ∧
  ct_user_version c' = NEXT_SCHEMA_VERSION ∧ grows c c' ∧ initialize_next_schema c' = Ok c'.
Proof. apply initialize_effect. Qed.

(** ** The versions in use *)

Definition after_batch (l : list Ddl) (a : Catalog) : Catalog :=
  match execute_batch l a with Ok b => b | Err _ => a end.
Definition new_database : Catalog := {| ct_user_version := 0; ct_tables := ∅; ct_indexes := ∅ |}.
(** Version 4 had no time of the next retry. *)
Definition tasks_table_4 : Table :=
  {| tab_columns := filter (λ col, col ≠ retry_column) (tab_columns tasks_table);
     tab_foreign_keys := false;
     tab_sql_columns := "CREATE TABLE tasks (id TEXT PRIMARY KEY NOT NULL CHECK(length(id)=20 AND id NOT GLOB '*[^0-9]*'), state_kind TEXT NOT NULL, accepted_at INTEGER NOT NULL, kind_id TEXT NOT NULL, category TEXT, payload_type_id TEXT NOT NULL, payload_schema_version INTEGER NOT NULL, codec_id TEXT NOT NULL, correlation_key TEXT, idempotency_key TEXT UNIQUE, request_info_json TEXT NOT NULL, payload BLOB NOT NULL, record_format_version INTEGER NOT NULL, lifecycle_json TEXT NOT NULL, state_version INTEGER NOT NULL DEFAULT 0, attempt INTEGER NOT NULL DEFAULT 0, started_at INTEGER, progress_attempt INTEGER, progress_version INTEGER NOT NULL DEFAULT 0, progress_json TEXT";
     tab_sql_rest := ")" |}.
Definition task_indexes_4 : list Ddl :=
  create_task_index false <$>
    filter (λ ix, ix.1.1 ≠ "tasks_queued_retry_deadline"%string) task_indexes.

Definition schema_at (version : Z) : Catalog :=
  if (version <? 4)%Z then new_database else
  if (version =? 4)%Z
  then with_version 4 (after_batch ([CreateTable false "tasks" tasks_table_4;
                                  CreateTable true "metadata" metadata_table] ++ task_indexes_4)
                         new_database)
  else
    let tables := create_tasks ++ (if (version <? 6)%Z then [] else create_outbox) ++
                  (if (version <? 7)%Z then [] else create_quarantine) ++
                  (if (version <? 8)%Z then [] else create_checkpoints) in
    with_version version (after_batch tables new_database).

(** Every version in use is accepted, and its migration has every table. *)
Lemma schema_migrates :
  Forall (λ version, match initialize_next_schema (schema_at version) with
                     | Ok c => bool_decide (dom (ct_tables c) = dom (ct_tables (schema_at 8))) &&
                               bool_decide (dom (ct_indexes c) = dom (ct_indexes (schema_at 8)))
                     | Err _ => false
                     end = true) [0; 4; 5; 6; 7; 8]%Z.
Proof. repeat constructor; vm_compute; reflexivity. Qed.

Lemma schema_exact_witness :
  ∃ c', initialize_next_schema (schema_at 4) = Ok c' ∧ ct_user_version c' = 8%Z ∧
        initialize_next_schema c' = Ok c'.
Proof.
  destruct (initialize_next_schema (schema_at 4)) as [c'|e] eqn:H;
    [|vm_compute in H; discriminate H].
  exists c'. destruct (schema_exact _ _ H) as (_ & Hv & _ & Hi). split; [reflexivity|]. split; [exact Hv|exact Hi].
Defined.

(** A table of tasks without the column of idempotency keys passes every check,
    although accepting a task writes that column. *)
Definition without_keys : Catalog :=
  with_table "tasks"
    {| tab_columns := filter (λ col, col_name col ≠ "idempotency_key"%string)
                        (tab_columns tasks_table);
       tab_foreign_keys := false; tab_sql_columns := tab_sql_columns tasks_table;
     tab_sql_rest := tab_sql_rest tasks_table |} (schema_at 8).
Lemma schema_keys_unchecked :
  bool_decide ("idempotency_key"%string ∈ col_name <$> table_info "tasks" without_keys) = false ∧
  is_ok (initialize_next_schema without_keys) = true.
Proof. split; vm_compute; reflexivity. Qed.
