(* ===== verification/TaskStore.v ===== *)
(** * The store interface

    [src/src/store/task_store.rs]: the operations of the [TaskStore] trait on
    tasks, and what the service relies on.  The in-memory store and
    the SQLite store are instances; the service is modelled and proved against
    the interface only. *)

From S2P Require Import Prelude TaskState Model MemoryStore MemoryInvariant MemoryPreservation.
From S2P Require Import MemoryHistory MemoryQueries MemorySpec SqliteStore SqliteAdmin.
From S2P Require Import SqliteInvariant SqliteRefinement SqliteQueries SqlitePruning SqliteOutbox SqliteHistory.

Section interface.
Context `{ET : !ExternalTypes, SJ : !SnapshotJson}.
Implicit Types (task : StoredTask) (t : TaskSummary) (id : TaskId).

(** The first argument of the writes is the time the store's clock shows. *)
Class TaskStore (S : Type) := {
  do_accept : N → TaskId → StoredTaskRequest → S → result AcceptOutcome StoreError * S;
  do_get : TaskId → S → result (option StoredTask) StoreError;
  do_checkpoint : TaskId → S → result (option TaskStateCheckpoint) StoreError;
  do_start : N → StartCommand → S → result TaskSummary StoreError * S;
  do_transition : N → TransitionCommand → S → result TaskSummary StoreError * S;
  do_progress : ProgressCommand → S → result TaskSummary StoreError * S;
  do_list : TaskQuery → S → result TaskPage StoreError;
  do_ready : option TaskCursor → N → N → S → result TaskPage StoreError;
  do_next_deadline : N → S → result (option N) StoreError;
  do_prune : N → N → S → result N StoreError * S;
}.

(** A write of one task: nothing else changes, except that finished tasks may
    be dropped from the history. *)
Definition dropped_at_most (m m' : gmap TaskId StoredTask) id : Prop :=
  m' !! id = m !! id ∨ (m' !! id = None ∧ ∃ task, m !! id = Some task ∧ task_terminal task = true).

Record task_written id task (m m' : gmap TaskId StoredTask) : Prop := {
  tw_self : m' !! id = Some task ∨ (m' !! id = None ∧ task_terminal task = true);
  tw_others : ∀ id', id' ≠ id → dropped_at_most m m' id';
}.

(** The outcome of a compare-and-set transition on the tasks [m]. *)
Definition transition_outcome (c : TransitionCommand) (m m' : gmap TaskId StoredTask)
    (res : result TaskSummary StoreError) : Prop :=
  match res with
  | Ok t => ∃ task, m !! tc_id c = Some task ∧ transition_allowed c (st_summary task) ∧
      t = settle_state c (ts_state_version (st_summary task) + 1) (enter_state c (st_summary task)) ∧
      task_written (tc_id c) {| st_request := st_request task; st_summary := t |} m m'
  | Err e => m' = m ∧
      (e = Conflict → ∃ task, m !! tc_id c = Some task ∧
         transition_conflicts c (st_summary task) = true) ∧
      (e = NotFound → m !! tc_id c = None)
  end.

Definition start_outcome (c : StartCommand) (m m' : gmap TaskId StoredTask)
    (res : result TaskSummary StoreError) : Prop :=
  match res with
  | Ok t => ∃ task, m !! sc_id c = Some task ∧ ts_state (st_summary task) = Queued ∧
      ts_state_version (st_summary task) = sc_expected_state_version c ∧
      t = started_summary (ts_attempt (st_summary task) + 1) (sc_started_at_ms c)
            (with_state_version (ts_state_version (st_summary task) + 1) (st_summary task)) ∧
      m' = <[sc_id c := {| st_request := st_request task; st_summary := t |}]> m
  | Err e => m' = m
  end.

(** A progress report touches nothing but the progress of a running attempt. *)
Definition progress_outcome (c : ProgressCommand) (m m' : gmap TaskId StoredTask)
    (res : result TaskSummary StoreError) : Prop :=
  match res with
  | Ok t => ∃ task p, m !! pc_id c = Some task ∧ ts_state (st_summary task) = Running ∧
      ts_attempt (st_summary task) = pc_expected_attempt c ∧
      tps_attempt p = pc_expected_attempt c ∧ tps_progress_version p = pc_progress_version c ∧
      (∀ q, ts_progress (st_summary task) = Some q →
         tps_progress_version q < tps_progress_version p) ∧
      t = with_progress p (st_summary task) ∧
      m' = <[pc_id c := {| st_request := st_request task; st_summary := t |}]> m
  | Err e => m' = m
  end.

(** The task an accepted request stands for: a new one under the generated
    identifier, or the one that holds the request's idempotency key. *)
Definition accept_outcome id (r : StoredTaskRequest) (m m' : gmap TaskId StoredTask)
    (res : result AcceptOutcome StoreError) : Prop :=
  match res with
  | Ok out => ∃ task, m' !! ts_id (ao_summary out) = Some task ∧ st_summary task = ao_summary out ∧
      (if ao_created out then ts_id (ao_summary out) = id ∧ m !! id = None ∧ st_request task = r ∧
                              ts_state (ao_summary out) = Queued
       else m' = m ∧ is_Some (sr_idempotency_key r) ∧
            sr_idempotency_key (st_request task) = sr_idempotency_key r)
  | Err _ => m' = m
  end.

(** Counters that a write of the task cannot exhaust. *)
Definition has_room id (m : gmap TaskId StoredTask) : Prop :=
  ∀ task, m !! id = Some task →
    ts_state_version (st_summary task) < u64_max ∧ ts_attempt (st_summary task) < u32_max.

(** Pruning removes finished tasks, at most [rows], and says how many; it may
    fail. *)
Definition prune_outcome (rows : N) (m m' : gmap TaskId StoredTask) (res : result N StoreError) : Prop :=
  match res with
  | Ok n => ∃ removed, NoDup removed ∧ n = N.of_nat (length removed) ∧ n ≤ rows ∧
      (∀ id, m' !! id = if decide (id ∈ removed) then None else m !! id) ∧
      ∀ id, id ∈ removed → ∃ task, m !! id = Some task ∧ task_terminal task = true
  | Err _ => m' = m
  end.

Class TaskStoreLaws (S : Type) `{!TaskStore S} := {
  tasks_of : S → gmap TaskId StoredTask;
  store_ok : S → Prop;
  cursor_fits : TaskCursor → Prop;
  (** The store refuses no transition the lifecycle allows. *)
  reliable : Prop;
  law_task : ∀ s id task, store_ok s → tasks_of s !! id = Some task →
    task_wf id task ∧ cursor_fits (TaskCursor_from (st_summary task));
  law_get : ∀ s id, store_ok s → do_get id s = Ok (tasks_of s !! id);
  law_checkpoint : ∀ s id task, store_ok s → tasks_of s !! id = Some task →
    do_checkpoint id s = Ok (Some (checkpoint_of task));
  law_checkpoint_ok : ∀ s id, store_ok s → is_ok (do_checkpoint id s) = true;
  law_transition : ∀ s now c, store_ok s → has_room (tc_id c) (tasks_of s) →
    store_ok (do_transition now c s).2 ∧
    transition_outcome c (tasks_of s) (tasks_of (do_transition now c s).2) (do_transition now c s).1;
  law_reliable : ∀ s now c task, reliable → store_ok s → has_room (tc_id c) (tasks_of s) →
    tasks_of s !! tc_id c = Some task → transition_allowed c (st_summary task) →
    is_ok (do_transition now c s).1 = true;
  law_start : ∀ s now c, store_ok s → has_room (sc_id c) (tasks_of s) →
    store_ok (do_start now c s).2 ∧
    start_outcome c (tasks_of s) (tasks_of (do_start now c s).2) (do_start now c s).1;
  law_progress : ∀ s c, store_ok s →
    store_ok (do_progress c s).2 ∧
    progress_outcome c (tasks_of s) (tasks_of (do_progress c s).2) (do_progress c s).1;
  law_list : ∀ s q size, store_ok s → checked_page_size q = Ok size →
    (∀ c, tq_after q = Some c → cursor_fits c) →
    do_list q s = Ok (page_of size (selection q (tasks_of s)));
  law_ready : ∀ s after limit now page t, store_ok s → do_ready after limit now s = Ok page →
    t ∈ pg_records page → ts_state t = Queued ∧
    ∃ task, tasks_of s !! ts_id t = Some task ∧ st_summary task = t;
  law_accept : ∀ s now id r, store_ok s →
    store_ok (do_accept now id r s).2 ∧
    (∀ id', id' ≠ id → dropped_at_most (tasks_of s) (tasks_of (do_accept now id r s).2) id') ∧
    (is_Some (tasks_of s !! id) → dropped_at_most (tasks_of s) (tasks_of (do_accept now id r s).2) id) ∧
    accept_outcome id r (tasks_of s) (tasks_of (do_accept now id r s).2) (do_accept now id r s).1;
  law_prune : ∀ s before rows, store_ok s →
    store_ok (do_prune before rows s).2 ∧
    prune_outcome rows (tasks_of s) (tasks_of (do_prune before rows s).2) (do_prune before rows s).1;
}.
End interface.

Arguments TaskStoreLaws {_} S {_}.

(** ** The in-memory store *)

Section memory.
Context `{ET : !ExternalTypes, SJ : !SnapshotJson}.
Context (lim : MemoryLimits) (Hlim : limits_ok lim).
Implicit Types (s : MemoryState).

#[local] Instance memory_task_store : TaskStore MemoryState :=
  {| do_accept := λ now id r s, accept_encoded lim now id r s;
     do_get := λ id s, Ok (get_encoded_task id s);
     do_checkpoint := λ id s, Ok (get_state_checkpoint id s);
     do_start := λ _ c s, start_encoded c s;
     do_transition := λ _ c s, transition_encoded lim c s;
     do_progress := update_progress;
     do_list := list_encoded;
     do_ready := list_ready_queued;
     do_next_deadline := λ now s, Ok (next_retry_deadline now s);
     do_prune := λ before rows s, let '(n, s) := prune_terminal_before before rows s in (Ok n, s) |}.

Lemma put_written id task t s :
  task_written id {| st_request := st_request task; st_summary := t |} (ms_encoded_tasks s)
    (ms_encoded_tasks (put_summary id task t s)).
Proof.
  split.
  - left. apply lookup_insert_eq.
  - intros id' Hne. left. by apply lookup_insert_ne.
Qed.

Lemma evicted_written n id task s0 s s' :
  core_wf lim s → evicted lim n s s' →
  task_written id task (ms_encoded_tasks s0) (ms_encoded_tasks s) →
  ms_encoded_tasks s !! id = Some task →
  task_written id task (ms_encoded_tasks s0) (ms_encoded_tasks s').
Proof.
  intros Hwf Hev [_ Ho] Hid.
  assert (∀ i x, ms_encoded_tasks s !! i = Some x → ms_encoded_tasks s' !! i = Some x ∨
    (ms_encoded_tasks s' !! i = None ∧ task_terminal x = true)) as Hk.
  { intros i x Hi. destruct (task_terminal x) eqn:Ht.
    - destruct (ms_encoded_tasks s' !! i) as [y|] eqn:Hi'; [|by right].
      left. apply (evicted_subset _ _ _ _ _ _ Hev) in Hi'. congruence.
    - left. by eapply (evicted_nonterminal lim Hlim). }
  split; [by apply Hk|]. intros i Hne. unfold dropped_at_most.
  destruct (ms_encoded_tasks s !! i) as [x|] eqn:Hi.
  - destruct (Ho i Hne) as [Heq|[Heq _]]; [|congruence]. rewrite Hi in Heq.
    destruct (Hk i x Hi) as [->|[-> Ht]]; [by left|]. right. split; [done|]. by exists x.
  - assert (ms_encoded_tasks s' !! i = None) as ->.
    { destruct (ms_encoded_tasks s' !! i) as [y|] eqn:Hi'; [|done].
      apply (evicted_subset _ _ _ _ _ _ Hev) in Hi'. congruence. }
    destruct (Ho i Hne) as [Heq|[_ Hx]]; [left; congruence|by right].
Qed.

Lemma memory_transition_law s c :
  wf lim s → has_room (tc_id c) (ms_encoded_tasks s) →
  wf lim (transition_encoded lim c s).2 ∧
  transition_outcome c (ms_encoded_tasks s) (ms_encoded_tasks (transition_encoded lim c s).2)
    (transition_encoded lim c s).1.
Proof.
  intros Hwf Hroom.
  destruct (transition_cases lim c s) as [[e Heq]|(task & Hid & Hta & [[Hv _]|[Hv Heq]])].
  - pose proof (transition_encoded_wf lim Hlim c s Hwf) as Hwf'. rewrite Heq in *. split.
    { done. }
    split; [done|]. unfold transition_encoded in Heq.
    destruct (validate_diagnostics _); [|by injection Heq as <-].
    destruct (validate_encoded_output _ _) as [|e'] eqn:Hvo.
    2:{ unfold validate_encoded_output in Hvo. injection Heq as ->. by split_matches. }
    destruct (ms_encoded_tasks s !! tc_id c) as [task|] eqn:Hid; [|by injection Heq as <-].
    destruct (transition_conflicts c (st_summary task)) eqn:Hc.
    { injection Heq as <-. split; [by eauto|done]. }
    destruct (_ && _); [by injection Heq as <-|]. destruct (_ && _); [by injection Heq as <-|].
    destruct (checked_add _ _ _); [done|]. by injection Heq as <-.
  - destruct (Hroom task Hid). lia.
  - split.
    { apply transition_encoded_wf; [done|done|]. by rewrite Heq. }
    rewrite Heq. simpl. exists task. split_and!; [done..|].
    set (t2 := settle_state _ _ _) in *. destruct (_ && _) eqn:Hterm; [|apply put_written].
    apply andb_true_iff in Hterm as [Hold%negb_true_iff Hnew]. destruct Hwf as [Hwf Hh].
    pose proof (settled_task_wf _ _ c _ (cwf_task lim s Hwf _ _ Hid) Hta Hv) as Htw.
    edestruct (record_terminal_spec lim Hlim (tc_id c) task t2 s) as (n & Hev & _); [done..|].
    eapply evicted_written; [|done|apply put_written|apply lookup_insert_eq].
    by eapply terminalize_core_wf.
Qed.

Lemma memory_start_law s c :
  wf lim s → has_room (sc_id c) (ms_encoded_tasks s) →
  wf lim (start_encoded c s).2 ∧
  start_outcome c (ms_encoded_tasks s) (ms_encoded_tasks (start_encoded c s).2) (start_encoded c s).1.
Proof.
  intros Hwf Hroom. split; [by apply start_encoded_wf|]. unfold start_encoded.
  destruct (ms_encoded_tasks s !! sc_id c) as [task|] eqn:Hid; [|done].
  destruct (Hroom task Hid) as [Hv Ha]. destruct (_ || _) eqn:Hg; [done|]. bool_prop.
  assert (checked_add u64_max (ts_state_version (st_summary task)) 1 =
          Some (ts_state_version (st_summary task) + 1)) as -> by (apply checked_add_Some; lia).
  assert (checked_add u32_max (ts_attempt (st_summary task)) 1 =
          Some (ts_attempt (st_summary task) + 1)) as -> by (apply checked_add_Some; lia). simpl.
  exists task. naive_solver.
Qed.

Lemma memory_accept_law now id r s :
  wf lim s →
  wf lim (accept_encoded lim now id r s).2 ∧
  (∀ id', id' ≠ id → dropped_at_most (ms_encoded_tasks s)
     (ms_encoded_tasks (accept_encoded lim now id r s).2) id') ∧
  (is_Some (ms_encoded_tasks s !! id) → dropped_at_most (ms_encoded_tasks s)
     (ms_encoded_tasks (accept_encoded lim now id r s).2) id) ∧
  accept_outcome id r (ms_encoded_tasks s) (ms_encoded_tasks (accept_encoded lim now id r s).2)
    (accept_encoded lim now id r s).1.
Proof.
  intros Hwf. split; [by apply accept_encoded_wf|].
  assert (∀ id', dropped_at_most (ms_encoded_tasks s) (ms_encoded_tasks s) id') as Hsame by (by left).
  unfold accept_encoded. destruct (_ || _); [done|].
  destruct (_ ≫= _) as [held|] eqn:Hm.
  { destruct (ms_encoded_tasks s !! held) as [task|] eqn:Hh; [|done].
    destruct (negb _) eqn:Heq; [done|].
    apply negb_false_iff, andb_true_iff in Heq as [_ Heq%bool_decide_eq_true].
    split_and!; [done..|]. cbn. exists task.
    rewrite (twf_id _ _ (cwf_task lim s (wf_core _ _ Hwf) _ _ Hh)), Hh.
    split_and!; [done..| |done]. by destruct (sr_idempotency_key r). }
  pose proof (accept_new_spec lim Hlim now id r s Hwf (idempotency_miss r s Hm)) as Hs.
  destruct (accept_new_verdict lim id r _) eqn:Hv; [by rewrite Hs|].
  destruct Hs as (n & s1 & Hev & _ & _ & -> & _). simpl. split_and!.
  - intros id' Hne. unfold dropped_at_most. rewrite lookup_insert_ne by done.
    destruct (ms_encoded_tasks s !! id') as [x|] eqn:Hi.
    + destruct (task_terminal x) eqn:Ht.
      * destruct (ms_encoded_tasks s1 !! id') as [y|] eqn:Hi'; [|right; eauto].
        left. apply (evicted_subset _ _ _ _ _ _ Hev) in Hi'. congruence.
      * left. eapply (evicted_nonterminal lim Hlim n s s1); [apply Hwf|done..].
    + left. destruct (ms_encoded_tasks s1 !! id') as [y|] eqn:Hi'; [|done].
      apply (evicted_subset _ _ _ _ _ _ Hev) in Hi'. congruence.
  - intros [x Hx]. unfold accept_new_verdict in Hv. by rewrite Hx in Hv.
  - eexists. split_and!; [apply lookup_insert_eq|done|done| |done|done].
    unfold accept_new_verdict in Hv. by destruct (ms_encoded_tasks s !! id).
Qed.

Lemma memory_progress_law s c :
  wf lim s →
  wf lim (update_progress c s).2 ∧
  progress_outcome c (ms_encoded_tasks s) (ms_encoded_tasks (update_progress c s).2)
    (update_progress c s).1.
Proof using Hlim.
  intros Hwf. split; [by apply update_progress_wf|]. unfold update_progress.
  destruct (from_command _ c) as [p|] eqn:Hp; [|done].
  destruct (ms_encoded_tasks s !! pc_id c) as [task|] eqn:Hid; [|done].
  destruct (_ || _) eqn:Hg; [done|]. bool_prop. destruct Hg as [[Hr Ha] Hver].
  apply from_command_attempt in Hp as [Hp1 Hp2]. simpl. exists task, p. split_and!; try done.
  intros q Hq. rewrite is_some_and_false in Hver. specialize (Hver q Hq). bool_prop. lia.
Qed.

Lemma memory_prune_law s before rows (s' := (prune_terminal_before before rows s).2) :
  wf lim s →
  wf lim s' ∧ prune_outcome rows (ms_encoded_tasks s) (ms_encoded_tasks s')
                (Ok (prune_terminal_before before rows s).1).
Proof.
  intros Hwf. split; [by apply prune_terminal_before_wf|]. exists (prune_expired before rows s).
  split_and!.
  - unfold prune_expired. rewrite fmap_take. eapply sublist_NoDup; [|apply sublist_take].
    rewrite sort_by_Permutation. apply (prune_candidates_NoDup lim before s), Hwf.
  - done.
  - simpl. unfold prune_expired. rewrite length_fmap, length_take. lia.
  - intros id. apply removed_all_lookup.
  - intros id Hin. apply (elem_of_prune_expired lim) in Hin as (task & f & Hid & Ht & _);
      [by eauto|apply Hwf].
Qed.

#[local] Instance memory_store_laws : TaskStoreLaws MemoryState.
Proof using Hlim.
  refine {| tasks_of := ms_encoded_tasks; store_ok := wf lim; cursor_fits := λ _, True;
            reliable := True |}.
  - intros s id task Hwf Hid. split; [|done]. by apply (cwf_task lim s (wf_core _ _ Hwf)).
  - done.
  - intros s id task _ Hid. cbn. unfold get_state_checkpoint. by rewrite Hid.
  - done.
  - intros s now c. apply memory_transition_law.
  - intros s now c task _ Hwf Hroom Hid Hc. destruct (Hroom _ Hid) as [Hv _].
    simpl. rewrite (transition_when_allowed lim c s task Hid Hc).
    by rewrite (proj2 (N.leb_le _ _)) by lia.
  - intros s now c. apply memory_start_law.
  - intros s c. apply memory_progress_law.
  - intros s q size Hwf Hq _. by apply (list_encoded_page lim); [apply Hwf|].
  - intros s after limit now page t Hwf Hpage Ht. simpl in Hpage.
    rewrite list_ready_queued_page in Hpage.
    destruct (_ <? _); [done|]. injection Hpage as <-. simpl in Ht.
    apply subseteq_take, (elem_of_ready_selection lim) in Ht as (Htask & Hq & _); [done|apply Hwf].
  - intros s now id r Hwf. apply memory_accept_law, Hwf.
  - intros s before rows Hwf. pose proof (memory_prune_law s before rows Hwf) as Hp.
    change (do_prune before rows s) with
      (let '(n, s) := prune_terminal_before before rows s in (Ok (E := StoreError) n, s)).
    destruct (prune_terminal_before before rows s). exact Hp.
Defined.
End memory.

(** ** The SQLite store *)

Section sqlite.
Context `{ET : !ExternalTypes, SJ : !SnapshotJson, QJ : !SqliteJson, QL : !SqliteJsonLaws}.
Implicit Types (s : SqliteTaskStore).

#[local] Instance sqlite_task_store : TaskStore SqliteTaskStore :=
  {| do_accept := λ now id r s, store_accept now now id r s;
     do_get := λ id s, sqlite_get id (ss_db s);
     do_checkpoint := λ id s, sqlite_get_state_checkpoint id (ss_db s);
     do_start := store_start;
     do_transition := store_transition;
     do_progress := store_progress;
     do_list := λ q s, sqlite_list q (ss_db s);
     do_ready := λ after limit now s, sqlite_ready after limit now (ss_db s);
     do_next_deadline := λ now s, sqlite_next_retry_deadline now (ss_db s);
     do_prune := store_prune |}.

Lemma sqlite_get_view id db : db_wf db → sqlite_get id db = Ok (view db !! id).
Proof.
  intros Hwf. unfold sqlite_get. destruct (db_tasks db !! id) as [row|] eqn:Hid; simpl.
  - destruct (dbw_row db Hwf _ _ Hid) as (r & lc & Hw).
    by rewrite (decode_task_wf _ _ _ _ Hw), (view_lookup _ _ _ _ _ Hid Hw).
  - by rewrite view_lookup_None.
Qed.

Lemma sqlite_checkpoint_ok id db : db_wf db → is_ok (sqlite_get_state_checkpoint id db) = true.
Proof.
  intros Hwf. destruct (db_tasks db !! id) as [row|] eqn:Hid.
  - destruct (dbw_row db Hwf _ _ Hid) as (r & lc & Hw). by rewrite (checkpoint_row _ _ _ _ _ Hid Hw).
  - unfold sqlite_get_state_checkpoint. rewrite Hid.
    destruct (db_checkpoints db !! id) as [c|] eqn:Hc; [|done].
    destruct (dbw_checkpoint db Hwf _ _ Hc) as [Hv [st Hs]%is_ok_true]. simpl. rewrite Hs.
    unfold u64_or_failure. rewrite <- (Z2N.id _ Hv), u64_of_i64. done.
Qed.

(** A write without the lock, or one that fails, changes nothing. *)
Lemma run_write_cases {A} (op : SqliteDb → result (A * SqliteDb) StoreError) s :
  (∃ a db', op (ss_db s) = Ok (a, db') ∧ run_write op s = (Ok a, with_db db' s)) ∨
  (∃ e, op (ss_db s) = Err e ∧ run_write op s = (Err e, s)) ∨
  (∃ m, run_write op s = (Err (Failure m), s)).
Proof.
  unfold run_write, transact. destruct (negb _); [by eauto|].
  destruct (op (ss_db s)) as [[a db']|e]; eauto 10.
Qed.

Lemma insert_written id task (m : gmap TaskId StoredTask) : task_written id task m (<[id := task]> m).
Proof.
  split; [left; apply lookup_insert_eq|]. intros id' Hne. left. by apply lookup_insert_ne.
Qed.

Lemma sqlite_transition_law s now c :
  store_inv s →
  store_inv (store_transition now c s).2 ∧
  transition_outcome c (view (ss_db s)) (view (ss_db (store_transition now c s).2))
    (store_transition now c s).1.
Proof.
  intros Hinv. split; [by apply transition_inv|]. unfold store_transition.
  pose proof (sqlite_transition_sound (ss_outbox_enabled s) now c (ss_db s) (si_db s Hinv)) as Hs.
  destruct (run_write_cases (sqlite_transition (ss_outbox_enabled s) now c) s)
    as [(t & db' & Hop & ->)|[(e & Hop & ->)|(m & ->)]]; [..|done].
  - rewrite Hop in Hs. destruct Hs as [_ Hspec]. unfold spec_transition_keep in Hspec.
    destruct (validate_diagnostics _) as [[]|] eqn:Hd; [|done]. simpl in Hspec.
    destruct (validate_encoded_output _ _) as [[]|] eqn:Hvo; [|done].
    destruct (view (ss_db s) !! tc_id c) as [task|] eqn:Hid; [|done].
    unfold spec_transition_summary in Hspec. destruct (transition_conflicts _ _) eqn:Hc; [done|].
    destruct (is_some (tc_output c) && _) eqn:Ho; [done|].
    destruct (is_some (tc_retry_not_before_ms c) && _) eqn:Hr; [done|].
    injection Hspec as Ht Habs. simpl. exists task. split_and!; [done| |done|].
    + by apply transition_allowed_intro.
    + rewrite <- Habs, Ht. apply insert_written.
  - rewrite Hop in Hs. simpl. split; [done|].
    assert (spec_transition_keep c (sq_abs (ss_db s)) = (Err e, sq_abs (ss_db s)) ∨
            representation_error e = true) as [Hspec|Hrep].
    { destruct Hs as [?|[[? _]|[? _]]]; auto. }
    2:{ split; intros ->; done. }
    unfold spec_transition_keep in Hspec. destruct (validate_diagnostics _); simpl in Hspec;
      [|injection Hspec as <-; done].
    destruct (validate_encoded_output _ _) eqn:Hvo.
    2:{ unfold validate_encoded_output in Hvo. injection Hspec as ->. by split_matches. }
    destruct (view (ss_db s) !! tc_id c) as [task|]; [|by injection Hspec as <-].
    unfold spec_transition_summary in Hspec. destruct (transition_conflicts _ _) eqn:Hc.
    { injection Hspec as <-. split; [by eauto|done]. }
    destruct (is_some (tc_output c) && _); [by injection Hspec as <-|].
    destruct (is_some (tc_retry_not_before_ms c) && _); [by injection Hspec as <-|done].
Qed.

Lemma sqlite_start_law s now c :
  store_inv s →
  store_inv (store_start now c s).2 ∧
  start_outcome c (view (ss_db s)) (view (ss_db (store_start now c s).2)) (store_start now c s).1.
Proof.
  intros Hinv. split; [by apply start_inv|]. unfold store_start.
  pose proof (sqlite_start_sound (ss_outbox_enabled s) now c (ss_db s) (si_db s Hinv)) as Hs.
  destruct (run_write_cases (sqlite_start (ss_outbox_enabled s) now c) s)
    as [(t & db' & Hop & ->)|[(e & Hop & ->)|(m & ->)]]; [|done..].
  rewrite Hop in Hs. destruct Hs as [_ Hspec]. unfold spec_start in Hspec. simpl in Hspec.
  destruct (view (ss_db s) !! sc_id c) as [task|] eqn:Hid; [|done]. case_decide as Hg; [|done].
  injection Hspec as Ht Habs. simpl. exists task. rewrite <- Habs, Ht. destruct Hg. by split_and!.
Qed.

Lemma sqlite_progress_law s c :
  store_inv s →
  store_inv (store_progress c s).2 ∧
  progress_outcome c (view (ss_db s)) (view (ss_db (store_progress c s).2)) (store_progress c s).1.
Proof.
  intros Hinv. split; [by apply progress_inv|]. unfold store_progress.
  pose proof (sqlite_progress_sound c (ss_db s) (si_db s Hinv)) as Hs.
  destruct (run_write_cases (sqlite_update_progress c) s)
    as [(t & db' & Hop & ->)|[(e & Hop & ->)|(m & ->)]]; [|done..].
  rewrite Hop in Hs. destruct Hs as [_ Hspec]. unfold spec_progress in Hspec. simpl in Hspec.
  destruct (from_command _ c) as [p|] eqn:Hp; [|done].
  destruct (view (ss_db s) !! pc_id c) as [task|] eqn:Hid; [|done].
  case_decide as Hg; [|done]. destruct Hg as (Hrun & Ha & Hlt). injection Hspec as Ht Habs.
  apply from_command_attempt in Hp as [Hp1 Hp2]. simpl. exists task, p.
  rewrite <- Habs, Ht. split_and!; try done.
  intros q Hq. rewrite is_none_or_true in Hlt. specialize (Hlt q Hq). bool_prop. lia.
Qed.

Lemma sqlite_ready_law s after limit now page t :
  store_inv s → sqlite_ready after limit now (ss_db s) = Ok page → t ∈ pg_records page →
  ts_state t = Queued ∧ ∃ task, view (ss_db s) !! ts_id t = Some task ∧ st_summary task = t.
Proof.
  intros Hinv Hpage Ht.
  assert (limit ≤ 256 ∧ now ≤ i64_max ∧ ∀ c, after = Some c → cur_accepted_at_ms c ≤ i64_max)
    as (Hl & Hn & Hc).
  { unfold sqlite_ready in Hpage. destruct (_ <? _) eqn:Hlim; [done|]. bool_prop.
    destruct (i64_try_from now) as [z|] eqn:Hz; simpl in Hpage; [|done].
    destruct (i64_try_from (limit + 1)); simpl in Hpage; [|done].
    apply i64_try_from_Some in Hz as [_ Hz]. split_and!; [done|done|]. intros c ->.
    simpl in Hpage. destruct (i64_try_from (cur_accepted_at_ms c)) as [y|] eqn:Hy; [|done].
    by apply i64_try_from_Some in Hy as [_ Hy]. }
  rewrite sqlite_ready_page in Hpage by (done || apply Hinv). injection Hpage as <-.
  simpl in Ht. apply subseteq_take in Ht. unfold ready_selection in Ht.
  rewrite sort_by_Permutation in Ht. apply list_elem_of_filter in Ht as [Hm Ht].
  apply Is_true_true in Hm. unfold ready_matches in Hm. bool_prop. split; [tauto|].
  unfold summaries in Ht. apply list_elem_of_fmap in Ht as (task & -> & Hv).
  apply elem_of_btree_values in Hv as [id Hid]. exists task. split; [|done].
  destruct (view_lifecycle _ _ _ (si_db s Hinv) Hid) as [[<- _ _] _]. done.
Qed.

Lemma sqlite_accept_law s now id r :
  store_inv s →
  store_inv (store_accept now now id r s).2 ∧
  (∀ id', id' ≠ id → dropped_at_most (view (ss_db s)) (view (ss_db (store_accept now now id r s).2)) id') ∧
  (is_Some (view (ss_db s) !! id) →
     dropped_at_most (view (ss_db s)) (view (ss_db (store_accept now now id r s).2)) id) ∧
  accept_outcome id r (view (ss_db s)) (view (ss_db (store_accept now now id r s).2))
    (store_accept now now id r s).1.
Proof.
  intros Hinv. split; [by apply accept_inv|]. unfold store_accept.
  pose proof (sqlite_accept_sound (ss_outbox_enabled s) now now id r (ss_db s) (si_db s Hinv)) as Hs.
  assert (∀ id', dropped_at_most (view (ss_db s)) (view (ss_db s)) id') as Hsame by (by left).
  destruct (run_write_cases (sqlite_accept (ss_outbox_enabled s) now now id r) s)
    as [(out & db' & Hop & ->)|[(e & Hop & ->)|(m & ->)]]; [|done..].
  rewrite Hop in Hs. destruct Hs as [_ Hs]. simpl. destruct (ao_created out).
  - destruct Hs as (-> & Hnone & _ & ->). split_and!.
    + intros id' Hne. left. by apply lookup_insert_ne.
    + intros [x Hx]. congruence.
    + eexists. by split_and!; [apply lookup_insert_eq|..].
  - destruct Hs as (-> & Hkey & held & Hh). split_and!; [done..|].
    assert (ts_id (ao_summary out) = held) as Hid
      by by destruct (view_lifecycle _ _ _ (si_db s Hinv) Hh) as [[<- _ _] _].
    cbn. rewrite Hid, Hh. by eexists.
Qed.

Lemma sqlite_prune_law s before rows :
  store_inv s →
  store_inv (store_prune before rows s).2 ∧
  prune_outcome rows (view (ss_db s)) (view (ss_db (store_prune before rows s).2))
    (store_prune before rows s).1.
Proof.
  intros Hinv. split; [by apply prune_inv|]. unfold store_prune.
  destruct (i64_try_from before) as [b|]; [|done].
  destruct (i64_try_from rows) as [n|] eqn:Hn; [|done]. apply i64_try_from_Some in Hn as [-> _].
  destruct (run_write_cases (sqlite_prune b (Z.of_N rows)) s)
    as [(k & db' & Hop & ->)|[(e & Hop & ->)|(m & ->)]]; [|done..].
  pose proof (prune_rows_finished b (Z.of_N rows) (ss_db s) (si_db s Hinv)) as Hf.
  pose proof (prune_terminal_rows_spec _ _ Hf) as Hs. unfold sqlite_prune in Hop.
  destruct (prune_terminal_rows _ _) as [db1|]; [|done]. injection Hop as <- <-.
  destruct Hf as [Hnd Hf]. eexists. split_and!; [exact Hnd|..].
  - by rewrite length_fmap.
  - unfold prune_rows. rewrite length_take. lia.
  - exact (pruned_view _ _ _ Hs).
  - intros id ([[z id'] json] & -> & Hin)%list_elem_of_fmap.
    destruct (Hf _ _ _ Hin) as (row & r & lc & Hrow & Hw & _ & Ht).
    exists (task_of_row id' r lc). split; [by eapply view_lookup|done].
Qed.

#[local] Instance sqlite_store_laws : TaskStoreLaws SqliteTaskStore.
Proof.
  refine {| tasks_of := λ s, view (ss_db s); store_ok := store_inv;
            cursor_fits := λ c, cur_accepted_at_ms c ≤ i64_max; reliable := False |}.
  - intros s id task Hinv Hid.
    destruct (view_lifecycle _ _ _ (si_db s Hinv) Hid) as [Htw _]. split; [done|].
    apply view_Some in Hid as (row & r & lc & _ & Hw & ->); [|apply Hinv]. simpl.
    by pose proof (rw_accepted _ _ _ _ Hw) as [_ ?]%i64_try_from_Some.
  - intros s id Hinv. apply sqlite_get_view, Hinv.
  - intros s id task Hinv Hid.
    apply view_Some in Hid as (row & r & lc & Hrow & Hw & ->); [|apply Hinv].
    exact (checkpoint_row _ _ _ _ _ Hrow Hw).
  - intros s id Hinv. by apply sqlite_checkpoint_ok, Hinv.
  - intros s now c Hinv _. by apply sqlite_transition_law.
  - done.
  - intros s now c Hinv _. by apply sqlite_start_law.
  - intros s c Hinv. by apply sqlite_progress_law.
  - intros s q size Hinv Hq Hc. by apply sqlite_list_page; [apply Hinv| |].
  - intros s after limit now page t. apply sqlite_ready_law.
  - intros s now id r Hinv. by apply sqlite_accept_law.
  - intros s before rows Hinv. by apply sqlite_prune_law.
Defined.
End sqlite.
