(* ===== verification/StoreOwner.v ===== *)
(** * Ownership in the store interface

    What the service uses of a store beside its tasks
    ([src/src/store/task_store.rs]): acquiring and releasing the ownership
    and enabling the outbox, with the promises both stores keep. *)

From S2P Require Import Prelude TaskState Model Engine RetryPolicy Requests Handlers MemoryStore.
From S2P Require Import MemoryInvariant MemoryPreservation MemoryHistory MemoryQueries.
From S2P Require Import SqliteStore SqliteAdmin SqliteInvariant SqliteHistory TaskStore.

Section ownership.
Context `{ET : !ExternalTypes, SJ : !SnapshotJson}.

(** The first argument of the acquisition and of the release is the outcome of
    locking and unlocking outside of the store. *)
Class OwnedStore (S : Type) := {
  do_acquire : result unit StoreError → S → result OwnerEpoch StoreError * S;
  do_release : result unit StoreError → OwnerEpoch → S → result unit StoreError * S;
  do_enable_outbox : S → result unit StoreError * S;
  owner_of : S → option OwnerEpoch;
}.

Class OwnedStoreLaws (S : Type) `{!TaskStore S, !TaskStoreLaws S, !OwnedStore S} := {
  law_acquire : ∀ io s, store_ok s →
    let '(r, s') := do_acquire io s in
    store_ok s' ∧ tasks_of s' = tasks_of s ∧
    match r with
    | Ok epoch => owner_of s = None ∧ owner_of s' = Some epoch
    | Err _ => owner_of s' = owner_of s
    end;
  law_release : ∀ io epoch s, store_ok s →
    let '(r, s') := do_release io epoch s in
    store_ok s' ∧ tasks_of s' = tasks_of s ∧
    (r = Ok tt → owner_of s = Some epoch ∧ owner_of s' = None) ∧
    (owner_of s' = owner_of s ∨ owner_of s = Some epoch ∧ owner_of s' = None);
  law_released : ∀ io epoch s, (do_release io epoch s).1 = Ok tt →
    owner_of (do_release io epoch s).2 = None;
  law_enable : ∀ s, store_ok s →
    let '(r, s') := do_enable_outbox s in
    store_ok s' ∧ tasks_of s' = tasks_of s ∧ owner_of s' = owner_of s;
  law_owner_transition : ∀ now c s, owner_of (do_transition now c s).2 = owner_of s;
}.
End ownership.

Section memory_owner.
Context `{ET : !ExternalTypes, SJ : !SnapshotJson}.
Context (lim : MemoryLimits) (Hlim : limits_ok lim).

(** The trait's default refuses an outbox. *)
Definition memory_enable_event_outbox (s : MemoryState) : result unit StoreError * MemoryState :=
  (Err UnsupportedCapability, s).
#[local] Instance memory_owned_store : OwnedStore MemoryState :=
  {| do_acquire := λ _ s, acquire_owner s; do_release := λ _ epoch s, release_owner epoch s;
     do_enable_outbox := memory_enable_event_outbox; owner_of := ms_owner_epoch |}.

#[local] Existing Instances memory_task_store memory_store_laws.

Lemma transition_owner c s : ms_owner_epoch (transition_encoded lim c s).2 = ms_owner_epoch s.
Proof.
  destruct (transition_cases lim c s) as [[e ->]|(task & _ & _ & [[_ ->]|[_ ->]])]; [done..|].
  cbn zeta. destruct (_ && _); [|done]. simpl.
  unfold record_terminal, evict_loop. by rewrite (proj1 (evict_while_owner _ _ _)).
Qed.

Lemma memory_owned_laws : OwnedStoreLaws (TaskStoreLaws0 := memory_store_laws lim Hlim) MemoryState.
Proof using Hlim.
  split.
  - intros io s Hs. pose proof (acquire_owner_wf lim s Hs) as Hwf. simpl.
    destruct (acquire_owner s) as [[e|e] s'] eqn:Ha; simpl in *.
    + destruct (acquire_ok _ _ _ Ha) as (Ho & _ & Ho' & _). split_and!; try done.
      unfold acquire_owner in Ha. repeat case_match; by simplify_eq.
    + unfold acquire_owner in Ha. repeat case_match; by simplify_eq.
  - intros io epoch s Hs. pose proof (release_owner_wf lim epoch s Hs) as Hwf. simpl.
    unfold release_owner in *. destruct (negb _) eqn:Hb; simpl in *; bool_prop; naive_solver.
  - intros io epoch s. simpl. unfold release_owner. by destruct (negb _).
  - intros s Hs. by split_and!.
  - intros now c s. apply transition_owner.
Qed.
End memory_owner.

Section sqlite_owner.
Context `{ET : !ExternalTypes, SJ : !SnapshotJson, QJ : !SqliteJson, QL : !SqliteJsonLaws}.

#[local] Instance sqlite_owned_store : OwnedStore SqliteTaskStore :=
  {| do_acquire := store_acquire_owner; do_release := store_release_owner;
     do_enable_outbox := enable_outbox; owner_of := ss_epoch |}.
#[local] Existing Instances sqlite_task_store sqlite_store_laws.

Lemma sqlite_owned_laws : OwnedStoreLaws SqliteTaskStore.
Proof.
  split.
  - intros lock s Hs. pose proof (acquire_inv lock s Hs) as Hinv. simpl.
    destruct (store_acquire_owner lock s) as [r s'] eqn:Ha. split; [exact Hinv|].
    unfold store_acquire_owner in Ha. destruct (ss_epoch s) eqn:He; repeat case_match; by simplify_eq.
  - intros unlock epoch s Hs. pose proof (release_inv unlock epoch s Hs) as Hinv. simpl.
    destruct (store_release_owner unlock epoch s) as [r s'] eqn:Ha. split; [exact Hinv|].
    unfold store_release_owner in Ha. destruct (negb (bool_decide _)) eqn:Hb; bool_prop;
      repeat case_match; simplify_eq; naive_solver.
  - intros unlock epoch s. simpl. unfold store_release_owner. by repeat case_match.
  - intros s Hs. pose proof (enable_inv s Hs) as Hinv. simpl.
    destruct (enable_outbox s) as [r s'] eqn:Ha. split; [exact Hinv|].
    unfold enable_outbox in Ha. case_match; by simplify_eq.
  - intros now c s. simpl. unfold store_transition, run_write, transact. repeat case_match; done.
Qed.
End sqlite_owner.
