(* ===== verification/Programs.v ===== *)
(** * Programs of atomic operations

    Concurrent code is a program: a tree of atomic operations, each of whose
    answers selects how it goes on.  A machine performs the operations on a
    shared world.  [wp] is the rely/guarantee reading of a program among other
    threads, [exec] its runs among them, [alone] its run without any. *)

From S2P Require Import Prelude.

Inductive program (E : Type → Type) (A : Type) : Type :=
| Ret (a : A)
| Step (X : Type) (op : E X) (k : X → program E A).
Arguments Ret {E A} a.
Arguments Step {E A X} op k.

#[global] Instance program_ret E : MRet (program E) := λ A a, Ret a.
#[global] Instance program_bind E : MBind (program E) := λ A B f,
  fix go (p : program E A) : program E B :=
    match p with Ret a => f a | Step op k => Step op (λ x, go (k x)) end.

Definition call {E X} (op : E X) : program E X := Step op Ret.

(** The answers that come from outside, the effect of an operation, and what
    the environment promises about one. *)
Class Machine (E : Type → Type) (W : Type) := {
  Answers : Type;
  on_machine : Answers → ∀ X, E X → W → X * W;
  promised : ∀ X, E X → W → Prop;
}.
Arguments on_machine {E W _} _ {X} _ _.
Arguments promised {E W _ X} _ _.

(** An operation and its answer. *)
Inductive reply (E : Type → Type) : Type :=
| Reply (X : Type) (op : E X) (x : X).
Arguments Reply {E X} op x.

(** ** The operations of a program *)

Definition halted {E A} (p : program E A) : bool :=
  match p with Ret _ => true | Step _ _ => false end.

Fixpoint all_ops {E A} (P : ∀ X, E X → Prop) (p : program E A) : Prop :=
  match p with Ret _ => True | Step op k => P _ op ∧ ∀ x, all_ops P (k x) end.

Lemma all_ops_bind {E A B} P (p : program E A) (f : A → program E B) :
  all_ops P p → (∀ a, all_ops P (f a)) → all_ops P (p ≫= f).
Proof.
  intros Hp Hf. induction p as [a|X op k IH]; [apply Hf|].
  destruct Hp as [Hop Hk]. split; [done|]. intros x. apply IH, Hk.
Qed.
Lemma all_ops_call {E X} P (op : E X) : P X op → all_ops P (call (E := E) op).
Proof. by intros. Qed.
Lemma all_ops_mono {E A} (P Q : ∀ X, E X → Prop) (p : program E A) :
  (∀ X op, P X op → Q X op) → all_ops P p → all_ops Q p.
Proof.
  intros HPQ. induction p as [a|X op k IH]; [done|]. intros [Hop Hk]. split; [by apply HPQ|].
  intros x. by apply IH.
Qed.

Section machine.
Context {E : Type → Type} {W : Type} `{M : !Machine E W}.
Implicit Types (w : W).

(** ** Reasoning *)

(** Before each operation the others may do what [R] allows; the operation
    does what [G] allows; [Q] holds at the end. *)
Fixpoint wp {A} (R G : relation W) (p : program E A) (Q : A → W → Prop) w : Prop :=
  match p with
  | Ret a => Q a w
  | Step op k => ∀ o w1, R w w1 → promised op w1 →
      G w1 (on_machine o op w1).2 ∧
      wp R G (k (on_machine o op w1).1) Q (on_machine o op w1).2
  end.

Lemma wp_mono {A} R G (p : program E A) (P Q : A → W → Prop) w :
  (∀ a w', P a w' → Q a w') → wp R G p P w → wp R G p Q w.
Proof.
  intros HPQ. revert w. induction p as [a|X op k IH]; intros w; simpl; [by apply HPQ|].
  intros Hw o w1 HR Hadm. destruct (Hw o w1 HR Hadm) as [HG Hk]. split; [done|]. by apply IH.
Qed.

Lemma wp_bind {A B} R G (p : program E A) (f : A → program E B) Q w :
  wp R G p (λ a w', wp R G (f a) Q w') w → wp R G (p ≫= f) Q w.
Proof.
  revert w. induction p as [a|X op k IH]; intros w; [done|].
  intros Hw o w1 HR Hadm. destruct (Hw o w1 HR Hadm) as [HG Hk]. split; [done|]. by apply IH.
Qed.

(** ** Executions among others *)

(** A program runs to its end, with answer [a], among steps of others. *)
Fixpoint exec {A} (R : relation W) (p : program E A) w (a : A) (w' : W) : Prop :=
  match p with
  | Ret b => a = b ∧ w' = w
  | Step op k => ∃ o w1, R w w1 ∧ promised op w1 ∧
      exec R (k (on_machine o op w1).1) (on_machine o op w1).2 a w'
  end.

Lemma wp_exec {A} R G (p : program E A) Q w a w' : wp R G p Q w → exec R p w a w' → Q a w'.
Proof.
  revert w. induction p as [b|X op k IH]; intros w Hw; [by intros [-> ->]|].
  intros (o & w1 & Hr & Hadm & He). destruct (Hw o w1 Hr Hadm) as [_ Hk]. by eapply IH.
Qed.

Lemma exec_bind {A B} R (p : program E A) (f : A → program E B) w b w' :
  exec R (p ≫= f) w b w' ↔ ∃ a w1, exec R p w a w1 ∧ exec R (f a) w1 b w'.
Proof.
  revert w. induction p as [a|X op k IH]; intros w.
  - split; [by exists a, w|]. by intros (? & ? & [-> ->] & ?).
  - split.
    + intros (o & w1 & Hr & Hadm & He). apply IH in He as (a & w2 & Hp & Hf).
      exists a, w2. split; [|done]. by exists o, w1.
    + intros (a & w2 & (o & w1 & Hr & Hadm & Hp) & Hf). exists o, w1. split_and!; [done|done|].
      apply IH. by exists a, w2.
Qed.

(** The same run with the trace of its own operations: what came from outside
    and what each was answered. *)
Fixpoint exec_trace {A} (R : relation W) (p : program E A) w (a : A) (w' : W)
    (trace : list (Answers * reply E)) : Prop :=
  match p with
  | Ret b => a = b ∧ w' = w ∧ trace = []
  | Step op k => ∃ o w1 rest, R w w1 ∧ promised op w1 ∧
      trace = (o, Reply op (on_machine o op w1).1) :: rest ∧
      exec_trace R (k (on_machine o op w1).1) (on_machine o op w1).2 a w' rest
  end.

Lemma exec_traced {A} R (p : program E A) w a w' :
  exec R p w a w' ↔ ∃ trace, exec_trace R p w a w' trace.
Proof.
  revert w. induction p as [b|X op k IH]; intros w; cbn [exec exec_trace].
  - split; [intros [-> ->]; by exists []|by intros (? & -> & -> & _)].
  - split.
    + intros (o & w1 & HR & Hp & (rest & He)%IH). by eexists _, o, w1, rest.
    + intros (trace & o & w1 & rest & HR & Hp & _ & He). exists o, w1. split_and!; [done..|].
      apply IH. by exists rest.
Qed.

Lemma exec_trace_bind {A B} R (p : program E A) (f : A → program E B) w b w' trace :
  exec_trace R (p ≫= f) w b w' trace →
  ∃ a w1 trace1 trace2, trace = trace1 ++ trace2 ∧
    exec_trace R p w a w1 trace1 ∧ exec_trace R (f a) w1 b w' trace2.
Proof.
  revert w trace. induction p as [a|X op k IH]; intros w trace.
  - intros He. by exists a, w, [], trace.
  - intros (o & w1 & rest & HR & Hp & -> & He).
    apply IH in He as (a & w2 & t1 & t2 & -> & H1 & H2).
    exists a, w2, ((o, Reply op (on_machine o op w1).1) :: t1), t2. split_and!; [done| |done].
    by exists o, w1, t1.
Qed.

(** Others go first. *)
Lemma exec_earlier {A} R `{!Transitive R} (p : program E A) w w1 a w' :
  halted p = false → R w w1 → exec R p w1 a w' → exec R p w a w'.
Proof.
  destruct p as [b|X op k]; [done|]. intros _ HR (o & w2 & HR2 & Hpr & He).
  exists o, w2. split; [by etrans|done].
Qed.

(** ** Threads *)

(** One thread and steps of others. *)
Inductive thread_step {A} (R : relation W) : relation (program E A * W) :=
| thread_other p w w' : R w w' → thread_step R (p, w) (p, w')
| thread_self {X} (op : E X) k o w :
    promised op w →
    thread_step R (Step op k, w) (k (on_machine o op w).1, (on_machine o op w).2).

(** What is proved of a thread survives a step of another. *)
Lemma wp_later {A} R G (p : program E A) w w' :
  (∀ w1, R w' w1 → R w w1) → wp R G p (λ _ _, True) w → wp R G p (λ _ _, True) w'.
Proof. destruct p as [a|X op k]; [done|]. intros HR Hw o w1 Hr. by apply Hw, HR. Qed.

Lemma thread_steps_wp {A} R G `{!Reflexive R, !Transitive R} (p p' : program E A) w w' :
  wp R G p (λ _ _, True) w → rtc (thread_step R) (p, w) (p', w') →
  rtc (λ w w', R w w' ∨ G w w') w w' ∧ wp R G p' (λ _ _, True) w'.
Proof.
  intros Hw Hr. remember (p, w) as x eqn:Hx. remember (p', w') as y eqn:Hy.
  revert p w Hx Hw. induction Hr as [x|x y z Hstep _ IH]; intros p w -> Hw.
  { injection Hy as -> ->. split; [done|exact Hw]. }
  inversion Hstep as [p1 w1 w2 HR|X op k o w1 Hpr]; subst.
  - destruct (IH eq_refl p w2 eq_refl (wp_later R G p w w2 (λ w1, transitivity HR) Hw)) as [Hm Hw'].
    split; [|done]. eapply rtc_l; [by left|done].
  - destruct (Hw o w (reflexivity w) Hpr) as [HG Hk].
    destruct (IH eq_refl _ _ eq_refl Hk) as [Hm Hw']. split; [|done]. eapply rtc_l; [by right|done].
Qed.

(** ** A program alone *)

(** With the same answers throughout. *)
Fixpoint run {A} (o : Answers) (p : program E A) w : A * W :=
  match p with
  | Ret a => (a, w)
  | Step op k => let '(x, w') := on_machine o op w in run o (k x) w'
  end.

Lemma run_bind {A B} o (p : program E A) (f : A → program E B) w :
  run o (p ≫= f) w = run o (f (run o p w).1) (run o p w).2.
Proof.
  revert w. induction p as [a|X op k IH]; intros w; [done|].
  change (run o (Step op k ≫= f) w) with
    (let '(x, w') := on_machine o op w in run o (k x ≫= f) w').
  cbn [run]. destruct (on_machine o op w) as [x w']. apply IH.
Qed.

(** What every operation of a program keeps, its run keeps. *)
Lemma run_keeps {A} (P : ∀ X, E X → Prop) (I : W → Prop) o (p : program E A) w :
  (∀ X (op : E X) w, P X op → I w → I (on_machine o op w).2) →
  all_ops P p → I w → I (run o p w).2.
Proof.
  intros Hop. revert w. induction p as [a|X op k IH]; intros w; [done|]. intros [Hp Hk] Hw.
  cbn [run]. specialize (Hop X op w Hp Hw). destruct (on_machine o op w) as [x w']. by apply IH.
Qed.

Lemma run_exec {A} R o (p : program E A) w :
  (∀ w, R w w) → (∀ X (op : E X) w, promised op w) →
  exec R p w (run o p w).1 (run o p w).2.
Proof.
  intros HR Hpr. revert w. induction p as [a|X op k IH]; intros w; [done|].
  exists o, w. split_and!; [done|done|]. cbn [run]. specialize (IH (on_machine o op w).1).
  destruct (on_machine o op w) as [x w']. apply IH.
Qed.

(** The steps of a thread alone, one answer each. *)
Fixpoint self_steps {A} (l : list Answers) (x : program E A * W) : program E A * W :=
  match l, x with
  | o :: l, (Step op k, w) => self_steps l (k (on_machine o op w).1, (on_machine o op w).2)
  | _, _ => x
  end.

Lemma self_steps_rtc {A} R l (x : program E A * W) :
  (∀ X (op : E X) w, promised op w) → rtc (thread_step R) x (self_steps l x).
Proof.
  intros Hpr. revert x. induction l as [|o l IH]; intros [[a|X op k] w]; [done..|].
  eapply rtc_l; [by apply (thread_self R op k o)|]. apply IH.
Qed.
End machine.

#[global] Arguments wp : simpl never.
