(* ===== verification/SqliteOpen.v ===== *)
(** * Opening a SQLite store

    [SqliteTaskStore::open] with [database_identity.rs] and [owner_lock.rs]:
    the database file is found or created and identified, the lock file next
    to it is locked, the identity is verified before and after the connection
    is made, and the schema is brought up to date.  Every call of the operating
    system is an atomic operation on a file system that other processes change
    in between; any of them may fail. *)

From S2P Require Import Prelude Model Schema Programs.

(** ** Paths *)

(** Whether a path is absolute, and its components; ".." leads up. *)
Definition Path : Type := bool * list string.

Definition is_absolute (p : Path) : bool := p.1.
Definition join (p q : Path) : Path := if is_absolute q then q else (p.1, p.2 ++ q.2).
Definition file_name (p : Path) : option string :=
  name ← last p.2; if bool_decide (name = ".."%string) then None else Some name.
Definition parent (p : Path) : option Path :=
  match p.2 with [] => None | _ => Some (p.1, removelast p.2) end.
(** The lock file is the database's path with [".owner.lock"] at its end. *)
Definition lock_path (p : Path) : Path :=
  (p.1, match last p.2 with
        | Some name => removelast p.2 ++ [String.append name ".owner.lock"]
        | None => [".owner.lock"%string]
        end).

(** ** The file system *)

(** Device and inode. *)
Definition FileKey : Type := N * N.

Record Fs := {
  (** where a path leads, links and relative parts resolved *)
  fs_resolve : Path → Path;
  (** the file at each resolved path *)
  fs_names : gmap Path FileKey;
  (** who has locked a lock file *)
  fs_locks : gmap Path N;
  (** the catalogue of the database in a file *)
  fs_catalogs : gmap FileKey Catalog;
}.
Implicit Types (w : Fs).

Definition links (k : FileKey) w : N :=
  N.of_nat (size (filter (λ e, e.2 = k) (fs_names w))).
Definition file_at (p : Path) w : option FileKey := fs_names w !! fs_resolve w p.
Definition catalog_of (k : FileKey) w : Catalog :=
  default {| ct_user_version := 0; ct_tables := ∅; ct_indexes := ∅ |} (fs_catalogs w !! k).

Definition set_name (p : Path) (k : FileKey) w : Fs :=
  {| fs_resolve := fs_resolve w; fs_names := <[p := k]> (fs_names w);
     fs_locks := fs_locks w; fs_catalogs := fs_catalogs w |}.
Definition set_locks (locks : gmap Path N) w : Fs :=
  {| fs_resolve := fs_resolve w; fs_names := fs_names w; fs_locks := locks;
     fs_catalogs := fs_catalogs w |}.
Definition set_catalog (k : FileKey) (c : Catalog) w : Fs :=
  {| fs_resolve := fs_resolve w; fs_names := fs_names w; fs_locks := fs_locks w;
     fs_catalogs := <[k := c]> (fs_catalogs w) |}.

(** ** Operations *)

(** How locking fails: another process holds the lock, or anything else. *)
Inductive LockError := LockContended | LockFailed (error : string).

Inductive FsOp : Type → Type :=
| FsCurrentDir : FsOp (result Path string)
| FsCreateDirs (p : Path) : FsOp (result unit string)
| FsCanonicalDir (p : Path) : FsOp (result Path string)
| FsOpenOrCreate (p : Path) : FsOp (result FileKey string)
| FsCanonicalize (p : Path) : FsOp (result Path string)
| FsOpen (p : Path) : FsOp (result FileKey string)
| FsLinks (k : FileKey) : FsOp (result N string)
| FsTryLock (lock : Path) : FsOp (result unit LockError)
| FsUnlock (lock : Path) : FsOp unit
| FsConnect (p : Path) : FsOp (result FileKey string)
| FsInitialize (k : FileKey) : FsOp (result unit StoreError)
| FsConfigure : FsOp (result unit string).

(** The answers that come from outside: an error of the system, the working
    directory, and a number for a file that is created. *)
Record FsAnswers := {
  fa_error : option string; fa_current_dir : Path; fa_new_key : FileKey;
}.

(** A new file gets a number that is not in use. *)
Definition new_key (a : FsAnswers) w : FileKey :=
  let used : gset FileKey := map_img (fs_names w) ∪ dom (fs_catalogs w) in
  if bool_decide (fa_new_key a ∈ used) then fresh used else fa_new_key a.

Definition io {X} (a : FsAnswers) (x : X) (w' w : Fs) : result X string * Fs :=
  match fa_error a with Some e => (Err e, w) | None => (Ok x, w') end.
Definition not_found : string := "No such file or directory (os error 2)".

(** [me] is the open file description the lock belongs to: one per call of
    [open], also within one process. *)
Definition fs_perform (me : N) (a : FsAnswers) {X} (op : FsOp X) w : X * Fs :=
  match op in FsOp X return X * Fs with
  | FsCurrentDir => io a (fa_current_dir a) w w
  | FsCreateDirs _ => io a tt w w
  | FsCanonicalDir p => io a (fs_resolve w p) w w
  | FsOpenOrCreate p | FsConnect p =>
      match file_at p w with
      | Some k => io a k w w
      | None => io a (new_key a w) (set_name (fs_resolve w p) (new_key a w) w) w
      end
  | FsCanonicalize p =>
      match file_at p w with Some _ => io a (fs_resolve w p) w w | None => (Err not_found, w) end
  | FsOpen p => match file_at p w with Some k => io a k w w | None => (Err not_found, w) end
  | FsLinks k => io a (links k w) w w
  | FsTryLock lock =>
      match fs_locks w !! lock, fa_error a with
      | Some _, _ => (Err LockContended, w)
      | None, Some e => (Err (LockFailed e), w)
      | None, None => (Ok tt, set_locks (<[lock := me]> (fs_locks w)) w)
      end
  | FsUnlock lock => (tt, set_locks (delete lock (fs_locks w)) w)
  | FsInitialize k =>
      match fa_error a with
      | Some e => (Err (Failure e), w)
      | None =>
          match initialize_next_schema (catalog_of k w) with
          | Ok c => (Ok tt, set_catalog k c w)
          | Err e => (Err e, w)
          end
      end
  | FsConfigure => io a tt w w
  end.

Definition opener (me : N) : Machine FsOp Fs :=
  {| Answers := FsAnswers; on_machine a X op w := fs_perform me a op w; promised _ _ _ := True |}.

Abbreviation fs_prog := (program FsOp).

(** ** Identity *)

(** An operating system call; its errors become failures of the store. *)
Definition attempt {A B} (op : FsOp (result A string)) (k : A → fs_prog (result B StoreError))
    : fs_prog (result B StoreError) :=
  r ← call op;
  match r with Ok a => k a | Err e => Ret (Err (Failure e)) end.
Definition or_fail {A B} (r : result A StoreError) (k : A → fs_prog (result B StoreError))
    : fs_prog (result B StoreError) :=
  match r with Ok a => k a | Err e => Ret (Err e) end.

Definition ensure_single_link (n : N) : result unit StoreError :=
  if n =? 1 then Ok tt else Err UnsupportedDatabaseIdentity.

Record DatabaseIdentity := { di_path : Path; di_file_key : FileKey }.

Definition verify (i : DatabaseIdentity) : fs_prog (result unit StoreError) :=
  attempt (FsCanonicalize (di_path i)) (λ canonical_path,
  if negb (bool_decide (canonical_path = di_path i))
  then Ret (Err (Failure "SQLite database path identity changed while opening")) else
  attempt (FsOpen (di_path i)) (λ file_key,
  attempt (FsLinks file_key) (λ n,
  or_fail (ensure_single_link n) (λ _,
  if negb (bool_decide (file_key = di_file_key i))
  then Ret (Err (Failure "SQLite database file was replaced while opening"))
  else Ret (Ok tt))))).

Definition after_verify {B} (i : DatabaseIdentity) (k : fs_prog (result B StoreError))
    : fs_prog (result B StoreError) :=
  r ← verify i; or_fail r (λ _, k).

Definition identity_open (path : Path) : fs_prog (result DatabaseIdentity StoreError) :=
  let located (absolute_path : Path) : fs_prog (result DatabaseIdentity StoreError) :=
    or_fail (ok_or (Failure "SQLite database path must name a file") (file_name absolute_path))
      (λ name,
    or_fail (ok_or (Failure "SQLite database path must have a parent directory")
               (parent absolute_path)) (λ directory,
    attempt (FsCreateDirs directory) (λ _,
    attempt (FsCanonicalDir directory) (λ canonical_parent,
    let unresolved_path := join canonical_parent (false, [name]) in
    attempt (FsOpenOrCreate unresolved_path) (λ file_key,
    attempt (FsCanonicalize unresolved_path) (λ path,
    attempt (FsLinks file_key) (λ n,
    or_fail (ensure_single_link n) (λ _,
    let identity := {| di_path := path; di_file_key := file_key |} in
    after_verify identity (Ret (Ok identity)))))))))) in
  if is_absolute path then located path
  else attempt FsCurrentDir (λ directory, located (join directory path)).

(** ** The owner lock *)

Definition acquire_owner_lock (database_path : Path) : fs_prog (result unit StoreError) :=
  r ← call (FsTryLock (lock_path database_path));
  Ret (match r with
       | Ok _ => Ok tt
       | Err LockContended => Err OwnerConflict
       | Err (LockFailed e) => Err (Failure e)
       end).

(** ** [open] *)

(** What the store keeps: its path, and the file its connection is on. *)
Record OpenStore := { os_path : Path; os_file : FileKey }.

(** Everything that happens under the lock. *)
Definition open_locked (identity : DatabaseIdentity) : fs_prog (result OpenStore StoreError) :=
  after_verify identity (
  attempt (FsConnect (di_path identity)) (λ file,
  after_verify identity (
  attempt FsConfigure (λ _,
  initialized ← call (FsInitialize file);
  or_fail initialized (λ _,
  attempt FsConfigure (λ _,
  Ret (Ok {| os_path := di_path identity; os_file := file |}))))))).

(** An error drops the lock file, which unlocks it. *)
Definition open_store (path : Path) : fs_prog (result OpenStore StoreError) :=
  found ← identity_open path;
  or_fail found (λ identity,
  locked ← acquire_owner_lock (di_path identity);
  or_fail locked (λ _,
  opened ← open_locked identity;
  match opened with
  | Ok store => Ret (Ok store)
  | Err e => call (FsUnlock (lock_path (di_path identity)));; Ret (Err e)
  end)).

(** ** Openers *)

(** A call of [open] and what becomes of it: it runs, its store holds the lock
    since then, has released it ([release_owner]) or has taken it again
    ([acquire_owner]). *)
Inductive Opener :=
| Opening (p : fs_prog (result OpenStore StoreError))
| Former (st : OpenStore)
| Again (st : OpenStore).

(** The store of an owner, and whether its lock is the one [open] took. *)
Definition store_owner (x : Opener) : option (OpenStore * bool) :=
  match x with
  | Opening (Ret (Ok st)) => Some (st, true)
  | Again st => Some (st, false)
  | _ => None
  end.

(** What the other processes respect of opener [i]: its locks, and under them
    that the path leads to its file, that the file gets no further name, and
    that nothing changes the catalogue. *)
Record respects (i : N) (w w' : Fs) : Prop := {
  rs_locks l : fs_locks w' !! l = Some i ↔ fs_locks w !! l = Some i;
  rs_file p k :
    fs_locks w !! lock_path p = Some i → fs_resolve w p = p → fs_names w !! p = Some k →
    fs_resolve w' p = p ∧ fs_names w' !! p = Some k ∧ links k w' ≤ links k w ∧
    catalog_of k w' = catalog_of k w;
}.

Inductive open_step : relation (gmap N Opener * Fs) :=
| open_new i path P w :
    P !! i = None → (∀ l, fs_locks w !! l ≠ Some i) →
    open_step (P, w) (<[i := Opening (open_store path)]> P, w)
| open_self i {X} (op : FsOp X) k a P w :
    P !! i = Some (Opening (Step op k)) →
    open_step (P, w) (<[i := Opening (k (fs_perform i a op w).1)]> P, (fs_perform i a op w).2)
| open_release i x st b a P w :
    P !! i = Some x → store_owner x = Some (st, b) →
    open_step (P, w)
      (<[i := Former st]> P, (fs_perform i a (FsUnlock (lock_path (os_path st))) w).2)
| open_again i st a w' P w :
    P !! i = Some (Former st) → fs_perform i a (FsTryLock (lock_path (os_path st))) w = (Ok tt, w') →
    open_step (P, w) (<[i := Again st]> P, w')
| open_outside P w w' : (∀ i, respects i w w') → open_step (P, w) (P, w').
