(* ===== verification/SqliteOpenProperties.v ===== *)
(** * Opening a SQLite store: theorems

    Of any number of stores that are opened, released and taken again by any
    processes, no two own the same path or, since they were opened, the same
    file; their catalogues stay as [open] left them, and a failed [open] leaves
    no lock. *)

From S2P Require Import Prelude Model Schema SchemaProperties Programs SqliteOpen.

Implicit Types (w : Fs) (i j me : N).

#[global] Instance respects_preorder i : PreOrder (respects i).
Proof.
  split; [by split|]. intros w1 w2 w3 [Hl Hf] [Hl' Hf']. split.
  - intros l. by rewrite Hl', Hl.
  - intros p k Hp Hr Hk. destruct (Hf p k Hp Hr Hk) as (Hr2 & Hk2 & Hn & Hc).
    destruct (Hf' p k) as (? & ? & ? & ?); [by apply Hl|done..|]. split_and!; [done..|lia|congruence].
Qed.

(** ** Links *)

Lemma links_spec k p w : fs_names w !! p = Some k → 1 ≤ links k w.
Proof.
  intros Hp. unfold links.
  assert (filter (λ e, e.2 = k) (fs_names w) !! p = Some k) as Hf by by apply map_lookup_filter_Some.
  assert (size (filter (λ e : Path * FileKey, e.2 = k) (fs_names w)) ≠ 0%nat); [|lia].
  rewrite map_size_ne_0_lookup. eauto.
Qed.

(** A file with one link has one path. *)
Lemma links_unique k p q w :
  links k w = 1 → fs_names w !! p = Some k → fs_names w !! q = Some k → p = q.
Proof.
  intros Hn Hp Hq. unfold links in Hn. destruct (decide (p = q)) as [|Hpq]; [done|exfalso].
  set (m := filter (λ e : Path * FileKey, e.2 = k) (fs_names w)) in *.
  assert (m !! p = Some k ∧ m !! q = Some k) as [Hp' Hq'] by (split; by apply map_lookup_filter_Some).
  rewrite <- (insert_delete_id m p k Hp'), map_size_insert_None in Hn by apply lookup_delete_eq.
  assert (size (delete p m) ≠ 0%nat); [|lia].
  rewrite map_size_ne_0_lookup. exists q, k. by rewrite lookup_delete_ne.
Qed.

Lemma links_new k k' p w :
  k' ≠ k → fs_names w !! p = None → links k (set_name p k' w) = links k w.
Proof.
  intros Hk Hp. unfold links. cbn. rewrite map_filter_insert_False by done.
  by rewrite delete_id.
Qed.

Lemma new_key_unused a p w : fs_names w !! p ≠ Some (new_key a w).
Proof.
  intros Hp%(elem_of_map_img_2 (SA := gset FileKey)). revert Hp. unfold new_key.
  set (used := map_img (fs_names w) ∪ dom (fs_catalogs w)).
  case_bool_decide as Hu; [|set_solver].
  pose proof (is_fresh used). set_solver.
Qed.

(** ** What an opener holds *)

Definition holds i (o : option Path) w : Prop := ∀ l, fs_locks w !! l = Some i ↔ o = Some l.
Definition placed (p : Path) (k : FileKey) w : Prop :=
  fs_resolve w p = p ∧ fs_names w !! p = Some k ∧ links k w = 1.
Definition ready (k : FileKey) w : Prop :=
  initialize_next_schema (catalog_of k w) = Ok (catalog_of k w).
Definition opened i (r : result OpenStore StoreError) w : Prop :=
  match r with
  | Ok st => holds i (Some (lock_path (os_path st))) w ∧ placed (os_path st) (os_file st) w ∧
             ready (os_file st) w
  | Err _ => holds i None w
  end.

Lemma holds_respects i o w w' : respects i w w' → holds i o w → holds i o w'.
Proof. intros [Hl _] Ho l. by rewrite Hl. Qed.

Lemma placed_respects i p k w w' :
  respects i w w' → holds i (Some (lock_path p)) w → placed p k w →
  placed p k w' ∧ catalog_of k w' = catalog_of k w.
Proof.
  intros Hr Hl (Hp & Hk & Hn). destruct (rs_file _ _ _ Hr p k) as (Hp' & Hk' & Hn' & Hc);
    [by apply Hl|done..|].
  split; [|done]. split_and!; [done..|]. pose proof (links_spec k p w' Hk'). lia.
Qed.

Lemma opened_respects i r w w' : respects i w w' → opened i r w → opened i r w'.
Proof.
  intros Hr. destruct r as [st|e]; cbn; [|by apply holds_respects]. intros (Hl & Hp & Hc).
  destruct (placed_respects _ _ _ _ _ Hr Hl Hp) as [Hp' Hc'].
  split_and!; [by eapply holds_respects|done|]. unfold ready. by rewrite Hc'.
Qed.

(** Two that hold a lock, each on a path that leads to its file. *)
Lemma owners_apart i j p q k k' w :
  i ≠ j → holds i (Some (lock_path p)) w → holds j (Some (lock_path q)) w →
  p ≠ q ∧ (placed p k w → placed q k' w → k ≠ k').
Proof.
  intros Hij Hi Hj. assert (p ≠ q) as Hpq.
  { intros ->. apply Hij. apply (inj Some). transitivity (fs_locks w !! lock_path q); [symmetry|].
    - by apply Hi.
    - by apply Hj. }
  split; [done|]. intros (_ & Hp & Hn) (_ & Hq & _) ->. by apply Hpq, (links_unique k' p q w).
Qed.

(** ** One opener *)

(** The operations that touch no lock and no catalogue. *)
Definition harmless X (op : FsOp X) : Prop :=
  match op with FsTryLock _ | FsUnlock _ | FsInitialize _ => False | _ => True end.

Lemma create_respects a p j w :
  file_at p w = None → respects j w (set_name (fs_resolve w p) (new_key a w) w).
Proof.
  intros Hn. split; [done|]. intros q k _ Hr Hk. pose proof (new_key_unused a q w) as Hu.
  split_and!; [done| | |done].
  - cbn. rewrite lookup_insert_ne; [done|]. intros <-. unfold file_at in Hn. congruence.
  - rewrite links_new; [done|congruence|done].
Qed.

Lemma harmless_respects me a X (op : FsOp X) j w :
  harmless X op → respects j w (fs_perform me a op w).2.
Proof.
  destruct op; cbn; try done; intros _; unfold io; repeat case_match; try done;
    by apply create_respects.
Qed.

Section opener.
Context (me : N).
#[local] Instance me_opener : Machine FsOp Fs := opener me.

Definition spares_others w w' : Prop := ∀ j, j ≠ me → respects j w w'.
Abbreviation opener_wp := (wp (respects me) spares_others).

Lemma wp_harmless {A} (p : fs_prog A) w :
  all_ops harmless p → opener_wp p (λ _ w', respects me w w') w.
Proof.
  revert w. induction p as [x|X op k IH]; intros w; [intros _; exact (reflexivity (R := respects me) w)|].
  intros [Hop Hk] a w1 Hr _. split; [intros j _; by apply harmless_respects|].
  eapply wp_mono; [|apply IH, Hk]. intros x w' Hr'.
  etrans; [exact Hr|]. etrans; [by apply (harmless_respects me a _ op)|exact Hr'].
Qed.

Lemma wp_attempt {A B} (op : FsOp (result A string)) (k : A → fs_prog (result B StoreError)) Q w :
  harmless _ op →
  (∀ a w1, respects me w w1 →
     match (fs_perform me a op w1).1 with
     | Ok x => opener_wp (k x) Q (fs_perform me a op w1).2
     | Err e => Q (Err (Failure e)) (fs_perform me a op w1).2
     end) →
  opener_wp (attempt op k) Q w.
Proof.
  intros Hop Hk a w1 Hr _. split; [intros j _; by apply harmless_respects|].
  specialize (Hk a w1 Hr). cbn [on_machine me_opener opener]. destruct (fs_perform me a op w1) as [[x|e] w2]; exact Hk.
Qed.

Lemma wp_opened_later p w w' :
  respects me w w' → opener_wp p (opened me) w → opener_wp p (opened me) w'.
Proof.
  intros Hr. destruct p as [r|X op k]; [by apply opened_respects|].
  intros Hw a w1 Hr1 Hpr. apply Hw; [by etrans|done].
Qed.

Lemma verify_harmless d : all_ops harmless (verify d).
Proof.
  unfold verify, attempt, or_fail, ensure_single_link.
  repeat (apply all_ops_bind; [by apply all_ops_call|intros ?]; repeat case_match; try done).
Qed.
Lemma identity_open_harmless path : all_ops harmless (identity_open path).
Proof.
  unfold identity_open, after_verify, attempt, or_fail, ensure_single_link, ok_or.
  repeat first [done | progress case_match |
    apply all_ops_bind; [first [by apply all_ops_call | apply verify_harmless]|intros ?]].
Qed.
(** Under the lock, a verified path leads to the file. *)
Lemma verify_spec d w :
  holds me (Some (lock_path (di_path d))) w →
  opener_wp (verify d) (λ r w', holds me (Some (lock_path (di_path d))) w' ∧
    (r = Ok tt → placed (di_path d) (di_file_key d) w')) w.
Proof.
  intros Hl. apply wp_attempt; [done|]. intros a1 w1 Hr1.
  pose proof (holds_respects _ _ _ _ Hr1 Hl) as Hl1. cbn. unfold io, file_at.
  destruct (fs_names w1 !! _) as [k|] eqn:Hk1; [|done]. destruct (fa_error a1); [done|]. cbn.
  case_bool_decide as Hp; [cbn|done]. rewrite Hp in Hk1.
  apply wp_attempt; [done|]. intros a2 w2 Hr2.
  pose proof (holds_respects _ _ _ _ Hr2 Hl1) as Hl2.
  destruct (rs_file _ _ _ Hr2 (di_path d) k) as (Hp2 & Hk2 & _); [by apply Hl1|done..|].
  cbn. unfold io, file_at. rewrite Hp2, Hk2. destruct (fa_error a2); [done|]. cbn.
  apply wp_attempt; [done|]. intros a3 w3 Hr3.
  pose proof (holds_respects _ _ _ _ Hr3 Hl2) as Hl3.
  destruct (rs_file _ _ _ Hr3 (di_path d) k) as (Hp3 & Hk3 & _); [by apply Hl2|done..|].
  cbn. unfold io, ensure_single_link. destruct (fa_error a3); [done|]. cbn.
  destruct (N.eqb_spec (links k w3) 1) as [Hn|]; [cbn|done].
  case_bool_decide as Hd; cbn; [|done]. by rewrite <- Hd.
Qed.

Lemma wp_after_verify {B} d (p : fs_prog (result B StoreError)) Q w :
  holds me (Some (lock_path (di_path d))) w →
  (∀ w', holds me (Some (lock_path (di_path d))) w' → placed (di_path d) (di_file_key d) w' →
     opener_wp p Q w') →
  (∀ e w', holds me (Some (lock_path (di_path d))) w' → Q (Err e) w') →
  opener_wp (after_verify d p) Q w.
Proof.
  intros Hl Hok Herr. apply wp_bind. eapply wp_mono; [|by apply verify_spec].
  intros [[]|e] w' [Hl' Hp]; [by apply Hok, Hp|by apply Herr].
Qed.

(** The migration of the file at the locked path touches no other owner's. *)
Lemma initialize_others p k c w :
  holds me (Some (lock_path p)) w → placed p k w → spares_others w (set_catalog k c w).
Proof.
  intros Hl (Hp & Hk & Hn) j Hj. split; [done|]. intros q k' Hq Hr Hk'.
  split_and!; [done|done|exact (N.le_refl (links k' w))|].
  unfold catalog_of. cbn. rewrite lookup_insert_ne; [done|]. intros <-.
  rewrite (links_unique k q p w) in Hq by done. apply Hj, (inj Some).
  rewrite <- Hq. by apply Hl.
Qed.

Lemma open_locked_spec d w :
  let owned := holds me (Some (lock_path (di_path d))) in
  owned w →
  opener_wp (open_locked d) (λ r w',
    match r with Ok st => os_path st = di_path d ∧ opened me r w' | Err _ => owned w' end) w.
Proof.
  intros owned Hl. apply wp_after_verify; [done| |done]. clear w Hl. intros w Hl Hp.
  apply wp_attempt; [done|]. intros a1 w1 Hr1.
  pose proof (holds_respects _ _ _ _ Hr1 Hl) as Hl1.
  destruct (placed_respects _ _ _ _ _ Hr1 Hl Hp) as [(Hp1 & Hk1 & Hn1) _].
  cbn. unfold io, file_at. rewrite Hp1, Hk1. destruct (fa_error a1); [done|]. cbn.
  apply wp_after_verify; [done| |done]. intros w2 Hl2 Hp2.
  apply wp_attempt; [done|]. intros a3 w3 Hr3.
  pose proof (holds_respects _ _ _ _ Hr3 Hl2) as Hl3.
  destruct (placed_respects _ _ _ _ _ Hr3 Hl2 Hp2) as [Hp3 _].
  cbn. unfold io. destruct (fa_error a3); [done|]. cbn. intros a4 w4 Hr4 _.
  pose proof (holds_respects _ _ _ _ Hr4 Hl3) as Hl4.
  destruct (placed_respects _ _ _ _ _ Hr4 Hl3 Hp3) as [Hp4 _].
  cbn -[initialize_next_schema].
  destruct (fa_error a4); [done|]. destruct (initialize_next_schema (catalog_of _ w4)) as [c|e] eqn:Hc; [|done].
  split; [by eapply initialize_others|]. cbn -[initialize_next_schema].
  apply wp_attempt; [done|]. intros a5 w5 Hr5. cbn -[opened]. unfold io.
  destruct (fa_error a5); [by eapply holds_respects|]. cbn -[opened]. split; [done|].
  eapply opened_respects; [exact Hr5|]. split_and!; [done..|].
  unfold ready, catalog_of. cbn [fs_catalogs set_catalog os_file]. rewrite lookup_insert_eq.
  by apply initialize_effect in Hc as (_ & _ & _ & ?).
Qed.

(** Locking and unlocking. *)
Lemma set_locks_respects locks j w :
  (∀ l, locks !! l = Some j ↔ fs_locks w !! l = Some j) → respects j w (set_locks locks w).
Proof. intros Hl. split; [done|]. intros p k _ Hr Hk. by split_and!. Qed.

Lemma lock_spec l w :
  holds me None w → fs_locks w !! l = None →
  let w' := set_locks (<[l := me]> (fs_locks w)) w in spares_others w w' ∧ holds me (Some l) w'.
Proof.
  intros Hn Hl w'. unfold holds in *. split.
  - intros j Hj. apply set_locks_respects. intros l'. destruct (decide (l' = l)) as [->|].
    + rewrite lookup_insert_eq, Hl. split; [|done]. by intros [= ?].
    + by rewrite lookup_insert_ne.
  - intros l'. cbn. destruct (decide (l' = l)) as [->|].
    + by rewrite lookup_insert_eq.
    + rewrite lookup_insert_ne, Hn by done. split; [done|congruence].
Qed.

Lemma unlock_spec l w :
  holds me (Some l) w →
  let w' := set_locks (delete l (fs_locks w)) w in spares_others w w' ∧ holds me None w'.
Proof.
  intros Hl w'. unfold holds in *. assert (fs_locks w !! l = Some me) as Hme by by apply Hl. split.
  - intros j Hj. apply set_locks_respects. intros l'. destruct (decide (l' = l)) as [->|].
    + rewrite lookup_delete_eq, Hme. split; [done|]. by intros [= ?].
    + by rewrite lookup_delete_ne.
  - intros l'. cbn. destruct (decide (l' = l)) as [->|].
    + by rewrite lookup_delete_eq.
    + rewrite lookup_delete_ne, Hl by done. split; [congruence|done].
Qed.

Lemma open_store_spec path w : holds me None w → opener_wp (open_store path) (opened me) w.
Proof.
  intros Hl. apply wp_bind. eapply wp_mono; [|apply wp_harmless, identity_open_harmless].
  intros [d|e] w1 Hr1; [|by apply (holds_respects _ _ _ _ Hr1)].
  pose proof (holds_respects _ _ _ _ Hr1 Hl) as Hl1. intros a2 w2 Hr2 _.
  pose proof (holds_respects _ _ _ _ Hr2 Hl1) as Hl2. cbn [on_machine me_opener opener fs_perform].
  destruct (fs_locks w2 !! _) as [j|] eqn:Hf; [by split|].
  destruct (fa_error a2) as [e|]; [by split|].
  destruct (lock_spec _ _ Hl2 Hf) as [Ho Hl3]. split; [exact Ho|]. cbn [fst snd].
  apply (wp_bind _ _ (open_locked d)). eapply wp_mono; [|by apply open_locked_spec].
  intros [st|e] w4 H4; [by destruct H4|].
  intros a5 w5 Hr5 _. pose proof (holds_respects _ _ _ _ Hr5 H4) as Hl5.
  by apply unlock_spec.
Qed.
End opener.

(** ** All of them *)

(** What is known of opener [i]. *)
Definition opener_ok i (x : Opener) w : Prop :=
  match x with
  | Opening p => wp (M := opener i) (respects i) (spares_others i) p (opened i) w
  | Former _ => holds i None w
  | Again st => holds i (Some (lock_path (os_path st))) w
  end.
Definition openers_ok (s : gmap N Opener * Fs) : Prop := map_Forall (λ i x, opener_ok i x s.2) s.1.

Lemma opener_ok_respects i x w w' : respects i w w' → opener_ok i x w → opener_ok i x w'.
Proof.
  intros Hr. destruct x as [p|st|st]; [by apply wp_opened_later|by apply holds_respects..].
Qed.

Lemma owner_holds i x st b w :
  store_owner x = Some (st, b) → opener_ok i x w →
  holds i (Some (lock_path (os_path st))) w ∧ (b = true → opened i (Ok st) w).
Proof.
  destruct x as [[[st'|e]|X op k]|st'|st']; intros [= <- <-] Hx; [|by split].
  split; [|by intros _]. by destruct Hx.
Qed.

(** A step of opener [i] leaves the others alone. *)
Lemma openers_ok_insert i x P w w' :
  openers_ok (P, w) → spares_others i w w' → opener_ok i x w' → openers_ok (<[i := x]> P, w').
Proof.
  intros HP Ho Hx j y. cbn. destruct (decide (j = i)) as [->|Hj].
  - rewrite lookup_insert_eq. by intros [= <-].
  - rewrite lookup_insert_ne by done. intros Hy.
    by apply (opener_ok_respects j y w w' (Ho j Hj)), (HP j y).
Qed.

Lemma open_step_ok s s' : open_step s s' → openers_ok s → openers_ok s'.
Proof.
  destruct 1 as [i path P w Hi Hl|i X op k a P w Hi|i x st b a P w Hi Hx|i st a w' P w Hi Ha|
    P w w' Hr]; intros HP.
  - apply (openers_ok_insert _ _ _ w); [done|by intros j _|]. apply open_store_spec.
    intros l. split; [|done]. by intros ?%Hl.
  - destruct (HP i _ Hi a w (reflexivity w) I) as [Ho Hk]. by apply (openers_ok_insert _ _ _ w).
  - destruct (owner_holds _ _ _ _ _ Hx (HP i _ Hi)) as [Hl _].
    destruct (unlock_spec _ _ _ Hl) as [Ho Hl']. by apply (openers_ok_insert _ _ _ w).
  - cbn in Ha. destruct (fs_locks w !! _) eqn:Hf; [done|]. destruct (fa_error a); [done|].
    injection Ha as <-. destruct (lock_spec i _ w (HP i _ Hi) Hf) as [Ho Hl'].
    by apply (openers_ok_insert _ _ _ w).
  - intros i x Hi. by apply (opener_ok_respects i x w w' (Hr i)), (HP i x).
Qed.

Lemma reachable_ok w0 s : rtc open_step (∅, w0) s → openers_ok s.
Proof.
  intros Hr. assert (openers_ok (∅, w0)) as H0 by apply map_Forall_empty.
  induction Hr as [|s1 s2 s3 Hs _ IH]; [done|]. by eapply IH, open_step_ok.
Qed.

(** C7. Any number of stores are opened, on any paths and by any processes,
    release their lock and take it again, in any order and with any failures
    of the system; the rest of the system renames, links, replaces and creates
    files as it likes, except that it leaves alone what a held lock stands for.
    Then two owners never have the same path, and if each still has the lock
    [open] took, never the same file; such an owner's path leads to its file,
    which has no other name, and its schema is one that [open] accepts and
    leaves as it is.  A call of [open] that failed has left no lock behind. *)
Theorem sqlite_open_exclusive w0 P w i x :
  rtc open_step (∅, w0) (P, w) → P !! i = Some x →
  (∀ st b, store_owner x = Some (st, b) →
     fs_locks w !! lock_path (os_path st) = Some i ∧
     (b = true → placed (os_path st) (os_file st) w ∧ ready (os_file st) w) ∧
     ∀ j y st' b', j ≠ i → P !! j = Some y → store_owner y = Some (st', b') →
       os_path st' ≠ os_path st ∧ (b = true → b' = true → os_file st' ≠ os_file st)) ∧
  (∀ e, x = Opening (Ret (Err e)) → ∀ l, fs_locks w !! l ≠ Some i).
Proof.
  intros HP%reachable_ok Hi. split.
  - intros st b Hx. destruct (owner_holds _ _ _ _ _ Hx (HP i x Hi)) as [Hl Ho].
    split_and!; [by apply Hl|by intros [_ ?]%Ho|]. intros j y st' b' Hj Hy Hy'.
    destruct (owner_holds _ _ _ _ _ Hy' (HP j y Hy)) as [Hl' Ho'].
    destruct (owners_apart j i _ _ (os_file st') (os_file st) w Hj Hl' Hl) as [Hp Hk].
    split; [done|]. intros Hb Hb'. destruct (Ho Hb) as (_ & ? & _), (Ho' Hb') as (_ & ? & _). by apply Hk.
  - intros e -> l Hl. by apply (HP i _ Hi) in Hl.
Qed.

(** ** Examples *)

Lemma opener_runs i a p P w :
  rtc open_step (<[i := Opening p]> P, w)
    (<[i := Opening (Ret (run (M := opener i) a p w).1)]> P, (run (M := opener i) a p w).2).
Proof.
  revert w. induction p as [r|X op k IH]; intros w; [done|].
  eapply rtc_l; [eapply (open_self i op k a); apply lookup_insert_eq|].
  rewrite insert_insert_eq. cbn [run on_machine opener].
  specialize (IH (fs_perform i a op w).1 (fs_perform i a op w).2).
  destruct (fs_perform i a op w) as [x w']. apply IH.
Qed.

Lemma opener_opens i a path P w :
  P !! i = None → (∀ l, fs_locks w !! l ≠ Some i) →
  rtc open_step (P, w) (<[i := Opening (Ret (run (M := opener i) a (open_store path) w).1)]> P,
                        (run (M := opener i) a (open_store path) w).2).
Proof. intros Hi Hl. eapply rtc_l; [by apply (open_new i path)|]. apply opener_runs. Qed.

Definition unlocked i w : bool :=
  bool_decide (map_Forall (λ _ j, j ≠ i) (fs_locks w)).
Lemma unlocked_spec i w : unlocked i w = true → ∀ l, fs_locks w !! l ≠ Some i.
Proof. intros H%bool_decide_eq_true l Hl. by apply (H l i Hl). Qed.

Definition rooted (l : list string) : Path := (true, l).
Definition app_db : Path := rooted ["data"; "app.db"].
Definition old_db : Path := rooted ["data"; "old.db"].
(** [/home/link.db] is a symbolic link to [/data/app.db], which does not exist
    yet. *)
Definition link_db : Path := rooted ["home"; "link.db"].
Definition disk : Fs :=
  {| fs_resolve p := if bool_decide (p = link_db) then app_db else p;
     fs_names := {[old_db := (1, 7)]}; fs_locks := ∅; fs_catalogs := {[(1, 7) := schema_at 5]} |}.
Definition no_errors : FsAnswers :=
  {| fa_error := None; fa_current_dir := rooted []; fa_new_key := (1, 8) |}.

Definition opens i path w := run (M := opener i) no_errors (open_store path) w.
(** Three calls: on the link, on its target, and on another database. *)
Definition disk1 : Fs := (opens 1 link_db disk).2.
Definition disk2 : Fs := (opens 2 app_db disk1).2.
Definition disk3 : Fs := (opens 3 old_db disk2).2.
Definition three : gmap N Opener :=
  <[3 := Opening (Ret (opens 3 old_db disk2).1)]>
    (<[2 := Opening (Ret (opens 2 app_db disk1).1)]>
       (<[1 := Opening (Ret (opens 1 link_db disk).1)]> ∅)).

Lemma three_reachable : rtc open_step (∅, disk) (three, disk3).
Proof.
  etrans; [apply (opener_opens 1 no_errors link_db); [done|]; apply unlocked_spec; vm_compute; reflexivity|].
  etrans; [apply (opener_opens 2 no_errors app_db); [done|]; apply unlocked_spec; vm_compute; reflexivity|].
  apply (opener_opens 3 no_errors old_db); [done|]. apply unlocked_spec. vm_compute. reflexivity.
Qed.

(** The link's target is created and locked, a second call on it conflicts, and
    the other database is migrated beside it. *)
Lemma sqlite_open_exclusive_witness :
  (opens 1 link_db disk).1 = Ok {| os_path := app_db; os_file := (1, 8) |} ∧
  (opens 2 app_db disk1).1 = Err OwnerConflict ∧
  (opens 3 old_db disk2).1 = Ok {| os_path := old_db; os_file := (1, 7) |} ∧
  fs_locks disk3 !! lock_path app_db = Some 1 ∧ ready (1, 8) disk3 ∧ placed app_db (1, 8) disk3 ∧
  (∀ l, fs_locks disk3 !! l ≠ Some 2).
Proof.
  assert ((opens 1 link_db disk).1 = Ok {| os_path := app_db; os_file := (1, 8) |}) as H1
    by (vm_compute; reflexivity).
  assert ((opens 2 app_db disk1).1 = Err OwnerConflict) as H2 by (vm_compute; reflexivity).
  assert ((opens 3 old_db disk2).1 = Ok {| os_path := old_db; os_file := (1, 7) |}) as H3
    by (vm_compute; reflexivity).
  split; [exact H1|]. split; [exact H2|]. split; [exact H3|].
  pose proof three_reachable as Hr.
  assert (three !! 1 = Some (Opening (Ret (Ok {| os_path := app_db; os_file := (1, 8) |})))) as E1
    by (rewrite <- H1; reflexivity).
  assert (three !! 2 = Some (Opening (Ret (Err OwnerConflict)))) as E2
    by (rewrite <- H2; reflexivity).
  destruct (proj1 (sqlite_open_exclusive _ _ _ _ _ Hr E1) _ true eq_refl) as (Hl & Hb & _).
  destruct (Hb eq_refl) as [Hp Hc]. split; [exact Hl|]. split; [exact Hc|]. split; [exact Hp|].
  exact (proj2 (sqlite_open_exclusive _ _ _ _ _ Hr E2) _ eq_refl).
Defined.

(** [acquire_owner] takes the lock of the path again without verifying that the
    path still leads to the file of the connection.  A store whose database was
    renamed while it held no lock then owns a file together with the store that
    was opened at the new path. *)
Definition moved_db : Path := rooted ["data"; "moved.db"].
Definition free1 : Fs := set_locks ∅ disk1.
Definition moved : Fs :=
  {| fs_resolve := fs_resolve free1;
     fs_names := <[moved_db := (1, 8)]> (delete app_db (fs_names free1));
     fs_locks := fs_locks free1; fs_catalogs := fs_catalogs free1 |}.
Definition moved2 : Fs := (opens 2 moved_db moved).2.

Lemma rename_respects i : respects i free1 moved.
Proof. split; [done|]. by intros p k [=]. Qed.

Lemma sqlite_acquire_unverified :
  ∃ P w st st', rtc open_step (∅, disk) (P, w) ∧
    store_owner <$> P !! 1 = Some (Some (st, false)) ∧ store_owner <$> P !! 2 = Some (Some (st', true)) ∧
    os_file st = os_file st'.
Proof.
  pose (st := {| os_path := app_db; os_file := (1, 8) |}).
  assert ((opens 1 link_db disk).1 = Ok st) as H1 by (vm_compute; reflexivity).
  assert ((opens 2 moved_db moved).1 = Ok {| os_path := moved_db; os_file := (1, 8) |}) as H2
    by (vm_compute; reflexivity).
  assert (delete (lock_path app_db) (fs_locks disk1) = ∅) as Hd by (vm_compute; reflexivity).
  pose (P1 := <[1 := Former st]> (∅ : gmap N Opener)).
  pose (w3 := set_locks (<[lock_path app_db := 1]> (fs_locks moved2)) moved2).
  exists (<[1 := Again st]> (<[2 := Opening (Ret (opens 2 moved_db moved).1)]> P1)), w3.
  exists st, {| os_path := moved_db; os_file := (1, 8) |}.
  split_and!; [|reflexivity|rewrite H2; reflexivity|reflexivity].
  etrans; [apply (opener_opens 1 no_errors link_db); [done|]; apply unlocked_spec; vm_compute; reflexivity|].
  fold (opens 1 link_db disk) disk1. rewrite H1.
  eapply rtc_l; [eapply (open_release 1 _ st true no_errors); [apply lookup_insert_eq|reflexivity]|].
  cbn [fs_perform snd]. change (os_path st) with app_db. rewrite insert_insert_eq, Hd. fold free1 P1.
  eapply rtc_l; [apply (open_outside _ free1 moved), rename_respects|].
  etrans; [apply (opener_opens 2 no_errors moved_db); [done|]; apply unlocked_spec; vm_compute; reflexivity|].
  apply rtc_once, (open_again 1 st no_errors); [reflexivity|].
  fold (opens 2 moved_db moved) moved2. cbn [fs_perform fa_error no_errors].
  assert (fs_locks moved2 !! lock_path (os_path st) = None) as -> by (vm_compute; reflexivity).
  reflexivity.
Qed.
