(* ===== verification/ServiceMonad.v ===== *)
(** * Programs of the service

    The service is a set of asynchronous functions over one shared core and one
    store.  They interleave at store calls and at accesses of the shared
    fields, so each is a program: a tree of atomic operations, between which
    others may run.  [run] executes one alone.

    Wake-ups ([Notify]) have no state of their own, and waiting is a pause
    between two operations; the admission lock orders shutdown against
    submissions and is not modelled, so more interleavings are considered than
    can happen. *)

From stdpp Require Import pretty.
From S2P Require Import Prelude TaskState Model Engine RetryPolicy Requests Handlers MemoryStore.
From S2P Require Import MemoryInvariant MemoryPreservation MemoryHistory MemoryQueries TaskStore.
From S2P Require Import Programs.

(** ** Errors and outcomes *)

Inductive CancelOutcome :=
| CancelledBeforeStart | CancellationRequested | CancellationUnsupported | AlreadyTerminal.

(** What a provider of the event bus guarantees: the values the service
    accepts, and any other. *)
Inductive PublishGuarantee :=
| GuaranteeAccepted | GuaranteeConfirmed | GuaranteeDurablyStored
| OtherGuarantee (name : string).

Inductive TaskServiceError :=
| IdGeneration (message : string)
| TypedRequest (message : string)
| Store (e : StoreError)
| SubmissionCapacityExceeded (requested_bytes available_bytes : N)
| UnfinishedTaskLimitExceeded (limit : N)
| SubmissionIdempotencyConflict
| DuplicateTaskId
| InvalidServiceRequest (message : string)
| NotBlocked (actual : TaskStateKind)
| CancellationPending
| ShuttingDown
| StoreUnavailable (message : string)
| SchedulerUnavailable (message : string)
| NotificationProviderNotDurable (provider_id : string)
| NotificationProviderInsufficientGuarantee (provider_id : string) (actual : PublishGuarantee)
| NotificationCodecUnavailable (provider_id topic source : string)
| NotificationClose (message : string)
| ExternalCancellationFailed (task_id : TaskId) (attempt : N) (message : string)
| RunningCancellationUnsupported.

Inductive ExternalCancelResult :=
| ExtSuccess | ExtAlreadyTerminal | HookFailed (message : string) | ServiceFailed (message : string).

(** A flight is the shared result channel of one hook invocation. *)
Inductive ExternalCancelEntry := InFlight (flight : N) | HookSucceeded.

Inductive TaskRunOutcome := RunSucceeded (output : TaskOutput) | RunCancelled.

(** [StoreError]'s [Display]. *)
Definition StoreError_to_string (e : StoreError) : string :=
  match e with
  | UnsupportedCapability => "the selected task store does not support the requested capability"
  | UnsupportedDatabaseIdentity =>
      "the SQLite database file identity cannot be verified on this platform"
  | OwnerConflict => "the SQLite database already has an active owner"
  | DuplicateTask => "task identifier already exists"
  | IdempotencyConflict => "idempotency key was reused with a different task request"
  | CapacityExceeded requested available =>
      "task payload budget exceeded: requested " +:+ pretty requested +:+ " bytes, "
      +:+ pretty available +:+ " bytes available"
  | UnfinishedRecordLimitExceeded limit =>
      "unfinished task record limit exceeded (" +:+ pretty limit +:+ ")"
  | Conflict => "task state changed before the requested transition"
  | InvalidRequest message => "invalid task data: " +:+ message
  | InvalidTransition => "task lifecycle transition is not allowed"
  | NotFound => "task was not found"
  | Failure message => "task store failure: " +:+ message
  end.

Definition EngineError_to_string (e : EngineError) : string :=
  match e with
  | TemporarilyUnavailable => "requested resources are temporarily unavailable"
  | Unsatisfiable => "requested resources cannot be satisfied by this engine"
  | ReservationTokenExhausted => "task execution reservation identifier space is exhausted"
  end.

(** ** Shared state *)

Section service.
Context `{ET : !ExternalTypes, SJ : !SnapshotJson, CT : !CodecTypes, MW : !MetadataWire,
          HF : !HandlerFutures}.

(** What the service is built with. *)
Record ServiceConfig := {
  cf_codecs : ValueBytesCodecRegistry;
  cf_handlers : gmap string Registration;
  cf_capacity : ResourceCapacity;
  cf_max_running_tasks : N;
  cf_scan_page_size : N;
  cf_max_resource_bypasses : N;
  cf_max_attempts : N;
  cf_retry_policy : RetryPolicy;
}.

(** Work handed to [tokio::spawn]. *)
Inductive Spawned :=
| SpawnRun (id : TaskId) (running : TaskSummary) (reservation : N)
| SpawnExternalCancel (key : TaskId * N) (kind_id : string) (flight : N).

(** The mutable part of [TypedServiceCore], with the engine's ledger. *)
Record ServiceCore := {
  co_ledger : ResourceLedger;
  co_cancellations : gmap (TaskId * N) bool;
  co_external_cancellations : gmap (TaskId * N) ExternalCancelEntry;
  co_flights : gmap N ExternalCancelResult;
  co_next_flight : N;
  co_fault : option string;
  co_in_flight : N;
  co_shutting_down : bool;
  co_owner_released : bool;
  co_spawned : list Spawned;
}.

Definition core_new : ServiceCore :=
  {| co_ledger := ledger_new; co_cancellations := ∅; co_external_cancellations := ∅;
     co_flights := ∅; co_next_flight := 0; co_fault := None; co_in_flight := 0;
     co_shutting_down := false; co_owner_released := false; co_spawned := [] |}.

Definition set_ledger (l : ResourceLedger) (co : ServiceCore) : ServiceCore :=
  {| co_ledger := l; co_cancellations := co_cancellations co;
     co_external_cancellations := co_external_cancellations co; co_flights := co_flights co;
     co_next_flight := co_next_flight co; co_fault := co_fault co;
     co_in_flight := co_in_flight co; co_shutting_down := co_shutting_down co;
     co_owner_released := co_owner_released co; co_spawned := co_spawned co |}.
Definition set_cancellations (m : gmap (TaskId * N) bool) (co : ServiceCore) : ServiceCore :=
  {| co_ledger := co_ledger co; co_cancellations := m;
     co_external_cancellations := co_external_cancellations co; co_flights := co_flights co;
     co_next_flight := co_next_flight co; co_fault := co_fault co;
     co_in_flight := co_in_flight co; co_shutting_down := co_shutting_down co;
     co_owner_released := co_owner_released co; co_spawned := co_spawned co |}.
Definition set_external (m : gmap (TaskId * N) ExternalCancelEntry) (co : ServiceCore)
    : ServiceCore :=
  {| co_ledger := co_ledger co; co_cancellations := co_cancellations co;
     co_external_cancellations := m; co_flights := co_flights co;
     co_next_flight := co_next_flight co; co_fault := co_fault co;
     co_in_flight := co_in_flight co; co_shutting_down := co_shutting_down co;
     co_owner_released := co_owner_released co; co_spawned := co_spawned co |}.
Definition set_flights (m : gmap N ExternalCancelResult) (next : N) (co : ServiceCore)
    : ServiceCore :=
  {| co_ledger := co_ledger co; co_cancellations := co_cancellations co;
     co_external_cancellations := co_external_cancellations co; co_flights := m;
     co_next_flight := next; co_fault := co_fault co;
     co_in_flight := co_in_flight co; co_shutting_down := co_shutting_down co;
     co_owner_released := co_owner_released co; co_spawned := co_spawned co |}.
Definition set_fault (fault : option string) (shutting_down : bool) (co : ServiceCore)
    : ServiceCore :=
  {| co_ledger := co_ledger co; co_cancellations := co_cancellations co;
     co_external_cancellations := co_external_cancellations co; co_flights := co_flights co;
     co_next_flight := co_next_flight co; co_fault := fault;
     co_in_flight := co_in_flight co; co_shutting_down := shutting_down;
     co_owner_released := co_owner_released co; co_spawned := co_spawned co |}.
Definition mark_released (co : ServiceCore) : ServiceCore :=
  {| co_ledger := co_ledger co; co_cancellations := co_cancellations co;
     co_external_cancellations := co_external_cancellations co; co_flights := co_flights co;
     co_next_flight := co_next_flight co; co_fault := co_fault co;
     co_in_flight := co_in_flight co; co_shutting_down := co_shutting_down co;
     co_owner_released := true; co_spawned := co_spawned co |}.
Definition set_in_flight (n : N) (spawned : list Spawned) (co : ServiceCore) : ServiceCore :=
  {| co_ledger := co_ledger co; co_cancellations := co_cancellations co;
     co_external_cancellations := co_external_cancellations co; co_flights := co_flights co;
     co_next_flight := co_next_flight co; co_fault := co_fault co;
     co_in_flight := n; co_shutting_down := co_shutting_down co;
     co_owner_released := co_owner_released co; co_spawned := spawned |}.

(** ** Programs *)

(** What running user code yields: a panic, or its result. *)
Definition HandlerExecution : Type := option (result TaskRunOutcome TaskRunError).
(** What a panic carries: a [&str], a [String], or something else. *)
Inductive PanicPayload := PanicStr (message : string) | PanicString (message : string) | PanicOther.
Inductive HookExecution := HookDone | HookError (message : string) | HookPanic (panic : PanicPayload).

Inductive Op : Type → Type :=
| OpAccept (id : TaskId) (r : StoredTaskRequest) : Op (result AcceptOutcome StoreError)
| OpGet (id : TaskId) : Op (result (option StoredTask) StoreError)
| OpCheckpoint (id : TaskId) : Op (result (option TaskStateCheckpoint) StoreError)
| OpStart (c : StartCommand) : Op (result TaskSummary StoreError)
| OpTransition (c : TransitionCommand) : Op (result TaskSummary StoreError)
| OpProgress (c : ProgressCommand) : Op (result TaskSummary StoreError)
| OpList (q : TaskQuery) : Op (result TaskPage StoreError)
| OpReady (after : option TaskCursor) (limit now : N) : Op (result TaskPage StoreError)
| OpNextDeadline (now : N) : Op (result (option N) StoreError)
| OpCore (X : Type) (f : ServiceCore → X * ServiceCore) : Op X
| OpNow : Op N
| OpGenerateId : Op (result TaskId TaskServiceError)
| OpRun (p : PreparedTask) (id : TaskId) (attempt : N) : Op HandlerExecution
| OpHook (h : HookFuture) : Op HookExecution
| OpPanics : Op bool.

Notation prog := (program Op).

Definition core {X} (f : ServiceCore → X * ServiceCore) : prog X := call (OpCore X f).
Definition read_core {X} (f : ServiceCore → X) : prog X := core (λ co, (f co, co)).
Definition modify_core (f : ServiceCore → ServiceCore) : prog unit := core (λ co, (tt, f co)).

(** The store or the user code called in [body] may panic instead of doing
    anything; [unwind] is what unwinding drops and the handler that catches the
    panic does. *)
Definition unless_panic {A} (unwind body : prog A) : prog A :=
  panics ← call OpPanics; if (panics : bool) then unwind else body.

(** ** Running a program *)

(** Answers of the outside world to one operation; [or_disk] is a failure that
    the store meets below its own logic, [or_panics] whether the code that is
    called next panics. *)
Record Oracle := {
  or_now : N;
  or_id : result TaskId TaskServiceError;
  or_run : PreparedTask → TaskId → N → HandlerExecution;
  or_hook : HookFuture → HookExecution;
  or_disk : option string;
  or_panics : bool;
}.

(** Such a failure is reported; a write is rolled back. *)
Definition disk_read {A} (o : Oracle) (res : result A StoreError) : result A StoreError :=
  match or_disk o with None => res | Some message => Err (Failure message) end.
Definition disk_write {S A} (o : Oracle) (f : S → result A StoreError * S) (s : S)
    : result A StoreError * S :=
  match or_disk o with None => f s | Some message => (Err (Failure message), s) end.

Section worlds.
Context {S : Type} `{TS : !TaskStore S}.

Record World := { w_store : S; w_core : ServiceCore }.

Definition on_store {X} (f : S → X * S) (w : World) : X * World :=
  let '(x, s) := f (w_store w) in (x, {| w_store := s; w_core := w_core w |}).

(** One atomic operation; the store takes the time from the same clock. *)
Definition perform (o : Oracle) {X} (op : Op X) : World → X * World :=
  match op in Op X return World → X * World with
  | OpAccept id r => on_store (disk_write o (do_accept (or_now o) id r))
  | OpGet id => λ w, (disk_read o (do_get id (w_store w)), w)
  | OpCheckpoint id => λ w, (disk_read o (do_checkpoint id (w_store w)), w)
  | OpStart c => on_store (disk_write o (do_start (or_now o) c))
  | OpTransition c => on_store (disk_write o (do_transition (or_now o) c))
  | OpProgress c => on_store (disk_write o (do_progress c))
  | OpList q => λ w, (disk_read o (do_list q (w_store w)), w)
  | OpReady after limit now => λ w,
      (disk_read o (do_ready after limit now (w_store w)), w)
  | OpNextDeadline now => λ w, (disk_read o (do_next_deadline now (w_store w)), w)
  | OpCore X f => λ w,
      let '(x, co) := f (w_core w) in (x, {| w_store := w_store w; w_core := co |})
  | OpNow => λ w, (or_now o, w)
  | OpGenerateId => λ w, (or_id o, w)
  | OpRun p id attempt => λ w, (or_run o p id attempt, w)
  | OpHook h => λ w, (or_hook o h, w)
  | OpPanics => λ w, (or_panics o, w)
  end.

#[global] Instance world_machine : Machine Op World :=
  {| Answers := Oracle; on_machine := λ o X op w, perform o op w; promised := λ X op w, True |}.

(** A run alone in which every operation gets an answer of its own: the [n]-th
    that of [os n]. *)
#[global] Instance timed_machine : Machine Op (World * nat) :=
  {| Answers := nat → Oracle;
     on_machine := λ os X op w, let '(x, w') := perform (os w.2) op w.1 in (x, (w', 1 + w.2)%nat);
     promised := λ X op w, True |}.
End worlds.
End service.

Arguments World {_} S.
Notation prog := (program Op).
