(* ===== verification/Publisher.v ===== *)
(** * The event publisher

    [TaskEventPublisher] of [src/src/service/task_event_publisher]: one worker
    reads the outbox of the SQLite store page by page, publishes each event on
    the event bus, and deletes a row after the bus has admitted it.  Writers of
    the store, clients that quarantine a failed event and the service that
    closes the publisher run in between, so the worker is a program of atomic
    operations.

    The bus, its identifiers and requests, and the parser of stored events are
    parameters.  Notifications and timers decide only when the worker goes on;
    the channel of control commands is a queue that stays open while the worker
    runs, since the publisher owns both. *)

From stdpp Require Import pretty.
From S2P Require Import Prelude TaskState Model MemoryStore SqliteStore SqliteAdmin.
From S2P Require Import Programs ServiceMonad.

Section publisher.
Context `{ET : !ExternalTypes, SJ : !SnapshotJson, QJ : !SqliteJson}.

(** ** The event bus *)

Class EventBus := {
  EventId : Type;
  event_id_new : string → result EventId string;
  PublishRequest : Type;
  publish_request : TaskEvent → EventId → result PublishRequest string;
  event_from_str : string → result TaskEvent string;
  debug_option : option string → string;
}.
Context `{EB : !EventBus}.

(** ** State *)

Record NotificationFailure := {
  nf_task_id : TaskId; nf_state_version : N; nf_event_id : string; nf_error : string;
}.

(** [response] names the channel the result is sent on. *)
Record QuarantineCommand := {
  qc_expected_task_id : TaskId;
  qc_expected_state_version : N;
  qc_expected_event_id : string;
  qc_reason : string;
  qc_response : N;
}.

Record NotificationStats := {
  ns_queued : N; ns_published : N; ns_dropped : N; ns_failed : N;
}.

(** [PublisherState] and the control channel of [TaskEventPublisher]. *)
Record PublisherState := {
  ps_closing : bool;
  ps_pending : N;
  ps_queued : N;
  ps_published : N;
  ps_failed : N;
  ps_last_error : option string;
  ps_failure : option NotificationFailure;
  ps_in_flight_event_id : option string;
  ps_controls : list QuarantineCommand;
  ps_responses : gmap N (result unit TaskServiceError);
  ps_next_response : N;
}.

Definition publisher_state_new : PublisherState :=
  {| ps_closing := false; ps_pending := 0; ps_queued := 0; ps_published := 0; ps_failed := 0;
     ps_last_error := None; ps_failure := None; ps_in_flight_event_id := None;
     ps_controls := []; ps_responses := ∅; ps_next_response := 0 |}.

Definition snapshot (ps : PublisherState) : NotificationStats :=
  {| ns_queued := ps_queued ps; ns_published := ps_published ps; ns_dropped := 0;
     ns_failed := ps_failed ps |}.

(** [fetch_add] of a 64-bit counter. *)
Definition u64_add (a b : N) : N := (a + b) mod (u64_max + 1).

Definition set_closing (ps : PublisherState) : PublisherState :=
  {| ps_closing := true; ps_pending := ps_pending ps; ps_queued := ps_queued ps;
     ps_published := ps_published ps; ps_failed := ps_failed ps;
     ps_last_error := ps_last_error ps; ps_failure := ps_failure ps;
     ps_in_flight_event_id := ps_in_flight_event_id ps; ps_controls := ps_controls ps;
     ps_responses := ps_responses ps; ps_next_response := ps_next_response ps |}.
Definition set_pending (n : N) (ps : PublisherState) : PublisherState :=
  {| ps_closing := ps_closing ps; ps_pending := n; ps_queued := ps_queued ps;
     ps_published := ps_published ps; ps_failed := ps_failed ps;
     ps_last_error := ps_last_error ps; ps_failure := ps_failure ps;
     ps_in_flight_event_id := ps_in_flight_event_id ps; ps_controls := ps_controls ps;
     ps_responses := ps_responses ps; ps_next_response := ps_next_response ps |}.
Definition count (queued published failed : N) (ps : PublisherState) : PublisherState :=
  {| ps_closing := ps_closing ps; ps_pending := ps_pending ps;
     ps_queued := u64_add (ps_queued ps) queued;
     ps_published := u64_add (ps_published ps) published;
     ps_failed := u64_add (ps_failed ps) failed;
     ps_last_error := ps_last_error ps; ps_failure := ps_failure ps;
     ps_in_flight_event_id := ps_in_flight_event_id ps; ps_controls := ps_controls ps;
     ps_responses := ps_responses ps; ps_next_response := ps_next_response ps |}.
Definition set_last_error (e : option string) (ps : PublisherState) : PublisherState :=
  {| ps_closing := ps_closing ps; ps_pending := ps_pending ps; ps_queued := ps_queued ps;
     ps_published := ps_published ps; ps_failed := ps_failed ps; ps_last_error := e;
     ps_failure := ps_failure ps; ps_in_flight_event_id := ps_in_flight_event_id ps;
     ps_controls := ps_controls ps; ps_responses := ps_responses ps;
     ps_next_response := ps_next_response ps |}.
Definition set_failure (f : option NotificationFailure) (ps : PublisherState) : PublisherState :=
  {| ps_closing := ps_closing ps; ps_pending := ps_pending ps; ps_queued := ps_queued ps;
     ps_published := ps_published ps; ps_failed := ps_failed ps;
     ps_last_error := ps_last_error ps; ps_failure := f;
     ps_in_flight_event_id := ps_in_flight_event_id ps; ps_controls := ps_controls ps;
     ps_responses := ps_responses ps; ps_next_response := ps_next_response ps |}.
Definition set_in_flight_event (e : option string) (ps : PublisherState) : PublisherState :=
  {| ps_closing := ps_closing ps; ps_pending := ps_pending ps; ps_queued := ps_queued ps;
     ps_published := ps_published ps; ps_failed := ps_failed ps;
     ps_last_error := ps_last_error ps; ps_failure := ps_failure ps;
     ps_in_flight_event_id := e; ps_controls := ps_controls ps;
     ps_responses := ps_responses ps; ps_next_response := ps_next_response ps |}.
Definition set_controls (l : list QuarantineCommand) (ps : PublisherState) : PublisherState :=
  {| ps_closing := ps_closing ps; ps_pending := ps_pending ps; ps_queued := ps_queued ps;
     ps_published := ps_published ps; ps_failed := ps_failed ps;
     ps_last_error := ps_last_error ps; ps_failure := ps_failure ps;
     ps_in_flight_event_id := ps_in_flight_event_id ps; ps_controls := l;
     ps_responses := ps_responses ps; ps_next_response := ps_next_response ps |}.
Definition set_responses (m : gmap N (result unit TaskServiceError)) (next : N)
    (ps : PublisherState) : PublisherState :=
  {| ps_closing := ps_closing ps; ps_pending := ps_pending ps; ps_queued := ps_queued ps;
     ps_published := ps_published ps; ps_failed := ps_failed ps;
     ps_last_error := ps_last_error ps; ps_failure := ps_failure ps;
     ps_in_flight_event_id := ps_in_flight_event_id ps; ps_controls := ps_controls ps;
     ps_responses := m; ps_next_response := next |}.

(** The failure names the entry. *)
Definition names_entry (entry : EventOutboxEntry) (f : NotificationFailure) : bool :=
  (nf_task_id f =? oe_task_id entry) && (nf_state_version f =? oe_state_version entry)
  && bool_decide (nf_event_id f = oe_event_id entry).

Definition clear_failure_if_head_changed (entry : EventOutboxEntry) (ps : PublisherState)
    : PublisherState :=
  if is_some_and (λ f, negb (names_entry entry f)) (ps_failure ps)
  then set_failure None ps else ps.
Definition clear_failure_for (entry : EventOutboxEntry) (ps : PublisherState) : PublisherState :=
  if is_some_and (names_entry entry) (ps_failure ps) then set_failure None ps else ps.

(** [try_recv]. *)
Definition try_recv (ps : PublisherState) : option QuarantineCommand * PublisherState :=
  match ps_controls ps with
  | [] => (None, ps)
  | c :: rest => (Some c, set_controls rest ps)
  end.

(** ** Operations *)

(** [PubSelect] is a [select!] between a timer or notification and the next
    control command; [PubPublish] carries the entry its request was built
    from. *)
Inductive PubOp : Type → Type :=
| PubList (limit : N) : PubOp (result (list EventOutboxEntry) StoreError)
| PubMark (id : TaskId) (version : N) : PubOp (result unit StoreError)
| PubQuarantine (id : TaskId) (version : N) (event_id reason last_error : string)
    : PubOp (result unit StoreError)
| PubPublish (entry : EventOutboxEntry) (request : PublishRequest) : PubOp (result unit string)
| PubSelect (delay_ms : N) : PubOp (option QuarantineCommand)
| PubState (X : Type) (f : PublisherState → X * PublisherState) : PubOp X.

Notation job := (program PubOp).
Definition on_state {X} (f : PublisherState → X * PublisherState) : job X := call (PubState X f).
Definition read_state {X} (f : PublisherState → X) : job X := on_state (λ ps, (f ps, ps)).
Definition modify_state (f : PublisherState → PublisherState) : job unit :=
  on_state (λ ps, (tt, f ps)).

(** ** Publishing one event *)

(** The request built from a stored event. *)
Definition entry_request (entry : EventOutboxEntry) : result PublishRequest string :=
  let? event := event_from_str (oe_event_json entry) in
  let? event_id := event_id_new (oe_event_id entry) in
  publish_request event event_id.

Definition publish (entry : EventOutboxEntry) : job (result unit string) :=
  match entry_request entry with
  | Err e => Ret (Err e)
  | Ok request =>
      modify_state (set_in_flight_event (Some (oe_event_id entry)));;
      published ← call (PubPublish entry request);
      modify_state (set_in_flight_event None);;
      match published with
      | Err e => Ret (Err ("publication for event " +:+ oe_event_id entry +:+ " failed: " +:+ e))
      | Ok _ =>
          marked ← call (PubMark (oe_task_id entry) (oe_state_version entry));
          match marked with
          | Err e => Ret (Err (StoreError_to_string e))
          | Ok _ => modify_state (count 0 1 0);; Ret (Ok tt)
          end
      end
  end.

(** ** Quarantine commands *)

Definition names_command (c : QuarantineCommand) (f : NotificationFailure) : bool :=
  (nf_task_id f =? qc_expected_task_id c)
  && (nf_state_version f =? qc_expected_state_version c)
  && bool_decide (nf_event_id f = qc_expected_event_id c).

Definition respond (c : QuarantineCommand) (r : result unit TaskServiceError)
    (ps : PublisherState) : PublisherState :=
  set_responses (<[qc_response c := r]> (ps_responses ps)) (ps_next_response ps) ps.

Definition process_control (c : QuarantineCommand) : job bool :=
  failure ← read_state ps_failure;
  res ← (match failure with
         | Some f =>
             if names_command c f then
               res ← call (PubQuarantine (qc_expected_task_id c) (qc_expected_state_version c)
                             (qc_expected_event_id c) (qc_reason c) (nf_error f));
               Ret (map_err Store res)
             else Ret (Err (Store Conflict))
         | None => Ret (Err (Store Conflict))
         end : job (result unit TaskServiceError));
  (if is_ok res then modify_state (set_failure None);; modify_state (set_last_error None)
   else Ret tt);;
  modify_state (respond c res);;
  Ret (is_ok res).

(** [fuel] bounds the number of commands handled in one go; [None]: more than
    that. *)
Fixpoint process_queued_controls (fuel : nat) (quarantined : bool) : job (option bool) :=
  match fuel with
  | O => Ret None
  | S fuel =>
      command ← on_state try_recv;
      match command with
      | None => Ret (Some quarantined)
      | Some c =>
          done ← process_control c;
          process_queued_controls fuel (quarantined || done)
      end
  end.

Fixpoint wait_after_failure (fuel : nat) (delay_ms : N) : job (option bool) :=
  match fuel with
  | O => Ret None
  | S fuel =>
      command ← call (PubSelect delay_ms);
      match command with
      | None => Ret (Some false)
      | Some c =>
          done ← process_control c;
          if (done : bool) then Ret (Some true) else wait_after_failure fuel delay_ms
      end
  end.

(** ** The worker *)

Definition record_failure (entry : EventOutboxEntry) (error : string) : job unit :=
  modify_state (count 0 0 1);;
  modify_state (set_last_error (Some error));;
  modify_state (set_failure (Some
    {| nf_task_id := oe_task_id entry; nf_state_version := oe_state_version entry;
       nf_event_id := oe_event_id entry; nf_error := error |})).

(** The entries of one page; the answer says whether one failed. *)
Fixpoint publish_entries (fuel : nat) (entries : list EventOutboxEntry) : job (option bool) :=
  match entries with
  | [] => Ret (Some false)
  | entry :: rest =>
      modify_state (clear_failure_if_head_changed entry);;
      quarantined ← process_queued_controls fuel false;
      match quarantined with
      | None => Ret None
      | Some true => Ret (Some false)
      | Some false =>
          published ← publish entry;
          match published with
          | Err error => record_failure entry error;; Ret (Some true)
          | Ok _ =>
              modify_state (clear_failure_for entry);;
              modify_state (λ ps, set_pending (usize_sub (ps_pending ps) 1) ps);;
              publish_entries fuel rest
          end
      end
  end.

Definition INITIAL_BACKOFF_MS : N := 25.
Definition MAX_BACKOFF_MS : N := 1000.
Definition next_backoff (backoff : N) : N := N.min (backoff * 2) MAX_BACKOFF_MS.
Definition OUTBOX_PAGE : N := 128.

(** [fuel] bounds the rounds of the worker; [None]: still running. *)
Fixpoint run_worker (fuel controls : nat) (backoff : N) : job (option unit) :=
  match fuel with
  | O => Ret None
  | S fuel =>
      let retry_later :=
        again ← wait_after_failure controls backoff;
        match again with
        | None => Ret None
        | Some true => run_worker fuel controls INITIAL_BACKOFF_MS
        | Some false => run_worker fuel controls (next_backoff backoff)
        end in
      handled ← process_queued_controls controls false;
      if is_none handled then Ret None else
      page ← call (PubList OUTBOX_PAGE);
      match page with
      | Err error =>
          modify_state (count 0 0 1);;
          modify_state (set_last_error (Some (StoreError_to_string error)));;
          retry_later
      | Ok [] =>
          modify_state (set_pending 0);;
          closing ← read_state ps_closing;
          if (closing : bool) then
            handled ← process_queued_controls controls false;
            match handled with
            | None => Ret None
            | Some true => run_worker fuel controls backoff
            | Some false => Ret (Some tt)
            end
          else
            command ← call (PubSelect MAX_BACKOFF_MS);
            (match command with Some c => process_control c | None => Ret false end);;
            run_worker fuel controls INITIAL_BACKOFF_MS
      | Ok entries =>
          modify_state (set_pending (N.of_nat (length entries)));;
          failed ← publish_entries controls entries;
          match failed with
          | None => Ret None
          | Some false => run_worker fuel controls INITIAL_BACKOFF_MS
          | Some true =>
              handled ← process_queued_controls controls false;
              match handled with
              | None => Ret None
              | Some true => run_worker fuel controls INITIAL_BACKOFF_MS
              | Some false => retry_later
              end
          end
      end
  end.

(** ** The publisher's interface *)

Definition notify (ps : PublisherState) : PublisherState := count 1 0 0 ps.

Definition CONTROL_CAPACITY : N := 16.

(** Validation and sending, under the control gate; the answer is the channel
    on which the result arrives.  [receiver_dropped]: the worker is gone without
    having been closed. *)
Definition quarantine_failed (service_shutting_down receiver_dropped : bool)
    (expected_task_id : TaskId)
    (expected_state_version : N) (expected_event_id reason : string) (ps : PublisherState)
    : result N TaskServiceError * PublisherState :=
  let reason := trim reason in
  if str_is_empty reason
  then (Err (InvalidServiceRequest "notification quarantine reason must not be blank"), ps) else
  if 4096 <? str_len reason
  then (Err (InvalidServiceRequest "notification quarantine reason exceeds 4096 UTF-8 bytes"), ps)
  else
  if service_shutting_down || ps_closing ps then (Err ShuttingDown, ps) else
  if receiver_dropped
  then (Err (NotificationClose
               "notification worker stopped before accepting quarantine command"), ps) else
  if CONTROL_CAPACITY <=? N.of_nat (length (ps_controls ps))
  then (Err (InvalidServiceRequest "notification quarantine control queue is full"), ps) else
  let response := ps_next_response ps in
  let command :=
    {| qc_expected_task_id := expected_task_id;
       qc_expected_state_version := expected_state_version;
       qc_expected_event_id := expected_event_id; qc_reason := reason;
       qc_response := response |} in
  (Ok response,
   set_responses (ps_responses ps) (response + 1)
     (set_controls (ps_controls ps ++ [command]) ps)).

(** What the caller sees once the worker has answered, or has dropped the
    channel without an answer. *)
Definition quarantine_result (sender_dropped : bool) (response : N) (ps : PublisherState)
    : option (result unit TaskServiceError) :=
  match ps_responses ps !! response with
  | Some r => Some r
  | None =>
      if sender_dropped
      then Some (Err (NotificationClose
                   "notification worker dropped quarantine result: channel closed"))
      else None
  end.

(** How waiting for the worker ended: it returned, it panicked, or the deadline
    passed. *)
Inductive JoinOutcome := Joined | JoinError (error : string) | JoinTimeout.

Definition close_result (worker : option JoinOutcome) (ps : PublisherState)
    : result unit TaskServiceError :=
  match worker with
  | None | Some Joined => Ok tt
  | Some (JoinError error) =>
      Err (NotificationClose ("notification worker stopped: " +:+ error))
  | Some JoinTimeout =>
      let diagnostic :=
        if ps_pending ps =? 0 then "shutdown deadline expired; pending count unavailable"
        else "shutdown deadline expired; last observed pending page contained "
             +:+ pretty (ps_pending ps) +:+ " notification(s); final backlog may differ" in
      let publication_diagnostic :=
        match ps_in_flight_event_id ps with
        | None => "no publication was active at timeout"
        | Some event_id => "publication timed out for event " +:+ event_id
        end in
      Err (NotificationClose (diagnostic +:+ "; " +:+ publication_diagnostic
             +:+ "; last error: " +:+ debug_option (ps_last_error ps)))
  end.
(** ** The publisher as the service holds it *)

(** The worker's handle, and the receiver it takes when it starts. *)
Record PublisherHandle := {
  ph_state : PublisherState;
  ph_worker : option (job (option unit));
  ph_receiver : bool;
}.

Definition publisher_idle : PublisherHandle :=
  {| ph_state := publisher_state_new; ph_worker := None; ph_receiver := true |}.

(** [start]; [None]: the receiver has been taken and no worker is installed,
    which panics. *)
Definition start_worker (fuel controls : nat) (h : PublisherHandle) : option PublisherHandle :=
  match ph_worker h with
  | Some _ => Some h
  | None =>
      if ph_receiver h
      then Some {| ph_state := ph_state h;
                   ph_worker := Some (run_worker fuel controls INITIAL_BACKOFF_MS);
                   ph_receiver := false |}
      else None
  end.

(** [close], with the way waiting for a worker ends and the state then; a
    worker that overruns the deadline is aborted. *)
Definition close_publisher (ended : JoinOutcome) (ps : PublisherState) (h : PublisherHandle)
    : result unit TaskServiceError * PublisherHandle :=
  (close_result (match ph_worker h with None => None | Some _ => Some ended end) ps,
   {| ph_state := ps; ph_worker := None; ph_receiver := ph_receiver h |}).

(** [Drop] aborts the worker. *)
Definition drop_publisher (h : PublisherHandle) : PublisherHandle :=
  {| ph_state := ph_state h; ph_worker := None; ph_receiver := ph_receiver h |}.

(** ** The service's operations on it *)

(** A service may have no publisher. *)
Definition notification_stats (publisher : option PublisherState) : NotificationStats :=
  from_option snapshot {| ns_queued := 0; ns_published := 0; ns_dropped := 0; ns_failed := 0 |}
    publisher.
Definition notification_failure (publisher : option PublisherState) : option NotificationFailure :=
  publisher ≫= ps_failure.
Definition notify_notifications (publisher : option PublisherState) : option PublisherState :=
  notify <$> publisher.

(** The flags are read first, and the shutdown flag again under the gate. *)
Definition quarantine_failed_notification
    (shutting_down owner_released stopping receiver_dropped : bool) (expected_task_id : TaskId) (expected_state_version : N) (expected_event_id reason : string)
    (publisher : option PublisherState) : result N TaskServiceError * option PublisherState :=
  if shutting_down || owner_released then (Err ShuttingDown, publisher) else
  match publisher with
  | None => (Err (Store UnsupportedCapability), None)
  | Some ps =>
      let '(r, ps') := quarantine_failed stopping receiver_dropped expected_task_id
                         expected_state_version expected_event_id reason ps in (r, Some ps')
  end.
End publisher.

Notation job := (program PubOp).
