(* ===== verification/PublisherLogic.v ===== *)
(** * The event publisher: the worker among writers

    The world the worker runs in: the store, the publisher's state, the
    requests the bus has admitted, and every event ever recorded.  Writers of
    the store and clients of the publisher act between the worker's
    operations.  [pub_inv] is the invariant of all of them: no event is lost,
    and each task's events are admitted in the order of its versions. *)

From S2P Require Import Prelude TaskState Model MemoryStore MemoryInvariant MemoryPreservation.
From S2P Require Import MemoryHistory MemoryQueries MemorySpec SqliteStore SqliteAdmin.
From S2P Require Import SqliteInvariant SqliteRefinement SqliteQueries SqlitePruning SqliteOutbox.
From S2P Require Import SqliteHistory Programs ServiceMonad Publisher.

Section publisher.
Context `{ET : !ExternalTypes, SJ : !SnapshotJson, QJ : !SqliteJson, QL : !SqliteJsonLaws}.
Context `{EB : !EventBus}.

(** ** The world *)

Record PubWorld := {
  pw_store : SqliteTaskStore;
  pw_state : PublisherState;
  pw_bus : list (EventOutboxEntry * PublishRequest);
  pw_events : gmap (TaskId * Z) OutboxRow;
}.
Implicit Types (w : PubWorld) (entry : EventOutboxEntry) (key : TaskId * Z).

Definition outbox w : gmap (TaskId * Z) OutboxRow := db_outbox (ss_db (pw_store w)).
Definition quarantine w : gmap (TaskId * Z) QuarantineRow := db_quarantine (ss_db (pw_store w)).

Definition with_store (s : SqliteTaskStore) w : PubWorld :=
  {| pw_store := s; pw_state := pw_state w; pw_bus := pw_bus w; pw_events := pw_events w |}.
Definition with_state (ps : PublisherState) w : PubWorld :=
  {| pw_store := pw_store w; pw_state := ps; pw_bus := pw_bus w; pw_events := pw_events w |}.

(** The clock, whether the database answers, the bus, and which branch of a
    [select!] is taken. *)
Record PubOracle := {
  po_now : N;
  po_disk : option StoreError;
  po_bus : PublishRequest → result unit string;
  po_control : bool;
}.

Definition on_outbox {A} (o : PubOracle) (op : SqliteDb → result (A * SqliteDb) StoreError) w
    : result A StoreError * PubWorld :=
  match po_disk o with
  | Some e => (Err e, w)
  | None => let '(res, s) := run_outbox op (pw_store w) in (res, with_store s w)
  end.

Definition pub_perform (o : PubOracle) {X} (op : PubOp X) : PubWorld → X * PubWorld :=
  match op in PubOp X return PubWorld → X * PubWorld with
  | PubList limit => on_outbox o (λ db, let? l := list_outbox limit db in Ok (l, db))
  | PubMark id version => on_outbox o (mark_outbox_published id version)
  | PubQuarantine id version event_id reason last_error =>
      on_outbox o (quarantine_outbox_head (po_now o) id version event_id reason last_error)
  | PubPublish entry request => λ w,
      (po_bus o request,
       if is_ok (po_bus o request)
       then {| pw_store := pw_store w; pw_state := pw_state w;
               pw_bus := pw_bus w ++ [(entry, request)]; pw_events := pw_events w |}
       else w)
  | PubSelect _ => λ w,
      if po_control o
      then let '(c, ps) := try_recv (pw_state w) in (c, with_state ps w) else (None, w)
  | PubState X f => λ w, let '(x, ps) := f (pw_state w) in (x, with_state ps w)
  end.

#[global] Instance publisher_machine : Machine PubOp PubWorld :=
  {| Answers := PubOracle; on_machine := λ o X op w, pub_perform o op w;
     promised := λ X op w, True |}.

(** ** The others *)

(** Everything the rest of the service does to the store while the publisher
    exists; task identifiers are not reused. *)
Inductive writer_step (events : gmap (TaskId * Z) OutboxRow) : relation SqliteTaskStore :=
| writer_accept now event_now id r s :
    (∀ v, events !! (id, v) = None) →
    writer_step events s (store_accept now event_now id r s).2
| writer_start event_now c s : writer_step events s (store_start event_now c s).2
| writer_transition event_now c s : writer_step events s (store_transition event_now c s).2
| writer_progress c s : writer_step events s (store_progress c s).2
| writer_prune before rows s : writer_step events s (store_prune before rows s).2
| writer_enable s : writer_step events s (enable_outbox s).2
| writer_acquire lock s : writer_step events s (store_acquire_owner lock s).2
| writer_release unlock epoch s : writer_step events s (store_release_owner unlock epoch s).2.

Inductive client_step : relation PublisherState :=
| client_notify ps : client_step ps (notify ps)
| client_quarantine stopping dropped id version event_id reason ps :
    client_step ps (quarantine_failed stopping dropped id version event_id reason ps).2
| client_close ps : client_step ps (set_closing ps).

Inductive other_step : relation PubWorld :=
| other_writes w s' :
    writer_step (pw_events w) (pw_store w) s' →
    other_step w {| pw_store := s'; pw_state := pw_state w; pw_bus := pw_bus w;
                    pw_events := pw_events w ∪ db_outbox (ss_db s') |}
| other_client w ps' : client_step (pw_state w) ps' → other_step w (with_state ps' w).

Definition pub_others : relation PubWorld := rtc other_step.

(** ** The invariant *)

(** The bus admitted the event before its [n]-th admission. *)
Definition admitted_before (n : nat) key w : Prop :=
  ∃ i x, (i < n)%nat ∧ pw_bus w !! i = Some x ∧ entry_key x.1 = key.
Definition admitted key w : Prop := admitted_before (length (pw_bus w)) key w.
Definition quarantined key w : Prop := is_Some (quarantine w !! key).

(** The event left the outbox in one of the two allowed ways. *)
Definition settled_before (n : nat) key w : Prop := quarantined key w ∨ admitted_before n key w.

Record pub_inv w : Prop := {
  pi_store : store_inv (pw_store w);
  pi_outbox : outbox w ⊆ pw_events w;
  pi_versions : ∀ id v ob task, pw_events w !! (id, v) = Some ob →
    view (ss_db (pw_store w)) !! id = Some task →
    (v ≤ Z.of_N (ts_state_version (st_summary task)))%Z;
  pi_kept : ∀ key ob, pw_events w !! key = Some ob →
    outbox w !! key = Some ob ∨ settled_before (length (pw_bus w)) key w;
  pi_bus : ∀ i x, pw_bus w !! i = Some x → entry_request x.1 = Ok x.2 ∧
    ∃ ob, pw_events w !! entry_key x.1 = Some ob ∧ x.1 = row_entry (entry_key x.1, ob);
  pi_order : ∀ i x id v, pw_bus w !! i = Some x → oe_task_id x.1 = id →
    (v < Z.of_N (oe_state_version x.1))%Z → is_Some (pw_events w !! (id, v)) →
    settled_before i (id, v) w;
}.

(** What any step may do. *)
Record pub_moves w w' : Prop := {
  pm_inv : pub_inv w';
  pm_events : pw_events w ⊆ pw_events w';
  pm_bus : pw_bus w `prefix_of` pw_bus w';
  pm_quarantine : ∀ key, quarantined key w → quarantined key w';
  (** recorded later means newer, and an event that left does not come back *)
  pm_newer : ∀ id v v', is_Some (pw_events w !! (id, v)) → is_Some (pw_events w' !! (id, v')) →
    (v' < v)%Z → is_Some (pw_events w !! (id, v'));
  pm_gone : ∀ key, is_Some (pw_events w !! key) → outbox w !! key = None → outbox w' !! key = None;
}.

(** ** What a writer does *)

Record writes (events : gmap (TaskId * Z) OutboxRow) db db' : Prop := {
  wr_quarantine : db_quarantine db' = db_quarantine db;
  wr_outbox : db_outbox db ⊆ db_outbox db';
  wr_new : ∀ id v ob, db_outbox db' !! (id, v) = Some ob →
    db_outbox db !! (id, v) = Some ob ∨
    match view db !! id with
    | Some task => (Z.of_N (ts_state_version (st_summary task)) < v)%Z
    | None => ∀ v, events !! (id, v) = None
    end;
  wr_tasks : ∀ id task', view db' !! id = Some task' →
    match view db !! id with
    | Some task => ts_state_version (st_summary task) ≤ ts_state_version (st_summary task')
    | None => ∀ v, events !! (id, v) = None
    end;
}.

Lemma writes_same events db db' :
  db_quarantine db' = db_quarantine db → db_outbox db' = db_outbox db →
  (∀ id task', view db' !! id = Some task' → ∃ task, view db !! id = Some task ∧
     ts_state_version (st_summary task) ≤ ts_state_version (st_summary task')) →
  writes events db db'.
Proof.
  intros Hq Ho Ht. split; rewrite ?Ho; auto.
  intros id task' Hid. by destruct (Ht id task' Hid) as (task & -> & ?).
Qed.
Lemma writes_refl events db : writes events db db.
Proof. apply writes_same; eauto. Qed.

Lemma writes_unchanged events db db' :
  db_quarantine db' = db_quarantine db → db_outbox db' = db_outbox db →
  db_tasks db' = db_tasks db → writes events db db'.
Proof. intros Hq Ho Ht. apply writes_same; [done..|]. unfold view. rewrite Ht. eauto. Qed.

Lemma run_write_writes {A} events (op : SqliteDb → result (A * SqliteDb) StoreError) s :
  (∀ a db', op (ss_db s) = Ok (a, db') → writes events (ss_db s) db') →
  writes events (ss_db s) (ss_db (run_write op s).2).
Proof.
  intros Hop. unfold run_write, transact. destruct (negb _); [apply writes_refl|].
  destruct (op (ss_db s)) as [[a db']|]; [by eapply Hop|apply writes_refl].
Qed.

Lemma evolves_version_le t t' : task_evolves t t' → ts_state_version t ≤ ts_state_version t'.
Proof. destruct 1; subst; simpl; lia. Qed.

(** A commit of a new version of a stored task. *)
Lemma commit_writes events enabled now id t db db' :
  committed enabled now t db db' → task_commit id t db db' → ts_id t = id →
  (∀ task, view db !! id = Some task → ts_state_version (st_summary task) < ts_state_version t) →
  writes events db db'.
Proof.
  intros [Hev (Hq & _ & _)] [_ (task0 & H0 & _ & Hv)] Hid Hnew. specialize (Hnew task0 H0).
  assert (∀ i v ob, db_outbox db' !! (i, v) = Some ob → db_outbox db !! (i, v) = Some ob ∨
    i = id ∧ v = Z.of_N (ts_state_version t)) as Hin.
  { unfold event_recorded in Hev. destruct enabled; [|by rewrite Hev; auto].
    destruct Hev as (json & _ & _ & ->). intros i v ob. rewrite lookup_insert_Some.
    intros [[[= <- <-] _]|[_ ?]]; [right; by rewrite Hid|by left]. }
  split; [done|..].
  - unfold event_recorded in Hev. destruct enabled; [|by rewrite Hev].
    destruct Hev as (json & _ & Hnone & ->). by apply insert_subseteq.
  - intros i v ob Hob. destruct (Hin i v ob Hob) as [?|[-> ->]]; [by left|]. right. rewrite H0. lia.
  - intros i task'. rewrite Hv, lookup_insert_Some. intros [[<- <-]|[_ ->]]; [|done].
    rewrite H0. simpl. lia.
Qed.

Lemma prune_rows_quarantine rows db db' :
  prune_terminal_rows rows db = Ok db' → db_quarantine db' = db_quarantine db.
Proof.
  revert db. induction rows as [|[[z id] json] rows IH]; intros db H; simpl in H; [by simplify_eq|].
  unfold prune_one in H.
  destruct (from_json (value_from_str json)) as [v|]; [|done].
  destruct (ok_or _ (value_get "state" v)) as [sv|]; [|done].
  destruct (from_json (state_from_value sv)) as [st|]; [|done]. destruct (negb _); [done|].
  destruct (from_json (state_to_string st)) as [sj|]; [|done].
  destruct (ok_or _ (value_get "state_version" v ≫= _)) as [ver|]; [|done].
  destruct (_ || _); [done|]. destruct (is_none _); [done|]. by rewrite (IH _ H).
Qed.

Lemma writer_step_sqlite events s s' : writer_step events s s' → sqlite_step s s'.
Proof. destruct 1; constructor. Qed.

Lemma writer_writes events s s' :
  store_inv s → writer_step events s s' → writes events (ss_db s) (ss_db s').
Proof.
  intros Hinv Hstep. pose proof (si_db s Hinv) as Hwf. destruct Hstep.
  - apply run_write_writes. intros out db' Hs.
    pose proof (accept_recorded _ _ _ _ _ _ _ _ Hs) as [Hev (Hq & _ & _)].
    pose proof (sqlite_accept_sound (ss_outbox_enabled s) now event_now id r (ss_db s) Hwf) as Ha.
    rewrite Hs in Ha. destruct Ha as [_ Ha]. destruct (ao_created out).
    + destruct Ha as (Hsum & Hnone & _ & Hv). rewrite andb_true_r in Hev. split; [done|..].
      * unfold event_recorded in Hev. destruct (ss_outbox_enabled s); [|by rewrite Hev].
        destruct Hev as (json & _ & Hn & ->). by apply insert_subseteq.
      * intros i v ob. unfold event_recorded in Hev. destruct (ss_outbox_enabled s); [|rewrite Hev; auto].
        destruct Hev as (json & _ & Hn & ->). rewrite lookup_insert_Some.
        intros [[[= <- _] _]|[_ ?]]; [right|by left]. rewrite Hsum. simpl. by rewrite Hnone.
      * intros i task'. rewrite Hv, lookup_insert_Some. intros [[<- _]|[_ ->]]; [|done].
        by rewrite Hnone.
    + rewrite andb_false_r in Hev. apply writes_same; [done..|]. destruct Ha as [-> _]. eauto.
  - apply run_write_writes. intros t db' Hs.
    destruct (start_commit _ _ _ _ _ _ Hwf Hs) as (Hc & task & Hid & Hv & Ht).
    eapply commit_writes; [by eapply start_recorded|done|done|]. intros ? ?. simplify_eq. lia.
  - apply run_write_writes. intros t db' Hs.
    destruct (transition_commit _ _ _ _ _ _ Hwf Hs) as (Hc & task & Hid & Hv & Ht).
    eapply commit_writes; [by eapply transition_recorded|done|done|]. intros ? ?. simplify_eq. lia.
  - apply run_write_writes. intros t db' Hs. pose proof (progress_rest _ _ _ _ Hs) as [Ho (Hq & _)].
    apply writes_same; [done..|]. intros id task'.
    destruct (progress_commit _ _ _ _ Hwf Hs) as [_ (task0 & H0 & He & ->)].
    rewrite lookup_insert_Some. intros [[<- <-]|[_ ?]]; [|by eauto].
    exists task0. split; [done|]. by apply evolves_version_le.
  - unfold store_prune. destruct (i64_try_from before) as [b|]; [|apply writes_refl].
    destruct (i64_try_from rows) as [n|]; [|apply writes_refl].
    apply run_write_writes. intros k db' Hs. unfold sqlite_prune in Hs.
    destruct (prune_terminal_rows _ _) as [db1|] eqn:Hp; [|done]. injection Hs as _ <-.
    pose proof (prune_rows_quarantine _ _ _ Hp) as Hq.
    pose proof (prune_terminal_rows_spec _ _ (prune_rows_finished b n (ss_db s) Hwf)) as Hspec.
    rewrite Hp in Hspec. apply prune_rows_tasks in Hp as (_ & Ho & _).
    apply writes_same; [done..|]. intros id task'. rewrite (pruned_view _ _ _ Hspec id).
    case_decide; [done|]. eauto.
  - unfold enable_outbox. destruct (_ || _); apply writes_refl.
  - unfold store_acquire_owner. destruct (is_some _); [apply writes_refl|].
    destruct (if ss_lock_file s then Ok tt else lock); [|apply writes_refl].
    destruct (read_epoch _); by apply writes_unchanged.
  - unfold store_release_owner. destruct (negb _); [apply writes_refl|].
    destruct (negb _); apply writes_refl.
Qed.

(** ** The invariant is kept *)

Lemma pub_moves_refl w : pub_inv w → pub_moves w w.
Proof. by split. Qed.

Lemma pub_moves_trans w w1 w2 : pub_moves w w1 → pub_moves w1 w2 → pub_moves w w2.
Proof.
  intros [_ E1 B1 Q1 N1 G1] [I2 E2 B2 Q2 N2 G2]. split; [done|by etrans|by etrans|by auto|..].
  - intros id v v' Hv Hv' Hlt. apply (N1 id v v' Hv); [|done].
    apply (N2 id v v' (lookup_weaken_is_Some _ _ _ Hv E1) Hv' Hlt).
  - intros key Hk Hn. apply G2; [exact (lookup_weaken_is_Some _ _ _ Hk E1)|by apply G1].
Qed.

Lemma admitted_before_prefix n key w w' :
  pw_bus w `prefix_of` pw_bus w' → admitted_before n key w → admitted_before n key w'.
Proof.
  intros [l Hl] (i & x & Hi & Hx & Hk). exists i, x. split_and!; [done| |done].
  rewrite Hl. by apply lookup_app_l_Some.
Qed.
Lemma admitted_before_le n m key w :
  (n ≤ m)%nat → admitted_before n key w → admitted_before m key w.
Proof. intros Hle (i & x & Hi & Hx). exists i, x. split; [lia|done]. Qed.

Lemma settled_later n m key w w' :
  (∀ key, quarantined key w → quarantined key w') → pw_bus w `prefix_of` pw_bus w' →
  (n ≤ m)%nat → settled_before n key w → settled_before m key w'.
Proof.
  intros Hq Hb Hle [H|H]; [by left; auto|]. right.
  by eapply admitted_before_le, admitted_before_prefix.
Qed.

(** Changes of the publisher's own state. *)
Lemma state_moves w ps : pub_inv w → pub_moves w (with_state ps w).
Proof. intros [I1 I2 I3 I4 I5 I6]. split; try done. Qed.

(** Writers. *)
Lemma outbox_version s id v ob task :
  store_inv s → db_outbox (ss_db s) !! (id, v) = Some ob → view (ss_db s) !! id = Some task →
  (v ≤ Z.of_N (ts_state_version (st_summary task)))%Z.
Proof.
  intros Hs Hob Hid. destruct (dbw_outbox _ (si_db s Hs) _ _ _ Hob) as (row & Hrow & _ & Hv).
  destruct (dbw_row _ (si_db s Hs) _ _ Hrow) as (r & lc & Hw).
  rewrite (view_lookup _ _ _ _ _ Hrow Hw) in Hid. injection Hid as <-. simpl.
  by rewrite (row_version_Z _ _ _ _ Hw) in Hv.
Qed.

Lemma writer_new_event w s' id v ob :
  pub_inv w → writes (pw_events w) (ss_db (pw_store w)) (ss_db s') →
  db_outbox (ss_db s') !! (id, v) = Some ob →
  outbox w !! (id, v) = Some ob ∨
  ∀ v', is_Some (pw_events w !! (id, v')) → (v' < v)%Z.
Proof.
  intros Hi Hw Hob. destruct (wr_new _ _ _ Hw id v ob Hob) as [?|Hn]; [by left|]. right.
  intros v' [ob' Hv']. destruct (view _ !! id) as [task|] eqn:Hid.
  - pose proof (pi_versions w Hi id v' ob' task Hv' Hid). lia.
  - by rewrite Hn in Hv'.
Qed.

Lemma writer_moves w s' :
  pub_inv w → writer_step (pw_events w) (pw_store w) s' →
  pub_moves w {| pw_store := s'; pw_state := pw_state w; pw_bus := pw_bus w;
                 pw_events := pw_events w ∪ db_outbox (ss_db s') |}.
Proof.
  intros Hi Hstep. pose proof (pi_store w Hi) as Hs.
  pose proof (writer_writes _ _ _ Hs Hstep) as Hw.
  pose proof (sqlite_step_inv _ _ Hs (writer_step_sqlite _ _ _ Hstep)) as Hs'.
  pose proof (λ id v ob, writer_new_event w s' id v ob Hi Hw) as Hnew.
  assert (db_outbox (ss_db s') ⊆ pw_events w ∪ db_outbox (ss_db s')) as Hsub.
  { apply map_subseteq_spec. intros [id v] ob Hob. apply lookup_union_Some_raw.
    destruct (Hnew id v ob Hob) as [Ho|Hn]; [left; by eapply lookup_weaken, Hi|].
    right. split; [|done]. apply eq_None_not_Some. intros Hk. specialize (Hn v Hk). lia. }
  assert (∀ key ob, (pw_events w ∪ db_outbox (ss_db s')) !! key = Some ob →
    pw_events w !! key = Some ob ∨ pw_events w !! key = None ∧ db_outbox (ss_db s') !! key = Some ob) as Hun.
  { intros key ob. rewrite lookup_union_Some_raw. tauto. }
  assert (∀ key, quarantined key w → is_Some (db_quarantine (ss_db s') !! key)) as Hq.
  { intros key. by rewrite (wr_quarantine _ _ _ Hw). }
  split; try done.
  - split; simpl; [done|done|..].
    + intros id v ob task' [Hk|[_ Hk]]%Hun Hid; [|by eapply outbox_version].
      pose proof (wr_tasks _ _ _ Hw id task' Hid) as Ht.
      destruct (view (ss_db (pw_store w)) !! id) as [task|] eqn:Hid0; [|by rewrite Ht in Hk].
      pose proof (pi_versions w Hi id v ob task Hk Hid0). lia.
    + intros key ob [Hk|[_ Hk]]%Hun; [|by left].
      destruct (pi_kept w Hi key ob Hk) as [Ho|Hset];
        [left; eapply lookup_weaken; [exact Ho|apply Hw]|right; by eapply settled_later].
    + intros i x Hx. destruct (pi_bus w Hi i x Hx) as (? & ob & Hob & ?). split; [done|].
      exists ob. split; [|done]. by apply lookup_union_Some_l.
    + intros i x id v Hx Hid Hv [ob [Hk|[Hn Hk]]%Hun].
      { eapply settled_later; [exact Hq|done|done|]. by eapply (pi_order w Hi); [..|exists ob]. }
      destruct (Hnew id v ob Hk) as [Ho|Hnv].
      { by rewrite (lookup_weaken _ _ _ _ Ho (pi_outbox w Hi)) in Hn. }
      destruct (pi_bus w Hi i x Hx) as (_ & ob' & Hob' & _). unfold entry_key in Hob'. rewrite Hid in Hob'.
      specialize (Hnv _ (mk_is_Some _ _ Hob')). lia.
  - apply map_union_subseteq_l.
  - intros id v v' Hv [ob [Hk|[Hn Hk]]%Hun] Hlt; [by exists ob|].
    destruct (Hnew id v' ob Hk) as [Ho|Hnv]; [|specialize (Hnv v Hv); lia].
    exists ob. by eapply lookup_weaken, Hi.
  - intros [id v] Hk Hn. apply eq_None_not_Some. intros [ob Hob].
    destruct (Hnew id v ob Hob) as [Ho|Hnv]; [congruence|]. specialize (Hnv v Hk). lia.
Qed.
End publisher.
