(* ===== verification/PublisherSpecs.v ===== *)
(** * The event publisher: specifications of the worker

    Each program of [Publisher] keeps [pub_inv] whatever writers and clients do
    in between; together they give the worker's specification. *)

From S2P Require Import Prelude TaskState Model MemoryStore MemoryInvariant MemoryPreservation.
From S2P Require Import MemoryHistory MemoryQueries MemorySpec SqliteStore SqliteAdmin.
From S2P Require Import SqliteInvariant SqliteRefinement SqliteQueries SqlitePruning SqliteOutbox.
From S2P Require Import SqliteHistory Programs ServiceMonad Publisher PublisherLogic.

Section publisher.
Context `{ET : !ExternalTypes, SJ : !SnapshotJson, QJ : !SqliteJson, QL : !SqliteJsonLaws}.
Context `{EB : !EventBus}.
Implicit Types (w : PubWorld) (entry : EventOutboxEntry) (key : TaskId * Z).

(** Steps that remove nothing from the outbox. *)
Definition keeps w w' : Prop := pub_moves w w' ∧ outbox w ⊆ outbox w'.

Lemma keeps_refl w : pub_inv w → keeps w w.
Proof. intros Hi. split; [by apply pub_moves_refl|done]. Qed.
Lemma keeps_trans w w1 w2 : keeps w w1 → keeps w1 w2 → keeps w w2.
Proof. intros [M1 O1] [M2 O2]. split; [by eapply pub_moves_trans|by etrans]. Qed.

Lemma other_keeps w w' : pub_inv w → other_step w w' → keeps w w'.
Proof.
  intros Hi Hstep. destruct Hstep as [w s' Hw|w ps' _]; [|by split; [apply state_moves|]].
  split; [by apply writer_moves|]. by apply (writer_writes _ _ _ (pi_store w Hi) Hw).
Qed.

Lemma others_keep w w' : pub_inv w → pub_others w w' → keeps w w'.
Proof.
  intros Hi Hr. induction Hr as [|w w1 w2 Hstep _ IH]; [by apply keeps_refl|].
  pose proof (other_keeps _ _ Hi Hstep) as Hk. eapply keeps_trans; [done|]. apply IH, Hk.
Qed.

(** ** The worker's own steps *)

(** The world without the outbox row [key]. *)
Definition without key (q : gmap (TaskId * Z) QuarantineRow) w : PubWorld :=
  let db := ss_db (pw_store w) in
  with_store (with_db {| db_tasks := db_tasks db; db_outbox := delete key (db_outbox db);
                         db_quarantine := q; db_checkpoints := db_checkpoints db;
                         db_owner_epoch := db_owner_epoch db |} (pw_store w)) w.

Lemma removed_moves w key q :
  pub_inv w → (∀ k, quarantined k w → is_Some (q !! k)) →
  settled_before (length (pw_bus w)) key (without key q w) → pub_moves w (without key q w).
Proof.
  intros Hi Hq Hset. assert (store_inv (pw_store (without key q w))) as Hs.
  { destruct (pi_store w Hi) as [H1 H2 H3 H4]. split; simpl; [by apply delete_event_wf| |done..].
    by apply outbox_ordered_delete. }
  split; try done.
  - split; simpl; [done|..].
    + etrans; [|apply Hi]. apply delete_subseteq.
    + apply Hi.
    + intros k ob Hk. destruct (decide (k = key)) as [->|Hne]; [by right|].
      destruct (pi_kept w Hi k ob Hk) as [Hob|Hold];
        [left|right; by apply (settled_later (length (pw_bus w)) _ _ w)].
      unfold outbox, without. simpl. by rewrite lookup_delete_ne.
    + apply Hi.
    + intros i x id v Hx Hid Hv Hk. apply (settled_later i _ _ w); [done..|].
      by eapply (pi_order w Hi).
  - intros k _ Hn. apply lookup_delete_None. by right.
Qed.

Lemma admitted_moves w entry ob request :
  pub_inv w → outbox w !! entry_key entry = Some ob →
  entry = row_entry (entry_key entry, ob) → entry_request entry = Ok request →
  (∀ v, (v < Z.of_N (oe_state_version entry))%Z → outbox w !! (oe_task_id entry, v) = None) →
  let w' := {| pw_store := pw_store w; pw_state := pw_state w;
               pw_bus := pw_bus w ++ [(entry, request)]; pw_events := pw_events w |} in
  pub_moves w w' ∧ admitted (entry_key entry) w'.
Proof.
  intros Hi Hob Hentry Hreq Hmin w'.
  assert (pw_bus w `prefix_of` pw_bus w') as Hpre by (by eexists).
  assert (∀ i x, pw_bus w' !! i = Some x →
    pw_bus w !! i = Some x ∨ i = length (pw_bus w) ∧ x = (entry, request)) as Hin.
  { intros i x [?|[Hle Hx]]%lookup_app_Some; [by left|right].
    apply list_lookup_singleton_Some in Hx as [? <-]. split; [lia|done]. }
  split; [split; try done|].
  - split; try apply Hi.
    + intros key ob' Hk. destruct (pi_kept w Hi key ob' Hk) as [?|Hset]; [by left|right].
      apply (settled_later (length (pw_bus w)) _ _ w); [done|done| |done]. unfold w'. simpl. rewrite length_app. lia.
    + intros i x [Hx|[_ ->]]%Hin; [by apply (pi_bus w Hi i)|]. split; [done|]. exists ob.
      split; [|done]. by eapply lookup_weaken, Hi.
    + intros i x id v [Hx|[-> ->]]%Hin Hid Hv [ob' Hk].
      * apply (settled_later i _ _ w); [done|done|done|]. by eapply (pi_order w Hi); [..|exists ob'].
      * simpl in Hid, Hv. subst id. destruct (pi_kept w Hi _ ob' Hk) as [Ho|Hset].
        -- by rewrite Hmin in Ho.
        -- by apply (settled_later (length (pw_bus w)) _ _ w).
  - exists (length (pw_bus w)), (entry, request). unfold w'. simpl. rewrite length_app. simpl.
    split; [lia|]. split; [|done]. by rewrite list_lookup_middle.
Qed.

(** ** Rules *)

Definition pub_guarantee w w' : Prop := pub_inv w → pub_moves w w'.
Notation pwp := (wp pub_others pub_guarantee).

Lemma wp_state {X} (f : PublisherState → X * PublisherState) Q w :
  pub_inv w → (∀ x w1, keeps w w1 → Q x w1) → pwp (on_state f) Q w.
Proof.
  intros Hi HQ o w1 Hr _. pose proof (others_keep _ _ Hi Hr) as Hk. simpl.
  destruct (f (pw_state w1)) as [x ps]. simpl.
  split; [intros Hi1; by apply state_moves|]. apply HQ.
  eapply keeps_trans; [done|]. split; [apply state_moves, Hk|done].
Qed.

Lemma wp_select delay Q w :
  pub_inv w → (∀ c w1, keeps w w1 → Q c w1) → pwp (call (PubSelect delay)) Q w.
Proof.
  intros Hi HQ o w1 Hr _. pose proof (others_keep _ _ Hi Hr) as Hk. simpl.
  destruct (po_control o); [|split; [intros Hi1; by apply pub_moves_refl|by apply HQ]].
  destruct (try_recv (pw_state w1)) as [c ps]. simpl.
  split; [intros Hi1; by apply state_moves|]. apply HQ.
  eapply keeps_trans; [done|]. split; [apply state_moves, Hk|done].
Qed.

(** An operation of the store that may also fail. *)
Lemma wp_outbox {X} (op : PubOp (result X StoreError)) run Q w :
  (∀ o w, pub_perform o op w = on_outbox o (run (po_now o)) w) →
  (∀ now w1 x db', keeps w w1 → run now (ss_db (pw_store w1)) = Ok (x, db') →
     let w2 := with_store (with_db db' (pw_store w1)) w1 in pub_moves w1 w2 ∧ Q (Ok x) w2) →
  (∀ e w1, keeps w w1 → Q (Err e) w1) → pub_inv w → pwp (call op) Q w.
Proof.
  intros Hop HOk HErr Hi o w1 Hr _. pose proof (others_keep _ _ Hi Hr) as Hk.
  assert (∀ e, on_outbox o (run (po_now o)) w1 = (Err e, w1) →
    pub_guarantee w1 (on_outbox o (run (po_now o)) w1).2 ∧
    Q (on_outbox o (run (po_now o)) w1).1 (on_outbox o (run (po_now o)) w1).2) as Hfail.
  { intros e ->. split; [intros Hi1; by apply pub_moves_refl|by apply HErr]. }
  unfold on_machine, publisher_machine. rewrite Hop. unfold on_outbox, run_outbox, transact in *.
  destruct (po_disk o) as [e|]; [by eapply Hfail|].
  destruct w1 as [s ps bus events]. destruct (_ || _); [by eapply Hfail|].
  destruct (run (po_now o) _) as [[x db']|e] eqn:Hrun; [|by eapply Hfail].
  destruct (HOk _ _ _ _ Hk Hrun) as [Hm HQ]. split; [intros _; exact Hm|exact HQ].
Qed.

Lemma wp_quarantine id version event reason error Q w :
  pub_inv w → (∀ res w1, pub_moves w w1 → (is_ok res = false → keeps w w1) → Q res w1) →
  pwp (call (PubQuarantine id version event reason error)) Q w.
Proof.
  intros Hi HQ. eapply (wp_outbox _ (λ now, quarantine_outbox_head now id version event reason error));
    [done| |by intros e w1 Hk; apply HQ; [apply Hk|]|done].
  intros now w1 [] db' Hk Hq. unfold quarantine_outbox_head in Hq.
  destruct (_ || _); [done|]. destruct (ok_or _ _) as [[key ob]|]; [|done]. simpl in Hq.
  destruct (sqlite_u64_from_i64 _ _) as [v|]; [|done]. destruct (_ || _); [done|].
  destruct (i64_or_failure now) as [z|]; [|done]. destruct (is_some _); [done|].
  injection Hq as <-. assert (pub_inv w1) as Hi1 by apply Hk.
  match goal with |- context [with_db {| db_quarantine := ?q |} _] =>
    assert (pub_moves w1 (without key q w1)) as Hm end.
  { apply removed_moves; [done|..].
    - intros k Hq'. apply lookup_insert_is_Some. destruct (decide (key = k)); auto.
    - left. unfold quarantined, quarantine. simpl. rewrite lookup_insert_eq. eauto. }
  split; [exact Hm|]. apply HQ; [|done]. eapply pub_moves_trans; [apply Hk|exact Hm].
Qed.

Lemma wp_mark id version Q w :
  pub_inv w → admitted (id, Z.of_N version) w →
  (∀ w1, pub_moves w w1 → delete (id, Z.of_N version) (outbox w) ⊆ outbox w1 →
     outbox w1 !! (id, Z.of_N version) = None → Q (Ok tt) w1) →
  (∀ e w1, keeps w w1 → Q (Err e) w1) →
  pwp (call (PubMark id version)) Q w.
Proof.
  intros Hi Hadm HOk HErr. eapply (wp_outbox _ (λ _, mark_outbox_published id version)); try done.
  intros now w1 [] db' [Hk Ho] Hq. unfold mark_outbox_published, sqlite_i64_from_u64 in Hq.
  destruct (i64_try_from version) as [z|] eqn:Hz; [|done]. apply i64_try_from_Some in Hz as [-> _].
  injection Hq as <-. assert (pub_inv w1) as Hi1 by apply Hk.
  assert (pub_moves w1 (without (id, Z.of_N version) (quarantine w1) w1)) as Hm.
  { apply removed_moves; [done|done|]. right.
    eapply admitted_before_le, (admitted_before_prefix _ _ w); [|apply Hk|done].
    apply prefix_length, Hk. }
  split; [exact Hm|]. apply HOk; [by eapply pub_moves_trans| |].
  - by apply delete_mono.
  - apply lookup_delete_eq.
Qed.

(** ** Pages *)

Record page_ok (entries : list EventOutboxEntry) w : Prop := {
  pg_present : ∀ entry, entry ∈ entries → ∃ ob, outbox w !! entry_key entry = Some ob ∧
    entry = row_entry (entry_key entry, ob);
  pg_older : ∀ j entry v, entries !! j = Some entry →
    (v < Z.of_N (oe_state_version entry))%Z → is_Some (outbox w !! (oe_task_id entry, v)) →
    ∃ i e, (i < j)%nat ∧ entries !! i = Some e ∧ entry_key e = (oe_task_id entry, v);
  pg_keys : NoDup (entry_key <$> entries);
}.

Lemma wp_list Q w :
  pub_inv w →
  (∀ res w1, keeps w w1 → (∀ entries, res = Ok entries → page_ok entries w1) → Q res w1) →
  pwp (call (PubList OUTBOX_PAGE)) Q w.
Proof.
  intros Hi HQ. eapply (wp_outbox _ (λ _ db, let? l := list_outbox OUTBOX_PAGE db in Ok (l, db)));
    [done| |by intros; apply HQ|done].
  intros now w1 l db' Hk Hl. assert (pub_inv w1) as Hi1 by apply Hk.
  destruct (pi_store w1 Hi1) as [Hwf Hord _ _].
  rewrite list_outbox_exact in Hl by done. injection Hl as <- <-.
  assert (with_store (with_db (ss_db (pw_store w1)) (pw_store w1)) w1 = w1) as ->
    by (by destruct w1 as [[] ? ? ?]).
  split; [by apply pub_moves_refl|]. apply HQ; [done|]. intros entries [= <-]. split.
  - intros entry [j Hj]%list_elem_of_lookup. apply page_lookup in Hj as (_ & ob & Hob & He); [|done].
    exists ob. split; [|done]. by eapply elem_of_sorted_outbox, list_elem_of_lookup_2.
  - intros j entry v. by apply page_older.
  - by apply page_keys.
Qed.

(** A row of the outbox now, older than one there before, was there before. *)
Lemma older_before w w' id v v' :
  pub_inv w → pub_moves w w' → is_Some (outbox w !! (id, v)) → is_Some (outbox w' !! (id, v')) →
  (v' < v)%Z → is_Some (outbox w !! (id, v')).
Proof.
  intros Hi Hm Hv Hv' Hlt. assert (is_Some (pw_events w !! (id, v'))) as He.
  { eapply (pm_newer w w' Hm id v v'); [..|done].
    - eapply lookup_weaken_is_Some; [exact Hv|apply Hi].
    - eapply lookup_weaken_is_Some; [exact Hv'|apply Hm]. }
  destruct (outbox w !! (id, v')) eqn:Ho; [by eexists|].
  rewrite (pm_gone w w' Hm _ He Ho) in Hv'. by destruct Hv'.
Qed.

Lemma page_keeps entries w w' : pub_inv w → keeps w w' → page_ok entries w → page_ok entries w'.
Proof.
  intros Hi [Hm Ho] [H1 H2 H3]. split; [..|done].
  - intros entry Hin. destruct (H1 entry Hin) as (ob & Hob & He). exists ob.
    split; [by eapply lookup_weaken|done].
  - intros j entry v Hj Hv Hin. apply (H2 j entry v Hj Hv).
    destruct (H1 entry (list_elem_of_lookup_2 _ _ _ Hj)) as (ob & Hob & _).
    eapply older_before; [done..| |done|done]. by eexists.
Qed.

(** The first entry of a page has been dealt with. *)
Lemma page_tail entry rest w w' :
  pub_inv w → pub_moves w w' → delete (entry_key entry) (outbox w) ⊆ outbox w' →
  outbox w' !! entry_key entry = None → page_ok (entry :: rest) w → page_ok rest w'.
Proof.
  intros Hi Hm Ho Hnone [H1 H2 [Hni H3]%NoDup_cons]. split; [..|done].
  - intros e He. destruct (H1 e) as (ob & Hob & Heq); [by right|]. exists ob. split; [|done].
    eapply lookup_weaken; [|exact Ho]. rewrite lookup_delete_ne; [done|].
    intros Heq'. apply Hni. rewrite Heq'. apply list_elem_of_fmap. by exists e.
  - intros j e v Hj Hv Hin.
    destruct (H1 e) as (ob & Hob & _); [right; by eapply list_elem_of_lookup_2|].
    destruct (H2 (S j) e v Hj Hv) as (i & e' & Hi' & He' & Hk).
    { eapply older_before; [done..| |done|done]. by eexists. }
    destruct i as [|i]; [|exists i, e'; split_and!; [lia|done..]].
    injection He' as ->. rewrite Hk in Hnone. rewrite Hnone in Hin. by destruct Hin.
Qed.

(** ** Programs *)

Lemma process_control_spec c w :
  pub_inv w →
  pwp (process_control c) (λ b w', pub_moves w w' ∧ (b = false → keeps w w')) w.
Proof.
  intros Hi. unfold process_control. apply wp_bind, wp_state; [done|]. intros failure w1 Hk1.
  assert (pub_inv w1) as Hi1 by apply Hk1.
  assert (∀ res w2, pub_moves w w2 → (is_ok res = false → keeps w w2) →
    pwp ((if is_ok (A := unit) (E := TaskServiceError) res
          then modify_state (set_failure None);; modify_state (set_last_error None) else Ret tt);;
         modify_state (respond c res);; Ret (is_ok res))
      (λ b w', pub_moves w w' ∧ (b = false → keeps w w')) w2) as Hrest.
  { intros res w2 Hm2 Hk2. apply wp_bind.
    assert (∀ w3, keeps w2 w3 → pwp (modify_state (respond c res);; Ret (is_ok res))
      (λ b w', pub_moves w w' ∧ (b = false → keeps w w')) w3) as Hend.
    { intros w3 Hk3. apply wp_bind, wp_state; [apply Hk3|]. intros _ w4 Hk4.
      assert (keeps w2 w4) as [Hm4 Ho4] by (by eapply keeps_trans). split.
      - by eapply pub_moves_trans.
      - intros Hf. eapply keeps_trans; [by apply Hk2|done]. }
    assert (pub_inv w2) as Hi2 by apply Hm2. destruct (is_ok res); [|by apply Hend, keeps_refl].
    apply wp_bind, wp_state; [done|]. intros _ w3 Hk3. apply wp_state; [apply Hk3|]. intros _ w4 Hk4.
    apply Hend. by eapply keeps_trans. }
  apply wp_bind. destruct failure as [f|]; [|by apply Hrest; [apply Hk1|]].
  destruct (names_command c f); [|by apply Hrest; [apply Hk1|]].
  apply wp_bind, wp_quarantine; [done|]. intros res w2 Hm2 Hk2. apply Hrest.
  - eapply pub_moves_trans; [apply Hk1|done].
  - intros Hf. eapply keeps_trans; [done|]. apply Hk2. by destruct res.
Qed.

(** [process_control] inside another program. *)
Lemma wp_control c Q w :
  pub_inv w → (∀ b w1, pub_moves w w1 → (b = false → keeps w w1) → Q b w1) →
  pwp (process_control c) Q w.
Proof.
  intros Hi HQ. eapply wp_mono; [|by apply process_control_spec]. intros b w1 [Hm Hk]. by apply HQ.
Qed.

Lemma controls_spec fuel q w :
  pub_inv w →
  pwp (process_queued_controls fuel q)
    (λ r w', pub_moves w w' ∧ (r = Some false → keeps w w' ∧ q = false)) w.
Proof.
  revert q w. induction fuel as [|fuel IH]; intros q w Hi; [by split; [apply pub_moves_refl|]|].
  cbn [process_queued_controls]. apply wp_bind, wp_state; [done|]. intros command w1 Hk1.
  assert (pub_inv w1) as Hi1 by apply Hk1.
  destruct command as [c|]; [|by split; [apply Hk1|intros [= ->]]].
  apply wp_bind, wp_control; [done|]. intros b w2 Hm2 Hk2.
  eapply wp_mono; [|apply IH, Hm2]. intros r w3 [Hm3 Hk3]. split.
  - eapply pub_moves_trans; [apply Hk1|]. by eapply pub_moves_trans.
  - intros Hr. destruct (Hk3 Hr) as [Hk [-> ->]%orb_false_iff]. split; [|done].
    eapply keeps_trans; [done|]. eapply keeps_trans; [by apply Hk2|done].
Qed.

Lemma wp_controls fuel Q w :
  pub_inv w → (∀ r w1, pub_moves w w1 → (r = Some false → keeps w w1) → Q r w1) →
  pwp (process_queued_controls fuel false) Q w.
Proof.
  intros Hi HQ. eapply wp_mono; [|by apply controls_spec]. intros b w1 [Hm Hk].
  apply HQ; [done|]. intros Hr. by apply Hk.
Qed.

Lemma wait_spec fuel delay w :
  pub_inv w → pwp (wait_after_failure fuel delay) (λ _ w', pub_moves w w') w.
Proof.
  revert w. induction fuel as [|fuel IH]; intros w Hi; [by apply pub_moves_refl|].
  cbn [wait_after_failure]. apply wp_bind, wp_select; [done|]. intros command w1 Hk1.
  assert (pub_inv w1) as Hi1 by apply Hk1. destruct command as [c|]; [|apply Hk1].
  apply wp_bind, wp_control; [done|]. intros b w2 Hm2 _.
  assert (pub_moves w w2) as Hm by (eapply pub_moves_trans; [apply Hk1|done]).
  destruct b; [done|]. eapply wp_mono; [|apply IH, Hm2]. intros r w3 Hm3. by eapply pub_moves_trans.
Qed.

Lemma admitted_later key w w' : pub_moves w w' → admitted key w → admitted key w'.
Proof.
  intros Hm Ha. eapply admitted_before_le, admitted_before_prefix; [|apply Hm|done].
  apply prefix_length, Hm.
Qed.

(** The first entry of a page may be published. *)
Lemma wp_publish entry rest request Q w :
  pub_inv w → page_ok (entry :: rest) w → entry_request entry = Ok request →
  (∀ res w1, keeps w w1 → (is_ok res = true → admitted (entry_key entry) w1) → Q res w1) →
  pwp (call (PubPublish entry request)) Q w.
Proof.
  intros Hi Hp Hreq HQ o w1 Hr _. pose proof (others_keep _ _ Hi Hr) as Hk.
  assert (pub_inv w1) as Hi1 by apply Hk. pose proof (page_keeps _ _ _ Hi Hk Hp) as Hp1. simpl.
  destruct (po_bus o request) as [[]|e] eqn:Hbus; simpl;
    [|split; [intros _; by apply pub_moves_refl|by apply HQ]].
  destruct (pg_present _ _ Hp1 entry) as (ob & Hob & He); [by left|].
  destruct (admitted_moves w1 entry ob request) as [Hm Ha]; [done..| |].
  { intros v Hv. apply eq_None_not_Some. intros Hin.
    destruct (pg_older _ _ Hp1 0%nat entry v) as (i & ? & ? & _); [done..|lia]. }
  split; [intros _; exact Hm|]. apply HQ; [|done]. eapply keeps_trans; [done|]. by split.
Qed.

Lemma publish_spec entry rest w :
  pub_inv w → page_ok (entry :: rest) w →
  pwp (publish entry) (λ r w', pub_moves w w' ∧ (r = Ok tt → page_ok rest w')) w.
Proof.
  intros Hi Hp. unfold publish.
  destruct (entry_request entry) as [request|e] eqn:Hreq; [|by split; [apply pub_moves_refl|]].
  apply wp_bind, wp_state; [done|]. intros _ w1 Hk1. assert (pub_inv w1) as Hi1 by apply Hk1.
  pose proof (page_keeps _ _ _ Hi Hk1 Hp) as Hp1.
  apply wp_bind. eapply wp_publish; [done..|]. intros res w2 Hk2 Ha2.
  assert (pub_inv w2) as Hi2 by apply Hk2. pose proof (page_keeps _ _ _ Hi1 Hk2 Hp1) as Hp2.
  apply wp_bind, wp_state; [done|]. intros _ w3 Hk3. assert (pub_inv w3) as Hi3 by apply Hk3.
  pose proof (page_keeps _ _ _ Hi2 Hk3 Hp2) as Hp3.
  assert (keeps w w3) as Hk by (eapply keeps_trans; [done|]; by eapply keeps_trans).
  destruct res as [[]|e]; [|by split; [apply Hk|]].
  apply wp_bind, wp_mark; [done| |..].
  - eapply admitted_later; [apply Hk3|]. by apply Ha2.
  - intros w4 Hm4 Ho4 Hn4. assert (pub_inv w4) as Hi4 by apply Hm4.
    pose proof (page_tail entry rest w3 w4 Hi3 Hm4 Ho4 Hn4 Hp3) as Hp4.
    apply wp_bind, wp_state; [done|]. intros _ w5 Hk5. split.
    + eapply pub_moves_trans; [apply Hk|]. eapply pub_moves_trans; [done|apply Hk5].
    + intros _. by eapply page_keeps.
  - intros e w4 Hk4. split; [|done]. eapply pub_moves_trans; [apply Hk|apply Hk4].
Qed.

Lemma event_failure_spec entry error w :
  pub_inv w → pwp (record_failure entry error) (λ _ w', pub_moves w w') w.
Proof.
  intros Hi. unfold record_failure. apply wp_bind, wp_state; [done|]. intros _ w1 Hk1.
  apply wp_bind, wp_state; [apply Hk1|]. intros _ w2 Hk2. apply wp_state; [apply Hk2|]. intros _ w3 Hk3.
  eapply pub_moves_trans; [apply Hk1|]. eapply pub_moves_trans; [apply Hk2|apply Hk3].
Qed.

Lemma entries_spec fuel entries w :
  pub_inv w → page_ok entries w → pwp (publish_entries fuel entries) (λ _ w', pub_moves w w') w.
Proof.
  revert w. induction entries as [|entry rest IH]; intros w Hi Hp; [by apply pub_moves_refl|].
  cbn [publish_entries]. apply wp_bind, wp_state; [done|]. intros _ w1 Hk1.
  assert (pub_inv w1) as Hi1 by apply Hk1. pose proof (page_keeps _ _ _ Hi Hk1 Hp) as Hp1.
  apply wp_bind, wp_controls; [done|]. intros r w2 Hm2 Hk2. assert (pub_inv w2) as Hi2 by apply Hm2.
  assert (pub_moves w w2) as Hm by (eapply pub_moves_trans; [apply Hk1|done]).
  destruct r as [[]|]; [done| |done]. pose proof (page_keeps _ _ _ Hi1 (Hk2 eq_refl) Hp1) as Hp2.
  apply wp_bind. eapply wp_mono; [|by eapply publish_spec]. intros res w3 [Hm3 Hp3].
  assert (pub_inv w3) as Hi3 by apply Hm3.
  assert (pub_moves w w3) as Hm' by (by eapply pub_moves_trans). destruct res as [[]|e].
  - apply wp_bind, wp_state; [done|]. intros _ w4 Hk4. assert (pub_inv w4) as Hi4 by apply Hk4.
    apply wp_bind, wp_state; [done|]. intros _ w5 Hk5.
    eapply wp_mono; [|apply IH; [apply Hk5|]].
    + intros r w6 Hm6. eapply pub_moves_trans; [done|]. eapply pub_moves_trans; [apply Hk4|].
      eapply pub_moves_trans; [apply Hk5|done].
    + eapply page_keeps, page_keeps, Hp3; done.
  - apply wp_bind. eapply wp_mono; [|by apply event_failure_spec]. intros ? w4 Hm4.
    by eapply pub_moves_trans.
Qed.

Lemma worker_spec fuel controls backoff w :
  pub_inv w → pwp (run_worker fuel controls backoff) (λ _ _, True) w.
Proof.
  revert backoff w. induction fuel as [|fuel IH]; intros backoff w Hi; [done|]. cbn [run_worker].
  assert (∀ w1, pub_inv w1 → pwp
    (again ← wait_after_failure controls backoff;
     match again with
     | None => Ret None
     | Some true => run_worker fuel controls INITIAL_BACKOFF_MS
     | Some false => run_worker fuel controls (next_backoff backoff)
     end) (λ _ _, True) w1) as Hlater.
  { intros w1 Hi1. apply wp_bind. eapply wp_mono; [|by apply wait_spec]. intros r w2 Hm2.
    destruct r as [[]|]; [apply IH, Hm2..|done]. }
  apply wp_bind, wp_controls; [done|]. intros r w1 Hm1 _. destruct (is_none r); [done|].
  apply wp_bind, wp_list; [apply Hm1|]. intros page w2 Hk2 Hp2.
  assert (pub_inv w2) as Hi2 by apply Hk2. destruct page as [entries|e].
  - specialize (Hp2 entries eq_refl). destruct entries as [|entry rest].
    + apply wp_bind, wp_state; [done|]. intros _ w3 Hk3. apply wp_bind, wp_state; [apply Hk3|].
      intros closing w4 Hk4. destruct closing.
      * apply wp_bind, wp_controls; [apply Hk4|]. intros r2 w5 Hm5 _.
        destruct r2 as [[]|]; [apply IH, Hm5|done|done].
      * apply wp_bind, wp_select; [apply Hk4|]. intros command w5 Hk5. apply wp_bind.
        destruct command as [c|]; [|apply IH, Hk5].
        apply wp_control; [apply Hk5|]. intros b w6 Hm6 _. apply IH, Hm6.
    + apply wp_bind, wp_state; [done|]. intros _ w3 Hk3.
      apply wp_bind. eapply wp_mono; [|apply entries_spec; [apply Hk3|by eapply page_keeps]].
      intros failed w4 Hm4. assert (pub_inv w4) as Hi4 by apply Hm4.
      destruct failed as [[]|]; [|by apply IH|done].
      apply wp_bind, wp_controls; [done|]. intros r2 w5 Hm5 _.
      destruct r2 as [[]|]; [apply IH, Hm5|apply Hlater, Hm5|done].
  - apply wp_bind, wp_state; [done|]. intros _ w3 Hk3. apply wp_bind, wp_state; [apply Hk3|].
    intros _ w4 Hk4. apply Hlater, Hk4.
Qed.

(** ** What a command does *)

(** What others leave alone. *)
Record framed w w' : Prop := {
  fr_inv : pub_inv w';
  fr_quarantine : quarantine w' = quarantine w;
  fr_failure : ps_failure (pw_state w') = ps_failure (pw_state w);
  fr_responses : ps_responses (pw_state w') = ps_responses (pw_state w);
  fr_error : ps_last_error (pw_state w') = ps_last_error (pw_state w);
  fr_outbox : outbox w ⊆ outbox w';
  fr_gone : ∀ key, is_Some (pw_events w !! key) → outbox w !! key = None → outbox w' !! key = None;
  fr_events : pw_events w ⊆ pw_events w';
}.

Lemma framed_trans w w1 w2 : framed w w1 → framed w1 w2 → framed w w2.
Proof.
  intros [_ Q1 F1 R1 E1 O1 G1 V1] [I2 Q2 F2 R2 E2 O2 G2 V2].
  split; [done|congruence..|by etrans| |by etrans].
  intros key Hk Hn. apply G2; [exact (lookup_weaken_is_Some _ _ _ Hk V1)|by apply G1].
Qed.

Lemma client_framed ps ps' :
  client_step ps ps' → ps_failure ps' = ps_failure ps ∧ ps_responses ps' = ps_responses ps ∧
  ps_last_error ps' = ps_last_error ps.
Proof.
  destruct 1 as [|stopping dropped id version event_id reason ps|]; [done| |done].
  unfold quarantine_failed. destruct (str_is_empty _); [done|]. destruct (4096 <? _); [done|].
  destruct (_ || _); [done|]. destruct dropped; [done|]. by destruct (_ <=? _).
Qed.

Lemma others_framed w w' : pub_inv w → pub_others w w' → framed w w'.
Proof.
  intros Hi Hr. induction Hr as [w|w w1 w2 Hstep _ IH]; [by split|].
  assert (framed w w1) as Hf.
  { pose proof (other_keeps _ _ Hi Hstep) as [Hm Hk]. split; try done; try apply Hm;
      destruct Hstep as [w s' Hw|w ps' Hc]; try done; try by apply client_framed.
    by apply (writer_writes _ _ _ (pi_store w Hi) Hw). }
  eapply framed_trans; [done|]. apply IH, Hf.
Qed.

Lemma with_state_same w : with_state (pw_state w) w = w.
Proof. by destruct w. Qed.

Lemma exec_state {X} (f : PublisherState → X * PublisherState) w x w' :
  pub_inv w → exec pub_others (on_state f) w x w' →
  ∃ w1, pub_others w w1 ∧ (x, w') = ((f (pw_state w1)).1, with_state (f (pw_state w1)).2 w1) ∧
    pub_inv w'.
Proof.
  intros Hi (o & w1 & Hr & _ & He). pose proof (others_framed _ _ Hi Hr) as Hf.
  exists w1. split; [done|]. unfold on_machine, publisher_machine in He. simpl in He.
  destruct (f (pw_state w1)) as [y ps]. destruct He as [-> ->]. split; [done|].
  apply (state_moves w1 ps), Hf.
Qed.

Lemma exec_modify_state f w x w' :
  pub_inv w → exec pub_others (modify_state f) w x w' →
  ∃ w1, pub_others w w1 ∧ w' = with_state (f (pw_state w1)) w1 ∧ pub_inv w'.
Proof.
  intros Hi (w1 & Hf & [= _ ->] & Hi')%exec_state; [|done]. by exists w1.
Qed.

(** The world in which the command has been answered. *)
Definition answered (c : QuarantineCommand) (res : result unit TaskServiceError) w : PubWorld :=
  with_state (respond c res (pw_state w)) w.

(** The end of [process_control]: the answer is sent. *)
Lemma exec_respond c res w b w' :
  pub_inv w →
  exec pub_others (modify_state (respond c res);; Ret (is_ok (A := unit) (E := TaskServiceError) res))
    w b w' →
  b = is_ok res ∧ ∃ w1, pub_others w w1 ∧ w' = answered c res w1.
Proof.
  intros Hi (? & w1 & Hm & -> & ->)%exec_bind.
  apply exec_modify_state in Hm as (w2 & Hr & -> & _); [|done]. split; [done|]. by exists w2.
Qed.

(** The row that takes an event into the quarantine. *)
Record quarantines (ob : OutboxRow) (reason error : string) (row : QuarantineRow) : Prop := {
  qs_event_id : qr_event_id row = ob_event_id ob;
  qs_event_json : qr_event_json row = ob_event_json ob;
  qs_created : qr_created_at_ms row = ob_created_at_ms ob;
  qs_reason : qr_reason row = reason;
  qs_error : qr_last_error row = error;
}.

Lemma quarantine_Ok now id version event reason error db db' :
  quarantine_outbox_head now id version event reason error db = Ok (tt, db') → db_wf db →
  let key := (id, Z.of_N version) in
  ∃ ob row, db_outbox db !! key = Some ob ∧ ob_event_id ob = event ∧ quarantines ob reason error row ∧
    db_quarantine db !! key = None ∧
    db' = {| db_tasks := db_tasks db; db_outbox := delete key (db_outbox db);
             db_quarantine := <[key := row]> (db_quarantine db);
             db_checkpoints := db_checkpoints db; db_owner_epoch := db_owner_epoch db |}.
Proof.
  intros Hq Hwf key. unfold quarantine_outbox_head in Hq. destruct (_ || _); [done|].
  destruct (head (sorted_outbox db)) as [[[i v] ob]|] eqn:Hh; [|done]. simpl in Hq.
  assert (db_outbox db !! (i, v) = Some ob) as Hob.
  { apply elem_of_sorted_outbox. apply head_Some in Hh as [l ->]. apply list_elem_of_here. }
  destruct (dbw_outbox db Hwf _ _ _ Hob) as (row & _ & Hv & _).
  assert (v = Z.of_N (Z.to_N v)) as Hvn by lia. rewrite Hvn in Hq, Hob. clear Hvn.
  unfold sqlite_u64_from_i64 in Hq. rewrite u64_of_i64 in Hq. simpl in Hq. destruct (_ || _) eqn:Hc; [done|]. bool_prop.
  destruct Hc as [[<- <-] He]. destruct (i64_or_failure now) as [z|]; [|done].
  destruct (db_quarantine db !! _) eqn:Hn; [done|]. injection Hq as <-. unfold key.
  exists ob, {| qr_event_id := ob_event_id ob; qr_event_json := ob_event_json ob;
                qr_created_at_ms := ob_created_at_ms ob; qr_quarantined_at_ms := z;
                qr_reason := reason; qr_last_error := error |}. by split_and!.
Qed.

(** A quarantine that fails changes nothing; one that succeeds moves the event
    from the outbox to the quarantine. *)
Lemma exec_quarantine id version event reason error w res w' :
  let key := (id, Z.of_N version) in
  pub_inv w → exec pub_others (call (PubQuarantine id version event reason error)) w res w' →
  pub_inv w' ∧ ∃ w1, pub_others w w1 ∧
  match res with
  | Ok _ => ∃ ob row, outbox w1 !! key = Some ob ∧ ob_event_id ob = event ∧
      quarantines ob reason error row ∧ quarantine w1 !! key = None ∧
      w' = without key (<[key := row]> (quarantine w1)) w1
  | Err _ => w' = w1
  end.
Proof.
  intros key Hi He. split; [|].
  { eapply (wp_exec _ _ _ (λ _ w', pub_inv w')); [|exact He]. apply wp_quarantine; [done|].
    intros r w1 Hm _. apply Hm. }
  destruct He as (o & w1 & Hr & _ & He). exists w1. split; [done|].
  pose proof (others_framed _ _ Hi Hr) as Hf.
  unfold on_machine, publisher_machine in He. cbn [pub_perform] in He.
  unfold on_outbox, run_outbox, transact in He.
  destruct (po_disk o) as [e|]; [by destruct He as [-> ->], w1|].
  destruct (_ || _); [by destruct He as [-> ->], w1|].
  destruct (quarantine_outbox_head _ _ _ _ _ _ _) as [[[] db']|e] eqn:Hh;
    destruct He as [-> ->]; [|by destruct w1].
  apply quarantine_Ok in Hh as (ob & row & H1 & H2 & H3 & H4 & ->);
    [|apply (si_db _ (pi_store _ (fr_inv _ _ Hf)))]. by exists ob, row.
Qed.
End publisher.
