(* ===== verification/PublisherDrain.v ===== *)
(** * The event publisher: draining at shutdown

    When the publisher has been closed, nobody writes any more, the database
    answers and the bus admits every request, the worker empties the outbox and
    returns.  One round handles a page of 128 events, so a round per page and
    one more to find the outbox empty are enough. *)

From S2P Require Import Prelude TaskState Model MemoryStore MemoryInvariant MemoryPreservation.
From S2P Require Import MemoryHistory MemoryQueries MemorySpec SqliteStore SqliteAdmin.
From S2P Require Import SqliteInvariant SqliteRefinement SqliteQueries SqlitePruning SqliteOutbox.
From S2P Require Import SqliteHistory Programs ServiceMonad Publisher PublisherLogic PublisherSpecs.

Section publisher.
Context `{ET : !ExternalTypes, SJ : !SnapshotJson, QJ : !SqliteJson, QL : !SqliteJsonLaws}.
Context `{EB : !EventBus}.
Implicit Types (w : PubWorld) (db : SqliteDb).

(** ** The reading order without its first event *)

#[local] Instance outbox_le_antisymm : AntiSymm (=) outbox_le.
Proof.
  intros [a [b c]] [a' [b' c']]. unfold outbox_le. simpl. intros H1 H2.
  assert (a = a' ∧ b = b' ∧ c = c') as (-> & -> & ->) by lia. done.
Qed.

Lemma outbox_keys_NoDup (l : list ((TaskId * Z) * OutboxRow)) :
  NoDup l.*1 → NoDup (outbox_key <$> l).
Proof.
  intros Hnd. apply (NoDup_fmap_1 snd). rewrite <- list_fmap_compose.
  by replace (snd ∘ outbox_key <$> l) with l.*1 by (by apply list_fmap_ext).
Qed.

Lemma sorted_outbox_delete db db' key ob l :
  sorted_outbox db = (key, ob) :: l → db_outbox db' = delete key (db_outbox db) →
  sorted_outbox db' = l.
Proof.
  intros Hs Ho. unfold sorted_outbox. pose proof (sorted_outbox_sorted db) as Hsort.
  pose proof (sorted_outbox_keys db) as Hnd. rewrite Hs in Hsort, Hnd.
  apply NoDup_cons in Hnd as [_ Hnd]. apply StronglySorted_inv in Hsort as [Hsort _].
  apply (sort_by_unique outbox_le outbox_key l _); [by apply outbox_keys_NoDup|done|].
  assert (db_outbox db !! key = Some ob) as Hk.
  { apply elem_of_sorted_outbox. rewrite Hs. apply list_elem_of_here. }
  rewrite Ho. apply (Permutation_cons_inv (a := (key, ob))).
  rewrite (map_to_list_delete _ _ _ Hk). rewrite <- Hs. unfold sorted_outbox.
  by rewrite sort_by_Permutation.
Qed.

Lemma sorted_outbox_nil db : sorted_outbox db = [] → db_outbox db = ∅.
Proof.
  intros Hs. apply map_empty. intros key. apply eq_None_not_Some. intros [ob Hob].
  apply elem_of_sorted_outbox in Hob. rewrite Hs in Hob. by apply not_elem_of_nil in Hob.
Qed.

Lemma sorted_outbox_length db : length (sorted_outbox db) = size (db_outbox db).
Proof. unfold sorted_outbox. by rewrite sort_by_Permutation, length_map_to_list. Qed.

(** ** Running alone *)

Context (o : PubOracle).
Context (Hdisk : po_disk o = None) (Hbus : ∀ request, po_bus o request = Ok tt).

Record draining w : Prop := {
  dr_wf : db_wf (ss_db (pw_store w));
  dr_epoch : is_Some (ss_epoch (pw_store w));
  dr_lock : ss_lock_file (pw_store w) = true;
  dr_closing : ps_closing (pw_state w) = true;
  dr_controls : ps_controls (pw_state w) = [];
  dr_requests : ∀ key ob, outbox w !! key = Some ob →
    is_ok (entry_request (row_entry (key, ob))) = true;
}.

Lemma draining_state w ps :
  draining w → ps_closing ps = true → ps_controls ps = [] → draining (with_state ps w).
Proof. by intros [] ? ?. Qed.

Lemma on_outbox_run {A} (op : SqliteDb → result (A * SqliteDb) StoreError) w a db' :
  draining w → op (ss_db (pw_store w)) = Ok (a, db') →
  on_outbox o op w = (Ok a, with_store (with_db db' (pw_store w)) w).
Proof using Hdisk.
  intros [_ [e He] Hl _ _ _] Hop. unfold on_outbox, run_outbox, transact.
  by rewrite Hdisk, He, Hl, Hop.
Qed.

Lemma controls_run f q w :
  draining w → run o (process_queued_controls (S f) q) w = (Some q, w).
Proof.
  intros Hd. destruct w as [s ps bus events]. simpl. unfold try_recv.
  pose proof (dr_controls _ Hd) as Hc. simpl in Hc. by rewrite Hc.
Qed.

Lemma state_run f w : run o (modify_state f) w = (tt, with_state (f (pw_state w)) w).
Proof. done. Qed.

Lemma read_run {X} (f : PublisherState → X) w :
  run o (read_state f) w = (f (pw_state w), w).
Proof. by destruct w. Qed.

(** The bus has admitted [entries] since [w]. *)
Definition published w w' (entries : list EventOutboxEntry) : Prop :=
  ∃ log, pw_bus w' = pw_bus w ++ log ∧ log.*1 = entries.

Lemma published_trans w w1 w2 l1 l2 :
  published w w1 l1 → published w1 w2 l2 → published w w2 (l1 ++ l2).
Proof.
  intros (log1 & H1 & <-) (log2 & H2 & <-). exists (log1 ++ log2).
  rewrite H2, H1, fmap_app. by rewrite app_assoc.
Qed.

Lemma outbox_key_range w key ob :
  draining w → outbox w !! key = Some ob →
  sqlite_i64_from_u64 (Z.to_N key.2) "outbox state version" = Ok key.2.
Proof.
  intros Hd Hob. destruct key as [id v].
  destruct (dbw_outbox _ (dr_wf w Hd) _ _ _ Hob) as (row & Hrow & Hv0 & Hv1).
  destruct (dbw_row _ (dr_wf w Hd) _ _ Hrow) as (r & lc & Hw).
  destruct (proj1 (i64_try_from_Some _ _) (rw_version _ _ _ _ Hw)) as [Hv Hmax].
  unfold sqlite_i64_from_u64. cbn [snd]. assert (i64_try_from (Z.to_N v) = Some v) as ->; [|done].
  apply i64_try_from_Some. split; lia.
Qed.

Lemma publish_run w key ob l :
  draining w → sorted_outbox (ss_db (pw_store w)) = (key, ob) :: l →
  ∃ w', run o (publish (row_entry (key, ob))) w = (Ok tt, w') ∧ draining w' ∧
    sorted_outbox (ss_db (pw_store w')) = l ∧ published w w' [row_entry (key, ob)].
Proof using Hdisk Hbus.
  intros Hd Hs. assert (outbox w !! key = Some ob) as Hob.
  { apply elem_of_sorted_outbox. rewrite Hs. apply list_elem_of_here. }
  pose proof (dr_requests w Hd key ob Hob) as Hreq. unfold publish.
  destruct (entry_request (row_entry (key, ob))) as [request|] eqn:Her; [|done].
  rewrite !run_bind, state_run. cbn [fst snd].
  set (w1 := with_state _ w). cbn [run call on_machine publisher_machine pub_perform].
  rewrite Hbus. cbn [is_ok fst snd]. set (w2 := {| pw_bus := _ |}).
  rewrite !run_bind, state_run. cbn [fst snd]. set (w3 := with_state _ w2).
  assert (draining w3) as Hd3 by (destruct Hd; by split).
  cbn [run call on_machine publisher_machine pub_perform].
  pose proof (outbox_key_range w3 key ob Hd3 Hob) as Hrange.
  rewrite (on_outbox_run _ w3 tt (with_outbox (delete key (db_outbox (ss_db (pw_store w))))
    (ss_db (pw_store w))) Hd3).
  2:{ unfold mark_outbox_published. simpl in *. rewrite Hrange. by destruct key. }
  cbn [fst snd]. rewrite run_bind, state_run. cbn [fst snd run]. eexists. split; [done|].
  split_and!.
  - destruct Hd as [H1 H2 H3 H4 H5 H6]. split; simpl; [by apply delete_event_wf|done..|].
    intros key' ob' Hk'. apply (H6 key' ob').
    unfold outbox in Hk'. simpl in Hk'. by apply lookup_delete_Some in Hk' as [_ ?].
  - by eapply sorted_outbox_delete.
  - by exists [(row_entry (key, ob), request)].
Qed.

Lemma entries_run f l1 l2 w :
  draining w → sorted_outbox (ss_db (pw_store w)) = l1 ++ l2 →
  ∃ w', run o (publish_entries (S f) (row_entry <$> l1)) w = (Some false, w') ∧ draining w' ∧
    sorted_outbox (ss_db (pw_store w')) = l2 ∧ published w w' (row_entry <$> l1).
Proof using Hdisk Hbus.
  revert w. induction l1 as [|[key ob] l1 IH]; intros w Hd Hs.
  { exists w. split_and!; [done..|]. exists []. by rewrite app_nil_r. }
  rewrite fmap_cons. cbn [publish_entries]. rewrite run_bind, state_run. cbn [fst snd].
  set (w1 := with_state _ w). assert (draining w1) as Hd1.
  { apply draining_state; [done|..]; unfold clear_failure_if_head_changed;
      destruct (is_some_and _ _); apply Hd. }
  rewrite run_bind, controls_run by done. cbn [fst snd]. rewrite run_bind.
  destruct (publish_run w1 key ob (l1 ++ l2) Hd1 Hs) as (w2 & -> & Hd2 & Hs2 & Hp2). cbn [fst snd].
  rewrite run_bind, state_run. cbn [fst snd]. set (w3 := with_state _ w2).
  assert (draining w3) as Hd3.
  { apply draining_state; [done|..]; unfold clear_failure_for;
      destruct (is_some_and _ _); apply Hd2. }
  rewrite run_bind, state_run. cbn [fst snd]. set (w4 := with_state _ w3).
  assert (draining w4) as Hd4 by (apply draining_state; [done|apply Hd3..]).
  destruct (IH w4 Hd4 Hs2) as (w5 & Hrun & Hd5 & Hs5 & Hp5). exists w5. split_and!; [done..|].
  by apply (published_trans w w2 w5 [_] _).
Qed.

Lemma worker_run n fuel f backoff w :
  draining w → (size (outbox w) ≤ N.to_nat OUTBOX_PAGE * n)%nat → (n < fuel)%nat →
  ∃ w', run o (run_worker fuel (S f) backoff) w = (Some tt, w') ∧ outbox w' = ∅ ∧
    published w w' (row_entry <$> sorted_outbox (ss_db (pw_store w))) ∧
    ps_pending (pw_state w') = 0.
Proof using Hdisk Hbus.
  revert n backoff w. induction fuel as [|fuel IH]; intros n backoff w Hd Hn Hlt; [lia|].
  cbn [run_worker]. rewrite run_bind, controls_run by done. cbn [fst snd is_none negb is_some].
  rewrite run_bind. cbn [run call on_machine publisher_machine pub_perform].
  rewrite (on_outbox_run _ w (row_entry <$> take (N.to_nat OUTBOX_PAGE)
    (sorted_outbox (ss_db (pw_store w)))) (ss_db (pw_store w)) Hd).
  2:{ by rewrite (list_outbox_exact OUTBOX_PAGE _ (dr_wf w Hd)). }
  replace (with_store (with_db (ss_db (pw_store w)) (pw_store w)) w) with w
    by (by destruct w as [[] ? ? ?]).
  cbn [fst snd]. destruct (sorted_outbox (ss_db (pw_store w))) as [|x l] eqn:Hs.
  - rewrite take_nil. cbn [fmap list_fmap]. rewrite run_bind, state_run. cbn [fst snd].
    set (w1 := with_state _ w). assert (draining w1) as Hd1 by (apply draining_state; [done|apply Hd..]).
    rewrite run_bind, read_run, (dr_closing w1 Hd1). cbn [fst snd].
    rewrite run_bind, controls_run by done. cbn [fst snd run]. exists w1. split_and!; [done| | |done].
    + by apply sorted_outbox_nil.
    + exists []. by rewrite app_nil_r.
  - rewrite <- Hs. set (l1 := take _ (sorted_outbox _)).
    assert (∃ x' l', row_entry <$> l1 = x' :: l') as (x' & l' & Hl1).
    { unfold l1. rewrite Hs. change (N.to_nat OUTBOX_PAGE) with 128%nat. by do 2 eexists. }
    rewrite Hl1. rewrite run_bind, state_run. cbn [fst snd]. set (w1 := with_state _ w).
    assert (draining w1) as Hd1 by (apply draining_state; [done|apply Hd..]).
    rewrite <- Hl1, run_bind.
    destruct (entries_run f l1 (drop (N.to_nat OUTBOX_PAGE) (sorted_outbox (ss_db (pw_store w)))) w1 Hd1)
      as (w2 & -> & Hd2 & Hs2 & Hp2); [by unfold l1; rewrite take_drop|]. cbn [fst snd].
    destruct n as [|n].
    { unfold outbox in Hn. rewrite <- sorted_outbox_length, Hs in Hn. simpl in Hn. lia. }
    destruct (IH n INITIAL_BACKOFF_MS w2 Hd2) as (w3 & Hrun & He3 & Hp3 & Hz3); [|lia|].
    { unfold outbox in *. rewrite <- sorted_outbox_length in *. rewrite Hs2, length_drop. lia. }
    exists w3. split_and!; [done..| |done]. rewrite <- (take_drop (N.to_nat OUTBOX_PAGE) (sorted_outbox _)).
    rewrite fmap_app. rewrite Hs2 in Hp3. by apply (published_trans w w2 w3).
Qed.
End publisher.
