(* ===== verification/PublisherProperties.v ===== *)
(** * The event publisher: properties

    What holds of the publisher however its worker, the writers of the store
    and its clients interleave, each with a concrete instance. *)

From S2P Require Import Prelude TaskState Model MemoryStore MemoryInvariant MemoryPreservation.
From S2P Require Import MemoryHistory MemoryQueries MemorySpec SqliteStore SqliteAdmin.
From S2P Require Import SqliteInvariant SqliteRefinement SqliteQueries SqlitePruning SqliteOutbox.
From S2P Require Import SqliteHistory Programs ServiceMonad Publisher PublisherLogic PublisherSpecs.
From S2P Require Import PublisherDrain Fixtures SqliteFixtures.

Section properties.
Context `{ET : !ExternalTypes, SJ : !SnapshotJson, QJ : !SqliteJson, QL : !SqliteJsonLaws}.
Context `{EB : !EventBus}.
Implicit Types (w : PubWorld).

(** ** The running publisher *)

(** The publisher starts on a store in which events of an earlier process may
    be pending. *)
Definition publisher_start (s : SqliteTaskStore) : PubWorld :=
  {| pw_store := s; pw_state := publisher_state_new; pw_bus := [];
     pw_events := db_outbox (ss_db s) |}.

Definition publisher_reachable w : Prop :=
  ∃ s fuel controls p, sqlite_reachable s ∧
    rtc (thread_step pub_others)
      (run_worker fuel controls INITIAL_BACKOFF_MS, publisher_start s) (p, w).

Lemma publisher_start_inv s : store_inv s → pub_inv (publisher_start s).
Proof.
  intros Hs. split; simpl; [done|done| |by left|done|done].
  intros id v ob task. by apply outbox_version.
Qed.

Lemma steps_inv w w' :
  pub_inv w → rtc (λ a b, pub_others a b ∨ pub_guarantee a b) w w' → pub_inv w'.
Proof.
  intros Hi Hr. induction Hr as [|a b c Hstep _ IH]; [done|]. apply IH.
  destruct Hstep as [Ho|Hg]; [by apply (others_keep a b Hi Ho)|by apply Hg].
Qed.

Lemma publisher_reachable_inv w : publisher_reachable w → pub_inv w.
Proof.
  intros (s & fuel & controls & p & Hs & Hr).
  pose proof (publisher_start_inv s (sqlite_reachable_inv s Hs)) as Hi.
  destruct (thread_steps_wp pub_others pub_guarantee _ _ _ _ (worker_spec fuel controls _ _ Hi) Hr)
    as [Hsteps _]. by eapply steps_inv.
Qed.

(** C22. No event is lost: whatever the worker, the writers and the clients
    do, every event ever recorded is still in the outbox, has been
    quarantined, or has been admitted by the bus with the content that was
    recorded. *)
Theorem publisher_delivery w key ob :
  publisher_reachable w → pw_events w !! key = Some ob →
  outbox w !! key = Some ob ∨ quarantined key w ∨
  ∃ request, (row_entry (key, ob), request) ∈ pw_bus w ∧
    entry_request (row_entry (key, ob)) = Ok request.
Proof.
  intros Hi%publisher_reachable_inv Hk.
  destruct (pi_kept w Hi key ob Hk) as [?|[?|(i & [e request] & _ & Hx & He)]]; [by auto..|].
  destruct (pi_bus w Hi i _ Hx) as (Hreq & ob' & Hob' & Heq). simpl in *. rewrite He in Hob', Heq.
  rewrite Hk in Hob'. injection Hob' as <-. subst e. right. right. exists request.
  split; [by eapply list_elem_of_lookup_2|done].
Qed.

(** The events of a task reach the bus in the order of its versions: when
    one is admitted, every older recorded event of the task has been admitted
    before or quarantined. *)
Theorem publisher_order w i entry request v :
  publisher_reachable w → pw_bus w !! i = Some (entry, request) →
  v < oe_state_version entry →
  is_Some (pw_events w !! (oe_task_id entry, Z.of_N v)) →
  quarantined (oe_task_id entry, Z.of_N v) w ∨
  ∃ j older, (j < i)%nat ∧ pw_bus w !! j = Some older ∧
    oe_task_id older.1 = oe_task_id entry ∧ oe_state_version older.1 = v.
Proof.
  intros Hi%publisher_reachable_inv Hx Hv Hk.
  destruct (pi_order w Hi i _ (oe_task_id entry) (Z.of_N v) Hx) as [?|(j & x & Hj & Hx' & [= H1 H2])];
    [done|simpl; lia|done|by left|]. right. exists j, x. split_and!; [done..|lia].
Qed.

(** C23. Closing drains: when the publisher has been closed with no command
    waiting, nobody writes, the database answers and the bus admits every
    pending event, the worker returns after a round per page of 128 events and
    one more; the outbox is empty, and the bus has admitted every pending
    event, once and in the reading order. *)
Theorem publisher_drains o n fuel controls backoff w :
  po_disk o = None → (∀ request, po_bus o request = Ok tt) → draining w →
  (size (outbox w) ≤ 128 * n)%nat → (n < fuel)%nat → (0 < controls)%nat →
  ∃ w' log, run o (run_worker fuel controls backoff) w = (Some tt, w') ∧ outbox w' = ∅ ∧
    pw_bus w' = pw_bus w ++ log ∧
    log.*1 = row_entry <$> sorted_outbox (ss_db (pw_store w)) ∧ ps_pending (pw_state w') = 0.
Proof.
  intros Hdisk Hbus Hd Hn Hfuel Hc. destruct controls as [|f]; [lia|].
  destruct (worker_run o Hdisk Hbus n fuel f backoff w Hd Hn Hfuel)
    as (w' & Hrun & He & (log & Hl & Hlog) & Hp). by exists w', log.
Qed.

(** C25. A quarantine command does what its answer says.  It succeeds only when
    it names the event the worker failed to publish and that event is pending:
    then the event has left the outbox, every other pending event is still
    there, and the quarantine has it, with its content, the operator's reason and
    the error that was recorded; the failure and the last error are cleared.
    Otherwise it is answered with an error of the store, and the answer is all
    that it changes: whatever else differs was done by others. *)
Theorem publisher_quarantine_exact c w b w' :
  publisher_reachable w → exec pub_others (process_control c) w b w' →
  let key := (qc_expected_task_id c, Z.of_N (qc_expected_state_version c)) in
  if b then
    ∃ f ob row w1, ps_failure (pw_state w) = Some f ∧ nf_task_id f = qc_expected_task_id c ∧
      nf_state_version f = qc_expected_state_version c ∧ nf_event_id f = qc_expected_event_id c ∧
      pub_others w w1 ∧ outbox w1 !! key = Some ob ∧ ob_event_id ob = qc_expected_event_id c ∧
      outbox w' !! key = None ∧
      (∀ key' ob', key' ≠ key → outbox w !! key' = Some ob' → outbox w' !! key' = Some ob') ∧
      quarantine w !! key = None ∧ quarantine w' = <[key := row]> (quarantine w) ∧
      quarantines ob (qc_reason c) (nf_error f) row ∧
      ps_failure (pw_state w') = None ∧ ps_last_error (pw_state w') = None ∧
      ps_responses (pw_state w') !! qc_response c = Some (Ok tt)
  else
    ∃ e w1, pub_others w w1 ∧ w' = answered c (Err (Store e)) w1.
Proof.
  intros Hi%publisher_reachable_inv He key. unfold process_control in He.
  apply exec_bind in He as (failure & w1 & Hread & He).
  apply exec_state in Hread as (w1' & Hr1 & [= -> ->] & Hi1); [|done].
  cbn [fst snd] in He, Hi1. rewrite with_state_same in He, Hi1. rename w1' into w1.
  pose proof (others_framed _ _ Hi Hr1) as Hf1.
  apply exec_bind in He as (res & w2 & Hres & He).
  assert (∀ e, res = Err (Store e) → pub_others w w2 → pub_inv w2 → if b then False else
    ∃ e w1, pub_others w w1 ∧ w' = answered c (Err (Store e)) w1) as Hrefused.
  { intros e -> Hr2 Hi2. apply exec_bind in He as (? & w4 & [_ ->] & He).
    apply exec_respond in He as (-> & w5 & Hr5 & ->); [|done]. exists e, w5. by split; [etrans|]. }
  destruct (ps_failure (pw_state w1)) as [f|] eqn:Hfail; [|destruct Hres as [-> ->];
    specialize (Hrefused _ eq_refl Hr1 Hi1); by destruct b].
  destruct (names_command c f) eqn:Hn; [|destruct Hres as [-> ->];
    specialize (Hrefused _ eq_refl Hr1 Hi1); by destruct b].
  unfold names_command in Hn. apply andb_true_iff in Hn as [[Hn1 Hn2]%andb_true_iff Hn3]. bool_prop.
  apply exec_bind in Hres as (r & w3 & Hquar & -> & ->).
  apply exec_quarantine in Hquar as (Hi3 & w4 & Hr4 & Hout); [|done].
  destruct r as [[]|e]; cbn [map_err is_ok] in He, Hrefused;
    [|subst w3; specialize (Hrefused _ eq_refl (transitivity Hr1 Hr4) Hi3); by destruct b].
  clear Hrefused. destruct Hout as (ob & row & Hob & Hev & Hrow & Hnone & ->).
  apply exec_bind in He as (? & w5 & Hset & He). apply exec_bind in Hset as (? & w6 & Hset & Hset').
  apply exec_modify_state in Hset as (w7 & Hr7 & -> & Hi6); [|done].
  apply exec_modify_state in Hset' as (w8 & Hr8 & -> & Hi5); [|done].
  apply exec_respond in He as (-> & w9 & Hr9 & ->); [|done]. simpl.
  pose proof (framed_trans _ _ _ Hf1 (others_framed _ _ Hi1 Hr4)) as [Hi4 Hq4 Hfa4 _ _ Ho4 _ _].
  pose proof (others_framed _ _ Hi3 Hr7) as [_ Hq7 _ _ _ Ho7 Hg7 Hv7].
  pose proof (others_framed _ _ Hi6 Hr8) as [_ Hq8 Hfa8 _ _ Ho8 Hg8 Hv8].
  pose proof (others_framed _ _ Hi5 Hr9) as [_ Hq9 Hfa9 _ He9 Ho9 Hg9 _].
  assert (is_Some (pw_events w4 !! key)) as Hkey
    by (eexists; by eapply lookup_weaken; [|apply (pi_outbox _ Hi4)]).
  exists f, ob, row, w4. split_and!; try done.
  - by rewrite <- (fr_failure _ _ Hf1).
  - by etrans.
  - change (outbox w9 !! key = None).
    apply Hg9; [exact (lookup_weaken_is_Some _ _ _ (lookup_weaken_is_Some _ _ _ Hkey Hv7) Hv8)|].
    apply Hg8; [exact (lookup_weaken_is_Some _ _ _ Hkey Hv7)|]. apply Hg7; [done|].
    apply lookup_delete_eq.
  - intros key' ob' Hne Hob'. change (outbox w9 !! key' = Some ob').
    eapply lookup_weaken; [|exact Ho9]. change (outbox w8 !! key' = Some ob').
    eapply lookup_weaken; [|exact Ho8]. change (outbox w7 !! key' = Some ob').
    eapply lookup_weaken; [|exact Ho7]. unfold outbox, without. cbn.
    rewrite lookup_delete_ne by done. by eapply lookup_weaken.
  - by rewrite <- Hq4.
  - change (quarantine w9 = <[key := row]> (quarantine w)). rewrite Hq9.
    change (quarantine w8 = <[key := row]> (quarantine w)). rewrite Hq8.
    change (quarantine w7 = <[key := row]> (quarantine w)). rewrite Hq7, <- Hq4. done.
  - change (ps_failure (pw_state w9) = None). rewrite Hfa9.
    change (ps_failure (pw_state w8) = None). by rewrite Hfa8.
  - apply lookup_insert_eq.
Qed.
End properties.

(** ** Concrete instances *)

#[local] Existing Instances fixture_types fixture_json fixture_sqlite fixture_sqlite_laws.

(** Stored events are not looked at; an empty identifier is refused. *)
Definition fixture_bus : EventBus :=
  {| EventId := string;
     event_id_new := λ s, if str_is_empty s then Err "empty"%string else Ok s;
     PublishRequest := TaskEvent * string;
     publish_request := λ e i, Ok (e, i);
     event_from_str := λ s, Ok {| ev_schema_version := 1; ev_task_id := 1; ev_state_version := 0;
                                  ev_state := Queued; ev_correlation_key := None |};
     debug_option := λ o, match o with Some s => s | None => "None"%string end |}.
#[local] Existing Instance fixture_bus.

Definition bus_admits : PubOracle :=
  {| po_now := 20; po_disk := None; po_bus := λ _, Ok tt; po_control := false |}.
Definition bus_refuses : PubOracle :=
  {| po_now := 20; po_disk := None; po_bus := λ _, Err "refused"%string; po_control := false |}.

(** The worker on the store with the three events of task 1 and one of task 2,
    after some of its own steps. *)
Definition demo_worker (l : list PubOracle) : PubWorld :=
  (self_steps l (run_worker 5 3 INITIAL_BACKOFF_MS, publisher_start demo_sq4)).2.

Lemma demo_worker_reachable l : publisher_reachable (demo_worker l).
Proof.
  exists demo_sq4, 5%nat, 3%nat. eexists. split; [apply demo_sq_reachable4|].
  unfold demo_worker. rewrite <- surjective_pairing. by apply self_steps_rtc.
Qed.

(** Two events admitted. *)
Definition demo_halfway : PubWorld := demo_worker (replicate 19 bus_admits).

Lemma publisher_delivery_witness :
  outbox demo_halfway !! (1, 0%Z) = None ∧ is_Some (outbox demo_halfway !! (2, 0%Z)) ∧
  (quarantined (1, 0%Z) demo_halfway ∨
   ∃ x, x ∈ pw_bus demo_halfway ∧ oe_task_id x.1 = 1 ∧ oe_state_version x.1 = 0).
Proof.
  assert (outbox demo_halfway !! (1, 0%Z) = None) as Hgone by (vm_compute; reflexivity).
  split; [done|]. split; [apply is_some_true; vm_compute; reflexivity|].
  assert (is_some (pw_events demo_halfway !! (1, 0%Z)) = true) as [ob Hk]%is_some_true
    by (vm_compute; reflexivity).
  destruct (publisher_delivery demo_halfway (1, 0%Z) ob (demo_worker_reachable _) Hk)
    as [Ho|[Hq|(r & Hin & _)]]; [congruence|by left|right].
  exists (row_entry ((1, 0%Z), ob), r). split; [exact Hin|]. split; reflexivity.
Defined.

Lemma publisher_order_witness :
  oe_state_version <$> (pw_bus demo_halfway).*1 = [0; 1] ∧
  (quarantined (1, 0%Z) demo_halfway ∨
   ∃ j older, (j < 1)%nat ∧ pw_bus demo_halfway !! j = Some older ∧
     oe_task_id older.1 = 1 ∧ oe_state_version older.1 = 0).
Proof.
  split; [vm_compute; reflexivity|].
  assert (((λ x, (oe_task_id x.1, oe_state_version x.1)) <$> pw_bus demo_halfway !! 1%nat)
          = Some (1, 1)) as ([entry request] & Hx & [= Hid Hv])%fmap_Some by (vm_compute; reflexivity).
  assert (is_some (pw_events demo_halfway !! (1, 0%Z)) = true) as He by (vm_compute; reflexivity).
  pose proof (publisher_order demo_halfway 1 entry request 0 (demo_worker_reachable _) Hx) as Ho.
  simpl in Hid, Hv. rewrite <- Hid, <- Hv in Ho. apply Ho; [lia|by apply is_some_true].
Defined.

Definition demo_closed : PubWorld :=
  with_state (set_closing publisher_state_new) (publisher_start demo_sq4).

Lemma publisher_drains_witness :
  size (outbox demo_closed) = 4%nat ∧
  ∃ w' log, run bus_admits (run_worker 2 1 25) demo_closed = (Some tt, w') ∧ outbox w' = ∅ ∧
    pw_bus w' = pw_bus demo_closed ++ log ∧ length log = 4%nat ∧ ps_pending (pw_state w') = 0.
Proof.
  assert (size (outbox demo_closed) = 4%nat) as Hsize by (vm_compute; reflexivity).
  split; [done|].
  destruct (publisher_drains bus_admits 1 2 1 25 demo_closed)
    as (w' & log & Hrun & He & Hb & Hl & Hp).
  - done.
  - done.
  - split; [apply demo_sq_wf4|apply is_some_true; vm_compute; reflexivity|vm_compute; reflexivity|
      done|done|].
    assert (bool_decide (map_Forall (λ key ob, is_ok (entry_request (row_entry (key, ob))) = true)
              (outbox demo_closed)) = true) as Hall%bool_decide_eq_true by (vm_compute; reflexivity).
    exact Hall.
  - lia.
  - lia.
  - lia.
  - exists w', log. split_and!; [done..| |done]. rewrite <- (length_fmap fst), Hl, length_fmap.
    rewrite sorted_outbox_length. exact Hsize.
Defined.

(** The first event was refused. *)
Definition demo_failed : PubWorld := demo_worker (replicate 11 bus_refuses).
Definition demo_command : QuarantineCommand :=
  {| qc_expected_task_id := 1; qc_expected_state_version := 0; qc_expected_event_id := "task:1:0";
     qc_reason := "poison"; qc_response := 0 |}.

Lemma publisher_quarantine_exact_witness :
  let after := run bus_refuses (process_control demo_command) demo_failed in
  after.1 = true ∧ quarantine demo_failed !! (1, 0%Z) = None ∧ outbox after.2 !! (1, 0%Z) = None ∧
  qr_reason <$> quarantine after.2 !! (1, 0%Z) = Some "poison"%string.
Proof.
  intros after. assert (after.1 = true) as Ha by (vm_compute; reflexivity). split; [done|].
  pose proof (publisher_quarantine_exact demo_command demo_failed after.1 after.2
    (demo_worker_reachable _)) as Hq. rewrite Ha in Hq.
  destruct Hq as (f & ob & row & w1 & _ & _ & _ & _ & _ & _ & _ & Hgone & _ & Hn & Hins & Hrow & _).
  - rewrite <- Ha. apply run_exec; [|done]. intros w. apply rtc_refl.
  - split; [exact Hn|]. split; [exact Hgone|].
    change (quarantine after.2 = <[(1, 0%Z) := row]> (quarantine demo_failed)) in Hins.
    rewrite Hins, lookup_insert_eq. exact (f_equal Some (qs_reason _ _ _ _ Hrow)).
Defined.
