(* ===== verification/PublisherAnswers.v ===== *)
(** * The event publisher: every accepted command is answered

    A quarantine command that was accepted is answered by the time the worker
    has returned, although clients send commands and close the publisher at any
    moment: the closing flag is set under the gate that also guards the
    acceptance of commands, and the worker looks at its queue once more after it
    has seen the flag. *)

From S2P Require Import Prelude TaskState Model MemoryStore MemoryInvariant MemoryPreservation.
From S2P Require Import MemoryHistory MemoryQueries MemorySpec SqliteStore SqliteAdmin.
From S2P Require Import SqliteInvariant SqliteRefinement SqliteQueries SqlitePruning SqliteOutbox.
From S2P Require Import SqliteHistory Programs ServiceMonad Publisher PublisherLogic PublisherSpecs.
From S2P Require Import PublisherDrain PublisherProperties Fixtures SqliteFixtures.

Section answers.
Context `{ET : !ExternalTypes, SJ : !SnapshotJson, QJ : !SqliteJson, QL : !SqliteJsonLaws}.
Context `{EB : !EventBus}.
Implicit Types (w : PubWorld) (ps : PublisherState) (taken : list N).

(** Every accepted command has been answered, waits in the queue, or is in
    [taken], the hands of the worker; the publisher is closed if [closed]. *)
Record tracked (closed : bool) taken ps : Prop := {
  tr_accepted : ∀ r, r < ps_next_response ps → is_Some (ps_responses ps !! r) ∨
    r ∈ qc_response <$> ps_controls ps ∨ r ∈ taken;
  tr_closed : closed = true → ps_closing ps = true;
}.
Abbreviation tracks c taken w := (tracked c taken (pw_state w)).

(** Accesses of the state that leave the commands alone. *)
Definition neutral_access {X} (f : PublisherState → X * PublisherState) : Prop :=
  ∀ ps, ps_responses (f ps).2 = ps_responses ps ∧ ps_controls (f ps).2 = ps_controls ps ∧
    ps_next_response (f ps).2 = ps_next_response ps ∧ ps_closing (f ps).2 = ps_closing ps.
Definition neutral X (op : PubOp X) : Prop :=
  match op with PubState _ f => neutral_access f | PubSelect _ => False | _ => True end.

Lemma tracked_access {X} (f : PublisherState → X * PublisherState) c taken ps :
  neutral_access f → tracked c taken ps → tracked c taken (f ps).2.
Proof. intros Hf [Ha Hc]. destruct (Hf ps) as (H1 & H2 & H3 & H4). split; by rewrite ?H1, ?H2, ?H3, ?H4. Qed.

Lemma client_tracked c taken ps ps' : client_step ps ps' → tracked c taken ps → tracked c taken ps'.
Proof.
  intros Hs [Ha Hc]. destruct Hs as [ps|stopping dropped id version event_id reason ps|ps]; [done| |done].
  unfold quarantine_failed. destruct (str_is_empty _); [done|]. destruct (4096 <? _); [done|].
  destruct (_ || _); [done|]. destruct dropped; [done|]. destruct (_ <=? _); [done|].
  split; [|done]. cbn. intros r Hr.
  rewrite fmap_app. cbn. destruct (decide (r = ps_next_response ps)) as [->|Hne]; [set_solver|].
  destruct (Ha r) as [?|[?|?]]; [lia|set_solver..].
Qed.

Lemma others_tracked c taken w w' : pub_others w w' → tracks c taken w → tracks c taken w'.
Proof.
  induction 1 as [w|w w1 w2 Hs _ IH]; [done|]. intros Ht. apply IH. destruct Hs as [w s' _|w ps' Hc]; [done|].
  by eapply client_tracked.
Qed.

(** Once closed, nothing is accepted any more. *)
Lemma closed_others w w' :
  pub_others w w' → ps_closing (pw_state w) = true →
  ps_closing (pw_state w') = true ∧ ps_next_response (pw_state w') = ps_next_response (pw_state w) ∧
  ps_responses (pw_state w') = ps_responses (pw_state w).
Proof.
  induction 1 as [w|w w1 w2 Hs _ IH]; [done|]. intros Hc.
  assert (ps_closing (pw_state w1) = true ∧
    ps_next_response (pw_state w1) = ps_next_response (pw_state w) ∧
    ps_responses (pw_state w1) = ps_responses (pw_state w)) as (H1 & <- & <-); [|by apply IH].
  destruct Hs as [w s' _|w ps' Hcl]; [done|]. destruct Hcl as [|stopping dropped id version event_id reason ps|]; cbn; [done| |done].
  unfold quarantine_failed. rewrite Hc, orb_true_r. repeat case_match; done.
Qed.

(** ** Rules *)

Abbreviation awp := (wp pub_others (λ _ _, True)).

Lemma neutral_tracks o {X} (op : PubOp X) c taken w :
  neutral X op → tracks c taken w → tracks c taken (pub_perform o op w).2.
Proof.
  intros Hn Ht. destruct op; try done; cbn -[on_outbox].
  1-3: unfold on_outbox; destruct (po_disk o); [done|];
       match goal with |- context [run_outbox ?f ?s] => destruct (run_outbox f s) end; done.
  - by destruct (is_ok _).
  - pose proof (tracked_access f c taken _ Hn Ht) as Hf. by destruct (f (pw_state w)).
Qed.

Lemma wp_neutral {A} (p : job A) c taken Q w :
  all_ops neutral p → tracks c taken w → (∀ a w', tracks c taken w' → Q a w') → awp p Q w.
Proof.
  intros Hp Ht HQ. revert w Ht. induction p as [a|X op k IH]; intros w Ht; [by apply HQ|].
  destruct Hp as [Hop Hk]. intros o w1 Hr _. split; [done|].
  apply IH; [apply Hk|]. by apply neutral_tracks, (others_tracked c taken w).
Qed.

Definition in_hand (command : option QuarantineCommand) : list N :=
  match command with Some c => [qc_response c] | None => [] end.

Lemma try_recv_tracked c ps :
  tracked c [] ps →
  tracked c (in_hand (try_recv ps).1) (try_recv ps).2 ∧
  ((try_recv ps).1 = None → ps_controls (try_recv ps).2 = []).
Proof.
  unfold try_recv. destruct (ps_controls ps) as [|command rest] eqn:Hc; [done|]. intros [Ha Hcl].
  split; [|done]. split; [|done]. cbn. intros r Hr. destruct (Ha r Hr) as [?|[Hin|Hin]]; [by auto| |set_solver].
  rewrite Hc in Hin. set_solver.
Qed.

Lemma wp_try_recv c Q w :
  tracks c [] w →
  (∀ command w', tracks c (in_hand command) w' →
     (command = None → ps_controls (pw_state w') = []) → Q command w') →
  awp (on_state try_recv) Q w.
Proof.
  intros Ht HQ o w1 Hr _. split; [done|]. cbn.
  destruct (try_recv_tracked c _ (others_tracked _ _ _ _ Hr Ht)) as [H1 H2].
  destruct (try_recv (pw_state w1)) as [command ps]. by apply HQ.
Qed.

Lemma wp_select_tracks delay c Q w :
  tracks c [] w → (∀ command w', tracks c (in_hand command) w' → Q command w') →
  awp (call (PubSelect delay)) Q w.
Proof.
  intros Ht HQ o w1 Hr _. split; [done|]. cbn.
  pose proof (others_tracked _ _ _ _ Hr Ht) as Ht1. destruct (po_control o); [|by apply HQ].
  destruct (try_recv_tracked c _ Ht1) as [H1 _].
  destruct (try_recv (pw_state w1)) as [command ps]. by apply HQ.
Qed.

(** Answering a command takes it out of the worker's hands. *)
Lemma respond_tracked c command res taken ps :
  tracked c (qc_response command :: taken) ps → tracked c taken (respond command res ps).
Proof.
  intros [Ha Hc]. split; [|done]. cbn. intros r Hr.
  destruct (decide (r = qc_response command)) as [->|Hne].
  - left. by rewrite lookup_insert_eq.
  - rewrite lookup_insert_ne by done. destruct (Ha r Hr) as [?|[?|Hin]]; [by auto..|set_solver].
Qed.

Ltac neutral :=
  repeat match goal with
  | |- all_ops _ (Ret _) => exact I
  | |- all_ops _ (_ ≫= _) => apply all_ops_bind; [|intros ?]
  | |- all_ops _ (match ?x with _ => _ end) => destruct x
  | |- all_ops _ _ => apply all_ops_call; (exact I || (intros ps; repeat split; repeat case_match; done))
  end.

Lemma process_control_tracks command c taken Q w :
  tracks c (qc_response command :: taken) w → (∀ b w', tracks c taken w' → Q b w') →
  awp (process_control command) Q w.
Proof.
  intros Ht HQ. unfold process_control.
  apply wp_bind, (wp_neutral _ c (qc_response command :: taken)); [by neutral|done|].
  intros failure w1 Ht1. apply wp_bind, (wp_neutral _ c (qc_response command :: taken)); [by neutral|done|].
  intros res w2 Ht2. apply wp_bind, (wp_neutral _ c (qc_response command :: taken)); [by neutral|done|].
  intros [] w3 Ht3. apply wp_bind. intros o w4 Hr _. split; [done|]. apply HQ. cbn.
  by apply respond_tracked, (others_tracked _ _ _ _ Hr).
Qed.

(** ** The worker *)

(** A queue that has been worked off is empty at that moment. *)
Lemma controls_tracks fuel q c Q w :
  tracks c [] w →
  (∀ r w', tracks c [] w' → (r ≠ None → ps_controls (pw_state w') = []) → Q r w') →
  awp (process_queued_controls fuel q) Q w.
Proof.
  revert q w. induction fuel as [|fuel IH]; intros q w Ht HQ; [by apply HQ|].
  apply wp_bind, (wp_try_recv c); [done|]. intros [command|] w1 Ht1 He1.
  - apply wp_bind, (process_control_tracks command c []); [done|]. intros b w2 Ht2. by apply IH.
  - apply HQ; [done|]. intros _. by apply He1.
Qed.

Lemma wait_tracks fuel delay c Q w :
  tracks c [] w → (∀ r w', tracks c [] w' → Q r w') → awp (wait_after_failure fuel delay) Q w.
Proof.
  revert w. induction fuel as [|fuel IH]; intros w Ht HQ; [by apply HQ|].
  apply wp_bind, (wp_select_tracks delay c); [done|]. intros [command|] w1 Ht1; [|by apply HQ].
  apply wp_bind, (process_control_tracks command c []); [done|]. intros [] w2 Ht2; [by apply HQ|by apply IH].
Qed.

Lemma publish_neutral entry : all_ops neutral (publish entry).
Proof. unfold publish. neutral. Qed.
Lemma failure_neutral entry error : all_ops neutral (record_failure entry error).
Proof. unfold record_failure. neutral. Qed.
Lemma changed_neutral entry : all_ops neutral (modify_state (clear_failure_if_head_changed entry)).
Proof. apply all_ops_call. intros ps. unfold clear_failure_if_head_changed. cbn. by destruct (is_some_and _ _). Qed.
Lemma cleared_neutral entry : all_ops neutral (modify_state (clear_failure_for entry)).
Proof. apply all_ops_call. intros ps. unfold clear_failure_for. cbn. by destruct (is_some_and _ _). Qed.

Lemma entries_tracks fuel entries c Q w :
  tracks c [] w → (∀ r w', tracks c [] w' → Q r w') → awp (publish_entries fuel entries) Q w.
Proof.
  revert w. induction entries as [|entry rest IH]; intros w Ht HQ; [by apply HQ|]. cbn [publish_entries].
  apply wp_bind, (wp_neutral _ c []); [apply changed_neutral|done|]. intros [] w1 Ht1.
  apply wp_bind, (controls_tracks _ _ c); [done|]. intros [[]|] w2 Ht2 _; [by apply HQ| |by apply HQ].
  apply wp_bind, (wp_neutral _ c []); [apply publish_neutral|done|]. intros [[]|e] w3 Ht3.
  - apply wp_bind, (wp_neutral _ c []); [apply cleared_neutral|done|]. intros [] w4 Ht4.
    apply wp_bind, (wp_neutral _ c []); [by neutral|done|]. intros [] w5 Ht5. by apply IH.
  - apply wp_bind, (wp_neutral _ c []); [apply failure_neutral|done|]. intros [] w4 Ht4. by apply HQ.
Qed.

(** The worker returns only after the publisher was closed, with nothing left
    in its queue. *)
Definition all_answered w : Prop :=
  ps_closing (pw_state w) = true ∧
  ∀ r, r < ps_next_response (pw_state w) → is_Some (quarantine_result false r (pw_state w)).

Lemma worker_answers fuel controls backoff w :
  tracks false [] w →
  awp (run_worker fuel controls backoff) (λ r w', r = Some tt → all_answered w') w.
Proof.
  revert backoff w. induction fuel as [|fuel IH]; intros backoff w Ht; [done|]. cbn [run_worker].
  assert (∀ w1, tracks false [] w1 → awp
    (again ← wait_after_failure controls backoff;
     match again with
     | None => Ret None
     | Some true => run_worker fuel controls INITIAL_BACKOFF_MS
     | Some false => run_worker fuel controls (next_backoff backoff)
     end) (λ r w', r = Some tt → all_answered w') w1) as Hlater.
  { intros w1 Ht1. apply wp_bind, (wait_tracks _ _ false); [done|]. intros [[]|] w2 Ht2; [by apply IH..|done]. }
  apply wp_bind, (controls_tracks _ _ false); [done|]. intros r w1 Ht1 _. destruct (is_none r); [done|].
  apply wp_bind, (wp_neutral _ false []); [by neutral|done|]. intros [[|entry rest]|e] w2 Ht2.
  - apply wp_bind, (wp_neutral _ false []); [by neutral|done|]. intros [] w3 Ht3.
    apply wp_bind. intros o w4 Hr _. split; [done|].
    pose proof (others_tracked _ _ _ _ Hr Ht3) as Ht4.
    cbn [on_machine publisher_machine pub_perform fst snd].
    destruct (ps_closing (pw_state w4)) eqn:Hc.
    + apply wp_bind, (controls_tracks _ _ true); [split; [apply Ht4|done]|].
      intros [[]|] w5 [Ha Hcl] He; [apply IH; by split| |done].
      intros _. split; [by apply Hcl|]. intros r' Hr'.
      destruct (Ha r' Hr') as [Hs|[Hin|Hin]]; [|exfalso|set_solver].
      { unfold quarantine_result. destruct Hs as [x ->]. by eexists. }
      rewrite He in Hin by done. set_solver.
    + apply wp_bind, (wp_select_tracks _ false); [done|]. intros [command|] w5 Ht5.
      * apply wp_bind, (process_control_tracks command false []); [done|]. intros b w6 Ht6. by apply IH.
      * by apply IH.
  - apply wp_bind, (wp_neutral _ false []); [by neutral|done|]. intros [] w3 Ht3.
    apply wp_bind, (entries_tracks _ _ false); [done|]. intros [[]|] w4 Ht4; [|by apply IH|done].
    apply wp_bind, (controls_tracks _ _ false); [done|].
    intros [[]|] w5 Ht5 _; [by apply IH|by apply Hlater|done].
  - apply wp_bind, (wp_neutral _ false []); [by neutral|done|]. intros [] w3 Ht3.
    apply wp_bind, (wp_neutral _ false []); [by neutral|done|]. intros [] w4 Ht4. by apply Hlater.
Qed.

(** C24. A quarantine command that the publisher accepted is answered: whenever
    the worker has returned, whatever clients and writers did meanwhile and do
    afterwards, every channel ever given out has its result, the publisher is
    closed, and every further command is refused. *)
Theorem publisher_answers s fuel controls w w' :
  exec pub_others (run_worker fuel controls INITIAL_BACKOFF_MS) (publisher_start s) (Some tt) w →
  pub_others w w' →
  (∀ r, r < ps_next_response (pw_state w') → is_Some (quarantine_result false r (pw_state w'))) ∧
  ∀ shutting_down released stopping dropped id version event_id reason,
    is_ok (quarantine_failed_notification shutting_down released stopping dropped id version event_id
             reason (Some (pw_state w'))).1 = false.
Proof.
  intros He Ho. destruct (wp_exec _ (λ _ _, True) _ _ _ _ _
    (worker_answers fuel controls _ (publisher_start s) ltac:(by split; [intros r; cbn; lia|])) He eq_refl)
    as [Hc Ha].
  destruct (closed_others _ _ Ho Hc) as (Hc' & Hn & Hr). split.
  - intros r. unfold quarantine_result. rewrite Hn, Hr. apply Ha.
  - intros. unfold quarantine_failed_notification, quarantine_failed. rewrite Hc', orb_true_r.
    by repeat case_match; simplify_eq.
Qed.
End answers.

(** ** The handle *)

Section handle.
Context `{ET : !ExternalTypes, SJ : !SnapshotJson, QJ : !SqliteJson}.
Context `{EB : !EventBus}.

(** A new publisher has its receiver and no worker; afterwards exactly one of
    them is there until it is closed or dropped. *)
Definition startable (h : PublisherHandle) : Prop := is_some (ph_worker h) = negb (ph_receiver h).

(** Starting is idempotent and does not panic before the publisher is closed; a
    worker is joined once, and every later close succeeds. *)
Lemma handle_start_close fuel controls h :
  startable h →
  ∃ h', start_worker fuel controls h = Some h' ∧ startable h' ∧ is_Some (ph_worker h') ∧
    (∀ fuel' controls', start_worker fuel' controls' h' = Some h') ∧
    ∀ ended ps ended' ps', let closed := (close_publisher ended ps h').2 in
      ph_worker closed = None ∧ (close_publisher ended' ps' closed).1 = Ok tt ∧
      start_worker fuel controls closed = None.
Proof.
  unfold startable, start_worker. destruct h as [ps [p|] []]; cbn; try done; intros _;
    eexists; split_and!; try done.
Qed.
End handle.

(** ** A concrete instance *)

#[local] Existing Instances fixture_types fixture_json fixture_sqlite fixture_sqlite_laws fixture_bus.

(** A client has sent a command and the publisher has been closed before the
    worker's first step; nothing has failed yet, so the answer is a conflict. *)
Definition demo_asked : PublisherState :=
  (quarantine_failed false false 1 0 "task:1:0" " poison " publisher_state_new).2.
Definition demo_asked_closed : PubWorld := with_state (set_closing demo_asked) (publisher_start demo_sq4).

Lemma demo_asked_others : pub_others (publisher_start demo_sq4) demo_asked_closed.
Proof.
  eapply rtc_l.
  - apply (other_client (publisher_start demo_sq4) demo_asked).
    apply (client_quarantine false false 1 0 "task:1:0" " poison ").
  - apply rtc_once. apply (other_client (with_state demo_asked (publisher_start demo_sq4))).
    constructor.
Qed.

Lemma publisher_answers_witness :
  let after := run bus_admits (run_worker 3 2 INITIAL_BACKOFF_MS) demo_asked_closed in
  after.1 = Some tt ∧ ps_next_response (pw_state after.2) = 1 ∧
  is_Some (quarantine_result false 0 (pw_state after.2)).
Proof.
  intros after. assert (after.1 = Some tt) as Ha by (vm_compute; reflexivity).
  assert (ps_next_response (pw_state after.2) = 1) as Hn by (vm_compute; reflexivity).
  split; [exact Ha|]. split; [exact Hn|].
  apply (publisher_answers demo_sq4 3 2 after.2 after.2); [|apply rtc_refl|lia].
  rewrite <- Ha. apply (exec_earlier _ _ _ demo_asked_closed); [reflexivity|apply demo_asked_others|].
  apply run_exec; [|done]. intros w. apply rtc_refl.
Defined.

(** ** A commit between the empty page and the close

    The worker reads whether the publisher is closing after it has listed the
    page.  A version committed in between, and a close right after it, make it
    return with the event still pending; the close reports no error. *)

Definition page_listed : job (option unit) * PubWorld :=
  self_steps (replicate 2 bus_admits) (run_worker 2 1 INITIAL_BACKOFF_MS, publisher_start demo_sq0).
Definition committed_late : PubWorld :=
  let w := page_listed.2 in
  let s := (store_accept 5 5 1 (demo_request None 3) (pw_store w)).2 in
  {| pw_store := s; pw_state := pw_state w; pw_bus := pw_bus w;
     pw_events := pw_events w ∪ db_outbox (ss_db s) |}.
Definition closed_late : PubWorld := with_state (set_closing (pw_state committed_late)) committed_late.
Definition worker_returned : job (option unit) * PubWorld :=
  self_steps (replicate 4 bus_admits) (page_listed.1, closed_late).

Lemma closed_late_others : pub_others page_listed.2 closed_late.
Proof.
  apply rtc_l with committed_late.
  - apply (other_writes page_listed.2 (store_accept 5 5 1 (demo_request None 3) (pw_store page_listed.2)).2).
    apply writer_accept. intros v. replace (pw_events page_listed.2) with (∅ : gmap (TaskId * Z) OutboxRow)
      by (vm_compute; reflexivity). apply lookup_empty.
  - apply rtc_once, other_client, client_close.
Qed.

Lemma publisher_close_leaves_rows :
  rtc (thread_step pub_others) (run_worker 2 1 INITIAL_BACKOFF_MS, publisher_start demo_sq0)
    worker_returned ∧
  worker_returned.1 = Ret (Some tt) ∧ is_Some (outbox worker_returned.2 !! (1, 0%Z)) ∧
  close_result (Some Joined) (pw_state worker_returned.2) = Ok tt.
Proof.
  split; [|split; [vm_compute; reflexivity|split; [apply is_some_true; vm_compute; reflexivity|done]]].
  transitivity page_listed; [by apply self_steps_rtc|].
  apply rtc_l with (page_listed.1, closed_late); [|by apply self_steps_rtc].
  rewrite (surjective_pairing page_listed) at 1. apply thread_other, closed_late_others.
Qed.
