(* ===== verification/Service.v ===== *)
(** * The task execution service

    [src/src/service/typed_task_execution_service.rs] and its
    [internal/service_runner.rs]: submission, cancellation, resumption, the
    scheduler's scan with its fairness rule, the execution of one attempt, the
    external cancellation hooks, and the recovery of what a previous owner left
    running.  Each function is a program of [ServiceMonad]; a loop that retries
    after a lost compare-and-set, or that follows pages, takes fuel and answers
    [None] when it runs out. *)

From S2P Require Import Prelude TaskState Model Engine RetryPolicy Requests Handlers MemoryStore.
From S2P Require Import MemoryQueries SqliteIds TaskStore ServiceMonad.
From S2P Require Import Programs.

Section service.
Context `{ET : !ExternalTypes, SJ : !SnapshotJson, CT : !CodecTypes, MW : !MetadataWire,
          HF : !HandlerFutures}.

(** [Display] of errors that wrap errors of other crates. *)
Class ErrorTexts := {
  dispatch_error_text : HandlerDispatchError → string;
  encode_error_text : TaskRequestEncodeError → string;
}.
Context `{EX : !ErrorTexts}.
Context (cf : ServiceConfig).

(** [?] on a program that returns a [Result]. *)
Definition try_bind {A B E} (p : prog (result A E)) (f : A → prog (result B E))
    : prog (result B E) :=
  x ← p; match x with Ok a => f a | Err e => Ret (Err e) end.
End service.

Notation "'let!' x := p 'in' q" := (try_bind p (λ x, q))
  (at level 10, x pattern, q at level 200,
   format "'[v' 'let!'  x  :=  p  'in' '/' q ']'") : rust_scope.

Section service.
Context `{ET : !ExternalTypes, SJ : !SnapshotJson, CT : !CodecTypes, MW : !MetadataWire,
          HF : !HandlerFutures, EX : !ErrorTexts}.
Context (cf : ServiceConfig).

(** ** Faults *)

Definition check_fault : prog (result unit TaskServiceError) :=
  fault ← read_core co_fault;
  Ret (match fault with None => Ok tt | Some m => Err (StoreUnavailable m) end).

Definition request_shutdown : prog unit :=
  modify_core (λ co, set_fault (co_fault co) true co).

(** The first fault is kept; every fault requests shutdown. *)
Definition latch_fault (error : string) : prog unit :=
  modify_core (λ co,
    set_fault (match co_fault co with None => Some error | Some m => Some m end)
      (co_shutting_down co) co);;
  request_shutdown.

Definition store_result {A} (res : result A StoreError) : prog (result A TaskServiceError) :=
  match res with
  | Ok a => Ret (Ok a)
  | Err Conflict => Ret (Err (Store Conflict))
  | Err NotFound => Ret (Err (Store NotFound))
  | Err e => latch_fault (StoreError_to_string e);; Ret (Err (Store e))
  end.

Definition submission_store_result {A} (res : result A StoreError)
    : prog (result A TaskServiceError) :=
  match res with
  | Err (CapacityExceeded requested available) =>
      Ret (Err (SubmissionCapacityExceeded requested available))
  | Err (UnfinishedRecordLimitExceeded limit) => Ret (Err (UnfinishedTaskLimitExceeded limit))
  | Err IdempotencyConflict => Ret (Err SubmissionIdempotencyConflict)
  | Err DuplicateTask => Ret (Err DuplicateTaskId)
  | other => store_result other
  end.

(** ** Submission *)

Definition submit (request : TaskRequest) : prog (result TaskSummary TaskServiceError) :=
  let! _ := check_fault in
  shutting_down ← read_core co_shutting_down;
  if (shutting_down : bool) then Ret (Err ShuttingDown) else
  match TaskRequest_encode request (cf_codecs cf) with
  | Err e => Ret (Err (TypedRequest (encode_error_text e)))
  | Ok stored =>
      let! id := call OpGenerateId in
      res ← call (OpAccept id stored);
      let! accepted := submission_store_result res in
      Ret (Ok (ao_summary accepted))
  end.

(** ** Reads *)

Definition service_get (id : TaskId) : prog (result (option TaskSummary) TaskServiceError) :=
  res ← call (OpGet id);
  Ret (match res with
       | Ok task => Ok (st_summary <$> (task : option StoredTask))
       | Err e => Err (Store e)
       end).
Definition service_get_state_checkpoint (id : TaskId)
    : prog (result (option TaskStateCheckpoint) TaskServiceError) :=
  res ← call (OpCheckpoint id); Ret (map_err Store res).
Definition service_query (query : TaskQuery) : prog (result TaskPage TaskServiceError) :=
  res ← call (OpList query); Ret (map_err Store res).

(** ** Finishing an attempt *)

Definition remove_external (key : TaskId * N) (co : ServiceCore) : ServiceCore :=
  set_external (delete key (co_external_cancellations co)) co.

Definition check_competing_transition (id : TaskId) (expected_version : N) : prog unit :=
  res ← call (OpGet id);
  match res with
  | Ok (Some task) =>
      if negb (ts_state_version (st_summary task) =? expected_version) then Ret tt
      else latch_fault "task lifecycle compare-and-set conflicted without a competing revision"
  | Ok None => latch_fault "task disappeared after lifecycle compare-and-set conflict"
  | Err e => latch_fault (StoreError_to_string e)
  end.

Definition mark_blocked (summary : TaskSummary) (reason : string) : prog unit :=
  res ← call (OpTransition
    {| tc_id := ts_id summary; tc_expected_state_version := ts_state_version summary;
       tc_expected_attempt := ts_attempt summary; tc_retry_not_before_ms := None;
       tc_state := Blocked reason; tc_cancel_requested := false; tc_cancel_error := None;
       tc_finished_at_ms := None; tc_output := None |});
  match res with
  | Ok _ => Ret tt
  | Err Conflict => check_competing_transition (ts_id summary) (ts_state_version summary)
  | Err e => latch_fault (StoreError_to_string e)
  end.

(** [delay.as_millis().min(u64::MAX)] of a duration in nanoseconds. *)
Definition delay_millis (delay : N) : N := N.min u64_max (delay / 1000000).

Definition retry_deadline (attempt now : N) : N :=
  saturating_add u64_max now (delay_millis (delay_for_attempt (cf_retry_policy cf) attempt)).

Definition attempt_command (started : TaskSummary) (latest : TaskSummary) (retry : bool)
    (deadline : option N) (state : TaskState) (output : option TaskOutput) (now : N)
    : TransitionCommand :=
  {| tc_id := ts_id started; tc_expected_state_version := ts_state_version latest;
     tc_expected_attempt := ts_attempt started; tc_retry_not_before_ms := deadline;
     tc_state := if retry then Queued else state;
     tc_cancel_requested := ts_cancel_requested latest;
     tc_cancel_error := ts_cancel_error latest; tc_finished_at_ms := Some now;
     tc_output := output |}.

Definition finish (started : TaskSummary) (state : TaskState) (output : option TaskOutput)
    (retryable : bool) : prog unit :=
  res ← call (OpGet (ts_id started));
  match res with
  | Err e => latch_fault (StoreError_to_string e)
  | Ok None => latch_fault "task disappeared while finalizing"
  | Ok (Some latest) =>
      let latest := st_summary latest in
      let key := (ts_id started, ts_attempt started) in
      if is_terminal (ts_state latest) then modify_core (remove_external key) else
      let retry := retryable && negb (ts_cancel_requested latest)
                   && (ts_attempt started <? cf_max_attempts cf) in
      deadline ← (if (retry : bool)
                  then (now ← call OpNow; Ret (Some (retry_deadline (ts_attempt started) now)))
                  else Ret None);
      now ← call OpNow;
      res ← call (OpTransition
                    (attempt_command started latest retry deadline state output now));
      match res with
      | Ok _ => modify_core (remove_external key)
      | Err Conflict => check_competing_transition (ts_id started) (ts_state_version latest)
      | Err e => latch_fault (StoreError_to_string e)
      end
  end.

(** ** One attempt *)

Definition release (reservation : N) : prog unit :=
  modify_core (λ co, set_ledger (release_reservation reservation (co_ledger co)) co).

Definition set_signal (key : TaskId * N) (value : bool) (co : ServiceCore) : ServiceCore :=
  set_cancellations (<[key := value]> (co_cancellations co)) co.
Definition remove_signal (key : TaskId * N) (co : ServiceCore) : ServiceCore :=
  set_cancellations (delete key (co_cancellations co)) co.

(** The state and output a handler's result is persisted as, and whether the
    failure may be retried. *)
Definition attempt_outcome (execution : HandlerExecution)
    : TaskState * option TaskOutput * bool :=
  match execution with
  | Some (Ok (RunSucceeded output)) =>
      if bytes_len (to_summary output) <=? MAX_TASK_OUTPUT_SUMMARY_BYTES
      then (Succeeded, Some output, false)
      else (Failed "task_output_too_large" "task output summary exceeds the 65536-byte limit",
            None, false)
  | Some (Ok RunCancelled) => (Cancelled, None, false)
  | Some (Err e) => (Failed (tre_category e) (tre_message e), None, tre_retryable e)
  | None => (Panicked "typed task handler panicked", None, false)
  end.

(** What catches a panic of the attempt's own code. *)
Definition attempt_panicked (id : TaskId) : prog unit :=
  latch_fault ("task execution supervisor panicked for " +:+ to_padded_decimal id).

(** The signal is shared with the handler under its task and attempt; every
    return, and unwinding, drops the reservation. *)
Definition run_one (id : TaskId) (running : TaskSummary) (reservation : N) : prog unit :=
  let key := (id, ts_attempt running) in
  unless_panic (release reservation;; attempt_panicked id) (
  res ← call (OpGet id);
  match res with
  | Err e => latch_fault (StoreError_to_string e);; release reservation
  | Ok None => release reservation
  | Ok (Some task) =>
      if negb (bool_decide (ts_state (st_summary task) = Running)) then release reservation else
      match prepare (ts_kind_id running) (sr_payload (st_request task)) (cf_codecs cf)
              (cf_handlers cf) with
      | Err e =>
          unless_panic (release reservation;; attempt_panicked id) (
          finish running (Failed "payload_decode" (dispatch_error_text e)) None false;;
          release reservation)
      | Ok prepared =>
          modify_core (set_signal key false);;
          unless_panic (release reservation;; attempt_panicked id) (
          latest ← call (OpGet id);
          match latest with
          | Err e => latch_fault (StoreError_to_string e);; release reservation
          | Ok latest =>
              (if is_some_and (λ t, ts_cancel_requested (st_summary t)) latest
               then modify_core (set_signal key true) else Ret tt);;
              execution ← call (OpRun prepared id (ts_attempt running));
              modify_core (remove_signal key);;
              release reservation;;
              let '(state, output, retryable) := attempt_outcome execution in
              unless_panic (attempt_panicked id) (finish running state output retryable)
          end)
      end
  end).

(** The spawned task: [run_one], then the guard's drop. *)
Definition leave_flight : prog unit :=
  modify_core (λ co, set_in_flight (co_in_flight co - 1) (co_spawned co) co).
Definition run_spawned (id : TaskId) (running : TaskSummary) (reservation : N) : prog unit :=
  run_one id running reservation;; leave_flight.

(** ** Progress *)

(** A reporter belongs to one attempt; its lock is held across the write, so
    its reports are serial. *)
Record TaskProgressReporter := {
  rp_id : TaskId;
  rp_attempt : N;
  rp_progress_version : N;
}.

Definition reporter_new (id : TaskId) (attempt : N) : TaskProgressReporter :=
  {| rp_id := id; rp_attempt := attempt; rp_progress_version := 0 |}.

Inductive ReporterError := ProgressVersionOverflow | ProgressRejected (e : StoreError).

(** [report] of an event with this stage and these metrics. *)
Definition report (stage : option Stage) (metrics : list MetricSnapshot)
    (reporter : TaskProgressReporter) : prog (result unit ReporterError * TaskProgressReporter) :=
  match checked_add u64_max (rp_progress_version reporter) 1 with
  | None => Ret (Err ProgressVersionOverflow, reporter)
  | Some progress_version =>
      now ← call OpNow;
      res ← call (OpProgress
        {| pc_id := rp_id reporter; pc_expected_attempt := rp_attempt reporter;
           pc_progress_version := progress_version; pc_stage := stage; pc_metrics := metrics;
           pc_updated_at_ms := now |});
      Ret (match res with
           | Ok _ => (Ok tt, {| rp_id := rp_id reporter; rp_attempt := rp_attempt reporter;
                                rp_progress_version := progress_version |})
           | Err e => (Err (ProgressRejected e), reporter)
           end)
  end.

(** ** The scheduler's scan *)

(** The oldest task that waits for resources, and how many newer tasks have
    started while it waits. *)
Record ResourceFairness := { rf_anchor : option (TaskId * N); rf_bypasses : N }.
Definition ResourceFairness_default : ResourceFairness :=
  {| rf_anchor := None; rf_bypasses := 0 |}.

Definition dispatch_is_eligible (summary : TaskSummary) : prog bool :=
  match registry_descriptor (ts_kind_id summary) (cf_handlers cf) with
  | None => mark_blocked summary "handler is not registered";; Ret false
  | Some descriptor =>
      if negb (bool_decide (ts_payload_type_id summary
                            = model_id_as_str (hd_payload_type_id descriptor)))
         || negb (bool_decide (ts_payload_schema_version summary
                               ∈ hd_accepted_schema_versions descriptor))
      then mark_blocked summary "handler does not accept the payload identity or schema version";;
           Ret false
      else if is_none (cf_codecs cf !! ts_payload_codec_id summary)
      then mark_blocked summary "payload bytes codec is not registered";; Ret false
      else Ret true
  end.

Definition reserve_task_resources (summary : TaskSummary) (fairness : ResourceFairness)
    : prog (option N * ResourceFairness) :=
  res ← core (λ co,
    let '(res, ledger) := try_prepare_typed (cf_capacity cf) (ts_resource_limit summary)
                            (co_ledger co) in
    (res, set_ledger ledger co));
  match res with
  | Ok reservation => Ret (Some reservation, fairness)
  | Err TemporarilyUnavailable =>
      Ret (None, match rf_anchor fairness with
                 | None => {| rf_anchor := Some (ts_id summary, ts_accepted_at_ms summary);
                              rf_bypasses := rf_bypasses fairness |}
                 | Some _ => fairness
                 end)
  | Err Unsatisfiable =>
      mark_blocked summary "requested resources exceed configured capacity";;
      Ret (None, fairness)
  | Err e => mark_blocked summary (EngineError_to_string e);; Ret (None, fairness)
  end.

(** The anchor of a summary, and the order of the scan. *)
Definition is_anchor (fairness : ResourceFairness) (summary : TaskSummary) : bool :=
  bool_decide (rf_anchor fairness = Some (ts_id summary, ts_accepted_at_ms summary)).
Definition behind_anchor (anchor : TaskId * N) (summary : TaskSummary) : bool :=
  key_ltb (anchor.2, anchor.1) (ts_key summary).

(** A reservation is not used when the anchor has been overtaken often enough. *)
Definition bypass_exhausted (fairness : ResourceFairness) (summary : TaskSummary) : bool :=
  match rf_anchor fairness with
  | Some anchor => (cf_max_resource_bypasses cf <=? rf_bypasses fairness)
                   && behind_anchor anchor summary
  | None => false
  end.

Definition started_fairness (fairness : ResourceFairness) (summary : TaskSummary)
    : ResourceFairness :=
  match rf_anchor fairness with
  | None => fairness
  | Some anchor =>
      if bool_decide (ts_key summary = (anchor.2, anchor.1)) then ResourceFairness_default
      else if behind_anchor anchor summary
      then {| rf_anchor := rf_anchor fairness; rf_bypasses := rf_bypasses fairness + 1 |}
      else fairness
  end.

Definition spawn (work : Spawned) : prog unit :=
  modify_core (λ co, set_in_flight (co_in_flight co + 1) (co_spawned co ++ [work]) co).

Definition scan_stops : prog bool :=
  shutting_down ← read_core co_shutting_down;
  if (shutting_down : bool) then Ret true else
  in_flight ← read_core co_in_flight;
  Ret (cf_max_running_tasks cf <=? in_flight).

(** Before a page is read. *)
Definition scan_pauses : prog bool :=
  shutting_down ← read_core co_shutting_down;
  if (shutting_down : bool) then Ret true else
  fault ← read_core co_fault;
  if is_some fault then Ret true else
  in_flight ← read_core co_in_flight;
  Ret (cf_max_running_tasks cf <=? in_flight).

(** Why a scan ends the scheduler, and the fault it latches. *)
Inductive ScanError := StoreFailed (e : StoreError) | SchedulerPanicked.
Definition scan_error_text (e : ScanError) : string :=
  match e with
  | StoreFailed e => StoreError_to_string e
  | SchedulerPanicked => "typed task scheduler panicked"
  end.

(** What to do after one record: go on, leave the loop, or fail. *)
Inductive Flow := Continue (fairness : ResourceFairness) (saw_anchor : bool)
                | Break (fairness : ResourceFairness) (saw_anchor : bool)
                | Fail (fairness : ResourceFairness) (e : ScanError).

Definition scan_record (summary : TaskSummary) (fairness : ResourceFairness) (saw_anchor : bool)
    : prog Flow :=
  stop ← scan_stops;
  if (stop : bool) then Ret (Break fairness saw_anchor) else
  let saw_anchor := saw_anchor || is_anchor fairness summary in
  unless_panic (Ret (Fail fairness SchedulerPanicked)) (
  eligible ← dispatch_is_eligible summary;
  if negb eligible then Ret (Continue fairness saw_anchor) else
  reserved ← reserve_task_resources summary fairness;
  let '(reservation, fairness) := (reserved : option N * ResourceFairness) in
  match reservation with
  | None => Ret (Continue fairness (saw_anchor || is_anchor fairness summary))
  | Some reservation =>
      if bypass_exhausted fairness summary
      then release reservation;; Ret (Continue fairness saw_anchor) else
      shutting_down ← read_core co_shutting_down;
      if (shutting_down : bool)
      then release reservation;; Ret (Break fairness saw_anchor) else
      now ← call OpNow;
      unless_panic (release reservation;; Ret (Fail fairness SchedulerPanicked)) (
      res ← call (OpStart {| sc_id := ts_id summary;
                             sc_expected_state_version := ts_state_version summary;
                             sc_started_at_ms := now |});
      match res with
      | Ok running =>
          spawn (SpawnRun (ts_id summary) running reservation);;
          Ret (Continue (started_fairness fairness summary) saw_anchor)
      | Err Conflict | Err NotFound =>
          release reservation;; Ret (Continue fairness saw_anchor)
      | Err e => release reservation;; Ret (Fail fairness (StoreFailed e))
      end)
  end).

Fixpoint scan_records (l : list TaskSummary) (fairness : ResourceFairness) (saw_anchor : bool)
    : prog Flow :=
  match l with
  | [] => Ret (Continue fairness saw_anchor)
  | summary :: rest =>
      flow ← scan_record summary fairness saw_anchor;
      match flow with
      | Continue fairness saw_anchor => scan_records rest fairness saw_anchor
      | other => Ret other
      end
  end.

(** The answer says whether the scan completed without meeting its anchor. *)
Fixpoint scan_pages (fuel : nat) (now : N) (after : option TaskCursor)
    (fairness : ResourceFairness) (saw_anchor : bool)
    : prog (option (result (bool * ResourceFairness) (ScanError * ResourceFairness))) :=
  match fuel with
  | O => Ret None
  | S fuel =>
      stop ← scan_pauses;
      if (stop : bool) then Ret (Some (Ok (false, fairness))) else
      unless_panic (Ret (Some (Err (SchedulerPanicked, fairness)))) (
      res ← call (OpReady after (cf_scan_page_size cf) now);
      match res with
      | Err e => Ret (Some (Err (StoreFailed e, fairness)))
      | Ok page =>
          flow ← scan_records (pg_records page) fairness saw_anchor;
          match flow with
          | Fail fairness e => Ret (Some (Err (e, fairness)))
          | Break fairness saw_anchor | Continue fairness saw_anchor =>
              stop ← scan_stops;
              if (stop : bool) then Ret (Some (Ok (false, fairness))) else
              match pg_next page with
              | None =>
                  Ret (Some (Ok (negb saw_anchor && is_some (rf_anchor fairness), fairness)))
              | Some next => scan_pages fuel now (Some next) fairness saw_anchor
              end
          end
      end)
  end.

Definition scan_ready_pages (fuel : nat) (now : N) (fairness : ResourceFairness) :=
  scan_pages fuel now None fairness (is_none (rf_anchor fairness)).

(** The scheduler's thread, with the handler that catches its panic; [None]:
    still running.  It waits for a wake-up or
    the next retry deadline between two rounds. *)
Fixpoint scheduler_loop (fuel pages : nat) (fairness : ResourceFairness) : prog (option unit) :=
  match fuel with
  | O => Ret None
  | S fuel =>
      shutting_down ← read_core co_shutting_down;
      if (shutting_down : bool) then Ret (Some tt) else
      fault ← read_core co_fault;
      if is_some fault then Ret (Some tt) else
      in_flight ← read_core co_in_flight;
      scanned ← (if in_flight <? cf_max_running_tasks cf
                 then (now ← call OpNow; scan_ready_pages pages now fairness)
                 else Ret (Some (Ok (false, fairness))));
      match scanned with
      | None => Ret None
      | Some (Err (e, _)) => latch_fault (scan_error_text e);; Ret (Some tt)
      | Some (Ok (true, _)) => scheduler_loop fuel pages ResourceFairness_default
      | Some (Ok (false, fairness)) =>
          now ← call OpNow;
          unless_panic (latch_fault (scan_error_text SchedulerPanicked);; Ret (Some tt)) (
          res ← call (OpNextDeadline now);
          match res with
          | Err e => latch_fault (StoreError_to_string e);; Ret (Some tt)
          | Ok _ => scheduler_loop fuel pages fairness
          end)
      end
  end.

(** ** Recovery *)

Definition recovery_command (summary : TaskSummary) : TransitionCommand :=
  {| tc_id := ts_id summary; tc_expected_state_version := ts_state_version summary;
     tc_expected_attempt := ts_attempt summary; tc_retry_not_before_ms := None;
     tc_state := if ts_cancel_requested summary
                 then Blocked "service stopped while cancellation was pending" else Queued;
     tc_cancel_requested := ts_cancel_requested summary;
     tc_cancel_error := ts_cancel_error summary; tc_finished_at_ms := None;
     tc_output := None |}.

Fixpoint recover_records (l : list TaskSummary) : prog (result unit TaskServiceError) :=
  match l with
  | [] => Ret (Ok tt)
  | summary :: rest =>
      if bool_decide (ts_state summary = Running) then
        res ← call (OpTransition (recovery_command summary));
        let! _ := store_result res in
        recover_records rest
      else recover_records rest
  end.

Definition recovery_query (after : option TaskCursor) : TaskQuery :=
  {| tq_states := [KindQueued; KindRunning]; tq_category := None;
     tq_correlation_key := None; tq_after := after; tq_limit := 128 |}.

Fixpoint recover_pages (fuel : nat) (after : option TaskCursor)
    : prog (option (result unit TaskServiceError)) :=
  match fuel with
  | O => Ret None
  | S fuel =>
      res ← call (OpList (recovery_query after));
      match res with
      | Err e => Ret (Some (Err (Store e)))
      | Ok page =>
          recovered ← recover_records (pg_records page);
          match recovered with
          | Err e => Ret (Some (Err e))
          | Ok _ =>
              match pg_next page with
              | None => Ret (Some (Ok tt))
              | Some next => recover_pages fuel (Some next)
              end
          end
      end
  end.

Definition recover_unfinished (fuel : nat) := recover_pages fuel None.

(** ** Resumption *)

(** Calls other than submission also refuse once ownership has been given up. *)
Definition refuses_work : prog bool :=
  shutting_down ← read_core co_shutting_down;
  if (shutting_down : bool) then Ret true else read_core co_owner_released.

Definition resume_blocked (id : TaskId) (expected_state_version : N)
    : prog (result TaskSummary TaskServiceError) :=
  let! _ := check_fault in
  stopping ← refuses_work;
  if (stopping : bool) then Ret (Err ShuttingDown) else
  res ← call (OpGet id);
  let! found := store_result res in
  match found with
  | None => Ret (Err (Store NotFound))
  | Some task =>
      let summary := st_summary task in
      if negb (ts_state_version summary =? expected_state_version)
      then Ret (Err (Store Conflict)) else
      if negb (bool_decide (kind (ts_state summary) = KindBlocked))
      then Ret (Err (NotBlocked (kind (ts_state summary)))) else
      if ts_cancel_requested summary then Ret (Err CancellationPending) else
      res ← call (OpTransition
        {| tc_id := id; tc_expected_state_version := expected_state_version;
           tc_expected_attempt := ts_attempt summary; tc_retry_not_before_ms := None;
           tc_state := Queued; tc_cancel_requested := false; tc_cancel_error := None;
           tc_finished_at_ms := None; tc_output := None |});
      store_result res
  end.

(** ** Cancellation *)

(** Persists that cancellation of a running attempt is requested, with the
    error of its hook, if any. *)
Definition request_command (id : TaskId) (summary : TaskSummary) (cancel_error : option string)
    : TransitionCommand :=
  {| tc_id := id; tc_expected_state_version := ts_state_version summary;
     tc_expected_attempt := ts_attempt summary; tc_retry_not_before_ms := None;
     tc_state := Running; tc_cancel_requested := true; tc_cancel_error := cancel_error;
     tc_finished_at_ms := None; tc_output := None |}.

(** Joins the hook of the attempt if one is in flight; [None] when it has
    succeeded already. *)
Definition start_or_join_external_cancel (key : TaskId * N) (kind_id : string)
    : prog (option N) :=
  entry ← core (λ co,
    match co_external_cancellations co !! key with
    | Some (InFlight flight) => (Some (flight, false), co)
    | Some HookSucceeded => (None, co)
    | None =>
        let flight := co_next_flight co in
        (Some (flight, true),
         set_flights (co_flights co) (flight + 1)
           (set_external (<[key := InFlight flight]> (co_external_cancellations co)) co))
    end);
  match entry : option (N * bool) with
  | None => Ret None
  | Some (flight, start) =>
      (if start then spawn (SpawnExternalCancel key kind_id flight) else Ret tt);;
      Ret (Some flight)
  end.

(** What a waiter reports when the flight's result arrives. *)
Definition wait_external_cancel (id : TaskId) (attempt : N) (r : ExternalCancelResult)
    : result CancelOutcome TaskServiceError :=
  match r with
  | ExtSuccess => Ok CancellationRequested
  | ExtAlreadyTerminal => Ok AlreadyTerminal
  | HookFailed message => Err (ExternalCancellationFailed id attempt message)
  | ServiceFailed message => Err (StoreUnavailable message)
  end.

(** An answer, or the flight whose result is awaited. *)
Inductive CancelReply :=
| Replied (r : result CancelOutcome TaskServiceError)
| Awaiting (id : TaskId) (attempt : N) (flight : N).

Definition cancel_running (id : TaskId) (summary : TaskSummary) : prog CancelReply :=
  match registry_descriptor (ts_kind_id summary) (cf_handlers cf) with
  | None => Ret (Replied (Err RunningCancellationUnsupported))
  | Some descriptor =>
      match hd_cancellation_mode descriptor with
      | Unsupported => Ret (Replied (Ok CancellationUnsupported))
      | ExternalHook =>
          flight ← start_or_join_external_cancel (id, ts_attempt summary) (ts_kind_id summary);
          Ret (match flight with
               | None => Replied (Ok CancellationRequested)
               | Some flight => Awaiting id (ts_attempt summary) flight
               end)
      | Cooperative =>
          if ts_cancel_requested summary then Ret (Replied (Ok CancellationRequested)) else
          res ← call (OpTransition (request_command id summary None));
          written ← store_result res;
          match written with
          | Err e => Ret (Replied (Err e))
          | Ok _ =>
              modify_core (λ co,
                match co_cancellations co !! (id, ts_attempt summary) with
                | Some _ => set_signal (id, ts_attempt summary) true co
                | None => co
                end);;
              Ret (Replied (Ok CancellationRequested))
          end
      end
  end.

Definition cancel (id : TaskId) : prog CancelReply :=
  fault ← check_fault;
  match fault with
  | Err e => Ret (Replied (Err e))
  | Ok _ =>
      stopping ← refuses_work;
      if (stopping : bool) then Ret (Replied (Err ShuttingDown)) else
      res ← call (OpGet id);
      found ← store_result res;
      match found with
      | Err e => Ret (Replied (Err e))
      | Ok None => Ret (Replied (Err (Store NotFound)))
      | Ok (Some task) =>
          let summary := st_summary task in
          if is_terminal (ts_state summary) then Ret (Replied (Ok AlreadyTerminal)) else
          if negb (bool_decide (ts_state summary = Running)) then
            now ← call OpNow;
            res ← call (OpTransition
              {| tc_id := id; tc_expected_state_version := ts_state_version summary;
                 tc_expected_attempt := ts_attempt summary; tc_retry_not_before_ms := None;
                 tc_state := Cancelled; tc_cancel_requested := false; tc_cancel_error := None;
                 tc_finished_at_ms := Some now; tc_output := None |});
            written ← store_result res;
            Ret (Replied (match written with Err e => Err e | Ok _ => Ok CancelledBeforeStart end))
          else cancel_running id summary
      end
  end.

(** ** External cancellation hooks *)

(** The attempt is no longer the running one. *)
Definition attempt_over (attempt : N) (summary : TaskSummary) : bool :=
  is_terminal (ts_state summary) || negb (ts_attempt summary =? attempt)
  || negb (bool_decide (ts_state summary = Running)).

(** The three loops read the task, leave when [done] decides so, and write the
    request with [cancel_error], reading again after a lost compare-and-set. *)
Fixpoint persist_request (fuel : nat) (id : TaskId) (attempt : N) (gone : string)
    (done : TaskSummary → option ExternalCancelResult) (cancel_error : option string)
    (written : ExternalCancelResult) : prog (option ExternalCancelResult) :=
  match fuel with
  | O => Ret None
  | S fuel =>
      res ← call (OpGet id);
      match res with
      | Err e => Ret (Some (ServiceFailed (StoreError_to_string e)))
      | Ok None => Ret (Some (ServiceFailed gone))
      | Ok (Some task) =>
          let summary := st_summary task in
          if attempt_over attempt summary then Ret (Some ExtAlreadyTerminal) else
          match done summary with
          | Some r => Ret (Some r)
          | None =>
              res ← call (OpTransition (request_command id summary cancel_error));
              match res with
              | Ok _ => Ret (Some written)
              | Err Conflict => persist_request fuel id attempt gone done cancel_error written
              | Err e => Ret (Some (ServiceFailed (StoreError_to_string e)))
              end
          end
      end
  end.

Definition record_external_cancel_failure (fuel : nat) (id : TaskId) (attempt : N)
    (message : string) : prog (option ExternalCancelResult) :=
  persist_request fuel id attempt "task disappeared while recording cancellation failure"
    (λ _, None) (Some message) (HookFailed message).

(** Before the hook: the request is persisted without an error. *)
Definition announce_request (fuel : nat) (id : TaskId) (attempt : N)
    : prog (option ExternalCancelResult) :=
  persist_request fuel id attempt "task disappeared during external cancellation"
    (λ summary, if negb (ts_cancel_requested summary) || is_some (ts_cancel_error summary)
                then None else Some ExtSuccess) None ExtSuccess.

(** After the hook succeeded: an error left by an earlier one is cleared. *)
Definition confirm_request (fuel : nat) (id : TaskId) (attempt : N)
    : prog (option ExternalCancelResult) :=
  persist_request fuel id attempt "task disappeared after external cancellation"
    (λ summary, if is_none (ts_cancel_error summary) then Some ExtSuccess else None)
    None ExtSuccess.

Definition external_cancel_panic_message (panic : PanicPayload) : string :=
  match panic with
  | PanicStr message | PanicString message => message
  | PanicOther => "external cancellation hook panicked"
  end.

Definition external_cancel_result (fuel : nat) (id : TaskId) (attempt : N) (kind_id : string)
    : prog (option ExternalCancelResult) :=
  announced ← announce_request fuel id attempt;
  match announced with
  | Some ExtSuccess =>
      match cancel_externally kind_id id attempt (cf_handlers cf) with
      | None => Ret (Some (ServiceFailed "external cancellation hook is unavailable"))
      | Some hook =>
          execution ← call (OpHook hook);
          match execution with
          | HookDone => confirm_request fuel id attempt
          | HookError message => record_external_cancel_failure fuel id attempt message
          | HookPanic panic =>
              record_external_cancel_failure fuel id attempt (external_cancel_panic_message panic)
          end
      end
  | other => Ret other
  end.

Definition settle_flight (key : TaskId * N) (flight : N) (r : ExternalCancelResult)
    : prog unit :=
  modify_core (λ co,
    match r with
    | ExtSuccess =>
        set_external (<[key := HookSucceeded]> (co_external_cancellations co)) co
    | _ => remove_external key co
    end);;
  (match r with ServiceFailed message => latch_fault message | _ => Ret tt end);;
  modify_core (λ co, set_flights (<[flight := r]> (co_flights co)) (co_next_flight co) co).

(** The spawned hook with its guard's drop; [None]: still retrying. *)
Definition run_external_cancel (fuel : nat) (key : TaskId * N) (kind_id : string) (flight : N)
    : prog (option unit) :=
  r ← external_cancel_result fuel key.1 key.2 kind_id;
  match r with
  | None => Ret None
  | Some r => settle_flight key flight r;; leave_flight;; Ret (Some tt)
  end.
End service.
