(* ===== verification/ServiceLogic.v ===== *)
(** * Reasoning about the service's programs

    A rely-guarantee logic for the programs of [ServiceMonad].  The world is
    paired with three ghost components: the task identifiers ever used, because
    the generator does not repeat them; the tasks started so far; and the last
    summary of every task that the store has reported finished, which outlives
    the task.  [moves]
    is what every step of the service may do to such a world: each task
    follows its lifecycle, a recorded cancellation stays recorded until the
    task is finished, an attempt that is over never runs again, a task leaves
    the store only when finished, and a latched fault stays latched.  [wp]
    says that a program makes only such moves while others do, too. *)

From S2P Require Import Prelude TaskState Model Engine RetryPolicy Requests Handlers MemoryStore.
From S2P Require Import MemoryInvariant MemoryPreservation MemoryHistory MemoryQueries TaskStore.
From S2P Require Import ServiceMonad Service.
From S2P Require Import Programs.

(** ** One task *)

Section task.
Context `{ET : !ExternalTypes, SJ : !SnapshotJson}.
Implicit Types (task : StoredTask) (t : TaskSummary).

(** Cancellation is recorded for an attempt that may still be running. *)
Definition cancel_pending t : bool :=
  ts_cancel_requested t &&
  match ts_state t with Running | Blocked _ => true | _ => false end.

(** How the service may change a task. *)
Record task_moves task task' : Prop := {
  tm_advances : task_advances task task';
  tm_cancel : cancel_pending (st_summary task) = true →
    task_terminal task' = true ∨
    (cancel_pending (st_summary task') = true ∧
     ts_attempt (st_summary task') = ts_attempt (st_summary task));
  tm_running : ts_state (st_summary task) ≠ Running → ts_state (st_summary task') = Running →
    ts_attempt (st_summary task) < ts_attempt (st_summary task');
}.

Lemma advances_terminal task task' :
  task_advances task task' → task_terminal task = true →
  ts_state (st_summary task') = ts_state (st_summary task).
Proof. intros [] Ht. by eapply terminal_rtc. Qed.

#[global] Instance task_moves_preorder : PreOrder task_moves.
Proof.
  split.
  - intros task. split; [reflexivity|by right|done].
  - intros a b c [Ha1 Hc1 Hr1] [Ha2 Hc2 Hr2]. split; [by etrans| |].
    + intros [Ht|[Hp Hat]]%Hc1.
      * left. unfold task_terminal in *. by rewrite (advances_terminal b c).
      * destruct (Hc2 Hp) as [?|[? ?]]; [by left|right]. split; [done|congruence].
    + intros Hn Hrun. pose proof (adv_attempt _ _ Ha1). pose proof (adv_attempt _ _ Ha2).
      destruct (decide (ts_state (st_summary b) = Running)) as [Hb|Hb].
      * specialize (Hr1 Hn Hb). lia.
      * specialize (Hr2 Hb Hrun). lia.
Qed.

(** What has become of a task once seen: [o] is the task now and [final] the
    last summary with which it was reported finished.  It is gone only if it was
    so reported, as a later version of what was seen. *)
Definition task_kept_as task (o : option StoredTask) (final : option TaskSummary) : Prop :=
  match o with
  | Some task' => task_moves task task'
  | None => ∃ t, final = Some t ∧ is_terminal (ts_state t) = true ∧
      task_moves task {| st_request := st_request task; st_summary := t |}
  end.

Lemma task_kept_as_trans task task' o final :
  task_moves task task' → task_kept_as task' o final → task_kept_as task o final.
Proof.
  intros Hm. destruct o as [task''|]; simpl; [by etrans|].
  intros (t & Hf & Ht & Hm'). exists t. split_and!; [done..|].
  rewrite <- (adv_request _ _ (tm_advances _ _ Hm)). by etrans.
Qed.

(** The record of finished tasks: exactly the finished ones among the tasks are
    in it, with their current summary. *)
Definition note_finish (id : TaskId) t (final : gmap TaskId TaskSummary) : gmap TaskId TaskSummary :=
  if is_terminal (ts_state t) then <[id := t]> final else final.
Definition finished_ok (final : gmap TaskId TaskSummary) (m : gmap TaskId StoredTask) : Prop :=
  ∀ id task, m !! id = Some task →
    final !! id = if task_terminal task then Some (st_summary task) else None.

(** A command that a reader of [t] may issue: it does not forget a recorded
    cancellation and does not bring back an attempt that is over. *)
Definition honours (c : TransitionCommand) t : bool :=
  implb (cancel_pending t)
    (is_terminal (tc_state c) ||
     (tc_cancel_requested c && match tc_state c with Running | Blocked _ => true | _ => false end))
  && implb (bool_decide (tc_state c = Running)) (bool_decide (ts_state t = Running)).

Lemma settled_moves id task c :
  task_wf id task → transition_allowed c (st_summary task) →
  ts_state_version (st_summary task) < u64_max → honours c (st_summary task) = true →
  task_moves task {| st_request := st_request task;
    st_summary := settle_state c (ts_state_version (st_summary task) + 1)
                    (enter_state c (st_summary task)) |}.
Proof.
  intros [_ _ Hl] Hc Hv Hh. destruct task as [r t]. simpl in *.
  apply andb_true_iff in Hh as [Hp Hr]. split.
  - eapply evolves_advances; [done|lia|]. by apply (evolves_transition _ _ c); [|lia|].
  - simpl. unfold task_terminal, cancel_pending at 2. simpl. intros Hpend. rewrite Hpend in Hp.
    simpl in Hp. apply orb_true_iff in Hp as [Hp|Hp]; [by left|by right].
  - simpl. intros Hn Hrun. rewrite Hrun in Hr. simpl in Hr. by bool_prop.
Qed.

Lemma started_moves id task c :
  task_wf id task → ts_state (st_summary task) = Queued →
  ts_state_version (st_summary task) < u64_max → ts_attempt (st_summary task) < u32_max →
  task_moves task {| st_request := st_request task;
    st_summary := started_summary (ts_attempt (st_summary task) + 1) (sc_started_at_ms c)
      (with_state_version (ts_state_version (st_summary task) + 1) (st_summary task)) |}.
Proof.
  intros [_ _ Hl] Hq Hv Ha. destruct task as [r t]. simpl in *. split.
  - eapply evolves_advances; [done|lia|]. by apply (evolves_start _ _ (sc_started_at_ms c)); [|lia|lia|].
  - simpl. unfold cancel_pending. rewrite Hq, andb_false_r. done.
  - simpl. lia.
Qed.

Lemma progress_moves id task p :
  task_wf id task → ts_state_version (st_summary task) < u64_max →
  ts_state (st_summary task) = Running → tps_attempt p = ts_attempt (st_summary task) →
  (∀ q, ts_progress (st_summary task) = Some q → tps_progress_version q < tps_progress_version p) →
  task_moves task {| st_request := st_request task;
                     st_summary := with_progress p (st_summary task) |}.
Proof.
  intros [_ _ Hl] Hv Hr Ha Hq. destruct task as [r t]. simpl in *. split.
  - eapply evolves_advances; [done|lia|]. by apply (evolves_progress _ _ p).
  - simpl. by right.
  - simpl. done.
Qed.

(** An equal version: nothing but progress has been written since. *)
Lemma moves_same_version task task' :
  task_moves task task' →
  ts_state_version (st_summary task') = ts_state_version (st_summary task) →
  ts_state (st_summary task') = ts_state (st_summary task) ∧
  ts_attempt (st_summary task') = ts_attempt (st_summary task) ∧
  ts_cancel_requested (st_summary task') = ts_cancel_requested (st_summary task).
Proof. intros [Ha _ _] Hv. destruct (adv_same_version _ _ Ha Hv) as (?&?&?&?&?). done. Qed.

Lemma honours_same c t t' :
  ts_state t' = ts_state t → ts_cancel_requested t' = ts_cancel_requested t →
  honours c t' = honours c t.
Proof. unfold honours, cancel_pending. by intros -> ->. Qed.

(** Cancellation has been recorded for attempt [a], which may have finished
    the task since. *)
Definition cancelled_from (a : N) t : Prop :=
  is_terminal (ts_state t) = true ∨ (a = ts_attempt t ∧ cancel_pending t = true).

Lemma cancelled_from_moves a task task' :
  task_moves task task' → cancelled_from a (st_summary task) → cancelled_from a (st_summary task').
Proof.
  intros [Ha Hc _] [Ht|[-> Hp]]; unfold cancelled_from.
  - left. by rewrite (advances_terminal task task').
  - destruct (Hc Hp) as [Ht|[? ?]]; auto.
Qed.

(** Attempt [a] is over. *)
Definition attempt_past (a : N) t : Prop :=
  a < ts_attempt t ∨ (a = ts_attempt t ∧ ts_state t ≠ Running).

Lemma attempt_past_moves a task task' :
  task_moves task task' → attempt_past a (st_summary task) → attempt_past a (st_summary task').
Proof.
  intros [Ha _ Hr] Hp. pose proof (adv_attempt _ _ Ha) as Hle. unfold attempt_past in *.
  destruct Hp as [Hp|[-> Hn]]; [left; lia|].
  destruct (decide (ts_state (st_summary task') = Running)) as [Hrun|Hrun].
  - left. by apply Hr.
  - destruct (decide (ts_attempt (st_summary task) = ts_attempt (st_summary task'))); [by right|].
    left. lia.
Qed.
End task.

(** ** Worlds *)

Section logic.
Context `{ET : !ExternalTypes, SJ : !SnapshotJson, CT : !CodecTypes, MW : !MetadataWire,
          HF : !HandlerFutures, EX : !ErrorTexts}.
Context {S : Type} `{TS : !TaskStore S, TL : !TaskStoreLaws S}.
Context (cf : ServiceConfig).
Implicit Types (task : StoredTask) (t : TaskSummary) (id : TaskId).

Record Ghost := {
  g_world : World S;
  g_used : gset TaskId;
  g_started : list TaskSummary;
  g_finished : gmap TaskId TaskSummary;
}.
Implicit Types (g : Ghost).

Definition gtasks g : gmap TaskId StoredTask := tasks_of (w_store (g_world g)).
Definition gcore g : ServiceCore := w_core (g_world g).

(** Facts that stay true whatever the service does. *)
Definition seen id task g : Prop :=
  id ∈ g_used g ∧ task_kept_as task (gtasks g !! id) (g_finished g !! id).
Definition cancel_seen (key : TaskId * N) g : Prop :=
  key.1 ∈ g_used g ∧ ∀ task, gtasks g !! key.1 = Some task → cancelled_from key.2 (st_summary task).
Definition over (key : TaskId * N) g : Prop :=
  key.1 ∈ g_used g ∧ ∀ task, gtasks g !! key.1 = Some task → attempt_past key.2 (st_summary task).
Definition reached id (version : N) g : Prop :=
  id ∈ g_used g ∧
  ∀ task, gtasks g !! id = Some task → version ≤ ts_state_version (st_summary task).
Definition past id (version : N) g : Prop := reached id (version + 1) g.
Definition finished id (P : TaskState → Prop) g : Prop :=
  id ∈ g_used g ∧ ∀ task, gtasks g !! id = Some task →
    task_terminal task = true ∧ P (ts_state (st_summary task)).
Definition faulted g : Prop := is_Some (co_fault (gcore g)).

(** Work waiting to be executed was created for a task seen running. *)
Definition work_ok g (work : Spawned) : Prop :=
  match work with
  | SpawnRun id running _ =>
      ∃ task, seen id task g ∧ st_summary task = running ∧ ts_id running = id ∧
              ts_state running = Running
  | SpawnExternalCancel key _ _ =>
      ∃ task, seen key.1 task g ∧ ts_attempt (st_summary task) = key.2
  end.

Record ginv g : Prop := {
  gi_store : store_ok (w_store (g_world g));
  gi_used : ∀ id task, gtasks g !! id = Some task → id ∈ g_used g;
  gi_finished : finished_ok (g_finished g) (gtasks g);
  gi_final_used : ∀ id, is_Some (g_finished g !! id) → id ∈ g_used g;
  (** an entry that says the hook succeeded is true *)
  gi_hooks : ∀ key, co_external_cancellations (gcore g) !! key = Some HookSucceeded →
    cancel_seen key g;
  gi_spawned : ∀ work, work ∈ co_spawned (gcore g) → work_ok g work;
}.

Definition room g : Prop := ∀ id, has_room id (gtasks g).

(** The tasks, and everything. *)
Record tasks_move g g' : Prop := {
  mv_used : g_used g ⊆ g_used g';
  mv_kept : ∀ id task, id ∈ g_used g → gtasks g !! id = Some task →
    task_kept_as task (gtasks g' !! id) (g_finished g' !! id);
  mv_gone : ∀ id, id ∈ g_used g → gtasks g !! id = None → gtasks g' !! id = None;
  mv_final : ∀ id, id ∈ g_used g → gtasks g !! id = None → g_finished g' !! id = g_finished g !! id;
}.

Record moves g g' : Prop := {
  mv_inv : ginv g';
  mv_tasks : tasks_move g g';
  mv_fault : ∀ m, co_fault (gcore g) = Some m → co_fault (gcore g') = Some m;
  mv_shutdown : co_shutting_down (gcore g) = true → co_shutting_down (gcore g') = true;
  mv_ledger : rtc (engine_step (cf_capacity cf)) (co_ledger (gcore g)) (co_ledger (gcore g'));
}.

Lemma tasks_same g g' :
  gtasks g' = gtasks g → g_used g' = g_used g → g_finished g' = g_finished g → tasks_move g g'.
Proof.
  intros Ht Hu Hf. split; [by rewrite Hu|..]; rewrite ?Ht, ?Hf; [|done|done].
  intros id task _ ->. simpl. reflexivity.
Qed.

Lemma moves_refl g : ginv g → moves g g.
Proof. intros Hi. split; try done. by apply tasks_same. Qed.

(** ** Stability *)

Lemma seen_tasks g g' id task : tasks_move g g' → seen id task g → seen id task g'.
Proof.
  intros Hm [Hu Hk]. split; [by apply (mv_used _ _ Hm)|].
  destruct (gtasks g !! id) as [task1|] eqn:Hid; simpl in Hk.
  - eapply task_kept_as_trans; [done|]. by apply (mv_kept _ _ Hm).
  - by rewrite (mv_gone _ _ Hm _ Hu Hid), (mv_final _ _ Hm _ Hu Hid).
Qed.

Lemma tasks_move_trans g g1 g2 : tasks_move g g1 → tasks_move g1 g2 → tasks_move g g2.
Proof.
  intros H1 H2. split.
  - etrans; [apply H1|apply H2].
  - intros id task Hu Hid. apply (seen_tasks g1 g2 id task H2). split.
    + by apply (mv_used _ _ H1).
    + by apply (mv_kept _ _ H1).
  - intros id Hu Hid. apply (mv_gone _ _ H2); [by apply (mv_used _ _ H1)|]. by apply (mv_gone _ _ H1).
  - intros id Hu Hid. rewrite (mv_final _ _ H2); [by apply (mv_final _ _ H1)|by apply (mv_used _ _ H1)|].
    by apply (mv_gone _ _ H1).
Qed.

Lemma moves_trans g g1 g2 : moves g g1 → moves g1 g2 → moves g g2.
Proof.
  intros H1 H2. split.
  - apply H2.
  - eapply tasks_move_trans; [apply H1|apply H2].
  - intros m Hf. by apply (mv_fault _ _ H2), (mv_fault _ _ H1).
  - intros Hs. by apply (mv_shutdown _ _ H2), (mv_shutdown _ _ H1).
  - etrans; [apply H1|apply H2].
Qed.

(** A fact about the task under [id] that its moves preserve stays true. *)
Lemma about_task g g' id (P : TaskSummary → Prop) :
  (∀ task task', task_moves task task' → P (st_summary task) → P (st_summary task')) →
  tasks_move g g' →
  id ∈ g_used g ∧ (∀ task, gtasks g !! id = Some task → P (st_summary task)) →
  id ∈ g_used g' ∧ (∀ task, gtasks g' !! id = Some task → P (st_summary task)).
Proof.
  intros HP Hm [Hu Hk]. split; [by apply (mv_used _ _ Hm)|]. intros task' Hid'.
  destruct (gtasks g !! id) as [task|] eqn:Hid.
  - pose proof (mv_kept _ _ Hm id task Hu Hid) as Hk'. rewrite Hid' in Hk'. eauto.
  - rewrite (mv_gone _ _ Hm id Hu Hid) in Hid'. done.
Qed.

Lemma cancel_seen_tasks g g' key : tasks_move g g' → cancel_seen key g → cancel_seen key g'.
Proof. apply about_task. apply cancelled_from_moves. Qed.

Lemma over_tasks g g' key : tasks_move g g' → over key g → over key g'.
Proof. apply about_task. apply attempt_past_moves. Qed.

Lemma reached_tasks g g' id v : tasks_move g g' → reached id v g → reached id v g'.
Proof.
  apply (about_task g g' id (λ t, v ≤ ts_state_version t)).
  intros task task' [Ha _ _] Hv. pose proof (adv_version _ _ Ha). lia.
Qed.

Lemma past_tasks g g' id v : tasks_move g g' → past id v g → past id v g'.
Proof. apply reached_tasks. Qed.

Lemma finished_tasks g g' id P : tasks_move g g' → finished id P g → finished id P g'.
Proof.
  apply (about_task g g' id (λ t, is_terminal (ts_state t) = true ∧ P (ts_state t))).
  intros task task' [Ha _ _] [Ht HP]. by rewrite (advances_terminal task task').
Qed.

Lemma faulted_moves g g' : moves g g' → faulted g → faulted g'.
Proof. intros Hm [m Hf]. exists m. by apply (mv_fault _ _ Hm). Qed.

Lemma used_tasks g g' id : tasks_move g g' → id ∈ g_used g → id ∈ g_used g'.
Proof. intros Hm. apply (mv_used _ _ Hm). Qed.

Lemma work_ok_tasks g g' work : tasks_move g g' → work_ok g work → work_ok g' work.
Proof.
  intros Hm. destruct work as [id running res|key k fl]; simpl.
  - intros (task & Hs & ?). exists task. split; [by eapply seen_tasks|done].
  - intros (task & Hs & ?). exists task. split; [by eapply seen_tasks|done].
Qed.

(** One step: what it does to the tasks and to the core. *)
Lemma moves_intro g g' :
  ginv g → tasks_move g g' → store_ok (w_store (g_world g')) →
  (∀ id task, gtasks g' !! id = Some task → id ∈ g_used g') →
  finished_ok (g_finished g') (gtasks g') →
  (∀ id, is_Some (g_finished g' !! id) → id ∈ g_used g') →
  (∀ m, co_fault (gcore g) = Some m → co_fault (gcore g') = Some m) →
  (co_shutting_down (gcore g) = true → co_shutting_down (gcore g') = true) →
  rtc (engine_step (cf_capacity cf)) (co_ledger (gcore g)) (co_ledger (gcore g')) →
  (∀ key, co_external_cancellations (gcore g') !! key = Some HookSucceeded →
     co_external_cancellations (gcore g) !! key = Some HookSucceeded ∨ cancel_seen key g') →
  (∀ work, work ∈ co_spawned (gcore g') → work ∈ co_spawned (gcore g) ∨ work_ok g' work) →
  moves g g'.
Proof.
  intros [Hs Hu Hfi Hfu Hh Hw] Ht Hs' Hu' Hfi' Hfu' Hf Hsd Hl Hh' Hw'. split; try done. split; try done.
  - intros key [Hk|Hk]%Hh'; [|done]. eapply cancel_seen_tasks; [done|]. by apply Hh.
  - intros work [Hk|Hk]%Hw'; [|done]. eapply work_ok_tasks; [done|]. by apply Hw.
Qed.

Lemma seen_now g id task : ginv g → gtasks g !! id = Some task → seen id task g.
Proof.
  intros Hi Hid. split; [by eapply gi_used|]. rewrite Hid. simpl. reflexivity.
Qed.
End logic.

Create HintDb stable.
#[export] Hint Resolve seen_tasks cancel_seen_tasks over_tasks past_tasks reached_tasks finished_tasks
  faulted_moves used_tasks work_ok_tasks moves_trans mv_inv mv_tasks : stable.

(** ** Programs among others *)

Section wp.
Context `{ET : !ExternalTypes, SJ : !SnapshotJson, CT : !CodecTypes, MW : !MetadataWire,
          HF : !HandlerFutures, EX : !ErrorTexts}.
Context {S : Type} `{TS : !TaskStore S, TL : !TaskStoreLaws S}.
Context (cf : ServiceConfig).
Implicit Types (task : StoredTask) (t : TaskSummary) (id : TaskId) (g : Ghost (S := S)).

Definition note_used {X} (op : Op X) (used : gset TaskId) : gset TaskId :=
  match op with OpAccept id _ => {[id]} ∪ used | _ => used end.
Definition note_started {X} (op : Op X) : X → list TaskSummary → list TaskSummary :=
  match op in Op X return X → list TaskSummary → list TaskSummary with
  | OpStart _ => λ res l, match res with Ok t => l ++ [t] | Err _ => l end
  | _ => λ _ l, l
  end.

(** The store reports a task finished. *)
Definition note_finished {X} (op : Op X)
    : X → gmap TaskId TaskSummary → gmap TaskId TaskSummary :=
  match op in Op X return X → gmap TaskId TaskSummary → gmap TaskId TaskSummary with
  | OpTransition c => λ res m, match res with Ok t => note_finish (tc_id c) t m | Err _ => m end
  | _ => λ _ m, m
  end.

Definition gperform (o : Oracle) {X} (op : Op X) g : X * Ghost :=
  let '(x, w) := perform o op (g_world g) in
  (x, {| g_world := w; g_used := note_used op (g_used g);
         g_started := note_started op x (g_started g);
         g_finished := note_finished op x (g_finished g) |}).

(** The generator never repeats an identifier, nor one found in the store. *)
Definition admissible {X} (op : Op X) g : Prop :=
  match op with OpAccept id _ => id ∉ g_used g | _ => True end.

#[global] Instance service_machine : Machine Op (Ghost (S := S)) :=
  {| Answers := Oracle; on_machine := λ o X op g, gperform o op g;
     promised := λ X op g, admissible op g |}.

(** The laws of the store, with a disk that may fail. *)
Lemma disk_transition o c (s : S) :
  store_ok s → has_room (tc_id c) (tasks_of s) →
  let '(res, s') := disk_write o (do_transition (or_now o) c) s in
  store_ok s' ∧ transition_outcome c (tasks_of s) (tasks_of s') res.
Proof.
  intros Hs Hr. unfold disk_write. destruct (or_disk o); [done|].
  pose proof (law_transition s (or_now o) c Hs Hr). by destruct (do_transition _ _ _).
Qed.
Lemma disk_start o c (s : S) :
  store_ok s → has_room (sc_id c) (tasks_of s) →
  let '(res, s') := disk_write o (do_start (or_now o) c) s in
  store_ok s' ∧ start_outcome c (tasks_of s) (tasks_of s') res.
Proof.
  intros Hs Hr. unfold disk_write. destruct (or_disk o); [done|].
  pose proof (law_start s (or_now o) c Hs Hr). by destruct (do_start _ _ _).
Qed.
Lemma disk_progress o c (s : S) :
  store_ok s →
  let '(res, s') := disk_write o (do_progress c) s in
  store_ok s' ∧ progress_outcome c (tasks_of s) (tasks_of s') res.
Proof.
  intros Hs. unfold disk_write. destruct (or_disk o); [done|].
  pose proof (law_progress s c Hs). by destruct (do_progress _ _).
Qed.
Lemma disk_accept o id r (s : S) :
  store_ok s →
  let '(res, s') := disk_write o (do_accept (or_now o) id r) s in
  store_ok s' ∧ (∀ id', id' ≠ id → dropped_at_most (tasks_of s) (tasks_of s') id') ∧
  accept_outcome id r (tasks_of s) (tasks_of s') res.
Proof.
  intros Hs. unfold disk_write. destruct (or_disk o); [by split_and!; [|left|]|].
  pose proof (law_accept s (or_now o) id r Hs) as (? & ? & _ & ?). by destruct (do_accept _ _ _ _).
Qed.

Lemma wp_try {A B E} R G (p : prog (result A E)) (f : A → prog (result B E)) Q g :
  wp R G p (λ x g', match x with Ok a => wp R G (f a) Q g' | Err e => Q (Err e) g' end) g →
  wp R G (try_bind p f) Q g.
Proof. intros Hw. apply wp_bind. eapply wp_mono; [|done]. by intros [a|e]. Qed.

(** The rely and guarantee of one thread. *)
Context (R G : relation (Ghost (S := S))).
Context (HR : ∀ g g', R g g' → moves cf g g' ∧ room g').
Context (HG : ∀ g g', moves cf g g' → g_started g' = g_started g → G g g').
Context (HGm : ∀ g g', G g g' → moves cf g g').

Lemma wp_moves {A} (p : prog A) Q g :
  ginv g → wp R G p Q g → wp R G p (λ a g', Q a g' ∧ moves cf g g') g.
Proof using HR HGm.
  intros Hi. enough (∀ g0, moves cf g0 g → wp R G p Q g →
    wp R G p (λ a g', Q a g' ∧ moves cf g0 g') g) as H by (by apply H, moves_refl).
  clear Hi. revert g. induction p as [a|X op k IH]; intros g g0 Hm; [done|].
  intros Hw o g1 Hr Hadm. destruct (Hw o g1 Hr Hadm) as [Hg Hk]. split; [done|].
  apply IH; [|done]. eapply moves_trans; [done|]. eapply moves_trans; [by apply HR|by apply HGm].
Qed.

(** An operation that only asks. *)
Definition asks {X} (op : Op X) : bool :=
  match op with
  | OpAccept _ _ | OpStart _ | OpTransition _ | OpProgress _ | OpCore _ _ => false
  | _ => true
  end.

Lemma gperform_asks o {X} (op : Op X) g : asks op = true → (gperform o op g).2 = g.
Proof. destruct g as [[] ? ? ?]. by destruct op. Qed.

Lemma wp_asks {X} (op : Op X) Q g :
  asks op = true →
  (∀ o g1, moves cf g g1 → Q (gperform o op g1).1 g1) → wp R G (call op) Q g.
Proof using HR HG.
  intros Ha HQ o g1 Hr _. simpl. destruct (HR _ _ Hr) as [Hm _].
  rewrite (gperform_asks o op g1 Ha). split; [|by apply HQ].
  apply HG; [|done]. apply moves_refl, Hm.
Qed.

Lemma wp_unless_panic {A} (unwind body : prog A) Q g :
  (∀ g1, moves cf g g1 → wp R G unwind Q g1) → (∀ g1, moves cf g g1 → wp R G body Q g1) →
  wp R G (unless_panic unwind body) Q g.
Proof using HR HG.
  intros Hu Hb. apply wp_bind, wp_asks; [done|]. intros o g1 Hm.
  destruct (gperform o OpPanics g1).1; [by apply Hu|by apply Hb].
Qed.

Lemma wp_get id Q g :
  (∀ g1 message, moves cf g g1 → Q (Err (Failure message)) g1) →
  (∀ g1, moves cf g g1 → Q (Ok (gtasks g1 !! id)) g1) → wp R G (call (OpGet id)) Q g.
Proof using HR HG.
  intros Hfail HQ. apply wp_asks; [done|]. intros o g1 Hm. specialize (HQ g1 Hm).
  unfold on_machine, service_machine, gperform. simpl. unfold disk_read.
  destruct (or_disk o); [by apply Hfail|]. rewrite law_get; [done|]. apply Hm.
Qed.

Lemma wp_ready after limit now Q g :
  (∀ g1 res, moves cf g g1 →
     (∀ page t, res = Ok page → t ∈ pg_records page → ts_state t = Queued ∧
        ∃ task, gtasks g1 !! ts_id t = Some task ∧ st_summary task = t) → Q res g1) →
  wp R G (call (OpReady after limit now)) Q g.
Proof using HR HG.
  intros HQ. apply wp_asks; [done|]. intros o g1 Hm. apply HQ; [done|].
  intros page t Hres Ht. unfold gperform in Hres. cbn in Hres. unfold disk_read in Hres.
  destruct (or_disk o); [done|]. eapply law_ready; [apply Hm|exact Hres|done].
Qed.

(** A step of the store alone. *)
(** What a step does to the tasks [m] and to the record of finished ones. *)
Record kept (m m' : gmap TaskId StoredTask) (final final' : gmap TaskId TaskSummary) : Prop := {
  kp_finished : finished_ok final' m';
  kp_tasks : ∀ id, match m !! id with
                   | Some task => task_kept_as task (m' !! id) (final' !! id)
                   | None => m' !! id = None ∧ final' !! id = final !! id
                   end;
}.

Lemma store_moves g s' started final :
  ginv g → store_ok s' →
  let g' := {| g_world := {| w_store := s'; w_core := w_core (g_world g) |};
               g_used := g_used g; g_started := started; g_finished := final |} in
  kept (gtasks g) (tasks_of s') (g_finished g) final → moves cf g g'.
Proof.
  intros Hi Hs g' [Hfi Hk]. apply moves_intro; try done; [..|by left|by left].
  - split; [done|..]; intros id; specialize (Hk id); intros; simplify_option_eq; try done;
      unfold gtasks; cbn; by destruct Hk.
  - intros id task Hid. destruct (gtasks g !! id) as [task0|] eqn:Hid0; [exact (gi_used g Hi _ _ Hid0)|].
    specialize (Hk id). rewrite Hid0 in Hk. unfold g', gtasks in Hid. simpl in Hid. destruct Hk. congruence.
  - intros id Hf. specialize (Hk id). cbn in Hf. destruct (gtasks g !! id) as [task0|] eqn:Hid0;
      [exact (gi_used g Hi _ _ Hid0)|]. destruct Hk as [_ He]. apply (gi_final_used g Hi). by rewrite <- He.
Qed.

Lemma same_kept m final : finished_ok final m → kept m m final final.
Proof. intros Hf. split; [done|]. intros id. destruct (m !! id); [|done]. simpl. reflexivity. Qed.

(** A finished task that is dropped is in the record. *)
Lemma dropped_kept m m' final id :
  finished_ok final m → dropped_at_most m m' id →
  match m !! id with
  | Some task => task_kept_as task (m' !! id) (final !! id)
  | None => m' !! id = None ∧ final !! id = final !! id
  end.
Proof.
  intros Hf [->|(-> & task & Hid & Ht)].
  - destruct (m !! id); [|done]. simpl. reflexivity.
  - rewrite Hid. specialize (Hf id task Hid). rewrite Ht in Hf. exists (st_summary task).
    split_and!; [done..|]. destruct task. reflexivity.
Qed.

Lemma dropped_finished m m' final id task :
  finished_ok final m → dropped_at_most m m' id → m' !! id = Some task →
  final !! id = if task_terminal task then Some (st_summary task) else None.
Proof. intros Hf [He|(He & _)] Hid; rewrite He in Hid; [by apply Hf|done]. Qed.

Lemma written_kept id task task' (m m' : gmap TaskId StoredTask) final :
  finished_ok final m → m !! id = Some task → task_moves task task' → task_written id task' m m' →
  kept m m' final (note_finish id (st_summary task') final).
Proof.
  intros Hf Hid Hm [Hself Hothers].
  assert (∀ id', id' ≠ id → note_finish id (st_summary task') final !! id' = final !! id') as Hne.
  { intros id' Hne. unfold note_finish. case_match; [|done]. by rewrite lookup_insert_ne. }
  assert (note_finish id (st_summary task') final !! id =
    if task_terminal task' then Some (st_summary task') else None) as Hnew.
  { unfold note_finish, task_terminal. destruct (is_terminal _) eqn:Ht; [apply lookup_insert_eq|].
    rewrite (Hf id task Hid). destruct (task_terminal task) eqn:Ht0; [|done].
    unfold task_terminal in Ht0. rewrite (advances_terminal task task' (tm_advances _ _ Hm)) in Ht by done.
    congruence. }
  split; intros id'; destruct (decide (id' = id)) as [->|Hd].
  - intros x Hx. rewrite Hnew. destruct Hself as [Hs|[Hs _]]; rewrite Hs in Hx; [by injection Hx as <-|done].
  - intros x Hx. rewrite Hne by done. by eapply dropped_finished; [|apply Hothers|].
  - rewrite Hid, Hnew. destruct Hself as [->|[-> Ht]]; [done|]. rewrite Ht. simpl.
    exists (st_summary task'). split_and!; [done..|].
    rewrite <- (adv_request _ _ (tm_advances _ _ Hm)). by destruct task'.
  - rewrite !Hne by done. by apply dropped_kept, Hothers.
Qed.

(** A compare-and-set transition on a task that has been read. *)
Lemma wp_transition c task Q g :
  seen (tc_id c) task g → tc_expected_state_version c = ts_state_version (st_summary task) →
  honours c (st_summary task) = true →
  (∀ g2 task', moves cf g g2 → seen (tc_id c) task' g2 →
     ts_state_version (st_summary task') = ts_state_version (st_summary task) + 1 →
     ts_state (st_summary task') = tc_state c →
     ts_attempt (st_summary task') = ts_attempt (st_summary task) →
     ts_cancel_requested (st_summary task') = tc_cancel_requested c →
     Q (Ok (st_summary task')) g2) →
  (∀ g2 e, moves cf g g2 →
     (e = Conflict → transition_conflicts c (st_summary task) = false →
      past (tc_id c) (ts_state_version (st_summary task)) g2) → Q (Err e) g2) →
  wp R G (call (OpTransition c)) Q g.
Proof using HR HG.
  intros Hseen Hv Hh HOk HErr o g1 Hr _. destruct (HR _ _ Hr) as [Hm Hroom].
  pose proof (mv_inv _ _ _ Hm) as Hi.
  apply (seen_tasks _ _ _ _ (mv_tasks _ _ _ Hm)) in Hseen as [Hu Hk].
  pose proof (disk_transition o c _ (gi_store _ Hi) (Hroom _)) as Hlaw.
  unfold on_machine, service_machine, gperform, perform, on_store.
  destruct (disk_write _ _ _) as [res s'] eqn:Hd. destruct Hlaw as [Hok Hout]. simpl.
  set (g2 := {| g_world := _ |}). destruct res as [t'|e].
  - destruct Hout as (task1 & Hid & Hc & Ht' & Hw). unfold gtasks in Hk. rewrite Hid in Hk.
    destruct (moves_same_version task task1 Hk) as (Hst & Hat & Hcr).
    { by rewrite <- Hv, (ta_version _ _ Hc). }
    destruct (law_task _ _ _ (gi_store _ Hi) Hid) as [Htw _].
    destruct (Hroom _ _ Hid) as [Hlt _].
    assert (task_moves task1 {| st_request := st_request task1; st_summary := t' |}) as Hstep.
    { rewrite Ht'. eapply settled_moves; [done..|]. by rewrite (honours_same c (st_summary task)). }
    assert (moves cf g1 g2) as Hm2.
    { eapply store_moves; [done..|].
      eapply (written_kept _ task1 {| st_request := st_request task1; st_summary := t' |});
        [apply (gi_finished _ Hi)|done..]. }
    split; [by apply HG|].
    assert (ts_state_version (st_summary task1) = ts_state_version (st_summary task)) as Hv1.
    { by rewrite (ta_version _ _ Hc). }
    apply (HOk g2 {| st_request := st_request task1; st_summary := t' |}); simpl.
    + by eapply moves_trans.
    + split; [done|]. unfold gtasks. simpl. destruct Hw as [[->|[-> Hterm]] _]; simpl; [reflexivity|].
      exists t'. unfold task_terminal in Hterm. cbn in Hterm. unfold note_finish.
      rewrite Hterm, lookup_insert_eq. split_and!; [done..|reflexivity].
    + rewrite Ht'. simpl. by rewrite Hv1.
    + by rewrite Ht'.
    + rewrite Ht'. simpl. done.
    + by rewrite Ht'.
  - destruct Hout as (Hsame & Hconf & _).
    assert (moves cf g1 g2) as Hm2.
    { eapply store_moves; [done..|]. rewrite Hsame. apply same_kept, (gi_finished _ Hi). }
    split; [by apply HG|]. apply HErr; [by eapply moves_trans|].
    intros -> Hnc. destruct (Hconf eq_refl) as (task1 & Hid & Hc1).
    split; [done|]. intros task2 Hid2. unfold gtasks in Hid2, Hk. simpl in Hid2.
    rewrite Hsame, Hid in Hid2. injection Hid2 as <-. rewrite Hid in Hk. simpl in Hk.
    pose proof (adv_version _ _ (tm_advances _ _ Hk)) as Hle.
    destruct (decide (ts_state_version (st_summary task1) = ts_state_version (st_summary task)))
      as [Heq|?]; [|lia]. exfalso.
    destruct (moves_same_version _ _ Hk Heq) as (Hst & Hat & _).
    unfold transition_conflicts, terminal_cancel_annotation in Hc1, Hnc.
    rewrite Hst, Hat, Heq in Hc1. congruence.
Qed.

Lemma wp_start c Q g :
  (∀ g g', moves cf g g' → G g g') →
  (∀ g1 g2 task task', R g g1 → moves cf g1 g2 → gtasks g1 !! sc_id c = Some task →
     ts_state_version (st_summary task) = sc_expected_state_version c →
     seen (sc_id c) task' g2 → task_advances task task' →
     ts_id (st_summary task') = sc_id c → ts_state (st_summary task') = Running →
     g_started g2 = g_started g1 ++ [st_summary task'] → Q (Ok (st_summary task')) g2) →
  (∀ g1 g2 e, R g g1 → moves cf g1 g2 → g_started g2 = g_started g1 → Q (Err e) g2) →
  wp R G (call (OpStart c)) Q g.
Proof using HR.
  intros HGs HOk HErr o g1 Hr _. destruct (HR _ _ Hr) as [Hm Hroom].
  pose proof (mv_inv _ _ _ Hm) as Hi.
  pose proof (disk_start o c _ (gi_store _ Hi) (Hroom _)) as Hlaw.
  unfold on_machine, service_machine, gperform, perform, on_store.
  destruct (disk_write _ _ _) as [res s'] eqn:Hd. destruct Hlaw as [Hok Hout]. simpl.
  set (g2 := {| g_world := _ |}). destruct res as [t'|e].
  - destruct Hout as (task & Hid & Hq & Hv & Ht' & Hs').
    destruct (law_task _ _ _ (gi_store _ Hi) Hid) as [Htw _].
    destruct (Hroom _ _ Hid) as [Hlt Hla].
    pose proof (started_moves _ task c Htw Hq Hlt Hla) as Hstep. rewrite <- Ht' in Hstep.
    assert (moves cf g1 g2) as Hm2.
    { eapply store_moves; [done..|].
      assert (g_finished g1 = note_finish (sc_id c) t' (g_finished g1)) as Hn by by rewrite Ht'.
      rewrite Hn at 2.
      eapply (written_kept _ task {| st_request := st_request task; st_summary := t' |});
        [apply (gi_finished _ Hi)|done..|]. rewrite Hs'. split.
      - left. apply lookup_insert_eq.
      - intros id' Hne. left. by apply lookup_insert_ne. }
    split; [by apply HGs|].
    apply (HOk g1 g2 task {| st_request := st_request task; st_summary := t' |}); simpl; try done.
    + split; [exact (gi_used g1 Hi _ _ Hid)|]. unfold gtasks. simpl. rewrite Hs', lookup_insert_eq. simpl.
      reflexivity.
    + apply Hstep.
    + rewrite Ht'. simpl. apply Htw.
    + by rewrite Ht'.
  - assert (moves cf g1 g2) as Hm2.
    { eapply store_moves; [done..|]. rewrite Hout. apply same_kept, (gi_finished _ Hi). }
    split; [by apply HGs|]. by eapply HErr.
Qed.

Lemma wp_progress c Q g :
  (∀ g2 res, moves cf g g2 → Q res g2) → wp R G (call (OpProgress c)) Q g.
Proof using HR HG.
  intros HQ o g1 Hr _. destruct (HR _ _ Hr) as [Hm Hroom].
  pose proof (mv_inv _ _ _ Hm) as Hi.
  pose proof (disk_progress o c _ (gi_store _ Hi)) as Hlaw.
  unfold on_machine, service_machine, gperform, perform, on_store.
  destruct (disk_write _ _ _) as [res s'] eqn:Hd. destruct Hlaw as [Hok Hout]. simpl. set (g2 := {| g_world := _ |}).
  assert (moves cf g1 g2) as Hm2.
  { eapply store_moves; [done..|]. destruct res as [t|e].
    - destruct Hout as (task & p & Hid & Hrun & Ha & Hpa & _ & Hq & -> & ->).
      destruct (law_task _ _ _ (gi_store _ Hi) Hid) as [Htw _]. destruct (Hroom _ _ Hid) as [Hlt _].
      assert (g_finished g1 = note_finish (pc_id c) (with_progress p (st_summary task)) (g_finished g1))
        as Hn by (unfold note_finish; cbn; by rewrite Hrun).
      rewrite Hn at 2. eapply (written_kept _ task {| st_request := st_request task;
        st_summary := with_progress p (st_summary task) |}); [apply (gi_finished _ Hi)|done| |].
      { apply (progress_moves _ task p Htw Hlt Hrun); [congruence|done]. }
      split; [left; apply lookup_insert_eq|]. intros id' Hne. left. by apply lookup_insert_ne.
    - rewrite Hout. apply same_kept, (gi_finished _ Hi). }
  split; [by apply HG|]. apply HQ. by eapply moves_trans.
Qed.

Lemma wp_accept id r Q g :
  (∀ g2 res, moves cf g g2 →
     (∀ out, res = Ok out → ∃ task, st_summary task = ao_summary out ∧
        seen (ts_id (ao_summary out)) task g2) → Q res g2) →
  wp R G (call (OpAccept id r)) Q g.
Proof using HR HG.
  intros HQ o g1 Hr Hadm. destruct (HR _ _ Hr) as [Hm _].
  pose proof (mv_inv _ _ _ Hm) as Hi.
  pose proof (disk_accept o id r _ (gi_store _ Hi)) as Hlaw.
  unfold on_machine, service_machine, gperform, perform, on_store.
  destruct (disk_write _ _ _) as [res s'] eqn:Hd. destruct Hlaw as (Hok & Hoth & Hacc). simpl in *. set (g2 := {| g_world := _ |}).
  assert (∀ task, tasks_of s' !! id = Some task → task_terminal task = false) as Hfresh.
  { assert (gtasks g1 !! id = None) as Hnone.
    { apply eq_None_not_Some. intros [task Ht]. by apply Hadm, (gi_used _ Hi id task). }
    unfold gtasks in Hnone. intros task Hid. destruct res as [out|e]; [|congruence].
    destruct Hacc as (task' & Hid' & Ht & Hcr). destruct (ao_created out).
    - destruct Hcr as (He & _ & _ & Hq). rewrite He in Hid'. unfold task_terminal.
      replace task with task' by congruence. by rewrite Ht, Hq.
    - destruct Hcr as [He _]. congruence. }
  assert (moves cf g1 g2) as Hm2.
  { apply moves_intro; try done; [..|by left|by left].
    - split; [apply union_subseteq_r|..].
      + intros id' task Hu Hid. assert (id' ≠ id) as Hne by congruence.
        pose proof (dropped_kept _ _ _ id' (gi_finished _ Hi) (Hoth id' Hne)) as Hk.
        by rewrite Hid in Hk.
      + intros id' Hu Hid. assert (id' ≠ id) as Hne by congruence. unfold gtasks in *. simpl.
        destruct (Hoth id' Hne) as [->|(-> & _)]; done.
      + done.
    - intros id' task Hid. simpl. destruct (decide (id' = id)) as [->|Hne].
      { by apply elem_of_union_l, elem_of_singleton. }
      apply elem_of_union_r. unfold gtasks in Hid. simpl in Hid.
      destruct (Hoth id' Hne) as [He|(He & _)]; rewrite He in Hid; [|done].
      exact (gi_used g1 Hi _ _ Hid).
    - intros id' task Hid. destruct (decide (id' = id)) as [->|Hne];
        [|by eapply dropped_finished; [apply (gi_finished _ Hi)|by apply Hoth|]].
      assert (g_finished g1 !! id = None) as Hno.
      { apply eq_None_not_Some. intros Hs. by apply Hadm, (gi_final_used _ Hi). }
      cbn. rewrite Hno. by rewrite (Hfresh task Hid).
    - intros id' Hs. cbn. apply elem_of_union_r. by apply (gi_final_used _ Hi). }
  split; [by apply HG|]. apply HQ; [by eapply moves_trans|].
  intros out ->. destruct Hacc as (task & Hid & Ht & _). exists task. split; [done|].
  apply seen_now; [apply Hm2|exact Hid].
Qed.

(** ** The shared core *)

Definition set_core (co : ServiceCore) g : Ghost :=
  {| g_world := {| w_store := w_store (g_world g); w_core := co |};
     g_used := g_used g; g_started := g_started g; g_finished := g_finished g |}.

Lemma wp_core {X} (f : ServiceCore → X * ServiceCore) Q g :
  (∀ g1, moves cf g g1 → moves cf g1 (set_core (f (gcore g1)).2 g1) ∧
     Q (f (gcore g1)).1 (set_core (f (gcore g1)).2 g1)) →
  wp R G (core f) Q g.
Proof using HR HG.
  intros HQ o g1 Hr _. destruct (HR _ _ Hr) as [Hm _]. destruct (HQ g1 Hm) as [Hm2 HQ2].
  unfold on_machine, service_machine, gperform, perform. unfold set_core, gcore in *. destruct (f _) as [x co]. simpl in *.
  split; [by apply HG|done].
Qed.

Lemma set_core_same g : set_core (gcore g) g = g.
Proof. by destruct g as [[] ? ? ?]. Qed.

Lemma wp_read {X} (f : ServiceCore → X) Q g :
  (∀ g1, moves cf g g1 → Q (f (gcore g1)) g1) → wp R G (read_core f) Q g.
Proof using HR HG.
  intros HQ. apply wp_core. intros g1 Hm. simpl. rewrite set_core_same.
  split; [apply moves_refl, Hm|by apply HQ].
Qed.

Lemma wp_modify f Q g :
  (∀ g1, moves cf g g1 → moves cf g1 (set_core (f (gcore g1)) g1) ∧
     (moves cf g (set_core (f (gcore g1)) g1) → Q tt (set_core (f (gcore g1)) g1))) →
  wp R G (modify_core f) Q g.
Proof using HR HG.
  intros HQ. apply wp_core. intros g1 Hm. simpl. destruct (HQ g1 Hm) as [Hm2 HQ2].
  split; [done|]. apply HQ2. by eapply moves_trans.
Qed.

Lemma core_moves g co :
  ginv g →
  (∀ m, co_fault (gcore g) = Some m → co_fault co = Some m) →
  (co_shutting_down (gcore g) = true → co_shutting_down co = true) →
  rtc (engine_step (cf_capacity cf)) (co_ledger (gcore g)) (co_ledger co) →
  (∀ key, co_external_cancellations co !! key = Some HookSucceeded →
     co_external_cancellations (gcore g) !! key = Some HookSucceeded ∨ cancel_seen key g) →
  (∀ work, work ∈ co_spawned co → work ∈ co_spawned (gcore g) ∨ work_ok g work) →
  moves cf g (set_core co g).
Proof.
  intros Hi Hf Hs Hl Hh Hw. apply moves_intro; try done; [by apply tasks_same|apply Hi..].
Qed.
End wp.

