(* ===== verification/ServiceSpecs.v ===== *)
(** * What the service's programs do among others

    One specification per program of [Service], in the logic of
    [ServiceLogic]: the moves it makes, and what is true when it ends. *)

From S2P Require Import Prelude TaskState Model Engine RetryPolicy Requests Handlers MemoryStore.
From S2P Require Import MemoryInvariant MemoryPreservation MemoryHistory MemoryQueries TaskStore.
From S2P Require Import ServiceMonad Service ServiceLogic.
From S2P Require Import Programs.

Section specs.
Context `{ET : !ExternalTypes, SJ : !SnapshotJson, CT : !CodecTypes, MW : !MetadataWire,
          HF : !HandlerFutures, EX : !ErrorTexts}.
Context {S : Type} `{TS : !TaskStore S, TL : !TaskStoreLaws S}.
Context (cf : ServiceConfig).
Context (R G : relation (Ghost (S := S))).
Context (HR : ∀ g g', R g g' → moves cf g g' ∧ room g').
Context (HG : ∀ g g', moves cf g g' → g_started g' = g_started g → G g g').
Context (HGm : ∀ g g', G g g' → moves cf g g').
Implicit Types (task : StoredTask) (t : TaskSummary) (id : TaskId) (g : Ghost (S := S)).

Abbreviation wp := (wp R G).
Abbreviation moves := (moves cf).

Lemma wp_use {A} (p : prog A) (post Q : A → Ghost → Prop) g :
  ginv g → wp p post g → (∀ a g', moves g g' → post a g' → Q a g') → wp p Q g.
Proof using HR HGm.
  intros Hi Hp HQ. eapply wp_mono; [|eapply wp_moves; done]. intros a g' [Hpost Hm]. by apply HQ.
Qed.

(** The core as a step leaves it, when it only touches fields that carry no
    obligation. *)
Lemma plain_moves g co :
  ginv g → co_fault co = co_fault (gcore g) → co_shutting_down co = co_shutting_down (gcore g) →
  co_ledger co = co_ledger (gcore g) →
  co_external_cancellations co ⊆ co_external_cancellations (gcore g) →
  co_spawned co = co_spawned (gcore g) →
  moves g (set_core co g).
Proof.
  intros Hi Hf Hs Hl He Hw. apply core_moves; [done|by rewrite Hf|by rewrite Hs|by rewrite Hl|..].
  - intros key Hk. left. by eapply lookup_weaken.
  - rewrite Hw. by left.
Qed.

(** ** Faults *)

Lemma fault_moves g fault shutting :
  ginv g → (∀ m, co_fault (gcore g) = Some m → fault = Some m) →
  (co_shutting_down (gcore g) = true → shutting = true) →
  moves g (set_core (set_fault fault shutting (gcore g)) g).
Proof. intros. apply core_moves; try done; by left. Qed.

Lemma request_shutdown_spec g : ginv g → wp request_shutdown (λ _ _, True) g.
Proof using HR HG.
  intros Hi. eapply wp_modify; [done..|]. intros g1 Hm. split; [|done].
  apply fault_moves; [apply Hm|done|done].
Qed.

Lemma released_spec g : ginv g → wp (modify_core mark_released) (λ _ _, True) g.
Proof using HR HG.
  intros Hi. eapply wp_modify; [done..|]. intros g1 Hm. split; [|done].
  apply core_moves; [apply Hm|done..| | |]; by auto.
Qed.

Lemma latch_fault_spec m g : ginv g → wp (latch_fault m) (λ _ g', faulted g') g.
Proof using HR HG HGm.
  intros Hi. apply wp_bind. eapply wp_modify; [done..|]. intros g1 Hm. split.
  { apply fault_moves; [apply Hm| |done]. by intros x ->. }
  intros Hm'. eapply wp_use; [apply Hm'|apply request_shutdown_spec, Hm'|].
  intros _ g' Hm2 _. eapply faulted_moves; [done|]. unfold faulted. simpl.
  destruct (co_fault _); eauto.
Qed.

Lemma store_result_spec {A} (res : result A StoreError) g :
  ginv g → wp (store_result res) (λ x _, x = map_err Store res) g.
Proof using HR HG HGm.
  intros Hi. destruct res as [a|e]; [done|].
  destruct e; try done; unfold store_result; apply wp_bind;
    (eapply wp_use; [done|by apply latch_fault_spec|done]).
Qed.

Lemma submission_store_result_spec {A} (res : result A StoreError) g :
  ginv g →
  wp (submission_store_result res) (λ x _, ∀ a, x = Ok a → res = Ok a) g.
Proof using HR HG HGm.
  intros Hi. destruct res as [a|e]; [by intros b [=->]|].
  destruct e; try (by intros b [=]);
    (eapply wp_mono; [|by apply (store_result_spec (Err _))]; by intros x g' -> b [=]).
Qed.

Lemma check_fault_spec g : wp check_fault (λ _ g', moves g g') g.
Proof using HR HG.
  apply wp_bind. eapply wp_read; [done..|]. done.
Qed.

(** ** Submission *)

(** The summary a client gets is of a task that is stored. *)
Lemma submit_spec request g :
  ginv g →
  wp (submit cf request) (λ res g', ∀ t, res = Ok t →
    ∃ task, st_summary task = t ∧ seen (ts_id t) task g') g.
Proof using HR HG HGm.
  intros Hi. apply wp_try. eapply wp_mono; [|apply check_fault_spec].
  intros [[]|e] g1 Hm1; [|by intros t]. apply wp_bind. eapply wp_read; [done..|]. intros g2 Hm2.
  destruct (co_shutting_down _); [by intros t|].
  destruct (TaskRequest_encode _ _) as [stored|e]; [|by intros t].
  apply wp_try. eapply wp_asks; [done..|]. intros o g3 Hm3.
  destruct (gperform _ _ _).1 as [id|e]; [|by intros t].
  apply wp_bind. eapply wp_accept; [done..|]. intros g4 res Hm4 Hacc.
  apply wp_try. eapply wp_use; [apply Hm4|apply submission_store_result_spec, Hm4|].
  intros [out|e] g5 Hm5 Hres t; [|done]. intros [= <-].
  destruct (Hacc out (Hres out eq_refl)) as (task & Ht & Hs). exists task. split; [done|].
  by eapply seen_tasks; [apply Hm5|].
Qed.

(** ** Finishing an attempt *)

Lemma task_id g id task : ginv g → gtasks g !! id = Some task → ts_id (st_summary task) = id.
Proof. intros Hi Hid. apply (law_task _ _ _ (gi_store _ Hi) Hid). Qed.

Lemma seen_version g id task task' :
  seen id task g → gtasks g !! id = Some task' →
  ts_state_version (st_summary task) ≤ ts_state_version (st_summary task').
Proof. intros [_ Hk] Hid. rewrite Hid in Hk. apply (adv_version _ _ (tm_advances _ _ Hk)). Qed.

Lemma seen_past g id task v :
  seen id task g → v < ts_state_version (st_summary task) → past id v g.
Proof.
  intros Hs Hv. split; [apply Hs|]. intros x Hx. pose proof (seen_version _ _ _ _ Hs Hx). lia.
Qed.

Lemma past_le g id v v' : v' ≤ v → past id v g → past id v' g.
Proof. intros Hv [Hu Hp]. split; [done|]. intros x Hx. specialize (Hp x Hx). lia. Qed.

Lemma seen_reached g id task : seen id task g → reached id (ts_state_version (st_summary task)) g.
Proof. intros Hs. split; [apply Hs|]. intros x Hx. by eapply seen_version. Qed.

(** A later version than the one seen, if the task is still there. *)
Lemma seen_newer g id task task' :
  seen id task g → gtasks g !! id = Some task' →
  ts_state_version (st_summary task') ≠ ts_state_version (st_summary task) →
  past id (ts_state_version (st_summary task)) g.
Proof.
  intros Hs Hid Hne. pose proof (seen_version _ _ _ _ Hs Hid).
  split; [apply Hs|]. intros x Hx. rewrite Hid in Hx. injection Hx as <-. lia.
Qed.

(** A failing read of the store faults the service. *)
Lemma fault_settles (Q : Ghost → Prop) g g1 m :
  moves g g1 → wp (latch_fault m) (λ _ g', faulted g' ∨ Q g') g1.
Proof using HR HG HGm.
  intros Hm. eapply wp_mono; [|apply latch_fault_spec, Hm]. by left.
Qed.

Lemma check_competing_transition_spec id version task g :
  ginv g → seen id task g → ts_state_version (st_summary task) = version →
  wp (check_competing_transition id version) (λ _ g', faulted g' ∨ past id version g') g.
Proof using HR HG HGm.
  intros Hi Hs <-. apply wp_bind. eapply wp_get; [done..|intros ? ? Hf; exact (fault_settles _ _ _ _ Hf)|]. intros g1 Hm.
  assert (ginv g1) as Hi1 by apply Hm.
  destruct (gtasks g1 !! id) as [task'|] eqn:Hid; cycle 1.
  { eapply wp_mono; [|by apply latch_fault_spec]. by left. }
  destruct (_ =? _) eqn:Hv; simpl.
  { eapply wp_mono; [|by apply latch_fault_spec]. by left. }
  right. eapply (seen_newer g1); [by eauto with stable|done|by bool_prop].
Qed.

Lemma mark_blocked_spec task reason g :
  ginv g → seen (ts_id (st_summary task)) task g → ts_state (st_summary task) = Queued →
  wp (mark_blocked (st_summary task) reason)
    (λ _ g', faulted g' ∨ past (ts_id (st_summary task)) (ts_state_version (st_summary task)) g') g.
Proof using HR HG HGm.
  intros Hi Hs Hq. apply wp_bind. eapply (wp_transition cf R G HR HG _ task); [done|done|..].
  - unfold honours, cancel_pending. simpl. by rewrite Hq, andb_false_r.
  - intros g2 task' Hm Hs' Hv _ _ _. right. eapply seen_past; [done|lia].
  - intros g2 e Hm Hpast. destruct e;
      try (eapply wp_mono; [|apply latch_fault_spec; apply Hm]; by left).
    eapply check_competing_transition_spec; [apply Hm|by eauto with stable|done].
Qed.

(** The command of [finish] keeps a recorded cancellation. *)
Lemma attempt_command_honours started latest retryable deadline state output now :
  is_terminal state = true →
  honours (attempt_command started latest
             (retryable && negb (ts_cancel_requested latest)
              && (ts_attempt started <? cf_max_attempts cf)) deadline state output now) latest = true.
Proof.
  intros Ht. unfold honours, cancel_pending. simpl.
  destruct (ts_cancel_requested latest); simpl.
  - rewrite andb_false_r. simpl. rewrite Ht. simpl. rewrite implb_true_r. simpl.
    rewrite bool_decide_false; [done|]. by intros ->.
  - destruct (_ && _); simpl; [done|]. rewrite bool_decide_false; [done|]. by intros ->.
Qed.

Lemma finish_spec task state output retryable g :
  ginv g → seen (ts_id (st_summary task)) task g → ts_state (st_summary task) = Running →
  is_terminal state = true →
  wp (finish cf (st_summary task) state output retryable)
    (λ _ g', faulted g' ∨ past (ts_id (st_summary task)) (ts_state_version (st_summary task)) g') g.
Proof using HR HG HGm.
  intros Hi Hs Hrun Hterm. unfold finish. set (id := ts_id (st_summary task)) in *.
  apply wp_bind. eapply wp_get; [done..|intros ? ? Hf; exact (fault_settles _ _ _ _ Hf)|]. intros g1 Hm.
  assert (ginv g1) as Hi1 by apply Hm. assert (seen id task g1) as Hs1 by eauto with stable.
  destruct (gtasks g1 !! id) as [latest|] eqn:Hid; cycle 1.
  { eapply wp_mono; [|by apply latch_fault_spec]. by left. }
  assert (seen id latest g1) as Hl by (by apply seen_now).
  destruct (is_terminal (ts_state (st_summary latest))) eqn:Ht.
  { eapply wp_modify; [done..|]. intros g2 Hm2. split.
    - apply plain_moves; try done; [apply Hm2|]. apply delete_subseteq.
    - intros Hm3. right. eapply past_tasks; [apply (mv_tasks _ _ _ Hm3)|].
      eapply seen_newer; [done..|]. intros Heq.
      destruct Hs1 as [_ Hk]. rewrite Hid in Hk.
      destruct (moves_same_version _ _ Hk Heq) as (Hst & _). by rewrite Hst, Hrun in Ht. }
  apply wp_bind.
  set (post := λ (_ : option N) g', moves g1 g').
  eapply (wp_mono _ _ _ post).
  2:{ destruct (_ && _ : bool); [|by apply moves_refl]. apply wp_bind.
      eapply wp_asks; [done..|]. intros o g2 Hm2. done. }
  intros deadline g2 Hm2. apply wp_bind. eapply wp_asks; [done..|]. intros o g3 Hm3.
  assert (moves g1 g3) as Hm13 by eauto with stable.
  apply wp_bind. eapply (wp_transition cf R G HR HG _ latest).
  - simpl. eauto with stable.
  - done.
  - by apply attempt_command_honours.
  - intros g4 task' Hm4 Hs4 Hv _ _ _. eapply wp_modify; [done..|]. intros g5 Hm5. split.
    { apply plain_moves; try done; [apply Hm5|]. apply delete_subseteq. }
    intros Hm6. right. eapply past_tasks; [apply (mv_tasks _ _ _ Hm6)|].
    eapply seen_past; [done|]. pose proof (seen_version _ _ _ _ Hs1 Hid). lia.
  - intros g4 e Hm4 _. destruct e;
      try (eapply wp_mono; [|apply latch_fault_spec; apply Hm4]; by left).
    eapply wp_mono; [|eapply (check_competing_transition_spec _ _ latest); [apply Hm4|by eauto with stable|done]].
    intros _ g' [?|Hp]; [by left|right]. eapply past_le; [by eapply seen_version|done].
Qed.

(** ** One attempt *)

Lemma release_spec reservation g : ginv g → wp (release reservation) (λ _ _, True) g.
Proof using HR HG.
  intros Hi. eapply wp_modify; [done..|]. intros g1 Hm. split; [|done].
  apply core_moves; try done; [apply Hm| |by left..].
  simpl. apply rtc_once. constructor.
Qed.

Lemma release_keeps reservation (P : Ghost → Prop) g :
  ginv g → (∀ g g', moves g g' → P g → P g') → P g → wp (release reservation) (λ _ g', P g') g.
Proof using HR HG HGm.
  intros Hi HP Hp. eapply wp_use; [done|by apply release_spec|]. intros _ g2 Hm2 _. by eapply HP.
Qed.

Lemma then_release_spec {A} (p : prog A) reservation (P : Ghost → Prop) g :
  ginv g → (∀ g g', moves g g' → P g → P g') → wp p (λ _ g', P g') g →
  wp (p;; release reservation) (λ _ g', P g') g.
Proof using HR HG HGm.
  intros Hi HP Hp. apply wp_bind. eapply wp_use; [done..|]. intros ? g1 Hm1 HP1.
  by apply release_keeps; [apply Hm1|..].
Qed.

Lemma attempt_outcome_terminal execution : is_terminal (attempt_outcome execution).1.1 = true.
Proof. destruct execution as [[[output|]|e]|]; simpl; [|done..]. by destruct (_ <=? _). Qed.

Lemma settled_stable id v g g' :
  moves g g' → faulted g ∨ past id v g → faulted g' ∨ past id v g'.
Proof. intros Hm [?|?]; [left|right]; eauto with stable. Qed.

Lemma unwind_attempt_spec id reservation (P : Ghost → Prop) g :
  ginv g → wp (release reservation;; attempt_panicked id) (λ _ g', faulted g' ∨ P g') g.
Proof using HR HG HGm.
  intros Hi. apply wp_bind. eapply wp_use; [done|by apply release_spec|].
  intros _ g2 Hm2 _. exact (fault_settles _ _ _ _ Hm2).
Qed.

Lemma fault_release_spec m reservation id v g :
  ginv g → wp (latch_fault m;; release reservation) (λ _ g', faulted g' ∨ past id v g') g.
Proof using HR HG HGm.
  intros Hi. apply (then_release_spec _ _ (λ g, faulted g ∨ past id v g)); [done|apply settled_stable|].
  exact (fault_settles _ _ _ _ (moves_refl cf g Hi)).
Qed.

Lemma run_one_spec id task reservation g :
  ginv g → seen id task g → ts_id (st_summary task) = id → ts_state (st_summary task) = Running →
  wp (run_one cf id (st_summary task) reservation)
    (λ _ g', faulted g' ∨ past id (ts_state_version (st_summary task)) g') g.
Proof using HR HG HGm.
  intros Hi Hs Hid Hrun. set (v := ts_state_version (st_summary task)).
  assert (∀ g, ginv g → seen id task g → ∀ state output retryable, is_terminal state = true →
    wp (finish cf (st_summary task) state output retryable) (λ _ g', faulted g' ∨ past id v g') g)
    as Hfinish.
  { intros g1 Hi1 Hs1 state output retryable Ht. rewrite <- Hid in Hs1 |- *. by apply finish_spec. }
  pose proof (λ g1 (Hm : moves g g1), unwind_attempt_spec id reservation (past id v) g1 (mv_inv _ _ _ Hm))
    as Hpanic.
  pose proof (λ g1 m (Hm : moves g g1), fault_release_spec m reservation id v g1 (mv_inv _ _ _ Hm))
    as Hfault.
  eapply wp_unless_panic; [done..|exact Hpanic|]. intros g0 Hm0.
  apply wp_bind. eapply wp_get; [done..|by intros; apply Hfault; eauto with stable|]. intros g1 Hm01.
  assert (moves g g1) as Hm1 by eauto with stable.
  assert (ginv g1) as Hi1 by apply Hm1. assert (seen id task g1) as Hs1 by eauto with stable.
  destruct (gtasks g1 !! id) as [task1|] eqn:Hid1; cycle 1.
  { apply (release_keeps reservation (λ g, faulted g ∨ past id v g)); [done|apply settled_stable|].
    right. split; [apply Hs1|]. intros x. by rewrite Hid1. }
  destruct (bool_decide _) eqn:Hrun1; cbn [negb]; cycle 1.
  { apply (release_keeps reservation (λ g, faulted g ∨ past id v g)); [done|apply settled_stable|].
    right. apply (seen_newer _ _ _ task1); [done..|]. intros Heq. destruct Hs1 as [_ Hk].
    rewrite Hid1 in Hk. destruct (moves_same_version _ _ Hk Heq) as (Hst & _). bool_prop.
    congruence. }
  destruct (prepare _ _ _ _) as [prepared|e]; cycle 1.
  { eapply wp_unless_panic; [done..| |]; intros g2 Hm2; [apply Hpanic; by eauto with stable|].
    apply (then_release_spec _ _ (λ g, faulted g ∨ past id v g)); [apply Hm2|apply settled_stable|].
    apply Hfinish; [apply Hm2|by eauto with stable|done]. }
  apply wp_bind. eapply wp_modify; [done..|]. intros g2 Hm2. split; [by apply plain_moves; [apply Hm2|..]|].
  intros Hm3. set (g2' := set_core _ _) in *.
  eapply wp_unless_panic; [done..|intros; apply Hpanic; by eauto 6 with stable|]. intros g3 Hm23.
  apply wp_bind. eapply wp_get; [done..|intros g4 m Hm4; apply Hfault; by eauto 8 with stable|].
  intros g4 Hm4.
  apply wp_bind. eapply (wp_mono _ _ _ (λ _ g', moves g3 g')).
  2:{ destruct (is_some_and _ _); [|done]. eapply wp_modify; [done..|]. intros g5 Hm5. split; [|eauto with stable].
      apply plain_moves; try done. apply Hm5. }
  intros _ g5 Hm5. apply wp_bind. eapply wp_asks; [done..|]. intros o g6 Hm6.
  apply wp_bind. eapply wp_modify; [done..|]. intros g7 Hm7. split; [by apply plain_moves; [apply Hm7|..]|].
  intros Hm8. apply wp_bind. eapply wp_use; [apply Hm8|apply release_spec, Hm8|].
  intros _ g9 Hm9 _. pose proof (attempt_outcome_terminal (gperform o (OpRun prepared id
    (ts_attempt (st_summary task))) g6).1) as Hterm.
  destruct (attempt_outcome _) as [[state output] retryable].
  eapply wp_unless_panic; [done..| |]; intros g10 Hm10; [exact (fault_settles _ _ _ _ Hm10)|].
  apply Hfinish; [apply Hm10| |done]. eauto 12 with stable.
Qed.

Lemma leave_flight_spec g : ginv g → wp leave_flight (λ _ _, True) g.
Proof using HR HG.
  intros Hi. eapply wp_modify; [done..|]. intros g1 Hm. split; [|done].
  apply plain_moves; try done. apply Hm.
Qed.

Lemma run_spawned_spec id running reservation g :
  ginv g → work_ok g (SpawnRun id running reservation) →
  wp (run_spawned cf id running reservation)
    (λ _ g', faulted g' ∨ past id (ts_state_version running) g') g.
Proof using HR HG HGm.
  intros Hi (task & Hs & <- & Hid & Hrun). apply wp_bind.
  eapply wp_use; [done|by apply run_one_spec|]. intros ? g1 Hm1 Hp.
  eapply wp_use; [apply Hm1|apply leave_flight_spec, Hm1|]. intros _ g2 Hm2 _.
  by eapply settled_stable.
Qed.

(** ** Before a task is started *)

Lemma dispatch_is_eligible_spec task g :
  ginv g → seen (ts_id (st_summary task)) task g → ts_state (st_summary task) = Queued →
  wp (dispatch_is_eligible cf (st_summary task)) (λ _ _, True) g.
Proof using HR HG HGm.
  intros Hi Hs Hq. unfold dispatch_is_eligible.
  destruct (registry_descriptor _ _) as [d|]; [destruct (_ || _); [|destruct (is_none _); [|done]]|];
    (apply wp_bind; eapply wp_use; [done|by apply mark_blocked_spec|done]).
Qed.

(** The task becomes the anchor when it must wait and nothing waits yet. *)
Definition reserve_outcome (t : TaskSummary) (f : ResourceFairness) (reserved : option N)
    (f' : ResourceFairness) : Prop :=
  f' = f ∨ (reserved = None ∧ rf_anchor f = None ∧
            f' = {| rf_anchor := Some (ts_id t, ts_accepted_at_ms t); rf_bypasses := rf_bypasses f |}).

Lemma reserve_task_resources_spec task f g :
  ginv g → seen (ts_id (st_summary task)) task g → ts_state (st_summary task) = Queued →
  wp (reserve_task_resources cf (st_summary task) f)
    (λ r _, reserve_outcome (st_summary task) f r.1 r.2) g.
Proof using HR HG HGm.
  intros Hi Hs Hq. apply wp_bind. eapply wp_core; [done..|]. intros g1 Hm1.
  pose proof (step_prepare (cf_capacity cf) (ts_resource_limit (st_summary task))
    (co_ledger (gcore g1))) as Hstep.
  destruct (try_prepare_typed _ _ _) as [res ledger]. simpl in *.
  assert (moves g1 (set_core (set_ledger ledger (gcore g1)) g1)) as Hm2.
  { apply core_moves; try done; [apply Hm1|by apply rtc_once|by left..]. }
  split; [done|]. set (g2 := set_core _ _) in *.
  assert (∀ reason, wp (mark_blocked (st_summary task) reason;; Ret (None : option N, f))
    (λ r _, reserve_outcome (st_summary task) f r.1 r.2) g2) as Hblock.
  { intros reason. apply wp_bind. eapply wp_use; [apply Hm2|apply mark_blocked_spec|].
    - apply Hm2.
    - eauto with stable.
    - done.
    - intros. by left. }
  destruct res as [token|[]]; [by left| |apply Hblock..].
  destruct (rf_anchor f) eqn:Ha; [by left|by right].
Qed.

Lemma spawn_spec work g : ginv g → work_ok g work → wp (spawn work) (λ _ _, True) g.
Proof using HR HG.
  intros Hi Hw. eapply wp_modify; [done..|]. intros g1 Hm. split; [|done].
  apply core_moves; try done; [apply Hm|by left|].
  simpl. intros x [Hx|Hx%list_elem_of_singleton]%elem_of_app; [by left|right]. subst x.
  eauto with stable.
Qed.

Lemma scan_stops_spec g : ginv g → wp (scan_stops cf) (λ _ _, True) g.
Proof using HR HG.
  intros Hi. apply wp_bind. eapply wp_read; [done..|]. intros g1 Hm.
  destruct (co_shutting_down _); [done|]. apply wp_bind. by eapply wp_read.
Qed.

Lemma scan_pauses_spec g : ginv g → wp (scan_pauses cf) (λ _ _, True) g.
Proof using HR HG.
  intros Hi. apply wp_bind. eapply wp_read; [done..|]. intros g1 Hm.
  destruct (co_shutting_down _); [done|]. apply wp_bind. eapply wp_read; [done..|]. intros g2 Hm2.
  destruct (is_some _); [done|]. apply wp_bind. by eapply wp_read.
Qed.

(** ** Resumption and cancellation *)

Lemma refuses_work_spec g : wp refuses_work (λ _ g', moves g g') g.
Proof using HR HG.
  apply wp_bind. eapply wp_read; [done..|]. intros g1 Hm.
  destruct (co_shutting_down _); [done|]. eapply wp_read; [done..|]. eauto with stable.
Qed.

Lemma resume_blocked_spec id version g :
  ginv g → wp (resume_blocked id version) (λ _ _, True) g.
Proof using HR HG HGm.
  intros Hi. apply wp_try. eapply wp_mono; [|apply check_fault_spec].
  intros [[]|e] g1 Hm1; [|done]. apply wp_bind. eapply wp_mono; [|apply refuses_work_spec].
  intros [] g2 Hm2; [done|]. apply wp_bind. eapply wp_get; [done..| |].
  { intros g3 m Hm3. apply wp_try. eapply wp_mono; [|apply store_result_spec, Hm3]. by intros ? ? ->. }
  intros g3 Hm3. apply wp_try. eapply wp_use; [apply Hm3|apply store_result_spec, Hm3|]. intros ? g4 Hm4 ->. cbn [map_err].
  destruct (gtasks g3 !! id) as [task|] eqn:Hid; [|done].
  destruct (_ =? _) eqn:Hv; cbn [negb]; [|done].
  destruct (bool_decide _) eqn:Hb; cbn [negb]; [|done].
  destruct (ts_cancel_requested _) eqn:Hc; [done|]. bool_prop.
  apply wp_bind. eapply (wp_transition cf R G HR HG _ task).
  - simpl. eapply seen_tasks; [apply (mv_tasks _ _ _ Hm4)|]. by apply seen_now; [apply Hm3|].
  - done.
  - unfold honours, cancel_pending. by rewrite Hc.
  - intros g5 task' Hm5 _ _ _ _ _. eapply wp_mono; [|apply store_result_spec, Hm5]. done.
  - intros g5 e Hm5 _. eapply wp_mono; [|apply store_result_spec, Hm5]. done.
Qed.

(** The request recorded by [cancel] and the hooks. *)
Lemma request_honours id t e : ts_state t = Running → honours (request_command id t e) t = true.
Proof. intros Hr. unfold honours. simpl. by rewrite Hr, implb_true_r. Qed.

Lemma request_no_conflict id t e :
  ts_state t = Running → transition_conflicts (request_command id t e) t = false.
Proof. intros Hr. unfold transition_conflicts. simpl. by rewrite !N.eqb_refl, Hr. Qed.

Lemma pending_seen g id task a :
  seen id task g → ts_state (st_summary task) = Running →
  ts_cancel_requested (st_summary task) = true → ts_attempt (st_summary task) = a →
  cancel_seen (id, a) g.
Proof.
  intros [Hu Hk] Hrun Hc Ha. split; [done|]. simpl. intros task' Hid. rewrite Hid in Hk.
  eapply cancelled_from_moves; [done|]. right. unfold cancel_pending. by rewrite Hc, Hrun.
Qed.

Lemma start_or_join_spec key kind_id task g :
  ginv g → seen key.1 task g → ts_attempt (st_summary task) = key.2 →
  wp (start_or_join_external_cancel key kind_id)
    (λ r g', r = None → cancel_seen key g') g.
Proof using HR HG HGm.
  intros Hi Hs Ha. apply wp_bind. eapply wp_core; [done..|]. intros g1 Hm1.
  assert (ginv g1) as Hi1 by apply Hm1.
  destruct (co_external_cancellations (gcore g1) !! key) as [[flight|]|] eqn:He; cbn [fst snd].
  - rewrite set_core_same. split; [by apply moves_refl|]. apply wp_bind. done.
  - rewrite set_core_same. split; [by apply moves_refl|]. intros _. by apply (gi_hooks _ Hi1).
  - match goal with |- moves _ ?g' ∧ _ => assert (moves g1 g') as Hm2 end.
    { apply core_moves; try done; [|by left]. simpl. intros key'.
      destruct (decide (key = key')) as [->|Hne]; [by rewrite lookup_insert_eq|].
      rewrite lookup_insert_ne by done. by left. }
    split; [done|]. apply wp_bind. eapply wp_mono; [|apply spawn_spec].
    + done.
    + apply Hm2.
    + exists task. split; [|done]. eauto with stable.
Qed.

(** What a reply to [cancel] says about the task. *)
Definition cancel_truth id (r : CancelReply) g : Prop :=
  match r with
  | Replied (Ok CancelledBeforeStart) => finished id (λ state, state = Cancelled) g
  | Replied (Ok AlreadyTerminal) => finished id (λ _, True) g
  | Replied (Ok CancellationRequested) => ∃ a, cancel_seen (id, a) g
  | Awaiting id' _ _ => id' = id
  | _ => True
  end.

Lemma cancel_running_spec id task g :
  ginv g → seen id task g → ts_id (st_summary task) = id → ts_state (st_summary task) = Running →
  wp (cancel_running cf id (st_summary task)) (cancel_truth id) g.
Proof using HR HG HGm.
  intros Hi Hs Hid Hrun. unfold cancel_running.
  destruct (registry_descriptor _ _) as [d|]; [|done]. destruct (hd_cancellation_mode d); [done|..].
  - destruct (ts_cancel_requested _) eqn:Hc.
    { exists (ts_attempt (st_summary task)). by eapply pending_seen. }
    apply wp_bind. eapply (wp_transition cf R G HR HG _ task); [done|done|by apply request_honours|..].
    + intros g1 task1 Hm1 Hs1 _ Hst Hat Hcr. apply wp_bind.
      eapply wp_use; [apply Hm1|apply store_result_spec, Hm1|]. intros ? g2 Hm2 ->. cbn [map_err].
      apply wp_bind. eapply wp_modify; [done..|]. intros g3 Hm3. split.
      { destruct (co_cancellations _ !! _); [|rewrite set_core_same; apply moves_refl, Hm3].
        apply plain_moves; try done. apply Hm3. }
      intros Hm4. exists (ts_attempt (st_summary task1)).
      eapply cancel_seen_tasks; [apply (mv_tasks _ _ _ Hm4)|].
      eapply cancel_seen_tasks; [apply (mv_tasks _ _ _ Hm2)|]. by eapply pending_seen.
    + intros g1 e Hm1 _. apply wp_bind.
      eapply wp_use; [apply Hm1|apply store_result_spec, Hm1|]. by intros ? g2 Hm2 ->.
  - apply wp_bind. eapply wp_mono; [|by eapply (start_or_join_spec _ _ task)].
    intros [flight|] g1 Hr; [done|]. eexists. by apply Hr.
Qed.

Lemma cancel_spec id g : ginv g → wp (cancel cf id) (cancel_truth id) g.
Proof using HR HG HGm.
  intros Hi. apply wp_bind. eapply wp_mono; [|apply check_fault_spec].
  intros [[]|e] g1 Hm1; [|done]. apply wp_bind. eapply wp_mono; [|apply refuses_work_spec].
  intros [] g2 Hm2; [done|]. apply wp_bind. eapply wp_get; [done..| |].
  { intros g3 m Hm3. apply wp_bind. eapply wp_mono; [|apply store_result_spec, Hm3]. by intros ? ? ->. }
  intros g3 Hm3. assert (ginv g3) as Hi3 by apply Hm3.
  apply wp_bind. eapply wp_use; [done|by apply store_result_spec|]. intros ? g4 Hm4 ->. cbn [map_err].
  destruct (gtasks g3 !! id) as [task|] eqn:Hid; [|done].
  assert (seen id task g3) as Hs by (by apply seen_now).
  assert (seen id task g4) as Hs4 by eauto with stable.
  destruct (is_terminal _) eqn:Ht.
  { eapply finished_tasks; [apply (mv_tasks _ _ _ Hm4)|]. split; [apply Hs|].
    intros x Hx. rewrite Hid in Hx. by injection Hx as <-. }
  destruct (bool_decide _) eqn:Hrun; cbn [negb]; bool_prop.
  { eapply cancel_running_spec; [apply Hm4|done| |done]. by eapply task_id. }
  apply wp_bind. eapply wp_asks; [done..|]. intros o g5 Hm5. apply wp_bind.
  eapply (wp_transition cf R G HR HG _ task).
  - simpl. eauto with stable.
  - done.
  - unfold honours. simpl. by rewrite implb_true_r.
  - intros g6 task6 Hm6 Hs6 _ Hst _ _. apply wp_bind.
    eapply wp_use; [apply Hm6|apply store_result_spec, Hm6|]. intros ? g7 Hm7 ->.
    eapply finished_tasks; [apply (mv_tasks _ _ _ Hm7)|]. destruct Hs6 as [Hu Hk].
    split; [done|]. intros x Hx. simpl in Hk. rewrite Hx in Hk. simpl in Hst.
    assert (ts_state (st_summary x) = Cancelled) as Hx'.
    { rewrite <- Hst. eapply advances_terminal; [apply Hk|]. unfold task_terminal. by rewrite Hst. }
    unfold task_terminal. by rewrite Hx'.
  - intros g6 e Hm6 _. apply wp_bind.
    eapply wp_use; [apply Hm6|apply store_result_spec, Hm6|]. by intros ? g7 Hm7 ->.
Qed.

(** ** External cancellation hooks *)

(** What the result of a hook says about its attempt; running out of fuel
    takes one competing write per retry. *)
Definition hook_truth (fuel : nat) (key : TaskId * N) (v : N) (r : option ExternalCancelResult) g
    : Prop :=
  match r with
  | Some ExtSuccess | Some (HookFailed _) => cancel_seen key g
  | Some ExtAlreadyTerminal => over key g
  | Some (ServiceFailed _) => True
  | None => reached key.1 (v + N.of_nat fuel) g
  end.

Lemma attempt_over_past g id task a task' :
  seen id task g → ts_attempt (st_summary task) = a → gtasks g !! id = Some task' →
  attempt_over a (st_summary task') = true → over (id, a) g.
Proof.
  intros [Hu Hk] <- Hid Ho. split; [done|]. simpl. intros x Hx. rewrite Hid in Hx, Hk.
  injection Hx as <-. pose proof (adv_attempt _ _ (tm_advances _ _ Hk)) as Hle.
  unfold attempt_past, attempt_over in *. apply orb_true_iff in Ho as [Ho|Ho];
    [apply orb_true_iff in Ho as [Ho|Ho]|]; bool_prop.
  - destruct (decide (ts_attempt (st_summary task) = ts_attempt (st_summary task')));
      [right|left; lia]. split; [done|]. intros Hr. by rewrite Hr in Ho.
  - left. lia.
  - destruct (decide (ts_attempt (st_summary task) = ts_attempt (st_summary task')));
      [by right|left; lia].
Qed.

Lemma persist_request_spec fuel id a gone done_when e written task v g :
  ginv g → seen id task g → ts_attempt (st_summary task) = a → reached id v g →
  (written = ExtSuccess ∨ ∃ m, written = HookFailed m) →
  (∀ t r, done_when t = Some r → r = ExtSuccess) →
  (∀ g' task', moves g g' → seen id task' g' → ts_state (st_summary task') = Running →
     ts_attempt (st_summary task') = a →
     done_when (st_summary task') = Some ExtSuccess → cancel_seen (id, a) g') →
  wp (persist_request fuel id a gone done_when e written) (hook_truth fuel (id, a) v) g.
Proof using HR HG HGm.
  intros Hi Hs Ha Hv Hw Hd Hdone. revert g v Hi Hs Hv Hdone.
  induction fuel as [|fuel IH]; intros g v Hi Hs Hv Hdone.
  { change (reached id (v + 0) g). by rewrite N.add_0_r. }
  cbn [persist_request]. apply wp_bind. eapply wp_get; [done..|done|]. intros g1 Hm1. assert (ginv g1) as Hi1 by apply Hm1.
  assert (seen id task g1) as Hs1 by eauto with stable.
  destruct (gtasks g1 !! id) as [task1|] eqn:Hid; [|done].
  assert (seen id task1 g1) as Hs1' by (by apply seen_now).
  destruct (attempt_over a (st_summary task1)) eqn:Ho; [exact (attempt_over_past g1 id task a task1 Hs1 Ha Hid Ho)|].
  unfold attempt_over in Ho. apply orb_false_iff in Ho as [[_ Hat]%orb_false_iff Hrun]. bool_prop.
  destruct (done_when (st_summary task1)) as [r|] eqn:Hdw.
  { pose proof (Hd _ _ Hdw) as ->. by apply (Hdone g1 task1). }
  apply wp_bind. eapply (wp_transition cf R G HR HG _ task1); [done|done|by apply request_honours|..].
  - intros g2 task2 Hm2 Hs2 _ Hst Hat2 Hcr. simpl in *.
    assert (cancel_seen (id, a) g2) by (eapply pending_seen; [done..|congruence]).
    by destruct Hw as [->|[m ->]].
  - intros g2 err Hm2 Hpast. destruct err; try done.
    assert (reached id (v + 1) g2) as Hr2.
    { eapply past_le; [|apply Hpast; [done|by apply request_no_conflict]]. 
      assert (reached id v g1) as [_ Hr] by eauto with stable. by apply Hr. }
    eapply wp_mono; [|eapply (IH g2 (v + 1)); [apply Hm2|by eauto with stable|done|]].
    + intros r g'. destruct r; simpl; [done|]. by rewrite Nat2N.inj_succ, <- N.add_assoc, N.add_1_l.
    + intros g' task' Hm'. apply Hdone. eauto with stable.
Qed.

Lemma announce_request_spec fuel id a task v g :
  ginv g → seen id task g → ts_attempt (st_summary task) = a → reached id v g →
  wp (announce_request fuel id a) (hook_truth fuel (id, a) v) g.
Proof using HR HG HGm.
  intros Hi Hs Ha Hv. eapply persist_request_spec; [done..|by left| |].
  - intros t r. destruct (_ || _); by intros [=].
  - intros g' task' _ Hs' Hrun Hat Hd. destruct (_ || _) eqn:Ho; [done|].
    apply orb_false_iff in Ho as [Hc _]. apply negb_false_iff in Hc. by eapply pending_seen.
Qed.

Lemma confirm_request_spec fuel id a task v g :
  ginv g → seen id task g → ts_attempt (st_summary task) = a → reached id v g →
  cancel_seen (id, a) g → wp (confirm_request fuel id a) (hook_truth fuel (id, a) v) g.
Proof using HR HG HGm.
  intros Hi Hs Ha Hv Hc. eapply persist_request_spec; [done..|by left| |].
  - intros t r. destruct (is_none _); by intros [=].
  - intros. eauto with stable.
Qed.

Lemma record_failure_spec fuel id a m task v g :
  ginv g → seen id task g → ts_attempt (st_summary task) = a → reached id v g →
  wp (record_external_cancel_failure fuel id a m) (hook_truth fuel (id, a) v) g.
Proof using HR HG HGm.
  intros Hi Hs Ha Hv. eapply persist_request_spec; [done..|by eauto|done|done].
Qed.

Lemma external_cancel_result_spec fuel id a kind_id task v g :
  ginv g → seen id task g → ts_attempt (st_summary task) = a → reached id v g →
  wp (external_cancel_result cf fuel id a kind_id) (hook_truth fuel (id, a) v) g.
Proof using HR HG HGm.
  intros Hi Hs Ha Hv. apply wp_bind. eapply wp_use; [done|by eapply announce_request_spec|].
  intros r g1 Hm1 Hr. destruct r as [[]|]; [|done..].
  destruct (cancel_externally _ _ _ _) as [hook|]; [|done].
  apply wp_bind. eapply wp_asks; [done..|]. intros o g2 Hm2. simpl in Hr.
  assert (moves g g2) as Hm by eauto with stable.
  destruct (gperform _ _ _).1.
  - eapply confirm_request_spec; [apply Hm2|eauto with stable..].
  - eapply record_failure_spec; [apply Hm2|eauto with stable..].
  - eapply record_failure_spec; [apply Hm2|eauto with stable..].
Qed.

Lemma settle_flight_spec key flight r g :
  ginv g → (r = ExtSuccess → cancel_seen key g) →
  wp (settle_flight key flight r) (λ _ g', ∀ m, r = ServiceFailed m → faulted g') g.
Proof using HR HG HGm.
  intros Hi Hr. apply wp_bind. eapply wp_modify; [done..|]. intros g1 Hm1.
  assert (ginv g1) as Hi1 by apply Hm1. split.
  { destruct r; [|by apply plain_moves; try done; apply delete_subseteq..].
    apply core_moves; try done; [|by left]. simpl. intros key'.
    destruct (decide (key = key')) as [->|Hne]; [|rewrite lookup_insert_ne by done; by left].
    intros _. right. eauto with stable. }
  intros Hm2. apply wp_bind.
  set (g2 := set_core _ _) in *. assert (ginv g2) as Hi2 by apply Hm2.
  eapply (wp_use _ (λ _ g', ∀ m, r = ServiceFailed m → faulted g')); [done|..].
  { destruct r; try done. eapply wp_mono; [|by apply latch_fault_spec]. done. }
  intros ? g3 Hm3 Hf. eapply wp_modify; [done..|]. intros g4 Hm4. split.
  { apply plain_moves; try done. apply Hm4. }
  intros Hm5 m Hm. eapply faulted_moves; [done|]. by eapply Hf.
Qed.

Lemma run_external_cancel_spec fuel key kind_id flight g :
  ginv g → work_ok g (SpawnExternalCancel key kind_id flight) →
  ∀ v, reached key.1 v g →
  wp (run_external_cancel cf fuel key kind_id flight)
    (λ r g', match r with
             | Some _ => faulted g' ∨ cancel_seen key g' ∨ over key g'
             | None => reached key.1 (v + N.of_nat fuel) g'
             end) g.
Proof using HR HG HGm.
  intros Hi (task & Hs & Ha) v Hv. destruct key as [id a]. simpl in *. apply wp_bind.
  eapply wp_use; [done|by eapply external_cancel_result_spec|]. intros r g1 Hm1 Hr.
  destruct r as [r|]; [|done]. apply wp_bind.
  eapply wp_use; [apply Hm1|apply settle_flight_spec; [apply Hm1|by intros ->]|].
  intros ? g2 Hm2 Hf. apply wp_bind.
  eapply wp_use; [apply Hm2|apply leave_flight_spec, Hm2|]. intros _ g3 Hm3 _. simpl in *.
  assert (moves g1 g3) as Hm13 by eauto with stable.
  change (faulted g3 ∨ cancel_seen (id, a) g3 ∨ over (id, a) g3).
  destruct r as [| | |m]; [by eauto with stable..|]. left. eapply faulted_moves; [exact Hm3|]. by eapply Hf.
Qed.

(** ** Progress *)

Lemma report_spec stage metrics reporter g :
  ginv g → wp (report stage metrics reporter) (λ _ _, True) g.
Proof using HR HG.
  intros Hi. unfold report. destruct (checked_add _ _ _); [|done].
  apply wp_bind. eapply wp_asks; [done..|]. intros o g1 Hm1.
  apply wp_bind. by eapply wp_progress.
Qed.
End specs.
