(* ===== verification/ServiceScheduler.v ===== *)
(** * The scheduler among others

    The scan and the scheduler's loop.  Only the scheduler starts tasks, so it
    may rely on the list of started tasks; in exchange it owes fairness: while
    a task waits for resources as the anchor, at most
    [max_resource_bypasses] tasks accepted after it are started. *)

From S2P Require Import Prelude TaskState Model Engine RetryPolicy Requests Handlers MemoryStore.
From S2P Require Import MemoryInvariant MemoryPreservation MemoryHistory MemoryQueries TaskStore.
From S2P Require Import ServiceMonad Service ServiceLogic ServiceSpecs.
From S2P Require Import Programs.

(** ** Fairness as a state machine *)

Section fairness.
Context `{ET : !ExternalTypes, SJ : !SnapshotJson, CT : !CodecTypes, MW : !MetadataWire,
          HF : !HandlerFutures, EX : !ErrorTexts}.
Context (cf : ServiceConfig).
Implicit Types (t : TaskSummary) (f : ResourceFairness) (a : TaskId * N).

(** From [f] the tasks of a list are started, in order: a waiting task may
    become the anchor, and no start exceeds the bypasses allowed. *)
Inductive fair_run : ResourceFairness → list TaskSummary → ResourceFairness → Prop :=
| fair_done f : fair_run f [] f
| fair_anchor f t l f' :
    rf_anchor f = None →
    fair_run {| rf_anchor := Some (ts_id t, ts_accepted_at_ms t);
                rf_bypasses := rf_bypasses f |} l f' →
    fair_run f l f'
| fair_start f t l f' :
    bypass_exhausted cf f t = false → fair_run (started_fairness f t) l f' →
    fair_run f (t :: l) f'.

Lemma fair_run_app f l f1 l' f' : fair_run f l f1 → fair_run f1 l' f' → fair_run f (l ++ l') f'.
Proof.
  intros Hr Hr'. induction Hr as [|f t l f1 Ha _ IH|f t l f1 Hb _ IH]; simpl; [done|..].
  - eapply fair_anchor; [done|]. by apply IH.
  - apply fair_start; [done|]. by apply IH.
Qed.

(** The anchor itself, and the tasks accepted after it. *)
Definition anchor_task a t : bool := bool_decide (ts_key t = (a.2, a.1)).
Definition newer_than a (l : list TaskSummary) : N :=
  N.of_nat (length (filter (λ t, behind_anchor a t = true) l)).

Lemma newer_than_cons a t l :
  newer_than a (t :: l) = (if behind_anchor a t then 1 else 0) + newer_than a l.
Proof.
  unfold newer_than. rewrite filter_cons. destruct (behind_anchor a t) eqn:Hb.
  - rewrite decide_True by done. simpl length. lia.
  - rewrite decide_False by congruence. done.
Qed.

(** As long as the anchor is not started it stays the anchor, every later
    task started counts as a bypass, and bypasses stay within the limit. *)
Lemma fair_run_anchor f l f' a :
  fair_run f l f' → rf_anchor f = Some a → rf_bypasses f ≤ cf_max_resource_bypasses cf →
  Forall (λ t, anchor_task a t = false) l →
  rf_anchor f' = Some a ∧ rf_bypasses f' = rf_bypasses f + newer_than a l ∧
  rf_bypasses f' ≤ cf_max_resource_bypasses cf.
Proof.
  induction 1 as [f|f t l f' Ha _ IH|f t l f' Hb _ IH]; intros Hf Hle Hl.
  - unfold newer_than. simpl. rewrite N.add_0_r. done.
  - congruence.
  - apply Forall_cons in Hl as [Ht Hl]. rewrite newer_than_cons.
    unfold bypass_exhausted in Hb. rewrite Hf in Hb. unfold started_fairness in IH.
    rewrite Hf in IH. unfold anchor_task in Ht. rewrite Ht in IH.
    destruct (behind_anchor a t) eqn:Hba.
    + rewrite andb_true_r in Hb. bool_prop. simpl in IH.
      destruct IH as (? & ? & ?); [done|lia|done|]. split_and!; [done|lia|done].
    + destruct IH as (? & ? & ?); [done..|]. split_and!; [done|lia|done].
Qed.

Lemma fair_run_prefix f l1 l2 f' : fair_run f (l1 ++ l2) f' → ∃ f1, fair_run f l1 f1.
Proof.
  remember (l1 ++ l2) as l eqn:Hl. intros Hr. revert l1 Hl.
  induction Hr as [f|f t l f' Ha _ IH|f t l f' Hb _ IH]; intros l1 Hl.
  - exists f. destruct l1; [constructor|done].
  - destruct (IH l1 Hl) as [f1 H1]. exists f1. by eapply fair_anchor.
  - destruct l1 as [|t1 l1]; [exists f; constructor|]. injection Hl as <- Hl.
    destruct (IH l1 Hl) as [f1 H1]. exists f1. by apply fair_start.
Qed.

(** Bypasses never exceed the limit, whatever is started. *)
Definition fairness_ok f : Prop :=
  rf_bypasses f ≤ cf_max_resource_bypasses cf ∧ (rf_anchor f = None → rf_bypasses f = 0).

Lemma started_fairness_ok f t :
  bypass_exhausted cf f t = false → fairness_ok f → fairness_ok (started_fairness f t).
Proof.
  unfold fairness_ok, bypass_exhausted, started_fairness. intros Hb [Hle Hz].
  destruct (rf_anchor f) as [a|] eqn:Ha; [|by rewrite Ha].
  destruct (bool_decide _); [by simpl; split; [lia|]|].
  destruct (behind_anchor a t); [|by rewrite Ha]. rewrite andb_true_r in Hb. bool_prop. simpl.
  split; [lia|done].
Qed.

Lemma fair_run_ok f l f' : fair_run f l f' → fairness_ok f → fairness_ok f'.
Proof.
  induction 1 as [f|f t l f' Ha _ IH|f t l f' Hb _ IH]; intros Hf; [done|..].
  - apply IH. destruct Hf as [Hle _]. split; [done|]. done.
  - apply IH. by apply started_fairness_ok.
Qed.

(** Only the place in the order of acceptance matters. *)
Lemma bypass_exhausted_key f t t' :
  ts_key t = ts_key t' → bypass_exhausted cf f t = bypass_exhausted cf f t'.
Proof. intros Hk. unfold bypass_exhausted, behind_anchor. by rewrite Hk. Qed.
Lemma started_fairness_key f t t' :
  ts_key t = ts_key t' → started_fairness f t = started_fairness f t'.
Proof. intros Hk. unfold started_fairness, behind_anchor. by rewrite Hk. Qed.

Definition flow_fairness (flow : Flow) : ResourceFairness :=
  match flow with Continue f _ | Break f _ | Fail f _ => f end.
End fairness.

(** ** The scheduler's programs *)

Section scheduler.
Context `{ET : !ExternalTypes, SJ : !SnapshotJson, CT : !CodecTypes, MW : !MetadataWire,
          HF : !HandlerFutures, EX : !ErrorTexts}.
Context {S : Type} `{TS : !TaskStore S, TL : !TaskStoreLaws S}.
Context (cf : ServiceConfig).
Context (R G : relation (Ghost (S := S))).
Context (HR : ∀ g g', R g g' → moves cf g g' ∧ room g').
Context (HRs : ∀ g g', R g g' → g_started g' = g_started g).
Context (HGs : ∀ g g', moves cf g g' → G g g').
Context (HGm : ∀ g g', G g g' → moves cf g g').
Implicit Types (task : StoredTask) (t : TaskSummary) (g : Ghost (S := S)) (f : ResourceFairness).

(** What the programs that start nothing guarantee. *)
Definition quiet : relation (Ghost (S := S)) :=
  λ g g', moves cf g g' ∧ g_started g' = g_started g.

Lemma quiet_intro g g' : moves cf g g' → g_started g' = g_started g → quiet g g'.
Proof. done. Qed.
Lemma quiet_moves g g' : quiet g g' → moves cf g g'.
Proof. by intros []. Qed.

(** A program that starts nothing, within one that may. *)
Lemma sched_use {A} (p : prog A) (post Q : A → Ghost → Prop) g :
  ginv g → wp R quiet p post g →
  (∀ a g', moves cf g g' → g_started g' = g_started g → post a g' → Q a g') →
  wp R G p Q g.
Proof using HR HRs HGs.
  intros Hi Hp HQ. enough (∀ g0, moves cf g0 g → g_started g = g_started g0 →
    (∀ a g', moves cf g0 g' → g_started g' = g_started g0 → post a g' → Q a g') →
    wp R G p Q g) as H by (eapply H; [by apply moves_refl|done|done]).
  clear Hi HQ. revert g Hp. induction p as [a|X op k IH]; intros g Hp g0 Hm Hs HQ; [by apply HQ|].
  intros o g1 Hr Hadm. destruct (Hp o g1 Hr Hadm) as [[Hm1 Hs1] Hk]. split; [by apply HGs|].
  eapply (IH _ _ Hk g0); [| |done].
  - eapply moves_trans; [done|]. eapply moves_trans; [by apply HR|done].
  - by rewrite Hs1, (HRs _ _ Hr).
Qed.

Lemma sched_unless_panic {A} (unwind body : prog A) (Q : A → Ghost → Prop) g :
  ginv g →
  (∀ g1, moves cf g g1 → g_started g1 = g_started g → wp R G unwind Q g1) →
  (∀ g1, moves cf g g1 → g_started g1 = g_started g → wp R G body Q g1) →
  wp R G (unless_panic unwind body) Q g.
Proof using HR HRs HGs.
  intros Hi Hu Hb. pose proof quiet_intro as HG0. apply wp_bind.
  eapply (sched_use _ (λ _ _, True)); [done|by eapply (wp_asks cf)|].
  intros panics g1 Hm1 Hs1 _. destruct panics; [by apply Hu|by apply Hb].
Qed.

(** The fairness after a step, and the tasks it started. *)
Definition fair_steps f g f' g' : Prop :=
  ∃ l, g_started g' = g_started g ++ l ∧ fair_run cf f l f'.

Lemma fair_steps_none f g g' : g_started g' = g_started g → fair_steps f g f g'.
Proof. intros Hs. exists []. rewrite app_nil_r. split; [done|constructor]. Qed.

Lemma fair_steps_trans f g f1 g1 f' g' :
  fair_steps f g f1 g1 → fair_steps f1 g1 f' g' → fair_steps f g f' g'.
Proof.
  intros (l & Hl & Hr) (l' & Hl' & Hr'). exists (l ++ l'). rewrite app_assoc, <- Hl.
  split; [done|]. by eapply fair_run_app.
Qed.

(** Giving a reservation back starts nothing. *)
Lemma release_flow_spec reservation (flow : Flow) f g g3 g4 :
  g_started g3 = g_started g → flow_fairness flow = f → moves cf g3 g4 →
  g_started g4 = g_started g3 →
  wp R G (release reservation;; Ret flow) (λ flow g', fair_steps f g (flow_fairness flow) g') g4.
Proof using HR HRs HGs.
  intros Hs Hflow Hm4 Hs4. pose proof quiet_intro as HG0. apply wp_bind.
  eapply sched_use; [apply Hm4|apply (release_spec cf); [done..|apply Hm4]|].
  intros _ g5 Hm5 Hs5 _. change (fair_steps f g (flow_fairness flow) g5). rewrite Hflow.
  apply fair_steps_none. congruence.
Qed.

Lemma scan_record_spec task f saw g :
  ginv g → seen (ts_id (st_summary task)) task g → ts_state (st_summary task) = Queued →
  wp R G (scan_record cf (st_summary task) f saw)
    (λ flow g', fair_steps f g (flow_fairness flow) g') g.
Proof using HR HRs HGs HGm.
  intros Hi Hs Hq. set (id := ts_id (st_summary task)) in *.
  pose proof quiet_intro as HG0. pose proof quiet_moves as HGm0.
  apply wp_bind. eapply sched_use; [done|by apply (scan_stops_spec cf)|]. intros stop g1 Hm1 Hs1 _.
  destruct stop; [by apply fair_steps_none|].
  apply sched_unless_panic; [apply Hm1|intros g1' Hm1' Hs1'; apply fair_steps_none; congruence|].
  intros g1' Hm1' Hs1'. assert (moves cf g g1') as Hm01 by eauto with stable.
  apply wp_bind. eapply sched_use; [apply Hm01|apply (dispatch_is_eligible_spec cf); [done..| | |]|].
  { apply Hm01. } { by eauto with stable. } { done. }
  intros eligible g2 Hm2 Hs2 _. destruct eligible; cbn [negb]; [|by apply fair_steps_none; congruence].
  apply wp_bind. eapply sched_use; [apply Hm2|apply (reserve_task_resources_spec cf); [done..| | |]|].
  { apply Hm2. } { by eauto with stable. } { done. }
  intros [reservation f1] g3 Hm3 Hs3 Hres. simpl in Hres.
  assert (fair_steps f g f1 g3) as Hf1.
  { exists []. rewrite app_nil_r. split; [congruence|].
    destruct Hres as [->|(_ & Ha & ->)]; [constructor|]. eapply fair_anchor; [done|constructor]. }
  destruct reservation as [reservation|]; [|done].
  assert (f1 = f) as -> by (by destruct Hres as [?|[? _]]).
  assert (g_started g3 = g_started g) as Hs03 by congruence.
  pose proof (λ flow g4, release_flow_spec reservation flow f g g3 g4 Hs03) as Hrelease.
  destruct (bypass_exhausted cf f (st_summary task)) eqn:Hb.
  { by apply Hrelease; [|apply moves_refl, Hm3|]. }
  apply wp_bind. eapply (sched_use _ (λ _ _, True)); [apply Hm3|by eapply (wp_read cf)|].
  intros shutting g4 Hm4 Hs4 _. destruct shutting; [by apply Hrelease|].
  apply wp_bind. eapply (sched_use _ (λ _ _, True)); [apply Hm4|by eapply (wp_asks cf)|].
  intros now g45 Hm45 Hs45 _. apply sched_unless_panic; [apply Hm45| |].
  { intros g5 Hm5 Hs5. apply Hrelease; [done|by eauto 6 with stable|congruence]. }
  intros g5 Hm5 Hs5. apply wp_bind.
  assert (seen id task g5) as Hseen5 by eauto 8 with stable.
  eapply (wp_start cf R G HR); [done|..].
  - intros g6 g7 task6 task7 Hr Hm7 Hid Hv Hseen7 Hadv Hid7 Hrun Hst. apply wp_bind.
    eapply sched_use; [apply Hm7|apply (spawn_spec cf); [done..|apply Hm7|by exists task7]|].
    intros _ g8 Hm8 Hs8 _. exists [st_summary task7]. split.
    { rewrite Hs8, Hst, (HRs _ _ Hr). congruence. }
    assert (ts_key (st_summary task7) = ts_key (st_summary task)) as Hkey.
    { unfold ts_key. rewrite Hid7. simpl. f_equal. rewrite (adv_accepted_at _ _ Hadv).
      destruct (HR _ _ Hr) as [Hm6 _].
      pose proof (seen_tasks _ _ _ _ (mv_tasks _ _ _ Hm6) Hseen5) as [_ Hk].
      change (sc_id _) with id in Hid. rewrite Hid in Hk. apply (adv_accepted_at _ _ (tm_advances _ _ Hk)). }
    simpl. rewrite <- (started_fairness_key f _ _ Hkey).
    apply fair_start; [|constructor]. by rewrite (bypass_exhausted_key cf f _ _ Hkey).
  - intros g6 g7 e Hr Hm7 Hst. destruct (HR _ _ Hr) as [Hm6 _].
    assert (moves cf g3 g7) by eauto 8 with stable.
    assert (g_started g7 = g_started g3) by (pose proof (HRs _ _ Hr); congruence).
    destruct e; by apply Hrelease.
Qed.

(** The records of a page were queued when it was read. *)
Definition page_seen (l : list TaskSummary) g : Prop :=
  Forall (λ t, ∃ task, seen (ts_id t) task g ∧ st_summary task = t ∧ ts_state t = Queued) l.

Lemma page_seen_moves l g g' : moves cf g g' → page_seen l g → page_seen l g'.
Proof.
  intros Hm Hl. eapply Forall_impl; [done|]. simpl. intros t (task & Hs & Ht).
  exists task. split; [|done]. eauto with stable.
Qed.

Lemma scan_records_spec l f saw g :
  ginv g → page_seen l g →
  wp R G (scan_records cf l f saw) (λ flow g', fair_steps f g (flow_fairness flow) g') g.
Proof using HR HRs HGs HGm.
  revert f saw g. induction l as [|t l IH]; intros f saw g Hi Hl.
  { by apply fair_steps_none. }
  apply Forall_cons in Hl as [(task & Hs & <- & Hq) Hl]. cbn [scan_records]. apply wp_bind.
  eapply (wp_use cf R G HR HGm); [done|by apply scan_record_spec|]. intros flow g1 Hm1 Hf1.
  destruct flow as [f1 saw1|f1 saw1|f1 e]; [|done..]. eapply wp_mono; [|apply IH].
  - intros flow g2. by apply fair_steps_trans.
  - apply Hm1.
  - by eapply page_seen_moves.
Qed.

Definition scan_outcome f g
    (r : option (result (bool * ResourceFairness) (ScanError * ResourceFairness))) g' : Prop :=
  ∃ f', fair_steps f g f' g' ∧
    match r with Some (Ok (_, f1)) => f1 = f' | Some (Err (_, f1)) => f1 = f' | None => True end.

Lemma scan_pages_spec fuel now after f saw g :
  ginv g → wp R G (scan_pages cf fuel now after f saw) (scan_outcome f g) g.
Proof using HR HRs HGs HGm.
  pose proof quiet_intro as HG0.
  revert after f saw g. induction fuel as [|fuel IH]; intros after f saw g Hi.
  { exists f. split; [|done]. by apply fair_steps_none. }
  cbn [scan_pages]. apply wp_bind.
  eapply sched_use; [done|by apply (scan_pauses_spec cf)|]. intros stop g1 Hm1 Hs1 _.
  destruct stop. { exists f. split; [|done]. by apply fair_steps_none. }
  apply sched_unless_panic; [apply Hm1| |].
  { intros g2 Hm2 Hs2. exists f. split; [apply fair_steps_none; congruence|done]. }
  intros g1' Hm1' Hs1'.
  apply wp_bind. eapply (sched_use _ (λ res g', ∀ page, res = Ok page → page_seen (pg_records page) g'));
    [apply Hm1'|..].
  { eapply (wp_ready cf); [done..|]. intros g2 res Hm2 Hpage page ->. apply Forall_forall.
    intros t Ht. destruct (Hpage page t eq_refl Ht) as (Hq & task & Hid & Hsum).
    exists task. split; [|done]. apply seen_now; [apply Hm2|done]. }
  intros res g2 Hm2 Hs2 Hres. assert (g_started g2 = g_started g) as Hs by congruence.
  destruct res as [page|e]; [|exists f; split; [by apply fair_steps_none|done]].
  apply wp_bind. eapply (wp_use cf R G HR HGm); [apply Hm2|apply scan_records_spec; [apply Hm2|by apply Hres]|].
  intros flow g3 Hm3 Hf3.
  assert (fair_steps f g (flow_fairness flow) g3) as Hf.
  { eapply fair_steps_trans; [by apply fair_steps_none|done]. }
  assert (∀ f1 saw1, flow_fairness flow = f1 →
    wp R G (stop ← scan_stops cf;
            if (stop : bool) then Ret (Some (Ok (false, f1))) else
            match pg_next page with
            | None => Ret (Some (Ok (negb saw1 && is_some (rf_anchor f1), f1)))
            | Some next => scan_pages cf fuel now (Some next) f1 saw1
            end) (scan_outcome f g) g3) as Hnext.
  { intros f1 saw1 <-. apply wp_bind.
    eapply sched_use; [apply Hm3|apply (scan_stops_spec cf); [done..|apply Hm3]|].
    intros stop g4 Hm4 Hs4 _.
    assert (fair_steps f g (flow_fairness flow) g4) as Hf4.
    { eapply fair_steps_trans; [done|by apply fair_steps_none]. }
    destruct stop; [by exists (flow_fairness flow)|].
    destruct (pg_next page); [|by exists (flow_fairness flow)].
    eapply wp_mono; [|apply IH, Hm4]. intros r g5 (f' & Hf' & Hr). exists f'.
    split; [by eapply fair_steps_trans|done]. }
  destruct flow as [f1 saw1|f1 saw1|f1 e]; [by apply Hnext..|]. by exists f1.
Qed.

Lemma scheduler_loop_spec fuel pages f g :
  ginv g → wp R G (scheduler_loop cf fuel pages f) (λ _ _, True) g.
Proof using HR HRs HGs HGm.
  pose proof quiet_intro as HG0. pose proof (latch_fault_spec cf R G HR) as Hlatch.
  revert f g. induction fuel as [|fuel IH]; intros f g Hi; [done|].
  cbn [scheduler_loop]. apply wp_bind. eapply (wp_read cf R G); [done|by auto|]. intros g1 Hm1.
  destruct (co_shutting_down _); [done|].
  apply wp_bind. eapply (wp_read cf R G); [done|by auto|]. intros g2 Hm2.
  destruct (is_some _); [done|].
  apply wp_bind. eapply (wp_read cf R G); [done|by auto|]. intros g3 Hm3.
  apply wp_bind. eapply (wp_use cf R G HR HGm _ (λ _ _, True)); [apply Hm3|..].
  { destruct (_ <? _); [|done]. apply wp_bind. eapply (wp_asks cf R G); [done|by auto|done|].
    intros o g4 Hm4. eapply wp_mono; [|apply scan_pages_spec, Hm4]. done. }
  intros scanned g4 Hm4 _.
  destruct scanned as [[[[] f1]|[e f1]]|]; [|..|done].
  - apply IH, Hm4.
  - apply wp_bind. eapply (wp_asks cf R G); [done|by auto|done|]. intros o g5 Hm5.
    apply (wp_unless_panic cf R G HR); [by auto| |].
    { intros g6 Hm6. apply wp_bind.
      eapply (wp_use cf R G HR HGm); [apply Hm6|apply Hlatch; [by auto|done|apply Hm6]|done]. }
    intros g5' Hm5'.
    apply wp_bind. eapply (wp_asks cf R G); [done|by auto|done|]. intros o' g6 Hm6.
    destruct (gperform _ _ _).1; [apply IH, Hm6|].
    apply wp_bind. eapply (wp_use cf R G HR HGm); [apply Hm6|apply Hlatch; [by auto|done|apply Hm6]|done].
  - apply wp_bind. eapply (wp_use cf R G HR HGm); [apply Hm4|apply Hlatch; [by auto|done|apply Hm4]|done].
Qed.
End scheduler.
