(* ===== verification/ServicePool.v ===== *)
(** * The running service

    All threads of the service together: the scheduler, the calls of clients,
    the attempts and hooks that were spawned, and the progress reports of
    handlers.  One action performs one atomic operation of one thread, starts
    a client's call, or hands a spawned piece of work to a thread of its own;
    the application may prune the store that it shares with the service, and
    others may change what the store keeps beside the tasks.
    Every action is a move of [ServiceLogic], so whatever is proved of a
    program among others holds in the running service. *)

From S2P Require Import Prelude TaskState Model Engine RetryPolicy Requests Handlers MemoryStore.
From S2P Require Import MemoryInvariant MemoryPreservation MemoryHistory MemoryQueries TaskStore.
From S2P Require Import ServiceMonad Service ServiceLogic ServiceSpecs ServiceScheduler.
From S2P Require Import Programs.

Section pool.
Context `{ET : !ExternalTypes, SJ : !SnapshotJson, CT : !CodecTypes, MW : !MetadataWire,
          HF : !HandlerFutures, EX : !ErrorTexts}.
Context {S : Type} `{TS : !TaskStore S, TL : !TaskStoreLaws S}.
Context (cf : ServiceConfig).
Implicit Types (g : Ghost (S := S)).

(** ** Executions among others *)

(** What the other threads may have done since. *)
Definition others : relation (Ghost (S := S)) := λ g g', moves cf g g' ∧ room g'.

(** Alone, with the same answers throughout and every step checked. *)
Definition room_b g : bool :=
  bool_decide (map_Forall (λ _ task, ts_state_version (st_summary task) < u64_max ∧
                                     ts_attempt (st_summary task) < u32_max) (gtasks g)).
Definition admissible_b {X} (op : Op X) g : bool :=
  match op with OpAccept id _ => bool_decide (id ∉ g_used g) | _ => true end.

Lemma room_b_true g : room_b g = true → room g.
Proof. intros Hr id task Hid. apply bool_decide_eq_true in Hr. by apply Hr in Hid. Qed.
Lemma admissible_b_true {X} (op : Op X) g : admissible_b op g = true → admissible op g.
Proof. destruct op; try done. apply bool_decide_eq_true. Qed.

Fixpoint alone {A} (o : Oracle) (p : prog A) (g : Ghost) : option (A * Ghost) :=
  match p with
  | Ret a => Some (a, g)
  | Step op k =>
      if room_b g && admissible_b op g
      then alone o (k (gperform o op g).1) (gperform o op g).2 else None
  end.

Lemma alone_exec {A} R G o (p : prog A) Q g a g' :
  (∀ g, ginv g → room g → R g g) → (∀ g g', G g g' → moves cf g g') →
  ginv g → wp R G p Q g → alone o p g = Some (a, g') → exec R p g a g'.
Proof.
  intros HR HG. revert g. induction p as [b|X op k IH]; intros g Hi Hw Ha; [by injection Ha|].
  simpl in Ha. destruct (room_b g) eqn:Hroom; [|done]. destruct (admissible_b op g) eqn:Hadm; [|done].
  apply room_b_true in Hroom. apply admissible_b_true in Hadm.
  destruct (Hw o g (HR g Hi Hroom) Hadm) as [Hg Hk].
  exists o, g. split_and!; [by apply HR|done|]. eapply IH; [apply (HG _ _ Hg)|done|done].
Qed.

(** ** Threads *)

(** Among them are the two flags that the shutdown supervisor and its callers
    set. *)

Definition forget {A} (p : prog A) : prog unit := p;; Ret tt.

Inductive Call :=
| CallSubmit (r : TaskRequest) | CallCancel (id : TaskId) | CallResume (id : TaskId) (version : N)
| CallShutdown | CallReleased
| CallReport (stage : option Stage) (metrics : list MetricSnapshot) (reporter : TaskProgressReporter).

Definition call_program (c : Call) : prog unit :=
  match c with
  | CallSubmit r => forget (submit cf r)
  | CallCancel id => forget (cancel cf id)
  | CallResume id version => forget (resume_blocked id version)
  | CallShutdown => request_shutdown
  | CallReleased => modify_core mark_released
  | CallReport stage metrics reporter => forget (report stage metrics reporter)
  end.

(** A hook's thread gets fuel for its retries. *)
Definition work_program (fuel : nat) (work : Spawned) : prog unit :=
  match work with
  | SpawnRun id running reservation => run_spawned cf id running reservation
  | SpawnExternalCancel key kind_id flight =>
      forget (run_external_cancel cf fuel key kind_id flight)
  end.

Record Pool := {
  p_ghost : Ghost (S := S);
  p_scheduler : prog (option unit);
  p_threads : list (prog unit);
}.

Inductive Action :=
| ActScheduler (o : Oracle) | ActThread (i : nat) (o : Oracle)
| ActCall (c : Call) | ActSpawn (fuel i : nat) | ActPrune (before rows : N) | ActOther (s : S).

Definition take_work (i : nat) (co : ServiceCore) : option (Spawned * ServiceCore) :=
  work ← co_spawned co !! i;
  Some (work, set_in_flight (co_in_flight co) (delete i (co_spawned co)) co).

Definition set_gstore (s : S) g : Ghost :=
  {| g_world := {| w_store := s; w_core := gcore g |}; g_used := g_used g; g_started := g_started g;
     g_finished := g_finished g |}.

Definition act (a : Action) (P : Pool) : option Pool :=
  match a with
  | ActScheduler o =>
      match p_scheduler P with
      | Ret _ => None
      | Step op k =>
          let '(x, g) := gperform o op (p_ghost P) in
          Some {| p_ghost := g; p_scheduler := k x; p_threads := p_threads P |}
      end
  | ActThread i o =>
      match p_threads P !! i with
      | Some (Step op k) =>
          let '(x, g) := gperform o op (p_ghost P) in
          Some {| p_ghost := g; p_scheduler := p_scheduler P;
                  p_threads := <[i := k x]> (p_threads P) |}
      | _ => None
      end
  | ActCall c =>
      Some {| p_ghost := p_ghost P; p_scheduler := p_scheduler P;
              p_threads := p_threads P ++ [call_program c] |}
  | ActSpawn fuel i =>
      '(work, co) ← take_work i (gcore (p_ghost P));
      Some {| p_ghost := set_core co (p_ghost P); p_scheduler := p_scheduler P;
              p_threads := p_threads P ++ [work_program fuel work] |}
  | ActPrune before rows =>
      let s := (do_prune before rows (w_store (g_world (p_ghost P)))).2 in
      Some {| p_ghost := set_gstore s (p_ghost P); p_scheduler := p_scheduler P;
              p_threads := p_threads P |}
  | ActOther s =>
      Some {| p_ghost := set_gstore s (p_ghost P); p_scheduler := p_scheduler P;
              p_threads := p_threads P |}
  end.

Lemma act_thread i o {X} (op : Op X) k P :
  p_threads P !! i = Some (Step op k) →
  act (ActThread i o) P =
    Some {| p_ghost := (gperform o op (p_ghost P)).2; p_scheduler := p_scheduler P;
            p_threads := <[i := k (gperform o op (p_ghost P)).1]> (p_threads P) |}.
Proof.
  intros Hi. cbn [act]. change (p_threads P !! i) with (p_threads P !! i : option (prog unit)).
  destruct (p_threads P !! i) as [q|]; [|done]. injection Hi as ->.
  by destruct (gperform o op (p_ghost P)).
Qed.

Lemma act_scheduler o {X} (op : Op X) k P :
  p_scheduler P = Step op k →
  act (ActScheduler o) P =
    Some {| p_ghost := (gperform o op (p_ghost P)).2;
            p_scheduler := k (gperform o op (p_ghost P)).1; p_threads := p_threads P |}.
Proof. intros Hp. cbn [act]. rewrite Hp. by destruct (gperform o op (p_ghost P)). Qed.

(** The generator's promise, for the operation an action performs; others
    leave the tasks alone. *)
Definition next_admissible {A} (p : prog A) g : Prop :=
  match p with Step op _ => admissible op g | Ret _ => True end.
Definition action_admissible (a : Action) (P : Pool) : Prop :=
  match a with
  | ActScheduler _ => next_admissible (p_scheduler P) (p_ghost P)
  | ActThread i _ => from_option (λ p, next_admissible p (p_ghost P)) True (p_threads P !! i)
  | ActOther s => store_ok s ∧ tasks_of s = gtasks (p_ghost P)
  | _ => True
  end.

(** No task has used up its 2^64 versions or 2^32 attempts. *)
Inductive pool_step : relation Pool :=
| pool_act a P P' :
    room (p_ghost P) → action_admissible a P → act a P = Some P' → pool_step P P'.

(** ** Every step is a move *)

Definition sched_rely : relation (Ghost (S := S)) :=
  λ g g', others g g' ∧ g_started g' = g_started g.

Record pool_ok (P : Pool) : Prop := {
  po_inv : ginv (p_ghost P);
  po_scheduler : wp sched_rely (moves cf) (p_scheduler P) (λ _ _, True) (p_ghost P);
  po_threads : Forall (λ p, wp others (quiet cf) p (λ _ _, True) (p_ghost P)) (p_threads P);
}.

Lemma others_moves g g' : others g g' → moves cf g g' ∧ room g'.
Proof. done. Qed.
Lemma sched_moves g g' : sched_rely g g' → moves cf g g' ∧ room g'.
Proof. by intros [? _]. Qed.

Lemma others_later g g' : moves cf g g' → ∀ g1, others g' g1 → others g g1.
Proof. intros Hm g1 [? ?]. split; [by eapply moves_trans|done]. Qed.

Lemma threads_later (l : list (prog unit)) g g' :
  moves cf g g' → Forall (λ p, wp others (quiet cf) p (λ _ _, True) g) l →
  Forall (λ p, wp others (quiet cf) p (λ _ _, True) g') l.
Proof.
  intros Hm Hl. eapply Forall_impl; [done|]. simpl. intros p. by apply wp_later, others_later.
Qed.

Lemma scheduler_later (p : prog (option unit)) g g' :
  quiet cf g g' → wp sched_rely (moves cf) p (λ _ _, True) g →
  wp sched_rely (moves cf) p (λ _ _, True) g'.
Proof.
  intros [Hm Hs]. apply wp_later. intros g1 [Ho He]. split; [by eapply others_later|congruence].
Qed.

Lemma forget_spec {A} R G (p : prog A) g Q : wp R G p Q g → wp R G (forget p) (λ _ _, True) g.
Proof. intros Hp. apply wp_bind. by eapply wp_mono. Qed.

Lemma call_program_spec c g : ginv g → wp others (quiet cf) (call_program c) (λ _ _, True) g.
Proof.
  intros Hi. pose proof others_moves as HR. pose proof (quiet_intro cf) as HG.
  pose proof (quiet_moves cf) as HGm. destruct c; cbn [call_program].
  - eapply forget_spec. by apply (submit_spec cf others _ HR HG HGm).
  - eapply forget_spec. by apply (cancel_spec cf others _ HR HG HGm).
  - eapply forget_spec. by apply (resume_blocked_spec cf others _ HR HG HGm).
  - by apply (request_shutdown_spec cf others _ HR HG).
  - by apply (released_spec cf others _ HR HG).
  - eapply forget_spec. by apply (report_spec cf others _ HR HG).
Qed.

Lemma work_program_spec fuel work g :
  ginv g → work_ok g work → wp others (quiet cf) (work_program fuel work) (λ _ _, True) g.
Proof.
  intros Hi Hw. pose proof others_moves as HR. pose proof (quiet_intro cf) as HG.
  pose proof (quiet_moves cf) as HGm. destruct work as [id running res|key kind_id flight]; cbn [work_program].
  - eapply wp_mono; [|by apply (run_spawned_spec cf others _ HR HG HGm)]. done.
  - assert (∃ v, reached key.1 v g) as [v Hv].
    { destruct Hw as (task & Hs & _). eexists. by apply (seen_reached _ _ task). }
    eapply forget_spec. by apply (run_external_cancel_spec cf others _ HR HG HGm fuel key kind_id flight g Hi Hw v).
Qed.

Lemma take_work_moves i work co g :
  ginv g → take_work i (gcore g) = Some (work, co) →
  quiet cf g (set_core co g) ∧ work_ok g work.
Proof.
  intros Hi Ht. unfold take_work in Ht. destruct (co_spawned (gcore g) !! i) as [work'|] eqn:Hw; [|done].
  injection Ht as <- <-. apply list_elem_of_lookup_2 in Hw. split; [|by apply (gi_spawned _ Hi)].
  split; [|done]. apply core_moves; try done; [by left|]. simpl. intros x Hx. left.
  rewrite delete_take_drop in Hx. apply elem_of_app in Hx as [Hx|Hx];
    [by eapply subseteq_take|by eapply subseteq_drop].
Qed.

(** Pruning takes nothing from the service but finished tasks. *)
Lemma prune_moves before rows g :
  ginv g → quiet cf g (set_gstore (do_prune before rows (w_store (g_world g))).2 g).
Proof.
  intros Hi. destruct (law_prune _ before rows (gi_store _ Hi)) as [Hok Hp].
  assert (∀ id, dropped_at_most (gtasks g)
    (tasks_of (do_prune before rows (w_store (g_world g))).2) id) as Hd.
  { intros id. unfold prune_outcome in Hp. destruct (do_prune _ _ _) as [[n|e] s']; simpl in *.
    - destruct Hp as (l & _ & _ & _ & Hl & Ht). unfold dropped_at_most. rewrite Hl.
      case_decide as Hin; [right|by left]. by split; [|apply Ht].
    - left. by rewrite Hp. }
  split; [|done]. apply store_moves; [done..|]. split.
  - intros id task Hid. by eapply dropped_finished; [apply (gi_finished _ Hi)|apply Hd|].
  - intros id. apply dropped_kept; [apply (gi_finished _ Hi)|apply Hd].
Qed.

(** What the store keeps beside the tasks does not matter. *)
Lemma other_moves s g :
  ginv g → store_ok s → tasks_of s = gtasks g → quiet cf g (set_gstore s g).
Proof.
  intros Hi Hs Ht. split; [|done]. apply store_moves; [done..|]. rewrite Ht.
  apply same_kept, (gi_finished _ Hi).
Qed.

(** One step of a thread whose behaviour is known. *)
Lemma wp_perform {A} R G X (op : Op X) (k : X → prog A) o g :
  R g g → admissible op g → wp R G (Step op k) (λ _ _, True) g →
  G g (gperform o op g).2 ∧ wp R G (k (gperform o op g).1) (λ _ _, True) (gperform o op g).2.
Proof. intros Hr Hadm Hw. by apply Hw. Qed.

Lemma pool_step_ok P P' :
  pool_ok P → pool_step P P' → pool_ok P' ∧ moves cf (p_ghost P) (p_ghost P').
Proof.
  intros [Hi Hsched Hth] Hstep. destruct Hstep as [a P P' Hroom Hadm Hact].
  assert (others (p_ghost P) (p_ghost P)) as Hself by (split; [by apply moves_refl|done]).
  destruct a as [o|i o|c|fuel i|before rows|s]; simpl in Hact, Hadm.
  - destruct (p_scheduler P) as [|X op k] eqn:Hp; [done|].
    destruct (wp_perform _ _ _ _ _ o (p_ghost P) (conj Hself eq_refl) Hadm Hsched) as [Hm Hk].
    destruct (gperform o op (p_ghost P)) as [x g]. injection Hact as <-. simpl in *.
    split; [|done]. split; [apply Hm|done|by eapply threads_later].
  - destruct (p_threads P !! i) as [[|X op k]|] eqn:Hp; [done| |done].
    pose proof (Forall_lookup_1 _ _ _ _ Hth Hp) as Hw.
    destruct (wp_perform _ _ _ _ _ o (p_ghost P) Hself Hadm Hw) as [Hq Hk].
    destruct (gperform o op (p_ghost P)) as [x g]. injection Hact as <-. simpl in *.
    split; [|apply Hq]. split; simpl.
    + apply Hq.
    + by eapply scheduler_later.
    + apply Forall_insert; [|done]. eapply threads_later; [apply Hq|done].
  - injection Hact as <-. split; [|by apply moves_refl]. split; try done. simpl.
    apply Forall_app. split; [done|]. apply Forall_singleton. by apply call_program_spec.
  - destruct (take_work i _) as [[work co]|] eqn:Ht; [|done]. injection Hact as <-.
    destruct (take_work_moves _ _ _ _ Hi Ht) as [Hq Hw]. simpl. split; [|apply Hq]. split; simpl.
    + apply Hq.
    + by eapply scheduler_later.
    + apply Forall_app. split; [eapply threads_later; [apply Hq|done]|].
      apply Forall_singleton. apply work_program_spec; [apply Hq|].
      eapply work_ok_tasks; [apply (mv_tasks _ _ _ (proj1 Hq))|done].
  - injection Hact as <-. pose proof (prune_moves before rows _ Hi) as Hq.
    split; [|apply Hq]. split; simpl; [apply Hq|by eapply scheduler_later|].
    eapply threads_later; [apply Hq|done].
  - injection Hact as <-. destruct Hadm as [Hs Ht]. pose proof (other_moves s _ Hi Hs Ht) as Hq.
    split; [|apply Hq]. split; simpl; [apply Hq|by eapply scheduler_later|].
    eapply threads_later; [apply Hq|done].
Qed.

Lemma pool_steps_ok P P' :
  pool_ok P → rtc pool_step P P' → pool_ok P' ∧ moves cf (p_ghost P) (p_ghost P').
Proof.
  intros Hok Hs. induction Hs as [P|P P1 P' Hstep _ IH].
  - split; [done|]. apply moves_refl, Hok.
  - destruct (pool_step_ok _ _ Hok Hstep) as [Hok1 Hm1]. destruct (IH Hok1) as [? ?].
    split; [done|]. by eapply moves_trans.
Qed.

(** ** The service as it is built: recovery is over, nothing runs yet *)

Definition finished_summary (task : StoredTask) : option TaskSummary :=
  if task_terminal task then Some (st_summary task) else None.

Definition service_start (fuel pages : nat) (s : S) : Pool :=
  {| p_ghost := {| g_world := {| w_store := s; w_core := core_new |};
                   g_used := dom (tasks_of s); g_started := [];
                   g_finished := omap finished_summary (tasks_of s) |};
     p_scheduler := scheduler_loop cf fuel pages ResourceFairness_default; p_threads := [] |}.

Lemma service_start_ok fuel pages s : store_ok s → pool_ok (service_start fuel pages s).
Proof.
  intros Hs. assert (ginv (p_ghost (service_start fuel pages s))) as Hi.
  { split; simpl; [done|..].
    - intros id task Hid. by eapply elem_of_dom_2.
    - intros id task Hid. cbn. unfold gtasks in Hid. cbn in Hid. by rewrite lookup_omap, Hid.
    - intros id [t Ht]. rewrite lookup_omap in Ht. apply bind_Some in Ht as (task & Hid & _).
      by eapply elem_of_dom_2.
    - intros key Hk. by rewrite lookup_empty in Hk.
    - intros work Hw. by apply not_elem_of_nil in Hw. }
  split; [done| |by constructor]. simpl.
  apply (scheduler_loop_spec cf sched_rely (moves cf) sched_moves); [by intros ?? [_ ?]|done|done|done].
Qed.

Definition service_reachable (P : Pool) : Prop :=
  ∃ fuel pages s, store_ok s ∧ rtc pool_step (service_start fuel pages s) P.

Lemma service_reachable_ok P : service_reachable P → pool_ok P.
Proof.
  intros (fuel & pages & s & Hs & Hr). by apply (pool_steps_ok _ _ (service_start_ok fuel pages s Hs)).
Qed.
End pool.
