(* ===== verification/Shutdown.v ===== *)
(** * Shutdown

    The supervisor of [src/src/service/typed_task_execution_service] that stops
    the service and releases the ownership of the store, with the guard of
    [owner_release_guard] and the callers of [shutdown].  Here the threads of
    the service are kept apart: calls hold the admission lock from their start
    to their end, so the supervisor's exclusive lock waits until all of them
    are done; work was counted in [in_flight] before it was spawned; handlers
    report progress while they run.  Calls and callers of [shutdown] may be
    abandoned at any point, as any future may be dropped; a call that is
    dropped during a write of the store releases the admission lock, and the
    write goes on without it ([lf_underway]).  Others may go first here, though
    the slot of SQLite would let them wait; the release of the ownership waits
    for the slot.  So a report that a running handler drops is one that lands
    later, while the attempt waits for the slot.  A context that a handler has
    handed to code that outlives it is not modelled. *)

From S2P Require Import Prelude TaskState Model Engine RetryPolicy Requests Handlers MemoryStore.
From S2P Require Import MemoryInvariant MemoryPreservation MemoryHistory MemoryQueries TaskStore.
From S2P Require Import Programs StoreOwner ServiceMonad Service ServicePool.

Section shutdown.
Context `{ET : !ExternalTypes, SJ : !SnapshotJson, CT : !CodecTypes, MW : !MetadataWire,
          HF : !HandlerFutures, EX : !ErrorTexts}.
Context {S : Type} `{TS : !TaskStore S, OS : !OwnedStore S}.
Context (cf : ServiceConfig).

(** ** Outcomes *)

Inductive ShutdownOutcome :=
| ShutdownComplete | ShutdownStoreUnavailable (error : string)
| ShutdownNotificationClose (error : string).

Definition into_result (o : ShutdownOutcome) : result unit TaskServiceError :=
  match o with
  | ShutdownComplete => Ok tt
  | ShutdownStoreUnavailable error => Err (StoreUnavailable error)
  | ShutdownNotificationClose error => Err (NotificationClose error)
  end.

Record ShutdownProgress := {
  sp_attempt : nat;
  sp_results : list ShutdownOutcome;
  sp_retryable_release : bool;
  sp_retry_requested : bool;
}.
Definition ShutdownProgress_default : ShutdownProgress :=
  {| sp_attempt := 0; sp_results := []; sp_retryable_release := false;
     sp_retry_requested := false |}.

(** The locked block of [shutdown]: the attempt to wait for. *)
Definition join_attempt (p : ShutdownProgress) : nat * ShutdownProgress :=
  if sp_retryable_release p && (sp_attempt p <? length (sp_results p))%nat
  then (Datatypes.S (sp_attempt p),
        {| sp_attempt := Datatypes.S (sp_attempt p); sp_results := sp_results p;
           sp_retryable_release := sp_retryable_release p; sp_retry_requested := true |})
  else (sp_attempt p, p).

(** The end of one round of [release_store_owner_until_complete]. *)
Definition release_outcome (fault release_error close_error : option string) : ShutdownOutcome :=
  match fault with
  | Some fault => ShutdownStoreUnavailable fault
  | None =>
      match release_error with
      | Some error => ShutdownStoreUnavailable error
      | None =>
          match close_error with
          | Some error => ShutdownNotificationClose error
          | None => ShutdownComplete
          end
      end
  end.
Definition push_outcome (outcome : ShutdownOutcome) (retryable : bool) (p : ShutdownProgress)
    : ShutdownProgress :=
  {| sp_attempt := sp_attempt p; sp_results := sp_results p ++ [outcome];
     sp_retryable_release := retryable; sp_retry_requested := false |}.

(** ** The guard of the ownership *)

(** [OwnerReleaseGuard]: the epoch while it is armed. *)
Definition OwnerReleaseGuard : Type := option OwnerEpoch.

(** [answer] is the store's answer to [release_owner]. *)
Definition guard_release (answer : result unit StoreError) (g : OwnerReleaseGuard)
    : result unit StoreError * OwnerReleaseGuard :=
  match g with
  | None => (Ok tt, g)
  | Some _ => (answer, if is_ok answer then None else g)
  end.

(** [drop]: an armed guard queues its epoch for the cleanup thread, unless that
    thread is gone ([accepts = false]): then the failure is reported. *)
Definition guard_drop (accepts : bool) (g : OwnerReleaseGuard) (jobs : list OwnerEpoch)
    (reported : bool) : list OwnerEpoch * bool :=
  match g with
  | None => (jobs, reported)
  | Some epoch => if accepts then (jobs ++ [epoch], reported) else (jobs, true)
  end.

(** ** Operations that outlive their caller *)

(** [SqliteTaskStore::run] hands an operation to a blocking thread, which
    holds the only slot and goes on when the caller's future is dropped. *)
Definition is_write {X} (op : Op X) : bool :=
  match op with
  | OpAccept _ _ | OpStart _ | OpTransition _ | OpProgress _ => true
  | _ => false
  end.
Inductive StoreWrite :=
| StoreWriting (X : Type) (op : Op X).
Definition next_write {A} (p : prog A) : option StoreWrite :=
  match p with
  | Step op _ => if is_write op then Some (StoreWriting _ op) else None
  | Ret _ => None
  end.

(** A call of the store's [release_owner]: the queue or the blocking thread has
    failed it, or it has got the slot after all operations before it, and
    [unlock] is how unlocking the file ends. *)
Inductive ReleaseCall :=
| ReleaseStopped (e : StoreError)
| ReleaseReaches (o : Oracle) (unlock : result unit StoreError).

(** ** The service with its supervisor *)

Inductive SupervisorPhase :=
| WaitForShutdownRequest | StopScheduler | WaitForScheduler | WaitForActiveOperations
| CloseNotificationPublisher | ReleaseStoreOwner | PublishOutcome (release_error : option string)
| AwaitRetry | SupervisorDone.

Inductive Caller := WaitingFor (attempt : nat) | Answered (r : result unit TaskServiceError).

Record Life := {
  lf_world : World S;
  lf_scheduler : prog (option unit);
  lf_calls : list (prog unit);
  lf_works : list (prog unit);
  lf_supervisor : SupervisorPhase;
  lf_owner_guard : option OwnerReleaseGuard;
  lf_close_error : option string;
  lf_progress : ShutdownProgress;
  lf_public_gone : bool;
  lf_callers : list Caller;
  (** the cleanup thread's queue, whether no release has succeeded yet, and
      whether a failed cleanup has been reported *)
  lf_cleanup : list OwnerEpoch;
  lf_owned : bool;
  lf_reported : bool;
  (** the write that a dropped call has left running in the store *)
  lf_underway : option StoreWrite;
}.
Implicit Types (l : Life).

Definition lf_core l : ServiceCore := w_core (lf_world l).

Definition set_world (w : World S) l : Life :=
  {| lf_world := w; lf_scheduler := lf_scheduler l; lf_calls := lf_calls l;
     lf_works := lf_works l; lf_supervisor := lf_supervisor l;
     lf_owner_guard := lf_owner_guard l; lf_close_error := lf_close_error l;
     lf_progress := lf_progress l; lf_public_gone := lf_public_gone l;
     lf_callers := lf_callers l; lf_cleanup := lf_cleanup l; lf_owned := lf_owned l;
     lf_reported := lf_reported l; lf_underway := lf_underway l |}.
Definition set_threads (w : World S) (scheduler : prog (option unit))
    (calls works : list (prog unit)) l : Life :=
  {| lf_world := w; lf_scheduler := scheduler; lf_calls := calls; lf_works := works;
     lf_supervisor := lf_supervisor l;
     lf_owner_guard := lf_owner_guard l; lf_close_error := lf_close_error l;
     lf_progress := lf_progress l; lf_public_gone := lf_public_gone l;
     lf_callers := lf_callers l; lf_cleanup := lf_cleanup l; lf_owned := lf_owned l;
     lf_reported := lf_reported l; lf_underway := lf_underway l |}.
Definition set_supervisor (phase : SupervisorPhase) l : Life :=
  {| lf_world := lf_world l; lf_scheduler := lf_scheduler l; lf_calls := lf_calls l;
     lf_works := lf_works l; lf_supervisor := phase;
     lf_owner_guard := lf_owner_guard l; lf_close_error := lf_close_error l;
     lf_progress := lf_progress l; lf_public_gone := lf_public_gone l;
     lf_callers := lf_callers l; lf_cleanup := lf_cleanup l; lf_owned := lf_owned l;
     lf_reported := lf_reported l; lf_underway := lf_underway l |}.
Definition set_callers (p : ShutdownProgress) (callers : list Caller) l : Life :=
  {| lf_world := lf_world l; lf_scheduler := lf_scheduler l; lf_calls := lf_calls l;
     lf_works := lf_works l; lf_supervisor := lf_supervisor l;
     lf_owner_guard := lf_owner_guard l; lf_close_error := lf_close_error l;
     lf_progress := p; lf_public_gone := lf_public_gone l;
     lf_callers := callers; lf_cleanup := lf_cleanup l; lf_owned := lf_owned l;
     lf_reported := lf_reported l; lf_underway := lf_underway l |}.
Definition set_ownership (guard : option OwnerReleaseGuard) (cleanup : list OwnerEpoch)
    (owned reported : bool) l : Life :=
  {| lf_world := lf_world l; lf_scheduler := lf_scheduler l; lf_calls := lf_calls l;
     lf_works := lf_works l; lf_supervisor := lf_supervisor l;
     lf_owner_guard := guard; lf_close_error := lf_close_error l;
     lf_progress := lf_progress l; lf_public_gone := lf_public_gone l;
     lf_callers := lf_callers l; lf_cleanup := cleanup; lf_owned := owned;
     lf_reported := reported; lf_underway := lf_underway l |}.
Definition set_lifetime (gone : bool) (close_error : option string) l : Life :=
  {| lf_world := lf_world l; lf_scheduler := lf_scheduler l; lf_calls := lf_calls l;
     lf_works := lf_works l; lf_supervisor := lf_supervisor l;
     lf_owner_guard := lf_owner_guard l; lf_close_error := close_error;
     lf_progress := lf_progress l; lf_public_gone := gone;
     lf_callers := lf_callers l; lf_cleanup := lf_cleanup l; lf_owned := lf_owned l;
     lf_reported := lf_reported l; lf_underway := lf_underway l |}.

(** The store and what runs in it. *)
Definition write_store (s : S) (underway : option StoreWrite) l : Life :=
  {| lf_world := {| w_store := s; w_core := w_core (lf_world l) |};
     lf_scheduler := lf_scheduler l; lf_calls := lf_calls l;
     lf_works := lf_works l; lf_supervisor := lf_supervisor l;
     lf_owner_guard := lf_owner_guard l; lf_close_error := lf_close_error l;
     lf_progress := lf_progress l; lf_public_gone := lf_public_gone l;
     lf_callers := lf_callers l; lf_cleanup := lf_cleanup l; lf_owned := lf_owned l;
     lf_reported := lf_reported l; lf_underway := underway |}.

Definition update_core (f : ServiceCore → ServiceCore) l : Life :=
  set_world {| w_store := w_store (lf_world l); w_core := f (lf_core l) |} l.
Definition stop_core (co : ServiceCore) : ServiceCore := set_fault (co_fault co) true co.

(** The write under way is done. *)
Definition land (o : Oracle) l : Life :=
  match lf_underway l with
  | None => l
  | Some (StoreWriting _ op) => write_store (w_store (perform o op (lf_world l)).2) None l
  end.

(** ** The supervisor *)

(** The store's [release_owner]; it gets the slot after the write under way. *)
Definition store_release (call : ReleaseCall) (epoch : OwnerEpoch) l : result unit StoreError * Life :=
  match call with
  | ReleaseStopped e => (Err e, l)
  | ReleaseReaches o unlock =>
      let l := land o l in
      let '(r, s) := do_release unlock epoch (w_store (lf_world l)) in
      (r, write_store s (lf_underway l) l)
  end.

Definition release_store_owner (call : ReleaseCall) l : Life :=
  match lf_owner_guard l with
  | None =>
      set_supervisor (PublishOutcome (Some (StoreError_to_string
        (Failure "started service has no owner release guard")))) l
  | Some guard =>
      let '(answer, l) :=
        match guard with Some epoch => store_release call epoch l | None => (Ok tt, l) end in
      let '(res, guard') := guard_release answer guard in
      let owned := if is_some guard && is_ok answer then false else lf_owned l in
      let l := set_ownership (Some guard') (lf_cleanup l) owned (lf_reported l) l in
      match res with
      | Ok _ => set_supervisor (PublishOutcome None) (update_core mark_released l)
      | Err e => set_supervisor (PublishOutcome (Some (StoreError_to_string e))) l
      end
  end.

(** The scheduler has returned; without fuel it is still running. *)
Definition scheduler_stopped (p : prog (option unit)) : bool :=
  match p with Ret (Some _) => true | _ => false end.

(** The end of [release_store_owner_until_complete] when no handle is left:
    the guard is taken out and dropped. *)
Definition drop_owner_guard (accepts : bool) l : Life :=
  match lf_owner_guard l with
  | None => l
  | Some guard =>
      let '(jobs, reported) := guard_drop accepts guard (lf_cleanup l) (lf_reported l) in
      set_ownership None jobs (lf_owned l) reported l
  end.

(** One step; [None]: it waits.  [close] is how closing the publisher ended,
    [call] the call of the store, [accepts] whether the cleanup thread is there. *)
Definition shutdown_supervisor (close : option string) (call : ReleaseCall)
    (accepts : bool) l : option Life :=
  match lf_supervisor l with
  | WaitForShutdownRequest =>
      if co_shutting_down (lf_core l) then Some (set_supervisor StopScheduler l) else None
  | StopScheduler =>
      if forallb halted (lf_calls l) then Some (set_supervisor WaitForScheduler l) else None
  | WaitForScheduler =>
      if scheduler_stopped (lf_scheduler l)
      then Some (set_supervisor WaitForActiveOperations l) else None
  | WaitForActiveOperations =>
      if co_in_flight (lf_core l) =? 0
      then Some (set_supervisor CloseNotificationPublisher l) else None
  | CloseNotificationPublisher =>
      Some (set_supervisor ReleaseStoreOwner (set_lifetime (lf_public_gone l) close l))
  | ReleaseStoreOwner => Some (release_store_owner call l)
  | PublishOutcome release_error =>
      let outcome := release_outcome (co_fault (lf_core l)) release_error (lf_close_error l) in
      let l := set_callers (push_outcome outcome (is_some release_error) (lf_progress l))
                 (lf_callers l) l in
      Some (set_supervisor (if is_some release_error then AwaitRetry else SupervisorDone) l)
  | AwaitRetry =>
      if lf_public_gone l then Some (set_supervisor SupervisorDone (drop_owner_guard accepts l))
      else if sp_retry_requested (lf_progress l)
      then Some (set_supervisor ReleaseStoreOwner l) else None
  | SupervisorDone => None
  end.

(** A panic of the code the supervisor calls, the publisher's close or the
    store's release: the guard is dropped and a last result published. *)
Definition panic_progress (p : ShutdownProgress) : ShutdownProgress :=
  let outcome := ShutdownStoreUnavailable "typed task shutdown supervisor panicked" in
  {| sp_attempt := sp_attempt p;
     sp_results := if (length (sp_results p) =? sp_attempt p)%nat then sp_results p ++ [outcome]
                   else <[sp_attempt p := outcome]> (sp_results p);
     sp_retryable_release := false; sp_retry_requested := false |}.
Definition supervisor_panicked (accepts : bool) l : option Life :=
  match lf_supervisor l with
  | CloseNotificationPublisher | ReleaseStoreOwner =>
      let l := drop_owner_guard accepts l in
      Some (set_supervisor SupervisorDone
              (set_callers (panic_progress (lf_progress l)) (lf_callers l) l))
  | _ => None
  end.

(** A job of the cleanup thread: it releases the epoch; an error or a panic of
    the store is reported. *)
Definition cleanup_job (i : nat) (epoch : OwnerEpoch) (call : ReleaseCall) l : Life :=
  let '(answer, l) := store_release call epoch l in
  set_ownership (lf_owner_guard l) (delete i (lf_cleanup l))
    (if is_ok answer then false else lf_owned l) (lf_reported l || negb (is_ok answer)) l.

(** ** Everything that can happen *)

(** The calls that hold the admission lock. *)
Definition admitted_call (c : Call) : bool :=
  match c with
  | CallSubmit _ | CallCancel _ | CallResume _ _ => true
  | CallShutdown | CallReleased | CallReport _ _ _ => false
  end.

Inductive LifeAction :=
| LifeScheduler (o : Oracle) | LifeCall (c : Call) | LifeCallStep (i : nat) (o : Oracle)
| LifeAbandonCall (i : nat) (running : bool) | LifeLand (o : Oracle)
| LifeSpawn (fuel i : nat) | LifeWorkStep (i : nat) (o : Oracle)
| LifeReport (i : nat) (stage : option Stage) (metrics : list MetricSnapshot)
    (reporter : TaskProgressReporter) (o : Oracle)
| LifeRequest | LifeJoin | LifeAnswer (i : nat) | LifeAbandonJoin (i : nat) | LifeDropHandle
| LifeSupervisor (close : option string) (call : ReleaseCall) (accepts : bool)
| LifeSupervisorPanic (accepts : bool)
| LifeCleanup (i : nat) (call : ReleaseCall).

Definition waiting (c : Caller) : bool := match c with WaitingFor _ => true | Answered _ => false end.

Definition life_act (a : LifeAction) l : option Life :=
  match a with
  | LifeScheduler o =>
      match lf_scheduler l with
      | Ret _ => None
      | Step op k =>
          let '(x, w) := perform o op (lf_world l) in
          Some (set_threads w (k x) (lf_calls l) (lf_works l) l)
      end
  | LifeCall c =>
      if lf_public_gone l || negb (admitted_call c) then None else
      Some (set_threads (lf_world l) (lf_scheduler l) (lf_calls l ++ [call_program cf c])
              (lf_works l) l)
  | LifeCallStep i o =>
      match lf_calls l !! i with
      | Some (Step op k) =>
          let '(x, w) := perform o op (lf_world l) in
          Some (set_threads w (lf_scheduler l) (<[i := k x]> (lf_calls l)) (lf_works l) l)
      | _ => None
      end
  | LifeAbandonCall i running =>
      match lf_calls l !! i with
      | None => None
      | Some p =>
          let l' := set_threads (lf_world l) (lf_scheduler l) (delete i (lf_calls l)) (lf_works l) l in
          if (running : bool) then
            match lf_underway l, next_write p with
            | None, Some write => Some (write_store (w_store (lf_world l)) (Some write) l')
            | _, _ => None
            end
          else Some l'
      end
  | LifeLand o => if is_some (lf_underway l) then Some (land o l) else None
  | LifeSpawn fuel i =>
      match co_spawned (lf_core l) !! i with
      | None => None
      | Some work =>
          let l := update_core (λ co, set_in_flight (co_in_flight co) (delete i (co_spawned co)) co) l in
          Some (set_threads (lf_world l) (lf_scheduler l) (lf_calls l)
                  (lf_works l ++ [work_program cf fuel work]) l)
      end
  | LifeWorkStep i o =>
      match lf_works l !! i with
      | Some (Step op k) =>
          let '(x, w) := perform o op (lf_world l) in
          Some (set_threads w (lf_scheduler l) (lf_calls l) (<[i := k x]> (lf_works l)) l)
      | _ => None
      end
  | LifeReport i stage metrics reporter o =>
      match lf_works l !! i with
      | Some (Step _ _) =>
          Some (set_world (run (W := World S) o (forget (report stage metrics reporter))
                             (lf_world l)).2 l)
      | _ => None
      end
  | LifeRequest => Some (update_core stop_core l)
  | LifeJoin =>
      if lf_public_gone l || negb (co_shutting_down (lf_core l)) then None else
      let '(attempt, p) := join_attempt (lf_progress l) in
      Some (set_callers p (lf_callers l ++ [WaitingFor attempt]) l)
  | LifeAnswer i =>
      match lf_callers l !! i with
      | Some (WaitingFor attempt) =>
          outcome ← sp_results (lf_progress l) !! attempt;
          Some (set_callers (lf_progress l)
                  (<[i := Answered (into_result outcome)]> (lf_callers l)) l)
      | _ => None
      end
  | LifeAbandonJoin i =>
      match lf_callers l !! i with
      | None => None
      | Some _ => Some (set_callers (lf_progress l) (delete i (lf_callers l)) l)
      end
  | LifeDropHandle =>
      if existsb waiting (lf_callers l) || negb (forallb halted (lf_calls l)) then None else
      Some (update_core stop_core (set_lifetime true (lf_close_error l) l))
  | LifeSupervisor close call accepts => shutdown_supervisor close call accepts l
  | LifeSupervisorPanic accepts => supervisor_panicked accepts l
  | LifeCleanup i call =>
      match lf_cleanup l !! i with
      | None => None
      | Some epoch => Some (cleanup_job i epoch call l)
      end
  end.

Inductive life_step : relation Life :=
| life_does a l l' : life_act a l = Some l' → life_step l l'.

(** The service right after its construction: ownership has been acquired and
    unfinished tasks have been recovered. *)
Definition life_start (fuel pages : nat) (epoch : OwnerEpoch) (w : World S) : Life :=
  {| lf_world := w;
     lf_scheduler := scheduler_loop cf fuel pages ResourceFairness_default;
     lf_calls := []; lf_works := []; lf_supervisor := WaitForShutdownRequest;
     lf_owner_guard := Some (Some epoch); lf_close_error := None;
     lf_progress := ShutdownProgress_default; lf_public_gone := false; lf_callers := [];
     lf_cleanup := []; lf_owned := true; lf_reported := false; lf_underway := None |}.

Definition life_reachable l : Prop :=
  ∃ fuel pages epoch w, w_core w = core_new ∧ rtc life_step (life_start fuel pages epoch w) l.
End shutdown.
