(* ===== verification/ShutdownThreads.v ===== *)
(** * Shutdown: what each thread may still do

    Which operations the programs of the service contain: what they write and
    what they do to the count of work in flight. *)

From S2P Require Import Prelude TaskState Model Engine RetryPolicy Requests Handlers MemoryStore.
From S2P Require Import MemoryInvariant MemoryPreservation MemoryHistory MemoryQueries TaskStore.
From S2P Require Import Programs ServiceMonad Service ServicePool Shutdown.

(** ** Operations *)

Section operations.
Context `{ET : !ExternalTypes, SJ : !SnapshotJson, CT : !CodecTypes, MW : !MetadataWire,
          HF : !HandlerFutures, EX : !ErrorTexts}.
Context (cf : ServiceConfig).

(** An access of the core that leaves alone the count of work, the queue of
    spawned work and the owner's flag, and never takes back a stop. *)
Definition core_keeps {X} (f : ServiceCore → X * ServiceCore) : Prop :=
  ∀ co, co_in_flight (f co).2 = co_in_flight co ∧ co_spawned (f co).2 = co_spawned co ∧
    co_owner_released (f co).2 = co_owner_released co ∧
    (co_shutting_down co = true → co_shutting_down (f co).2 = true).
Definition core_spawns {X} (f : ServiceCore → X * ServiceCore) : Prop :=
  ∃ work, ∀ co, (f co).2 = set_in_flight (co_in_flight co + 1) (co_spawned co ++ [work]) co.
Definition core_leaves {X} (f : ServiceCore → X * ServiceCore) : Prop :=
  ∀ co, (f co).2 = set_in_flight (co_in_flight co - 1) (co_spawned co) co.

Definition steady X (op : Op X) : Prop :=
  match op with OpCore _ f => core_keeps f | _ => True end.
Definition counted X (op : Op X) : Prop :=
  match op with OpCore _ f => core_keeps f ∨ core_spawns f | _ => True end.
Definition leaves {X} (op : Op X) : Prop :=
  match op with OpCore _ f => core_leaves f | _ => False end.
(** Neither the store nor the count changes. *)
Definition silent X (op : Op X) : Prop :=
  match op with
  | OpAccept _ _ | OpStart _ | OpTransition _ | OpProgress _ => False
  | OpCore _ f => core_keeps f
  | _ => True
  end.

Lemma steady_counted {A} (p : prog A) : all_ops steady p → all_ops counted p.
Proof. apply all_ops_mono. intros X op. destruct op; simpl; auto. Qed.

Create HintDb ops.

Ltac keeps := intros co; repeat case_match; repeat split; done.
Ltac ops :=
  repeat match goal with
  | |- all_ops _ (Ret _) => exact I
  | |- all_ops _ (_ ≫= _) => apply all_ops_bind; [|intros ?]
  | |- all_ops _ (unless_panic _ _) => apply all_ops_bind; [|intros [|]]
  | |- all_ops _ (try_bind _ _) => apply all_ops_bind; [|intros [?|?]]
  | |- all_ops _ (call _) => apply all_ops_call; exact I
  | |- all_ops _ (read_core _) => apply all_ops_call; keeps
  | |- all_ops _ (match ?x with _ => _ end) => destruct x
  | _ => solve [eauto with ops]
  end.

Lemma ops_modify f : core_keeps (λ co, (tt, f co)) → all_ops steady (modify_core f).
Proof. intros Hf. by apply all_ops_call. Qed.

Lemma ops_request_shutdown : all_ops steady request_shutdown.
Proof. apply ops_modify. keeps. Qed.
#[local] Hint Resolve ops_request_shutdown : ops.
Lemma ops_latch_fault e : all_ops steady (latch_fault e).
Proof. apply all_ops_bind; [apply ops_modify; keeps|intros _; ops]. Qed.
#[local] Hint Resolve ops_latch_fault : ops.
Lemma ops_store_result {A} (res : result A StoreError) : all_ops steady (store_result res).
Proof. unfold store_result. ops. Qed.
#[local] Hint Resolve ops_store_result : ops.
Lemma ops_submission {A} (res : result A StoreError) : all_ops steady (submission_store_result res).
Proof. unfold submission_store_result. ops. Qed.
#[local] Hint Resolve ops_submission : ops.
Lemma ops_check_fault : all_ops steady check_fault.
Proof. unfold check_fault. ops. Qed.
#[local] Hint Resolve ops_check_fault : ops.
Lemma ops_remove_external key : all_ops steady (modify_core (remove_external key)).
Proof. apply ops_modify. keeps. Qed.
#[local] Hint Resolve ops_remove_external : ops.
Lemma ops_competing id v : all_ops steady (check_competing_transition id v).
Proof. unfold check_competing_transition. ops. Qed.
#[local] Hint Resolve ops_competing : ops.
Lemma ops_mark_blocked t reason : all_ops steady (mark_blocked t reason).
Proof. unfold mark_blocked. ops. Qed.
#[local] Hint Resolve ops_mark_blocked : ops.
Lemma ops_finish started state output retryable :
  all_ops steady (finish cf started state output retryable).
Proof. unfold finish. ops. Qed.
#[local] Hint Resolve ops_finish : ops.
Lemma ops_release r : all_ops steady (release r).
Proof. apply ops_modify. keeps. Qed.
#[local] Hint Resolve ops_release : ops.
Lemma ops_set_signal key b : all_ops steady (modify_core (set_signal key b)).
Proof. apply ops_modify. keeps. Qed.
Lemma ops_remove_signal key : all_ops steady (modify_core (remove_signal key)).
Proof. apply ops_modify. keeps. Qed.
#[local] Hint Resolve ops_set_signal ops_remove_signal : ops.
Lemma ops_run_one id running r : all_ops steady (run_one cf id running r).
Proof. unfold run_one, attempt_panicked. ops. Qed.
#[local] Hint Resolve ops_run_one : ops.
Lemma ops_submit r : all_ops steady (submit cf r).
Proof. unfold submit. ops. Qed.
Lemma ops_refuses_work : all_ops steady refuses_work.
Proof. unfold refuses_work. ops. Qed.
#[local] Hint Resolve ops_refuses_work : ops.
Lemma ops_resume id v : all_ops steady (resume_blocked id v).
Proof. unfold resume_blocked. ops. Qed.
Lemma ops_persist fuel id a gone done e written :
  all_ops steady (persist_request fuel id a gone done e written).
Proof. induction fuel as [|fuel IH]; [exact I|]. cbn [persist_request]. ops. Qed.
#[local] Hint Resolve ops_persist : ops.
Lemma ops_hook fuel id a kind_id : all_ops steady (external_cancel_result cf fuel id a kind_id).
Proof.
  unfold external_cancel_result, announce_request, confirm_request, record_external_cancel_failure.
  ops.
Qed.
#[local] Hint Resolve ops_hook : ops.
Lemma ops_settle key flight r : all_ops steady (settle_flight key flight r).
Proof.
  unfold settle_flight. apply all_ops_bind; [apply ops_modify; destruct r; keeps|]. intros _.
  apply all_ops_bind; [ops|]. intros _. apply ops_modify. keeps.
Qed.
#[local] Hint Resolve ops_settle : ops.
Lemma ops_eligible t : all_ops steady (dispatch_is_eligible cf t).
Proof. unfold dispatch_is_eligible. ops. Qed.
Lemma ops_reserve t f : all_ops steady (reserve_task_resources cf t f).
Proof.
  unfold reserve_task_resources. apply all_ops_bind; [|intros ?; ops].
  apply all_ops_call. intros co. simpl. by destruct (try_prepare_typed _ _ _).
Qed.
#[local] Hint Resolve ops_eligible ops_reserve : ops.
Lemma ops_scan_stops : all_ops steady (scan_stops cf).
Proof. unfold scan_stops. ops. Qed.
Lemma ops_scan_pauses : all_ops steady (scan_pauses cf).
Proof. unfold scan_pauses. ops. Qed.
#[local] Hint Resolve ops_scan_stops ops_scan_pauses steady_counted : ops.

Lemma ops_spawn work : all_ops counted (spawn work).
Proof. apply all_ops_call. right. by exists work. Qed.
#[local] Hint Resolve ops_spawn : ops.
Lemma ops_read {X} (f : ServiceCore → X) : all_ops counted (read_core f).
Proof. apply steady_counted, all_ops_call. keeps. Qed.
#[local] Hint Resolve ops_read : ops.

Lemma ops_record t f saw : all_ops counted (scan_record cf t f saw).
Proof. unfold scan_record. ops. Qed.
#[local] Hint Resolve ops_record : ops.
Lemma ops_records l f saw : all_ops counted (scan_records cf l f saw).
Proof. revert f saw. induction l as [|t l IH]; intros f saw; cbn [scan_records]; ops. Qed.
#[local] Hint Resolve ops_records : ops.
Lemma ops_pages fuel now after f saw : all_ops counted (scan_pages cf fuel now after f saw).
Proof.
  revert after f saw. induction fuel as [|fuel IH]; intros after f saw; cbn [scan_pages]; ops.
Qed.
#[local] Hint Resolve ops_pages : ops.
Lemma ops_scheduler fuel pages f : all_ops counted (scheduler_loop cf fuel pages f).
Proof.
  revert f. induction fuel as [|fuel IH]; intros f; cbn [scheduler_loop]; unfold scan_ready_pages; ops.
Qed.

Lemma ops_start_or_join key kind_id : all_ops counted (start_or_join_external_cancel key kind_id).
Proof.
  unfold start_or_join_external_cancel. apply all_ops_bind; [|intros ?; ops].
  apply all_ops_call. left. keeps.
Qed.
#[local] Hint Resolve ops_start_or_join : ops.
Lemma ops_cancel id : all_ops counted (cancel cf id).
Proof.
  unfold cancel, cancel_running. ops. apply steady_counted, ops_modify. keeps.
Qed.

Lemma ops_report stage metrics r : all_ops steady (report stage metrics r).
Proof. unfold report. ops. Qed.
#[local] Hint Resolve ops_submit ops_resume ops_report ops_cancel : ops.
Lemma ops_program c : admitted_call c = true → all_ops counted (call_program cf c).
Proof. destruct c; intros Hc; try discriminate; unfold call_program, forget; ops. Qed.

(** A report changes nothing of the core. *)
Lemma report_core {S} `{!TaskStore S} o stage metrics reporter (w : World S) :
  w_core (run o (forget (report stage metrics reporter)) w).2 = w_core w.
Proof.
  unfold forget, report. destruct (checked_add _ _ _); [|done].
  cbn -[disk_write]. unfold on_store. by destruct (disk_write _ _ _).
Qed.

(** ** Work in flight *)

(** A thread that was counted: what it does before it leaves does not change
    the count, and leaving is the last thing it does. *)
Fixpoint flight_thread {A} (p : prog A) : Prop :=
  match p with
  | Ret _ => True
  | Step op k => (steady _ op ∧ ∀ x, flight_thread (k x)) ∨
                 (leaves op ∧ ∀ x, halted (k x) = true)
  end.

Lemma flight_bind {A B} (p : prog A) (f : A → prog B) :
  all_ops steady p → (∀ a, flight_thread (f a)) → flight_thread (p ≫= f).
Proof.
  intros Hp Hf. induction p as [a|X op k IH]; [apply Hf|]. destruct Hp as [Hop Hk]. left.
  split; [done|]. intros x. apply IH, Hk.
Qed.

Lemma flight_forget {A} (p : prog A) : flight_thread p → flight_thread (forget p).
Proof.
  induction p as [a|X op k IH]; [done|]. intros [[Hop Hk]|[Hop Hk]]; [left|right].
  - split; [done|]. intros x. apply IH, Hk.
  - split; [done|]. intros x. specialize (Hk x). by destruct (k x).
Qed.

Lemma flight_work fuel work : flight_thread (work_program cf fuel work).
Proof.
  destruct work as [id running r|key kind_id flight]; unfold work_program.
  - unfold run_spawned. apply flight_bind; [ops|]. intros _. right. by split.
  - apply flight_forget. unfold run_external_cancel. apply flight_bind; [ops|]. intros [r|]; [|done].
    apply flight_bind; [ops|]. intros _. right. by split.
Qed.

(** ** What an operation does to the count *)

Context {S : Type} `{TS : !TaskStore S}.
Implicit Types (w : World S).

Lemma perform_core o {X} (op : Op X) w :
  w_core (perform o op w).2 = match op with OpCore _ f => (f (w_core w)).2 | _ => w_core w end.
Proof.
  destruct op; unfold perform, on_store; by repeat case_match.
Qed.

Lemma perform_steady o {X} (op : Op X) w (co := w_core w) (co' := w_core (perform o op w).2) :
  steady X op →
  co_in_flight co' = co_in_flight co ∧ co_spawned co' = co_spawned co ∧
  co_owner_released co' = co_owner_released co ∧
  (co_shutting_down co = true → co_shutting_down co' = true).
Proof. subst co co'. rewrite perform_core. by destruct op. Qed.

Lemma perform_counted o {X} (op : Op X) w (co := w_core w) (co' := w_core (perform o op w).2) n :
  counted X op →
  (N.of_nat (length (co_spawned co)) + n <= co_in_flight co →
   N.of_nat (length (co_spawned co')) + n <= co_in_flight co')%N ∧
  co_owner_released co' = co_owner_released co ∧
  (co_shutting_down co = true → co_shutting_down co' = true).
Proof.
  subst co co'. rewrite perform_core. destruct op as [| | | | | | | | |X f| | | | |]; try done.
  intros [Hf|[work Hf]].
  - destruct (Hf (w_core w)) as (-> & -> & -> & Hs). done.
  - rewrite (Hf (w_core w)). cbn. rewrite length_app. cbn. split_and!; [lia|done|done].
Qed.

Lemma perform_leaves o {X} (op : Op X) w (co := w_core w) (co' := w_core (perform o op w).2) :
  leaves op →
  co_in_flight co' = (co_in_flight co - 1)%N ∧ co_spawned co' = co_spawned co ∧
  co_owner_released co' = co_owner_released co ∧ co_shutting_down co' = co_shutting_down co.
Proof. subst co co'. rewrite perform_core. destruct op; try done. intros Hf. by rewrite Hf. Qed.

Lemma perform_silent o {X} (op : Op X) w :
  silent X op → steady X op ∧ w_store (perform o op w).2 = w_store w.
Proof.
  destruct op as [| | | | | | | | |X f| | | | |]; try done. intros Hf. split; [done|].
  unfold perform. by destruct (f (w_core w)).
Qed.

(** ** Stopped calls *)

(** A thread that writes nothing once the service is shutting down. *)
Fixpoint idle {A} (p : prog A) : Prop :=
  match p with
  | Ret _ => True
  | Step op k => silent _ op ∧
      ∀ o (w : World S), co_shutting_down (w_core w) = true → idle (k (perform o op w).1)
  end.

Lemma idle_halted {A} (p : prog A) : halted p = true → idle p.
Proof. by destruct p. Qed.

Lemma idle_forget {A} (p : prog A) : idle p → idle (forget p).
Proof.
  induction p as [a|X op k IH]; [done|]. intros [Hop Hk]. split; [done|].
  intros o w Hw. apply IH, Hk, Hw.
Qed.

(** Every admitted call looks at the flag before anything else it does. *)
Lemma idle_call c : admitted_call c = true → idle (call_program cf c).
Proof.
  destruct c; intros Hc; try done; apply idle_forget; (split; [keeps|]); intros o w Hw; simpl;
    destruct (co_fault (w_core w)) as [m|]; try exact I; (split; [keeps|]);
    intros o2 w2 Hw2; simpl; rewrite Hw2; exact I.
Qed.
End operations.
