(* ===== verification/ServiceResources.v ===== *)
(** * Who holds a reservation

    The scheduler reserves resources for a task and hands the reservation to
    the attempt it spawns; the attempt gives it back, also when the store fails
    or its code panics.  A program that holds a reservation gives it back or
    hands it over on every path; in the running service every reservation of
    the ledger has such a holder. *)

From S2P Require Import Prelude TaskState Model Engine RetryPolicy Requests Handlers MemoryStore.
From S2P Require Import MemoryInvariant MemoryPreservation MemoryHistory MemoryQueries TaskStore.
From S2P Require Import Programs ServiceMonad Service ServiceLogic ServiceSpecs ServiceScheduler.
From S2P Require Import ServicePool ShutdownThreads.

Section resources.
Context `{ET : !ExternalTypes, SJ : !SnapshotJson, CT : !CodecTypes, MW : !MetadataWire,
          HF : !HandlerFutures, EX : !ErrorTexts}.
Context (cf : ServiceConfig).
Implicit Types (r : N) (co : ServiceCore).

(** The ledger has the reservation; it waits with work that was spawned. *)
Definition held r co : Prop := is_Some (rl_allocations (co_ledger co) !! r).
Definition waits r co : Prop := ∃ id running, SpawnRun id running r ∈ co_spawned co.

Definition as_core {X} (op : Op X) : option (ServiceCore → X * ServiceCore) :=
  match op with OpCore _ f => Some f | _ => None end.

(** On every path the program gives [r] back or hands it over. *)
Fixpoint gives_back {A} r (p : prog A) : Prop :=
  match p with
  | Ret _ => False
  | Step op k =>
      match as_core op with
      | Some f => ∀ co, ¬ held r (f co).2 ∨ waits r (f co).2 ∨ gives_back r (k (f co).1)
      | None => ∀ x, gives_back r (k x)
      end
  end.

(** Whatever the program reserves it gives back, and it takes no work away. *)
Fixpoint honest {A} (p : prog A) : Prop :=
  match p with
  | Ret _ => True
  | Step op k =>
      match as_core op with
      | Some f => ∀ co,
          (∀ r, held r (f co).2 → held r co ∨ waits r (f co).2 ∨ gives_back r (k (f co).1)) ∧
          (∀ r, waits r co → waits r (f co).2) ∧ honest (k (f co).1)
      | None => ∀ x, honest (k x)
      end
  end.

(** ** Sequences *)

Lemma holds_first {A B} r (p : prog A) (f : A → prog B) : gives_back r p → gives_back r (p ≫= f).
Proof.
  induction p as [a|X op k IH]; [done|]. cbn. destruct (as_core op) as [h|].
  - intros Hh co. destruct (Hh co) as [?|[?|?]]; [by left|by right; left|right; right; by apply IH].
  - intros Hh x. by apply IH.
Qed.
Lemma holds_then {A B} r (p : prog A) (f : A → prog B) : (∀ a, gives_back r (f a)) → gives_back r (p ≫= f).
Proof.
  intros Hf. induction p as [a|X op k IH]; [apply Hf|]. cbn. destruct (as_core op) as [h|].
  - intros co. right. right. apply IH.
  - intros x. apply IH.
Qed.
Lemma holds_release r : gives_back r (release r).
Proof.
  intros co. left. unfold held, release_reservation. cbn.
  destruct (rl_allocations (co_ledger co) !! r) eqn:Hr; cbn;
    [rewrite lookup_delete_eq|rewrite Hr]; by intros [? [=]].
Qed.
Lemma holds_spawn r id running : gives_back r (spawn (SpawnRun id running r)).
Proof. intros co. right. left. exists id, running. cbn. set_solver. Qed.

Lemma honest_bind {A B} (p : prog A) (f : A → prog B) :
  honest p → (∀ a, honest (f a)) → honest (p ≫= f).
Proof.
  intros Hp Hf. induction p as [a|X op k IH]; [apply Hf|]. cbn in *. destruct (as_core op) as [h|].
  - intros co. destruct (Hp co) as (H1 & H2 & H3). split_and!; [|done|by apply IH].
    intros r Hr. destruct (H1 r Hr) as [?|[?|?]]; [by left|by right; left|].
    right. right. by apply holds_first.
  - intros x. apply IH, Hp.
Qed.

Lemma core_assoc {X A B} (h : ServiceCore → X * ServiceCore) (k : X → prog A) (f : A → prog B) :
  (core h ≫= k) ≫= f = core h ≫= (λ x, k x ≫= f).
Proof. done. Qed.
Lemma honest_core {X A} (h : ServiceCore → X * ServiceCore) (k : X → prog A) :
  (∀ co, (∀ r, held r (h co).2 → held r co ∨ waits r (h co).2 ∨ gives_back r (k (h co).1)) ∧
         (∀ r, waits r co → waits r (h co).2) ∧ honest (k (h co).1)) →
  honest (core h ≫= k).
Proof. done. Qed.

(** ** Programs that reserve nothing *)

Definition frugal X (op : Op X) : Prop :=
  match op with
  | OpCore _ f => ∀ co, rl_allocations (co_ledger (f co).2) ⊆ rl_allocations (co_ledger co) ∧
                        co_spawned co ⊆ co_spawned (f co).2
  | _ => True
  end.

Lemma frugal_honest {A} (p : prog A) : all_ops frugal p → honest p.
Proof.
  induction p as [a|X op k IH]; [done|]. intros [Hop Hk]. cbn.
  destruct op as [| | | | | | | | |X f| | | | |]; try (intros x; by apply IH). intros co. cbn in *.
  destruct (Hop co) as [Ha Hs]. split_and!; [| |by apply IH].
  - intros r [a Hr]. left. exists a. by eapply lookup_weaken.
  - intros r (id & running & Hin). exists id, running. by apply Hs.
Qed.

Lemma frugal_core {X} (f : ServiceCore → X * ServiceCore) :
  (∀ co, co_ledger (f co).2 = co_ledger co ∧ co_spawned co ⊆ co_spawned (f co).2) →
  all_ops frugal (core f).
Proof. intros Hf. apply all_ops_call. intros co. destruct (Hf co) as [-> ?]. done. Qed.
Lemma frugal_release r : all_ops frugal (release r).
Proof.
  apply all_ops_call. intros co. cbn. split; [|done]. unfold release_reservation.
  destruct (_ !! r); [apply delete_subseteq|done].
Qed.

Ltac frugal_step :=
  match goal with
  | |- all_ops _ (Ret _) => exact I
  | |- all_ops _ (_ ≫= _) => apply all_ops_bind; [|intros ?]
  | |- all_ops _ (unless_panic _ _) => apply all_ops_bind; [|intros [|]]
  | |- all_ops _ (try_bind _ _) => apply all_ops_bind; [|intros [?|?]]
  | |- all_ops _ (call _) => apply all_ops_call; exact I
  | |- all_ops _ (release _) => apply frugal_release
  | |- all_ops _ (match ?x with _ => _ end) => destruct x
  | |- all_ops _ (core _) =>
      apply frugal_core; intros ?; repeat case_match; split; solve [done | cbn; set_solver]
  | |- all_ops _ (read_core _) => apply frugal_core; intros ?; split; done
  | |- all_ops _ (modify_core _) =>
      apply frugal_core; intros ?; repeat case_match; split; solve [done | cbn; set_solver]
  end.
Ltac frugal := repeat (frugal_step || solve [eauto with frugal]).
Create HintDb frugal.

Lemma frugal_latch e : all_ops frugal (latch_fault e).
Proof. unfold latch_fault, request_shutdown. frugal. Qed.
#[local] Hint Resolve frugal_latch : frugal.
Lemma frugal_store_result {A} (res : result A StoreError) : all_ops frugal (store_result res).
Proof. unfold store_result. frugal. Qed.
#[local] Hint Resolve frugal_store_result : frugal.
Lemma frugal_competing id v : all_ops frugal (check_competing_transition id v).
Proof. unfold check_competing_transition. frugal. Qed.
#[local] Hint Resolve frugal_competing : frugal.
Lemma frugal_mark_blocked t reason : all_ops frugal (mark_blocked t reason).
Proof. unfold mark_blocked. frugal. Qed.
Lemma frugal_finish started state output retryable :
  all_ops frugal (finish cf started state output retryable).
Proof. unfold finish. frugal. Qed.
#[local] Hint Resolve frugal_mark_blocked frugal_finish : frugal.
Lemma frugal_spawn work : all_ops frugal (spawn work).
Proof. unfold spawn. frugal. Qed.
#[local] Hint Resolve frugal_spawn : frugal.
Lemma frugal_persist fuel id a gone done e written :
  all_ops frugal (persist_request fuel id a gone done e written).
Proof. induction fuel as [|fuel IH]; [exact I|]. cbn [persist_request]. frugal. Qed.
#[local] Hint Resolve frugal_persist : frugal.
Lemma frugal_cancel id : all_ops frugal (cancel cf id).
Proof.
  unfold cancel, cancel_running, start_or_join_external_cancel, check_fault, refuses_work. frugal.
Qed.
#[local] Hint Resolve frugal_cancel : frugal.
Lemma frugal_call c : all_ops frugal (call_program cf c).
Proof.
  destruct c; unfold call_program, forget, submit, submission_store_result, resume_blocked, report,
    request_shutdown, check_fault, refuses_work; frugal.
Qed.
Lemma frugal_run_one id running r : all_ops frugal (run_one cf id running r).
Proof. unfold run_one, attempt_panicked. frugal. Qed.
#[local] Hint Resolve frugal_run_one : frugal.
Lemma frugal_leave : all_ops frugal leave_flight.
Proof. unfold leave_flight. frugal. Qed.
#[local] Hint Resolve frugal_leave : frugal.
Lemma frugal_work fuel work : all_ops frugal (work_program cf fuel work).
Proof.
  destruct work; unfold work_program, forget, run_spawned, run_external_cancel,
    external_cancel_result, announce_request, confirm_request, record_external_cancel_failure,
    settle_flight; frugal.
Qed.

(** ** Those that hold a reservation *)

(** An attempt gives its reservation back, however it ends. *)
Lemma holds_attempt id running r : gives_back r (run_one cf id running r).
Proof.
  assert (∀ A (unwind body : prog A), gives_back r unwind → gives_back r body → gives_back r (unless_panic unwind body))
    as Hpanic by (intros A unwind body Hu Hb; apply holds_then; by intros []).
  pose proof (holds_release r) as Hr.
  assert (gives_back r (release r;; attempt_panicked id)) as Hunwind by (by apply holds_first).
  unfold run_one. apply Hpanic; [done|]. apply holds_then. intros [[task|]|e];
    [|done|by apply holds_then].
  destruct (negb _); [done|]. destruct (prepare _ _ _ _) as [prepared|e]; cycle 1.
  { apply Hpanic; [done|]. by apply holds_then. }
  apply holds_then. intros _. apply Hpanic; [done|]. apply holds_then. intros [latest|e];
    [|by apply holds_then].
  apply holds_then. intros _. apply holds_then. intros execution. apply holds_then. intros _.
  by apply holds_first.
Qed.

(** A grant adds the reservation it returns, and nothing else. *)
Lemma prepare_adds request l r :
  let '(res, l') := try_prepare_typed (cf_capacity cf) request l in
  is_Some (rl_allocations l' !! r) → is_Some (rl_allocations l !! r) ∨ res = Ok r.
Proof.
  unfold try_prepare_typed. destruct (unsatisfiable _ _); [by left|].
  destruct (negb _); [by left|]. destruct (rl_next_token l) as [token|]; [|by left].
  destruct (checked_add _ _ _); [|by left]. cbn. intros [a [[<- _]|[_ Ha]]%lookup_insert_Some]; [by right|left; by exists a].
Qed.

(** The scheduler holds what it reserves until it gives it back or spawns. *)
Lemma honest_reserve summary fairness {B} (f : option N * ResourceFairness → prog B) :
  (∀ r f', gives_back r (f (Some r, f'))) → (∀ x, honest (f x)) →
  honest (reserve_task_resources cf summary fairness ≫= f).
Proof.
  intros Hf Hall. unfold reserve_task_resources. rewrite core_assoc. apply honest_core. intros co.
  pose proof (prepare_adds (ts_resource_limit summary) (co_ledger co)) as Hadd.
  destruct (try_prepare_typed _ _ _) as [res ledger]. cbn [fst snd]. split_and!.
  - intros r Hr. destruct (Hadd r Hr) as [?| ->]; [by left|]. right. right. apply Hf.
  - done.
  - destruct res as [token|[]]; try apply Hall; (apply honest_bind; [|apply Hall]);
      apply frugal_honest; frugal.
Qed.

Lemma honest_record summary fairness saw : honest (scan_record cf summary fairness saw).
Proof.
  unfold scan_record. apply honest_bind; [apply frugal_honest; unfold scan_stops; frugal|].
  intros []; [done|]. apply honest_bind; [done|]. intros []; [done|].
  apply honest_bind; [apply frugal_honest; unfold dispatch_is_eligible; frugal|].
  intros []; [|done]. cbn [negb]. apply honest_reserve.
  - intros r f'. destruct (bypass_exhausted _ _ _); [apply holds_first, holds_release|].
    apply holds_then. intros []; [apply holds_first, holds_release|].
    apply holds_then. intros now. apply holds_then. intros []; [apply holds_first, holds_release|].
    apply holds_then. intros [running|[]]; apply holds_first;
      first [apply holds_release|apply holds_spawn].
  - intros [[r|] f']; [|done]. apply frugal_honest. frugal.
Qed.

Lemma honest_records l fairness saw : honest (scan_records cf l fairness saw).
Proof.
  revert fairness saw. induction l as [|t l IH]; intros fairness saw; [done|].
  apply honest_bind; [apply honest_record|]. intros []; [apply IH|done..].
Qed.

Lemma honest_pages fuel now after fairness saw :
  honest (scan_pages cf fuel now after fairness saw).
Proof.
  revert after fairness saw. induction fuel as [|fuel IH]; intros after fairness saw; [done|].
  cbn [scan_pages]. apply honest_bind; [apply frugal_honest; unfold scan_pauses; frugal|].
  intros []; [done|]. apply honest_bind; [done|]. intros []; [done|].
  apply honest_bind; [done|]. intros [page|e]; [|done].
  apply honest_bind; [apply honest_records|].
  intros [f1 saw1|f1 saw1|f1 e]; [..|done]; (apply honest_bind;
    [apply frugal_honest; unfold scan_stops; frugal|]); (intros []; [done|]);
    (destruct (pg_next page); [apply IH|done]).
Qed.

Lemma honest_scheduler fuel pages fairness : honest (scheduler_loop cf fuel pages fairness).
Proof.
  revert fairness. induction fuel as [|fuel IH]; intros fairness; [done|].
  cbn [scheduler_loop]. apply honest_bind; [apply frugal_honest; frugal|]. intros []; [done|].
  apply honest_bind; [apply frugal_honest; frugal|]. intros fault. destruct (is_some fault); [done|].
  apply honest_bind; [apply frugal_honest; frugal|]. intros in_flight. apply honest_bind.
  { destruct (_ <? _); [|done]. apply honest_bind; [done|]. intros now. apply honest_pages. }
  intros [[[[] f1]|[e f1]]|]; [apply IH| |apply frugal_honest; frugal|done].
  apply honest_bind; [done|]. intros now. apply honest_bind; [done|].
  intros []; [apply frugal_honest; frugal|]. apply honest_bind; [done|].
  intros [deadline|e]; [apply IH|apply frugal_honest; frugal].
Qed.

Lemma honest_work fuel work : honest (work_program cf fuel work).
Proof. apply frugal_honest, frugal_work. Qed.

(** ** The running service *)

Context {S : Type} `{TS : !TaskStore S, TL : !TaskStoreLaws S}.
Implicit Types (g : Ghost (S := S)) (P : Pool (S := S)).

(** One step of a thread. *)
Lemma step_resources {A} o {X} (op : Op X) (k : X → prog A) g
    (x := (gperform o op g).1) (co := gcore g) (co' := gcore (gperform o op g).2) :
  (∀ r, gives_back r (Step op k) → held r co' → waits r co' ∨ gives_back r (k x)) ∧
  (honest (Step op k) → honest (k x) ∧ (∀ r, waits r co → waits r co') ∧
     ∀ r, held r co' → held r co ∨ waits r co' ∨ gives_back r (k x)).
Proof.
  assert (match as_core op with
          | Some f => x = (f co).1 ∧ co' = (f co).2
          | None => co' = co
          end) as Hx.
  { subst x co co'. unfold gperform, gcore. pose proof (perform_core o op (g_world g)) as Hc.
    destruct (perform o op (g_world g)) as [y w] eqn:Hp. cbn in Hc |- *.
    destruct op as [| | | | | | | | |X f| | | | |]; try exact Hc.
    cbn in Hp |- *. destruct (f (w_core (g_world g))). by simplify_eq. }
  cbn [gives_back honest]. destruct (as_core op) as [f|].
  - destruct Hx as [-> ->]. split; [|by intros (? & ? & ?)%(λ H, H co)].
    intros r Hh Hr. destruct (Hh co) as [?|?]; [done|done].
  - rewrite Hx. split; [by intros; right|]. intros Hh. split_and!; [done|done|by left].
Qed.

Lemma act_scheduler_step o P P' :
  act cf (ActScheduler o) P = Some P' → ∃ X (op : Op X) k, p_scheduler P = Step op k.
Proof. cbn [act]. destruct (p_scheduler P) as [|X op k]; [done|]. intros _. by exists X, op, k. Qed.
Lemma act_thread_step i o P P' :
  act cf (ActThread i o) P = Some P' → ∃ X (op : Op X) k, p_threads P !! i = Some (Step op k).
Proof.
  cbn [act]. destruct (p_threads P !! i) as [[|X op k]|]; [done| |done]. intros _. by exists X, op, k.
Qed.

(** Some program of the list gives [r] back. *)
Definition one_gives_back r (l : list (prog unit)) : Prop := ∃ i p, l !! i = Some p ∧ gives_back r p.

Lemma some_holds_insert r i (p p' : prog unit) l :
  l !! i = Some p → one_gives_back r l → one_gives_back r (<[i := p']> l) ∨ gives_back r p.
Proof.
  intros Hi (j & q & Hj & Hq). destruct (decide (j = i)) as [->|Hne].
  - right. by rewrite Hi in Hj; injection Hj as ->.
  - left. exists j, q. by rewrite list_lookup_insert_ne.
Qed.
Lemma some_holds_here r i (p p' : prog unit) l :
  l !! i = Some p → gives_back r p' → one_gives_back r (<[i := p']> l).
Proof. intros Hi%lookup_lt_Some Hp. exists i, p'. by rewrite list_lookup_insert_eq. Qed.
Lemma some_holds_app r (p : prog unit) l : one_gives_back r l ∨ gives_back r p → one_gives_back r (l ++ [p]).
Proof.
  intros [(i & q & Hi & Hq)|Hp].
  - exists i, q. by rewrite lookup_app_l by (by eapply lookup_lt_Some).
  - exists (length l), p. by rewrite lookup_app_r, Nat.sub_diag by done.
Qed.

(** The programs keep their word, and every reservation has a holder. *)
Record tidy P : Prop := {
  td_scheduler : honest (p_scheduler P);
  td_threads : Forall honest (p_threads P);
  td_held : ∀ r, held r (gcore (p_ghost P)) →
    waits r (gcore (p_ghost P)) ∨ gives_back r (p_scheduler P) ∨ one_gives_back r (p_threads P);
}.

Lemma tidy_scheduler o P P' : tidy P → act cf (ActScheduler o) P = Some P' → tidy P'.
Proof.
  intros [Hs Ht Hh] Ha. destruct (act_scheduler_step _ _ _ Ha) as (X & op & k & Hp).
  rewrite (act_scheduler cf o op k P Hp) in Ha. injection Ha as <-. rewrite Hp in Hs, Hh.
  destruct (step_resources o op k (p_ghost P)) as [H1 H2]. destruct (H2 Hs) as (H3 & H4 & H5).
  split; cbn [p_scheduler p_threads p_ghost]; [done|done|]. intros r Hr.
  destruct (H5 r Hr) as [Hold|[?|?]]; [|by left|by right; left].
  destruct (Hh r Hold) as [?|[Hk|?]]; [left; by apply H4| |by right; right].
  destruct (H1 r Hk Hr); [by left|by right; left].
Qed.

Lemma tidy_thread i o P P' : tidy P → act cf (ActThread i o) P = Some P' → tidy P'.
Proof.
  intros [Hs Ht Hh] Ha. destruct (act_thread_step _ _ _ _ Ha) as (X & op & k & Hp).
  rewrite (act_thread cf i o op k P Hp) in Ha. injection Ha as <-.
  destruct (step_resources o op k (p_ghost P)) as [H1 H2].
  destruct (H2 (Forall_lookup_1 _ _ _ _ Ht Hp)) as (H3 & H4 & H5).
  split; cbn [p_scheduler p_threads p_ghost]; [done|by apply Forall_insert|]. intros r Hr.
  destruct (H5 r Hr) as [Hold|[?|?]]; [|by left|by right; right; eapply some_holds_here].
  destruct (Hh r Hold) as [?|[?|Hq]]; [left; by apply H4|by right; left|].
  destruct (some_holds_insert r i _ (k (gperform o op (p_ghost P)).1) _ Hp Hq) as [?|Hk];
    [by right; right|].
  destruct (H1 r Hk Hr); [by left|by right; right; eapply some_holds_here].
Qed.

(** Work that is taken up brings its reservation along. *)
Lemma tidy_spawn fuel i P P' : tidy P → act cf (ActSpawn fuel i) P = Some P' → tidy P'.
Proof.
  intros [Hs Ht Hh] Ha. cbn [act] in Ha. unfold take_work in Ha.
  destruct (co_spawned (gcore (p_ghost P)) !! i) as [work|] eqn:Hw; [|done]. injection Ha as <-.
  split; cbn [p_scheduler p_threads p_ghost]; [done|..].
  { apply Forall_app. split; [done|]. apply Forall_singleton, honest_work. }
  intros r Hr. destruct (Hh r Hr) as [(id & running & Hin)|[?|?]];
    [|by right; left|right; right; apply some_holds_app; by left].
  rewrite (delete_Permutation _ _ _ Hw) in Hin. apply elem_of_cons in Hin as [Heq|Hin].
  - right. right. apply some_holds_app. right. subst work. apply holds_first, holds_attempt.
  - left. by exists id, running.
Qed.

Lemma tidy_step P P' : tidy P → pool_step cf P P' → tidy P'.
Proof.
  intros Hp Hstep. destruct Hstep as [a P P' _ _ Ha].
  destruct a as [o|i o|c|fuel i|before rows|s];
    [by eapply tidy_scheduler|by eapply tidy_thread| |by eapply tidy_spawn| |];
    destruct Hp as [Hs Ht Hh]; injection Ha as <-; split; cbn [p_scheduler p_threads p_ghost]; try done.
  - apply Forall_app. split; [done|]. apply Forall_singleton, frugal_honest, frugal_call.
  - intros r Hr. destruct (Hh r Hr) as [?|[?|?]]; [by left|by right; left|].
    right. right. apply some_holds_app. by left.
Qed.

Lemma service_tidy P : service_reachable cf P → tidy P.
Proof.
  intros (fuel & pages & s & _ & Hr). assert (tidy (service_start cf fuel pages s)) as H0.
  { split; [apply honest_scheduler|done|]. cbn. by intros r [a Ha]. }
  revert H0. induction Hr as [P|P1 P2 P3 Hstep _ IH]; [done|]. intros H1. by eapply IH, tidy_step.
Qed.

(** When everything has come to its end, every reservation has been given back. *)
Lemma service_idle P :
  service_reachable cf P → halted (p_scheduler P) = true → forallb halted (p_threads P) = true →
  co_spawned (gcore (p_ghost P)) = [] → rl_allocations (co_ledger (gcore (p_ghost P))) = ∅.
Proof.
  intros Hr Hs Ht Hw. apply map_empty. intros r. apply eq_None_not_Some. intros Hheld.
  destruct (td_held _ (service_tidy P Hr) r Hheld) as [(id & running & Hin)|[Hh|(i & p & Hi & Hh)]].
  - rewrite Hw in Hin. by apply not_elem_of_nil in Hin.
  - by destruct (p_scheduler P).
  - assert (halted p = true) as Hp.
    { rewrite forallb_forall in Ht. apply Ht, list_elem_of_In. by eapply list_elem_of_lookup_2. }
    by destruct p.
Qed.
End resources.
