(* ===== verification/ShutdownInvariant.v ===== *)
(** * Shutdown: the invariant

    What holds in every state of the supervised service: past each barrier of
    the supervisor the threads it waited for are done, or stop before they
    write; the ownership of the store is released, in the hands of the guard or
    of the cleanup thread, or its loss has been reported; every caller of
    [shutdown] waits for a result that is there or that the supervisor is about
    to produce. *)

From S2P Require Import Prelude TaskState Model Engine RetryPolicy Requests Handlers MemoryStore.
From S2P Require Import MemoryInvariant MemoryPreservation MemoryHistory MemoryQueries TaskStore.
From S2P Require Import Programs StoreOwner ServiceMonad Service ServicePool Shutdown ShutdownThreads.

(** The fields of a state after a step. *)
Ltac fields :=
  unfold update_core, lf_core in *;
  cbn [set_threads set_world set_supervisor set_callers set_ownership set_lifetime write_store
       lf_world lf_scheduler lf_calls lf_works lf_supervisor lf_owner_guard lf_close_error
       lf_progress lf_public_gone lf_callers lf_cleanup lf_owned lf_reported lf_underway w_core w_store
       fst snd] in *.

Section invariant.
Context `{ET : !ExternalTypes, SJ : !SnapshotJson, CT : !CodecTypes, MW : !MetadataWire,
          HF : !HandlerFutures, EX : !ErrorTexts}.
Context {S : Type} `{TS : !TaskStore S, OS : !OwnedStore S}.
Context (cf : ServiceConfig).
Implicit Types (l : Life (S := S)).

(** ** The store and the write under way *)

Lemma land_write o l :
  land o l = write_store (w_store (lf_world (land o l))) (lf_underway (land o l)) l.
Proof.
  unfold land. destruct (lf_underway l) as [[X op]|] eqn:Hu; [done|]. rewrite Hu.
  destruct l as [[]]. cbn in Hu. by subst.
Qed.
Lemma land_none o l : lf_underway (land o l) = None.
Proof. unfold land. by destruct (lf_underway l) as [[X op]|] eqn:Hu. Qed.

(** A release changes the store and what runs in it, nothing else. *)
Lemma release_write call epoch l :
  let l' := (store_release call epoch l).2 in
  l' = write_store (w_store (lf_world l')) (lf_underway l') l ∧
  (lf_underway l' = lf_underway l ∨ lf_underway l' = None) ∧
  (is_ok (store_release call epoch l).1 = true → lf_underway l' = None).
Proof.
  destruct call as [e|o unlock]; cbn [store_release fst snd].
  { split_and!; [by destruct l as [[]]|by left|done]. }
  destruct (do_release _ _ _) as [r s']. cbn. rewrite land_none. split_and!; [|by right|done].
  by rewrite land_write.
Qed.

Lemma release_rest call l (l' := release_store_owner call l) :
  lf_progress l' = lf_progress l ∧ lf_callers l' = lf_callers l ∧
  lf_public_gone l' = lf_public_gone l ∧ lf_scheduler l' = lf_scheduler l ∧
  lf_calls l' = lf_calls l ∧ lf_works l' = lf_works l ∧
  ∃ e, lf_supervisor l' = PublishOutcome e.
Proof.
  subst l'. unfold release_store_owner. destruct (lf_owner_guard l) as [[epoch|]|]; [| |by eauto 10].
  - destruct (release_write call epoch l) as [Hw _]. destruct (store_release call epoch l) as [r l1].
    cbn [fst snd] in Hw. rewrite Hw. cbn [guard_release]. destruct r; fields; eauto 10.
  - cbn. fields. eauto 10.
Qed.

(** ** Barriers *)

Definition phase_rank (phase : SupervisorPhase) : nat :=
  match phase with
  | WaitForShutdownRequest => 0 | StopScheduler => 1 | WaitForScheduler => 2
  | WaitForActiveOperations => 3 | CloseNotificationPublisher => 4
  | ReleaseStoreOwner | PublishOutcome _ | AwaitRetry | SupervisorDone => 5
  end.
Definition rank l : nat := phase_rank (lf_supervisor l).

Ltac life := unfold rank in *; fields.

(** How many of the spawned threads still run. *)
Definition running (works : list (prog unit)) : nat :=
  length (filter (λ p, halted p = false) works).

Lemma running_cons p works : running (p :: works) = ((if halted p then 0 else 1) + running works)%nat.
Proof. unfold running. rewrite filter_cons. by destruct (halted p). Qed.
Lemma running_app works works' : running (works ++ works') = (running works + running works')%nat.
Proof. unfold running. by rewrite filter_app, length_app. Qed.

Lemma running_insert works i p p' :
  works !! i = Some p → halted p = false →
  running works = (running (<[i := Ret tt]> works) + 1)%nat ∧
  (running (<[i := p']> works) ≤ running works)%nat ∧
  (halted p' = true → running (<[i := p']> works) = running (<[i := Ret tt]> works)).
Proof.
  intros Hi Hp. pose proof (lookup_lt_Some _ _ _ Hi) as Hlt. rewrite !insert_take_drop by done.
  assert (running works = running (take i works ++ p :: drop (Datatypes.S i) works)) as ->
    by by rewrite take_drop_middle.
  rewrite !running_app, !running_cons, Hp. cbn [halted].
  destruct (halted p') eqn:H; split_and!; intros; lia || done.
Qed.

Lemma running_0 works i p : running works = 0%nat → works !! i = Some p → halted p = true.
Proof.
  intros H Hi. destruct (halted p) eqn:Hp; [done|].
  destruct (running_insert works i p p Hi Hp) as [? _]. lia.
Qed.

Record threads_ok l : Prop := {
  ok_scheduler : all_ops counted (lf_scheduler l);
  ok_calls : Forall (all_ops counted) (lf_calls l);
  ok_works : Forall flight_thread (lf_works l);
  ok_count : (N.of_nat (length (co_spawned (lf_core l))) + N.of_nat (running (lf_works l))
              <= co_in_flight (lf_core l))%N;
  ok_stopping : (1 ≤ rank l)%nat → co_shutting_down (lf_core l) = true;
  ok_idle : (2 ≤ rank l)%nat → Forall (idle (S := S)) (lf_calls l);
  ok_stopped : (3 ≤ rank l)%nat → halted (lf_scheduler l) = true;
  ok_drained : (4 ≤ rank l)%nat → co_spawned (lf_core l) = [] ∧ running (lf_works l) = 0%nat;
}.

(** The threads do not depend on the callers and on the owner. *)
Lemma threads_frame l l' :
  lf_world l' = lf_world l → lf_scheduler l' = lf_scheduler l → lf_calls l' = lf_calls l →
  lf_works l' = lf_works l → lf_supervisor l' = lf_supervisor l → threads_ok l → threads_ok l'.
Proof.
  unfold lf_core. intros Ew Es Ec Ek Ep [H1 H2 H3 H4 H5 H6 H7 H8].
  unfold lf_core, rank in *. rewrite <-Ew, <-?Es, <-?Ec, <-?Ek, <-?Ep in *. by constructor.
Qed.

Lemma threads_write s underway l : threads_ok l → threads_ok (write_store s underway l).
Proof. intros []. by constructor. Qed.
Lemma threads_land o l : threads_ok l → threads_ok (land o l).
Proof. rewrite land_write. apply threads_write. Qed.

(** A step of the core that keeps the count. *)
Lemma threads_core l f :
  (∀ co, co_in_flight (f co) = co_in_flight co ∧ co_spawned (f co) = co_spawned co ∧
         (co_shutting_down co = true → co_shutting_down (f co) = true)) →
  threads_ok l → threads_ok (update_core f l).
Proof.
  intros Hf [H1 H2 H3 H4 H5 H6 H7 H8]. destruct (Hf (lf_core l)) as (Hn & Hs & Hd).
  constructor; life; rewrite ?Hn, ?Hs; auto.
Qed.

Lemma threads_scheduler l o {X} (op : Op X) k :
  lf_scheduler l = Step op k → threads_ok l →
  threads_ok (set_threads (perform o op (lf_world l)).2 (k (perform o op (lf_world l)).1)
                (lf_calls l) (lf_works l) l).
Proof.
  intros El [H1 H2 H3 H4 H5 H6 H7 H8]. rewrite El in H1, H7. destruct H1 as [Hop Hk].
  assert (rank l ≤ 2)%nat as Hr by (destruct (decide (3 ≤ rank l)%nat) as [h|]; [by specialize (H7 h)|lia]).
  destruct (perform_counted o op (lf_world l) (N.of_nat (running (lf_works l))) Hop) as (Hn & _ & Hd).
  constructor; life; auto; intros; lia.
Qed.

Lemma threads_call l i o {X} (op : Op X) k :
  lf_calls l !! i = Some (Step op k) → threads_ok l →
  threads_ok (set_threads (perform o op (lf_world l)).2 (lf_scheduler l)
                (<[i := k (perform o op (lf_world l)).1]> (lf_calls l)) (lf_works l) l).
Proof.
  intros Ei [H1 H2 H3 H4 H5 H6 H7 H8].
  destruct (Forall_lookup_1 _ _ _ _ H2 Ei) as [Hop Hk].
  destruct (perform_counted o op (lf_world l) (N.of_nat (running (lf_works l))) Hop) as (Hn & _ & Hd).
  constructor; life; auto.
  - apply Forall_insert; [done|apply Hk].
  - intros Hr. apply Forall_insert; [by apply H6|].
    destruct (Forall_lookup_1 _ _ _ _ (H6 Hr) Ei) as [_ Hi]. apply Hi, H5. lia.
  - intros Hr. destruct (H8 Hr) as [Hs Hw]. split; [|done].
    destruct (Forall_lookup_1 _ _ _ _ (H6 ltac:(lia)) Ei) as [Hi _].
    destruct (perform_silent o op (lf_world l) Hi) as [Hst _].
    destruct (perform_steady o op (lf_world l) Hst) as (_ & Hs' & _). congruence.
Qed.

Lemma threads_work l i o {X} (op : Op X) k :
  lf_works l !! i = Some (Step op k) → threads_ok l →
  threads_ok (set_threads (perform o op (lf_world l)).2 (lf_scheduler l) (lf_calls l)
                (<[i := k (perform o op (lf_world l)).1]> (lf_works l)) l).
Proof.
  intros Ei [H1 H2 H3 H4 H5 H6 H7 H8].
  assert (rank l ≤ 3)%nat as Hr.
  { destruct (decide (4 ≤ rank l)%nat) as [h|]; [|lia]. destruct (H8 h) as [_ Hw].
    by pose proof (running_0 _ _ _ Hw Ei). }
  destruct (running_insert _ _ _ (k (perform o op (lf_world l)).1) Ei eq_refl) as (Hone & Hle & Hhalt).
  unfold lf_core in *.
  destruct (Forall_lookup_1 _ _ _ _ H3 Ei) as [[Hop Hk]|[Hop Hk]].
  - destruct (perform_steady o op (lf_world l) Hop) as (En & Es & _ & Hd).
    constructor; life; auto; try (intros; lia).
    + apply Forall_insert; [done|apply Hk].
    + rewrite En, Es. lia.
  - destruct (perform_leaves o op (lf_world l) Hop) as (En & Es & _ & Hd).
    specialize (Hk (perform o op (lf_world l)).1).
    constructor; life; auto; try (intros; lia).
    + apply Forall_insert; [done|]. by destruct (k _).
    + rewrite En, Es. specialize (Hhalt Hk). lia.
Qed.

Lemma spawn_count n m k c :
  (0 < n)%nat → (k ≤ 1)%nat → (N.of_nat n + N.of_nat m <= c)%N →
  (N.of_nat (n - 1) + N.of_nat (m + (k + 0)) <= c)%N.
Proof. lia. Qed.

Lemma threads_spawn l fuel i work :
  co_spawned (lf_core l) !! i = Some work → threads_ok l →
  let l' := update_core (λ co, set_in_flight (co_in_flight co) (delete i (co_spawned co)) co) l in
  threads_ok (set_threads (lf_world l') (lf_scheduler l') (lf_calls l')
                (lf_works l' ++ [work_program cf fuel work]) l').
Proof.
  intros Ei [H1 H2 H3 H4 H5 H6 H7 H8]. cbv zeta.
  assert (rank l ≤ 3)%nat as Hr.
  { destruct (decide (4 ≤ rank l)%nat) as [h|]; [|lia]. destruct (H8 h) as [Hw _].
    rewrite Hw in Ei. done. }
  pose proof (length_delete _ _ (mk_is_Some _ _ Ei)) as Hl.
  pose proof (lookup_lt_Some _ _ _ Ei) as Hlt.
  constructor; life; cbn [set_in_flight co_spawned co_in_flight co_shutting_down]; auto;
    try (intros; lia).
  - apply Forall_app_2; [done|]. repeat constructor. apply flight_work.
  - rewrite running_app, running_cons, Hl. change (running []) with 0%nat.
    apply spawn_count; [lia| |done]. case_match; lia.
Qed.

Lemma threads_phase l phase :
  (phase_rank phase ≤ Datatypes.S (rank l))%nat →
  match phase with
  | StopScheduler => co_shutting_down (lf_core l) = true
  | WaitForScheduler => forallb halted (lf_calls l) = true
  | WaitForActiveOperations => halted (lf_scheduler l) = true
  | CloseNotificationPublisher => co_in_flight (lf_core l) = 0%N
  | _ => (phase_rank phase ≤ rank l)%nat ∨ rank l = 4%nat
  end → threads_ok l → threads_ok (set_supervisor phase l).
Proof.
  intros Hle Hph [H1 H2 H3 H4 H5 H6 H7 H8].
  constructor; life; auto; intros Hr; destruct phase; cbn [phase_rank] in *; try (by auto); try lia;
    try (apply H5; lia); try (apply H7; lia); try (apply H8; lia); try (apply H6; lia).
  - apply Forall_forall. intros p Hp. apply idle_halted.
    eapply forallb_forall in Hph; [done|]. by apply list_elem_of_In.
  - rewrite Hph in H4. split; [apply length_zero_iff_nil|]; lia.
Qed.

Lemma threads_release l call :
  (4 ≤ rank l)%nat → threads_ok l → threads_ok (release_store_owner call l).
Proof.
  intros Hr H. unfold release_store_owner. destruct (lf_owner_guard l) as [guard|].
  - set (x := match guard with Some epoch => _ | None => _ end).
    assert (threads_ok x.2 ∧ rank x.2 = rank l) as [Hx Hrx].
    { subst x. destruct guard as [epoch|]; [|done].
      rewrite (proj1 (release_write call epoch l)). split; [by apply threads_write|done]. }
    destruct x as [answer l1]. cbn in Hx, Hrx.
    destruct (guard_release answer guard) as [[?|e] guard'].
    + apply threads_phase; [cbn; life; lia|life; cbn; lia|].
      apply threads_core; [done|]. by apply (threads_frame l1).
    + apply threads_phase; [cbn; life; lia|life; cbn; lia|]. by apply (threads_frame l1).
  - apply threads_phase; [cbn; lia|cbn; life; lia|done].
Qed.

Lemma threads_supervisor l close call accepts l' :
  shutdown_supervisor close call accepts l = Some l' → threads_ok l → threads_ok l'.
Proof.
  unfold shutdown_supervisor. intros Hs H.
  destruct (lf_supervisor l) as [| | | | | |release_error| |] eqn:Ep; repeat case_match; simplify_eq;
    try (apply threads_release; [unfold rank; rewrite Ep; cbn; lia|done]);
    apply threads_phase; life; rewrite ?Ep; cbn; try lia; try done;
    try (by apply (threads_frame l)); try (unfold drop_owner_guard; repeat case_match);
    life; rewrite ?Ep; cbn; try lia; try (by apply (threads_frame l)).
  - unfold scheduler_stopped in *. by destruct (lf_scheduler l).
Qed.

Lemma threads_panicked l accepts l' :
  supervisor_panicked accepts l = Some l' → threads_ok l → threads_ok l'.
Proof.
  unfold supervisor_panicked, drop_owner_guard. intros Hs H.
  destruct (lf_supervisor l) eqn:Ep; simplify_eq;
    (apply threads_phase; repeat case_match; life; rewrite ?Ep; cbn; try lia;
     by apply (threads_frame l)).
Qed.

Lemma threads_step l l' : life_step cf l l' → threads_ok l → threads_ok l'.
Proof.
  destruct 1 as [a l l' Ha]. intros H. unfold life_act in Ha.
  destruct a as [o|c|i o|i running|o|fuel i|i o|i stage metrics reporter o| | |i|i| |close call accepts|accepts|i call].
  - destruct (lf_scheduler l) as [|X op k] eqn:El; [done|].
    rewrite (surjective_pairing (perform _ _ _)) in Ha. simplify_eq. by apply threads_scheduler.
  - case_match eqn:Hc; [done|]. simplify_eq. apply orb_false_iff in Hc as [_ Hc%negb_false_iff].
    destruct H as [H1 H2 H3 H4 H5 H6 H7 H8]. constructor; life; auto.
    + apply Forall_app_2; [done|]. repeat constructor. by apply ops_program.
    + intros Hr. apply Forall_app_2; [by apply H6|]. repeat constructor. by apply idle_call.
  - destruct (lf_calls l !! i) as [[|X op k]|] eqn:Ei; [done| |done].
    rewrite (surjective_pairing (perform _ _ _)) in Ha. simplify_eq. by apply threads_call.
  - destruct (lf_calls l !! i) as [p|] eqn:Ei; [|done].
    assert (threads_ok (set_threads (lf_world l) (lf_scheduler l) (delete i (lf_calls l)) (lf_works l) l))
      as Hdel.
    { destruct H as [H1 H2 H3 H4 H5 H6 H7 H8]. constructor; life; auto; [by apply Forall_delete|].
      intros Hr. by apply Forall_delete, H6. }
    repeat case_match; simplify_eq; [by apply threads_write|done].
  - case_match; [|done]. injection Ha as <-. by apply threads_land.
  - destruct (co_spawned (lf_core l) !! i) as [work|] eqn:Ei; [|done]. injection Ha as <-.
    by apply threads_spawn.
  - destruct (lf_works l !! i) as [[|X op k]|] eqn:Ei; [done| |done].
    rewrite (surjective_pairing (perform _ _ _)) in Ha. simplify_eq. by apply threads_work.
  - destruct (lf_works l !! i) as [[|X op k]|] eqn:Ei; [done| |done]. injection Ha as <-.
    destruct H as [H1 H2 H3 H4 H5 H6 H7 H8].
    pose proof (report_core o stage metrics reporter (lf_world l)) as Hc.
    revert Hc. generalize (run (W := World S) o (forget (report stage metrics reporter)) (lf_world l)).2.
    intros w' Hc.
    constructor; life; rewrite ?Hc; auto.
  - injection Ha as <-. by apply threads_core.
  - repeat case_match; simplify_eq. by apply (threads_frame l).
  - destruct (lf_callers l !! i) as [[attempt|]|]; [|done..].
    apply bind_Some in Ha as (outcome & _ & Ha). injection Ha as <-. by apply (threads_frame l).
  - destruct (lf_callers l !! i); simplify_eq. by apply (threads_frame l).
  - case_match; simplify_eq. apply threads_core; [done|]. by apply (threads_frame l).
  - by apply threads_supervisor in Ha.
  - by apply threads_panicked in Ha.
  - destruct (lf_cleanup l !! i) as [epoch|]; simplify_eq. unfold cleanup_job.
    pose proof (proj1 (release_write call epoch l)) as Hw.
    destruct (store_release call epoch l) as [r l1]. cbn in Hw.
    apply (threads_frame l1); [done..|]. rewrite Hw. by apply threads_write.
Qed.

(** ** Ownership and callers *)

Record owner_ok l : Prop := {
  own_guard : match lf_owner_guard l with
    | Some (Some _) => lf_cleanup l = [] ∧ lf_reported l = false ∧ lf_owned l = true
    | Some None => lf_cleanup l = [] ∧ lf_reported l = false ∧ lf_owned l = false
    | None => lf_supervisor l = SupervisorDone ∧
              (lf_owned l = true → lf_cleanup l ≠ [] ∨ lf_reported l = true) ∧
              (length (lf_cleanup l) ≤ 1)%nat ∧ (lf_owned l = false → lf_cleanup l = [])
    end;
  own_slot : lf_owned l = false → lf_underway l = None;
  own_flag : co_owner_released (lf_core l) = true → lf_owned l = false;
  own_rank : lf_owned l = false → rank l = 5%nat;
  own_publish : lf_supervisor l = PublishOutcome None → co_owner_released (lf_core l) = true;
  own_complete : ShutdownComplete ∈ sp_results (lf_progress l) →
                 co_owner_released (lf_core l) = true;
}.

(** How many results there are: one less than attempts, while one is due. *)
Definition progress_ok (phase : SupervisorPhase) (gone : bool) (p : ShutdownProgress) : Prop :=
  match phase with
  | AwaitRetry => sp_retryable_release p = true ∧
      length (sp_results p) =
        if sp_retry_requested p then sp_attempt p else Datatypes.S (sp_attempt p)
  | SupervisorDone => gone = true ∨
      (length (sp_results p) = Datatypes.S (sp_attempt p) ∧ sp_retryable_release p = false)
  | _ => length (sp_results p) = sp_attempt p
  end.
Definition caller_ok (gone : bool) (p : ShutdownProgress) (c : Caller) : Prop :=
  match c with
  | WaitingFor attempt => (attempt ≤ sp_attempt p)%nat ∧ gone = false
  | Answered r => ∃ outcome, outcome ∈ sp_results p ∧ r = into_result outcome
  end.
Record callers_ok l : Prop := {
  ok_progress : progress_ok (lf_supervisor l) (lf_public_gone l) (lf_progress l);
  ok_callers : Forall (caller_ok (lf_public_gone l) (lf_progress l)) (lf_callers l);
}.

(** What the threads of the service do not touch. *)
Definition rest l :=
  (lf_supervisor l, lf_owner_guard l, lf_close_error l, lf_progress l, lf_public_gone l,
   lf_callers l, (lf_cleanup l, lf_owned l, lf_reported l, co_owner_released (lf_core l))).

Lemma rest_ok l l' :
  rest l' = rest l → (lf_owned l = false → lf_underway l = None → lf_underway l' = None) →
  owner_ok l ∧ callers_ok l → owner_ok l' ∧ callers_ok l'.
Proof.
  intros Hr Hslot [[H1 Hs H2 H3 H4 H5] [H6 H7]]. unfold rest in Hr.
  injection Hr as E1 E2 E3 E4 E5 E6 E7 E8 E9 E10.
  split; constructor; unfold rank in *; rewrite ?E1, ?E2, ?E3, ?E4, ?E5, ?E6, ?E7, ?E8, ?E9, ?E10; auto.
Qed.

Definition thread_action (a : LifeAction) : bool :=
  match a with
  | LifeScheduler _ | LifeCall _ | LifeCallStep _ _ | LifeAbandonCall _ _ | LifeLand _ | LifeSpawn _ _
  | LifeWorkStep _ _ | LifeReport _ _ _ _ _ | LifeRequest => true
  | _ => false
  end.

Lemma rest_threads a l l' :
  threads_ok l → thread_action a = true → life_act cf a l = Some l' → rest l' = rest l.
Proof.
  intros [H1 H2 H3 _ _ _ _ _] Ht Ha. destruct a as [o|c|i o|i running|o|fuel i|i o|i stage metrics reporter o| | |i|i| |cl an ac|ac|i an];
    try discriminate; unfold life_act in Ha.
  - destruct (lf_scheduler l) as [|X op k]; [done|].
    rewrite (surjective_pairing (perform _ _ _)) in Ha. injection Ha as <-.
    destruct (perform_counted o op (lf_world l) 0 (proj1 H1)) as (_ & Ho & _).
    unfold rest. life. by rewrite Ho.
  - case_match; simplify_eq. done.
  - destruct (lf_calls l !! i) as [[|X op k]|] eqn:Ei; [done| |done].
    rewrite (surjective_pairing (perform _ _ _)) in Ha. injection Ha as <-.
    destruct (perform_counted o op (lf_world l) 0 (proj1 (Forall_lookup_1 _ _ _ _ H2 Ei)))
      as (_ & Ho & _). unfold rest. life. by rewrite Ho.
  - by repeat case_match; simplify_eq.
  - case_match; [|done]. injection Ha as <-. by rewrite land_write.
  - destruct (co_spawned (lf_core l) !! i); [|done]. by injection Ha as <-.
  - destruct (lf_works l !! i) as [[|X op k]|] eqn:Ei; [done| |done].
    rewrite (surjective_pairing (perform _ _ _)) in Ha. injection Ha as <-.
    assert (co_owner_released (w_core (perform o op (lf_world l)).2)
            = co_owner_released (w_core (lf_world l))) as Ho.
    { destruct (Forall_lookup_1 _ _ _ _ H3 Ei) as [[Hop _]|[Hop _]].
      - by destruct (perform_steady o op (lf_world l) Hop) as (_ & _ & Ho & _).
      - by destruct (perform_leaves o op (lf_world l) Hop) as (_ & _ & Ho & _). }
    unfold rest. life. by rewrite Ho.
  - destruct (lf_works l !! i) as [[|X op k]|] eqn:Ei; [done| |done]. injection Ha as <-.
    pose proof (report_core o stage metrics reporter (lf_world l)) as Hc.
    revert Hc. generalize (run (W := World S) o (forget (report stage metrics reporter)) (lf_world l)).2.
    intros w' Hc.
    unfold rest. life. by rewrite Hc.
  - by injection Ha as <-.
Qed.

(** Past the admission barrier no call has a write to leave behind. *)
Lemma idle_next_write {A} (p : prog A) : idle (S := S) p → next_write p = None.
Proof. destruct p as [|X op k]; [done|]. intros [Hs _]. by destruct op. Qed.

Lemma underway_threads a l l' :
  threads_ok l → (2 ≤ rank l)%nat → thread_action a = true → life_act cf a l = Some l' →
  lf_underway l' = lf_underway l ∨ lf_underway l' = None.
Proof.
  intros Ht Hr Hta Ha.
  destruct a as [o|c|i o|i running|o|fuel i|i o|i stage metrics reporter o| | |i|i| |cl an ac|ac|i an];
    try discriminate; unfold life_act in Ha.
  4: { destruct (lf_calls l !! i) as [p|] eqn:Ei; [|done].
       pose proof (idle_next_write _ (Forall_lookup_1 _ _ _ _ (ok_idle _ Ht Hr) Ei)) as Hn.
       rewrite Hn in Ha. left. by repeat case_match; simplify_eq. }
  4: { case_match; [|done]. injection Ha as <-. right. apply land_none. }
  all: left; by repeat case_match; simplify_eq.
Qed.

Lemma owner_phase l phase :
  lf_supervisor l ≠ SupervisorDone → (rank l = 5%nat → phase_rank phase = 5%nat) →
  (phase = PublishOutcome None → co_owner_released (lf_core l) = true) →
  owner_ok l → owner_ok (set_supervisor phase l).
Proof.
  intros Hd Hr Hp [H1 Hs H2 H3 H4 H5]. constructor; life; auto.
  destruct (lf_owner_guard l) as [[e|]|]; [done..|]. by destruct H1.
Qed.

Lemma owner_release l call :
  lf_supervisor l = ReleaseStoreOwner → owner_ok l → owner_ok (release_store_owner call l).
Proof.
  intros Ep [H1 Hs H2 H3 H4 H5]. unfold release_store_owner.
  destruct (lf_owner_guard l) as [[e|]|] eqn:Eg; [| |destruct H1; congruence].
  - destruct (release_write call e l) as (Hw & _ & Hslot).
    destruct (store_release call e l) as [answer l1]. cbn [fst snd] in Hw, Hslot. rewrite Hw.
    destruct H1 as (Hc & Hr & Ho).
    cbn [guard_release is_some andb]. destruct answer as [u|err]; constructor; life; cbn; auto; try done.
    congruence.
  - cbn [guard_release is_some andb]. constructor; life; cbn; try done; auto.
    by destruct H1 as (_ & _ & ?).
Qed.

Lemma outcome_complete fault release_error close :
  release_outcome fault release_error close = ShutdownComplete → release_error = None.
Proof. by destruct fault, release_error, close. Qed.

Lemma owner_outcome l release_error :
  lf_supervisor l = PublishOutcome release_error → owner_ok l →
  owner_ok (set_callers (push_outcome (release_outcome (co_fault (lf_core l)) release_error
    (lf_close_error l)) (is_some release_error) (lf_progress l)) (lf_callers l) l).
Proof.
  intros Ep [H1 Hs H2 H3 H4 H5]. constructor; life; auto. cbn [push_outcome sp_results].
  intros [Hin|Hin%list_elem_of_singleton]%elem_of_app; [by apply H5|]. apply H4.
  symmetry in Hin. apply outcome_complete in Hin. congruence.
Qed.

Lemma owner_dropped l accepts : lf_supervisor l ≠ SupervisorDone → owner_ok l →
  owner_ok (set_supervisor SupervisorDone (drop_owner_guard accepts l)).
Proof.
  intros Ep [H1 Hs H2 H3 H4 H5]. unfold drop_owner_guard.
  destruct (lf_owner_guard l) as [[e|]|] eqn:Eg; [| |destruct H1; congruence].
  - destruct H1 as (Hc & Hl & Ho). unfold guard_drop. rewrite Hc.
    destruct accepts; constructor; life; auto; try done;
      (split_and!; [done| |cbn; lia|congruence]); intros _; by first [left|right].
  - cbn [guard_drop]. constructor; life; auto; try done. destruct H1 as (Hc & _ & ->). rewrite Hc.
    split_and!; [done|done|cbn; lia|done].
Qed.

Lemma owner_supervisor l close call accepts l' :
  shutdown_supervisor close call accepts l = Some l' → owner_ok l → owner_ok l'.
Proof.
  unfold shutdown_supervisor. intros Hs H.
  destruct (lf_supervisor l) as [| | | | | |release_error| |] eqn:Ep.
  6: { injection Hs as <-. by apply owner_release. }
  6: { injection Hs as <-. pose proof (owner_outcome _ _ Ep H).
       apply owner_phase; [life; congruence|by destruct release_error..|done]. }
  5: { injection Hs as <-. apply owner_phase; life; [congruence|by rewrite Ep|done|].
       by destruct H; constructor. }
  all: repeat case_match; simplify_eq; try (apply owner_dropped; congruence || done);
    (apply owner_phase; life; [congruence|by rewrite Ep|done|done]).
Qed.

Lemma owner_panicked l accepts l' :
  supervisor_panicked accepts l = Some l' → callers_ok l → owner_ok l → owner_ok l'.
Proof.
  intros Hs [Hp _] H. unfold supervisor_panicked in Hs.
  assert (lf_supervisor l ≠ SupervisorDone) as Hd by (intros E; by rewrite E in Hs).
  assert (length (sp_results (lf_progress l)) = sp_attempt (lf_progress l)) as Hlen
    by (destruct (lf_supervisor l); done).
  destruct (owner_dropped l accepts Hd H) as [H1 Hu H2 H3 H4 H5].
  assert (lf_progress (drop_owner_guard accepts l) = lf_progress l) as Ed
    by (unfold drop_owner_guard; by repeat case_match).
  assert (l' = set_callers (panic_progress (lf_progress l)) (lf_callers (drop_owner_guard accepts l))
                 (set_supervisor SupervisorDone (drop_owner_guard accepts l))) as ->
    by (rewrite <-Ed; destruct (lf_supervisor l); by simplify_eq).
  constructor; life; auto. unfold panic_progress. rewrite Hlen, Nat.eqb_refl. cbn [sp_results].
  rewrite Ed in H5. intros [Hin|Hin%list_elem_of_singleton]%elem_of_app; [by apply H5|done].
Qed.

(** Results are only added. *)
Lemma caller_mono gone p p' c :
  (sp_attempt p ≤ sp_attempt p')%nat → sp_results p `prefix_of` sp_results p' →
  caller_ok gone p c → caller_ok gone p' c.
Proof.
  intros Ha [more Hr]. destruct c as [attempt|r]; cbn.
  - intros [? ->]. split; [lia|done].
  - intros (outcome & Hin & ->). exists outcome. split; [|done]. rewrite Hr. set_solver.
Qed.

Lemma callers_phase l phase :
  progress_ok phase (lf_public_gone l) (lf_progress l) → callers_ok l →
  callers_ok (set_supervisor phase l).
Proof. intros Hp [H1 H2]. by constructor. Qed.

Lemma callers_supervisor l close call accepts l' :
  shutdown_supervisor close call accepts l = Some l' → callers_ok l → callers_ok l'.
Proof.
  unfold shutdown_supervisor. intros Hs H. pose proof (ok_progress l H) as Hp.
  destruct (lf_supervisor l) as [| | | | | |release_error| |] eqn:Ep; cbn [progress_ok] in Hp.
  1-4: case_match; simplify_eq; by apply callers_phase.
  - injection Hs as <-. apply callers_phase; [done|]. by destruct H; constructor.
  - injection Hs as <-. destruct H as [_ H].
    destruct (release_rest call l) as (E1 & E2 & E3 & _ & _ & _ & e & E4).
    constructor; by rewrite ?E1, ?E2, ?E3, ?E4.
  - injection Hs as <-. destruct H as [_ H]. constructor; life.
    + destruct release_error; cbn; rewrite length_app, Hp; cbn; rewrite Nat.add_1_r; auto.
    + eapply Forall_impl; [exact H|]. intros c. apply caller_mono; cbn; [done|]. by eexists.
  - destruct (lf_public_gone l) eqn:Eg.
    + injection Hs as <-. unfold drop_owner_guard. destruct H as [_ H].
      repeat case_match; constructor; life; rewrite ?Eg in *; cbn; auto.
    + case_match eqn:Er; simplify_eq. apply callers_phase; [|done]. cbn. by destruct Hp.
  - done.
Qed.

(** A panicking supervisor owes a result, so no result is overwritten. *)
Lemma panicked_due l accepts l' :
  supervisor_panicked accepts l = Some l' → callers_ok l →
  length (sp_results (lf_progress l)) = sp_attempt (lf_progress l) ∧
  lf_progress l' = panic_progress (lf_progress l) ∧ lf_callers l' = lf_callers l ∧
  lf_public_gone l' = lf_public_gone l ∧ lf_supervisor l' = SupervisorDone.
Proof.
  unfold supervisor_panicked, drop_owner_guard. intros Hs [Hp _].
  destruct (lf_supervisor l); try done; (split; [exact Hp|]); repeat case_match; by simplify_eq.
Qed.
Lemma panic_results p :
  length (sp_results p) = sp_attempt p →
  sp_results (panic_progress p) =
    sp_results p ++ [ShutdownStoreUnavailable "typed task shutdown supervisor panicked"].
Proof. intros H. unfold panic_progress. by rewrite H, Nat.eqb_refl. Qed.

Lemma callers_panicked l accepts l' :
  supervisor_panicked accepts l = Some l' → callers_ok l → callers_ok l'.
Proof.
  intros Hs H. destruct (panicked_due _ _ _ Hs H) as (Hlen & Ep & Ec & Eg & Es).
  destruct H as [_ H]. pose proof (panic_results _ Hlen) as Hr. constructor; rewrite Ep, Eg, ?Es, ?Ec.
  - right. split; [|done]. rewrite Hr, length_app, Hlen. cbn. lia.
  - eapply Forall_impl; [exact H|]. intros c. apply caller_mono; [done|]. rewrite Hr. by eexists.
Qed.

(** ** Every step *)

Lemma join_keeps p attempt p' : join_attempt p = (attempt, p') → sp_results p' = sp_results p.
Proof. unfold join_attempt. case_match; intros ?; by simplify_eq. Qed.

Lemma callers_join l attempt p :
  lf_public_gone l = false → join_attempt (lf_progress l) = (attempt, p) → callers_ok l →
  callers_ok (set_callers p (lf_callers l ++ [WaitingFor attempt]) l).
Proof.
  intros Hg Hj [H1 H2]. unfold join_attempt in Hj.
  case_match eqn:Hc; simplify_eq.
  - apply andb_true_iff in Hc as [Hr Hlt%Nat.ltb_lt]. constructor; life; rewrite ?Hg in *.
    + destruct (lf_supervisor l); cbn in *; try lia.
      destruct H1 as [_ H1]. destruct (sp_retry_requested (lf_progress l)); [lia|done].
    + apply Forall_app_2; [|by repeat constructor]. eapply Forall_impl; [exact H2|]. intros c.
      apply caller_mono; cbn; [lia|done].
  - constructor; life; rewrite ?Hg in *; [done|]. apply Forall_app_2; [done|]. by repeat constructor.
Qed.

Record life_ok l : Prop := {
  life_threads : threads_ok l;
  life_owner : owner_ok l;
  life_callers : callers_ok l;
}.

Lemma life_ok_start fuel pages epoch w :
  w_core w = core_new → life_ok (life_start cf fuel pages epoch w).
Proof.
  intros Hw. destruct w as [s co]. cbn in Hw. subst co.
  repeat constructor; try done; cbn; try lia; try set_solver. apply ops_scheduler.
Qed.

Lemma owner_cleaning l i epoch :
  owner_ok l → lf_cleanup l !! i = Some epoch → rank l = 5%nat ∧ lf_owned l = true.
Proof.
  intros [H1 _ _ _ _ _] Ei.
  destruct (lf_owner_guard l) as [g|];
    [by destruct g; destruct H1 as [H1 _]; rewrite H1 in Ei|]. destruct H1 as (Hd & _ & _ & Hown).
  split; [unfold rank; by rewrite Hd|]. destruct (lf_owned l); [done|]. by rewrite Hown in Ei.
Qed.

Lemma owner_cleanup l i epoch answer s underway :
  lf_cleanup l !! i = Some epoch → (is_ok answer = true → underway = None) → owner_ok l →
  owner_ok (set_ownership (lf_owner_guard l) (delete i (lf_cleanup l))
    (if is_ok (E := StoreError) (A := unit) answer then false else lf_owned l) (lf_reported l || negb (is_ok answer))
    (write_store s underway l)).
Proof.
  intros Ei Hslot [H1 Hu H2 H3 H4 H5].
  destruct (lf_owner_guard l) as [g|] eqn:Eg;
    [by destruct g; destruct H1 as [H1 _]; rewrite H1 in Ei|]. destruct H1 as (Hd & H1 & Hlen & Hown).
  assert (delete i (lf_cleanup l) = []) as Hnil.
  { apply length_zero_iff_nil. rewrite length_delete by by eexists.
    pose proof (lookup_lt_Some _ _ _ Ei). lia. }
  assert (lf_owned l = true) as Ho
    by (destruct (lf_owned l); [done|]; by rewrite Hown in Ei).
  constructor; life; rewrite ?Eg, ?Hnil; auto; destruct answer as [u|e]; cbn; auto; try congruence.
  - split_and!; [done| |lia|done]. intros _. right. apply orb_true_r.
  - intros _. by rewrite Hd.
Qed.

Lemma owner_step a l l' : life_act cf a l = Some l' → life_ok l → owner_ok l' ∧ callers_ok l'.
Proof.
  intros Ha [Ht Ho Hc]. destruct (thread_action a) eqn:Hta.
  { eapply rest_ok; [by eapply rest_threads| |done]. intros Hown Hn.
    assert (2 ≤ rank l)%nat as Hr by (rewrite (own_rank _ Ho Hown); lia).
    destruct (underway_threads a l l' Ht Hr Hta Ha); congruence. }
  destruct a as [| | | | | | | | | |i|i| |close call accepts|accepts|i call]; try done; unfold life_act in Ha.
  - destruct (lf_public_gone l) eqn:Hg; [done|].
    destruct (negb (co_shutting_down (lf_core l))); [done|].
    destruct (join_attempt (lf_progress l)) as [attempt p] eqn:Hj. injection Ha as <-.
    split; [|by apply callers_join]. apply join_keeps in Hj. destruct Ho as [H1 Hu H2 H3 H4 H5].
    constructor; life; rewrite ?Hj; auto.
  - destruct (lf_callers l !! i) as [[attempt|]|] eqn:Ei; [|done..].
    apply bind_Some in Ha as (outcome & Hr & Ha). injection Ha as <-.
    split; [by destruct Ho; constructor|]. destruct Hc as [H1 H2]. constructor; [done|].
    apply Forall_insert; [done|]. exists outcome. split; [|done]. by eapply list_elem_of_lookup_2.
  - destruct (lf_callers l !! i); [|done]. injection Ha as <-. split; [by destruct Ho; constructor|].
    destruct Hc as [H1 H2]. constructor; [done|]. by apply Forall_delete.
  - destruct (existsb waiting (lf_callers l)) eqn:Hw; [done|]. case_match; [done|]. injection Ha as <-.
    split; [by destruct Ho; constructor|]. destruct Hc as [H1 H2]. constructor; life.
    + destruct (lf_supervisor l); cbn in *; auto.
    + apply Forall_forall. intros c Hin. rewrite Forall_forall in H2. specialize (H2 c Hin).
      destruct c as [attempt|r]; [|exact H2]. exfalso.
      assert (existsb waiting (lf_callers l) = true) as Hw'; [|congruence].
      apply existsb_exists. exists (WaitingFor attempt). by rewrite <-list_elem_of_In.
  - split; [by eapply owner_supervisor|by eapply callers_supervisor].
  - split; [by eapply owner_panicked|by eapply callers_panicked].
  - destruct (lf_cleanup l !! i) as [epoch|] eqn:Ei; [|done]. injection Ha as <-.
    unfold cleanup_job. destruct (release_write call epoch l) as (Hw & _ & Hslot).
    destruct (store_release call epoch l) as [answer l1]. cbn [fst snd] in Hw, Hslot. rewrite Hw.
    split; [|by destruct Hc; constructor]. exact (owner_cleanup l i epoch answer _ _ Ei Hslot Ho).
Qed.

Lemma life_ok_step l l' : life_step cf l l' → life_ok l → life_ok l'.
Proof.
  intros Hs H. destruct (Hs) as [a l l' Ha]. destruct (owner_step a l l' Ha H).
  constructor; [|done..]. eapply threads_step; [exact Hs|apply H].
Qed.

Lemma life_ok_reachable l : life_reachable cf l → life_ok l.
Proof.
  intros (fuel & pages & epoch & w & Hw & Hr). pose proof (life_ok_start fuel pages epoch w Hw) as H.
  induction Hr as [|l1 l2 l3 Hstep _ IH]; [done|]. by apply IH, (life_ok_step l1).
Qed.
End invariant.
