(* ===== verification/ShutdownRefinement.v ===== *)
(** * Shutdown: the running service among its supervisor

    The supervised service of [Shutdown] follows the pool of threads of
    [ServicePool]: whatever calls, scheduler, work, reports, supervisor and
    cleanup thread do, some pool of the service does the same to the store and
    to the core.  A call that was dropped during a write goes on in the pool
    until the write is done; a release of the ownership is a step of others that
    leaves the tasks alone.  So what is proved of the tasks in the running
    service holds while it is shut down too. *)

From S2P Require Import Prelude TaskState Model Engine RetryPolicy Requests Handlers MemoryStore.
From S2P Require Import MemoryInvariant MemoryPreservation MemoryHistory MemoryQueries TaskStore.
From S2P Require Import Programs StoreOwner ServiceMonad Service ServiceLogic ServiceSpecs ServiceScheduler.
From S2P Require Import ServicePool Shutdown ShutdownThreads ShutdownInvariant.

(** ** Lists of threads *)

Lemma insert_Permutation {A} (l : list A) i x y :
  l !! i = Some x → <[i := y]> l ≡ₚ y :: delete i l.
Proof.
  intros Hi. pose proof (lookup_lt_Some _ _ _ Hi) as Hlt.
  rewrite insert_take_drop, delete_take_drop by done. symmetry. apply Permutation_middle.
Qed.

Lemma Permutation_replace {A} (l rest : list A) x y :
  l ≡ₚ x :: rest → ∃ i, l !! i = Some x ∧ <[i := y]> l ≡ₚ y :: rest.
Proof.
  intros Hp. assert (x ∈ l) as [i Hi]%list_elem_of_lookup_1 by (rewrite Hp; left).
  exists i. split; [done|]. rewrite (insert_Permutation l i x y Hi). constructor.
  apply (Permutation_cons_inv (a := x)). by rewrite <-Hp, <-(delete_Permutation l i x Hi).
Qed.

Section refinement.
Context `{ET : !ExternalTypes, SJ : !SnapshotJson, CT : !CodecTypes, MW : !MetadataWire,
          HF : !HandlerFutures, EX : !ErrorTexts}.
Context {S : Type} `{TS : !TaskStore S, TL : !TaskStoreLaws S, OS : !OwnedStore S, OL : !OwnedStoreLaws S}.
Context (cf : ServiceConfig).
Implicit Types (l : Life (S := S)) (P : Pool (S := S)).
Implicit Types (g : Ghost (S := S)).

(** Answers for calls that ask nothing. *)
Definition quiet_oracle : Oracle :=
  {| or_now := 0; or_id := Ok 0; or_run := λ _ _ _, None; or_hook := λ _, HookDone;
     or_disk := None; or_panics := false |}.

(** ** Lawful steps *)

(** The write of the store that a step performs, and with which answers from
    outside; a report writes nothing but progress. *)
Definition release_lands (call : ReleaseCall) l : option (Oracle * StoreWrite) :=
  match call with ReleaseReaches o _ => pair o <$> lf_underway l | ReleaseStopped _ => None end.
Definition life_write (a : LifeAction) l : option (Oracle * StoreWrite) :=
  match a with
  | LifeScheduler o => pair o <$> next_write (lf_scheduler l)
  | LifeCallStep i o => pair o <$> (lf_calls l !! i ≫= next_write)
  | LifeWorkStep i o => pair o <$> (lf_works l !! i ≫= next_write)
  | LifeLand o => pair o <$> lf_underway l
  | LifeSupervisor _ call _ =>
      match lf_supervisor l, lf_owner_guard l with
      | ReleaseStoreOwner, Some (Some _) => release_lands call l
      | _, _ => None
      end
  | LifeCleanup _ call => release_lands call l
  | _ => None
  end.

(** The identifier it gives out. *)
Definition accepts {X} (op : Op X) : option TaskId :=
  match op with OpAccept id _ => Some id | _ => None end.
Definition write_accepts (write : option (Oracle * StoreWrite)) : option TaskId :=
  match write with Some (_, StoreWriting _ op) => accepts op | None => None end.
Definition life_accepts (a : LifeAction) l : option TaskId := write_accepts (life_write a l).
Definition use (id : option TaskId) (used : gset TaskId) : gset TaskId :=
  from_option (λ id, {[id]} ∪ used) used id.

(** The identifiers given out, and the last summary with which the store has
    reported each task finished. *)
Record Notes := {
  nt_used : gset TaskId;
  nt_finished : gmap TaskId TaskSummary;
}.
Implicit Types (n : Notes).
Definition note_write (write : option (Oracle * StoreWrite)) (w : World S) n : Notes :=
  match write with
  | Some (o, StoreWriting _ op) =>
      {| nt_used := note_used op (nt_used n);
         nt_finished := note_finished op (perform o op w).1 (nt_finished n) |}
  | None => n
  end.
Definition notes_start (s : S) : Notes :=
  {| nt_used := dom (tasks_of s); nt_finished := omap finished_summary (tasks_of s) |}.

Definition life_room l : Prop := ∀ id, has_room id (tasks_of (w_store (lf_world l))).

(** The generator repeats no identifier and no counter is used up, as in
    [pool_step]. *)
Inductive lawful_step : relation (Life (S := S) * Notes) :=
| lawful a l l' n :
    life_room l → life_room l' →
    (∀ id, life_accepts a l = Some id → id ∉ nt_used n) →
    life_act cf a l = Some l' → lawful_step (l, n) (l', note_write (life_write a l) (lf_world l) n).

(** ** Steps of the pool *)

Definition op_write (o : Oracle) {X} (op : Op X) : option (Oracle * StoreWrite) :=
  if is_write op then Some (o, StoreWriting _ op) else None.

Lemma next_op_write o {A X} (op : Op X) (k : X → prog A) :
  pair o <$> next_write (Step op k) = op_write o op.
Proof. unfold op_write. cbn. by destruct (is_write op). Qed.

Lemma admissible_fresh o {X} (op : Op X) g :
  (∀ id, write_accepts (op_write o op) = Some id → id ∉ g_used g) → admissible op g.
Proof. destruct op; cbn; auto. Qed.

(** The ghost components of a pool, as notes. *)
Definition ghost_notes g : Notes := {| nt_used := g_used g; nt_finished := g_finished g |}.

Lemma gperform_world o {X} (op : Op X) g :
  (gperform o op g).1 = (perform o op (g_world g)).1 ∧
  g_world (gperform o op g).2 = (perform o op (g_world g)).2 ∧
  ghost_notes (gperform o op g).2 = note_write (op_write o op) (g_world g) (ghost_notes g).
Proof.
  unfold gperform. destruct (perform o op (g_world g)) as [x w] eqn:Hp.
  split_and!; [done..|]. unfold note_write, op_write, ghost_notes. destruct op; cbn [is_write]; try done;
    by rewrite Hp.
Qed.

(** One step of one of the threads, wherever it is in the pool. *)
Lemma pool_thread o {X} (op : Op X) k P rest :
  p_threads P ≡ₚ Step op k :: rest → room (p_ghost P) → admissible op (p_ghost P) →
  ∃ P', pool_step cf P P' ∧ p_ghost P' = (gperform o op (p_ghost P)).2 ∧
    p_scheduler P' = p_scheduler P ∧ p_threads P' ≡ₚ k (gperform o op (p_ghost P)).1 :: rest.
Proof.
  intros Hp Hroom Hadm.
  destruct (Permutation_replace _ _ _ (k (gperform o op (p_ghost P)).1) Hp) as (i & Hi & Hins).
  eexists. split.
  - apply (pool_act cf (ActThread i o)); [done| |].
    { unfold action_admissible. by rewrite Hi. }
    by apply act_thread.
  - done.
Qed.

(** A program that gives out no identifier and finishes no task, run to its end
    at once. *)
Definition unnoticed {X} (op : Op X) : bool :=
  match op with OpAccept _ _ | OpTransition _ => false | _ => true end.
Fixpoint undisturbed {A} (o : Oracle) (p : prog A) (w : World S) : Prop :=
  match p with
  | Ret _ => True
  | Step op k => (∀ id, has_room id (tasks_of (w_store w))) ∧ unnoticed op = true ∧
      undisturbed o (k (perform o op w).1) (perform o op w).2
  end.

Lemma unnoticed_notes o {X} (op : Op X) w n :
  unnoticed op = true → note_write (op_write o op) w n = n.
Proof. destruct n. by destruct op. Qed.

Lemma pool_runs o p P rest :
  p_threads P ≡ₚ p :: rest → undisturbed o p (g_world (p_ghost P)) →
  ∃ P', rtc (pool_step cf) P P' ∧
    g_world (p_ghost P') = (run (W := World S) o p (g_world (p_ghost P))).2 ∧
    ghost_notes (p_ghost P') = ghost_notes (p_ghost P) ∧ p_scheduler P' = p_scheduler P ∧
    ∃ q, p_threads P' ≡ₚ q :: rest.
Proof.
  revert P. induction p as [u|X op k IH]; intros P Hp Hu.
  { exists P. split_and!; [done..|]. by exists (Ret u). }
  destruct Hu as (Hroom & Hacc & Hk).
  assert (admissible op (p_ghost P)) as Hadm by by destruct op.
  destruct (pool_thread o op k P rest Hp Hroom Hadm) as (P1 & Hstep & Hg & Hs & Ht).
  destruct (gperform_world o op (p_ghost P)) as (Hx & Hw & Hnotes). rewrite Hx in Ht.
  destruct (IH (perform o op (g_world (p_ghost P))).1 P1) as (P' & Hr & Hw' & Hu' & Hs' & Hq).
  { done. }
  { by rewrite Hg, Hw. }
  exists P'. split; [by eapply rtc_l|].
  rewrite Hw', Hu', Hs', Hg, Hw, Hnotes, (unnoticed_notes o op _ _ Hacc).
  split_and!; [|done..]. cbn [run]. unfold on_machine, world_machine.
  by destruct (perform o op (g_world (p_ghost P))).
Qed.

(** A call that is started and runs to its end at once. *)
Lemma pool_call o c P :
  undisturbed o (call_program cf c) (g_world (p_ghost P)) →
  (∀ id, has_room id (tasks_of (w_store (g_world (p_ghost P))))) →
  ∃ P', rtc (pool_step cf) P P' ∧
    g_world (p_ghost P') = (run (W := World S) o (call_program cf c) (g_world (p_ghost P))).2 ∧
    ghost_notes (p_ghost P') = ghost_notes (p_ghost P) ∧ p_scheduler P' = p_scheduler P ∧
    ∃ q, p_threads P' ≡ₚ q :: p_threads P.
Proof.
  intros Hu Hroom.
  set (P1 := {| p_ghost := p_ghost P; p_scheduler := p_scheduler P;
                p_threads := p_threads P ++ [call_program cf c] |}).
  destruct (pool_runs o (call_program cf c) P1 (p_threads P)) as (P' & Hr & H).
  { cbn. by rewrite Permutation_app_comm. }
  { done. }
  exists P'. split; [|done]. eapply rtc_l; [|done]. by apply (pool_act cf (ActCall c)).
Qed.

(** ** The simulation *)

(** The pool has the threads of the service and those it has abandoned; one of
    these is about to do the write that is under way. *)
Definition at_write (underway : option StoreWrite) (rest : list (prog unit)) : Prop :=
  match underway with
  | None => True
  | Some (StoreWriting _ op) => is_write op = true ∧ ∃ k, Step op k ∈ rest
  end.
Record sim l n P : Prop := {
  sim_world : g_world (p_ghost P) = lf_world l;
  sim_notes : ghost_notes (p_ghost P) = n;
  sim_scheduler : p_scheduler P = lf_scheduler l;
  sim_threads : ∃ rest, p_threads P ≡ₚ (lf_calls l ++ lf_works l) ++ rest ∧
                        at_write (lf_underway l) rest;
}.

Lemma at_write_more underway p rest : at_write underway rest → at_write underway (p :: rest).
Proof.
  destruct underway as [[X op]|]; [|done]. intros [Hw [k Hk]]. split; [done|]. exists k. by right.
Qed.

Lemma perm_call {A} (calls works rest : list A) i p q :
  calls !! i = Some p →
  (calls ++ works) ++ rest ≡ₚ p :: ((delete i calls ++ works) ++ rest) ∧
  (<[i := q]> calls ++ works) ++ rest ≡ₚ q :: ((delete i calls ++ works) ++ rest).
Proof.
  intros Hi. split; [by rewrite (delete_Permutation calls i p Hi) at 1|].
  by rewrite (insert_Permutation calls i p q Hi).
Qed.
Lemma perm_work {A} (calls works rest : list A) i p q :
  works !! i = Some p →
  (calls ++ works) ++ rest ≡ₚ p :: ((calls ++ delete i works) ++ rest) ∧
  (calls ++ <[i := q]> works) ++ rest ≡ₚ q :: ((calls ++ delete i works) ++ rest).
Proof.
  intros Hi. split.
  - rewrite (delete_Permutation works i p Hi) at 1. by rewrite <-Permutation_middle.
  - rewrite (insert_Permutation works i p q Hi). by rewrite <-Permutation_middle.
Qed.

(** A step of one of the threads. *)
Lemma sim_thread o {X} (op : Op X) k l n P rest l' :
  sim l n P → life_room l → (∀ id, write_accepts (op_write o op) = Some id → id ∉ nt_used n) →
  p_threads P ≡ₚ Step op k :: rest →
  lf_world l' = (perform o op (lf_world l)).2 → lf_scheduler l' = lf_scheduler l →
  (∃ rest', k (perform o op (lf_world l)).1 :: rest ≡ₚ (lf_calls l' ++ lf_works l') ++ rest' ∧
            at_write (lf_underway l') rest') →
  ∃ P', rtc (pool_step cf) P P' ∧ sim l' (note_write (op_write o op) (lf_world l) n) P'.
Proof.
  intros [Hw Hn Hs _] Hroom Hfresh Hp Hw' Hs' (rest' & Ht & Hat).
  assert (admissible op (p_ghost P)) as Hadm by (apply (admissible_fresh o op); by rewrite <-Hn in Hfresh).
  destruct (pool_thread o op k P rest Hp) as (P' & Hstep & Hg & Hsch & Hth);
    [unfold room, gtasks; by rewrite Hw|done|].
  destruct (gperform_world o op (p_ghost P)) as (Hx & Hgw & Hgn). rewrite Hw in Hx, Hgw, Hgn.
  exists P'. split; [by apply rtc_once|]. split.
  - by rewrite Hg, Hgw, Hw'.
  - by rewrite Hg, Hgn, Hn.
  - by rewrite Hsch, Hs, Hs'.
  - exists rest'. split; [|done]. by rewrite Hth, Hx, Ht.
Qed.

(** The write under way is done by the thread that the call has left. *)
Lemma sim_land o l n P :
  sim l n P → life_room l →
  (∀ id, write_accepts (pair o <$> lf_underway l) = Some id → id ∉ nt_used n) →
  ∃ P', rtc (pool_step cf) P P' ∧
    sim (land o l) (note_write (pair o <$> lf_underway l) (lf_world l) n) P'.
Proof.
  intros Hsim Hroom Hfresh. destruct (sim_threads _ _ _ Hsim) as (rest & Ht & Hat). unfold land.
  destruct (lf_underway l) as [[X op]|] eqn:Hu; [|by exists P]. destruct Hat as [Hwr [k Hk]].
  apply list_elem_of_lookup_1 in Hk as [i Hk]. rewrite (delete_Permutation _ _ _ Hk) in Ht.
  assert (Some (o, StoreWriting X op) = op_write o op) as He by (unfold op_write; by rewrite Hwr).
  change (pair o <$> Some (StoreWriting X op)) with (Some (o, StoreWriting X op)) in *. rewrite He in *.
  eapply (sim_thread o op k l n P); [done|done|done| | |done|].
  - rewrite Ht. symmetry. apply Permutation_middle.
  - cbn. destruct op; try done; unfold perform, on_store; by destruct (disk_write _ _ _).
  - exists (k (perform o op (lf_world l)).1 :: delete i rest). split; [|done].
    cbn. by rewrite Permutation_middle.
Qed.

(** A call that the pool makes for the service. *)
Lemma sim_call o c l n P l' :
  sim l n P → life_room l → undisturbed o (call_program cf c) (lf_world l) →
  lf_world l' = (run (W := World S) o (call_program cf c) (lf_world l)).2 →
  lf_scheduler l' = lf_scheduler l → lf_calls l' = lf_calls l → lf_works l' = lf_works l →
  lf_underway l' = lf_underway l → ∃ P', rtc (pool_step cf) P P' ∧ sim l' n P'.
Proof.
  intros [Hw Hn Hs (rest & Ht & Hat)] Hroom Hund Ew Es Ec Ek Eu. unfold life_room in Hroom.
  rewrite <-Hw in Hund, Hroom.
  destruct (pool_call o c P Hund Hroom) as (P' & Hr & Hw' & Hn' & Hs' & q & Hq).
  exists P'. split; [done|]. split; [by rewrite Hw', Ew, Hw|by rewrite Hn'|by rewrite Hs', Es|].
  exists (q :: rest). split; [|rewrite Eu; by apply at_write_more]. rewrite Hq, Ht, Ec, Ek.
  apply Permutation_middle.
Qed.

(** A step the pool does not see. *)
Lemma sim_frame l n P l' :
  sim l n P → lf_world l' = lf_world l → lf_scheduler l' = lf_scheduler l →
  lf_calls l' = lf_calls l → lf_works l' = lf_works l → lf_underway l' = lf_underway l →
  sim l' n P.
Proof.
  intros [Hw Hn Hs Ht] Ew Es Ec Ek Eu. split; rewrite ?Ew, ?Es, ?Ec, ?Ek, ?Eu; done.
Qed.

(** A release of the ownership: others change the store, but not the tasks. *)
Lemma sim_release call epoch l n P (l' := (store_release call epoch l).2) :
  pool_ok cf P → sim l n P → life_room l → life_room l' →
  (∀ id, write_accepts (release_lands call l) = Some id → id ∉ nt_used n) →
  ∃ P', rtc (pool_step cf) P P' ∧ sim l' (note_write (release_lands call l) (lf_world l) n) P'.
Proof.
  intros Hok Hsim Hroom Hroom' Hfresh. destruct call as [e|o unlock]; [by exists P|].
  destruct (sim_land o l n P Hsim Hroom Hfresh) as (P1 & Hr1 & Hs1).
  assert (store_ok (w_store (lf_world (land o l)))) as Hst.
  { rewrite <-(sim_world _ _ _ Hs1). apply (gi_store _ (po_inv _ _ (proj1 (pool_steps_ok cf _ _ Hok Hr1)))). }
  pose proof (law_release unlock epoch _ Hst) as Hlaw. subst l'. cbn [store_release] in *.
  destruct (do_release unlock epoch _) as [r s']. destruct Hlaw as (Hok' & Htasks & _).
  cbn [snd] in *. destruct Hs1 as [Hw Hn Hs Ht].
  exists {| p_ghost := set_gstore s' (p_ghost P1); p_scheduler := p_scheduler P1;
            p_threads := p_threads P1 |}. split.
  - eapply rtc_r; [exact Hr1|]. apply (pool_act cf (ActOther s')).
    + unfold room, gtasks. rewrite Hw. unfold life_room in Hroom'. cbn in Hroom'. by rewrite Htasks in Hroom'.
    + cbn. split; [done|]. unfold gtasks. by rewrite Hw.
    + done.
  - split; [|done..]. cbn. unfold gcore. by rewrite Hw.
Qed.

Lemma supervisor_effect l close call accepts l' :
  shutdown_supervisor close call accepts l = Some l' →
  (lf_supervisor l = ReleaseStoreOwner ∧ l' = release_store_owner call l) ∨
  (lf_supervisor l ≠ ReleaseStoreOwner ∧ lf_world l' = lf_world l ∧
   lf_scheduler l' = lf_scheduler l ∧ lf_calls l' = lf_calls l ∧ lf_works l' = lf_works l ∧
   lf_underway l' = lf_underway l).
Proof.
  unfold shutdown_supervisor, drop_owner_guard. intros Hs. destruct (lf_supervisor l) eqn:Ep;
    try (right; split; [done|]; repeat case_match; by simplify_eq). left. by injection Hs.
Qed.

Lemma panicked_effect l accepts l' :
  supervisor_panicked accepts l = Some l' →
  lf_world l' = lf_world l ∧ lf_scheduler l' = lf_scheduler l ∧ lf_calls l' = lf_calls l ∧
  lf_works l' = lf_works l ∧ lf_underway l' = lf_underway l.
Proof.
  unfold supervisor_panicked, drop_owner_guard. intros Hs. repeat case_match; by simplify_eq.
Qed.

Lemma report_undisturbed o stage metrics reporter (w : World S) :
  (∀ id, has_room id (tasks_of (w_store w))) →
  undisturbed o (forget (report stage metrics reporter)) w.
Proof.
  intros Hroom. unfold forget, report. destruct (checked_add _ _ _); [|done].
  cbn -[disk_write]. done.
Qed.

(** The supervisor's release, with the flag that it sets. *)
Lemma sim_release_owner call l n P (l' := release_store_owner call l)
    (write := match lf_owner_guard l with Some (Some _) => release_lands call l | _ => None end) :
  pool_ok cf P → sim l n P → life_room l → life_room l' →
  (∀ id, write_accepts write = Some id → id ∉ nt_used n) →
  ∃ P', rtc (pool_step cf) P P' ∧ sim l' (note_write write (lf_world l) n) P'.
Proof.
  intros Hok Hsim Hroom Hroom' Hfresh. subst l' write. unfold release_store_owner in *.
  destruct (lf_owner_guard l) as [[epoch|]|]; cycle 1.
  { by apply (sim_call quiet_oracle CallReleased l n P). }
  { exists P. split; [done|]. by eapply sim_frame. }
  set (l1 := (store_release call epoch l).2) in *.
  assert (life_room l1) as Hroom1.
  { subst l1. destruct (store_release call epoch l) as [[u|e] l1]; exact Hroom'. }
  destruct (sim_release call epoch l n P Hok Hsim Hroom Hroom1 Hfresh) as (P1 & Hr1 & Hs1).
  fold l1 in Hs1. subst l1. destruct (store_release call epoch l) as [[u|e] l1]; cbn [snd] in *.
  - destruct (sim_call quiet_oracle CallReleased l1 _ P1 (update_core mark_released l1) Hs1 Hroom1)
      as (P2 & Hr2 & Hs2); [done..|].
    exists P2. split; [by etrans|]. by eapply sim_frame.
  - exists P1. split; [done|]. by eapply sim_frame.
Qed.

Lemma sim_cleanup i epoch call l n P :
  pool_ok cf P → sim l n P → life_room l → life_room (cleanup_job i epoch call l) →
  (∀ id, write_accepts (release_lands call l) = Some id → id ∉ nt_used n) →
  ∃ P', rtc (pool_step cf) P P' ∧
    sim (cleanup_job i epoch call l) (note_write (release_lands call l) (lf_world l) n) P'.
Proof.
  intros Hok Hsim Hroom Hroom' Hfresh. unfold cleanup_job in *.
  destruct (sim_release call epoch l n P Hok Hsim Hroom) as (P1 & Hr1 & Hs1); [|done|].
  - destruct (store_release call epoch l) as [r l1]. exact Hroom'.
  - exists P1. split; [done|]. destruct (store_release call epoch l) as [r l1]. by eapply sim_frame.
Qed.

Lemma sim_schedule o {X} (op : Op X) k l n P :
  sim l n P → life_room l →
  (∀ id, write_accepts (op_write o op) = Some id → id ∉ nt_used n) → lf_scheduler l = Step op k →
  ∃ P', rtc (pool_step cf) P P' ∧
    sim (set_threads (perform o op (lf_world l)).2 (k (perform o op (lf_world l)).1)
           (lf_calls l) (lf_works l) l) (note_write (op_write o op) (lf_world l) n) P'.
Proof.
  intros [Hw Hn Hs Ht] Hroom Hfresh El.
  assert (admissible op (p_ghost P)) as Hadm by (apply (admissible_fresh o op); by rewrite <-Hn in Hfresh).
  rewrite El in Hs. destruct (gperform_world o op (p_ghost P)) as (Hx & Hgw & Hgn).
  rewrite Hw in Hx, Hgw, Hgn. eexists. split.
  { apply rtc_once, (pool_act cf (ActScheduler o)); [| |by apply act_scheduler].
    - unfold room, gtasks. by rewrite Hw.
    - unfold action_admissible. by rewrite Hs. }
  split; cbn [p_ghost p_scheduler p_threads]; fields; [done| |by rewrite Hx|done].
  by rewrite Hgn, Hn.
Qed.

Lemma sim_spawn fuel i work l n P :
  sim l n P → life_room l → co_spawned (lf_core l) !! i = Some work →
  let l' := update_core (λ co, set_in_flight (co_in_flight co) (delete i (co_spawned co)) co) l in
  ∃ P', rtc (pool_step cf) P P' ∧
    sim (set_threads (lf_world l') (lf_scheduler l') (lf_calls l')
           (lf_works l' ++ [work_program cf fuel work]) l') n P'.
Proof.
  intros [Hw Hn Hs (rest & Ht & Hat)] Hroom Hi. cbv zeta. eexists. split.
  { apply rtc_once, (pool_act cf (ActSpawn fuel i)); [|done|].
    - unfold room, gtasks. by rewrite Hw.
    - unfold act, take_work, gcore. rewrite Hw. unfold lf_core in Hi. by rewrite Hi. }
  split; cbn [p_ghost p_scheduler p_threads]; fields; [|done|done|].
  - unfold set_core. cbn. by rewrite Hw.
  - exists rest. split; [|done]. rewrite Ht, !app_assoc, <-!app_assoc. do 2 f_equiv.
    apply Permutation_app_comm.
Qed.

(** A call is dropped, and with it what it has not begun; a write that runs goes
    on. *)
Lemma sim_abandon i running p l l' n P :
  sim l n P → lf_calls l !! i = Some p → life_act cf (LifeAbandonCall i running) l = Some l' →
  sim l' n P.
Proof.
  intros [Hw Hn Hs (rest & Ht & Hat)] Ei Ha. unfold life_act in Ha. rewrite Ei in Ha.
  assert (p_threads P ≡ₚ (delete i (lf_calls l) ++ lf_works l) ++ p :: rest) as Hp.
  { rewrite Ht, (proj1 (perm_call (lf_calls l) (lf_works l) rest i p p Ei)). apply Permutation_middle. }
  destruct running.
  - destruct (lf_underway l) as [write|] eqn:Eu; [done|].
    destruct p as [|X op k]; [done|]. cbn [next_write] in Ha.
    destruct (is_write op) eqn:Ew; [|done]. injection Ha as <-.
    split; fields; [by rewrite Hw; destruct (lf_world l)|done|done|]. exists (Step op k :: rest).
    split; [done|]. split; [done|]. exists k. left.
  - injection Ha as <-. split; fields; [done..|]. exists (p :: rest). split; [done|]. by apply at_write_more.
Qed.

Lemma sim_act a l l' n P :
  pool_ok cf P → sim l n P → life_room l → life_room l' →
  (∀ id, life_accepts a l = Some id → id ∉ nt_used n) → life_act cf a l = Some l' →
  ∃ P', rtc (pool_step cf) P P' ∧ sim l' (note_write (life_write a l) (lf_world l) n) P'.
Proof.
  intros Hok Hsim Hroom Hroom' Hfresh Ha. pose proof (sim_world _ _ _ Hsim) as Hw.
  destruct (sim_threads _ _ _ Hsim) as (rest & Ht & Hat). unfold life_accepts in Hfresh.
  destruct a as [o|c|i o|i running|o|fuel i|i o|i stage metrics reporter o| | |i|i| |close call accepts|accepts|i call].
  4: { unfold life_act in Ha. destruct (lf_calls l !! i) as [p|] eqn:Ei; [|done].
       exists P. split; [done|]. eapply sim_abandon; [done|exact Ei|]. unfold life_act. by rewrite Ei. }
  all: unfold life_act in Ha; cbn [life_write note_write] in *.
  - destruct (lf_scheduler l) as [|X op k] eqn:El; [done|]. rewrite next_op_write in *.
    rewrite (surjective_pairing (perform _ _ _)) in Ha. injection Ha as <-. by apply sim_schedule.
  - case_match; [done|]. injection Ha as <-. eexists. split.
    { apply rtc_once, (pool_act cf (ActCall c)); [unfold room, gtasks; by rewrite Hw|done|done]. }
    split; cbn [p_ghost p_scheduler p_threads]; fields; try apply Hsim. exists rest. split; [|done].
    rewrite Ht, <-!app_assoc. f_equiv. by rewrite (Permutation_app_comm [_]), <-app_assoc.
  - destruct (lf_calls l !! i) as [[|X op k]|] eqn:Ei; [done| |done]. cbn [mbind option_bind] in *.
    rewrite next_op_write in *. rewrite (surjective_pairing (perform _ _ _)) in Ha. injection Ha as <-.
    destruct (perm_call (lf_calls l) (lf_works l) rest i _ (k (perform o op (lf_world l)).1) Ei) as [Hp Hq].
    eapply (sim_thread o op k l n P); [done..|by rewrite Ht|done|done|]. by exists rest.
  - case_match; [|done]. injection Ha as <-. by apply sim_land.
  - destruct (co_spawned (lf_core l) !! i) as [work|] eqn:Ei; [|done]. injection Ha as <-.
    by apply sim_spawn.
  - destruct (lf_works l !! i) as [[|X op k]|] eqn:Ei; [done| |done]. cbn [mbind option_bind] in *.
    rewrite next_op_write in *. rewrite (surjective_pairing (perform _ _ _)) in Ha. injection Ha as <-.
    destruct (perm_work (lf_calls l) (lf_works l) rest i _ (k (perform o op (lf_world l)).1) Ei) as [Hp Hq].
    eapply (sim_thread o op k l n P); [done..|by rewrite Ht|done|done|]. by exists rest.
  - destruct (lf_works l !! i) as [[|X op k]|]; [done| |done]. injection Ha as <-.
    eapply (sim_call o (CallReport stage metrics reporter)); [done|done| |done..].
    by apply report_undisturbed.
  - injection Ha as <-. by apply (sim_call quiet_oracle CallShutdown l n P).
  - exists P. split; [done|]. repeat case_match; simplify_eq. by apply (sim_frame l).
  - destruct (lf_callers l !! i) as [[attempt|]|]; [|done..].
    apply bind_Some in Ha as (outcome & _ & Ha). injection Ha as <-. exists P. split; [done|]. by apply (sim_frame l).
  - destruct (lf_callers l !! i); simplify_eq. exists P. split; [done|]. by apply (sim_frame l).
  - case_match; simplify_eq. by apply (sim_call quiet_oracle CallShutdown l n P).
  - destruct (supervisor_effect _ _ _ _ _ Ha) as [[Ep ->]|(Ep & Ew & Es & Ec & Ek & Eu)].
    + rewrite Ep in *. by apply sim_release_owner.
    + assert (match lf_supervisor l, lf_owner_guard l with
              | ReleaseStoreOwner, Some (Some _) => release_lands call l | _, _ => None end = None) as ->
        by by destruct (lf_supervisor l).
      exists P. split; [done|]. by apply (sim_frame l).
  - destruct (panicked_effect _ _ _ Ha) as (Ew & Es & Ec & Ek & Eu). exists P. split; [done|].
    by apply (sim_frame l).
  - destruct (lf_cleanup l !! i) as [epoch|]; simplify_eq. by apply sim_cleanup.
Qed.

Lemma sim_steps x x' P :
  pool_ok cf P → sim x.1 x.2 P → rtc lawful_step x x' →
  ∃ P', rtc (pool_step cf) P P' ∧ sim x'.1 x'.2 P'.
Proof.
  intros Hok Hsim Hr. revert P Hok Hsim.
  induction Hr as [x|x y z Hstep _ IH]; intros P Hok Hsim; [by exists P|].
  destruct Hstep as [a l l' n Hroom Hroom' Hfresh Ha].
  destruct (sim_act a l l' n P Hok Hsim Hroom Hroom' Hfresh Ha) as (P1 & Hr1 & Hs1).
  destruct (IH P1 (proj1 (pool_steps_ok cf _ _ Hok Hr1)) Hs1) as (P' & Hr' & Hs').
  exists P'. split; [by etrans|done].
Qed.

Lemma sim_start fuel pages epoch w :
  w_core w = core_new →
  sim (life_start cf fuel pages epoch w) (notes_start (w_store w))
    (service_start cf fuel pages (w_store w)).
Proof.
  intros Hc. split; try done; [|by exists []]. cbn. rewrite <-Hc. by destruct w.
Qed.

(** A lawful step is a step of the supervised service. *)
Lemma lawful_steps x x' : rtc lawful_step x x' → rtc (life_step cf) x.1 x'.1.
Proof.
  induction 1 as [|x y z [a l l' n _ _ _ Ha] _ IH]; [done|]. eapply rtc_l; [by econstructor|done].
Qed.

(** What a lawful life has to say about the tasks: at every point some pool of
    the running service has this world and these notes, and goes on as it does. *)
Lemma lawful_pool fuel pages epoch (w : World S) x x' :
  store_ok (w_store w) → w_core w = core_new →
  rtc lawful_step (life_start cf fuel pages epoch w, notes_start (w_store w)) x →
  rtc lawful_step x x' →
  ∃ P P', service_reachable cf P ∧ rtc (pool_step cf) P P' ∧ sim x.1 x.2 P ∧ sim x'.1 x'.2 P'.
Proof.
  intros Hs Hc Hr Hr'. pose proof (service_start_ok cf fuel pages (w_store w) Hs) as H0.
  destruct (sim_steps (_, _) x _ H0 (sim_start fuel pages epoch w Hc) Hr) as (P & Hp & Hsim).
  destruct (sim_steps x x' P (proj1 (pool_steps_ok cf _ _ H0 Hp)) Hsim Hr') as (P' & Hp' & Hsim').
  exists P, P'. split_and!; [by exists fuel, pages, (w_store w)|done..].
Qed.
End refinement.
