(* ===== verification/System.v ===== *)
(** * The service, its SQLite store and its publisher together

    The supervised service of [Shutdown] on the SQLite store, with the
    publisher's worker reading the same store: calls of clients, the scheduler,
    attempts, the supervisor, the worker and those who notify it, send it
    commands or close it, in any order.  When the supervisor closes the
    publisher, the worker has returned or is aborted; the operation it was in
    may still be done by the store then. *)

From S2P Require Import Prelude TaskState Model Engine RetryPolicy Requests Handlers MemoryStore.
From S2P Require Import MemoryInvariant MemoryPreservation MemoryHistory MemoryQueries MemorySpec.
From S2P Require Import SqliteStore SqliteAdmin SqliteInvariant SqliteRefinement SqliteQueries.
From S2P Require Import SqlitePruning SqliteOutbox SqliteHistory TaskStore StoreOwner Programs ServiceMonad.
From S2P Require Import Publisher PublisherLogic PublisherSpecs PublisherProperties Service.
From S2P Require Import ServiceLogic ServicePool Shutdown ShutdownThreads ShutdownInvariant.
From S2P Require Import ShutdownRefinement.

Section system.
Context `{ET : !ExternalTypes, SJ : !SnapshotJson, CT : !CodecTypes, MW : !MetadataWire,
          HF : !HandlerFutures, EX : !ErrorTexts, QJ : !SqliteJson, QL : !SqliteJsonLaws,
          EB : !EventBus}.
#[local] Existing Instances sqlite_task_store sqlite_store_laws sqlite_owned_store sqlite_owned_laws.
Context (cf : ServiceConfig).

Record System := {
  sy_life : Life (S := SqliteTaskStore);
  (** identifiers given out *)
  sy_used : gset TaskId;
  sy_worker : option (job (option unit));
  sy_publisher : PublisherState;
  (** what the bus has admitted, and every event ever recorded *)
  sy_bus : list (EventOutboxEntry * PublishRequest);
  sy_events : gmap (TaskId * Z) OutboxRow;
}.
Implicit Types (y : System) (l : Life (S := SqliteTaskStore)) (s : SqliteTaskStore).

Definition sy_store y : SqliteTaskStore := w_store (lf_world (sy_life y)).
Definition pub_world y : PubWorld :=
  {| pw_store := sy_store y; pw_state := sy_publisher y; pw_bus := sy_bus y;
     pw_events := sy_events y |}.

Definition set_store s l : Life (S := SqliteTaskStore) :=
  set_world {| w_store := s; w_core := w_core (lf_world l) |} l.

Definition with_worker (w : PubWorld) (worker : option (job (option unit))) y : System :=
  {| sy_life := set_store (pw_store w) (sy_life y); sy_used := sy_used y; sy_worker := worker;
     sy_publisher := pw_state w; sy_bus := pw_bus w; sy_events := pw_events w |}.

(** The supervisor is about to close the publisher. *)
Definition closes (a : LifeAction) l : bool :=
  match a, lf_supervisor l with
  | LifeSupervisor _ _ _, CloseNotificationPublisher => true
  | _, _ => false
  end.

(** How waiting for the worker may end. *)
Definition join_possible (worker : option (job (option unit))) (ended : JoinOutcome) : Prop :=
  match ended with Joined => worker = Some (Ret (Some tt)) | JoinError _ | JoinTimeout => True end.

(** A worker that is aborted has no more than its current operation left. *)
Definition left_behind (worker : option (job (option unit))) (ended : JoinOutcome)
    (leftover : option (job (option unit))) : Prop :=
  leftover = None ∨
  ended = JoinTimeout ∧ ∃ X (op : PubOp X) k,
    worker = Some (Step op k) ∧ leftover = Some (Step op (λ _, Ret None)).

Inductive system_step : relation System :=
| system_life a l' y :
    closes a (sy_life y) = false → (∀ id, life_accepts a (sy_life y) = Some id → id ∉ sy_used y) →
    life_act cf a (sy_life y) = Some l' →
    system_step y
      {| sy_life := l'; sy_used := use (life_accepts a (sy_life y)) (sy_used y);
         sy_worker := sy_worker y; sy_publisher := sy_publisher y; sy_bus := sy_bus y;
         sy_events := sy_events y ∪ db_outbox (ss_db (w_store (lf_world l'))) |}
| system_worker {X} (op : PubOp X) k o y :
    sy_worker y = Some (Step op k) →
    system_step y (with_worker (pub_perform o op (pub_world y)).2
                     (Some (k (pub_perform o op (pub_world y)).1)) y)
| system_client ps y :
    client_step (sy_publisher y) ps →
    system_step y
      {| sy_life := sy_life y; sy_used := sy_used y; sy_worker := sy_worker y;
         sy_publisher := ps; sy_bus := sy_bus y; sy_events := sy_events y |}
| system_close close call accepts ended leftover l' y :
    lf_supervisor (sy_life y) = CloseNotificationPublisher →
    ps_closing (sy_publisher y) = true → join_possible (sy_worker y) ended →
    left_behind (sy_worker y) ended leftover →
    is_some close = negb (is_ok (close_result
      (match sy_worker y with None => None | Some _ => Some ended end) (sy_publisher y))) →
    life_act cf (LifeSupervisor close call accepts) (sy_life y) = Some l' →
    system_step y
      {| sy_life := l'; sy_used := sy_used y; sy_worker := leftover; sy_publisher := sy_publisher y;
         sy_bus := sy_bus y; sy_events := sy_events y |}.

(** The service right after its construction on a store whose outbox it has
    enabled; earlier tasks and events may be there. *)
Definition system_start (fuel pages rounds controls : nat) (epoch : OwnerEpoch) s : System :=
  {| sy_life := life_start cf fuel pages epoch {| w_store := s; w_core := core_new |};
     sy_used := dom (view (ss_db s));
     sy_worker := Some (run_worker rounds controls INITIAL_BACKOFF_MS);
     sy_publisher := publisher_state_new; sy_bus := []; sy_events := db_outbox (ss_db s) |}.
End system.
