(* ===== verification/ServiceRecovery.v ===== *)
(** * Recovery

    [recover_unfinished] runs alone, before the service starts: it reads the
    unfinished tasks page by page and takes back every one that a previous
    owner left running.  Taking tasks back moves some of them out of the
    selection that is being read, but never past the cursor, so every running
    task is met exactly once. *)

From S2P Require Import Prelude TaskState Model Engine RetryPolicy Requests Handlers MemoryStore.
From S2P Require Import MemoryInvariant MemoryPreservation MemoryHistory MemoryQueries TaskStore.
From S2P Require Import ServiceMonad Service ServiceLogic.
From S2P Require Import Programs.

Section recovery.
Context `{ET : !ExternalTypes, SJ : !SnapshotJson, CT : !CodecTypes, MW : !MetadataWire,
          HF : !HandlerFutures, EX : !ErrorTexts}.
Context {S : Type} `{TS : !TaskStore S, TL : !TaskStoreLaws S}.
Implicit Types (task : StoredTask) (t : TaskSummary) (m : gmap TaskId StoredTask) (w : World S * nat).

Abbreviation wtasks w := (tasks_of (w_store (fst w))).

(** ** What recovery makes of a task *)

Definition recovered_task task : StoredTask :=
  let t := st_summary task in
  if decide (ts_state t = Running) then
    {| st_request := st_request task;
       st_summary := settle_state (recovery_command t) (ts_state_version t + 1)
                       (enter_state (recovery_command t) t) |}
  else task.

Lemma recovered_unfinished task :
  task_terminal task = false → task_terminal (recovered_task task) = false.
Proof.
  intros Ht. unfold recovered_task. case_decide; [|done]. unfold task_terminal. simpl.
  by destruct (ts_cancel_requested _).
Qed.

Lemma recovered_not_running task : ts_state (st_summary (recovered_task task)) ≠ Running.
Proof.
  unfold recovered_task. case_decide; [|done]. simpl. by destruct (ts_cancel_requested _).
Qed.

(** The tasks [l] are recovered; of the others, finished ones may be dropped. *)
Definition recovered (l : list TaskId) m m' : Prop :=
  ∀ id, if decide (id ∈ l) then m' !! id = recovered_task <$> m !! id
        else dropped_at_most m m' id.

Definition unfinished (l : list TaskId) m : Prop :=
  ∀ id, id ∈ l → ∃ task, m !! id = Some task ∧ task_terminal task = false.

Lemma dropped_unfinished m m' id task :
  dropped_at_most m m' id → m !! id = Some task → task_terminal task = false → m' !! id = Some task.
Proof. intros [->|(_ & x & Hx & Ht)] Hid Hn; [done|]. congruence. Qed.

Lemma dropped_trans m m1 m2 id :
  dropped_at_most m m1 id → dropped_at_most m1 m2 id → dropped_at_most m m2 id.
Proof.
  intros [H1|(H1 & x & Hx & Ht)] [H2|(H2 & y & Hy & Hy')].
  - left. congruence.
  - right. split; [done|]. exists y. split; [congruence|done].
  - right. split; [congruence|]. by exists x.
  - right. split; [done|]. by exists x.
Qed.

Lemma recovered_nil m : recovered [] m m.
Proof. intros id. rewrite decide_False by apply not_elem_of_nil. by left. Qed.

Lemma recovered_app l1 l2 m m1 m2 :
  (∀ id, id ∈ l1 → id ∉ l2) → unfinished (l1 ++ l2) m →
  recovered l1 m m1 → recovered l2 m1 m2 → recovered (l1 ++ l2) m m2.
Proof.
  intros Hd Hu H1 H2 id. specialize (H1 id). specialize (H2 id). specialize (Hd id).
  destruct (decide (id ∈ l1 ++ l2)) as [Hin|Hout].
  - destruct (Hu id Hin) as (task & Hid & Ht). rewrite Hid. simpl.
    destruct (decide (id ∈ l1)) as [Hl1|Hl1], (decide (id ∈ l2)) as [Hl2|Hl2].
    + by destruct Hd.
    + rewrite Hid in H1. simpl in H1. eapply dropped_unfinished; [done..|].
      by apply recovered_unfinished.
    + rewrite H2, (dropped_unfinished _ _ _ _ H1 Hid Ht). done.
    + apply elem_of_app in Hin. tauto.
  - rewrite elem_of_app in Hout. rewrite decide_False in H1 by tauto.
    rewrite decide_False in H2 by tauto. by eapply dropped_trans.
Qed.

(** Recovery that was interrupted: every unfinished task is as before or
    recovered. *)
Definition partly_recovered m m' : Prop :=
  ∀ id, match m !! id with
        | Some task => if task_terminal task then dropped_at_most m m' id
                       else m' !! id = Some task ∨ m' !! id = Some (recovered_task task)
        | None => m' !! id = None
        end.

Lemma recovered_task_idem task : recovered_task (recovered_task task) = recovered_task task.
Proof.
  unfold recovered_task at 1. rewrite decide_False; [done|]. apply recovered_not_running.
Qed.

Lemma recovered_partly l m m' : unfinished l m → recovered l m m' → partly_recovered m m'.
Proof.
  intros Hu Hr id. specialize (Hr id). specialize (Hu id).
  destruct (m !! id) as [task|] eqn:Hid; destruct (decide (id ∈ l)) as [Hin|Hout]; cbn in Hr.
  - destruct (Hu Hin) as (task' & [= <-] & ->). by right.
  - destruct (task_terminal task) eqn:Ht; [done|]. left. by eapply dropped_unfinished.
  - by destruct (Hu Hin) as (? & [=] & _).
  - destruct Hr as [->|[-> _]]; done.
Qed.

#[global] Instance partly_recovered_preorder : PreOrder partly_recovered.
Proof.
  split.
  - intros m. apply (recovered_partly []); [by intros id ?%not_elem_of_nil|apply recovered_nil].
  - intros m m1 m2 H1 H2 id. specialize (H1 id). specialize (H2 id).
    destruct (m !! id) as [task|] eqn:Hid; [|by rewrite H1 in H2].
    destruct (task_terminal task) eqn:Ht.
    + eapply dropped_trans; [done|]. destruct (m1 !! id) as [task1|] eqn:Hid1; [|by left; rewrite H2].
      destruct H1 as [H1|[H1 _]]; [|congruence]. assert (task1 = task) as -> by congruence.
      by rewrite Ht in H2.
    + destruct H1 as [H1|H1]; rewrite H1 in H2.
      * by rewrite Ht in H2.
      * rewrite (recovered_unfinished task Ht), recovered_task_idem in H2. by destruct H2; right.
Qed.

(** ** One page *)

(** Summaries of stored tasks that are queued or running. *)
Definition page_of_store (l : list TaskSummary) m : Prop :=
  NoDup (ts_id <$> l) ∧
  ∀ t, t ∈ l → ∃ task, m !! ts_id t = Some task ∧ st_summary task = t ∧
    task_terminal task = false ∧ ts_state_version t < u64_max ∧ ts_attempt t < u32_max.

Lemma recovery_allowed t :
  ts_state t = Running → transition_allowed (recovery_command t) t.
Proof.
  intros Hr. split; simpl; try done.
  - by destruct (ts_cancel_requested t).
  - left. rewrite Hr. by destruct (ts_cancel_requested t).
Qed.

(** The result of the store's answer, with the store untouched. *)
Lemma store_result_run {A} os (res : result A StoreError) w :
  (run os (store_result res) w).1 = map_err Store res ∧
  w_store (run os (store_result res) w).2.1 = w_store w.1.
Proof. destruct res as [a|[]]; done. Qed.

(** A store that refuses nothing the lifecycle allows, on a disk that works. *)
Definition faultless (os : nat → Oracle) : Prop :=
  reliable (S := S) ∧ ∀ n, or_disk (os n) = None.

Lemma transition_run os c w :
  store_ok (w_store w.1) → has_room (tc_id c) (wtasks w) →
  let '(res, w') := run os (call (OpTransition c)) w in
  store_ok (w_store w'.1) ∧ transition_outcome c (wtasks w) (wtasks w') res ∧
  (∀ task, faultless os → wtasks w !! tc_id c = Some task →
     transition_allowed c (st_summary task) → is_ok res = true).
Proof.
  intros Hs Hr. set (o := os w.2). pose proof (disk_transition o c _ Hs Hr) as Hlaw.
  pose proof (λ task Hrel, law_reliable (w_store w.1) (or_now o) c task Hrel Hs Hr) as Hrel.
  unfold faultless. cbn. fold o. unfold on_store, disk_write in *.
  destruct (or_disk o) as [m|] eqn:Hd.
  { destruct Hlaw. split_and!; [done..|]. intros task [_ Hnone]. subst o; by rewrite (Hnone w.2) in Hd. }
  destruct (do_transition _ _ _) as [res s']. destruct Hlaw as [Hok Hout].
  split_and!; [done|done|]. intros task [H1 _]. by apply Hrel.
Qed.

Lemma page_of_store_tail t l m m' :
  page_of_store (t :: l) m → (∀ id, id ≠ ts_id t → dropped_at_most m m' id) → page_of_store l m'.
Proof.
  intros [Hnd Hl] Hd. rewrite fmap_cons in Hnd. apply NoDup_cons in Hnd as [Hn Hnd].
  split; [done|]. intros t' Ht'. destruct (Hl t') as (task & Hid & Hs & Ht & Hv).
  { by apply list_elem_of_further. }
  exists task. split; [|done]. eapply dropped_unfinished; [apply Hd|done|done].
  intros Heq. apply Hn. rewrite <- Heq. by apply list_elem_of_fmap_2.
Qed.

Lemma recovered_cons id l m m1 m2 :
  id ∉ l → unfinished (id :: l) m →
  recovered [id] m m1 → recovered l m1 m2 → recovered (id :: l) m m2.
Proof.
  intros Hn Hu H1 H2. apply (recovered_app [id] l m m1 m2); try done.
  by intros id' ->%list_elem_of_singleton.
Qed.

Lemma recover_records_run os l w :
  store_ok (w_store w.1) → page_of_store l (wtasks w) →
  let '(r, w') := run os (recover_records l) w in
  store_ok (w_store w'.1) ∧ partly_recovered (wtasks w) (wtasks w') ∧ (r = Ok tt → recovered (ts_id <$> l) (wtasks w) (wtasks w')) ∧
  (faultless os → r = Ok tt).
Proof.
  revert w. induction l as [|t l IH]; intros w Hs Hl; cbn [recover_records].
  { simpl. split_and!; [done|done| |done]. intros _. apply recovered_nil. }
  assert (unfinished (ts_id <$> t :: l) (wtasks w)) as Hunf.
  { intros id (x & -> & Hx)%list_elem_of_fmap. destruct Hl as [_ Hl].
    destruct (Hl x Hx) as (task & ? & ? & ? & ?). eauto. }
  assert (ts_id t ∉ ts_id <$> l) as Hnin.
  { destruct Hl as [Hnd _]. rewrite fmap_cons in Hnd. by apply NoDup_cons in Hnd as [? _]. }
  destruct (proj2 Hl t ltac:(by apply list_elem_of_here)) as (task & Hid & Hst & Hnt & Hv & Ha).
  assert (∀ w1, store_ok (w_store w1.1) → recovered [ts_id t] (wtasks w) (wtasks w1) →
    let '(r, w') := run os (recover_records l) w1 in
    store_ok (w_store w'.1) ∧ partly_recovered (wtasks w) (wtasks w') ∧ (r = Ok tt → recovered (ts_id <$> t :: l) (wtasks w) (wtasks w')) ∧
    (faultless os → r = Ok tt)) as Hrest.
  { intros w1 Hs1 Hr1. specialize (IH w1 Hs1).
    destruct (run os (recover_records l) w1) as [r w']. destruct IH as (? & Hpart & Hrec & ?).
    - eapply page_of_store_tail; [done|]. intros id Hne. specialize (Hr1 id).
      rewrite decide_False in Hr1; [done|]. by rewrite list_elem_of_singleton.
    - split_and!; [done| | |done].
      + etrans; [|exact Hpart]. eapply recovered_partly; [|exact Hr1].
        intros id ->%list_elem_of_singleton. apply Hunf, list_elem_of_here.
      + intros Hr. rewrite fmap_cons. eapply recovered_cons; eauto. }
  destruct (bool_decide _) eqn:Hrun; bool_prop; cycle 1.
  { apply Hrest; [done|]. intros id. case_decide as Hin; [|by left].
    apply list_elem_of_singleton in Hin as ->. rewrite Hid. simpl. unfold recovered_task.
    rewrite Hst. by rewrite decide_False. }
  rewrite run_bind.
  pose proof (transition_run os (recovery_command t) w Hs) as Htr.
  destruct (run os (call _) w) as [res w1]. simpl in Htr.
  destruct Htr as (Hs1 & Hout & Hrel).
  { intros x Hx. rewrite Hid in Hx. injection Hx as <-. by rewrite Hst. }
  cbn [fst snd]. unfold try_bind. rewrite run_bind.
  destruct (store_result_run os res w1) as [Hr1 Hw1].
  destruct (run os (store_result res) w1) as [r1 w2]. simpl in Hr1, Hw1. cbn [fst snd]. subst r1.
  destruct res as [t'|e]; simpl in Hout; cbn [map_err]; cycle 1.
  { simpl. rewrite Hw1. split_and!; [done|by rewrite (proj1 Hout)|done|]. intros Hreliable.
    specialize (Hrel task Hreliable Hid). rewrite Hst in Hrel. by specialize (Hrel (recovery_allowed t Hrun)). }
  apply Hrest; rewrite Hw1; [done|]. intros id.
  destruct Hout as (task' & Hid' & _ & Ht' & [Hself Hoth]).
  replace task' with task in * by congruence.
  case_decide as Hin; [|apply Hoth; by rewrite list_elem_of_singleton in Hin].
  apply list_elem_of_singleton in Hin as ->. rewrite Hid. simpl. unfold recovered_task.
  rewrite Hst, decide_True by done. subst t'. rewrite Hst in Hself.
  destruct Hself as [->|[_ Hterm]]; [done|]. exfalso. unfold task_terminal in Hterm. simpl in Hterm.
  by destruct (ts_cancel_requested t).
Qed.

(** ** All pages *)

(** Equal matching records give equal selections. *)
Lemma selection_ext q m m' :
  ids_match m → ids_match m' →
  (∀ t, query_matches q t = true →
     (∃ task, m !! ts_id t = Some task ∧ st_summary task = t) ↔
     (∃ task, m' !! ts_id t = Some task ∧ st_summary task = t)) →
  selection q m = selection q m'.
Proof.
  intros Hm Hm' Heq. symmetry. apply (sort_by_unique key_le ts_key);
    [apply _|by apply selection_NoDup|apply selection_sorted|].
  unfold selection at 1. rewrite sort_by_Permutation. apply NoDup_Permutation.
  - eapply NoDup_fmap_1, NoDup_fmap_filter, summaries_keys_NoDup; done.
  - eapply NoDup_fmap_1, NoDup_fmap_filter, summaries_keys_NoDup; done.
  - intros t. rewrite !list_elem_of_filter, !elem_of_summaries, !Is_true_true by done.
    specialize (Heq t). tauto.
Qed.

Lemma recovered_key task : ts_key (st_summary (recovered_task task)) = ts_key (st_summary task).
Proof. unfold recovered_task. by case_decide. Qed.

Lemma last_greatest (l : list TaskSummary) t t' :
  StronglySorted (key_rel key_le ts_key) l → last l = Some t → t' ∈ l →
  key_le (ts_key t') (ts_key t).
Proof.
  intros Hs [l' ->]%last_Some [Ht|Ht%list_elem_of_singleton]%elem_of_app; [|subst; reflexivity].
  apply StronglySorted_app in Hs as (_ & _ & Hle). apply Hle; [done|by apply list_elem_of_here].
Qed.

(** A page is over: the rest of the selection is as it was. *)
Lemma selection_recovered q n m m' t :
  ids_match m → ids_match m' →
  last (take n (selection q m)) = Some t →
  unfinished (ts_id <$> selection q m) m →
  recovered (ts_id <$> take n (selection q m)) m m' →
  selection (with_after (TaskCursor_from t) q) m' = drop n (selection q m).
Proof.
  intros Hm Hm' Hlast Hunf Hrec. rewrite <- (selection_after q m n t Hm Hlast).
  apply selection_ext; [done..|]. intros x Hx.
  assert (key_lt (ts_key t) (ts_key x)) as Hlt.
  { unfold query_matches in Hx. bool_prop. destruct Hx as [_ Hx]. rewrite is_none_or_true in Hx.
    specialize (Hx _ eq_refl). by apply key_ltb_lt in Hx. }
  assert (∀ y, y ∈ take n (selection q m) → key_le (ts_key y) (ts_key t)) as Hle.
  { intros y Hy. eapply last_greatest; [|done|done]. apply StronglySorted_take, selection_sorted. }
  specialize (Hrec (ts_id x)). destruct (decide (ts_id x ∈ ts_id <$> take n (selection q m))) as [Hin|Hout].
  - apply list_elem_of_fmap in Hin as (y & Hxy & Hy).
    assert (∃ task, m !! ts_id x = Some task ∧ st_summary task = y) as (task & Hid & Hs).
    { apply subseteq_take, elem_of_selection in Hy as [_ (task & ? & ?)]; [|done].
      exists task. by rewrite Hxy. }
    rewrite Hid in Hrec. simpl in Hrec. specialize (Hle y Hy). split.
    + intros (task' & Hid' & <-). rewrite Hrec in Hid'. injection Hid' as <-.
      rewrite recovered_key, Hs in Hlt. exfalso. by apply (irreflexivity key_lt _ (key_lt_le_trans _ _ _ Hlt Hle)).
    + intros (task' & Hid' & <-). rewrite Hid in Hid'. injection Hid' as <-. rewrite Hs in Hlt.
      exfalso. by apply (irreflexivity key_lt _ (key_lt_le_trans _ _ _ Hlt Hle)).
  - destruct Hrec as [->|(Hnone & task & Hid & Ht)]; [done|]. rewrite Hnone, Hid.
    split; [by intros (? & ? & _)|]. intros (task' & [= <-] & Hs). exfalso.
    assert (x ∈ selection (with_after (TaskCursor_from t) q) m) as Hsel.
    { apply elem_of_selection; [done|]. split; [done|]. by exists task. }
    rewrite (selection_after q m n t Hm Hlast) in Hsel. apply subseteq_drop in Hsel.
    destruct (Hunf (ts_id x)) as (task2 & Hid2 & Ht2); [by apply list_elem_of_fmap_2|]. congruence.
Qed.

Lemma store_ids (s : S) : store_ok s → ids_match (tasks_of s).
Proof. intros Hs id task Hid. by destruct (law_task s id task Hs Hid) as [[] _]. Qed.

Lemma page_unfinished l m : page_of_store l m → unfinished (ts_id <$> l) m.
Proof.
  intros [_ Hl] id (t & -> & Ht)%list_elem_of_fmap.
  destruct (Hl t Ht) as (task & ? & ? & ? & ?). eauto.
Qed.

Lemma page_take n l m : page_of_store l m → page_of_store (take n l) m.
Proof.
  intros [Hnd Hl]. split.
  - rewrite <- (take_drop n l), fmap_app in Hnd. by apply NoDup_app in Hnd as (? & _).
  - intros t Ht%subseteq_take. by apply Hl.
Qed.

Lemma page_rest n l m m' :
  page_of_store l m → recovered (ts_id <$> take n l) m m' → page_of_store (drop n l) m'.
Proof.
  intros [Hnd Hl] Hrec. rewrite <- (take_drop n l), fmap_app in Hnd.
  apply NoDup_app in Hnd as (_ & Hdis & Hnd). split; [done|].
  intros t Ht. destruct (Hl t) as (task & Hid & Hs & Hn & Hv); [by eapply subseteq_drop|].
  exists task. split; [|done]. specialize (Hrec (ts_id t)).
  rewrite decide_False in Hrec; [by eapply dropped_unfinished|].
  intros Hin. eapply Hdis; [done|]. by apply list_elem_of_fmap_2.
Qed.

Lemma recover_pages_run os fuel after w :
  let l := selection (recovery_query after) (wtasks w) in
  store_ok (w_store w.1) → page_of_store l (wtasks w) → (∀ c, after = Some c → cursor_fits c) →
  (length l < fuel)%nat →
  let '(r, w') := run os (recover_pages fuel after) w in
  store_ok (w_store w'.1) ∧ r ≠ None ∧ partly_recovered (wtasks w) (wtasks w') ∧
  (r = Some (Ok tt) → recovered (ts_id <$> l) (wtasks w) (wtasks w')) ∧
  (faultless os → r = Some (Ok tt)).
Proof.
  revert after w. induction fuel as [|fuel IH]; intros after w l Hs Hl Hc Hfuel; [lia|].
  cbn [recover_pages]. rewrite run_bind.
  destruct (or_disk (os w.2)) as [m|] eqn:Hdisk.
  { assert (run os (call (OpList (recovery_query after))) w = (Err (Failure m), (w.1, 1 + w.2)%nat))
      as -> by (cbn; unfold disk_read; by rewrite Hdisk).
    cbn. split_and!; [done..|]. intros [_ Hnone]. by rewrite (Hnone w.2) in Hdisk. }
  assert (run os (call (OpList (recovery_query after))) w = (Ok (page_of 128 l), (w.1, 1 + w.2)%nat))
    as ->.
  { cbn. unfold disk_read. rewrite Hdisk. by rewrite (law_list _ _ 128 Hs) by done. }
  cbn [fst snd]. set (page := page_of 128 l). rewrite run_bind. set (wn := (w.1, 1 + w.2)%nat).
  pose proof (recover_records_run os (pg_records page) wn Hs (page_take _ _ _ Hl)) as Hrec.
  destruct (run os (recover_records (pg_records page)) wn) as [r w1].
  destruct Hrec as (Hs1 & Hpart & Hrec & Hrel). change (wtasks wn) with (wtasks w) in Hrec, Hpart. cbn [fst snd]. destruct r as [[]|e]; cycle 1.
  { simpl. split_and!; [done..|]. intros Hreliable. by specialize (Hrel Hreliable). }
  specialize (Hrec eq_refl). unfold page, page_of in *. cbn [pg_records pg_next] in *.
  change (N.to_nat 128) with 128%nat in *.
  destruct (128 <? N.of_nat (length l)) eqn:Hmore; bool_prop; cycle 1.
  { simpl. rewrite take_ge in Hrec by lia. split_and!; done. }
  destruct (last (take 128 l)) as [t|] eqn:Hlast; cycle 1.
  { apply last_None in Hlast. apply (f_equal length) in Hlast. rewrite length_take in Hlast.
    cbn [length] in Hlast. lia. }
  simpl. pose proof (selection_recovered (recovery_query after) 128 (wtasks w) (wtasks w1) t
    (store_ids _ Hs) (store_ids _ Hs1) Hlast (page_unfinished _ _ Hl) Hrec) as Hsel.
  change (with_after _ _) with (recovery_query (Some (TaskCursor_from t))) in Hsel.
  fold l in Hsel. specialize (IH (Some (TaskCursor_from t)) w1). simpl in IH. rewrite Hsel in IH.
  assert (t ∈ l) as Ht.
  { apply (subseteq_take 128). apply last_Some in Hlast as [l' ->]. apply elem_of_app. right.
    by apply list_elem_of_here. }
  destruct (run os (recover_pages fuel _) w1) as [r w2].
  destruct IH as (Hs2 & Hnn & Hpart2 & Hrec2 & Hrel2).
  - done.
  - by eapply page_rest.
  - intros c [= <-]. destruct Hl as [_ Hl]. destruct (Hl t Ht) as (task & Hid & <- & _).
    by destruct (law_task _ _ _ Hs Hid).
  - rewrite length_drop. lia.
  - split_and!; [done|done|by etrans| |done]. intros Hr. rewrite <- (take_drop 128 l), fmap_app.
    eapply recovered_app; [..|by apply Hrec2].
    + destruct Hl as [Hnd _]. rewrite <- (take_drop 128 l), fmap_app in Hnd.
      apply NoDup_app in Hnd as (_ & Hd & _). done.
    + rewrite <- fmap_app, take_drop. by apply page_unfinished.
    + done.
Qed.

Lemma recovery_page m :
  ids_match m → (∀ id, has_room id m) → page_of_store (selection (recovery_query None) m) m.
Proof.
  intros Hm Hroom. split; [by apply selection_ids_NoDup|]. intros t Ht.
  apply elem_of_selection in Ht as [Hq (task & Hid & <-)]; [|done]. exists task.
  destruct (Hroom _ task Hid). split_and!; try done. unfold query_matches in Hq. bool_prop.
  destruct Hq as [[[Hq _] _] _]. unfold task_terminal. destruct Hq as [Hq|Hq]; [done|].
  simpl in Hq. set_unfold in Hq.
  destruct (ts_state (st_summary task)); simpl in Hq; naive_solver.
Qed.

(** Recovery from the start. *)
Lemma recover_unfinished_run os fuel w :
  store_ok (w_store w.1) → (∀ id, has_room id (wtasks w)) → (size (wtasks w) < fuel)%nat →
  let '(r, w') := run os (recover_unfinished fuel) w in
  store_ok (w_store w'.1) ∧ r ≠ None ∧ (faultless os → r = Some (Ok tt)) ∧
  partly_recovered (wtasks w) (wtasks w') ∧
  (r = Some (Ok tt) → ∀ id,
     match wtasks w !! id with
     | Some task => if task_terminal task then dropped_at_most (wtasks w) (wtasks w') id
                    else wtasks w' !! id = Some (recovered_task task)
     | None => wtasks w' !! id = None
     end).
Proof.
  intros Hs Hroom Hfuel. pose proof (store_ids _ Hs) as Hids.
  pose proof (recover_pages_run os fuel None w Hs (recovery_page _ Hids Hroom)) as Hrun.
  unfold recover_unfinished. destruct (run os (recover_pages fuel None) w) as [r w'].
  destruct Hrun as (Hs' & Hnn & Hpart & Hrec & Hrel); [done| |].
  { eapply Nat.le_lt_trans; [apply selection_length|done]. }
  split_and!; [done..|]. intros Hr id. specialize (Hrec Hr id).
  destruct (wtasks w !! id) as [task|] eqn:Hid.
  - destruct (task_terminal task) eqn:Ht.
    + rewrite decide_False in Hrec; [done|]. intros Hin.
      destruct (page_unfinished _ _ (recovery_page _ Hids Hroom) id Hin) as (x & Hx & Hx'). congruence.
    + destruct (decide (id ∈ _)) as [Hin|Hout] in Hrec; [done|].
      rewrite (dropped_unfinished _ _ _ _ Hrec Hid Ht). f_equal. unfold recovered_task.
      rewrite decide_False; [done|]. intros Hrun. apply Hout.
      rewrite <- (Hids _ _ Hid). apply list_elem_of_fmap_2, elem_of_selection; [done|].
      split; [|exists task; by rewrite (Hids _ _ Hid)].
      unfold query_matches. simpl. by rewrite Hrun.
  - destruct (decide (id ∈ _)) as [Hin|Hout] in Hrec; [done|].
    destruct Hrec as [->|(_ & x & Hx & _)]; congruence.
Qed.
End recovery.
