(* ===== verification/ServiceAttempts.v ===== *)
(** * Finishing an attempt that nobody else touches

    [finish] among threads that leave its task alone: the outcome is written
    exactly as the retry policy and the recorded cancellation require; only when
    the store has answered its read or its write with an error, which the trace
    of the run shows, the service is faulted. *)

From S2P Require Import Prelude TaskState Model Engine RetryPolicy Requests Handlers MemoryStore.
From S2P Require Import MemoryInvariant MemoryPreservation MemoryHistory MemoryQueries TaskStore.
From S2P Require Import ServiceMonad Service ServiceLogic ServiceSpecs ServiceScheduler ServicePool.
From S2P Require Import Programs.

Section attempts.
Context `{ET : !ExternalTypes, SJ : !SnapshotJson, CT : !CodecTypes, MW : !MetadataWire,
          HF : !HandlerFutures, EX : !ErrorTexts}.
Context {S : Type} `{TS : !TaskStore S, TL : !TaskStoreLaws S}.
Context (cf : ServiceConfig).
Implicit Types (task : StoredTask) (t started : TaskSummary) (g : Ghost (S := S)).

(** The others leave task [id] alone. *)
Definition calm (id : TaskId) : relation (Ghost (S := S)) :=
  λ g g', others cf g g' ∧ gtasks g' !! id = gtasks g !! id.

Lemma calm_trans id g g1 g2 : calm id g g1 → calm id g1 g2 → calm id g g2.
Proof.
  intros [[Hm1 _] He1] [[Hm2 Hr2] He2]. split; [|congruence]. split; [by eapply moves_trans|done].
Qed.

Lemma trace_ask id {X} (op : Op X) g x g' trace :
  asks op = true → exec_trace (calm id) (call op) g x g' trace →
  calm id g g' ∧ ∃ o, x = (gperform o op g').1 ∧ trace = [(o, Reply op x)].
Proof.
  intros Ha (o & g1 & rest & Hr & _ & -> & -> & -> & ->). unfold on_machine, service_machine.
  rewrite (gperform_asks o op g1 Ha). eauto.
Qed.

Lemma exec_modify id f g x g' :
  exec (calm id) (modify_core f) g x g' →
  ∃ g1, calm id g g1 ∧ g' = set_core (f (gcore g1)) g1.
Proof. intros (o & g1 & Hr & _ & _ & ->). exists g1. split; [done|]. by destruct g1 as [[] ? ? ?]. Qed.

(** What [finish] writes for a task it reads as [t]. *)
Definition retries started t (retryable : bool) : bool :=
  retryable && negb (ts_cancel_requested t) && (ts_attempt started <? cf_max_attempts cf).
Definition outcome_command started t state output retryable now1 now2 : TransitionCommand :=
  attempt_command started t (retries started t retryable)
    (if retries started t retryable then Some (retry_deadline cf (ts_attempt started) now1) else None)
    state output now2.

(** Latching a fault leaves the task alone. *)
Lemma exec_latch id m g g' :
  exec (calm id) (latch_fault m) g tt g' →
  faulted g' ∧ co_shutting_down (gcore g') = true ∧ gtasks g' !! id = gtasks g !! id.
Proof.
  intros He. apply exec_bind in He as ([] & g3 & H3 & H4).
  apply exec_modify in H3 as (g4 & [[Hm4 _] Hid4] & ->).
  apply exec_modify in H4 as (g5 & [[Hm5 _] Hid5] & ->). split_and!; [|done|].
  - change (faulted g5). eapply faulted_moves; [done|]. unfold faulted. simpl.
    destruct (co_fault (gcore g4)); eauto.
  - change (gtasks (set_core _ g5)) with (gtasks g5). rewrite Hid5.
    change (gtasks (set_core _ g4)) with (gtasks g4). by rewrite Hid4.
Qed.

(** Up to its write [finish] only reads. *)
Lemma finish_until_write id task started state output retryable g g' trace :
  gtasks g !! id = Some task → ts_state (st_summary task) = Running → ts_id started = id →
  store_ok (w_store (g_world g)) →
  exec_trace (calm id) (finish cf started state output retryable) g tt g' trace →
  (∃ o e m g1, calm id g g1 ∧ is_Some (or_disk o) ∧ (o, Reply (OpGet id) (Err e)) ∈ trace ∧
     exec (calm id) (latch_fault m) g1 tt g') ∨
  ∃ o g1 now1 now2, calm id g g1 ∧
    let c := outcome_command started (st_summary task) state output retryable now1 now2 in
    let '(res, g2) := gperform o (OpTransition c) g1 in
    (o, Reply (OpTransition c) res) ∈ trace ∧
    match res with
    | Ok _ => ∃ g3 co, calm id g2 g3 ∧ g' = set_core co g3
    | Err Conflict => True
    | Err e => exec (calm id) (latch_fault (StoreError_to_string e)) g2 tt g'
    end.
Proof.
  intros Hid Hrun Hst Hs He. apply exec_trace_bind in He as (res & g1 & tr1 & tr & -> & Hget & He).
  apply trace_ask in Hget as [Hc1 (o1 & Hres & ->)]; [|done]. rewrite Hst in Hres |- *.
  assert (gtasks g1 !! id = Some task) as Hid1 by (by rewrite (proj2 Hc1)).
  assert (res = Ok (Some task) ∨ is_Some (or_disk o1) ∧ ∃ m, res = Err (Failure m)) as [->|[Hd [m ->]]].
  { rewrite Hres. unfold gperform. cbn. unfold disk_read. destruct (or_disk o1); [by eauto|left].
    rewrite law_get; [by rewrite <- Hid1|]. destruct Hc1 as [[Hm _] _]. apply Hm. }
  2:{ left. eexists o1, _, _, g1. split_and!; [done|done|apply list_elem_of_here|].
      apply exec_traced. by exists tr. }
  right.
  cbv beta iota zeta in He. rewrite Hrun in He. cbn [is_terminal] in He.
  apply exec_trace_bind in He as (deadline & g2 & tr2 & tr' & -> & Hdl & He).
  assert (∃ now1, calm id g g2 ∧ deadline =
    if retries started (st_summary task) retryable
    then Some (retry_deadline cf (ts_attempt started) now1) else None) as (now1 & Hc2 & Hdeadline).
  { unfold retries. destruct (_ && _) eqn:Hr.
    - apply exec_trace_bind in Hdl as (now & g2' & ? & ? & _ & Hnow & -> & -> & _).
      apply trace_ask in Hnow as [Hc _]; [|done]. exists now. split; [by eapply calm_trans|done].
    - destruct Hdl as (-> & -> & _). by exists 0. }
  apply exec_trace_bind in He as (now2 & g3 & tr3 & tr4 & -> & Hnow & He).
  apply trace_ask in Hnow as [Hc3 _]; [|done].
  apply exec_trace_bind in He as (res & g4 & tr5 & tr6 & -> & Htr & He).
  destruct Htr as (o & g5 & rest & Hc5 & _ & -> & Hres4 & Hg4 & ->).
  exists o, g5, now1, now2. split; [by eapply calm_trans; [|eapply calm_trans]|].
  unfold outcome_command. rewrite <- Hdeadline. unfold retries in *. cbv zeta.
  unfold on_machine, service_machine in Hres4, Hg4 |- *. destruct (gperform o _ g5) as [res' g4'].
  simpl in Hres4, Hg4. subst res' g4'. split.
  { do 3 (apply elem_of_app; right). apply elem_of_app. left. apply list_elem_of_here. }
  destruct res as [t'|e]; [|destruct e; first [exact I | apply exec_traced; by exists tr6]].
  assert (exec (calm id) (modify_core (remove_external (ts_id started, ts_attempt started))) g4 tt g') as He' by
    (apply exec_traced; by eexists).
  apply exec_modify in He' as (g6 & Hc6 & ->). eauto.
Qed.

Lemma outcome_allowed task started state output retryable now1 now2 :
  let t := st_summary task in
  ts_state t = Running → ts_attempt started = ts_attempt t →
  (retryable = true → output = None) → validate_diagnostics state = Ok tt →
  validate_encoded_output state output = Ok tt →
  transition_allowed (outcome_command started t state output retryable now1 now2) t.
Proof.
  intros t Hrun Ha Ho Hd Hv. unfold outcome_command.
  destruct (retries started t retryable) eqn:Hr.
  - assert (output = None) as -> by (apply Ho; unfold retries in Hr; by destruct retryable).
    split; simpl; try done.
    left. by rewrite Hrun.
  - split; simpl; try done; [|by rewrite Hrun].
    left. rewrite Hrun. by destruct state.
Qed.

(** The task was running, so the write does not conflict. *)
Lemma outcome_no_conflict task started state output retryable now1 now2 :
  let t := st_summary task in
  ts_state t = Running → ts_attempt started = ts_attempt t →
  transition_conflicts (outcome_command started t state output retryable now1 now2) t = false.
Proof.
  intros t Hrun Ha. unfold transition_conflicts. simpl. rewrite Ha, !N.eqb_refl, Hrun. simpl.
  by destruct (retries _ _ _), state.
Qed.

(** An outcome that is not written faults the service. *)
Lemma refused_latches id task c e (s' : S) g1 g' :
  gtasks g1 !! id = Some task → transition_conflicts c (st_summary task) = false →
  transition_outcome c (gtasks g1) (tasks_of s') (Err e) →
  match e with
  | Conflict => True
  | _ => exec (calm id) (latch_fault (StoreError_to_string e))
           {| g_world := {| w_store := s'; w_core := w_core (g_world g1) |}; g_used := g_used g1;
              g_started := g_started g1; g_finished := g_finished g1 |} tt g'
  end → tc_id c = id →
  faulted g' ∧ co_shutting_down (gcore g') = true ∧ gtasks g' !! id = Some task.
Proof.
  intros Hid Hnc (Hsame & Hconf & _) Hlatch Hcid. assert (e ≠ Conflict) as Hne.
  { intros ->. destruct (Hconf eq_refl) as (task1 & Hid1 & Hc'). rewrite Hcid in Hid1. congruence. }
  assert (exec (calm id) (latch_fault (StoreError_to_string e))
    {| g_world := {| w_store := s'; w_core := w_core (g_world g1) |}; g_used := g_used g1;
       g_started := g_started g1; g_finished := g_finished g1 |} tt g') as (? & ? & ->)%exec_latch by (by destruct e).
  split_and!; [done..|]. unfold gtasks in *. cbn. by rewrite Hsame.
Qed.

(** The store answered the read, or the write of an outcome it should take,
    with an error; one that refuses nothing has failed. *)
Definition store_failed id t started state output retryable (trace : list (Oracle * reply Op)) : Prop :=
  ∃ o e, (reliable (S := S) → is_Some (or_disk o)) ∧
    ((o, Reply (OpGet id) (Err e)) ∈ trace ∨
     ∃ now1 now2, let c := outcome_command started t state output retryable now1 now2 in
       transition_allowed c t ∧ (o, Reply (OpTransition c) (Err e)) ∈ trace).

(** Alone with its task, [finish] writes the outcome. *)
Lemma finish_writes id task started state output retryable g g' trace :
  let t := st_summary task in
  ginv g → gtasks g !! id = Some task → ts_state t = Running → ts_id started = id →
  ts_attempt started = ts_attempt t → (retryable = true → output = None) →
  is_terminal state = true → validate_diagnostics state = Ok tt →
  validate_encoded_output state output = Ok tt →
  exec_trace (calm id) (finish cf started state output retryable) g tt g' trace →
  (store_failed id t started state output retryable trace ∧
   faulted g' ∧ co_shutting_down (gcore g') = true ∧ gtasks g' !! id = Some task) ∨
  ∃ now1 now2,
    let c := outcome_command started t state output retryable now1 now2 in
    let t' := settle_state c (ts_state_version t + 1) (enter_state c t) in
    gtasks g' !! id = Some {| st_request := st_request task; st_summary := t' |} ∨
    (retries started t retryable = false ∧ gtasks g' !! id = None ∧ g_finished g' !! id = Some t').
Proof.
  intros t Hi Hid Hrun Hst Ha Ho Hterm Hd Hv He.
  destruct (finish_until_write _ _ _ _ _ _ _ _ _ Hid Hrun Hst (gi_store _ Hi) He)
    as [(o & e & m & g1 & [_ Hid1] & Hdisk & Hin & Hlatch)|(o & g1 & now1 & now2 & Hc1 & Hrest)].
  { left. split; [exists o, e; by split; [|left]|].
    apply exec_latch in Hlatch as (? & ? & ->). by rewrite Hid1. }
  pose proof (outcome_no_conflict task started state output retryable now1 now2 Hrun Ha) as Hnc.
  pose proof (outcome_allowed task started state output retryable now1 now2 Hrun Ha Ho Hd Hv) as Hal.
  cbv zeta in *. fold t in Hrest, Hnc, Hal.
  destruct Hc1 as [[Hm1 Hroom1] Hid1]. rewrite Hid in Hid1.
  set (c := outcome_command _ _ _ _ _ _ _) in *. assert (tc_id c = id) as Hcid by done.
  pose proof (mv_inv _ _ _ Hm1) as Hi1.
  pose proof (disk_transition o c _ (gi_store _ Hi1) (Hroom1 _)) as Hlaw.
  unfold gperform, perform, on_store in Hrest.
  destruct (disk_write _ _ _) as [res s'] eqn:Hdisk. destruct Hlaw as [_ Hout]. cbn in Hrest.
  destruct res as [t'|e]; cycle 1.
  { left. destruct Hrest as [Hin Hrest]. split.
    - exists o, e. split; [|right; by exists now1, now2]. intros Hrel. unfold disk_write in Hdisk.
      destruct (or_disk o) eqn:Hod; [done|]. exfalso.
      pose proof (law_reliable (w_store (g_world g1)) (or_now o) c task Hrel (gi_store _ Hi1)
        (Hroom1 _)) as Hok. rewrite Hdisk, Hcid in Hok. by specialize (Hok Hid1 Hal).
    - eapply refused_latches; [exact Hid1|exact Hnc|exact Hout|exact Hrest|done]. }
  right. exists now1, now2. cbv zeta. fold c. destruct Hrest as (_ & g3 & co & [[Hm3 _] Hid3] & ->).
  destruct Hout as (task1 & Hid1' & _ & Ht' & [Hself _]).
  assert (task1 = task) as -> by (unfold gtasks in Hid1; rewrite Hcid in Hid1'; congruence).
  change (gtasks (set_core co g3)) with (gtasks g3). change (g_finished (set_core co g3)) with (g_finished g3).
  rewrite Hid3. unfold gtasks. simpl.
  rewrite Hcid, Ht' in Hself. destruct Hself as [->|[Hgone Ht]]; [by left|right].
  unfold task_terminal in Ht. simpl in Ht. split; [by destruct (retries started t retryable)|].
  split; [done|]. rewrite (mv_final _ _ (mv_tasks _ _ _ Hm3) id); cbn.
  - rewrite Hst, Ht'. unfold note_finish. cbn. rewrite Ht. apply lookup_insert_eq.
  - by eapply gi_used.
  - exact Hgone.
Qed.

(** An outcome the store does not accept faults the service, and the task
    stays as it was. *)
Lemma finish_refused id task started state output retryable g g' m :
  let t := st_summary task in
  ginv g → gtasks g !! id = Some task → ts_state t = Running → ts_id started = id →
  ts_attempt started = ts_attempt t → retries started t retryable = false →
  validate_diagnostics state = Err m →
  exec (calm id) (finish cf started state output retryable) g tt g' →
  faulted g' ∧ co_shutting_down (gcore g') = true ∧ gtasks g' !! id = Some task.
Proof.
  intros t Hi Hid Hrun Hst Ha Hr Hd [trace He]%exec_traced.
  destruct (finish_until_write _ _ _ _ _ _ _ _ _ Hid Hrun Hst (gi_store _ Hi) He)
    as [(o & e & m' & g1 & [_ Hid1] & _ & _ & Hlatch)|(o & g1 & now1 & now2 & Hc1 & Hrest)].
  { apply exec_latch in Hlatch as (? & ? & ->). by rewrite Hid1. }
  pose proof (outcome_no_conflict task started state output retryable now1 now2 Hrun Ha) as Hnc.
  cbv zeta in *. fold t in Hrest, Hnc. set (c := outcome_command _ _ _ _ _ _ _) in *.
  destruct Hc1 as [[Hm1 Hroom1] Hid1]. rewrite Hid in Hid1.
  assert (tc_state c = state) as Hcs by (unfold c, outcome_command; simpl; by rewrite Hr).
  pose proof (disk_transition o c _ (gi_store _ (mv_inv _ _ _ Hm1)) (Hroom1 _)) as Hlaw.
  unfold gperform, perform, on_store in Hrest.
  destruct (disk_write _ _ _) as [res s']. destruct Hlaw as [_ Hout]. cbn in Hrest.
  destruct res as [t'|e].
  { destruct Hout as (task1 & _ & Hal & _). pose proof (ta_diagnostics _ _ Hal) as Hd'.
    rewrite Hcs in Hd'. congruence. }
  eapply refused_latches; [exact Hid1|exact Hnc|exact Hout|exact (proj2 Hrest)|done].
Qed.
End attempts.
