(* ===== verification/ServiceFixtures.v ===== *)
(** * A concrete service

    A service over the in-memory store with one handler, and schedules of its
    threads, for evaluating what the theorems talk about. *)

From S2P Require Import Prelude TaskState Model Engine RetryPolicy Requests Handlers MemoryStore.
From S2P Require Import MemoryInvariant MemoryPreservation MemoryHistory MemoryQueries Fixtures.
From S2P Require Import RequestProperties TaskStore StoreOwner ServiceMonad Service ServiceLogic ServiceSpecs.
From S2P Require Import ServiceScheduler ServicePool ServiceAttempts.
From S2P Require Import Programs.

(** ** Schedules *)

Section schedules.
Context `{ET : !ExternalTypes, SJ : !SnapshotJson, CT : !CodecTypes, MW : !MetadataWire,
          HF : !HandlerFutures, EX : !ErrorTexts}.
Context {S : Type} `{TS : !TaskStore S, TL : !TaskStoreLaws S}.
Context (cf : ServiceConfig).

Definition next_admissible_b {A} (p : prog A) (g : Ghost (S := S)) : bool :=
  match p with Step op _ => admissible_b op g | Ret _ => true end.
Definition action_admissible_b (a : Action (S := S)) (P : Pool (S := S)) : bool :=
  match a with
  | ActScheduler _ => next_admissible_b (p_scheduler P) (p_ghost P)
  | ActThread i _ => from_option (λ p, next_admissible_b p (p_ghost P)) true (p_threads P !! i)
  | ActOther _ => false
  | _ => true
  end.

Lemma next_admissible_b_true {A} (p : prog A) (g : Ghost (S := S)) :
  next_admissible_b p g = true → next_admissible p g.
Proof. destruct p; [done|]. apply admissible_b_true. Qed.
Lemma action_admissible_b_true a (P : Pool (S := S)) :
  action_admissible_b a P = true → action_admissible a P.
Proof.
  destruct a; simpl; try done; [apply next_admissible_b_true|].
  destruct (p_threads P !! i); [|done]. apply next_admissible_b_true.
Qed.

(** A list of actions, each checked. *)
Fixpoint schedule (l : list (Action (S := S))) (P : Pool (S := S)) : option Pool :=
  match l with
  | [] => Some P
  | a :: rest =>
      if room_b (p_ghost P) && action_admissible_b a P then act cf a P ≫= schedule rest else None
  end.

Lemma schedule_steps l P P' : schedule l P = Some P' → rtc (pool_step cf) P P'.
Proof.
  revert P. induction l as [|a l IH]; intros P; simpl; [by intros [= ->]|].
  destruct (room_b _) eqn:Hr; [|done]. destruct (action_admissible_b a P) eqn:Ha; [|done]. simpl.
  destruct (act cf a P) as [P1|] eqn:Hact; [|done]. intros Hl. eapply rtc_l; [|by apply IH].
  apply (pool_act cf a); [by apply room_b_true|by apply action_admissible_b_true|done].
Qed.

Lemma schedule_reachable fuel pages s l P :
  store_ok s → schedule l (service_start cf fuel pages s) = Some P → service_reachable cf P.
Proof. intros Hs Hl. exists fuel, pages, s. split; [done|]. by eapply schedule_steps. Qed.
End schedules.

(** ** The service *)

#[local] Existing Instances fixture_types fixture_json fixture_codec_types fixture_wire
  fixture_futures.

Definition fixture_texts : ErrorTexts :=
  {| dispatch_error_text := λ _, "dispatch"%string; encode_error_text := λ _, "encode"%string |}.
#[local] Existing Instance fixture_texts.

(** Ten finished tasks of history, a hundred payload bytes, five unfinished tasks. *)
Definition service_limits : MemoryLimits := with_limits 10 100 5.
Lemma service_limits_ok : limits_ok service_limits.
Proof. by split. Qed.

Definition fixture_store : TaskStore MemoryState := memory_task_store service_limits.
#[local] Existing Instance fixture_store.
Definition fixture_store_laws : TaskStoreLaws MemoryState :=
  memory_store_laws service_limits service_limits_ok.
#[local] Existing Instance fixture_store_laws.
Definition fixture_owned : OwnedStore MemoryState := memory_owned_store.
#[local] Existing Instance fixture_owned.
Definition fixture_owned_laws : OwnedStoreLaws MemoryState :=
  memory_owned_laws service_limits service_limits_ok.

Definition demo_service : ServiceConfig :=
  {| cf_codecs := demo_codecs; cf_handlers := register_all demo_attempts registry_new;
     cf_capacity := demo_capacity; cf_max_running_tasks := 2; cf_scan_page_size := 16;
     cf_max_resource_bypasses := 1; cf_max_attempts := 2; cf_retry_policy := RetryPolicy_default |}.

(** The clock shows [now], the generator yields [id], a handler's run ends as
    [execution] says, a hook succeeds. *)
Definition demo_oracle (now id : N) (execution : HandlerExecution) : Oracle :=
  {| or_now := now; or_id := Ok id; or_run := λ _ _ _, execution; or_hook := λ _, HookDone;
     or_disk := None; or_panics := false |}.
Definition succeeds : HandlerExecution := Some (Ok (RunSucceeded {| to_summary := [Byte.x01] |})).

Definition demo_pool0 : Pool := service_start demo_service 20 5 memory_state_new.

Definition submitted : list (Action (S := MemoryState)) :=
  ActCall (CallSubmit demo_typed_request) :: replicate 4 (ActThread 0 (demo_oracle 5 1 succeeds)).
(** The scheduler's round up to the spawn of the first attempt. *)
Definition scanned : list (Action (S := MemoryState)) := replicate 18 (ActScheduler (demo_oracle 6 0 succeeds)).

(** A handler starts on its own thread and returns; its attempt is about to
    be finished when a client cancels the task. *)
Definition cancelled_at_finish : list (Action (S := MemoryState)) :=
  [ActSpawn 0 0] ++ replicate 10 (ActThread 1 (demo_oracle 7 0 succeeds)) ++
  [ActCall (CallCancel 1)] ++ replicate 6 (ActThread 2 (demo_oracle 8 0 succeeds)) ++
  replicate 4 (ActThread 1 (demo_oracle 9 0 succeeds)).

(** The demonstration pools. *)
Definition pool_or_start (P : option Pool) : Pool := default demo_pool0 P.
Definition demo_pool1 : Pool := pool_or_start (schedule demo_service submitted demo_pool0).
Definition demo_pool2 : Pool := pool_or_start (schedule demo_service scanned demo_pool1).
Definition demo_pool3 : Pool :=
  pool_or_start (schedule demo_service cancelled_at_finish demo_pool2).

(** Pools hold programs, so only whether a schedule runs is computed. *)
Lemma schedule_runs l P :
  is_some (schedule demo_service l P) = true →
  rtc (pool_step demo_service) P (pool_or_start (schedule demo_service l P)).
Proof.
  intros Hs. destruct (schedule demo_service l P) as [P'|] eqn:Hl; [|done].
  by eapply schedule_steps.
Qed.

Lemma demo_pool0_reachable : service_reachable demo_service demo_pool0.
Proof. exists 20%nat, 5%nat, memory_state_new. split; [apply wf_new|done]. Qed.
Lemma demo_pool1_steps : rtc (pool_step demo_service) demo_pool0 demo_pool1.
Proof. apply schedule_runs. vm_compute. reflexivity. Qed.
Lemma demo_pool2_steps : rtc (pool_step demo_service) demo_pool1 demo_pool2.
Proof. apply schedule_runs. vm_compute. reflexivity. Qed.
Lemma demo_pool3_steps : rtc (pool_step demo_service) demo_pool2 demo_pool3.
Proof. apply schedule_runs. vm_compute. reflexivity. Qed.

Lemma reachable_steps P P' :
  service_reachable demo_service P → rtc (pool_step demo_service) P P' →
  service_reachable demo_service P'.
Proof.
  intros (fuel & pages & s & Hs & Hr) Hr'. exists fuel, pages, s. split; [done|]. by etrans.
Qed.

Lemma demo_pool1_reachable : service_reachable demo_service demo_pool1.
Proof. exact (reachable_steps _ _ demo_pool0_reachable demo_pool1_steps). Qed.
Lemma demo_pool2_reachable : service_reachable demo_service demo_pool2.
Proof. exact (reachable_steps _ _ demo_pool1_reachable demo_pool2_steps). Qed.
Lemma demo_pool3_reachable : service_reachable demo_service demo_pool3.
Proof. exact (reachable_steps _ _ demo_pool2_reachable demo_pool3_steps). Qed.

(** The task of a pool. *)
Definition pool_task (id : TaskId) (P : Pool) : StoredTask :=
  default {| st_request := demo_request None 0;
             st_summary := accepted_summary 0 id (demo_request None 0) |}
    (gtasks (p_ghost P) !! id).

(** ** Programs alone *)

Section alone.
Context (cf : ServiceConfig).

(** What a program that runs alone answers and leaves behind. *)
Definition ran {A} (d : A) (o : Oracle) (p : prog A) (g : Ghost) : A * Ghost :=
  default (d, g) (alone o p g).

Lemma ran_exec {A} (d : A) R G Q o (p : prog A) a g :
  (∀ g, ginv g → room g → R g g) → (∀ g g', G g g' → moves cf g g') →
  ginv g → wp R G p Q g → is_some (alone o p g) = true → (ran d o p g).1 = a →
  exec R p g a (ran d o p g).2.
Proof.
  intros HR HG Hi Hw Hs <-. unfold ran. destruct (alone o p g) as [[a g']|] eqn:Ha; [|done].
  by eapply alone_exec.
Qed.

Lemma others_refl g : ginv g → room g → others cf g g.
Proof. intros Hi Hr. split; [by apply moves_refl|done]. Qed.
Lemma calm_refl id g : ginv g → room g → calm cf id g g.
Proof. intros Hi Hr. split; [by apply others_refl|done]. Qed.
Lemma sched_refl g : ginv g → room g → sched_rely cf g g.
Proof. intros Hi Hr. split; [by apply others_refl|done]. Qed.
Lemma calm_moves id g g' : calm cf id g g' → moves cf g g' ∧ room g'.
Proof. by intros [? _]. Qed.
End alone.

(** ** A handler with a cancellation hook *)

Definition hook_attempt : Attempt :=
  {| at_descriptor :=
       {| hd_kind_id := "copy"%string; hd_payload_type_id := "demo.bytes"%string : ModelIdBuf;
          hd_accepted_schema_versions := [2]; hd_cancellation_mode := ExternalHook |};
     at_input_type := "Bytes"%string : TypeId; at_run := λ v _, v; at_source := "demo"%string;
     at_hook := Some (λ _ _, tt) |}.
Definition hook_service : ServiceConfig :=
  {| cf_codecs := demo_codecs; cf_handlers := register_all [hook_attempt] registry_new;
     cf_capacity := demo_capacity; cf_max_running_tasks := 2; cf_scan_page_size := 16;
     cf_max_resource_bypasses := 1; cf_max_attempts := 2; cf_retry_policy := RetryPolicy_default |}.

(** A task is submitted, started and cancelled; its hook is about to run. *)
Definition hook_requested : list (Action (S := MemoryState)) :=
  submitted ++ scanned ++ [ActCall (CallCancel 1)] ++
  replicate 6 (ActThread 1 (demo_oracle 8 0 succeeds)).
Definition hook_start : Pool := service_start hook_service 20 5 memory_state_new.
Definition hook_pool : Pool := default hook_start (schedule hook_service hook_requested hook_start).

Lemma hook_pool_reachable : service_reachable hook_service hook_pool.
Proof.
  exists 20%nat, 5%nat, memory_state_new. split; [apply wf_new|]. unfold hook_pool.
  assert (is_some (schedule hook_service hook_requested hook_start) = true) as Hs
    by (vm_compute; reflexivity).
  destruct (schedule _ _ _) as [P|] eqn:Hl; [|done]. by eapply schedule_steps.
Qed.
