(* ===== verification/ServiceClient.v ===== *)
(** * The service as its clients see it

    The read operations of [typed_task_execution_service.rs] among the running
    service, and its notification operations, which go to the publisher when
    there is one. *)

From S2P Require Import Prelude TaskState Model Engine RetryPolicy Requests Handlers MemoryStore.
From S2P Require Import MemoryInvariant MemoryPreservation MemoryHistory MemoryQueries Fixtures.
From S2P Require Import RequestProperties SqliteStore SqliteAdmin TaskStore Programs ServiceMonad.
From S2P Require Import Publisher Service ServiceLogic ServiceSpecs ServiceScheduler ServicePool.
From S2P Require Import ServiceAttempts ServiceFixtures.

(** ** Reads *)

Section reads.
Context `{ET : !ExternalTypes, SJ : !SnapshotJson, CT : !CodecTypes, MW : !MetadataWire,
          HF : !HandlerFutures, EX : !ErrorTexts}.
Context {S : Type} `{TS : !TaskStore S, TL : !TaskStoreLaws S}.
Context (cf : ServiceConfig).
Implicit Types (task : StoredTask) (g : Ghost (S := S)) (P : Pool (S := S)) (t : TaskSummary).

Abbreviation client_wp := (wp (others cf) (quiet cf)).

(** A read answers with the state in which it happens, unless the disk fails. *)
Definition disk_or {A} (r : result A TaskServiceError) (a : A) : Prop :=
  match r with Ok a' => a' = a | Err e => ∃ m, e = Store (Failure m) end.

(** The disk has failed one of the operations of a run, with this error. *)
Definition disk_failed (e : TaskServiceError) (trace : list (Oracle * reply Op)) : Prop :=
  ∃ o y m, (o, y) ∈ trace ∧ or_disk o = Some m ∧ e = Store (Failure m).

Lemma service_get_spec id g :
  client_wp (service_get id)
    (λ r g', moves cf g g' ∧ disk_or r (st_summary <$> gtasks g' !! id)) g.
Proof.
  apply wp_bind. eapply wp_get; [apply others_moves|apply quiet_intro|..].
  - intros g1 m Hm. split; [done|]. by exists m.
  - intros g1 Hm. by split.
Qed.

Lemma service_checkpoint_spec id g :
  client_wp (service_get_state_checkpoint id)
    (λ r g', moves cf g g' ∧ ∀ task, gtasks g' !! id = Some task →
       disk_or r (Some (checkpoint_of task))) g.
Proof.
  apply wp_bind. eapply wp_asks; [apply others_moves|apply quiet_intro|done|]. intros o g1 Hm.
  split; [done|]. intros task Hid. unfold gperform. cbn. unfold disk_read.
  destruct (or_disk o) as [m|]; [by exists m|].
  by rewrite (law_checkpoint _ _ _ (gi_store _ (mv_inv _ _ _ Hm)) Hid).
Qed.

Lemma service_query_spec q size g :
  checked_page_size q = Ok size → (∀ c, tq_after q = Some c → cursor_fits c) →
  client_wp (service_query q)
    (λ r g', moves cf g g' ∧ disk_or r (page_of size (selection q (gtasks g')))) g.
Proof.
  intros Hq Hc. apply wp_bind. eapply wp_asks; [apply others_moves|apply quiet_intro|done|].
  intros o g1 Hm. split; [done|]. unfold gperform. cbn. unfold disk_read.
  destruct (or_disk o) as [m|]; [by exists m|].
  by rewrite (law_list _ _ _ (gi_store _ (mv_inv _ _ _ Hm)) Hq Hc).
Qed.

(** Every operation of a run that reads once: the state it happens in and the
    answer it gets. *)
Lemma read_traced {X Y} (op : Op X) (k : X → Y) g y g' trace :
  asks op = true → exec_trace (others cf) (x ← call op; Ret (k x)) g y g' trace →
  moves cf g g' ∧ ∃ o, y = k (gperform o op g').1 ∧ trace = [(o, Reply op (gperform o op g').1)].
Proof.
  intros Ha (o & g1 & rest & [Hm _] & _ & -> & -> & -> & ->). unfold on_machine, service_machine.
  rewrite (gperform_asks o op g1 Ha). eauto.
Qed.

(** A store that answers fails a read only with its disk. *)
Lemma read_disk {A} (op : Op (result A StoreError)) o (res : result A StoreError) e g :
  (gperform o op g).1 = disk_read o res → is_ok res = true → (gperform o op g).1 = Err e →
  disk_failed (Store e) [(o, Reply op (Err e : result A StoreError))].
Proof.
  intros -> Hok He. unfold disk_read in He. destruct (or_disk o) as [m|] eqn:Hd; [|by subst res].
  injection He as <-. eexists o, _, m. split_and!; [apply list_elem_of_here|done|done].
Qed.

Lemma get_traced id g r g' trace :
  exec_trace (others cf) (service_get id) g r g' trace →
  moves cf g g' ∧ (∀ e, r = Err e → disk_failed e trace) ∧
  ∀ o, r = Ok o → o = st_summary <$> gtasks g' !! id.
Proof.
  intros [Hm (o & -> & ->)]%read_traced; [|done]. pose proof (gi_store _ (mv_inv _ _ _ Hm)) as Hs.
  split_and!; [done|..].
  - intros e. destruct (gperform o (OpGet id) g').1 as [a|e'] eqn:Hd; [done|]. intros [= <-].
    apply (read_disk _ o (do_get id (w_store (g_world g'))) e' g'); [done| |exact Hd]. by rewrite law_get.
  - intros o'. unfold gperform. cbn. unfold disk_read. destruct (or_disk o); [done|].
    rewrite law_get by done. by intros [= <-].
Qed.

Lemma checkpoint_traced id g r g' trace :
  exec_trace (others cf) (service_get_state_checkpoint id) g r g' trace →
  moves cf g g' ∧ (∀ e, r = Err e → disk_failed e trace) ∧
  ∀ o task, r = Ok o → gtasks g' !! id = Some task → o = Some (checkpoint_of task).
Proof.
  intros [Hm (o & -> & ->)]%read_traced; [|done]. pose proof (gi_store _ (mv_inv _ _ _ Hm)) as Hs.
  split_and!; [done|..].
  - intros e. destruct (gperform o (OpCheckpoint id) g').1 as [a|e'] eqn:Hd; [done|]. intros [= <-].
    apply (read_disk _ o (do_checkpoint id (w_store (g_world g'))) e' g'); [done| |exact Hd]. by apply law_checkpoint_ok.
  - intros o' task Hr Hid. unfold gperform in Hr. cbn in Hr. unfold disk_read in Hr.
    destruct (or_disk o); [done|]. rewrite (law_checkpoint _ _ _ Hs Hid) in Hr. by injection Hr.
Qed.

Lemma query_traced q size g r g' trace :
  checked_page_size q = Ok size → (∀ c, tq_after q = Some c → cursor_fits c) →
  exec_trace (others cf) (service_query q) g r g' trace →
  moves cf g g' ∧ (∀ e, r = Err e → disk_failed e trace) ∧
  ∀ page, r = Ok page → page = page_of size (selection q (gtasks g')).
Proof.
  intros Hq Hc [Hm (o & -> & ->)]%read_traced; [|done].
  pose proof (gi_store _ (mv_inv _ _ _ Hm)) as Hs. split_and!; [done|..].
  - intros e. destruct (gperform o (OpList q) g').1 as [a|e'] eqn:Hd; [done|]. intros [= <-].
    apply (read_disk _ o (do_list q (w_store (g_world g'))) e' g'); [done| |exact Hd]. by rewrite (law_list _ _ _ Hs Hq Hc).
  - intros page. unfold gperform. cbn. unfold disk_read. destruct (or_disk o); [done|].
    rewrite (law_list _ _ _ Hs Hq Hc). by intros [= <-].
Qed.

(** The same task, later. *)
Definition later_summary t t' : Prop :=
  ∃ r, task_moves {| st_request := r; st_summary := t |} {| st_request := r; st_summary := t' |}.

(** What a client may read after it has seen [t]: a later version of the same
    task; or nothing, once the store has reported it finished. *)
Definition reads_after t (o : option TaskSummary) g : Prop :=
  match o with
  | Some t' => later_summary t t'
  | None => ∃ t', g_finished g !! ts_id t = Some t' ∧ is_terminal (ts_state t') = true ∧ later_summary t t'
  end.

Lemma moves_later task task' : task_moves task task' → later_summary (st_summary task) (st_summary task').
Proof.
  intros Hm. exists (st_request task). destruct task as [r t], task' as [r' t'].
  pose proof (adv_request _ _ (tm_advances _ _ Hm)) as He. cbn in He |- *. by subst r'.
Qed.

Lemma seen_reads g task :
  seen (ts_id (st_summary task)) task g →
  reads_after (st_summary task) (st_summary <$> gtasks g !! ts_id (st_summary task)) g.
Proof.
  intros [_ Hk]. unfold reads_after, task_kept_as in *. destruct (gtasks g !! _); cbn in *.
  - by apply moves_later.
  - destruct Hk as (t & ? & ? & Hm). exists t. split_and!; [done..|]. exact (moves_later _ _ Hm).
Qed.

Lemma service_ids g : ginv g → ids_match (gtasks g).
Proof. intros Hi id task Hid. apply (law_task _ _ _ (gi_store _ Hi) Hid). Qed.

(** C6. A client submits a request and then reads, while the scheduler, the
    attempts and all other clients go on in between: a lookup by identifier, the
    checkpoint, and a page of a query.  Each of the three reads fails only when
    the disk has failed it, as the trace of the read shows, and with the disk's
    error; one that succeeds answers with the tasks of one state.  The
    submitted task is found, at no earlier version; when it is not found by
    its identifier, or is gone when its checkpoint is read, the store has
    reported it finished, at a later version than the one submitted
    ([g_finished]).  What is read later is the same task at no earlier version
    and attempt, along its lifecycle, unchanged if the version is unchanged;
    and a task that a client has found gone never comes back. *)
Theorem service_client_view P request t q size r1 r2 r3 g1 g2 g3 g4 tr1 tr2 tr3 :
  service_reachable cf P →
  exec (others cf) (submit cf request) (p_ghost P) (Ok t) g1 →
  exec_trace (others cf) (service_get (ts_id t)) g1 r1 g2 tr1 →
  exec_trace (others cf) (service_get_state_checkpoint (ts_id t)) g2 r2 g3 tr2 →
  checked_page_size q = Ok size → (∀ c, tq_after q = Some c → cursor_fits c) →
  exec_trace (others cf) (service_query q) g3 r3 g4 tr3 →
  ((∀ e, r1 = Err e → disk_failed e tr1) ∧ (∀ e, r2 = Err e → disk_failed e tr2) ∧
   (∀ e, r3 = Err e → disk_failed e tr3)) ∧
  (∀ o, r1 = Ok o → o = st_summary <$> gtasks g2 !! ts_id t ∧ reads_after t o g2) ∧
  (∀ ck2, r2 = Ok ck2 →
     match gtasks g3 !! ts_id t with
     | Some task => ck2 = Some (checkpoint_of task) ∧ later_summary t (st_summary task)
     | None => reads_after t None g3
     end) ∧
  (∀ page, r3 = Ok page → page = page_of size (selection q (gtasks g4))) ∧
  ∀ o ck2 page t', r1 = Ok o → r2 = Ok ck2 → r3 = Ok page →
    t' ∈ pg_records page → ts_id t' = ts_id t →
    ∃ t1 ck, o = Some t1 ∧ ck2 = Some ck ∧ later_summary t1 t' ∧
      ts_state_version t1 ≤ ck_state_version ck ≤ ts_state_version t' ∧
      rtc lifecycle_step (ts_state t1) (ck_state ck) ∧
      rtc lifecycle_step (ck_state ck) (ts_state t').
Proof.
  intros Hr Hsub Hget Hck Hq Hc Hquery. set (id := ts_id t) in *.
  pose proof (po_inv _ _ (service_reachable_ok cf P Hr)) as Hi.
  destruct (wp_exec _ (quiet cf) _ _ _ _ _ (submit_spec cf _ _ (others_moves cf) (quiet_intro cf)
    (quiet_moves cf) request _ Hi) Hsub t eq_refl) as (task & Ht & Hseen).
  destruct (get_traced _ _ _ _ _ Hget) as (Hm2 & He1 & Hr1).
  destruct (checkpoint_traced _ _ _ _ _ Hck) as (Hm3 & He2 & Hr2).
  destruct (query_traced _ _ _ _ _ _ Hq Hc Hquery) as (Hm4 & He3 & Hr3).
  pose proof (seen_tasks _ _ _ _ (mv_tasks _ _ _ Hm2) Hseen) as Hs2.
  pose proof (seen_tasks _ _ _ _ (mv_tasks _ _ _ Hm3) Hs2) as Hs3.
  subst t. pose proof (seen_reads _ _ Hs2) as Hread2. pose proof (seen_reads _ _ Hs3) as Hread3.
  fold id in Hread2, Hread3. split_and!; [done|done|done|..].
  { intros o Ho. rewrite (Hr1 o Ho). by split. }
  { intros ck2 Hk. destruct (gtasks g3 !! id) eqn:H3; [|exact Hread3].
    split; [by eapply Hr2|exact Hread3]. }
  { done. }
  intros o ck2 page t' H1 Hk H3 Ht' Hid'. apply Hr1 in H1 as ->. apply Hr3 in H3 as ->.
  apply subseteq_take, elem_of_selection in Ht' as (_ & task' & H4 & <-);
    [|apply service_ids, Hm4]. rewrite Hid' in H4.
  destruct (gtasks g3 !! id) as [task3|] eqn:H3.
  2:{ rewrite (mv_gone _ _ (mv_tasks _ _ _ Hm4) id (proj1 Hs3) H3) in H4. done. }
  destruct (gtasks g2 !! id) as [task2|] eqn:H2.
  2:{ rewrite (mv_gone _ _ (mv_tasks _ _ _ Hm3) id (proj1 Hs2) H2) in H3. done. }
  pose proof (mv_kept _ _ (mv_tasks _ _ _ Hm3) id task2 (proj1 Hs2) H2) as K23. rewrite H3 in K23.
  pose proof (mv_kept _ _ (mv_tasks _ _ _ Hm4) id task3 (proj1 Hs3) H3) as K34. rewrite H4 in K34.
  exists (st_summary task2), (checkpoint_of task3). split_and!.
  - done.
  - by eapply Hr2.
  - apply moves_later. exact (transitivity (K23 : task_moves _ _) (K34 : task_moves _ _)).
  - apply (adv_version _ _ (tm_advances _ _ K23)).
  - apply (adv_version _ _ (tm_advances _ _ K34)).
  - apply (adv_lifecycle _ _ (tm_advances _ _ K23)).
  - apply (adv_lifecycle _ _ (tm_advances _ _ K34)).
Qed.
End reads.

#[local] Existing Instances fixture_types fixture_json fixture_codec_types fixture_wire
  fixture_futures fixture_texts fixture_store fixture_store_laws.

Definition everything : TaskQuery :=
  {| tq_states := []; tq_category := None; tq_correlation_key := None; tq_after := None;
     tq_limit := 10 |}.

(** A client alone. *)
Lemma client_ran {A} (d : A) Q (p : prog A) o g :
  ginv g → wp (others demo_service) (quiet demo_service) p Q g → is_some (alone o p g) = true →
  exec (others demo_service) p g (ran d o p g).1 (ran d o p g).2 ∧ Q (ran d o p g).1 (ran d o p g).2.
Proof.
  intros Hi Hw Hs. assert (exec (others demo_service) p g (ran d o p g).1 (ran d o p g).2) as He
    by (eapply ran_exec; [apply others_refl|apply quiet_moves|done|done|done|done]).
  split; [done|]. by eapply wp_exec.
Qed.

Lemma everything_cursor c : tq_after everything = Some c → cursor_fits c.
Proof. done. Qed.

(** A client that submits a request and reads the task back. *)
Definition client1 := ran (Err ShuttingDown) (demo_oracle 5 1 succeeds)
                        (submit demo_service demo_typed_request) (p_ghost demo_pool0).
Definition client2 := ran (Err ShuttingDown) (demo_oracle 6 0 succeeds) (service_get 1) client1.2.
Definition client3 := ran (Err ShuttingDown) (demo_oracle 7 0 succeeds)
                        (service_get_state_checkpoint 1) client2.2.
Definition client4 := ran (Err ShuttingDown) (demo_oracle 8 0 succeeds) (service_query everything)
                        client3.2.
Definition submitted_task : TaskSummary :=
  match client1.1 with Ok t => t | Err _ => st_summary (pool_task 1 demo_pool0) end.

Lemma client_execs :
  exec (others demo_service) (submit demo_service demo_typed_request) (p_ghost demo_pool0)
    client1.1 client1.2 ∧
  exec (others demo_service) (service_get 1) client1.2 client2.1 client2.2 ∧
  exec (others demo_service) (service_get_state_checkpoint 1) client2.2 client3.1 client3.2 ∧
  exec (others demo_service) (service_query everything) client3.2 client4.1 client4.2.
Proof.
  pose proof (po_inv _ _ (service_reachable_ok _ _ demo_pool0_reachable)) as Hi.
  destruct (client_ran (Err ShuttingDown) _ _ (demo_oracle 5 1 succeeds) _ Hi (wp_moves demo_service
    _ _ (others_moves _) (quiet_moves _) _ _ _ Hi (submit_spec demo_service _ _ (others_moves _)
    (quiet_intro _) (quiet_moves _) demo_typed_request _ Hi))) as [E1 [_ M1]];
    [vm_compute; reflexivity|].
  destruct (client_ran (Err ShuttingDown) _ _ (demo_oracle 6 0 succeeds) _ (mv_inv _ _ _ M1)
    (service_get_spec demo_service 1 client1.2)) as [E2 [M2 _]]; [vm_compute; reflexivity|].
  destruct (client_ran (Err ShuttingDown) _ _ (demo_oracle 7 0 succeeds) _ (mv_inv _ _ _ M2)
    (service_checkpoint_spec demo_service 1 client2.2)) as [E3 [M3 _]]; [vm_compute; reflexivity|].
  destruct (client_ran (Err ShuttingDown) _ _ (demo_oracle 8 0 succeeds) _ (mv_inv _ _ _ M3)
    (service_query_spec demo_service everything 10 client3.2 eq_refl everything_cursor))
    as [E4 _]; [vm_compute; reflexivity|].
  split; [exact E1|]. split; [exact E2|]. split; [exact E3|exact E4].
Qed.

Lemma service_client_view_witness :
  client1.1 = Ok submitted_task ∧ ts_id submitted_task = 1 ∧
  (match client4.1 with Ok page => pg_records page | Err _ => [] end) = [submitted_task] ∧
  ∃ t1 ck, client2.1 = Ok (Some t1) ∧ client3.1 = Ok (Some ck) ∧
    later_summary submitted_task t1 ∧ later_summary t1 submitted_task ∧
    ts_state_version t1 ≤ ck_state_version ck ≤ ts_state_version submitted_task.
Proof.
  assert (client1.1 = Ok submitted_task) as H1 by (vm_compute; reflexivity).
  assert (ts_id submitted_task = 1) as Hid by (vm_compute; reflexivity).
  assert ((match client4.1 with Ok page => pg_records page | Err _ => [] end) = [submitted_task])
    as H4 by (vm_compute; reflexivity).
  split; [exact H1|]. split; [exact Hid|]. split; [exact H4|].
  destruct client_execs as (E1 & E2 & E3 & E4). rewrite H1 in E1. rewrite <- Hid in E2, E3.
  apply exec_traced in E2 as [tr2 E2]. apply exec_traced in E3 as [tr3 E3].
  apply exec_traced in E4 as [tr4 E4].
  destruct (service_client_view demo_service demo_pool0 _ _ everything 10 _ _ _ _ _ _ _ _ _ _
    demo_pool0_reachable E1 E2 E3 eq_refl everything_cursor E4)
    as (_ & Hget & _ & _ & Hview).
  destruct client2.1 as [o|e] eqn:R1; [|vm_compute in R1; discriminate].
  destruct client3.1 as [ck2|e] eqn:R2; [|vm_compute in R2; discriminate].
  destruct client4.1 as [page|e]; [|discriminate].
  destruct (Hget o eq_refl) as [_ Hread].
  destruct (Hview o ck2 page submitted_task eq_refl eq_refl eq_refl) as (t1 & ck & -> & -> & Hafter & Hv & _).
  { rewrite H4. apply list_elem_of_singleton. reflexivity. }
  { reflexivity. }
  exists t1, ck. split; [reflexivity|]. split; [reflexivity|]. split; [exact Hread|].
  split; [exact Hafter|exact Hv].
Defined.
