(* ===== verification/Construction.v ===== *)
(** * Construction

    [src/src/service/typed_task_execution_service_builder.rs] and
    [TypedTaskExecutionService::new]: the options of a service, and its start:
    the ownership of the store is acquired, the publisher prepared and
    unfinished tasks are recovered.  A failure after the acquisition gives the
    ownership back. *)

From S2P Require Import Prelude TaskState Model Engine RetryPolicy Requests Handlers MemoryStore.
From S2P Require Import MemoryInvariant MemoryPreservation MemoryHistory MemoryQueries TaskStore.
From S2P Require Import Programs StoreOwner ServiceMonad Service ServicePool Shutdown.

(** ** Options *)

Section construction.
Context `{ET : !ExternalTypes, SJ : !SnapshotJson, CT : !CodecTypes, MW : !MetadataWire,
          HF : !HandlerFutures, EX : !ErrorTexts}.

(** What the service reads of the event bus: its provider, the capabilities it
    announces, whether the topic's name is accepted and a codec is there. *)
Record EventBusInfo := {
  eb_provider_id : string;
  eb_durable : bool;
  eb_publish_guarantee : PublishGuarantee;
  eb_topic : result unit string;
  eb_publish_codec : result unit string;
}.

Record TypedTaskExecutionServiceBuilder := {
  tb_codecs : ValueBytesCodecRegistry;
  tb_capacity : ResourceCapacity;
  tb_handlers : gmap string Registration;
  tb_max_running_tasks : N;
  tb_scan_page_size : N;
  tb_max_resource_bypasses : N;
  tb_max_attempts : N;
  tb_retry_policy : RetryPolicy;
  tb_event_bus : option EventBusInfo;
  tb_notification_shutdown_timeout_ms : N;
}.

(** [parallelism] is what the system reports; [as u32] keeps the low bits. *)
Definition builder_new (parallelism : option positive) (codecs : ValueBytesCodecRegistry)
    : TypedTaskExecutionServiceBuilder :=
  {| tb_codecs := codecs;
     tb_capacity := {| rc_cpu_slots := from_option N.pos 1 parallelism mod 2 ^ 32;
                       rc_memory_bytes := None; rc_disk_bytes := None; rc_gpus := ∅;
                       rc_custom := ∅ |};
     tb_handlers := registry_new;
     tb_max_running_tasks := from_option N.pos 1 parallelism;
     tb_scan_page_size := 128; tb_max_resource_bypasses := 32; tb_max_attempts := 3;
     tb_retry_policy := RetryPolicy_default; tb_event_bus := None;
     tb_notification_shutdown_timeout_ms := 5000 |}.

(** One call on the builder; the [NonZero] arguments are positive numbers, and
    [handlers_mut] leaves whatever registry was made of the builder's. *)
Inductive BuilderCall :=
| SetCapacity (capacity : ResourceCapacity)
| SetMaxRunningTasks (limit : positive)
| SetScanPageSize (limit : positive)
| SetMaxResourceBypasses (limit : positive)
| SetMaxAttempts (limit : positive)
| SetRetryPolicy (policy : RetryPolicy)
| SetEventBus (bus : EventBusInfo)
| SetNotificationShutdownTimeout (timeout_ms : N)
| SetHandlers (handlers : gmap string Registration).

Definition builder_call (c : BuilderCall) (b : TypedTaskExecutionServiceBuilder)
    : TypedTaskExecutionServiceBuilder :=
  {| tb_codecs := tb_codecs b;
     tb_capacity := match c with SetCapacity capacity => capacity | _ => tb_capacity b end;
     tb_handlers := match c with SetHandlers handlers => handlers | _ => tb_handlers b end;
     tb_max_running_tasks :=
       match c with SetMaxRunningTasks limit => N.pos limit | _ => tb_max_running_tasks b end;
     tb_scan_page_size :=
       match c with
       | SetScanPageSize limit => N.min (N.pos limit) 256 | _ => tb_scan_page_size b
       end;
     tb_max_resource_bypasses :=
       match c with
       | SetMaxResourceBypasses limit => N.pos limit | _ => tb_max_resource_bypasses b
       end;
     tb_max_attempts :=
       match c with SetMaxAttempts limit => N.pos limit | _ => tb_max_attempts b end;
     tb_retry_policy :=
       match c with SetRetryPolicy policy => policy | _ => tb_retry_policy b end;
     tb_event_bus := match c with SetEventBus bus => Some bus | _ => tb_event_bus b end;
     tb_notification_shutdown_timeout_ms :=
       match c with
       | SetNotificationShutdownTimeout timeout_ms => timeout_ms
       | _ => tb_notification_shutdown_timeout_ms b
       end |}.

(** The options [build] passes on. *)
Definition builder_config (b : TypedTaskExecutionServiceBuilder) : ServiceConfig :=
  {| cf_codecs := tb_codecs b; cf_handlers := tb_handlers b; cf_capacity := tb_capacity b;
     cf_max_running_tasks := tb_max_running_tasks b; cf_scan_page_size := tb_scan_page_size b;
     cf_max_resource_bypasses := tb_max_resource_bypasses b;
     cf_max_attempts := tb_max_attempts b; cf_retry_policy := tb_retry_policy b |}.

(** ** The start *)

Context {S : Type} `{TS : !TaskStore S, OS : !OwnedStore S}.

(** How the start of the cleanup thread goes: it reports that it is ready or
    that it has no runtime, it could not be spawned, or it ended before it
    reported. *)
Inductive CleanupStart :=
| CleanupReports (ready : result unit string)
| CleanupNotSpawned (error : string)
| CleanupStopped (error : string).

(** [OwnerReleaseWorker::shared]: the process has one cleanup thread, which the
    first call starts; [slot] says whether it is there. *)
Definition shared (poisoned : option string) (start : CleanupStart) (slot : bool)
    : result unit string * bool :=
  match poisoned with
  | Some error => (Err ("owner cleanup worker lock poisoned: " +:+ error), slot)
  | None =>
      if slot then (Ok tt, slot) else
      match start with
      | CleanupNotSpawned error => (Err ("failed to start owner cleanup worker: " +:+ error), slot)
      | CleanupStopped error => (Err ("owner cleanup worker stopped before ready: " +:+ error), slot)
      | CleanupReports (Err error) =>
          (Err ("failed to create owner cleanup runtime: " +:+ error), slot)
      | CleanupReports (Ok _) => (Ok tt, true)
      end
  end.

(** What happens outside: the start of the cleanup thread, the outcomes of
    locking and unlocking, the answers during recovery, and whether the
    cleanup thread takes a job. *)
Record BuildEnvironment := {
  be_poisoned : option string;
  be_start : CleanupStart;
  be_slot : bool;
  be_lock : result unit StoreError;
  be_unlock : result unit StoreError;
  be_oracle : nat → Oracle;
  be_accepts : bool;
}.

Inductive Build :=
| Built (l : Life (S := S))
| NotBuilt (e : TaskServiceError) (s : S) (jobs : list OwnerEpoch) (reported : bool).

(** A return with an error drops the guard. *)
Definition return_error (env : BuildEnvironment) (e : TaskServiceError) (guard : OwnerReleaseGuard)
    (s : S) : Build :=
  let '(jobs, reported) := guard_drop (be_accepts env) guard [] false in NotBuilt e s jobs reported.

(** The ownership is released first; a failure to do so is the error returned. *)
Definition fail_released (env : BuildEnvironment) (e : TaskServiceError) (epoch : OwnerEpoch)
    (s : S) : Build :=
  let '(answer, s') := do_release (be_unlock env) epoch s in
  let '(res, guard) := guard_release answer (Some epoch) in
  match res with
  | Err release_error => return_error env (Store release_error) guard s'
  | Ok _ => return_error env e guard s'
  end.

(** [TaskEventPublisher::new] can fail on the topic and on the codec. *)
Definition publisher_new (bus : EventBusInfo) : result unit TaskServiceError :=
  match eb_topic bus with
  | Err error =>
      Err (InvalidServiceRequest (String.append "invalid task notification topic: " error))
  | Ok _ =>
      match eb_publish_codec bus with
      | Err source =>
          Err (NotificationCodecUnavailable (eb_provider_id bus) "task.lifecycle" source)
      | Ok _ => Ok tt
      end
  end.

Definition sufficient_guarantee (g : PublishGuarantee) : bool :=
  match g with
  | GuaranteeAccepted | GuaranteeConfirmed | GuaranteeDurablyStored => true
  | OtherGuarantee _ => false
  end.

Definition prepare_publisher (bus : option EventBusInfo) (s : S)
    : result unit TaskServiceError * S :=
  match bus with
  | None => (Ok tt, s)
  | Some bus =>
      if negb (eb_durable bus)
      then (Err (NotificationProviderNotDurable (eb_provider_id bus)), s)
      else if negb (sufficient_guarantee (eb_publish_guarantee bus))
      then (Err (NotificationProviderInsufficientGuarantee (eb_provider_id bus)
                   (eb_publish_guarantee bus)), s)
      else
        match publisher_new bus with
        | Err e => (Err e, s)
        | Ok _ =>
            let '(r, s') := do_enable_outbox s in
            (match r with Err e => Err (Store e) | Ok _ => Ok tt end, s')
        end
  end.

(** [TypedTaskExecutionService::new], called by [build]; [None]: recovery ran
    out of fuel.  [pages] and [fuel] bound the scheduler of the result. *)
Definition build (env : BuildEnvironment) (recovery fuel pages : nat)
    (b : TypedTaskExecutionServiceBuilder) (s : S) : option Build :=
  match (shared (be_poisoned env) (be_start env) (be_slot env)).1 with
  | Err message => Some (NotBuilt (SchedulerUnavailable message) s [] false)
  | Ok _ =>
      let '(acquired, s1) := do_acquire (be_lock env) s in
      match acquired with
      | Err e => Some (NotBuilt (Store e) s1 [] false)
      | Ok epoch =>
          let '(prepared, s2) := prepare_publisher (tb_event_bus b) s1 in
          match prepared with
          | Err e => Some (fail_released env e epoch s2)
          | Ok _ =>
              let '(recovered, (w, _)) := run (W := World S * nat) (be_oracle env)
                (recover_unfinished recovery) ({| w_store := s2; w_core := core_new |}, 0%nat) in
              match recovered with
              | None => None
              | Some (Err e) => Some (fail_released env e epoch (w_store w))
              | Some (Ok _) => Some (Built (life_start (builder_config b) fuel pages epoch w))
              end
          end
      end
  end.
End construction.
