(* ===== verification/ServiceProperties.v ===== *)
(** * The execution service: properties

    Theorems about the running service of [ServicePool] and about its programs
    among the other threads, each with a concrete instance. *)

From S2P Require Import Prelude TaskState Model Engine RetryPolicy Requests Handlers MemoryStore.
From S2P Require Import MemoryInvariant MemoryPreservation MemoryHistory MemoryQueries Fixtures.
From S2P Require Import RequestProperties TaskStore ServiceMonad Service ServiceLogic ServiceSpecs.
From S2P Require Import ServiceScheduler ServicePool ServiceAttempts ServiceRecovery ServiceFixtures.
From S2P Require Import Programs ShutdownThreads ServiceResources.

Section properties.
Context `{ET : !ExternalTypes, SJ : !SnapshotJson, CT : !CodecTypes, MW : !MetadataWire,
          HF : !HandlerFutures, EX : !ErrorTexts}.
Context {S : Type} `{TS : !TaskStore S, TL : !TaskStoreLaws S}.
Context (cf : ServiceConfig).
Implicit Types (task : StoredTask) (g : Ghost (S := S)) (P : Pool (S := S)).

(** C3. However the threads of the service interleave, and whenever the
    application prunes the store beside them, a task follows its lifecycle
    with growing versions and attempts; a recorded cancellation
    stays recorded for the same attempt until the task has finished; a task
    that is not running runs again only under a new attempt number; and a
    task leaves the store only after it has finished.  [g_finished] is what the
    store itself has said: it holds the summary with which it last answered a
    transition of the task into a final state.  A task in the store is on that
    record exactly if it is finished, with its current summary; one that is
    gone is on it, and the recorded summary is a later version of what was
    there. *)
Theorem service_task_history P P' id task :
  service_reachable cf P → rtc (pool_step cf) P P' → gtasks (p_ghost P) !! id = Some task →
  match gtasks (p_ghost P') !! id with
  | Some task' =>
      task_advances task task' ∧
      (cancel_pending (st_summary task) = true →
         task_terminal task' = true ∨
         (cancel_pending (st_summary task') = true ∧
          ts_attempt (st_summary task') = ts_attempt (st_summary task))) ∧
      (ts_state (st_summary task) ≠ Running → ts_state (st_summary task') = Running →
         ts_attempt (st_summary task) < ts_attempt (st_summary task')) ∧
      g_finished (p_ghost P') !! id =
        if task_terminal task' then Some (st_summary task') else None
  | None =>
      ∃ t, g_finished (p_ghost P') !! id = Some t ∧ is_terminal (ts_state t) = true ∧
        task_moves task {| st_request := st_request task; st_summary := t |}
  end.
Proof.
  intros Hr Hs Hid. pose proof (service_reachable_ok cf P Hr) as Hok.
  destruct (pool_steps_ok cf P P' Hok Hs) as [_ Hm].
  pose proof (mv_kept _ _ (mv_tasks _ _ _ Hm) id task (gi_used _ (po_inv _ _ Hok) _ _ Hid) Hid) as Hk.
  destruct (gtasks (p_ghost P') !! id) eqn:Hid'; [|exact Hk]. destruct Hk.
  split_and!; [done..|]. by apply (gi_finished _ (mv_inv _ _ _ Hm)).
Qed.

(** C18. In every state of the running service the reservations of its
    attempts add up to the recorded usage, which stays within the configured
    capacity, and no device is reserved twice.  No reservation is lost, though
    the store may fail and code may panic: each belongs to work that waits, to
    the scheduler or to a thread, which gives it back or hands it over whatever
    it is answered; when all of them have come to their end, the engine is as
    idle as at the start. *)
Theorem service_capacity P :
  capacity_ok (cf_capacity cf) → service_reachable cf P →
  let co := gcore (p_ghost P) in
  ledger_wf (cf_capacity cf) (co_ledger co) ∧
  (∀ r, is_Some (rl_allocations (co_ledger co) !! r) →
     (∃ id running, SpawnRun id running r ∈ co_spawned co) ∨ gives_back r (p_scheduler P) ∨
     one_gives_back r (p_threads P)) ∧
  (halted (p_scheduler P) = true → forallb halted (p_threads P) = true → co_spawned co = [] →
   ledger_equiv (co_ledger co) ledger_new).
Proof.
  intros Hcap Hr co. assert (ledger_wf (cf_capacity cf) (co_ledger co)) as Hwf.
  { destruct Hr as (fuel & pages & s & Hs & Hr).
    destruct (pool_steps_ok cf _ P (service_start_ok cf fuel pages s Hs) Hr) as [_ Hm].
    apply (engine_reachable_wf _ Hcap), (mv_ledger _ _ _ Hm). }
  split_and!; [done|by apply (td_held _ (service_tidy cf P Hr))|]. intros H1 H2 H3.
  eapply ledger_wf_determined; [done|by apply ledger_wf_new|]. by apply (service_idle cf P Hr).
Qed.

(** C8. A started attempt never ends silently: when its thread is done, the
    service is faulted or the task has moved past the version the attempt was
    started with. *)
Theorem service_attempt_settled P id running reservation g' :
  service_reachable cf P →
  SpawnRun id running reservation ∈ co_spawned (gcore (p_ghost P)) →
  exec (others cf) (run_spawned cf id running reservation) (p_ghost P) tt g' →
  is_Some (co_fault (gcore g')) ∨
  ∀ task, gtasks g' !! id = Some task → ts_state_version running < ts_state_version (st_summary task).
Proof.
  intros Hr Hw He. pose proof (po_inv _ _ (service_reachable_ok cf P Hr)) as Hi.
  destruct (wp_exec _ (quiet cf) _ _ _ _ _ (run_spawned_spec cf _ _ (others_moves cf) (quiet_intro cf)
    (quiet_moves cf) id running reservation _ Hi (gi_spawned _ Hi _ Hw)) He) as [Hf|[_ Hp]]; [by left|].
  right. intros task Hid. specialize (Hp task Hid). lia.
Qed.

(** C16. When nobody else writes the task, finishing an attempt writes its
    outcome exactly: the final state and output, or, for a retryable failure
    that was not cancelled and has attempts left, the queued state with the
    deadline of the retry policy; the version grows by one, and identifier,
    attempt, recorded cancellation and progress stay.  A finished task may at
    once leave the history, and then the store has reported it finished with
    exactly this outcome.  Only when the trace of the run shows the store
    answering the read, or the write of this very outcome, which its rules
    allow, with an error (for a store that refuses no allowed transition: on a
    failed disk), nothing is written: the service is faulted and stops, and the
    task is as it was. *)
Theorem service_finish_exact id task started state output retryable g g' trace :
  let t := st_summary task in
  ginv g → gtasks g !! id = Some task → ts_state t = Running → ts_id started = id →
  ts_attempt started = ts_attempt t → (retryable = true → output = None) →
  is_terminal state = true → validate_diagnostics state = Ok tt →
  validate_encoded_output state output = Ok tt →
  exec_trace (calm cf id) (finish cf started state output retryable) g tt g' trace →
  let retry := retryable && negb (ts_cancel_requested t) &&
               (ts_attempt started <? cf_max_attempts cf) in
  (store_failed cf id t started state output retryable trace ∧
   is_Some (co_fault (gcore g')) ∧ co_shutting_down (gcore g') = true ∧
   gtasks g' !! id = Some task) ∨
  ∃ t' now1 now2,
    (gtasks g' !! id = Some {| st_request := st_request task; st_summary := t' |} ∨
     (retry = false ∧ gtasks g' !! id = None ∧ g_finished g' !! id = Some t')) ∧
    ts_state_version t' = ts_state_version t + 1 ∧
    (ts_id t', ts_attempt t', ts_cancel_requested t', ts_progress t') =
      (ts_id t, ts_attempt t, ts_cancel_requested t, ts_progress t) ∧
    if retry then ts_state t' = Queued ∧ ts_output t' = ts_output t ∧
      ts_retry_not_before_ms t' = Some (retry_deadline cf (ts_attempt started) now1)
    else ts_state t' = state ∧ ts_finished_at_ms t' = Some now2 ∧
      ts_output t' = match output with Some o => Some o | None => ts_output t end.
Proof.
  intros t Hi Hid Hrun Hst Ha Ho Hterm Hd Hv He.
  destruct (finish_writes cf id task started state output retryable g g' trace Hi Hid Hrun Hst Ha Ho
    Hterm Hd Hv He) as [Hf|(now1 & now2 & Hg)]; [by left|right].
  eexists _, now1, now2. split; [exact Hg|]. unfold outcome_command, retries. simpl. fold t.
  split_and!; [done..|]. destruct (_ && _) eqn:Hr; [|by rewrite Hterm]. split_and!; [done| |done].
  destruct retryable; [by rewrite (Ho eq_refl)|done].
Qed.

(** C21. An outcome whose diagnostics exceed the store's limits is not cut to
    size: finishing the attempt faults the whole service, which stops
    accepting work, and the task stays running. *)
Theorem service_oversized_diagnostics id task started state output retryable g g' m :
  let t := st_summary task in
  ginv g → gtasks g !! id = Some task → ts_state t = Running → ts_id started = id →
  ts_attempt started = ts_attempt t →
  retryable && negb (ts_cancel_requested t) && (ts_attempt started <? cf_max_attempts cf) = false →
  validate_diagnostics state = Err m →
  exec (calm cf id) (finish cf started state output retryable) g tt g' →
  is_Some (co_fault (gcore g')) ∧ co_shutting_down (gcore g') = true ∧ gtasks g' !! id = Some task.
Proof. apply finish_refused. Qed.

(** C9. A reply to a cancellation is true when it is given: cancelled before
    start means that the task is [Cancelled] or gone; already terminal, that
    it has finished; requested, that the request is recorded for the running
    attempt, or the task has finished since. *)
Theorem service_cancel_truthful P id r g' :
  service_reachable cf P → exec (others cf) (cancel cf id) (p_ghost P) (Replied (Ok r)) g' →
  ∀ task, gtasks g' !! id = Some task →
  match r with
  | CancelledBeforeStart => ts_state (st_summary task) = Cancelled
  | AlreadyTerminal => task_terminal task = true
  | CancellationRequested =>
      task_terminal task = true ∨ cancel_pending (st_summary task) = true
  | CancellationUnsupported => True
  end.
Proof.
  intros Hr He task Hid. pose proof (po_inv _ _ (service_reachable_ok cf P Hr)) as Hi.
  pose proof (wp_exec _ (quiet cf) _ _ _ _ _ (cancel_spec cf _ _ (others_moves cf) (quiet_intro cf)
    (quiet_moves cf) id _ Hi) He) as Ht.
  destruct r; simpl in Ht; [..|done|].
  - by apply (proj2 Ht).
  - destruct Ht as (a & _ & Ht). destruct (Ht task Hid) as [?|[_ ?]]; auto.
  - by apply (proj2 Ht).
Qed.

(** C17. The result of a cancellation hook is true of the attempt it was
    started for: after success or a failed hook the request is recorded or the
    task has finished; [AlreadyTerminal] means the attempt is over.  The
    thread keeps retrying only while others write the task: without a result
    after [n] rounds, the task's version has grown by [n]. *)
Theorem service_hook_truthful P id attempt kind_id flight fuel v r g' :
  service_reachable cf P →
  SpawnExternalCancel (id, attempt) kind_id flight ∈ co_spawned (gcore (p_ghost P)) →
  (∀ task, gtasks (p_ghost P) !! id = Some task → v ≤ ts_state_version (st_summary task)) →
  exec (others cf) (external_cancel_result cf fuel id attempt kind_id) (p_ghost P) r g' →
  ∀ task, gtasks g' !! id = Some task →
  match r with
  | Some ExtSuccess | Some (HookFailed _) =>
      task_terminal task = true ∨
      (cancel_pending (st_summary task) = true ∧ ts_attempt (st_summary task) = attempt)
  | Some ExtAlreadyTerminal =>
      attempt < ts_attempt (st_summary task) ∨
      (ts_attempt (st_summary task) = attempt ∧ ts_state (st_summary task) ≠ Running)
  | Some (ServiceFailed _) => True
  | None => v + N.of_nat fuel ≤ ts_state_version (st_summary task)
  end.
Proof.
  intros Hr Hw Hv He task Hid. pose proof (po_inv _ _ (service_reachable_ok cf P Hr)) as Hi.
  destruct (gi_spawned _ Hi _ Hw) as (task0 & Hs & Ha). simpl in Hs, Ha.
  pose proof (wp_exec _ (quiet cf) _ _ _ _ _ (external_cancel_result_spec cf _ _ (others_moves cf)
    (quiet_intro cf) (quiet_moves cf) fuel id attempt kind_id task0 v _ Hi Hs Ha
    (conj (proj1 Hs) Hv)) He) as Ht.
  destruct r as [[]|]; simpl in Ht; try exact I; destruct Ht as [_ Ht]; specialize (Ht task Hid);
    [destruct Ht as [?|[? ?]]; auto..|exact Ht].
Qed.

(** C10. While a task waits for resources as the scheduler's anchor, a scan
    starts no more than the allowed number of tasks accepted after it, counted
    with those of earlier scans, unless it starts the anchor itself; and the
    fairness state it hands to the next scan has counted them. *)
Theorem service_scan_fair fuel now f a g r g' :
  ginv g → fairness_ok cf f → rf_anchor f = Some a →
  exec (sched_rely cf) (scan_ready_pages cf fuel now f) g r g' →
  ∃ l, g_started g' = g_started g ++ l ∧
    (∀ l1 l2, l = l1 ++ l2 → Forall (λ t, anchor_task a t = false) l1 →
       rf_bypasses f + newer_than a l1 ≤ cf_max_resource_bypasses cf) ∧
    ∀ f' done, r = Some (Ok (done, f')) →
      fairness_ok cf f' ∧
      (Forall (λ t, anchor_task a t = false) l →
         rf_anchor f' = Some a ∧ rf_bypasses f' = rf_bypasses f + newer_than a l).
Proof.
  intros Hi Hok Ha He.
  destruct (wp_exec _ (moves cf) _ _ _ _ _ (scan_pages_spec cf _ _ (sched_moves cf)
    (λ _ _ H, proj2 H) (λ _ _ H, H) (λ _ _ H, H) fuel now None f _ g Hi) He)
    as (f1 & (l & Hl & Hrun) & Hf1).
  exists l. split; [done|]. split.
  - intros l1 l2 -> Hl1. destruct (fair_run_prefix cf _ _ _ _ Hrun) as [f2 H2].
    destruct (fair_run_anchor cf _ _ _ a H2 Ha (proj1 Hok) Hl1) as (_ & Hb & Hle). lia.
  - intros f' done ->. subst f'. split; [by eapply fair_run_ok|]. intros Hl1.
    by destruct (fair_run_anchor cf _ _ _ a Hrun Ha (proj1 Hok) Hl1) as (? & ? & _).
Qed.

(** C11. Recovery ends, and with a store that refuses no allowed transition, on
    a disk that works, it succeeds: every task left running is queued again, or
    blocked when its cancellation was pending, with its request and attempt
    kept; every other unfinished task is untouched; nothing is left running.
    When it fails, at whatever point, each task left running is recovered like
    this or as it was. *)
Theorem service_recovery_exact os fuel (w : World S) :
  store_ok (w_store w) → (∀ id, has_room id (tasks_of (w_store w))) →
  (size (tasks_of (w_store w)) < fuel)%nat →
  ∃ r w' n, run os (recover_unfinished fuel) (w, 0%nat) = (Some r, (w', n)) ∧
    store_ok (w_store w') ∧
    (reliable (S := S) → (∀ n, or_disk (os n) = None) → r = Ok tt) ∧
    ∀ id, match tasks_of (w_store w) !! id with
          | None => tasks_of (w_store w') !! id = None
          | Some task =>
              let t := st_summary task in
              if bool_decide (ts_state t = Running) then
                (r ≠ Ok tt ∧ tasks_of (w_store w') !! id = Some task) ∨
                ∃ task', tasks_of (w_store w') !! id = Some task' ∧
                  st_request task' = st_request task ∧
                  ts_attempt (st_summary task') = ts_attempt t ∧
                  ts_state_version (st_summary task') = ts_state_version t + 1 ∧
                  ts_cancel_requested (st_summary task') = ts_cancel_requested t ∧
                  ts_state (st_summary task') =
                    if ts_cancel_requested t
                    then Blocked "service stopped while cancellation was pending" else Queued
              else tasks_of (w_store w') !! id = Some task ∨
                (task_terminal task = true ∧ tasks_of (w_store w') !! id = None)
          end.
Proof.
  intros Hs Hroom Hfuel. pose proof (recover_unfinished_run os fuel (w, 0%nat) Hs Hroom Hfuel) as Hrun.
  destruct (run os (recover_unfinished fuel) (w, 0%nat)) as [[r|] [w' n]];
    destruct Hrun as (Hs' & Hnn & Hrel & Hpart & Hrec); [|done].
  exists r, w', n. split; [done|]. split; [done|]. cbn [fst] in *.
  split; [intros H1 H2; by injection (Hrel (conj H1 H2))|].
  intros id. specialize (Hpart id). assert (r = Ok tt → _) as Hrec' by (intros ->; exact (Hrec eq_refl id)).
  clear Hrec Hrel Hnn. destruct (tasks_of (w_store w) !! id) as [task|] eqn:Hid; [|done].
  cbv zeta. unfold recovered_task, task_terminal in *. case_bool_decide as Hb.
  - rewrite Hb in Hpart, Hrec'. cbn [is_terminal] in Hpart, Hrec'. rewrite decide_True in Hpart, Hrec' by done.
    assert (tasks_of (w_store w') !! id = Some (recovered_task task) ∨
      r ≠ Ok tt ∧ tasks_of (w_store w') !! id = Some task) as [Hr|Hr]; [|right|by left].
    { unfold recovered_task. rewrite decide_True by done.
      destruct r as [[]|e]; [left; by apply Hrec'|]. by destruct Hpart; [right|left]. }
    eexists. split; [exact Hr|]. unfold recovered_task. rewrite decide_True by done. done.
  - rewrite decide_False in Hpart by done. destruct (is_terminal _) eqn:Ht.
    + destruct Hpart as [->|[-> _]]; [left|right]; done.
    + left. by destruct Hpart.
Qed.
End properties.

(** ** Concrete instances *)

#[local] Existing Instances fixture_types fixture_json fixture_codec_types fixture_wire
  fixture_futures fixture_texts fixture_store fixture_store_laws.


Lemma service_task_history_witness :
  ts_state (st_summary (pool_task 1 demo_pool1)) = Queued ∧
  match gtasks (p_ghost demo_pool3) !! 1 with
  | Some task' => ts_attempt (st_summary (pool_task 1 demo_pool1)) < ts_attempt (st_summary task')
  | None => False
  end.
Proof.
  split; [vm_compute; reflexivity|].
  assert (gtasks (p_ghost demo_pool1) !! 1 = Some (pool_task 1 demo_pool1)) as H1
    by (vm_compute; reflexivity).
  assert (gtasks (p_ghost demo_pool3) !! 1 = Some (pool_task 1 demo_pool3)) as H3
    by (vm_compute; reflexivity).
  pose proof (service_task_history demo_service demo_pool1 demo_pool3 1 _ demo_pool1_reachable
    (transitivity demo_pool2_steps demo_pool3_steps) H1) as Hh.
  rewrite H3 in Hh |- *. apply Hh; vm_compute; [discriminate|reflexivity].
Defined.

(** The attempt of task 1 runs to its end, the service is asked to stop, and
    the scheduler stops. *)
Definition run_to_the_end : list (Action (S := MemoryState)) :=
  [ActSpawn 0 0] ++ replicate 14 (ActThread 1 (demo_oracle 7 0 succeeds)) ++
  [ActCall CallShutdown; ActThread 2 (demo_oracle 8 0 succeeds)] ++
  replicate 5 (ActScheduler (demo_oracle 8 0 succeeds)).
Definition ended_pool : Pool := pool_or_start (schedule demo_service run_to_the_end demo_pool2).

Lemma ended_pool_reachable : service_reachable demo_service ended_pool.
Proof.
  destruct demo_pool2_reachable as (fuel & pages & s & Hs & Hr). exists fuel, pages, s.
  split; [done|]. etrans; [exact Hr|]. apply schedule_runs. vm_compute. reflexivity.
Qed.

Lemma service_capacity_witness :
  ledger_wf demo_capacity (co_ledger (gcore (p_ghost demo_pool2))) ∧
  is_Some (rl_allocations (co_ledger (gcore (p_ghost demo_pool2))) !! 1) ∧
  ledger_equiv (co_ledger (gcore (p_ghost ended_pool))) ledger_new.
Proof.
  split; [|split; [apply is_some_true; vm_compute; reflexivity|]].
  - exact (proj1 (service_capacity demo_service demo_pool2 demo_capacity_ok demo_pool2_reachable)).
  - apply (service_capacity demo_service ended_pool demo_capacity_ok ended_pool_reachable);
      vm_compute; reflexivity.
Defined.

Lemma service_attempt_settled_witness :
  let running := st_summary (pool_task 1 demo_pool2) in
  let g' := (ran tt (demo_oracle 7 0 succeeds) (run_spawned demo_service 1 running 1)
               (p_ghost demo_pool2)).2 in
  is_Some (co_fault (gcore g')) ∨
  ∀ task, gtasks g' !! 1 = Some task → 1 < ts_state_version (st_summary task).
Proof.
  intros running g'. pose proof (service_reachable_ok _ _ demo_pool2_reachable) as Hok.
  assert (SpawnRun 1 running 1 ∈ co_spawned (gcore (p_ghost demo_pool2))) as Hin.
  { apply list_elem_of_lookup. exists 0%nat. vm_compute. reflexivity. }
  apply (service_attempt_settled demo_service demo_pool2 1 running 1 g' demo_pool2_reachable Hin).
  eapply ran_exec; [apply others_refl|apply quiet_moves|apply (po_inv _ _ Hok)| | |].
  - apply (run_spawned_spec demo_service _ _ (others_moves _) (quiet_intro _) (quiet_moves _)
      _ _ _ _ (po_inv _ _ Hok) (gi_spawned _ (po_inv _ _ Hok) _ Hin)).
  - vm_compute. reflexivity.
  - vm_compute. reflexivity.
Defined.

(** Finishing the attempt of task 1 with a state and an output, alone. *)
Definition finished_alone (state : TaskState) (output : option TaskOutput) : Ghost :=
  (ran tt (demo_oracle 7 0 succeeds)
     (finish demo_service (st_summary (pool_task 1 demo_pool2)) state output false)
     (p_ghost demo_pool2)).2.

Lemma finished_alone_exec state output :
  is_terminal state = true →
  is_some (alone (demo_oracle 7 0 succeeds)
    (finish demo_service (st_summary (pool_task 1 demo_pool2)) state output false)
    (p_ghost demo_pool2)) = true →
  exec (calm demo_service 1)
    (finish demo_service (st_summary (pool_task 1 demo_pool2)) state output false)
    (p_ghost demo_pool2) tt (finished_alone state output).
Proof.
  intros Ht Hs. pose proof (po_inv _ _ (service_reachable_ok _ _ demo_pool2_reachable)) as Hi.
  eapply ran_exec; [apply calm_refl|apply quiet_moves|done| |done|by destruct (ran _ _ _ _).1].
  assert (gtasks (p_ghost demo_pool2) !! 1 = Some (pool_task 1 demo_pool2)) as H1
    by (vm_compute; reflexivity).
  assert (ts_id (st_summary (pool_task 1 demo_pool2)) = 1) as Hid by (vm_compute; reflexivity).
  eapply (finish_spec demo_service _ _ (calm_moves _ 1) (quiet_intro _) (quiet_moves _));
    [done| |vm_compute; reflexivity|done]. rewrite Hid. by apply seen_now.
Qed.

Definition demo_output : option TaskOutput := Some {| to_summary := [Byte.x01] |}.

Lemma service_finish_exact_witness :
  (λ task, (ts_state (st_summary task), ts_output (st_summary task)))
    <$> gtasks (finished_alone Succeeded demo_output) !! 1 = Some (Succeeded, demo_output).
Proof.
  pose proof (po_inv _ _ (service_reachable_ok _ _ demo_pool2_reachable)) as Hi.
  assert (is_some (gtasks (finished_alone Succeeded demo_output) !! 1) = true) as Hkept
    by (vm_compute; reflexivity).
  assert (exec (calm demo_service 1)
    (finish demo_service (st_summary (pool_task 1 demo_pool2)) Succeeded demo_output false)
    (p_ghost demo_pool2) tt (finished_alone Succeeded demo_output)) as [trace He]%exec_traced
    by (apply finished_alone_exec; vm_compute; reflexivity).
  edestruct (service_finish_exact demo_service 1 (pool_task 1 demo_pool2)
    (st_summary (pool_task 1 demo_pool2)) Succeeded demo_output false (p_ghost demo_pool2)
    (finished_alone Succeeded demo_output) trace Hi)
    as [(_ & Hf & _ & _)|(t' & now1 & now2 & [Hg|(_ & Hn & _)] & _ & _ & Hs & _ & Ho)].
  1-4, 6-8: vm_compute; reflexivity.
  - done.
  - exact He.
  - assert (co_fault (gcore (finished_alone Succeeded demo_output)) = None) as Hnone
      by (vm_compute; reflexivity). rewrite Hnone in Hf. by destruct Hf.
  - rewrite Hg. cbn [fmap option_fmap option_map st_summary]. by rewrite Hs, Ho.
  - by rewrite Hn in Hkept.
Defined.

(** A message of 4097 bytes. *)
Definition long_message : string := N.iter 4097 (String Ascii.zero) EmptyString.

Lemma service_oversized_diagnostics_witness :
  let state := Failed "io" long_message in
  let g' := finished_alone state None in
  is_Some (co_fault (gcore g')) ∧ co_shutting_down (gcore g') = true ∧
  gtasks g' !! 1 = Some (pool_task 1 demo_pool2).
Proof.
  intros state g'. pose proof (po_inv _ _ (service_reachable_ok _ _ demo_pool2_reachable)) as Hi.
  eapply (service_oversized_diagnostics demo_service 1 (pool_task 1 demo_pool2)
    (st_summary (pool_task 1 demo_pool2)) state None false (p_ghost demo_pool2) g' _ Hi);
    [vm_compute; reflexivity..|].
  apply finished_alone_exec; vm_compute; reflexivity.
Defined.

Lemma service_cancel_truthful_witness :
  let after := ran (Replied (Err ShuttingDown)) (demo_oracle 7 0 succeeds) (cancel demo_service 1)
                 (p_ghost demo_pool2) in
  after.1 = Replied (Ok CancellationRequested) ∧
  (task_terminal (pool_task 1 demo_pool2) = false ∧
   ∀ task, gtasks after.2 !! 1 = Some task →
     task_terminal task = true ∨ cancel_pending (st_summary task) = true).
Proof.
  intros after. assert (after.1 = Replied (Ok CancellationRequested)) as Ha
    by (vm_compute; reflexivity).
  split; [done|]. split; [vm_compute; reflexivity|].
  pose proof (po_inv _ _ (service_reachable_ok _ _ demo_pool2_reachable)) as Hi.
  apply (service_cancel_truthful demo_service demo_pool2 1 CancellationRequested after.2
    demo_pool2_reachable).
  eapply ran_exec; [apply others_refl|apply quiet_moves|done| |vm_compute; reflexivity|done].
  by apply (cancel_spec demo_service _ _ (others_moves _) (quiet_intro _) (quiet_moves _)).
Defined.

Lemma service_hook_truthful_witness :
  let after := ran None (demo_oracle 9 0 succeeds)
                 (external_cancel_result hook_service 3 1 1 "copy"%string) (p_ghost hook_pool) in
  after.1 = Some ExtSuccess ∧
  ∀ task, gtasks after.2 !! 1 = Some task →
    task_terminal task = true ∨
    (cancel_pending (st_summary task) = true ∧ ts_attempt (st_summary task) = 1).
Proof.
  intros after. assert (after.1 = Some ExtSuccess) as Ha by (vm_compute; reflexivity).
  split; [done|]. pose proof (service_reachable_ok _ _ hook_pool_reachable) as Hok.
  assert (∃ flight, SpawnExternalCancel (1, 1) "copy"%string flight
                      ∈ co_spawned (gcore (p_ghost hook_pool))) as [flight Hin].
  { exists 0. apply list_elem_of_lookup. exists 1%nat. vm_compute. reflexivity. }
  apply (service_hook_truthful hook_service hook_pool 1 1 "copy"%string flight 3 0 (Some ExtSuccess)
    after.2 hook_pool_reachable Hin); [intros ? _; apply N.le_0_l|].
  destruct (gi_spawned _ (po_inv _ _ Hok) _ Hin) as (task0 & Hs & Ht).
  eapply ran_exec; [apply others_refl|apply quiet_moves|apply Hok| |vm_compute; reflexivity|done].
  eapply (external_cancel_result_spec hook_service _ _ (others_moves _) (quiet_intro _)
    (quiet_moves _) 3 1 1 _ task0 0); [apply Hok|exact Hs|apply Ht|].
  exact (conj (proj1 Hs) (λ _ _, N.le_0_l _)).
Defined.

(** Task 1 was accepted at 5; the anchor is a task accepted at 4. *)
Definition anchored : ResourceFairness := {| rf_anchor := Some (9, 4); rf_bypasses := 0 |}.

Lemma service_scan_fair_witness :
  let after := ran None (demo_oracle 6 0 succeeds) (scan_ready_pages demo_service 5 6 anchored)
                 (p_ghost demo_pool1) in
  newer_than (9, 4) (g_started after.2) = 1 ∧
  ∃ l, g_started after.2 = g_started (p_ghost demo_pool1) ++ l ∧
    (Forall (λ t, anchor_task (9, 4) t = false) l → newer_than (9, 4) l ≤ 1).
Proof.
  intros after. split; [vm_compute; reflexivity|].
  pose proof (po_inv _ _ (service_reachable_ok _ _ demo_pool1_reachable)) as Hi.
  destruct (service_scan_fair demo_service 5 6 anchored (9, 4) (p_ghost demo_pool1) after.1 after.2 Hi)
    as (l & Hl & Hb & _); [by split|done| |].
  - eapply ran_exec; [apply sched_refl|by intros ? ? H; exact H|done| |vm_compute; reflexivity|done].
    apply (scan_pages_spec demo_service _ (moves demo_service) (sched_moves _) (λ _ _ H, proj2 H)
      (λ _ _ H, H) (λ _ _ H, H)). done.
  - exists l. split; [done|]. intros Hf. apply (Hb l []); [by rewrite app_nil_r|done].
Defined.

Lemma service_recovery_exact_witness :
  ts_state (st_summary (pool_task 1 demo_pool3)) = Running ∧
  ∃ r w' n, run (W := World MemoryState * nat) (λ _, demo_oracle 10 0 succeeds) (recover_unfinished 2)
            (g_world (p_ghost demo_pool3), 0%nat)
            = (Some r, (w', n)) ∧ r = Ok tt ∧
    ∃ task', tasks_of (w_store w') !! 1 = Some task' ∧
      ts_state (st_summary task') = Blocked "service stopped while cancellation was pending".
Proof.
  assert (tasks_of (w_store (g_world (p_ghost demo_pool3))) !! 1 = Some (pool_task 1 demo_pool3))
    as H1 by (vm_compute; reflexivity).
  assert (ts_state (st_summary (pool_task 1 demo_pool3)) = Running) as Hrun
    by (vm_compute; reflexivity).
  assert (ts_cancel_requested (st_summary (pool_task 1 demo_pool3)) = true) as Hc
    by (vm_compute; reflexivity).
  assert (room_b (p_ghost demo_pool3) = true) as Hroom by (vm_compute; reflexivity).
  apply room_b_true in Hroom. unfold room, gtasks in Hroom. split; [done|].
  destruct (service_recovery_exact (λ _, demo_oracle 10 0 succeeds) 2 (g_world (p_ghost demo_pool3)))
    as (r & w' & n & Hrn & _ & Hr & Hall).
  - apply (gi_store _ (po_inv _ _ (service_reachable_ok _ _ demo_pool3_reachable))).
  - exact Hroom.
  - apply Nat.ltb_lt. vm_compute. reflexivity.
  - specialize (Hr I (λ _, eq_refl)). exists r, w', n. split; [exact Hrn|]. split; [exact Hr|].
    specialize (Hall 1). rewrite H1 in Hall. cbv zeta in Hall.
    rewrite bool_decide_true in Hall by exact Hrun. rewrite Hc in Hall.
    destruct Hall as [[Hbad _]|(task' & Hid & _ & _ & _ & _ & Hst)]; [by destruct (Hbad Hr)|].
    exact (ex_intro _ task' (conj Hid Hst)).
Defined.
