(* ===== verification/ShutdownProperties.v ===== *)
(** * Shutdown: theorems

    What the supervised service promises: once it has given up the ownership of
    the store it never writes it again, every caller of [shutdown] gets an
    answer that says the truth, and ownership is never lost silently. *)

From S2P Require Import Prelude TaskState Model Engine RetryPolicy Requests Handlers MemoryStore.
From S2P Require Import MemoryInvariant MemoryPreservation MemoryHistory MemoryQueries Fixtures.
From S2P Require Import RequestProperties TaskStore StoreOwner Programs ServiceMonad Service ServiceLogic.
From S2P Require Import ServiceSpecs ServiceScheduler ServicePool ServiceAttempts ServiceFixtures.
From S2P Require Import Shutdown ShutdownThreads ShutdownInvariant ShutdownRefinement.

(** How many steps of the supervisor are left until it publishes a result. *)
Definition steps_to_result (phase : SupervisorPhase) : nat :=
  match phase with
  | CloseNotificationPublisher | AwaitRetry => 3
  | ReleaseStoreOwner => 2
  | PublishOutcome _ => 1
  | _ => 0
  end.

Section shutdown_properties.
Context `{ET : !ExternalTypes, SJ : !SnapshotJson, CT : !CodecTypes, MW : !MetadataWire,
          HF : !HandlerFutures, EX : !ErrorTexts}.
Context {S : Type} `{TS : !TaskStore S, OS : !OwnedStore S}.
Context (cf : ServiceConfig).
Implicit Types (l : Life (S := S)).

(** ** What a step does to the store *)

(** One write of the service and one release at most; past the barriers the
    write is the one under way, and a release comes after it. *)
Definition store_written (a : LifeAction) l l' (s1 : S) : Prop :=
  s1 = w_store (lf_world l) ∨
  ∃ o X (op : Op X), s1 = w_store (perform o op (lf_world l)).2 ∧
    (∀ id, accepts op = Some id → life_accepts a l = Some id) ∧
    ((4 ≤ rank l)%nat → lf_underway l = Some (StoreWriting X op) ∧ lf_underway l' = None).
Definition store_released l l' (s1 : S) : Prop :=
  rank l = 5%nat ∧ lf_owned l = true ∧ lf_underway l' = None ∧
  ∃ unlock epoch, w_store (lf_world l') = (do_release unlock epoch s1).2.

Lemma land_written a o l l' :
  (life_write a l = pair o <$> lf_underway l) → lf_underway l' = None →
  store_written a l l' (w_store (lf_world (land o l))).
Proof.
  intros Hw Hn. unfold store_written, land. destruct (lf_underway l) as [[X op]|] eqn:Hu; [right|by left].
  exists o, X, op. split_and!; [done| |done]. unfold life_accepts. rewrite Hw. cbn. auto.
Qed.

Lemma release_written a call epoch l l' :
  rank l = 5%nat → lf_owned l = true → life_write a l = release_lands call l →
  w_store (lf_world l') = w_store (lf_world (store_release call epoch l).2) →
  lf_underway l' = lf_underway (store_release call epoch l).2 →
  ∃ s1, store_written a l l' s1 ∧ (w_store (lf_world l') = s1 ∨ store_released l l' s1).
Proof.
  intros Hr Ho Hw Hst Hu. destruct call as [e|o unlock]; cbn in Hst, Hu.
  { exists (w_store (lf_world l)). split; by left. }
  destruct (do_release unlock epoch (w_store (lf_world (land o l)))) as [r s'] eqn:Hd.
  cbn in Hst, Hu. rewrite land_none in Hu. exists (w_store (lf_world (land o l))).
  split; [by apply land_written|right]. split_and!; [done..|]. exists unlock, epoch. by rewrite Hd.
Qed.

Lemma release_store_written a call l :
  lf_supervisor l = ReleaseStoreOwner → owner_ok l →
  (∀ epoch, lf_owner_guard l = Some (Some epoch) → life_write a l = release_lands call l) →
  ∃ s1, store_written a l (release_store_owner call l) s1 ∧
    (w_store (lf_world (release_store_owner call l)) = s1 ∨ store_released l (release_store_owner call l) s1).
Proof.
  intros Ep Ho Hw. unfold release_store_owner. destruct (lf_owner_guard l) as [[epoch|]|] eqn:Eg.
  - pose proof (own_guard _ Ho) as Hg. rewrite Eg in Hg. destruct Hg as (_ & _ & Hown).
    apply (release_written a call epoch); [unfold rank; by rewrite Ep|done|by eapply Hw|..];
      destruct (store_release call epoch l) as [[u|e] l1]; done.
  - exists (w_store (lf_world l)). split; by left.
  - exists (w_store (lf_world l)). split; by left.
Qed.

Lemma step_silent a l l' :
  w_store (lf_world l') = w_store (lf_world l) →
  ∃ s1, store_written a l l' s1 ∧ (w_store (lf_world l') = s1 ∨ store_released l l' s1).
Proof. intros Hs. exists (w_store (lf_world l)). split; by left. Qed.

(** A step of a thread, which past the barriers writes nothing. *)
Lemma step_performs a o {X} (op : Op X) l l' :
  lf_world l' = (perform o op (lf_world l)).2 →
  (∀ id, accepts op = Some id → life_accepts a l = Some id) →
  ((4 ≤ rank l)%nat → silent X op) →
  ∃ s1, store_written a l l' s1 ∧ (w_store (lf_world l') = s1 ∨ store_released l l' s1).
Proof.
  intros Hw Ha Hq. destruct (decide (4 ≤ rank l)%nat) as [Hr|Hr].
  - apply step_silent. rewrite Hw. by apply (perform_silent o op), Hq.
  - exists (w_store (lf_world l')). split; [right|by left]. exists o, X, op. split_and!; [by rewrite Hw|done|lia].
Qed.

Lemma accepts_next a o {A X} (op : Op X) (k : X → prog A) l id :
  life_write a l = pair o <$> next_write (Step op k) → accepts op = Some id →
  life_accepts a l = Some id.
Proof. unfold life_accepts. intros -> Hid. by destruct op. Qed.

Lemma store_step a l l' :
  threads_ok l → owner_ok l → life_act cf a l = Some l' →
  ∃ s1, store_written a l l' s1 ∧ (w_store (lf_world l') = s1 ∨ store_released l l' s1).
Proof.
  intros [H1 H2 H3 H4 H5 H6 H7 H8] Ho Ha. unfold life_act in Ha.
  destruct a as [o|c|i o|i running|o|fuel i|i o|i stage metrics reporter o| | |i|i| |close call accepts'|accepts'|i call].
  - destruct (lf_scheduler l) as [|X op k] eqn:El; [done|].
    rewrite (surjective_pairing (perform _ _ _)) in Ha. injection Ha as <-.
    apply (step_performs _ o op); [done| |intros Hr; by specialize (H7 ltac:(lia))].
    intros id. apply (accepts_next _ o op k). cbn. by rewrite El.
  - apply step_silent. by case_match; simplify_eq.
  - destruct (lf_calls l !! i) as [[|X op k]|] eqn:Ei; [done| |done].
    rewrite (surjective_pairing (perform _ _ _)) in Ha. injection Ha as <-.
    apply (step_performs _ o op); [done| |intros Hr; apply (Forall_lookup_1 _ _ _ _ (H6 ltac:(lia)) Ei)].
    intros id. apply (accepts_next _ o op k). exact (f_equal (λ p, pair o <$> (p ≫= next_write)) Ei).
  - apply step_silent. by repeat case_match; simplify_eq.
  - case_match; [|done]. injection Ha as <-. eexists. split; [|by left].
    apply land_written; [done|apply land_none].
  - apply step_silent. by destruct (co_spawned (lf_core l) !! i); simplify_eq.
  - destruct (lf_works l !! i) as [[|X op k]|] eqn:Ei; [done| |done].
    rewrite (surjective_pairing (perform _ _ _)) in Ha. injection Ha as <-.
    apply (step_performs _ o op); [done| |].
    { intros id. apply (accepts_next _ o op k). exact (f_equal (λ p, pair o <$> (p ≫= next_write)) Ei). }
    intros Hr. destruct (H8 Hr) as [_ Hw]. by pose proof (running_0 _ _ _ Hw Ei).
  - destruct (lf_works l !! i) as [[|X op k]|] eqn:Ei; [done| |done]. injection Ha as <-.
    unfold forget, report. destruct (checked_add _ _ _) as [v|]; [|by apply step_silent].
    apply (step_performs _ o (OpProgress {| pc_id := rp_id reporter; pc_expected_attempt := rp_attempt reporter;
      pc_progress_version := v; pc_stage := stage; pc_metrics := metrics;
      pc_updated_at_ms := or_now o |})); [|done|].
    { cbn -[disk_write]. unfold on_store. by destruct (disk_write _ _ _). }
    intros Hr. destruct (H8 Hr) as [_ Hw]. by pose proof (running_0 _ _ _ Hw Ei).
  - apply step_silent. by injection Ha as <-.
  - apply step_silent. by repeat case_match; simplify_eq.
  - apply step_silent. destruct (lf_callers l !! i) as [[attempt|]|]; [|done..].
    apply bind_Some in Ha as (outcome & _ & Ha). by injection Ha as <-.
  - apply step_silent. by destruct (lf_callers l !! i); simplify_eq.
  - apply step_silent. by case_match; simplify_eq.
  - destruct (supervisor_effect _ _ _ _ _ Ha) as [[Ep ->]|(_ & Ew & _)]; [|apply step_silent; by rewrite Ew].
    apply release_store_written; [done..|]. intros epoch Eg. cbn. by rewrite Ep, Eg.
  - apply step_silent. destruct (panicked_effect _ _ _ Ha) as (-> & _). done.
  - destruct (lf_cleanup l !! i) as [epoch|] eqn:Ei; [|done]. injection Ha as <-.
    destruct (owner_cleaning l i epoch Ho Ei) as [Hr Hown].
    apply (release_written _ call epoch); [done..| |]; unfold cleanup_job;
      by destruct (store_release call epoch l).
Qed.

(** Ownership is only given up by a release that the store has answered. *)
Lemma released_by a l l' :
  owner_ok l → life_act cf a l = Some l' → lf_owned l = true → lf_owned l' = false →
  ∃ s1 unlock epoch, (do_release unlock epoch s1).1 = Ok tt ∧
    w_store (lf_world l') = (do_release unlock epoch s1).2.
Proof.
  intros Hok Ha Ho Ho'.
  assert (∀ call epoch, (store_release call epoch l).1 = Ok tt →
    ∃ s1 unlock epoch', (do_release unlock epoch' s1).1 = Ok tt ∧
      w_store (lf_world (store_release call epoch l).2) = (do_release unlock epoch' s1).2) as Hrel.
  { intros [e|o unlock] epoch; [done|]. cbn [store_release].
    destruct (do_release unlock epoch (w_store (lf_world (land o l)))) as [r s'] eqn:Hd. cbn. intros ->.
    exists (w_store (lf_world (land o l))), unlock, epoch. by rewrite Hd. }
  destruct a as [o|c|i o|i running|o|fuel i|i o|i stage metrics reporter o| | |i|i| |close call accepts'|accepts'|i call];
    unfold life_act in Ha;
    try (by repeat case_match; simplify_eq; cbn in Ho'; congruence).
  - case_match; [|done]. injection Ha as <-. rewrite land_write in Ho'. cbn in Ho'. congruence.
  - destruct (lf_callers l !! i) as [[attempt|]|]; [|done..].
    apply bind_Some in Ha as (outcome & _ & Ha). injection Ha as <-. cbn in Ho'. congruence.
  - destruct (lf_supervisor l) eqn:Ep; unfold shutdown_supervisor, drop_owner_guard in Ha; rewrite Ep in Ha;
      try (repeat case_match; simplify_eq; cbn in Ho'; congruence).
    injection Ha as <-. unfold release_store_owner in *.
    destruct (lf_owner_guard l) as [[epoch|]|] eqn:Eg; [| |cbn in Ho'; congruence].
    + specialize (Hrel call epoch). destruct (release_write call epoch l) as (Hw & _).
      destruct (store_release call epoch l) as [[[]|e] l1]; cbn [fst snd] in *.
      * exact (Hrel eq_refl).
      * cbn in Ho'. rewrite Hw in Ho'. cbn in Ho'. congruence.
    + pose proof (own_guard _ Hok) as Hg. rewrite Eg in Hg. destruct Hg as (_ & _ & Hg). congruence.
  - unfold supervisor_panicked, drop_owner_guard in Ha. repeat case_match; simplify_eq; cbn in Ho'; congruence.
  - destruct (lf_cleanup l !! i) as [epoch|]; [|done]. injection Ha as <-. unfold cleanup_job in *.
    specialize (Hrel call epoch). destruct (release_write call epoch l) as (Hw & _).
    destruct (store_release call epoch l) as [[[]|e] l1]; cbn [fst snd] in *; [exact (Hrel eq_refl)|].
    cbn in Ho'. rewrite Hw in Ho'. cbn in Ho'. congruence.
Qed.

(** The supervisor never goes back before a barrier, and what is given up stays
    given up. *)
Lemma cleanup_rest i epoch call l (l' := cleanup_job i epoch call l) :
  lf_supervisor l' = lf_supervisor l ∧ lf_progress l' = lf_progress l ∧
  (lf_owned l = false → lf_owned l' = false) ∧
  (lf_underway l' = lf_underway l ∨ lf_underway l' = None).
Proof.
  subst l'. unfold cleanup_job. destruct (release_write call epoch l) as (Hw & Hu & _).
  destruct (store_release call epoch l) as [r l1]. cbn [fst snd] in Hw, Hu. rewrite Hw. cbn.
  split_and!; [done|done|by destruct (is_ok r)|done].
Qed.

Lemma release_life_keeps call l (l' := release_store_owner call l) :
  (lf_owned l = false → lf_owned l' = false) ∧
  (lf_underway l' = lf_underway l ∨ lf_underway l' = None).
Proof.
  subst l'. unfold release_store_owner. destruct (lf_owner_guard l) as [[epoch|]|]; [| |by auto].
  - destruct (release_write call epoch l) as (Hw & Hu & _).
    destruct (store_release call epoch l) as [r l1]. cbn [fst snd] in Hw, Hu. rewrite Hw.
    destruct r; cbn; auto.
  - cbn. auto.
Qed.

(** What no step takes back. *)
Definition life_keeps l l' : Prop :=
  (rank l ≤ rank l')%nat ∧ (lf_owned l = false → lf_owned l' = false) ∧
  sp_results (lf_progress l) `prefix_of` sp_results (lf_progress l') ∧
  ((2 ≤ rank l)%nat → lf_underway l' = lf_underway l ∨ lf_underway l' = None).

Lemma supervisor_life_keeps l close call accepts' l' :
  shutdown_supervisor close call accepts' l = Some l' → life_keeps l l'.
Proof.
  intros Hs. destruct (supervisor_effect _ _ _ _ _ Hs) as [[Ep ->]|(Hn & _ & _ & _ & _ & Hu)].
  - destruct (release_rest call l) as (E1 & _ & _ & _ & _ & _ & e & He).
    destruct (release_life_keeps call l) as [Ho Hu]. unfold life_keeps, rank. rewrite Ep, He, E1. cbn. auto.
  - split_and!; [..|by left].
    + unfold shutdown_supervisor, drop_owner_guard, rank in *.
      destruct (lf_supervisor l); repeat case_match; simplify_eq; cbn; lia.
    + unfold shutdown_supervisor, drop_owner_guard in Hs.
      destruct (lf_supervisor l); repeat case_match; by simplify_eq.
    + unfold shutdown_supervisor, drop_owner_guard in Hs.
      destruct (lf_supervisor l); repeat case_match; simplify_eq; cbn; by first [apply prefix_app_r | done].
Qed.

Lemma life_keeps_frame l l' :
  lf_supervisor l' = lf_supervisor l → lf_owned l' = lf_owned l →
  sp_results (lf_progress l') = sp_results (lf_progress l) → lf_underway l' = lf_underway l →
  life_keeps l l'.
Proof. unfold life_keeps, rank. intros -> -> -> ->. split_and!; auto. Qed.

Lemma life_keeps_step l l' : threads_ok l → callers_ok l → life_step cf l l' → life_keeps l l'.
Proof.
  intros Ht Hc Hs. destruct Hs as [a l l' Ha]. destruct (thread_action a) eqn:Hta.
  { pose proof (rest_threads cf a l l' Ht Hta Ha) as Hr. unfold rest in Hr.
    injection Hr as E1 E2 E3 E4 E5 E6 E7 E8 E9 E10. unfold life_keeps, rank. rewrite E1, E4, E8.
    split_and!; [done..|]. intros H2. by apply (underway_threads cf a). }
  destruct a as [| | | | | | | | | |i|i| |close call accepts'|accepts'|i call]; try done;
    unfold life_act in Ha.
  - case_match; [done|]. destruct (join_attempt _) as [attempt p] eqn:Hj. injection Ha as <-.
    apply life_keeps_frame; try done. cbn. by rewrite (join_keeps _ _ _ Hj).
  - destruct (lf_callers l !! i) as [[attempt|]|]; [|done..].
    apply bind_Some in Ha as (outcome & _ & Ha). injection Ha as <-. by apply life_keeps_frame.
  - destruct (lf_callers l !! i); simplify_eq. by apply life_keeps_frame.
  - case_match; simplify_eq. by apply life_keeps_frame.
  - by apply supervisor_life_keeps in Ha.
  - destruct (panicked_due _ _ _ Ha Hc) as (Hlen & Hp & _ & _ & Es).
    destruct (panicked_effect _ _ _ Ha) as (_ & _ & _ & _ & Hu). unfold life_keeps, rank.
    rewrite Es, Hp, (panic_results _ Hlen). split_and!; [destruct (lf_supervisor l); cbn; lia| |by apply prefix_app_r|by left].
    unfold supervisor_panicked, drop_owner_guard in Ha. repeat case_match; by simplify_eq.
  - destruct (lf_cleanup l !! i) as [epoch|]; simplify_eq.
    destruct (cleanup_rest i epoch call l) as (E1 & E2 & Ho & Hu). unfold life_keeps, rank.
    rewrite E1, E2. split_and!; done.
Qed.

Lemma life_keeps_trans l l1 l2 : life_keeps l l1 → life_keeps l1 l2 → life_keeps l l2.
Proof.
  intros (H1 & H2 & H3 & H4) (G1 & G2 & G3 & G4). split_and!; [lia|by auto|by etrans|]. intros Hr.
  destruct (H4 Hr) as [E|E], (G4 ltac:(lia)) as [F|F]; rewrite ?F, ?E; auto.
Qed.

Lemma life_keeps_steps l l' : life_ok l → rtc (life_step cf) l l' → life_keeps l l'.
Proof.
  intros Hok Hs. induction Hs as [|l1 l2 l3 Hstep _ IH]; [by apply life_keeps_frame|].
  eapply life_keeps_trans; [by apply life_keeps_step; [apply Hok..|]|]. by apply IH, (life_ok_step cf l1).
Qed.

(** ** Past the barriers *)

Definition landed (underway : option StoreWrite) (s s1 : S) : Prop :=
  s1 = s ∨
  ∃ o X (op : Op X) w, underway = Some (StoreWriting X op) ∧ w_store w = s ∧
    s1 = w_store (perform o op w).2.
Definition owner_released : relation S := λ s s',
  ∃ unlock epoch, s' = (do_release unlock epoch s).2.

Lemma late_steps l l' :
  life_ok l → (4 ≤ rank l)%nat → rtc (life_step cf) l l' →
  ∃ s1, landed (lf_underway l) (w_store (lf_world l)) s1 ∧ rtc owner_released s1 (w_store (lf_world l')).
Proof.
  intros Hok Hr Hs. induction Hs as [l|l l1 l2 Hstep _ IH].
  { exists (w_store (lf_world l)). split; [by left|done]. }
  pose proof (life_threads _ Hok) as Ht. pose proof (life_ok_step cf _ _ Hstep Hok) as Hok1.
  destruct (life_keeps_step _ _ Ht (life_callers _ Hok) Hstep) as (Hrank & _ & _ & Hu).
  specialize (Hu ltac:(lia)). destruct (IH Hok1 ltac:(lia)) as (s2 & Hl2 & Hrel). clear IH.
  destruct Hstep as [a l l1 Ha].
  destruct (store_step a l l1 Ht (life_owner _ Hok) Ha) as (s1 & Hw & Hrls).
  assert (store_released l l1 s1 ∨ lf_underway l1 = None → s2 = w_store (lf_world l1)) as Hlast.
  { intros Hn. destruct Hl2 as [->|(o & X & op & w & Hsome & _)]; [done|].
    destruct Hn as [(_ & _ & Hn & _)|Hn]; congruence. }
  assert (owner_released s1 (w_store (lf_world l1)) → lf_underway l1 = None →
    rtc owner_released s1 (w_store (lf_world l2))) as Hcons.
  { intros H1 Hn. rewrite (Hlast (or_intror Hn)) in Hrel. by eapply rtc_l. }
  destruct Hw as [->|(o & X & op & -> & _ & Hq)].
  - destruct Hrls as [Heq|(_ & _ & Hn & Hrls)].
    + exists s2. split; [|done]. destruct Hl2 as [->|(o & X & op & w & Hsome & Hst & ->)]; [by left|right].
      destruct Hu as [Hu|Hu]; [|congruence]. exists o, X, op, w. split_and!; congruence.
    + eexists. split; [by left|]. by apply Hcons.
  - destruct (Hq Hr) as [Hsome Hn]. eexists. split; [right; by exists o, X, op, (lf_world l)|].
    destruct Hrls as [Heq|(_ & _ & _ & Hrls)]; [|by apply Hcons].
    rewrite <-Heq. by rewrite (Hlast (or_intror Hn)) in Hrel.
Qed.

(** Once the ownership is given up nothing is left to change the store. *)
Lemma quiet_steps l l' :
  life_ok l → lf_owned l = false → rtc (life_step cf) l l' →
  w_store (lf_world l') = w_store (lf_world l).
Proof.
  intros Hok Ho Hs. induction Hs as [|l1 l2 l3 Hstep _ IH]; [done|].
  pose proof (life_threads _ Hok) as Ht. pose proof (life_ok_step cf _ _ Hstep Hok) as Hok2.
  destruct (life_keeps_step _ _ Ht (life_callers _ Hok) Hstep) as (_ & Ho2 & _).
  rewrite IH by auto. destruct Hstep as [a l1 l2 Ha].
  pose proof (own_rank _ (life_owner _ Hok) Ho) as Hr.
  pose proof (own_slot _ (life_owner _ Hok) Ho) as Hn.
  destruct (store_step a l1 l2 Ht (life_owner _ Hok) Ha)
    as (s1 & [->|(o & X & op & _ & _ & Hq)] & [Heq|(_ & Hown & _)]); try congruence.
  destruct (Hq ltac:(lia)). congruence.
Qed.

(** While a caller's result is missing the supervisor does not wait, and every
    step of it brings the result nearer. *)
Lemma supervisor_advances l attempt close answer accepts :
  callers_ok l → (4 ≤ rank l)%nat → WaitingFor attempt ∈ lf_callers l →
  sp_results (lf_progress l) !! attempt = None →
  ∃ l', shutdown_supervisor close answer accepts l = Some l' ∧
    (is_Some (sp_results (lf_progress l') !! attempt) ∨
     (steps_to_result (lf_supervisor l') < steps_to_result (lf_supervisor l))%nat).
Proof.
  intros [Hp Hc] Hr Hin Hn%lookup_ge_None. rewrite Forall_forall in Hc.
  destruct (Hc _ Hin) as [Hle Hg]. unfold rank in Hr. unfold shutdown_supervisor.
  destruct (lf_supervisor l) as [| | | | | |release_error| |] eqn:Ep; cbn in Hp, Hr; try lia.
  - eexists. split; [done|]. right. cbn. lia.
  - eexists. split; [done|]. right. unfold release_store_owner. repeat case_match; cbn; lia.
  - eexists. split; [done|]. left. cbn. apply lookup_lt_is_Some. rewrite length_app. cbn. lia.
  - rewrite Hg. destruct Hp as [_ Hp].
    destruct (sp_retry_requested (lf_progress l)); [|lia]. eexists. split; [done|]. right. cbn. lia.
Qed.

(** ** The theorems *)

(** C12. Once the service has given up the ownership of the store, none of its
    threads ever changes the store again, whatever calls, callers and the
    store's answers do, and no write is left under way.  Ownership is given up
    only past the supervisor's barriers (no call is admitted, the scheduler has
    returned, no work is in flight).  From the last barrier on nothing writes
    the store but the one write that a dropped call has left running, if there
    is one; it is done before the first release that reaches the store, and
    after it only releases change the store.  (The publisher's worker, which
    the supervisor closes before the release, is a thread of [System].) *)
Theorem shutdown_quiet l :
  life_reachable cf l →
  (lf_owned l = false →
     phase_rank (lf_supervisor l) = 5%nat ∧ lf_underway l = None ∧
     ∀ l', rtc (life_step cf) l l' → w_store (lf_world l') = w_store (lf_world l)) ∧
  ((4 ≤ phase_rank (lf_supervisor l))%nat → ∀ l', rtc (life_step cf) l l' →
     ∃ s1, landed (lf_underway l) (w_store (lf_world l)) s1 ∧
           rtc owner_released s1 (w_store (lf_world l'))).
Proof.
  intros Hok%life_ok_reachable. split.
  - intros Ho. split_and!; [by apply (own_rank _ (life_owner _ Hok))|by apply (own_slot _ (life_owner _ Hok))|].
    intros l' Hs. by apply quiet_steps.
  - intros Hr l' Hs. by apply late_steps.
Qed.

(** C13. Every caller of [shutdown] gets an answer: the result of the attempt
    it joined is there and never changes, or it is still missing, and then the
    supervisor, once past its barriers, never waits and publishes it within
    three steps, whatever the store and the publisher answer.  Callers that
    joined the same attempt get the same answer. *)
Theorem shutdown_answers l attempt :
  life_reachable cf l → WaitingFor attempt ∈ lf_callers l →
  (∃ outcome, sp_results (lf_progress l) !! attempt = Some outcome ∧
     ∀ l', rtc (life_step cf) l l' → sp_results (lf_progress l') !! attempt = Some outcome) ∨
  (sp_results (lf_progress l) !! attempt = None ∧
   ((4 ≤ phase_rank (lf_supervisor l))%nat → ∀ close answer accepts,
      ∃ l', shutdown_supervisor close answer accepts l = Some l' ∧
        (is_Some (sp_results (lf_progress l') !! attempt) ∨
         (steps_to_result (lf_supervisor l') < steps_to_result (lf_supervisor l) ≤ 3)%nat))).
Proof.
  intros Hok%life_ok_reachable Hin.
  destruct (sp_results (lf_progress l) !! attempt) as [outcome|] eqn:Hres.
  - left. exists outcome. split; [done|]. intros l' Hs.
    eapply prefix_lookup_Some; [exact Hres|]. by apply (life_keeps_steps l l').
  - right. split; [done|]. intros Hr close answer accepts.
    destruct (supervisor_advances l attempt close answer accepts) as (l' & Hs & H);
      [apply Hok|done..|].
    exists l'. split; [done|]. destruct H as [H|H]; [by left|right]. split; [done|].
    destruct (lf_supervisor l); cbn; lia.
Qed.

(** C14. A caller is told that shutdown succeeded only when the ownership of
    the store has been released, and ownership is never lost silently: while
    the store still has this owner, the guard is armed (a later [shutdown]
    retries), or the release is queued for the cleanup thread, or its failure
    has been reported. *)
Theorem shutdown_ownership l :
  life_reachable cf l →
  (Answered (Ok tt) ∈ lf_callers l → lf_owned l = false) ∧
  (lf_owned l = true →
     (∃ epoch, lf_owner_guard l = Some (Some epoch)) ∨ lf_cleanup l ≠ [] ∨ lf_reported l = true).
Proof.
  intros [_ Ho Hc]%life_ok_reachable. split.
  - intros Hin. destruct Hc as [_ Hc]. rewrite Forall_forall in Hc.
    destruct (Hc _ Hin) as (outcome & Hr & He). apply (own_flag _ Ho), (own_complete _ Ho).
    by destruct outcome.
  - intros Hown. destruct Ho as [Hg _ _ _ _ _].
    destruct (lf_owner_guard l) as [[epoch|]|]; [by left; exists epoch| |right].
    + destruct Hg as (_ & _ & ?). congruence.
    + by apply Hg.
Qed.
End shutdown_properties.

(** ** A service that stops *)

#[local] Existing Instances fixture_types fixture_json fixture_codec_types fixture_wire
  fixture_futures fixture_texts fixture_store fixture_owned.

Fixpoint life_run (acts : list LifeAction) (l : Life (S := MemoryState)) : option Life :=
  match acts with [] => Some l | a :: acts => life_act demo_service a l ≫= life_run acts end.

Lemma life_run_steps acts l l' : life_run acts l = Some l' → rtc (life_step demo_service) l l'.
Proof.
  revert l. induction acts as [|a acts IH]; intros l; cbn [life_run]; [by intros [= ->]|].
  intros (l1 & Ha & Hl)%bind_Some. eapply rtc_l; [by econstructor|by apply IH].
Qed.

(** An empty store, owned with epoch 1. *)
Definition owned_world : World MemoryState :=
  {| w_store := (acquire_owner memory_state_new).2; w_core := core_new |}.
Definition demo_life0 : Life := life_start demo_service 20 5 1 owned_world.
Definition life_or_start (l : option Life) : Life := default demo_life0 l.
(** As for pools, only whether the actions can be taken is computed. *)
Lemma life_runs acts l :
  is_some (life_run acts l) = true →
  rtc (life_step demo_service) l (life_or_start (life_run acts l)).
Proof. intros Hs. destruct (life_run acts l) eqn:Hl; [|done]. by eapply life_run_steps. Qed.

Definition reaches (now : N) : ReleaseCall := ReleaseReaches (demo_oracle now 1 succeeds) (Ok tt).

(** A task is submitted and its attempt spawned; the service is asked to stop
    and a caller waits. *)
Definition asked_to_stop : list LifeAction :=
  LifeCall (CallSubmit demo_typed_request) :: replicate 4 (LifeCallStep 0 (demo_oracle 5 1 succeeds)) ++
  replicate 18 (LifeScheduler (demo_oracle 6 0 succeeds)) ++
  [LifeRequest; LifeJoin; LifeSupervisor None (reaches 9) true; LifeSupervisor None (reaches 9) true].

(** The scheduler stops, the attempt is run to its end, the first release
    fails, and a second caller asks for a retry. *)
Definition release_failed : list LifeAction :=
  replicate 5 (LifeScheduler (demo_oracle 7 0 succeeds)) ++
  [LifeSpawn 0 0] ++ replicate 14 (LifeWorkStep 0 (demo_oracle 8 0 succeeds)) ++
  replicate 3 (LifeSupervisor None (reaches 9) true) ++
  replicate 2 (LifeSupervisor None (ReleaseStopped (Failure "busy")) true) ++ [LifeJoin].
(** The retry succeeds and its caller is answered. *)
Definition released : list LifeAction :=
  replicate 3 (LifeSupervisor None (reaches 9) true) ++ [LifeAnswer 1].
(** A late call, which is refused. *)
Definition late_cancel : list LifeAction :=
  LifeCall (CallCancel 1) :: replicate 2 (LifeCallStep 1 (demo_oracle 9 0 succeeds)).

Definition demo_life1 : Life := life_or_start (life_run asked_to_stop demo_life0).
Definition demo_life2 : Life := life_or_start (life_run release_failed demo_life1).
Definition demo_life3 : Life := life_or_start (life_run released demo_life2).
Definition demo_life4 : Life := life_or_start (life_run late_cancel demo_life3).

Lemma demo_life1_steps : rtc (life_step demo_service) demo_life0 demo_life1.
Proof. apply life_runs. vm_compute. reflexivity. Qed.
Lemma demo_life2_steps : rtc (life_step demo_service) demo_life1 demo_life2.
Proof. apply life_runs. vm_compute. reflexivity. Qed.
Lemma demo_life3_steps : rtc (life_step demo_service) demo_life2 demo_life3.
Proof. apply life_runs. vm_compute. reflexivity. Qed.
Lemma demo_life4_steps : rtc (life_step demo_service) demo_life3 demo_life4.
Proof. apply life_runs. vm_compute. reflexivity. Qed.
Lemma demo_life2_reachable : life_reachable demo_service demo_life2.
Proof.
  exists 20%nat, 5%nat, 1, owned_world.
  split; [reflexivity|]. etrans; [exact demo_life1_steps|exact demo_life2_steps].
Qed.
Lemma demo_life3_reachable : life_reachable demo_service demo_life3.
Proof.
  destruct demo_life2_reachable as (fuel & pages & epoch & w & Hw & Hr). exists fuel, pages, epoch, w.
  split; [exact Hw|]. etrans; [exact Hr|exact demo_life3_steps].
Qed.

(** The same actions with the promises of [lawful_step] checked. *)
#[local] Existing Instance fixture_store_laws.
Definition roomy (l : Life (S := MemoryState)) : bool :=
  bool_decide (map_Forall (λ _ task, ts_state_version (st_summary task) < u64_max ∧
                                     ts_attempt (st_summary task) < u32_max)
                 (tasks_of (w_store (lf_world l)))).
Definition fresh (id : option TaskId) (used : gset TaskId) : bool :=
  match id with Some id => bool_decide (id ∉ used) | None => true end.
Fixpoint lawful_run (acts : list LifeAction) (x : Life (S := MemoryState) * Notes)
    : option (Life * Notes) :=
  match acts with
  | [] => Some x
  | a :: acts =>
      if roomy x.1 && fresh (life_accepts a x.1) (nt_used x.2)
      then match life_act demo_service a x.1 with
           | Some l =>
               if roomy l
               then lawful_run acts (l, note_write (life_write a x.1) (lf_world x.1) x.2) else None
           | None => None
           end
      else None
  end.

Lemma roomy_room l : roomy l = true → life_room l.
Proof. intros Hr id task Hid. apply bool_decide_eq_true in Hr. by apply Hr in Hid. Qed.

Lemma lawful_run_steps acts x x' :
  lawful_run acts x = Some x' → rtc (lawful_step demo_service) x x'.
Proof.
  revert x. induction acts as [|a acts IH]; intros [l n]; cbn [lawful_run fst snd]; [by intros [= ->]|].
  destruct (roomy l) eqn:Hr; [|done]. destruct (fresh _ (nt_used n)) eqn:Hf; [|done]. cbn [andb].
  destruct (life_act demo_service a l) as [l'|] eqn:Ha; [|done].
  destruct (roomy l') eqn:Hr'; [|done]. intros Hl.
  eapply rtc_l; [|by apply IH]. constructor; [by apply roomy_room..| |done].
  intros id Hid. rewrite Hid in Hf. cbn [fresh] in Hf. by apply bool_decide_eq_true in Hf.
Qed.

(** A client drops its submission while the store is writing it; the service is
    stopped meanwhile. *)
Definition dropped_submit : list LifeAction :=
  LifeCall (CallSubmit demo_typed_request) :: replicate 3 (LifeCallStep 0 (demo_oracle 5 1 succeeds)) ++
  [LifeAbandonCall 0 true; LifeRequest] ++ replicate 2 (LifeSupervisor None (reaches 6) true) ++
  [LifeScheduler (demo_oracle 6 0 succeeds)] ++
  replicate 2 (LifeSupervisor None (reaches 6) true).
Definition late_release : list LifeAction := replicate 2 (LifeSupervisor None (reaches 7) true).
Definition underway_life : Life := life_or_start (life_run dropped_submit demo_life0).
Definition landed_life : Life := life_or_start (life_run late_release underway_life).

Lemma underway_reachable : life_reachable demo_service underway_life.
Proof.
  exists 20%nat, 5%nat, 1, owned_world. split; [reflexivity|]. apply life_runs. vm_compute. reflexivity.
Qed.

Lemma shutdown_quiet_witness :
  (lf_owned demo_life3 = false ∧ w_store (lf_world demo_life4) = w_store (lf_world demo_life3)) ∧
  (is_some (tasks_of (w_store (lf_world underway_life)) !! 1) = false ∧
   is_some (tasks_of (w_store (lf_world landed_life)) !! 1) = true ∧
   lf_owned landed_life = false ∧
   ∃ s1, landed (lf_underway underway_life) (w_store (lf_world underway_life)) s1 ∧
         rtc owner_released s1 (w_store (lf_world landed_life))).
Proof.
  assert (lf_owned demo_life3 = false) as Ho by (vm_compute; reflexivity). split.
  - split; [exact Ho|].
    destruct (shutdown_quiet demo_service demo_life3 demo_life3_reachable) as [Hb _].
    exact (proj2 (proj2 (Hb Ho)) demo_life4 demo_life4_steps).
  - split; [vm_compute; reflexivity|]. split; [vm_compute; reflexivity|].
    split; [vm_compute; reflexivity|].
    assert (lf_supervisor underway_life = CloseNotificationPublisher) as Hp by (vm_compute; reflexivity).
    destruct (shutdown_quiet demo_service underway_life underway_reachable) as [_ Hq].
    rewrite Hp in Hq. apply (Hq (le_n 4)). apply life_runs. vm_compute. reflexivity.
Defined.

Lemma shutdown_answers_witness :
  lf_supervisor demo_life2 = AwaitRetry ∧
  ∃ l', shutdown_supervisor None (reaches 9) true demo_life2 = Some l' ∧
    (is_Some (sp_results (lf_progress l') !! 1%nat) ∨
     (steps_to_result (lf_supervisor l') < 3)%nat).
Proof.
  assert (lf_supervisor demo_life2 = AwaitRetry) as Hp by (vm_compute; reflexivity).
  split; [exact Hp|].
  assert (lf_callers demo_life2 = [WaitingFor 0; WaitingFor 1]) as Hc by (vm_compute; reflexivity).
  assert (WaitingFor 1 ∈ lf_callers demo_life2) as Hin by (rewrite Hc; right; left).
  assert (sp_results (lf_progress demo_life2) !! 1%nat = None) as Hn by (vm_compute; reflexivity).
  destruct (shutdown_answers demo_service demo_life2 1 demo_life2_reachable Hin)
    as [(outcome & Hr & _)|[_ Hs]].
  - rewrite Hn in Hr. discriminate Hr.
  - rewrite Hp in Hs. destruct (Hs (le_S _ _ (le_n 4)) None (reaches 9) true) as (l' & Hl' & Hd).
    exists l'. split; [exact Hl'|]. destruct Hd as [Hd|[Hd _]]; [left; exact Hd|right; exact Hd].
Defined.

Lemma shutdown_ownership_witness :
  Answered (Ok tt) ∈ lf_callers demo_life3 ∧ lf_owned demo_life3 = false.
Proof.
  assert (lf_callers demo_life3 = [WaitingFor 0; Answered (Ok tt)]) as Hc
    by (vm_compute; reflexivity).
  assert (Answered (Ok tt) ∈ lf_callers demo_life3) as Hin by (rewrite Hc; right; left).
  split; [exact Hin|].
  exact (proj1 (shutdown_ownership demo_service demo_life3 demo_life3_reachable) Hin).
Defined.
