(* ===== verification/ServiceSignals.v ===== *)
(** * The cancellation signal of an attempt

    A handler sees a cooperative cancellation through its context
    ([src/src/handler/typed/typed_task_context.rs]), whose flag [run_one]
    registers and [cancel] sets after it has recorded the request.  The request
    and the flag are two steps: a call of [cancel] that is dropped between them
    leaves a request that no later call of [cancel] delivers. *)

From S2P Require Import Prelude TaskState Model Engine RetryPolicy Requests Handlers MemoryStore.
From S2P Require Import MemoryInvariant MemoryPreservation MemoryHistory MemoryQueries Fixtures.
From S2P Require Import RequestProperties TaskStore StoreOwner Programs ServiceMonad Service ServiceLogic.
From S2P Require Import ServiceSpecs ServiceScheduler ServicePool ServiceAttempts ServiceFixtures.
From S2P Require Import Shutdown ShutdownThreads ShutdownInvariant ShutdownProperties.

Section context.
Context `{ET : !ExternalTypes, SJ : !SnapshotJson, CT : !CodecTypes, MW : !MetadataWire,
          HF : !HandlerFutures, EX : !ErrorTexts}.
Context {S : Type} `{TS : !TaskStore S}.
Context (cf : ServiceConfig).

(** What a handler gets; the flag is shared with the service under the task
    and the attempt. *)
Record TypedTaskContext := {
  tx_task_id : TaskId;
  tx_attempt : N;
  tx_progress_reporter : TaskProgressReporter;
}.
Definition context_new (task_id : TaskId) (attempt : N) (progress_reporter : TaskProgressReporter) :
    TypedTaskContext :=
  {| tx_task_id := task_id; tx_attempt := attempt; tx_progress_reporter := progress_reporter |}.
Definition is_cancelled (context : TypedTaskContext) (co : ServiceCore) : bool :=
  default false (co_cancellations co !! (tx_task_id context, tx_attempt context)).

(** Once a request is recorded, [cancel] of a cooperative handler answers that
    cancellation is requested and touches neither the task nor any flag. *)
Lemma cancel_again o id task (w : World S) descriptor :
  or_disk o = None → do_get id (w_store w) = Ok (Some task) →
  ts_state (st_summary task) = Running → ts_cancel_requested (st_summary task) = true →
  registry_descriptor (ts_kind_id (st_summary task)) (cf_handlers cf) = Some descriptor →
  hd_cancellation_mode descriptor = Cooperative →
  co_fault (w_core w) = None → co_shutting_down (w_core w) = false →
  co_owner_released (w_core w) = false →
  run (W := World S) o (cancel cf id) w = (Replied (Ok CancellationRequested), w).
Proof.
  intros Hd Hget Hrun Hreq Hdesc Hmode Hf Hsd Hor. destruct w as [s co]. cbn in Hget, Hf, Hsd, Hor.
  assert (run (W := World S) o check_fault {| w_store := s; w_core := co |} = (Ok tt, {| w_store := s; w_core := co |}))
    as H1 by (cbn; by rewrite Hf).
  assert (run (W := World S) o refuses_work {| w_store := s; w_core := co |} = (false, {| w_store := s; w_core := co |}))
    as H2 by (cbn; rewrite Hsd; cbn; by rewrite Hor).
  assert (run (W := World S) o (call (OpGet id)) {| w_store := s; w_core := co |} =
    (Ok (Some task), {| w_store := s; w_core := co |})) as H3.
  { cbn. unfold disk_read. by rewrite Hd, Hget. }
  unfold cancel. rewrite run_bind, H1. cbn [fst snd]. rewrite run_bind, H2. cbn [fst snd].
  rewrite run_bind, H3. cbn [fst snd]. rewrite run_bind. cbn [store_result run fst snd].
  rewrite Hrun. cbn [is_terminal]. rewrite bool_decide_true by done. cbn [negb].
  unfold cancel_running. rewrite Hdesc, Hmode, Hreq. done.
Qed.
End context.

(** ** A request that is never delivered *)

#[local] Existing Instances fixture_types fixture_json fixture_codec_types fixture_wire
  fixture_futures fixture_texts fixture_store fixture_owned.

(** The handler of task 1 is running when a client cancels the task; the call
    is dropped while the request is being written, which the store completes. *)
Definition dropped_cancel : list LifeAction :=
  LifeCall (CallSubmit demo_typed_request) :: replicate 4 (LifeCallStep 0 (demo_oracle 5 1 succeeds)) ++
  replicate 18 (LifeScheduler (demo_oracle 6 0 succeeds)) ++
  [LifeSpawn 0 0] ++ replicate 5 (LifeWorkStep 0 (demo_oracle 7 0 succeeds)) ++
  [LifeCall (CallCancel 1)] ++ replicate 4 (LifeCallStep 1 (demo_oracle 8 0 succeeds)) ++
  [LifeAbandonCall 1 true; LifeLand (demo_oracle 8 0 succeeds)].
Definition unsignalled : Life := life_or_start (life_run dropped_cancel demo_life0).
Lemma unsignalled_reachable : life_reachable demo_service unsignalled.
Proof.
  exists 20%nat, 5%nat, 1, owned_world.
  split; [reflexivity|]. apply life_runs. vm_compute. reflexivity.
Qed.


(** The attempt waits for its handler. *)
Definition at_handler (p : prog unit) : bool :=
  match p with Step (OpRun _ _ _) _ => true | _ => false end.

(** The task is running with its cancellation requested, and its handler is a
    cooperative one. *)
Definition awaits_signal (w : World MemoryState) (id : TaskId) : bool :=
  match do_get id (w_store w) with
  | Ok (Some task) =>
      bool_decide (ts_state (st_summary task) = Running) && ts_cancel_requested (st_summary task) &&
      match registry_descriptor (ts_kind_id (st_summary task)) (cf_handlers demo_service) with
      | Some descriptor => bool_decide (hd_cancellation_mode descriptor = Cooperative)
      | None => false
      end
  | _ => false
  end.
Definition accepts_calls (w : World MemoryState) : bool :=
  bool_decide (co_fault (w_core w) = None) && negb (co_shutting_down (w_core w)) &&
  negb (co_owner_released (w_core w)).

Lemma awaiting_cancel o (w : World MemoryState) id :
  or_disk o = None → awaits_signal w id = true → accepts_calls w = true →
  run (W := World MemoryState) o (cancel demo_service id) w =
    (Replied (Ok CancellationRequested), w).
Proof.
  unfold awaits_signal, accepts_calls. intros Hd Ht Ha.
  destruct (do_get id (w_store w)) as [[task|]|] eqn:Hget; [|discriminate Ht..].
  destruct (registry_descriptor _ _) as [descriptor|] eqn:Hdesc; [|by rewrite andb_false_r in Ht].
  rewrite !andb_true_iff, !bool_decide_eq_true in Ht.
  rewrite !andb_true_iff, !negb_true_iff, bool_decide_eq_true in Ha.
  destruct Ht as [[Hrun Hreq] Hmode], Ha as [[Hf Hsd] Hor].
  exact (cancel_again demo_service o id task w descriptor Hd Hget Hrun Hreq Hdesc Hmode Hf Hsd Hor).
Qed.

(** The handler of the task is running, the request is recorded and the
    context reports no cancellation; every later [cancel] answers that the
    cancellation is requested and changes nothing, so none sets the flag. *)
Lemma service_signal_lost o :
  or_disk o = None →
  life_reachable demo_service unsignalled ∧
  forallb at_handler (lf_works unsignalled) = true ∧ forallb halted (lf_calls unsignalled) = true ∧
  awaits_signal (lf_world unsignalled) 1 = true ∧
  is_cancelled (context_new 1 1 (reporter_new 1 1)) (w_core (lf_world unsignalled)) = false ∧
  run (W := World MemoryState) o (cancel demo_service 1) (lf_world unsignalled) =
    (Replied (Ok CancellationRequested), lf_world unsignalled).
Proof.
  intros Hd. split; [exact unsignalled_reachable|].
  split; [vm_compute; reflexivity|]. split; [vm_compute; reflexivity|].
  assert (awaits_signal (lf_world unsignalled) 1 = true) as Ht by (vm_compute; reflexivity).
  split; [exact Ht|]. split.
  - vm_compute. reflexivity.
  - apply awaiting_cancel; [exact Hd|exact Ht|vm_compute; reflexivity].
Qed.
