(* ===== verification/SystemProperties.v ===== *)
(** * The whole system: theorems

    Every version of a task that the service commits reaches the event bus, in
    the order of the versions, or waits in the outbox, or was taken out by an
    operator. *)

From S2P Require Import Prelude TaskState Model Engine RetryPolicy Requests Handlers MemoryStore.
From S2P Require Import MemoryInvariant MemoryPreservation MemoryHistory MemoryQueries MemorySpec.
From S2P Require Import SqliteStore SqliteAdmin SqliteInvariant SqliteRefinement SqliteQueries.
From S2P Require Import SqlitePruning SqliteOutbox SqliteHistory TaskStore StoreOwner Programs ServiceMonad.
From S2P Require Import Publisher PublisherLogic PublisherSpecs PublisherProperties Service.
From S2P Require Import ServiceLogic ServicePool Shutdown ShutdownThreads ShutdownInvariant.
From S2P Require Import ShutdownRefinement ShutdownProperties System RequestProperties Fixtures.
From S2P Require Import SqliteFixtures ServiceFixtures.

Section properties.
Context `{ET : !ExternalTypes, SJ : !SnapshotJson, CT : !CodecTypes, MW : !MetadataWire,
          HF : !HandlerFutures, EX : !ErrorTexts, QJ : !SqliteJson, QL : !SqliteJsonLaws,
          EB : !EventBus}.
#[local] Existing Instances sqlite_task_store sqlite_store_laws sqlite_owned_store sqlite_owned_laws.
Context (cf : ServiceConfig).
Implicit Types (y : System) (l : Life (S := SqliteTaskStore)) (s : SqliteTaskStore).

(** ** What an operation of the service records *)

(** A task that is new has version 0 and the identifier that was accepted; a
    version that is new follows the old one; both come with their event. *)
Definition records (accepted : option TaskId) (db db' : SqliteDb) : Prop :=
  ∀ id task', view db' !! id = Some task' →
    let event v := is_Some (db_outbox db' !! (id, Z.of_N v)) in
    let version := ts_state_version (st_summary task') in
    match view db !! id with
    | Some task => version = ts_state_version (st_summary task) ∨
        version = ts_state_version (st_summary task) + 1 ∧ event version
    | None => accepted = Some id ∧ version = 0 ∧ event version
    end.

Lemma records_same accepted db : records accepted db db.
Proof. intros id task' Hid. rewrite Hid. by left. Qed.

Lemma event_there enabled now t db db' :
  committed enabled now t db db' → enabled = true →
  is_Some (db_outbox db' !! (ts_id t, Z.of_N (ts_state_version t))).
Proof. intros [Hev _] ->. destruct Hev as (json & _ & _ & ->). by rewrite lookup_insert_eq. Qed.

(** A commit of the next version. *)
Lemma commit_records accepted enabled now id t db db' :
  committed enabled now t db db' → enabled = true → task_commit id t db db' →
  (∃ task, view db !! id = Some task ∧
     ts_state_version t = ts_state_version (st_summary task) + 1 ∧ ts_id t = id) →
  records accepted db db'.
Proof.
  intros Hc He [_ (task0 & H0 & _ & Hview)] (task & Hid & Hv & Hti) id' task'. rewrite Hview.
  assert (task0 = task) as -> by congruence.
  pose proof (event_there _ _ _ _ _ Hc He) as Hev. rewrite lookup_insert_Some.
  intros [[<- <-]|[_ Hid']]; [|rewrite Hid'; by left]. cbn. rewrite Hid. right.
  split; [done|]. by rewrite <- Hti.
Qed.

Lemma run_write_records {A} accepted (op : SqliteDb → result (A * SqliteDb) StoreError) s :
  (∀ a db', op (ss_db s) = Ok (a, db') → records accepted (ss_db s) db') →
  ss_outbox_enabled (run_write op s).2 = ss_outbox_enabled s ∧
  records accepted (ss_db s) (ss_db (run_write op s).2).
Proof.
  intros Hop. destruct (run_write_cases op s) as [(a & db' & Ha & ->)|[(e & _ & ->)|(m & ->)]];
    [|split; [done|apply records_same]..]. split; [done|by eapply Hop].
Qed.

Lemma perform_records o {X} (op : Op X) (w : World SqliteTaskStore) events
    (s := w_store w) (s' := w_store (perform o op w).2) :
  store_inv s → ss_outbox_enabled s = true →
  (∀ id, accepts op = Some id → ∀ v, events !! (id, v) = None) →
  (s' = s ∨ writer_step events s s') ∧ ss_outbox_enabled s' = true ∧
  records (accepts op) (ss_db s) (ss_db s').
Proof.
  intros Hinv He Hnew. pose proof (si_db s Hinv) as Hwf.
  assert (∀ A (f : SqliteTaskStore → A * SqliteTaskStore),
    w_store (on_store f w).2 = (f s).2) as Hon by (intros A f; unfold on_store; by destruct (f _)).
  destruct op; try (split_and!; [by left|done|apply records_same]);
    [subst s'; unfold perform; rewrite Hon; unfold disk_write;
     destruct (or_disk o); [split_and!; [by left|done|apply records_same]|];
     cbn [do_accept do_start do_transition do_progress sqlite_task_store]..|].
  - split; [right; constructor; by eapply Hnew|].
    unfold store_accept. rewrite <- He. apply run_write_records. intros out db' Hop.
    pose proof (accept_recorded _ _ _ _ _ _ _ _ Hop) as Hc.
    pose proof (sqlite_accept_sound (ss_outbox_enabled s) (or_now o) (or_now o) id r (ss_db s) Hwf) as Ha.
    rewrite Hop in Ha. destruct Ha as [_ Ha]. destruct (ao_created out) eqn:Hcr.
    + destruct Ha as (Hsum & Hnone & _ & Hv). rewrite He in Hc.
      pose proof (event_there _ _ _ _ _ Hc eq_refl) as Hev. rewrite Hsum in Hev.
      intros id' task'. rewrite Hv, lookup_insert_Some.
      intros [[<- <-]|[_ Hid']]; [rewrite Hnone|rewrite Hid'; by left]. by split_and!.
    + destruct Ha as [-> _]. apply records_same.
  - split; [right; constructor|]. unfold store_start. rewrite <- He. apply run_write_records.
    intros t db' Hop. destruct (start_commit _ _ _ _ _ _ Hwf Hop) as [Hc Ht].
    eapply commit_records; [by eapply start_recorded|done|done|done].
  - split; [right; constructor|]. unfold store_transition. rewrite <- He. apply run_write_records.
    intros t db' Hop. destruct (transition_commit _ _ _ _ _ _ Hwf Hop) as [Hc Ht].
    eapply commit_records; [by eapply transition_recorded|done|done|done].
  - split; [right; constructor|]. rewrite <- He. split.
    { unfold store_progress, run_write, transact. by repeat case_match. }
    destruct (sqlite_progress_law s c Hinv) as [_ Ho]. unfold progress_outcome in Ho.
    destruct (store_progress c s).1 as [t|e].
    + destruct Ho as (task & p & Hid & _ & _ & _ & _ & _ & -> & Hview). intros id' task'.
      rewrite Hview, lookup_insert_Some. intros [[<- <-]|[_ Hid']]; [rewrite Hid; by left|rewrite Hid'; by left].
    + intros id' task' Hid'. rewrite Ho in Hid'. rewrite Hid'. by left.
  - subst s'. unfold perform. destruct (f (w_core w)).
    split_and!; [by left|done|apply records_same].
Qed.

(** ** What a step of the worker does to it *)

Lemma worker_store o {X} (op : PubOp X) w (w' := (pub_perform o op w).2) :
  view (ss_db (pw_store w')) = view (ss_db (pw_store w)) ∧
  ss_outbox_enabled (pw_store w') = ss_outbox_enabled (pw_store w) ∧ pw_events w' = pw_events w.
Proof.
  assert (∀ A (run : SqliteDb → result (A * SqliteDb) StoreError),
    (∀ a db', run (ss_db (pw_store w)) = Ok (a, db') → db_tasks db' = db_tasks (ss_db (pw_store w))) →
    let w' := (on_outbox o run w).2 in
    view (ss_db (pw_store w')) = view (ss_db (pw_store w)) ∧
    ss_outbox_enabled (pw_store w') = ss_outbox_enabled (pw_store w) ∧ pw_events w' = pw_events w) as Hout.
  { intros A run Hrun. unfold on_outbox, run_outbox, transact. destruct (po_disk o); [done|].
    destruct (_ || _); [done|]. destruct (run _) as [[a db']|e] eqn:Hr; [|done]. cbn.
    split_and!; [|done..]. unfold view. by rewrite (Hrun a db' eq_refl). }
  subst w'. destruct op; cbn [pub_perform]; [apply Hout..| | |].
  - intros a db' Hr. destruct (list_outbox _ _); by simplify_eq/=.
  - intros a db' Hr. unfold mark_outbox_published in Hr. by repeat case_match; simplify_eq/=.
  - intros a db' Hr. unfold quarantine_outbox_head in Hr. by repeat case_match; simplify_eq/=.
  - by destruct (is_ok _).
  - destruct (po_control o); [|done]. by destruct (try_recv _).
  - by destruct (f (pw_state w)).
Qed.

(** ** The invariant *)

Section started.
Context (fuel pages rounds controls : nat) (epoch : OwnerEpoch) (s0 : SqliteTaskStore).
Context (Hreach : sqlite_reachable s0) (Henabled : ss_outbox_enabled s0 = true).

(** Version [v] of the task was committed after the start. *)
Definition committed_since id (v : N) y : Prop :=
  ∃ task, view (ss_db (sy_store y)) !! id = Some task ∧ v ≤ ts_state_version (st_summary task) ∧
    ∀ task0, view (ss_db s0) !! id = Some task0 → ts_state_version (st_summary task0) < v.

(** The worker as far as it still runs: all of it, or the operation that was
    left when it was aborted. *)
Definition runs_as (p : job (option unit)) (worker : option (job (option unit))) : Prop :=
  match worker with
  | Some (Step op k) => ∃ k', p = Step op k' ∧ (k' = k ∨ ∀ x, k x = Ret None)
  | _ => True
  end.

(** The service has nothing left to write, though its ownership may be gone. *)
Definition written_out l : Prop := rank l = 5%nat ∧ lf_underway l = None.

Record system_ok y : Prop := {
  so_life : life_ok (sy_life y);
  so_worker : ∃ p,
    rtc (thread_step pub_others) (run_worker rounds controls INITIAL_BACKOFF_MS, publisher_start s0)
      (p, pub_world y) ∧ runs_as p (sy_worker y);
  so_enabled : ss_outbox_enabled (sy_store y) = true ∨ written_out (sy_life y);
  so_tasks : ∀ id task, view (ss_db (sy_store y)) !! id = Some task → id ∈ sy_used y;
  so_events : ∀ id v, is_Some (sy_events y !! (id, v)) → id ∈ sy_used y;
  so_recorded : ∀ id v, committed_since id v y → is_Some (sy_events y !! (id, Z.of_N v));
}.

Lemma system_publisher y : system_ok y → publisher_reachable (pub_world y).
Proof using Hreach. intros Hy. destruct (so_worker y Hy) as (p & Hr & _). by exists s0, rounds, controls, p. Qed.
Lemma system_store y : system_ok y → store_inv (sy_store y).
Proof using Hreach QL. intros Hy. by apply (pi_store (pub_world y)), publisher_reachable_inv, system_publisher. Qed.
Lemma system_pending y : system_ok y → db_outbox (ss_db (sy_store y)) ⊆ sy_events y.
Proof using Hreach QL. intros Hy. by apply (pi_outbox (pub_world y)), publisher_reachable_inv, system_publisher. Qed.

Lemma runs_as_self p : runs_as p (Some p).
Proof. destruct p as [|X op k]; [done|]. exists k. auto. Qed.

(** A step of others, as the worker sees it. *)
Lemma worker_other y (w : PubWorld) (worker : option (job (option unit))) :
  system_ok y → pub_others (pub_world y) w → (∀ p, runs_as p (sy_worker y) → runs_as p worker) →
  ∃ p, rtc (thread_step pub_others) (run_worker rounds controls INITIAL_BACKOFF_MS, publisher_start s0)
    (p, w) ∧ runs_as p worker.
Proof.
  intros Hy Ho Hw. destruct (so_worker y Hy) as (p & Hr & Hp). exists p. split; [|by apply Hw].
  eapply rtc_r; [exact Hr|]. by constructor.
Qed.

Lemma union_absorb (m m' : gmap (TaskId * Z) OutboxRow) : m' ⊆ m → m ∪ m' = m.
Proof.
  intros Hs. apply map_eq. intros k. rewrite lookup_union. pose proof (Hs k) as Hk.
  destruct (m !! k), (m' !! k); done.
Qed.

Lemma system_start_ok : system_ok (system_start cf fuel pages rounds controls epoch s0).
Proof using Hreach Henabled QL.
  pose proof (sqlite_reachable_inv s0 Hreach) as Hinv. split.
  - by apply life_ok_start.
  - exists (run_worker rounds controls INITIAL_BACKOFF_MS). split; [apply rtc_refl|apply runs_as_self].
  - by left.
  - intros id task Hid. by apply elem_of_dom_2 in Hid.
  - intros id v [ob Hob]. destruct (dbw_outbox _ (si_db s0 Hinv) _ _ _ Hob) as (row & Hrow & _).
    destruct (dbw_row _ (si_db s0 Hinv) _ _ Hrow) as (r & lc & Hw).
    eapply elem_of_dom_2. by apply (view_lookup _ _ _ _ _ Hrow Hw).
  - intros id v (task & Hid & Hle & Hlt). specialize (Hlt task Hid). lia.
Qed.

Lemma used_mono (id : TaskId) o (used : gset TaskId) : id ∈ used → id ∈ use o used.
Proof. destruct o; cbn; set_solver. Qed.

Lemma union_twice (m m' : gmap (TaskId * Z) OutboxRow) : (m ∪ m') ∪ m' = m ∪ m'.
Proof. apply map_eq. intros k. rewrite !lookup_union. by destruct (m !! k), (m' !! k). Qed.

(** The world of the publisher after a write of the service. *)
Definition after_write y s : PubWorld :=
  {| pw_store := s; pw_state := sy_publisher y; pw_bus := sy_bus y;
     pw_events := sy_events y ∪ db_outbox (ss_db s) |}.

Lemma store_release_db unlock e s : ss_db (store_release_owner unlock e s).2 = ss_db s.
Proof. unfold store_release_owner. by repeat case_match. Qed.

(** The write of a step. *)
Lemma written_records y a l' s1 (s := sy_store y) :
  system_ok y → (∀ id, life_accepts a (sy_life y) = Some id → id ∉ sy_used y) →
  store_written a (sy_life y) l' s1 →
  pub_others (pub_world y) (after_write y s1) ∧ store_inv s1 ∧
  (ss_outbox_enabled s1 = true ∨ written_out (sy_life y)) ∧
  ∃ accepted, (∀ id, accepted = Some id → life_accepts a (sy_life y) = Some id) ∧
    records accepted (ss_db s) (ss_db s1).
Proof using Hreach Henabled QL.
  intros Hy Hfresh Hw. pose proof (system_store y Hy) as Hinv.
  assert (s1 = s → pub_others (pub_world y) (after_write y s1)) as Hsame.
  { intros ->. unfold after_write. subst s. rewrite union_absorb by by apply system_pending. apply rtc_refl. }
  destruct Hw as [->|(o & X & op & -> & Hacc & Hq)].
  { split_and!; [by apply Hsame|done|apply Hy|]. exists None. split; [done|apply records_same]. }
  destruct (so_enabled y Hy) as [He|[Hr Hn]]; [|destruct (Hq ltac:(lia)); congruence].
  destruct (perform_records o op (lf_world (sy_life y)) (sy_events y)) as (Hst & He' & Hrec); [done|done| |].
  { intros id Hid v. apply eq_None_not_Some. intros Hev.
    by apply (Hfresh id (Hacc id Hid)), (so_events y Hy id v). }
  split_and!; [| |by left|by exists (accepts op)].
  - destruct Hst as [Hst|Hst]; [by apply Hsame|]. apply rtc_once. by apply (other_writes (pub_world y)).
  - destruct Hst as [->|Hst]; [done|]. exact (sqlite_step_inv _ _ Hinv (writer_step_sqlite _ _ _ Hst)).
Qed.

(** The effect of a step of the service on the store, for the invariant. *)
Lemma life_records y a l' (s := sy_store y) (s' := w_store (lf_world l')) :
  system_ok y → (∀ id, life_accepts a (sy_life y) = Some id → id ∉ sy_used y) →
  life_act cf a (sy_life y) = Some l' →
  pub_others (pub_world y) (after_write y s') ∧ store_inv s' ∧
  (ss_outbox_enabled s' = true ∨ written_out l') ∧
  ∃ accepted, (∀ id, accepted = Some id → life_accepts a (sy_life y) = Some id) ∧
    records accepted (ss_db s) (ss_db s').
Proof using Hreach Henabled QL.
  intros Hy Hfresh Ha. destruct (so_life y Hy) as [Ht Ho Hc].
  destruct (store_step cf a _ _ Ht Ho Ha) as (s1 & Hw & Hrel).
  destruct (written_records y a l' s1 Hy Hfresh Hw) as (Hpub & Hinv & He & acc & Hacc & Hrec).
  destruct (life_keeps_step cf _ _ Ht Hc (life_does cf a _ _ Ha)) as (Hrank & _ & _ & Hu).
  assert (phase_rank (lf_supervisor l') ≤ 5)%nat as Hmax by (destruct (lf_supervisor l'); cbn; lia).
  unfold written_out, rank in *. destruct Hrel as [Heq|(Hr & _ & Hn & unlock & epoch' & Heq)].
  - subst s'. rewrite Heq. split_and!; [done|done| |by exists acc].
    destruct He as [He|[Hr Hn]]; [by left|right]. rewrite Hr in Hrank, Hu. split; [lia|].
    destruct (Hu ltac:(lia)); congruence.
  - assert (ss_db s' = ss_db s1) as Hdb by (subst s'; rewrite Heq; apply store_release_db).
    split_and!; [| | |exists acc; by rewrite Hdb].
    + eapply rtc_r; [exact Hpub|].
      assert (writer_step (pw_events (after_write y s1)) s1 s') as Hstep
        by (subst s'; rewrite Heq; apply writer_release).
      apply (other_writes (after_write y s1)) in Hstep. unfold after_write in *. cbn in Hstep.
      rewrite Hdb, union_twice in Hstep. by rewrite Hdb.
    + subst s'. rewrite Heq. exact (sqlite_step_inv _ _ Hinv (writer_step_sqlite ∅ _ _ (writer_release _ _ _ _))).
    + right. unfold rank in Hr. split; [lia|done].
Qed.

Lemma system_life_ok y a l' :
  system_ok y → closes a (sy_life y) = false →
  (∀ id, life_accepts a (sy_life y) = Some id → id ∉ sy_used y) →
  life_act cf a (sy_life y) = Some l' →
  system_ok {| sy_life := l'; sy_used := use (life_accepts a (sy_life y)) (sy_used y);
               sy_worker := sy_worker y; sy_publisher := sy_publisher y; sy_bus := sy_bus y;
               sy_events := sy_events y ∪ db_outbox (ss_db (w_store (lf_world l'))) |}.
Proof using Hreach Henabled QL.
  intros Hy _ Hfresh Ha. destruct (life_records y a l' Hy Hfresh Ha) as (Hw & Hinv' & He' & acc & Hacc & Hrec).
  set (s' := w_store (lf_world l')) in *. pose proof (system_store y Hy) as Hinv.
  assert (∀ id task, view (ss_db s') !! id = Some task →
    id ∈ use (life_accepts a (sy_life y)) (sy_used y)) as Htasks.
  { intros id task Hid. specialize (Hrec id task Hid). cbn zeta in Hrec.
    destruct (view (ss_db (sy_store y)) !! id) as [task0|] eqn:H0.
    - by apply used_mono, (so_tasks y Hy id task0).
    - destruct Hrec as (Hid' & _). rewrite (Hacc id Hid'). cbn. set_solver. }
  split; cbn [sy_life sy_used sy_worker sy_events].
  - eapply (life_ok_step cf (sy_life y)); [by econstructor|apply Hy].
  - eapply (worker_other y); [done|exact Hw|done].
  - exact He'.
  - exact Htasks.
  - intros id v Hev. apply lookup_union_is_Some in Hev as [Hev|[ob Hob]].
    + by apply used_mono, (so_events y Hy id v).
    + destruct (dbw_outbox _ (si_db s' Hinv') _ _ _ Hob) as (row & Hrow & _).
      destruct (dbw_row _ (si_db s' Hinv') _ _ Hrow) as (r & lc & Hwf).
      eapply Htasks. by apply (view_lookup _ _ _ _ _ Hrow Hwf).
  - intros id v (task' & Hid & Hle & Hbase). specialize (Hrec id task' Hid). cbn zeta in Hrec.
    apply lookup_union_is_Some. change (view (ss_db s') !! id = Some task') in Hid.
    destruct (view (ss_db (sy_store y)) !! id) as [task0|] eqn:H0.
    + assert (v ≤ ts_state_version (st_summary task0) → is_Some (sy_events y !! (id, Z.of_N v))) as Hold.
      { intros Hv. apply (so_recorded y Hy). exists task0. by split_and!. }
      destruct Hrec as [Heq|[Heq Hev]]; [left; apply Hold; lia|].
      destruct (decide (v = ts_state_version (st_summary task'))) as [->|]; [by right|].
      left. apply Hold. lia.
    + destruct Hrec as (_ & Hz & Hev). right. replace v with (ts_state_version (st_summary task')) by lia. done.
Qed.

Lemma life_ok_store s l : life_ok l → life_ok (set_store s l).
Proof. intros [[] [] []]. split; constructor; assumption. Qed.

Lemma system_worker_ok y {X} (op : PubOp X) k o :
  system_ok y → sy_worker y = Some (Step op k) →
  system_ok (with_worker (pub_perform o op (pub_world y)).2
               (Some (k (pub_perform o op (pub_world y)).1)) y).
Proof.
  intros Hy Hw. destruct (worker_store o op (pub_world y)) as (Hv & He & Hev).
  split; unfold with_worker, sy_store; cbn.
  - apply life_ok_store, Hy.
  - destruct (so_worker y Hy) as (p & Hr & Hp). rewrite Hw in Hp. destruct Hp as (k' & -> & Hk).
    exists (k' (pub_perform o op (pub_world y)).1). split.
    + eapply rtc_r; [exact Hr|].
      match goal with |- thread_step _ _ (_, ?w) => replace w with (pub_perform o op (pub_world y)).2 end;
        [exact (thread_self pub_others op k' o (pub_world y) I)|].
      by destruct (pub_perform o op (pub_world y)) as [? []].
    + destruct Hk as [->|Hk]; [apply runs_as_self|]. by rewrite Hk.
  - rewrite He. apply Hy.
  - intros id task. rewrite Hv. apply Hy.
  - intros id v. rewrite Hev. apply Hy.
  - intros id v (task & Hid & H). unfold sy_store in Hid. cbn in Hid. rewrite Hv in Hid. rewrite Hev. apply (so_recorded y Hy).
    by exists task.
Qed.

Lemma system_step_ok y y' : system_step cf y y' → system_ok y → system_ok y'.
Proof using Hreach Henabled QL.
  intros Hs Hy.
  destruct Hs as [a l' y Hc Hf Ha|X op k o y Hw|ps y Hps|close call accepts' ended leftover l' y Hp Hcl Hj Hlo Hres Ha].
  - by apply system_life_ok.
  - by apply system_worker_ok.
  - destruct Hy as [H1 H2 H3 H4 H5 H6]. split; try done.
    eapply (worker_other y); [by split| |done]. apply rtc_once. by apply (other_client (pub_world y)).
  - destruct (supervisor_effect _ _ _ _ _ Ha) as [[Ep _]|(_ & Ew & _ & _ & _ & Eu)]; [congruence|].
    assert (w_store (lf_world l') = sy_store y) as Hst by by rewrite Ew.
    split; unfold sy_store; cbn; try (rewrite Hst; by apply Hy); [| | |by apply Hy|].
    + eapply (life_ok_step cf (sy_life y)); [by econstructor|apply Hy].
    + eapply (worker_other y); [done| |].
      * unfold pub_world, sy_store. cbn. rewrite Hst. apply rtc_refl.
      * intros p Hrun. destruct Hlo as [->|[_ (X & op & k & Hsome & ->)]]; [done|].
        rewrite Hsome in Hrun. destruct Hrun as (k' & -> & _). exists k'. split; [done|]. by right.
    + rewrite Hst. destruct (so_enabled y Hy) as [He|[Hr _]]; [by left|].
      unfold rank in Hr. by rewrite Hp in Hr.
    + intros id v (task & Hid & H). unfold sy_store in Hid. cbn in Hid. rewrite Hst in Hid.
      apply (so_recorded y Hy). by exists task.
Qed.

Lemma system_reachable_ok y :
  rtc (system_step cf) (system_start cf fuel pages rounds controls epoch s0) y → system_ok y.
Proof using Hreach Henabled QL.
  intros Hr. pose proof system_start_ok as H0.
  induction Hr as [|y1 y2 y3 Hs _ IH]; [done|]. by eapply IH, system_step_ok.
Qed.
End started.

(** ** The theorem *)

(** C5. The service on the SQLite store with its publisher, from its start on
    any store whose outbox is enabled and in any order of steps: every version
    of a task that has been committed is announced, that is, its event is still
    pending in the outbox, or has been quarantined by an operator, or has been
    admitted by the bus; and the bus gets the events of a task in the order of
    its versions, quarantined ones left out. *)
Theorem system_delivery fuel pages rounds controls epoch s0 y id v :
  sqlite_reachable s0 → ss_outbox_enabled s0 = true →
  rtc (system_step cf) (system_start cf fuel pages rounds controls epoch s0) y →
  committed_since s0 id v y →
  let key := (id, Z.of_N v) in
  let admitted_at i := ∃ x, sy_bus y !! i = Some x ∧ oe_task_id x.1 = id ∧ oe_state_version x.1 = v in
  (is_Some (db_outbox (ss_db (sy_store y)) !! key) ∨
   is_Some (db_quarantine (ss_db (sy_store y)) !! key) ∨ ∃ i, admitted_at i) ∧
  ∀ j x, sy_bus y !! j = Some x → oe_task_id x.1 = id → v < oe_state_version x.1 →
    is_Some (db_quarantine (ss_db (sy_store y)) !! key) ∨ ∃ i, (i < j)%nat ∧ admitted_at i.
Proof.
  intros H0 He Hr Hc key admitted_at.
  pose proof (system_reachable_ok fuel pages rounds controls epoch s0 H0 He y Hr) as Hy.
  destruct (so_recorded _ _ _ _ Hy id v Hc) as [ob Hob].
  pose proof (publisher_reachable_inv _ (system_publisher _ _ _ H0 y Hy)) as Hi.
  assert (∀ n, admitted_before n key (pub_world y) → ∃ i, (i < n)%nat ∧ admitted_at i) as Hadm.
  { intros n (i & x & Hin & Hx & [= Hk1 Hk2]). exists i. split; [done|]. exists x. split_and!; [done..|lia]. }
  split.
  - destruct (pi_kept _ Hi key ob Hob) as [Hout|[Hq|Ha]]; [by left; eexists|by right; left|].
    right. right. destruct (Hadm _ Ha) as (i & _ & ?). by exists i.
  - intros j x Hx Hid Hv. destruct (pi_order _ Hi j x id (Z.of_N v)) as [Hq|Ha]; [done|done|lia|by eexists|by left|].
    right. by apply Hadm.
Qed.

(** ** Schedules *)

Inductive SystemAction := SysLife (a : LifeAction) | SysWorker (o : PubOracle).

Definition system_act (a : SystemAction) y : option System :=
  match a with
  | SysLife a =>
      let l := sy_life y in
      if closes a l || is_some_and (λ id, bool_decide (id ∈ sy_used y)) (life_accepts a l) then None else
      match life_act cf a l with
      | None => None
      | Some l' =>
          Some {| sy_life := l'; sy_used := use (life_accepts a l) (sy_used y);
                  sy_worker := sy_worker y; sy_publisher := sy_publisher y; sy_bus := sy_bus y;
                  sy_events := sy_events y ∪ db_outbox (ss_db (w_store (lf_world l'))) |}
      end
  | SysWorker o =>
      match sy_worker y with
      | Some (Step op k) =>
          Some (with_worker (pub_perform o op (pub_world y)).2
                  (Some (k (pub_perform o op (pub_world y)).1)) y)
      | _ => None
      end
  end.
Fixpoint system_schedule (acts : list SystemAction) y : option System :=
  match acts with [] => Some y | a :: acts => system_act a y ≫= system_schedule acts end.

Lemma system_act_step a y y' : system_act a y = Some y' → system_step cf y y'.
Proof.
  destruct a as [a|o]; cbn [system_act].
  - destruct (_ || _) eqn:Hb; [done|]. apply orb_false_iff in Hb as [Hc Hf].
    destruct (life_act cf a (sy_life y)) as [l'|] eqn:Ha; [|done]. intros [= <-].
    apply system_life; [done| |done]. intros id Hid Hin. rewrite Hid in Hf. cbn in Hf.
    by apply bool_decide_eq_false in Hf.
  - destruct (sy_worker y) as [[|X op k]|] eqn:Hw; [done| |done]. intros [= <-]. by apply system_worker.
Qed.
Lemma system_schedule_steps acts y y' : system_schedule acts y = Some y' → rtc (system_step cf) y y'.
Proof.
  revert y. induction acts as [|a acts IH]; intros y; cbn; [by intros [= ->]|].
  destruct (system_act a y) as [y1|] eqn:Ha; [|done]. intros Hs.
  eapply rtc_l; [by eapply system_act_step|by apply IH].
Qed.
End properties.

(** ** A task whose acceptance is announced *)

#[local] Existing Instances fixture_types fixture_json fixture_codec_types fixture_wire fixture_futures
  fixture_texts fixture_sqlite fixture_sqlite_laws fixture_bus.
#[local] Existing Instances sqlite_task_store sqlite_store_laws sqlite_owned_store sqlite_owned_laws.

(** The store holds two tasks with four pending events; a client submits task
    9, and the worker publishes what it finds. *)
Definition system0 : System := system_start demo_service 20 5 5 3 1 demo_sq4.
Definition submit_and_publish : list SystemAction :=
  SysLife (LifeCall (CallSubmit demo_typed_request)) ::
  replicate 4 (SysLife (LifeCallStep 0 (demo_oracle 9 9 succeeds))) ++
  replicate 45 (SysWorker bus_admits).
Definition system1 : System :=
  default system0 (system_schedule demo_service submit_and_publish system0).

Lemma system1_steps : rtc (system_step demo_service) system0 system1.
Proof.
  assert (is_some (system_schedule demo_service submit_and_publish system0) = true) as Hs
    by (vm_compute; reflexivity).
  unfold system1. destruct (system_schedule _ _ _) eqn:Hl; [|done]. by eapply system_schedule_steps.
Qed.

Lemma system1_committed : committed_since demo_sq4 9 0 system1.
Proof.
  assert (is_some (view (ss_db (sy_store system1)) !! 9) = true) as [task Ht]%is_some_true
    by (vm_compute; reflexivity).
  assert (view (ss_db demo_sq4) !! 9 = None) as Hnew by (vm_compute; reflexivity).
  exists task. split; [exact Ht|]. split; [lia|]. intros task0 Ht0. congruence.
Qed.

Lemma system_delivery_witness :
  db_outbox (ss_db (sy_store system1)) !! (9, 0%Z) = None ∧
  db_quarantine (ss_db (sy_store system1)) !! (9, 0%Z) = None ∧
  ∃ i x, sy_bus system1 !! i = Some x ∧ oe_task_id x.1 = 9 ∧ oe_state_version x.1 = 0.
Proof.
  assert (db_outbox (ss_db (sy_store system1)) !! (9, 0%Z) = None) as Hout by (vm_compute; reflexivity).
  assert (db_quarantine (ss_db (sy_store system1)) !! (9, 0%Z) = None) as Hq by (vm_compute; reflexivity).
  split; [exact Hout|]. split; [exact Hq|].
  destruct (system_delivery demo_service 20 5 5 3 1 demo_sq4 system1 9 0 demo_sq_reachable4 eq_refl
    system1_steps system1_committed) as [[[ob H]|[[ob H]|H]] _]; [exfalso|exfalso|exact H].
  - change (db_outbox (ss_db (sy_store system1)) !! (9, 0%Z) = Some ob) in H. congruence.
  - change (db_quarantine (ss_db (sy_store system1)) !! (9, 0%Z) = Some ob) in H. congruence.
Defined.
