(* ===== verification/ConstructionProperties.v ===== *)
(** * Construction: theorems

    A service starts owning the store, with every interrupted task recovered,
    or it does not start and ownership is as before, or in the hands of the
    cleanup thread, or its loss has been reported.  No task is lost between one
    service and the next on its store. *)

From S2P Require Import Prelude TaskState Model Engine RetryPolicy Requests Handlers MemoryStore.
From S2P Require Import MemoryInvariant MemoryPreservation MemoryHistory MemoryQueries Fixtures.
From S2P Require Import RequestProperties TaskStore SqliteStore SqliteAdmin SqliteInvariant SqliteHistory.
From S2P Require Import StoreOwner Programs ServiceMonad Service ServiceLogic ServiceSpecs ServiceScheduler.
From S2P Require Import ServicePool ServiceRecovery ServiceAttempts ServiceFixtures.
From S2P Require Import Shutdown ShutdownThreads ShutdownInvariant ShutdownRefinement.
From S2P Require Import ShutdownProperties Construction.

Section construction_properties.
Context `{ET : !ExternalTypes, SJ : !SnapshotJson, CT : !CodecTypes, MW : !MetadataWire,
          HF : !HandlerFutures, EX : !ErrorTexts}.
Context {S : Type} `{TS : !TaskStore S, TL : !TaskStoreLaws S, OS : !OwnedStore S,
          OL : !OwnedStoreLaws S}.
Implicit Types (s : S) (w : World S).

(** ** Recovery *)

(** The operations of recovery. *)
Definition recovers X (op : Op X) : Prop :=
  match op with OpAccept _ _ | OpStart _ | OpProgress _ => False | _ => True end.

Lemma recovers_store_result {A} (res : result A StoreError) : all_ops recovers (store_result res).
Proof. destruct res as [a|e]; [done|]. destruct e; by repeat constructor. Qed.

Lemma recovers_records l : all_ops recovers (recover_records l).
Proof.
  induction l as [|t l IH]; [done|]. cbn [recover_records]. destruct (bool_decide _); [|done].
  split; [exact I|]. intros res. apply all_ops_bind; [apply recovers_store_result|]. by intros [?|?].
Qed.

Lemma recovers_unfinished fuel after : all_ops recovers (recover_pages fuel after).
Proof.
  revert after. induction fuel as [|fuel IH]; intros after; [done|]. split; [exact I|].
  intros [page|e]; [|done]. apply all_ops_bind; [apply recovers_records|].
  intros [?|?]; [|done]. by destruct (pg_next page).
Qed.

Lemma recovery_owner os fuel (w : World S * nat) :
  owner_of (w_store (run os (recover_unfinished fuel) w).2.1) = owner_of (w_store w.1).
Proof.
  apply (run_keeps recovers (λ w' : World S * nat, owner_of (w_store w'.1) = owner_of (w_store w.1)));
    [|apply recovers_unfinished|done].
  intros X op [w1 n] Hop <-. cbn [on_machine timed_machine fst snd]. unfold perform, on_store.
  destruct op; try done.
  - pose proof (law_owner_transition (or_now (os n)) c (w_store w1)) as H.
    unfold disk_write. destruct (or_disk _); [done|]. by destruct (do_transition _ _ _).
  - by destruct (f (w_core w1)).
Qed.

(** Recovery that succeeds latches no fault. *)
Lemma store_result_core {A} os (res : result A StoreError) a (w w' : World S * nat) :
  run os (store_result res) w = (Ok a, w') → w' = w.
Proof.
  destruct res as [x|e]; [by intros [= _ <-]|].
  destruct e; cbn [store_result]; rewrite ?run_bind; cbn [run fst]; intros H; by simplify_eq.
Qed.

Lemma records_core os l (w w' : World S * nat) :
  run os (recover_records l) w = (Ok tt, w') → w_core w'.1 = w_core w.1.
Proof.
  revert w. induction l as [|t l IH]; intros w; cbn [recover_records]; [by intros [= <-]|].
  destruct (bool_decide _); [|apply IH]. rewrite run_bind.
  assert (w_core (run os (call (OpTransition (recovery_command t))) w).2.1 = w_core w.1) as Hc.
  { cbn [run call on_machine timed_machine]. unfold perform, on_store. by destruct (disk_write _ _ _). }
  destruct (run os (call _) w) as [res w1]. cbn [fst snd] in *. rewrite <-Hc.
  unfold try_bind. rewrite run_bind. destruct (run os (store_result res) w1) as [[a|e] w2] eqn:Hr;
    [|done]. apply store_result_core in Hr as ->. apply IH.
Qed.

Lemma recovery_core os fuel after (w w' : World S * nat) :
  run os (recover_pages fuel after) w = (Some (Ok tt), w') → w_core w'.1 = w_core w.1.
Proof.
  revert after w. induction fuel as [|fuel IH]; intros after w; cbn [recover_pages]; [done|].
  rewrite run_bind. set (wn := (w.1, 1 + w.2)%nat).
  assert (run os (call (OpList (recovery_query after))) w =
          (disk_read (os w.2) (do_list (recovery_query after) (w_store w.1)), wn)) as -> by done.
  cbn [fst snd]. destruct (disk_read _ _) as [page|e]; [|done]. rewrite run_bind.
  change (w_core w.1) with (w_core wn.1).
  destruct (run os (recover_records (pg_records page)) wn) as [[[]|e] w1] eqn:Hr; cbn [fst snd];
    [|by intros [=]].
  apply records_core in Hr as <-. destruct (pg_next page); [apply IH|by intros [= <-]].
Qed.

Lemma recovered_running (m m' : gmap TaskId StoredTask) id task :
  match m !! id with
  | Some task => if task_terminal task then dropped_at_most m m' id
                 else m' !! id = Some (recovered_task task)
  | None => m' !! id = None
  end → m' !! id = Some task → ts_state (st_summary task) ≠ Running.
Proof.
  intros Hm Hid. destruct (m !! id) as [t|] eqn:Ht; [|congruence].
  destruct (task_terminal t) eqn:Hterm.
  - destruct Hm as [Hm|[Hm _]]; [|congruence]. rewrite Hm, Ht in Hid. injection Hid as ->.
    intros Hrun. unfold task_terminal in Hterm. by rewrite Hrun in Hterm.
  - simplify_eq. unfold recovered_task. case_decide as Hr; [|done]. cbn. by case_match.
Qed.

(** ** Failing *)

Definition owner_kept s (jobs : list OwnerEpoch) (reported : bool) s' : Prop :=
  owner_of s' = owner_of s ∨
  ∃ epoch, owner_of s = None ∧ owner_of s' = Some epoch ∧ (jobs = [epoch] ∨ reported = true).

Lemma fail_released_spec env e epoch s0 s :
  store_ok s → owner_of s0 = None → owner_of s = Some epoch →
  ∃ e' s' jobs reported, fail_released env e epoch s = NotBuilt e' s' jobs reported ∧
    store_ok s' ∧ tasks_of s' = tasks_of s ∧ owner_kept s0 jobs reported s'.
Proof.
  intros Hs H0 Ho. unfold fail_released, owner_kept. pose proof (law_release (be_unlock env) epoch s Hs) as Hl.
  destruct (do_release (be_unlock env) epoch s) as [r s']. destruct Hl as (Hs' & Ht & Hok & Hown).
  destruct r as [[]|re]; cbn [guard_release is_ok]; unfold return_error; cbn [guard_drop].
  - eexists _, _, _, _. split_and!; [done..|]. left. destruct (Hok eq_refl) as [_ ->]. done.
  - destruct (be_accepts env); eexists _, _, _, _; (split_and!; [done..|]);
      (destruct Hown as [Hown|[_ ->]]; [right; exists epoch; rewrite Hown; auto|by left]).
Qed.

Lemma prepare_publisher_spec bus s :
  store_ok s →
  let '(r, s') := prepare_publisher bus s in
  store_ok s' ∧ tasks_of s' = tasks_of s ∧ owner_of s' = owner_of s.
Proof.
  intros Hs. unfold prepare_publisher. destruct bus as [bus|]; [|done].
  destruct (negb (eb_durable bus)); [done|]. destruct (negb _); [done|].
  destruct (publisher_new bus); [|done]. pose proof (law_enable s Hs) as Hl.
  by destruct (do_enable_outbox s).
Qed.

(** ** The start *)

(** How [build] ends. *)
Definition built_ok cf s l : Prop :=
  owner_of s = None ∧ life_reachable cf l ∧ store_ok (w_store (lf_world l)) ∧
  (∃ epoch, lf_owner_guard l = Some (Some epoch) ∧ owner_of (w_store (lf_world l)) = Some epoch) ∧
  ∀ id, match tasks_of s !! id with
        | Some task => if task_terminal task
                       then dropped_at_most (tasks_of s) (tasks_of (w_store (lf_world l))) id
                       else tasks_of (w_store (lf_world l)) !! id = Some (recovered_task task)
        | None => tasks_of (w_store (lf_world l)) !! id = None
        end.
Definition not_built_ok s s' (jobs : list OwnerEpoch) (reported : bool) : Prop :=
  store_ok s' ∧ owner_kept s jobs reported s' ∧
  (is_Some (owner_of s) → tasks_of s' = tasks_of s) ∧
  partly_recovered (tasks_of s) (tasks_of s').

Lemma build_spec env recovery fuel pages b s :
  store_ok s → (∀ id, has_room id (tasks_of s)) → (size (tasks_of s) < recovery)%nat →
  match build env recovery fuel pages b s with
  | None => False
  | Some (Built l) => built_ok (builder_config b) s l
  | Some (NotBuilt e s' jobs reported) => not_built_ok s s' jobs reported
  end.
Proof.
  intros Hs Hroom Hfuel. unfold build, built_ok, not_built_ok.
  destruct (shared _ _ _).1; [|by split_and!; [|left| |reflexivity]].
  pose proof (law_acquire (be_lock env) s Hs) as Ha. destruct (do_acquire (be_lock env) s) as [r s1].
  destruct Ha as (Hs1 & Ht1 & Ha).
  destruct r as [epoch|e]; [|by split_and!; [|left|rewrite Ht1|rewrite Ht1; reflexivity]].
  destruct Ha as [H0 Ho1]. pose proof (prepare_publisher_spec (tb_event_bus b) s1 Hs1) as Hp.
  destruct (prepare_publisher (tb_event_bus b) s1) as [prepared s2]. destruct Hp as (Hs2 & Ht2 & Ho2).
  assert (owner_of s2 = Some epoch) as Ho by congruence.
  assert (∀ e s3, store_ok s3 → owner_of s3 = Some epoch → partly_recovered (tasks_of s) (tasks_of s3) →
    match fail_released env e epoch s3 with
    | Built l => False
    | NotBuilt e s' jobs reported => store_ok s' ∧ owner_kept s jobs reported s' ∧
        (is_Some (owner_of s) → tasks_of s' = tasks_of s) ∧
        partly_recovered (tasks_of s) (tasks_of s')
    end) as Hfail.
  { intros e s3 Hs3 Ho3 Hp3. destruct (fail_released_spec env e epoch s s3 Hs3 H0 Ho3)
      as (e' & s' & jobs & reported & -> & Hs' & -> & Hk). split_and!; [done..| |done].
    rewrite H0. by intros [? [=]]. }
  destruct prepared as [[]|e];
    [|specialize (Hfail e s2 Hs2 Ho ltac:(by rewrite Ht2, Ht1)); by destruct (fail_released _ _ _ _)].
  set (w := ({| w_store := s2; w_core := core_new |}, 0%nat)).
  pose proof (recover_unfinished_run (be_oracle env) recovery w) as Hrec.
  pose proof (recovery_owner (be_oracle env) recovery w) as Hown.
  pose proof (recovery_core (be_oracle env) recovery None w) as Hcore. unfold recover_unfinished in *.
  destruct (run _ (recover_pages recovery None) w) as [recovered [w' n]].
  destruct Hrec as (Hs' & Hnn & _ & Hpart & Hrec); [done|subst w; cbn; by rewrite Ht2, Ht1..|].
  cbn [fst snd] in Hown. subst w. cbn [fst w_store w_core] in *. rewrite Ht2, Ht1 in Hrec, Hpart.
  destruct recovered as [[[]|e]|]; [| |done].
  - specialize (Hrec eq_refl). specialize (Hcore _ eq_refl). split_and!; [done| |done| |exact Hrec].
    + by exists fuel, pages, epoch, w'.
    + exists epoch. split; [done|]. cbn [life_start lf_world]. congruence.
  - specialize (Hfail e (w_store w') Hs' ltac:(congruence) Hpart). by destruct (fail_released _ _ _ _).
Qed.

(** ** The theorems *)

(** C15. Starting a service: with fuel for more pages than the store has tasks
    it always comes to an end.  If it succeeds, no one owned the store before, the
    service owns it with the epoch its guard holds, no task is left running,
    every unfinished task is as recovery leaves it, and the service is in the
    state its other theorems start from.  If it fails, the ownership is as it
    was before, or the release is queued for the cleanup thread, or its failure
    has been reported; the tasks of a store that has an owner are not touched,
    and those of another are as they were or as recovery leaves them. *)
Theorem construction_exact env recovery fuel pages b s :
  store_ok s → (∀ id, has_room id (tasks_of s)) → (size (tasks_of s) < recovery)%nat →
  match build env recovery fuel pages b s with
  | None => False
  | Some (Built l) =>
      owner_of s = None ∧ life_reachable (builder_config b) l ∧
      store_ok (w_store (lf_world l)) ∧
      (∃ epoch, lf_owner_guard l = Some (Some epoch) ∧
                owner_of (w_store (lf_world l)) = Some epoch) ∧
      (∀ id task, tasks_of s !! id = Some task → task_terminal task = false →
         tasks_of (w_store (lf_world l)) !! id = Some (recovered_task task)) ∧
      (∀ id task, tasks_of (w_store (lf_world l)) !! id = Some task →
         ts_state (st_summary task) ≠ Running)
  | Some (NotBuilt e s' jobs reported) =>
      store_ok s' ∧ owner_kept s jobs reported s' ∧
      (is_Some (owner_of s) → tasks_of s' = tasks_of s) ∧
      partly_recovered (tasks_of s) (tasks_of s')
  end.
Proof.
  intros Hs Hroom Hfuel. pose proof (build_spec env recovery fuel pages b s Hs Hroom Hfuel) as Hb.
  destruct (build _ _ _ _ _ _) as [[l|e s' jobs reported]|]; [|exact Hb|exact Hb].
  destruct Hb as (H0 & Hr & Hs' & He & Hrec). split_and!; [done..| |].
  - intros id task Hid Ht. specialize (Hrec id). by rewrite Hid, Ht in Hrec.
  - intros id task Hid. exact (recovered_running _ _ id task (Hrec id) Hid).
Qed.

(** ** Restarting *)

Definition build_store (out : Build (S := S)) : S :=
  match out with Built l => w_store (lf_world l) | NotBuilt _ s _ _ => s end.

(** What recovery does to a task is one of its moves. *)
Lemma recovered_moves s id task :
  store_ok s → tasks_of s !! id = Some task → has_room id (tasks_of s) →
  task_moves task (recovered_task task).
Proof.
  intros Hs Hid Hroom. unfold recovered_task. case_decide as Hrun; [|reflexivity].
  destruct (Hroom task Hid) as [Hv _].
  apply (settled_moves id task (recovery_command (st_summary task)));
    [by apply (law_task s)|by apply recovery_allowed|done|].
  unfold honours, recovery_command, cancel_pending. rewrite Hrun. cbn.
  by destruct (ts_cancel_requested _).
Qed.

(** A start touches a task no further than recovery does. *)
Lemma build_task env recovery fuel pages b s out id task :
  store_ok s → (∀ id, has_room id (tasks_of s)) → (size (tasks_of s) < recovery)%nat →
  build env recovery fuel pages b s = Some out → tasks_of s !! id = Some task →
  match tasks_of (build_store out) !! id with
  | Some task' => task_moves task task' ∧
      (∀ l, out = Built l → ts_state (st_summary task') ≠ Running)
  | None => task_terminal task = true
  end.
Proof.
  intros Hs Hroom Hfuel Hb Hid. pose proof (build_spec env recovery fuel pages b s Hs Hroom Hfuel) as H.
  pose proof (recovered_moves s id task Hs Hid (Hroom id)) as Hm. rewrite Hb in H.
  destruct out as [l|e s' jobs reported]; cbn [build_store].
  - destruct H as (_ & _ & _ & _ & Hrec). specialize (Hrec id).
    pose proof (λ task', recovered_running _ _ id task' Hrec) as Hnot.
    destruct (tasks_of (w_store (lf_world l)) !! id) as [task'|] eqn:Hid'.
    + split; [|intros l' [= <-]; by apply Hnot].
      rewrite Hid in Hrec. destruct (task_terminal task); [|by injection Hrec as ->].
      destruct Hrec as [Hrec|[Hrec _]]; [|congruence].
      rewrite Hid', Hid in Hrec. injection Hrec as ->. reflexivity.
    + rewrite Hid in Hrec. by destruct (task_terminal task).
  - destruct H as (_ & _ & _ & Hpart). specialize (Hpart id). rewrite Hid in Hpart.
    destruct (task_terminal task) eqn:Ht.
    + destruct Hpart as [->|[-> _]]; [|done]. rewrite Hid. split; [reflexivity|done].
    + destruct Hpart as [-> | ->]; (split; [done || reflexivity|done]).
Qed.

Lemma build_new env recovery fuel pages b s out id :
  store_ok s → (∀ id, has_room id (tasks_of s)) → (size (tasks_of s) < recovery)%nat →
  build env recovery fuel pages b s = Some out → tasks_of s !! id = None →
  tasks_of (build_store out) !! id = None.
Proof.
  intros Hs Hroom Hfuel Hb Hid. pose proof (build_spec env recovery fuel pages b s Hs Hroom Hfuel) as H.
  rewrite Hb in H. destruct out as [l|e s' jobs reported]; cbn [build_store].
  - destruct H as (_ & _ & _ & _ & Hrec). specialize (Hrec id). by rewrite Hid in Hrec.
  - destruct H as (_ & _ & _ & Hpart). specialize (Hpart id). by rewrite Hid in Hpart.
Qed.

(** Ownership that was given up is gone from the store. *)
Lemma released_owner cf l l' :
  life_ok l → life_step cf l l' → (lf_owned l = false → owner_of (w_store (lf_world l)) = None) →
  lf_owned l' = false → owner_of (w_store (lf_world l')) = None.
Proof.
  intros Hok Hstep Hl Ho'. destruct (lf_owned l) eqn:Ho; cycle 1.
  { rewrite (quiet_steps cf l l' Hok Ho (rtc_once _ _ Hstep)). by apply Hl. }
  destruct Hstep as [a l l' Ha]. destruct (released_by cf a l l') as (o & unlock & epoch & He & Hst);
    [apply Hok|done..|].
  rewrite Hst. by apply law_released.
Qed.

Lemma lawful_owner cf x x' :
  life_ok x.1 → (lf_owned x.1 = false → owner_of (w_store (lf_world x.1)) = None) →
  rtc (lawful_step cf) x x' → lf_owned x'.1 = false → owner_of (w_store (lf_world x'.1)) = None.
Proof.
  intros Hok H0 Hr. induction Hr as [|x y z [a l l' n _ _ _ Ha] _ IH]; [done|].
  cbn [fst] in *. pose proof (life_does cf a _ _ Ha) as Hstep.
  apply IH; [by eapply life_ok_step|]. by eapply released_owner.
Qed.

(** C4. No task is lost between one service and the next.  Take any task that
    is in the store at any point of a service's life.  The service goes on from
    there and is stopped, or its process ends, at whatever point, even with a
    write of a dropped call under way; the store is then well-formed, and free
    of the owner if the service has given it up.  When a service is started on
    the tasks it finds there, the start comes to an end, and the task is in its
    store, at a later point of its lifecycle with the same request and no
    earlier version, and not running if the start has succeeded; or it is gone,
    and then the store had reported it finished to the first service, at no
    earlier version. *)
Theorem service_restart cf fuel pages epoch s0 l1 n1 l2 n2 id task env recovery fuel' pages' b s :
  store_ok s0 →
  rtc (lawful_step cf)
    (life_start cf fuel pages epoch {| w_store := s0; w_core := core_new |}, notes_start s0) (l1, n1) →
  rtc (lawful_step cf) (l1, n1) (l2, n2) → tasks_of (w_store (lf_world l1)) !! id = Some task →
  store_ok s → tasks_of s = tasks_of (w_store (lf_world l2)) → (∀ id, has_room id (tasks_of s)) →
  (size (tasks_of s) < recovery)%nat →
  store_ok (w_store (lf_world l2)) ∧
  (lf_owned l2 = false → owner_of (w_store (lf_world l2)) = None) ∧
  ∃ out, build env recovery fuel' pages' b s = Some out ∧
    match tasks_of (build_store out) !! id with
    | Some task' => task_moves task task' ∧
        (∀ l, out = Built l → ts_state (st_summary task') ≠ Running)
    | None => ∃ t, nt_finished n2 !! id = Some t ∧ is_terminal (ts_state t) = true ∧
        task_moves task {| st_request := st_request task; st_summary := t |}
    end.
Proof.
  intros H0 Hr1 Hr2 Hid Hs Htasks Hroom Hfuel.
  destruct (lawful_pool cf fuel pages epoch {| w_store := s0; w_core := core_new |} (l1, n1) (l2, n2)
    H0 eq_refl Hr1 Hr2) as (P & P' & Hp & Hpp & Hsim & Hsim').
  pose proof (service_reachable_ok cf P Hp) as Hok.
  destruct (pool_steps_ok cf P P' Hok Hpp) as [Hok' Hm]. cbn [fst snd] in Hsim, Hsim'.
  pose proof (po_inv _ _ Hok') as Hi'.
  assert (gtasks (p_ghost P) = tasks_of (w_store (lf_world l1))) as Hg
    by (unfold gtasks; by rewrite (sim_world _ _ _ Hsim)).
  assert (gtasks (p_ghost P') = tasks_of s) as Hg' by (unfold gtasks; by rewrite (sim_world _ _ _ Hsim')).
  assert (g_finished (p_ghost P') = nt_finished n2) as Hf by (by rewrite <-(sim_notes _ _ _ Hsim')).
  rewrite <-Hg in Hid.
  pose proof (mv_kept _ _ (mv_tasks _ _ _ Hm) id task (gi_used _ (po_inv _ _ Hok) _ _ Hid) Hid) as Hk.
  rewrite Hg', Hf in Hk. split_and!.
  - rewrite <-(sim_world _ _ _ Hsim'). apply (gi_store _ Hi').
  - assert (rtc (lawful_step cf) (life_start cf fuel pages epoch {| w_store := s0; w_core := core_new |},
      notes_start s0) (l2, n2)) as Hr by (etrans; [exact Hr1|exact Hr2]).
    refine (lawful_owner cf _ (l2, n2) _ _ Hr); [by apply life_ok_start|done].
  - pose proof (build_spec env recovery fuel' pages' b s Hs Hroom Hfuel) as Hb.
    destruct (build env recovery fuel' pages' b s) as [out|] eqn:Hout; [|done]. clear Hb.
    exists out. split; [done|].
    destruct (tasks_of s !! id) as [task2|] eqn:Hid2; cbn [task_kept_as] in Hk.
    + pose proof (build_task _ _ _ _ _ _ _ _ _ Hs Hroom Hfuel Hout Hid2) as Ht.
      destruct (tasks_of (build_store out) !! id) as [task'|].
      { destruct Ht as [Ht Hn]. split; [by etrans|done]. }
      exists (st_summary task2). rewrite <-Hf. rewrite <-Hg' in Hid2.
      rewrite (gi_finished _ Hi' id task2 Hid2), Ht. split_and!; [done|done|].
      rewrite <-(adv_request _ _ (tm_advances _ _ Hk)). by destruct task2.
    + pose proof (build_new _ _ _ _ _ _ _ _ Hs Hroom Hfuel Hout Hid2) as ->. exact Hk.
Qed.
End construction_properties.

Lemma foldl_keeps {A B} (f : A → B → A) (P : A → Prop) l a :
  P a → (∀ a b, P a → P (f a b)) → P (foldl f a l).
Proof. intros Ha Hf. revert a Ha. induction l as [|b l IH]; intros a Ha; cbn; auto. Qed.

(** Whatever is called on a builder, the options it passes on are in range:
    at least one running task, one attempt and one bypass, and between 1 and
    256 tasks per page of a scan, so that no page of the scheduler is refused
    for its size. *)
Theorem builder_limits `{ET : !ExternalTypes, CT : !CodecTypes, HF : !HandlerFutures}
    parallelism codecs calls after now (s : MemoryState) :
  let cf := builder_config (foldl (λ b c, builder_call c b) (builder_new parallelism codecs) calls) in
  1 ≤ cf_max_running_tasks cf ∧ 1 ≤ cf_max_attempts cf ∧ 1 ≤ cf_max_resource_bypasses cf ∧
  1 ≤ cf_scan_page_size cf ∧ cf_scan_page_size cf ≤ 256 ∧
  ∃ page, list_ready_queued after (cf_scan_page_size cf) now s = Ok page.
Proof.
  intros cf.
  assert (1 ≤ cf_max_running_tasks cf ∧ 1 ≤ cf_max_attempts cf ∧ 1 ≤ cf_max_resource_bypasses cf ∧
    1 ≤ cf_scan_page_size cf ∧ cf_scan_page_size cf ≤ 256) as (H1 & H2 & H3 & H4 & H5).
  { subst cf. cbn [builder_config cf_max_running_tasks cf_max_attempts cf_max_resource_bypasses
      cf_scan_page_size].
    apply (foldl_keeps _ (λ b, 1 ≤ tb_max_running_tasks b ∧ 1 ≤ tb_max_attempts b ∧
      1 ≤ tb_max_resource_bypasses b ∧ 1 ≤ tb_scan_page_size b ∧ tb_scan_page_size b ≤ 256)).
    - destruct parallelism as [n|]; cbn; lia.
    - intros b [] H; cbn; lia. }
  split_and!; [done..|]. unfold list_ready_queued, MAX_TASK_QUERY_LIMIT.
  rewrite (proj2 (N.ltb_ge _ _)) by done. by eexists.
Qed.

(** C20. The SQLite store forgets its owner before it unlocks the lock file: when
    unlocking fails, the release reports the failure, and every later attempt
    to release the same ownership is a conflict. *)
Theorem sqlite_release_not_retryable `{ET : !ExternalTypes} e epoch (s : SqliteTaskStore) :
  ss_epoch s = Some epoch → ss_lock_file s = true →
  (store_release_owner (Err e) epoch s).1 = Err e ∧
  ∀ unlock, (store_release_owner unlock epoch (store_release_owner (Err e) epoch s).2).1
            = Err OwnerConflict.
Proof.
  intros He Hl. unfold store_release_owner at 1 3. rewrite He, Hl, bool_decide_true by done. done.
Qed.

(** ** A concrete start *)

#[local] Existing Instances fixture_types fixture_json fixture_codec_types fixture_wire
  fixture_futures fixture_texts fixture_store fixture_store_laws fixture_owned fixture_owned_laws.

Definition demo_builder : TypedTaskExecutionServiceBuilder :=
  builder_call (SetScanPageSize 1000) (builder_call (SetMaxAttempts 2) (builder_new (Some 4%positive) demo_codecs)).
Definition demo_environment : BuildEnvironment :=
  {| be_poisoned := None; be_start := CleanupReports (Ok tt); be_slot := false; be_lock := Ok tt; be_unlock := Ok tt;
     be_oracle := λ _, demo_oracle 10 0 succeeds; be_accepts := true |}.
(** A store whose task 1 is running, with a cancellation request. *)
Definition interrupted : MemoryState := w_store (g_world (p_ghost demo_pool3)).
Definition is_built (b : option (Build (S := MemoryState))) : bool :=
  match b with Some (Built _) => true | _ => false end.

Lemma construction_exact_witness :
  ∃ l, build demo_environment 2 20 5 demo_builder interrupted = Some (Built l) ∧
    ∃ epoch, lf_owner_guard l = Some (Some epoch) ∧
             owner_of (w_store (lf_world l)) = Some epoch.
Proof.
  assert (is_built (build demo_environment 2 20 5 demo_builder interrupted) = true) as Hb
    by (vm_compute; reflexivity).
  assert (room_b (p_ghost demo_pool3) = true) as Hroom by (vm_compute; reflexivity).
  apply room_b_true in Hroom. unfold room, gtasks in Hroom.
  assert ((size (tasks_of interrupted) <? 2)%nat = true) as Hsize by (vm_compute; reflexivity).
  pose proof (construction_exact demo_environment 2 20 5 demo_builder interrupted
    (gi_store _ (po_inv _ _ (service_reachable_ok _ _ demo_pool3_reachable))) Hroom
    (proj1 (Nat.ltb_lt _ _) Hsize)) as H.
  destruct (build demo_environment 2 20 5 demo_builder interrupted) as [[l|e s' jobs reported]|];
    [|discriminate Hb|discriminate Hb].
  destruct H as (_ & _ & _ & Hepoch & _). exists l. split; [reflexivity|exact Hepoch].
Defined.

Lemma sqlite_release_not_retryable_witness :
  let s := (store_acquire_owner (Ok tt) (sqlite_open db_new)).2 in
  (store_release_owner (Err (Failure "unlock")) 1 s).1 = Err (Failure "unlock") ∧
  ∀ unlock, (store_release_owner unlock 1 (store_release_owner (Err (Failure "unlock")) 1 s).2).1
            = Err OwnerConflict.
Proof. intros s. apply (sqlite_release_not_retryable (Failure "unlock") 1 s); reflexivity. Defined.

(** A service whose process ends while task 1 is running. *)
Definition restart_start : Life * Notes := (demo_life0, notes_start (w_store owned_world)).
Definition restart_point : Life * Notes :=
  default restart_start (lawful_run asked_to_stop restart_start).
Definition left_store : MemoryState := w_store (lf_world restart_point.1).
(** What the next one finds: the tasks, and nobody owns them. *)
Definition found_store : MemoryState := (do_release (Ok tt) 1 left_store).2.

Lemma restart_steps : rtc (lawful_step demo_service) restart_start restart_point.
Proof.
  assert (is_some (lawful_run asked_to_stop restart_start) = true) as Hb by (vm_compute; reflexivity).
  unfold restart_point. destruct (lawful_run asked_to_stop restart_start) as [x|] eqn:Hx; [|discriminate Hb].
  exact (lawful_run_steps _ _ _ Hx).
Qed.

Lemma found_store_ok : store_ok found_store ∧ tasks_of found_store = tasks_of left_store.
Proof.
  destruct (lawful_pool demo_service 20 5 1 owned_world restart_point restart_point) as (P & _ & Hp & _ & Hs & _);
    [apply acquire_owner_wf, wf_new|reflexivity|exact restart_steps|reflexivity|].
  assert (store_ok left_store) as Hok.
  { unfold left_store. rewrite <-(sim_world _ _ _ Hs). apply (gi_store _ (po_inv _ _ (service_reachable_ok _ _ Hp))). }
  pose proof (law_release (Ok tt) 1 left_store Hok) as Hl. unfold found_store.
  destruct (do_release (Ok tt) 1 left_store) as [r s']. destruct Hl as (H1 & H2 & _).
  split; [exact H1|exact H2].
Qed.

Lemma service_restart_witness :
  (λ task, ts_state (st_summary task)) <$> tasks_of left_store !! 1 = Some Running ∧
  ∃ task l task', tasks_of left_store !! 1 = Some task ∧
    build demo_environment 2 20 5 demo_builder found_store = Some (Built l) ∧
    tasks_of (w_store (lf_world l)) !! 1 = Some task' ∧ task_moves task task' ∧
    ts_state (st_summary task') ≠ Running.
Proof.
  assert ((λ task, ts_state (st_summary task)) <$> tasks_of left_store !! 1 = Some Running) as Hrun
    by (vm_compute; reflexivity). split; [exact Hrun|].
  assert (roomy restart_point.1 = true) as Hroom by (vm_compute; reflexivity).
  apply roomy_room in Hroom. unfold life_room in Hroom. fold left_store in Hroom.
  destruct found_store_ok as [Hs Ht]. rewrite <-Ht in Hroom.
  assert ((size (tasks_of found_store) <? 2)%nat = true) as Hsize by (vm_compute; reflexivity).
  assert (is_built (build demo_environment 2 20 5 demo_builder found_store) = true) as Hb
    by (vm_compute; reflexivity).
  assert (match build demo_environment 2 20 5 demo_builder found_store with
          | Some out => is_some (tasks_of (build_store out) !! 1) | None => false end = true) as Hthere
    by (vm_compute; reflexivity).
  destruct (tasks_of left_store !! 1) as [task|] eqn:Hid; [|discriminate Hrun].
  destruct (service_restart demo_service 20 5 1 (w_store owned_world) restart_point.1 restart_point.2
    restart_point.1 restart_point.2 1 task demo_environment 2 20 5 demo_builder found_store)
    as (_ & _ & out & Hout & Hk).
  - apply acquire_owner_wf, wf_new.
  - pose proof restart_steps as Hr. rewrite (surjective_pairing restart_point) in Hr. exact Hr.
  - reflexivity.
  - exact Hid.
  - exact Hs.
  - exact Ht.
  - exact Hroom.
  - exact (proj1 (Nat.ltb_lt _ _) Hsize).
  - rewrite Hout in Hb, Hthere. destruct out as [l|e s' jobs reported]; [|discriminate Hb].
    cbn [build_store] in Hk, Hthere.
    destruct (tasks_of (w_store (lf_world l)) !! 1) as [task'|] eqn:Hid'; [|discriminate Hthere].
    destruct Hk as [Hm Hn]. exists task, l, task'. split; [reflexivity|]. split; [exact Hout|].
    split; [exact Hid'|]. split; [exact Hm|]. exact (Hn l eq_refl).
Defined.
